(* ===== verification/_CoqProject ===== *)
-Q . S2P
Prelude.v
Js.v
JsMap.v
Ids.v
Contracts.v
SessionTypes.v
SessionState.v
SessionDecider.v
SessionLegal.v
SessionInv.v
SessionInvariants.v
SessionRefine.v
SessionCommands.v
SessionProps.v
Dispatch.v
DispatchEngine.v
DispatchProps.v
Chat.v
AggregateProps.v
Jobs.v
JobLedger.v
LedgerInv.v
JobLedgerProps.v
JobWorker.v
JobWorkerProps.v
SessionDomain.v
SessionDomainProps.v
Keybindings.v
WhenClause.v
WhenClauseProps.v
KeyRules.v
KeyRulesProps.v
Timeline.v
TimelineProps.v
TurnProtocol.v
TurnProtocolProps.v
Consumers.v
ConsumersProps.v
ChatProjector.v
ChatProjectorProps.v
ClientTimeline.v
ClientTimelineProps.v
SessionStream.v
SessionStreamProps.v
SessionTables.v
SessionStatements.v
SessionProjections.v
SessionProjector.v
SessionShows.v
SessionSteps.v
SessionProjectorProps.v
Mailbox.v
MailboxInv.v
MailboxRows.v
MailboxSteps.v
MailboxProps.v
MailboxClient.v
MailboxClientProps.v
ClientContracts.v
ClientContractsProps.v
ClientOutbox.v
ClientOutboxProps.v
ClientBus.v
ClientBusLogic.v
ClientDelivery.v
ClientBusInv.v
ClientLanes.v
ClientBusProps.v
