(* ===== verification/Prelude.v ===== *)
(** * Zuse: a verification development of the agent engine

    Zuse runs coding agents. A _session_ is an event-sourced aggregate: commands are
    decided on the fold of the session's events, the decided events are appended with a
    receipt, and in the same transaction the read models advance and the jobs the events
    imply are written. A worker executes the jobs against a provider, whose events are
    correlated with turns and come back as commands. Clients keep a replica of every
    session they show, fed by a stream of snapshots and events. Commands for a workspace in
    the cloud wait in a mailbox until its runtime leases, applies and acknowledges them; a
    client keeps its commands in an outbox until they have their receipt.
    This development models that core of packages/domain, packages/agents/kernel,
    packages/client-runtime and infra/api as executable definitions, and the keybindings
    of packages/contracts and of the renderer, and proves what makes each part correct
    and what the parts promise to each other. File names below are under src/.

    ** The parts, their sources and their files

    - Shared ground: [Prelude] (results, nullish values, record update, list lemmas),
      [Js] (numbers and strings of the host), [JsMap] (insertion-ordered maps).
    - Contracts and identifiers: [Ids] (agent-engine/ids.ts), [Contracts]
      (packages/contracts: the literal unions and message contents).
    - The session aggregate: [SessionTypes] (core/session-fields.ts, commands.ts,
      events.ts), [SessionState] (core/state.ts: a definition per event, [evolve],
      [evolveAll]), [SessionDecider] (core/decider.ts: a definition per command,
      [decide_command]). Its abstract specification is the transition system [legal] of
      [SessionLegal]; [SessionInv] and [SessionInvariants] hold the invariants,
      [SessionRefine] and [SessionCommands] prove that commands only produce legal runs,
      [SessionProps] states what sessions guarantee.
    - Dispatch: [Dispatch] (engine/dispatch.ts: receipts, storage), [DispatchEngine]
      (engine/dispatch.ts, aggregate-dispatch.ts). Storages and aggregates are the
      classes [DispatchStorage] and [Aggregate] with the laws [DispatchStorageLaws] and
      [AggregateLaws]; [DispatchProps] and [AggregateProps] prove the engines against
      them. The in-memory storage of the source and [Chat] (domain/chat) are instances.
    - Jobs: [Jobs] (agent-engine/jobs.ts), [JobLedger] (job-ledger.ts: one definition
      per SQL statement), [JobWorker] (job-worker.ts), with [LedgerInv],
      [JobLedgerProps] and [JobWorkerProps].
    - The session domain: [SessionDomain] (engine/session-domain.ts, admission.ts)
      composes dispatch, projection, cancellation and jobs in one transaction;
      [SessionDomainProps] proves the outbox.
    - Consumers: [Consumers] (engine/cursor-storage.ts, projector-runner.ts,
      reactor-runner.ts, sql-consumer-storage.ts, persisted-event.ts,
      reactors/conversation.ts, the reactor of the permission service) behind the
      classes [CursorStorage] and [ProjectorStorage] with their laws in
      [ConsumersProps]; [ChatProjector] (projectors/sql-chat-projector.ts,
      chat-last-message-projection.ts) is a projector run by it, [ChatProjectorProps]
      its refinement.
    - The sessions read model: [SessionTables] (the tables of the migrations),
      [SessionStatements] and [SessionProjections] (projectors/sql-session-projector.ts,
      sql-attempt-projector.ts, sql-execution-step-projector.ts, sql-input-projector.ts),
      [SessionProjector] (the projector as [Consumers] runs it). [SessionShows] says what
      it means that the tables show a session, [SessionSteps] that every event's
      statements keep it so, [SessionProjectorProps] concludes.
    - The cloud mailbox: [Mailbox] (infra/api/workspace-mailbox.ts with
      contracts/cloud-commands.ts and the lanes of packages/cloud-commands) is the durable
      object: a definition per transaction, its handlers, its alarm, its watchers and its
      losses. [MailboxInv] has the life of a command, the invariant and the step relation,
      [MailboxRows] and [MailboxSteps] prove that every operation is a step,
      [MailboxProps] the theorems. [MailboxClient]
      (client-runtime/cloud-command-transport.ts) is the watch that clients share,
      [MailboxClientProps] proves client and mailbox together.
    - A client's commands: [ClientContracts] (client-runtime/resource-ref.ts,
      resource-state.ts, client-command-target.ts, client-persistence.ts: resource keys,
      views, the identity of a command), [ClientContractsProps]; [ClientOutbox] has the
      outbox as the class [CommandOutbox] with its laws [CommandOutboxLaws] and the two
      stores of the renderer's client-command-outbox.ts, which [ClientOutboxProps] proves
      to be instances. [ClientBus] (client-runtime/client-bus.ts) has the delivery of a
      command as a program over actions, and the bus as a state of fibers that run such
      programs, whose events are the answers they wait for, disposal, loss of the client,
      and what the platform does. [ClientBusLogic] has the abstract delivery ([life_of])
      and a weakest precondition for programs, [ClientDelivery] proves the program,
      [ClientBusInv] every event of the bus, over any outbox with the laws, [ClientLanes]
      the order of the commands of a lane, and [ClientBusProps] states what follows.
    - The provider's side: [TurnProtocol] (agents/kernel/turn-protocol.ts) is the
      turn-scoped handle as a state machine whose steps are the handlers, and
      [TurnProtocolProps] its invariants, accounts and progress.
    - The clients' side: [Timeline] (projectors/timeline-reducer.ts,
      timeline-projection.ts, execution-steps.ts) is the projection server and clients
      fold; [ClientTimeline] (client-runtime/session-timeline.ts) is the replica;
      [SessionStream] (the streams of engine/session-domain.ts,
      queries/session-timeline-snapshot.ts, sql-session-queries.ts, the session.events
      handler, the driver's request) is what feeds it. [TimelineProps],
      [ClientTimelineProps] and [SessionStreamProps] carry the theorems.
    - Keybindings: [Keybindings] and [WhenClause] (contracts/keybindings-parse.ts),
      [KeyRules] (the default rules, resolution, dispatch and keymaps of the renderer),
      with [WhenClauseProps] and [KeyRulesProps].

    ** How states and operations correspond to the code

    Records are the source's interfaces, inductive types its tagged unions, one
    definition is one function, handler or SQL statement, with its guards in the
    source's order. Errors are [result]s, absent values [option]s ([option (option _)]
    where absent and null differ). A table is the list of its rows (in the order of its
    sequence) or a [gmap] by its key; a transaction that fails gives back the tables it
    started from. Shared mutable collections of the batched fold ([evolveAll]), of the
    turn protocol (deferreds, child sets) and of the job worker are explicit state.
    Readings of the clock, fresh ids, what a provider answers and the interleaving of
    concurrent runs are arguments, so the theorems hold for all of them.

    ** What the theorems show

    - Sessions: every state that commands reach satisfies the invariants
      ([session_invariants_reachable]), commands refine the transition system
      ([decide_refines_legal]), one attempt runs ([single_running_attempt]), checkpoints
      only move forward, expiry always ends the attempt, the batched fold is the fold.
    - Dispatch: streams of a storage fold to states the decider reaches, a prepared
      append commits, ownership is checked at commit, repeated commands write nothing.
    - Jobs: the table is the outbox of the log ([outbox_reachable]), its rows are well
      formed, only the holder of a lease settles, expired claimants are fenced, settlement
      is total, and a drain that runs alone ends, although its executions commit and cancel
      jobs and their heartbeats renew the lease ([drain_terminates]).
    - Consumers: projectors apply every event exactly once and catch up, reactors skip
      and repeat no command, groups keep the order of streams; the cursor of the session
      projector is moved by its runner and by dispatches ([project_step]). The chats read
      model shows the chats ([chat_read_model_shows_chats]) and the sessions read model the
      sessions ([session_read_model_shows_sessions]).
    - Mailbox: it is well formed whatever happens ([mailbox_invariant_reachable]), no
      command is lost and each only moves along its life ([commands_follow_life]), a
      command is leased to one runtime at a time and again only after a fence
      ([leases_are_exclusive]), the holder of a lease and nobody else settles its command
      ([acknowledgment_needs_lease]), the alarm is never lost ([alarm_never_lost]); and a
      client that waits learns the outcome, or reports the failure of a request, which says
      nothing of the command ([client_learns_outcome]).
    - Client commands: what leaves a client for a command that is safe to retry is a run
      of the abstract delivery, and the outbox has what is needed to go on with it, through
      losses of the client at any point ([deliveries_follow_life]); the mailbox gets one
      envelope and then no live execution ([one_envelope_until_completed]), both as long as
      the outbox answers ([reliable]); nothing is sent
      without authority or after the receipt ([requests_are_rightful]); live commands of a
      lane run in order ([lane_runs_in_order]); both stores are outboxes
      ([stores_implement_outbox]); resource ids are unambiguous ([resource_keys_distinct]).
    - Turn protocol: a turn ends once and its children before it, turns and completions
      balance, an attempt asks the provider once, interrupts are released.
    - Clients: the timeline tracks the session ([timeline_tracks_commands])
      and is well formed whatever events arrive ([timeline_well_formed]), event streams
      neither lose nor repeat ([event_stream_exact]), a replica shows what the server had at
      its cursor whatever frames arrive, but for messages it has not got yet or that the
      user just sent ([client_follows_server]), its cursor never goes back, and a
      subscription in the foreground, with nothing pending, ends live with the server's
      projection, whether the client had cached nothing, a part or all
      ([subscription_live]).
    - Keybindings: the parser implements its grammar, printing round trips up to the
      parser's nesting limit and recording for keys that can be typed, the default rules
      are unambiguous on macOS and share two chords elsewhere.

    Examples next to the theorems record where the code does not do what it means to:
    [steer_again_replaces_successor], [replayed_interrupt_cancels_sends],
    [unreadable_row_blocks], [takeover_strands_children], [unreadable_message_refused],
    [optimistic_message_fails_snapshot], [reused_turn_id_keeps_old_row],
    [refused_reserve_delays_alarm], [cancelled_though_applied],
    [failed_read_drops_sent_command], [failed_read_seals_second_envelope],
    [lane_runs_two_at_once], [nesting_limit] and those of [KeyRulesProps], such as
    [space_recorded] and [ctrl_k_deletes_in_composer]. [dispatch_behind_skips] shows why a
    dispatch has to find its projector caught up.

    ** Fuel and bounds

    [drain_loop] takes one unit per claimed job; [drain_terminates] gives the fuel that
    suffices, [table_budget]: the attempts left to the jobs of the table, each worth the
    weight of its job. The parser's fuel is the length of
    its input, enough by [parseWhen_total]. [history] takes one unit per page; the
    number of the session's rows suffices ([subscription_live]). Versions, ordinals and
    times are [Z], exact below 2^53 in the source; numbers that the code validates are
    [Js.num], with fractions, infinities and NaN. The limits of the source are kept as
    they are (200 steps, 100 messages per page, 4096 remembered items, 900 KiB of
    snapshot, a nesting limit of 64; 256 commands, 8 MiB and
    10000 changes in a mailbox). A watch of the mailbox resolves its observers after at
    most one answer per revision ([client_learns_outcome]).

    ** Parameters and hypotheses

    Code outside of the repository is an argument: the schema library's decoders
    ([ContentCodec], [TimelineCodec], [RequestCodec], the event decoder of the SQL
    storage), text collation ([Collation], a total order in [CollationLaws]), the case
    mapping of non-ASCII letters ([UnicodeCase]), JSON sizes ([projectionBytes],
    [recordBytes], [envelopeBytes] of [MailboxEnv]), two functions of SQLite ([Sqlite]), event id sources, the digest of a command's
    identity ([Sha256]), the functions a platform configures a bus with ([BusOptions]).
    The theorems about the bus assume one retry policy per command id, and that the outbox
    does not fail to list all its rows, or to write one, while it has the row of the
    command ([reliable]; [failed_read_drops_sent_command] shows why). A drain is alone
    ([drains_alone]): no other fiber runs jobs, each step of an execution comes before its
    lease runs out, which heartbeats renew, and the jobs it commits weigh less than its own. A client's cache holds what
    the server had, or a part of it ([cache_shows]). The clock of a durable object stands still within a synchronous transaction, so each stage of a
    mailbox request has one time. Every theorem with hypotheses has a witness at
    concrete values.

    ** Not modelled

    Most SQL queries: the snapshot takes what it reads of the other tables as an
    argument. The tables of projects and worktrees, to which sessions refer. The
    encryption of cloud commands and their enqueueing through the control plane: for the
    bus they are answers of the transport. Of the
    bus, the resource cells with their drivers, cache and synchronization, the handles that
    cancel commands, a bus without outbox or executor, and callers that change a command
    after they dispatched it. The background loops of the job worker, its wake-ups and its
    map of cancellations: an execution that is cancelled through it ends with that exit in
    the argument [execute], which also orders the executor's writes and the heartbeats. The
    loop of the client's timeline driver with its checkpoints, and the
    runtime observations the server merges into the stream. The adapters of providers,
    sandboxes, machines and billing, git, ssh and tailnet wrappers: they call services and programs
    that are not in the repository. The other HTTP routes and stores of infra/api, the RPC
    handlers of apps/server, and user interfaces: effects without a contract of their
    own here, to be taken up component by component. *)
From stdpp Require Export prelude gmap strings pretty.

(** Results of fallible code: the success and failure sides of the source's
    [Result.Result<A, E>]. *)
Inductive result (A E : Type) : Type :=
| Success (a : A)
| Failure (e : E).
Arguments Success {A E} a.
Arguments Failure {A E} e.

Declare Scope zuse_scope.
Delimit Scope zuse_scope with zuse.
Open Scope zuse_scope.

Definition result_map {A B E} (f : A → B) (r : result A E) : result B E :=
  match r with Success a => Success (f a) | Failure e => Failure e end.
Definition result_bind {A B E} (f : A → result B E) (r : result A E) : result B E :=
  match r with Success a => f a | Failure e => Failure e end.
Definition is_success {A E} (r : result A E) : bool :=
  match r with Success _ => true | Failure _ => false end.

Notation "x ←! r ; k" := (result_bind (λ x, k) r)
  (at level 100, r at next level, k at level 200, right associativity,
   only parsing) : zuse_scope.

(** The nullish-coalescing operator [a ?? b] on values that may be absent. *)
Definition nullish {A} (o p : option A) : option A :=
  match o with Some _ => o | None => p end.
Notation "o ?? p" := (nullish o p) (at level 55, right associativity) : zuse_scope.

Lemma nullish_Some {A} (a : A) p : (Some a ?? p) = Some a.
Proof. done. Qed.
Lemma nullish_is_Some {A} (o p : option A) :
  is_Some (o ?? p) ↔ is_Some o ∨ is_Some p.
Proof. destruct o, p; simpl; unfold is_Some; naive_solver. Qed.

(** ** Functional record update: [r <| f := v |>] *)
Class Settable (R : Type) := settable_eta : R → R.
Class Setter {R T : Type} (proj : R → T) := over : (T → T) → R → R.
Arguments over {R T} proj {_} g r /.

Ltac solve_setter :=
  lazymatch goal with
  | |- @Setter ?R ?T ?proj =>
      let body := eval hnf in (@settable_eta R _) in
      let abs := eval pattern proj in body in
      lazymatch abs with
      | ?mk _ =>
          let t := constr:(fun g : T → T => mk (fun r : R => g (proj r))) in
          let t := eval cbv beta in t in
          exact t
      end
  end.
#[export] Hint Extern 0 (Setter _) => solve_setter : typeclass_instances.

Notation "r <| f := v |>" := (over f (λ _, v) r)
  (at level 1, f at level 0, v at level 200, left associativity,
   format "r  <| f  :=  v |>") : zuse_scope.
Notation "r <| f '::=' g |>" := (over f g r)
  (at level 1, f at level 0, g at level 200, left associativity,
   format "r  <| f  ::=  g |>") : zuse_scope.

(** ** Shared automation *)

Create HintDb zuse discriminated.

(** Splits the first [match] or [if] of the goal or a hypothesis, keeping the
    equation. *)
Ltac split_match :=
  match goal with
  | |- context [match ?x with _ => _ end] => destruct x eqn:?
  | H : context [match ?x with _ => _ end] |- _ => destruct x eqn:?
  end.

(** Splits hypotheses of the form "decision = Success evs" down to the branch
    that produced the events. *)
Ltac inv_success :=
  repeat match goal with
  | H : Success _ = Success _ |- _ => injection H as H; subst
  | H : Failure _ = Success _ |- _ => discriminate H
  | H : Success _ = Failure _ |- _ => discriminate H
  | H : Failure _ = Failure _ |- _ => injection H as H; subst
  | H : context [match ?x with _ => _ end] |- _ =>
      lazymatch type of H with
      | _ = Success _ => destruct x eqn:?
      | _ = Failure _ => destruct x eqn:?
      end
  end.

(** ** Options and lists *)

Lemma default_Some_inv {A} (d : A) o x :
  default d o = x → o = Some x ∨ (o = None ∧ d = x).
Proof. destruct o; simpl; naive_solver. Qed.

Lemma Forall_foldl {A S} (P : S → Prop) (f : S → A → S) l s :
  P s → (∀ s a, a ∈ l → P s → P (f s a)) → P (foldl f s l).
Proof.
  revert s; induction l as [|a l IH]; intros s Hs Hf; simpl; [done|].
  apply IH.
  - apply Hf; [left|done].
  - intros s' a' Hin. apply Hf. by right.
Qed.

Lemma list_find_filter_none {A} (P : A → Prop) `{∀ x, Decision (P x)} l :
  list_find P l = None ↔ filter P l = [].
Proof.
  induction l as [|x l IH]; [done|]. rewrite filter_cons. simpl.
  case_decide; [done|]. rewrite <-IH. destruct (list_find P l); done.
Qed.

(** The one match of a filter. *)
Lemma filter_none {A} (P : A → Prop) `{∀ x, Decision (P x)} l :
  (∀ x, x ∈ l → ¬ P x) → filter P l = [].
Proof.
  induction l as [|y l IH]; [done|]. intros Hn. rewrite filter_cons_False by (apply Hn; left).
  apply IH. intros x Hx. apply Hn. by right.
Qed.
Lemma filter_singleton_lookup {A} (P : A → Prop) `{∀ x, Decision (P x)} (i : nat) l x :
  l !! i = Some x → P x → (∀ j y, l !! j = Some y → P y → j = i) → filter P l = [x].
Proof.
  revert i. induction l as [|y l IH]; intros i Hi Hx Hu; [done|]. destruct i as [|i]; cbn in Hi.
  - injection Hi as ->. rewrite filter_cons_True by done. f_equal. apply filter_none.
    intros z (j & Hj)%list_elem_of_lookup Hz. by specialize (Hu (S j) z Hj Hz).
  - rewrite filter_cons_False by (intros Hy; by specialize (Hu 0%nat y eq_refl Hy)).
    apply (IH i); [done..|]. intros j z Hj Hz. specialize (Hu (S j) z Hj Hz). lia.
Qed.
Lemma list_filter_all_lookup {A} (P : A → Prop) `{∀ x, Decision (P x)} (l : list A) :
  (∀ i x, l !! i = Some x → P x) → filter P l = l.
Proof.
  induction l as [|x l IH]; intros Hall; [done|].
  rewrite filter_cons_True by (by apply (Hall 0%nat)). f_equal.
  apply IH. intros i y Hi. by apply (Hall (S i)).
Qed.
