(* ===== verification/Js.v ===== *)
(** * JavaScript values the program computes with

    Strings are their UTF-8 bytes (every string the program stores is
    well-formed, so a lone surrogate does not occur). Numbers that the code
    itself counts (versions, ordinals, times in milliseconds) are [Z]: the code
    only adds one to them or copies them, which is exact below 2^53. Numbers the
    code validates ([Number.isInteger], [Number.isSafeInteger]) are [num], which
    also has the fractions, the infinities and NaN. *)
From Stdlib Require Import Ascii QArith.QArith_base.
From S2P Require Import Prelude.

Local Open Scope Z_scope.

(** ** Numbers *)

Inductive num : Type :=
| Fin (q : Q)
| PosInf
| NegInf
| NaN.

Definition num_of_Z (z : Z) : num := Fin (Qmake z 1).

Definition num_ltb (a b : num) : bool :=
  match a, b with
  | NaN, _ | _, NaN => false
  | Fin p, Fin q => Z.ltb (Qnum p * Zpos (Qden q)) (Qnum q * Zpos (Qden p))
  | NegInf, NegInf => false
  | NegInf, _ => true
  | _, NegInf => false
  | PosInf, _ => false
  | Fin _, PosInf => true
  end.
Definition num_eqb (a b : num) : bool :=
  match a, b with
  | Fin p, Fin q => Z.eqb (Qnum p * Zpos (Qden q)) (Qnum q * Zpos (Qden p))
  | PosInf, PosInf | NegInf, NegInf => true
  | _, _ => false
  end.
Definition num_leb (a b : num) : bool := num_ltb a b || num_eqb a b.

(** [Number.isInteger] and [Number.isSafeInteger]. *)
Definition isInteger (a : num) : bool :=
  match a with
  | Fin q => Z.eqb (Qnum q mod Zpos (Qden q)) 0
  | _ => false
  end.
Definition MAX_SAFE_INTEGER : Z := 9007199254740991.
Definition isSafeInteger (a : num) : bool :=
  isInteger a && num_leb a (num_of_Z MAX_SAFE_INTEGER)
  && num_leb (num_of_Z (- MAX_SAFE_INTEGER)) a.

Lemma num_ltb_of_Z x y : num_ltb (num_of_Z x) (num_of_Z y) = (x <? y).
Proof. simpl. by rewrite !Z.mul_1_r. Qed.
Lemma num_eqb_of_Z x y : num_eqb (num_of_Z x) (num_of_Z y) = (x =? y).
Proof. simpl. by rewrite !Z.mul_1_r. Qed.
Lemma num_leb_of_Z x y : num_leb (num_of_Z x) (num_of_Z y) = (x <=? y).
Proof.
  unfold num_leb. rewrite num_ltb_of_Z, num_eqb_of_Z.
  destruct (Z.ltb_spec x y), (Z.eqb_spec x y), (Z.leb_spec x y); simpl; lia.
Qed.

(** An integer [num] has the order of its integer value. *)
Definition num_Z (a : num) : Z :=
  match a with Fin q => Qnum q / Zpos (Qden q) | _ => 0 end.
Lemma isInteger_num_Z q :
  isInteger (Fin q) = true → Qnum q = num_Z (Fin q) * Zpos (Qden q).
Proof.
  unfold isInteger, num_Z. intros H%Z.eqb_eq.
  rewrite (Z.div_mod (Qnum q) (Zpos (Qden q))) at 1 by lia. lia.
Qed.
Lemma num_ltb_Z_int (x : Z) a :
  isInteger a = true → num_ltb (num_of_Z x) a = (x <? num_Z a).
Proof.
  destruct a as [q| | |]; try done. intros H. unfold num_ltb. cbn [num_of_Z Qnum Qden].
  rewrite (isInteger_num_Z q H).
  destruct (Z.ltb_spec (x * Zpos (Qden q)) (num_Z (Fin q) * Zpos (Qden q) * 1)),
    (Z.ltb_spec x (num_Z (Fin q))); nia.
Qed.

Lemma num_compare_int p q :
  isInteger (Fin p) = true → isInteger (Fin q) = true →
  Qnum p * Zpos (Qden q) ?= Qnum q * Zpos (Qden p) = (num_Z (Fin p) ?= num_Z (Fin q)).
Proof.
  intros Hp Hq. rewrite (isInteger_num_Z p Hp), (isInteger_num_Z q Hq).
  replace (num_Z (Fin q) * Zpos (Qden q) * Zpos (Qden p))
    with (num_Z (Fin q) * (Zpos (Qden p) * Zpos (Qden q))) by ring.
  rewrite <-Z.mul_assoc. symmetry. by apply Zmult_compare_compat_r.
Qed.
Lemma num_ltb_int a b :
  isInteger a = true → isInteger b = true → num_ltb a b = (num_Z a <? num_Z b).
Proof.
  destruct a as [p| | |], b as [q| | |]; try done. intros Ha Hb.
  unfold num_ltb, Z.ltb. by rewrite num_compare_int.
Qed.
Lemma num_leb_int a b :
  isInteger a = true → isInteger b = true → num_leb a b = (num_Z a <=? num_Z b).
Proof.
  destruct a as [p| | |], b as [q| | |]; try done. intros Ha Hb.
  unfold num_leb, num_ltb, num_eqb, Z.ltb, Z.leb.
  rewrite Z.eqb_compare, num_compare_int by done. by destruct (_ ?= _).
Qed.
Lemma isSafeInteger_isInteger a : isSafeInteger a = true → isInteger a = true.
Proof. unfold isSafeInteger. by intros [[? _]%andb_true_iff _]%andb_true_iff. Qed.

(** ** Strings *)

Definition space_ascii (c : ascii) : bool :=
  match nat_of_ascii c with
  | 9%nat | 10%nat | 11%nat | 12%nat | 13%nat | 32%nat => true
  | _ => false
  end.
(** The white space of [String.prototype.trim] outside ASCII, as UTF-8. *)
Definition space_2 (a b : nat) : bool :=
  match a, b with 194%nat, 160%nat => true | _, _ => false end.
Definition space_3 (a b c : nat) : bool :=
  match a, b, c with
  | 225%nat, 154%nat, 128%nat => true
  | 226%nat, 128%nat, c =>
      (Nat.leb 128 c && Nat.leb c 138) || Nat.eqb c 168 || Nat.eqb c 169 || Nat.eqb c 175
  | 226%nat, 129%nat, 159%nat => true
  | 227%nat, 128%nat, 128%nat => true
  | 239%nat, 187%nat, 191%nat => true
  | _, _, _ => false
  end.

Fixpoint trimStart (s : string) : string :=
  match s with
  | String a r =>
      if space_ascii a then trimStart r
      else match r with
      | String b r2 =>
          if space_2 (nat_of_ascii a) (nat_of_ascii b) then trimStart r2
          else match r2 with
          | String c r3 =>
              if space_3 (nat_of_ascii a) (nat_of_ascii b) (nat_of_ascii c)
              then trimStart r3 else s
          | EmptyString => s
          end
      | EmptyString => s
      end
  | EmptyString => EmptyString
  end.
Fixpoint trimEnd (s : string) : string :=
  match s with
  | String a r =>
      if decide (trimStart s = EmptyString) then EmptyString
      else String a (trimEnd r)
  | EmptyString => EmptyString
  end.
(** [String.prototype.trim]. *)
Definition trim (s : string) : string := trimEnd (trimStart s).

Example trim_ex : trim "  a b  " = "a b".
Proof. reflexivity. Qed.

(** [String(n)] for an integer. *)
Definition String_of_Z (n : Z) : string := pretty n.

(** [String.prototype.startsWith]. *)
Definition startsWith (s p : string) : bool := String.prefix p s.

Fixpoint str_join (sep : string) (l : list string) : string :=
  match l with
  | [] => ""
  | [x] => x
  | x :: l' => x +:+ sep +:+ str_join sep l'
  end.

(** ** [encodeURIComponent] *)

Definition uri_unreserved (c : ascii) : bool :=
  let n := nat_of_ascii c in
  (Nat.leb 65 n && Nat.leb n 90) || (Nat.leb 97 n && Nat.leb n 122)
  || (Nat.leb 48 n && Nat.leb n 57)
  || Nat.eqb n 45 || Nat.eqb n 95 || Nat.eqb n 46 || Nat.eqb n 33
  || Nat.eqb n 126 || Nat.eqb n 42 || Nat.eqb n 39 || Nat.eqb n 40 || Nat.eqb n 41.

Definition hex_upper (n : nat) : ascii :=
  ascii_of_nat (if Nat.ltb n 10 then 48 + n else 55 + n).
Definition hex_lower (n : nat) : ascii :=
  ascii_of_nat (if Nat.ltb n 10 then 48 + n else 87 + n).
Definition percent : ascii := "%"%char.

Definition uri_encode_char (c : ascii) : string :=
  if uri_unreserved c then String c ""
  else String percent
         (String (hex_upper (nat_of_ascii c / 16))
            (String (hex_upper (nat_of_ascii c mod 16)) "")).

Fixpoint encodeURIComponent (s : string) : string :=
  match s with
  | EmptyString => EmptyString
  | String c r => uri_encode_char c +:+ encodeURIComponent r
  end.

(** Percent decoding, the inverse used to prove that encoding loses nothing. *)
Definition hex_value (c : ascii) : nat :=
  let n := nat_of_ascii c in if Nat.leb n 57 then n - 48 else n - 55.
Fixpoint decodeURIComponent (s : string) : string :=
  match s with
  | EmptyString => EmptyString
  | String c r =>
      if decide (c = percent) then
        match r with
        | String h (String l r') =>
            String (ascii_of_nat (hex_value h * 16 + hex_value l)) (decodeURIComponent r')
        | _ => EmptyString
        end
      else String c (decodeURIComponent r)
  end.

Lemma string_app_cons c s t : String c s +:+ t = String c (s +:+ t).
Proof. reflexivity. Qed.
Lemma string_app_nil_l t : "" +:+ t = t.
Proof. reflexivity. Qed.
Lemma string_app_assoc (a b c : string) : (a +:+ b) +:+ c = a +:+ (b +:+ c).
Proof.
  induction a as [|x a IH]; [reflexivity|].
  rewrite !string_app_cons. by rewrite IH.
Qed.
Lemma string_app_nil_r (a : string) : a +:+ "" = a.
Proof. induction a as [|x a IH]; [done|]. rewrite string_app_cons. by rewrite IH. Qed.

Lemma decode_encode_char c s :
  decodeURIComponent (uri_encode_char c +:+ s) = String c (decodeURIComponent s).
Proof.
  destruct c as [[][][][][][][][]]; vm_compute uri_encode_char;
    rewrite ?string_app_cons, ?string_app_nil_l; reflexivity.
Qed.

(** Percent encoding is lossless. *)
Lemma decode_encodeURIComponent s : decodeURIComponent (encodeURIComponent s) = s.
Proof.
  induction s as [|c s IH]; [done|]. cbn [encodeURIComponent].
  rewrite decode_encode_char. by rewrite IH.
Qed.
#[export] Instance encodeURIComponent_inj : Inj (=) (=) encodeURIComponent.
Proof.
  intros s t H. rewrite <-(decode_encodeURIComponent s), H.
  apply decode_encodeURIComponent.
Qed.

(** Characters of a string. *)
Fixpoint str_forall (P : ascii → bool) (s : string) : bool :=
  match s with EmptyString => true | String c r => P c && str_forall P r end.
Lemma str_forall_app P s t : str_forall P (s +:+ t) = str_forall P s && str_forall P t.
Proof.
  induction s as [|c s IH]; [done|]. rewrite string_app_cons. cbn [str_forall].
  by rewrite IH, andb_assoc.
Qed.

Definition colon : ascii := ":"%char.
Definition not_colon (c : ascii) : bool := negb (Ascii.eqb c colon).

(** An encoded part never holds the separator of [joinId]. *)
Lemma encodeURIComponent_no_colon s : str_forall not_colon (encodeURIComponent s) = true.
Proof.
  induction s as [|c s IH]; [done|]. cbn [encodeURIComponent].
  rewrite str_forall_app, IH, andb_true_r.
  by destruct c as [[][][][][][][][]].
Qed.

(** A colon-free prefix before the first colon is determined by the string. *)
Lemma colon_split_inj a a' r r' :
  str_forall not_colon a = true → str_forall not_colon a' = true →
  a +:+ String colon r = a' +:+ String colon r' → a = a' ∧ r = r'.
Proof.
  revert a'. induction a as [|x a IH]; intros [|y a'] Ha Ha' Heq;
    rewrite ?string_app_cons, ?string_app_nil_l in Heq; cbn [str_forall] in *.
  - by injection Heq as ->.
  - injection Heq as <- _. by rewrite andb_false_l in Ha'.
  - injection Heq as -> _. by rewrite andb_false_l in Ha.
  - injection Heq as -> Heq.
    apply andb_true_iff in Ha as [_ Ha]. apply andb_true_iff in Ha' as [_ Ha'].
    by destruct (IH a' Ha Ha' Heq) as [-> ->].
Qed.

(** ** [JSON.stringify] *)

Inductive json : Type :=
| JNull
| JBool (b : bool)
| JNum (n : Z)
| JStr (s : string)
| JArr (l : list json)
| JObj (l : list (string * json)).

Definition dquote : ascii := ascii_of_nat 34.
Definition backslash : ascii := ascii_of_nat 92.

Definition json_escape_char (c : ascii) : string :=
  match nat_of_ascii c with
  | 34%nat => String backslash (String dquote "")
  | 92%nat => String backslash (String backslash "")
  | 8%nat => String backslash "b"
  | 9%nat => String backslash "t"
  | 10%nat => String backslash "n"
  | 12%nat => String backslash "f"
  | 13%nat => String backslash "r"
  | n => if Nat.ltb n 32
         then String backslash ("u00" +:+ String (hex_lower (n / 16))
                                           (String (hex_lower (n mod 16)) ""))
         else String c ""
  end.
Fixpoint json_escape (s : string) : string :=
  match s with
  | EmptyString => EmptyString
  | String c r => json_escape_char c +:+ json_escape r
  end.
Definition json_quote (s : string) : string :=
  String dquote (json_escape s) +:+ String dquote "".

Fixpoint stringify (j : json) : string :=
  match j with
  | JNull => "null"
  | JBool true => "true"
  | JBool false => "false"
  | JNum n => String_of_Z n
  | JStr s => json_quote s
  | JArr l => "[" +:+ str_join "," (map stringify l) +:+ "]"
  | JObj l =>
      "{" +:+ str_join "," (map (λ kv, json_quote (fst kv) +:+ ":" +:+ stringify (snd kv)) l)
      +:+ "}"
  end.
