(* ===== verification/JsMap.v ===== *)
(** * Insertion-ordered maps

    A JavaScript [Map] iterates over its entries in insertion order; setting a
    key that is present keeps its place. The model is the list of entries, used
    where the program observes the order ([turns], [openSegments] and the stop
    targets); maps whose order is never read are [gmap]s. *)
From S2P Require Import Prelude.

Section jsmap.
Context {K : Type} `{EqDecision K} {V : Type}.
Implicit Types (m : list (K * V)) (k : K) (v : V).

(** [Map.prototype.get], [has], [set], [delete], [size], [keys], [values]. *)
Fixpoint jm_get (k : K) m : option V :=
  match m with
  | [] => None
  | (k', v) :: m' => if decide (k' = k) then Some v else jm_get k m'
  end.
Definition jm_has (k : K) m : bool :=
  match jm_get k m with Some _ => true | None => false end.
Fixpoint jm_set (k : K) (v : V) m : list (K * V) :=
  match m with
  | [] => [(k, v)]
  | (k', v') :: m' => if decide (k' = k) then (k', v) :: m' else (k', v') :: jm_set k v m'
  end.
Definition jm_delete (k : K) m : list (K * V) := filter (λ kv, kv.1 ≠ k) m.
Definition jm_size m : nat := length m.
Definition jm_keys m : list K := m.*1.
Definition jm_values m : list V := m.*2.
(** [for (const [k, v] of m) m.set(k, f(v))]. *)
Definition jm_update_all (f : V → V) m : list (K * V) :=
  map (λ kv, (kv.1, f kv.2)) m.

Definition jm_wf m : Prop := NoDup (jm_keys m).

Lemma jm_get_set_eq k v m : jm_get k (jm_set k v m) = Some v.
Proof.
  induction m as [|[k' v'] m IH]; simpl; [by rewrite decide_True|].
  case_decide; simpl; [by rewrite decide_True|by rewrite decide_False].
Qed.
Lemma jm_get_set_ne k k' v m : k ≠ k' → jm_get k' (jm_set k v m) = jm_get k' m.
Proof.
  intros. induction m as [|[k0 v0] m IH]; simpl; [by rewrite decide_False|].
  case_decide; simpl; subst; [by rewrite !decide_False|].
  case_decide; done.
Qed.
Lemma jm_get_set k k' v m :
  jm_get k' (jm_set k v m) = if decide (k = k') then Some v else jm_get k' m.
Proof.
  case_decide; subst; [apply jm_get_set_eq|by apply jm_get_set_ne].
Qed.
Lemma jm_get_None k m : jm_get k m = None ↔ k ∉ jm_keys m.
Proof.
  induction m as [|[k' v'] m IH]; simpl; [set_solver|].
  case_decide; subst; [|rewrite IH]; set_solver.
Qed.
Lemma jm_get_elem k v m : jm_get k m = Some v → (k, v) ∈ m.
Proof.
  induction m as [|[k' v'] m IH]; simpl; [done|].
  case_decide; intros; simplify_eq; [by left|right; auto].
Qed.
Lemma jm_elem_get k v m : jm_wf m → (k, v) ∈ m → jm_get k m = Some v.
Proof.
  unfold jm_wf. induction m as [|[k' v'] m IH]; simpl; [set_solver|].
  intros [Hn Hd]%NoDup_cons [?|Hin]%elem_of_cons; simplify_eq.
  - by rewrite decide_True.
  - rewrite decide_False; [auto|].
    intros ->. apply Hn. apply list_elem_of_fmap. by exists (k, v).
Qed.
Lemma jm_keys_set k v m :
  jm_keys (jm_set k v m)
  = if decide (k ∈ jm_keys m) then jm_keys m else jm_keys m ++ [k].
Proof.
  unfold jm_keys. induction m as [|[k' v'] m IH]; [done|]. cbn [jm_set].
  destruct (decide (k' = k)) as [->|Hk]; rewrite !fmap_cons; cbn [fst].
  - rewrite decide_True; [done|]. apply elem_of_cons. by left.
  - rewrite IH. destruct (decide (k ∈ m.*1)) as [Hin|Hin].
    + rewrite decide_True; [done|]. apply elem_of_cons. by right.
    + rewrite decide_False; [done|]. by intros [->|?]%elem_of_cons.
Qed.
Lemma jm_wf_set k v m : jm_wf m → jm_wf (jm_set k v m).
Proof.
  unfold jm_wf. rewrite jm_keys_set. case_decide; [done|].
  intros. apply NoDup_app. split_and!; [done| |apply NoDup_singleton].
  by intros x ? ->%list_elem_of_singleton.
Qed.
Lemma jm_wf_delete k m : jm_wf m → jm_wf (jm_delete k m).
Proof.
  unfold jm_wf, jm_keys, jm_delete. intros Hm.
  eapply sublist_NoDup; [exact Hm|].
  apply fmap_sublist, sublist_filter.
Qed.
Lemma jm_keys_delete k m : jm_wf m → k ∈ jm_keys m → k :: jm_keys (jm_delete k m) ≡ₚ jm_keys m.
Proof.
  unfold jm_wf, jm_keys, jm_delete. induction m as [|[k' v'] m IH]; [by intros _ ?%elem_of_nil|].
  rewrite !fmap_cons. intros [Hn Hnd]%NoDup_cons Hk. rewrite filter_cons. cbn [fst] in *.
  case_decide as Hne.
  - cbn. rewrite Permutation_swap. constructor. apply IH; [done|].
    by apply elem_of_cons in Hk as [->|Hk].
  - subst k'. constructor.
    clear IH Hk Hnd v'. induction m as [|[k2 v2] m IH]; [done|]. rewrite filter_cons, fmap_cons in *.
    apply not_elem_of_cons in Hn as [Hne Hn]. cbn in *. rewrite decide_True by done. cbn.
    by rewrite IH.
Qed.
Lemma jm_get_delete k k' m :
  jm_get k' (jm_delete k m) = if decide (k = k') then None else jm_get k' m.
Proof.
  unfold jm_delete. induction m as [|[k0 v0] m IH]; simpl.
  - by case_decide.
  - rewrite filter_cons; simpl. repeat case_decide; subst; simpl in *;
      repeat case_decide; subst; try done; try congruence; tauto.
Qed.
Lemma jm_get_update_all f k m : jm_get k (jm_update_all f m) = f <$> jm_get k m.
Proof.
  induction m as [|[k' v'] m IH]; simpl; [done|]. by case_decide.
Qed.
Lemma jm_keys_update_all f m : jm_keys (jm_update_all f m) = jm_keys m.
Proof. unfold jm_keys, jm_update_all. induction m; simpl; [done|]. by f_equal. Qed.
Lemma jm_wf_update_all f m : jm_wf m → jm_wf (jm_update_all f m).
Proof. unfold jm_wf. by rewrite jm_keys_update_all. Qed.
Lemma jm_wf_nil : jm_wf [].
Proof. apply NoDup_nil_2. Qed.
Lemma jm_has_true k m : jm_has k m = true ↔ is_Some (jm_get k m).
Proof. unfold jm_has. destruct (jm_get k m); unfold is_Some; naive_solver. Qed.
Lemma jm_has_false k m : jm_has k m = false ↔ jm_get k m = None.
Proof. unfold jm_has. by destruct (jm_get k m). Qed.
Lemma jm_get_all_None m : (∀ k, jm_get k m = None) → m = [].
Proof.
  destruct m as [|[k v] m]; [done|]. intros H. specialize (H k). simpl in H.
  by rewrite decide_True in H.
Qed.
End jsmap.

#[export] Hint Resolve jm_wf_set jm_wf_delete jm_wf_update_all jm_wf_nil : zuse.
#[export] Hint Rewrite @jm_get_set_eq @jm_get_update_all : zuse.
