(* ===== verification/Ids.v ===== *)
(** * Identifiers derived from their parts (packages/domain/src/agent-engine/ids.ts) *)
From Stdlib Require Import Ascii.
From S2P Require Import Prelude Js.

Local Open Scope Z_scope.

(** A part of an id: the source's [string | number]. *)
Inductive id_part : Type :=
| PStr (s : string)
| PNum (n : Z).

Definition encode (part : id_part) : string :=
  encodeURIComponent (match part with PStr s => s | PNum n => String_of_Z n end).

(** Joins id parts with [:] after percent-encoding each part. *)
Definition joinId (parts : list id_part) : string := str_join ":" (map encode parts).

Definition scopeProviderThreadId (sessionId threadId : string) : string :=
  let prefix := joinId [PStr "provider-thread"; PStr "session"; PStr sessionId] +:+ ":" in
  if startsWith threadId prefix then threadId
  else prefix +:+ encode (PStr threadId).

Module derive.
Definition attempt (turnId : string) (ordinal : Z) : string :=
  joinId [PStr "attempt"; PStr "turn"; PStr turnId; PStr "ordinal"; PNum ordinal].
Definition rootStep (turnId : string) (attemptOrdinal : Z) : string :=
  joinId [PStr "step"; PStr "turn"; PStr turnId; PStr "attempt"; PNum attemptOrdinal;
          PStr "root"].
Definition providerThread (sessionId provider nativeThreadId : string) : string :=
  scopeProviderThreadId sessionId
    (joinId [PStr "provider-thread"; PStr "provider"; PStr provider;
             PStr "native-thread"; PStr nativeThreadId]).
Definition checkpointScope (sessionId name : string) : string :=
  joinId [PStr "checkpoint-scope"; PStr "session"; PStr sessionId; PStr "name"; PStr name].
End derive.

(** core/state.ts re-exports two of them. *)
Definition providerThreadIdFor (sessionId provider nativeThreadId : string) : string :=
  derive.providerThread sessionId provider nativeThreadId.
Definition attemptIdFor (turnId : string) (ordinal : Z) : string :=
  derive.attempt turnId ordinal.

Definition part_string (p : id_part) : string :=
  match p with PStr s => s | PNum n => String_of_Z n end.

Lemma encode_no_colon p : str_forall not_colon (encode p) = true.
Proof. apply encodeURIComponent_no_colon. Qed.
#[export] Hint Resolve encode_no_colon : zuse.

Lemma encode_part_string p q : encode p = encode q ↔ part_string p = part_string q.
Proof.
  unfold encode. fold (part_string p) (part_string q).
  split; [apply (inj encodeURIComponent)|by intros ->].
Qed.

Lemma str_join_cons_ne sep x y l :
  str_join sep (x :: y :: l) = x +:+ sep +:+ str_join sep (y :: l).
Proof. reflexivity. Qed.

(** Ids of as many parts are equal only when every part is. *)
Lemma joinId_inj ps qs :
  length ps = length qs → joinId ps = joinId qs → map part_string ps = map part_string qs.
Proof.
  unfold joinId. revert qs. induction ps as [|p ps IH]; intros [|q qs] Hl H;
    try discriminate; [done|].
  destruct ps as [|p' ps], qs as [|q' qs]; try discriminate.
  - simpl in *. f_equal. by apply encode_part_string.
  - cbn [map] in H. rewrite !str_join_cons_ne in H.
    change (":" +:+ ?s) with (String colon s) in H.
    apply colon_split_inj in H as [Hp H]; [|apply encode_no_colon..].
    change (part_string p :: map part_string (p' :: ps)
            = part_string q :: map part_string (q' :: qs)).
    f_equal; [by apply encode_part_string|].
    apply IH; [by injection Hl as Hl; simpl; rewrite Hl|exact H].
Qed.

Lemma String_of_Z_inj n m : String_of_Z n = String_of_Z m → n = m.
Proof. apply (inj pretty). Qed.

Lemma attemptIdFor_inj t n t' n' :
  attemptIdFor t n = attemptIdFor t' n' → t = t' ∧ n = n'.
Proof.
  intros H. apply joinId_inj in H; [|done].
  simpl in H. injection H as -> H. split; [done|]. by apply String_of_Z_inj.
Qed.

Lemma str_prefix_app (p s : string) : String.prefix p (p +:+ s) = true.
Proof.
  induction p as [|c p IH]; [by destruct s|]. rewrite string_app_cons. simpl.
  destruct (ascii_dec c c); congruence.
Qed.
Lemma prefix_split (p s : string) : String.prefix p s = true → ∃ r, s = p +:+ r.
Proof.
  revert s. induction p as [|c p IH]; intros s H; [by exists s|].
  destruct s as [|d s]; simpl in H; [done|].
  destruct (ascii_dec c d) as [->|]; [|done].
  destruct (IH s H) as [r ->]. by exists r.
Qed.

Lemma string_app_inj_r (a b c : string) : a +:+ b = a +:+ c → b = c.
Proof. apply (inj (String.app a)). Qed.

(** Scoping is idempotent and keeps threads of one session apart. *)
Lemma scopeProviderThreadId_prefix s t :
  startsWith (scopeProviderThreadId s t)
    (joinId [PStr "provider-thread"; PStr "session"; PStr s] +:+ ":") = true.
Proof. unfold scopeProviderThreadId. case_match; [done|apply str_prefix_app]. Qed.

Lemma scopeProviderThreadId_idem s t :
  scopeProviderThreadId s (scopeProviderThreadId s t) = scopeProviderThreadId s t.
Proof.
  unfold scopeProviderThreadId at 1. by rewrite scopeProviderThreadId_prefix.
Qed.

(** The handle made for a native thread is scoped to its session. *)
Lemma providerThreadIdFor_scoped s p n :
  scopeProviderThreadId s (providerThreadIdFor s p n) = providerThreadIdFor s p n.
Proof. apply scopeProviderThreadId_idem. Qed.

#[global] Arguments joinId : simpl never.
#[global] Arguments attemptIdFor : simpl never.
#[global] Arguments providerThreadIdFor : simpl never.
#[global] Arguments scopeProviderThreadId : simpl never.
#[global] Arguments derive.providerThread : simpl never.
#[global] Arguments derive.attempt : simpl never.
(** Ids are compared by the lemmas above, never by unfolding their characters. *)
#[global] Opaque joinId.
