(* ===== verification/Contracts.v ===== *)
(** * Shared data contracts (packages/contracts/src)

    The literal unions are enumerations with the source's literals, and
    [MessageContent] is the tagged union persisted as a message's JSON. A field
    that no modelled code reads (an attachment, an author, a token count) is
    kept as its JSON value. *)
From S2P Require Import Prelude Js.

(** agent.ts *)
Inductive RuntimeMode : Set :=
| RM_auto | RM_approval_required | RM_auto_accept_edits
| RM_auto_accept_edits_and_bash | RM_full_access.
Inductive PermissionMode : Set := PM_default | PM_plan | PM_acceptEdits.
Definition DEFAULT_RUNTIME_MODE : RuntimeMode := RM_approval_required.
Definition DEFAULT_PERMISSION_MODE : PermissionMode := PM_default.

Record ProviderTurnReference := {
  ref_provider : string;
  ref_nativeThreadId : string;
  ref_nativeTurnId : string }.

Inductive BackgroundTaskOutcome : Set := BTO_completed | BTO_failed | BTO_stopped.

(** naming.ts *)
Inductive NameProvenance : Set := NP_pending | NP_automatic | NP_manual.

(** session.ts *)
Inductive SessionStatus : Set :=
| SS_booting | SS_idle | SS_running | SS_closed | SS_error.
Inductive MessageRole : Set := MR_user | MR_assistant | MR_system | MR_tool.
Inductive TurnSettlementOutcome : Set := TSO_completed | TSO_interrupted | TSO_error.
Inductive Presentation : Set := PR_inline | PR_detached.

(** Answers carried by an interrupt command's receipt. *)
Inductive NotActiveReason : Set := no_active_turn | turn_mismatch.
Inductive TurnInterruptReceipt : Type :=
| receipt_requested (turnId : string)
| receipt_not_active (reason : NotActiveReason)
    (expectedTurnId actualTurnId : option string).

Record Subagent := { sa_childSessionId : string; sa_presentation : Presentation }.
Record ToolUseContent := {
  tu_itemId : string;
  tu_tool : string;
  tu_input : json;
  tu_parentItemId : option string;
  tu_backgroundTask : option string;
  tu_subagent : option Subagent }.
Record ToolResultContent := {
  tr_itemId : string;
  tr_output : json;
  tr_isError : bool;
  tr_parentItemId : option string;
  tr_backgroundOutcome : option BackgroundTaskOutcome }.
Record SubagentSummaryContent := {
  ss_itemId : string;
  ss_agentName : string;
  ss_model : string;
  ss_summary : string;
  ss_isError : bool;
  ss_childSessionId : option string;
  ss_presentation : option Presentation;
  ss_usage : json }.
Record SubagentProgressContent := {
  sp_rootCompleted : option bool;
  sp_childId : string;
  sp_parentId : string;
  sp_childSessionId : string;
  sp_status : string;
  sp_usage : json }.
Record UserQuestionAnswerContent := {
  qa_resolution : option string;
  qa_itemId : string;
  qa_answers : json;
  qa_parentItemId : option string }.

Inductive MessageContent : Type :=
| MC_user (text : string) (fields : json)
| MC_user_rich (text : string) (fields : json)
| MC_assistant (itemId : option string) (text : string) (parentItemId : option string)
    (fields : json)
| MC_thinking (itemId : string) (text : string) (parentItemId : option string)
    (fields : json)
| MC_tool_use (c : ToolUseContent)
| MC_tool_result (c : ToolResultContent)
| MC_error (message : string) (kind : option string)
| MC_interrupted
| MC_model_switch (fromProviderId fromModel toProviderId toModel context : string)
| MC_subagent_summary (c : SubagentSummaryContent)
| MC_subagent_progress (c : SubagentProgressContent)
| MC_usage (parentItemId : option string) (fields : json)
| MC_context_usage (fields : json)
| MC_context_compaction (itemId : string) (fields : json)
| MC_usage_limit (fields : json)
| MC_user_question (itemId : string) (questions : json) (parentItemId : option string)
| MC_user_question_answer (c : UserQuestionAnswerContent)
| MC_ui_spec (spec : string).

#[export] Instance RuntimeMode_eq_dec : EqDecision RuntimeMode.
Proof. solve_decision. Defined.
#[export] Instance PermissionMode_eq_dec : EqDecision PermissionMode.
Proof. solve_decision. Defined.
#[export] Instance NameProvenance_eq_dec : EqDecision NameProvenance.
Proof. solve_decision. Defined.
#[export] Instance SessionStatus_eq_dec : EqDecision SessionStatus.
Proof. solve_decision. Defined.
#[export] Instance MessageRole_eq_dec : EqDecision MessageRole.
Proof. solve_decision. Defined.
#[export] Instance TurnSettlementOutcome_eq_dec : EqDecision TurnSettlementOutcome.
Proof. solve_decision. Defined.
#[export] Instance BackgroundTaskOutcome_eq_dec : EqDecision BackgroundTaskOutcome.
Proof. solve_decision. Defined.
#[export] Instance ProviderTurnReference_eq_dec : EqDecision ProviderTurnReference.
Proof. solve_decision. Defined.
#[export] Instance NotActiveReason_eq_dec : EqDecision NotActiveReason.
Proof. solve_decision. Defined.
#[export] Instance TurnInterruptReceipt_eq_dec : EqDecision TurnInterruptReceipt.
Proof. solve_decision. Defined.

(** naming.ts of the domain package. *)
Definition titleProvenanceOrManual (value : option NameProvenance) : NameProvenance :=
  default NP_manual value.

(** Decoding the JSON of a message, [Schema.decodeUnknownResult(
    Schema.fromJsonString(MessageContent))]: the schema library is not part of
    the repository, so the decoder is a parameter. *)
Class ContentCodec := decodeMessageContent : string → option MessageContent.

(** conversation/transcript.ts *)
Definition shouldIncludeInTranscript (content : MessageContent) : bool :=
  match content with
  | MC_usage _ _ | MC_context_usage _ | MC_context_compaction _ _ | MC_usage_limit _
  | MC_subagent_progress _ => false
  | _ => true
  end.
