(* ===== verification/SessionTypes.v ===== *)
(** * Session commands and events (packages/domain/src/core/session-fields.ts,
    commands.ts, events.ts)

    An optional key is an [option]; a key that may be absent or null is an
    [option (option _)] ([None] absent, [Some None] null). *)
From S2P Require Import Prelude Js Contracts.

(** agent-engine/delegation.ts, agent-engine/input-owner.ts *)
Record DelegationOrigin := {
  parentSessionId : string;
  parentTurnId : string;
  parentAttemptId : string;
  delegation_providerSessionId : string }.
Record SessionDelegation := {
  delegation_origin : DelegationOrigin;
  childTurnId : string }.
Record AttemptRef := { ar_turnId : string; ar_attemptId : string }.
Record InputRequestOwner := {
  owner_providerSessionId : string;
  owner_attempt : option AttemptRef }.

#[export] Instance AttemptRef_eq_dec : EqDecision AttemptRef.
Proof. solve_decision. Defined.

(** session-fields.ts *)
Record SessionIdentityFields := {
  id_sessionId : string;
  id_chatId : string;
  id_projectId : string;
  id_createdAt : Z }.
Record SessionConfigurationFields := {
  cf_title : string;
  cf_titleProvenance : option NameProvenance;
  cf_providerId : string;
  cf_model : string;
  cf_status : SessionStatus;
  cf_cursor : option (option string);
  cf_resumeStrategy : option string;
  cf_runtimeMode : RuntimeMode;
  cf_agentsJson : option string;
  cf_worktreeId : option string;
  cf_forkedFromSessionId : option string;
  cf_forkedFromMessageId : option string;
  cf_permissionMode : PermissionMode;
  cf_toolSearch : bool;
  cf_queuePaused : bool }.
Record SessionCreatedFields := {
  cr_delegation : option SessionDelegation;
  cr_identity : SessionIdentityFields;
  cr_configuration : SessionConfigurationFields }.
(** The persisted event: every configuration field may be missing. *)
Record SessionCreatedEventFields := {
  ce_delegation : option SessionDelegation;
  ce_identity : SessionIdentityFields;
  ce_title : option string;
  ce_titleProvenance : option NameProvenance;
  ce_providerId : option string;
  ce_model : option string;
  ce_status : option SessionStatus;
  ce_cursor : option (option string);
  ce_resumeStrategy : option string;
  ce_runtimeMode : option RuntimeMode;
  ce_agentsJson : option (option string);
  ce_worktreeId : option (option string);
  ce_forkedFromSessionId : option (option string);
  ce_forkedFromMessageId : option (option string);
  ce_permissionMode : option PermissionMode;
  ce_toolSearch : option bool;
  ce_queuePaused : option bool;
  ce_providerStartJson : option string }.
Record ProviderThreadSeed := {
  seed_provider : string;
  seed_nativeThreadId : string;
  seed_nativeHeadId : option (option string) }.

(** commands.ts *)
Inductive SegmentKind : Set := SK_assistant | SK_reasoning | SK_tool.
Inductive AttemptReason : Set := AR_initial | AR_retry | AR_provider_recovery.
Inductive TurnPhase : Set := TP_running | TP_interrupt_requested | TP_interrupt_acknowledged.
Inductive PlanExpiryReason : Set := PX_expired | PX_uncertain.
(** [RetryTurn]'s reason is one of the two below. *)
Inductive RetryReason : Set := RR_retry | RR_provider_recovery.
Definition retry_attempt_reason (r : RetryReason) : AttemptReason :=
  match r with RR_retry => AR_retry | RR_provider_recovery => AR_provider_recovery end.

Record AttemptProviderTurnFields := {
  bt_turnId : string;
  bt_attemptId : string;
  bt_reference : ProviderTurnReference;
  bt_boundAt : Z }.
Record MessageFields := {
  mf_inputOwner : option InputRequestOwner;
  mf_messageId : string;
  mf_turnId : option string;
  mf_role : string;
  mf_kind : string;
  mf_contentJson : string;
  mf_parentItemId : option string;
  mf_checkpointRevision : option num;
  mf_checkpointFinal : option bool;
  mf_createdAt : Z }.

Inductive SessionCommand : Type :=
| CreateSession (created : SessionCreatedFields) (providerStartJson : option string)
    (providerThread : option ProviderThreadSeed)
| CreateSessionWithInitialTurn (created : SessionCreatedFields)
    (providerStartJson : option string) (providerThread : option ProviderThreadSeed)
    (turnId messageId messageContentJson providerInputJson : string)
| SetTitle (title : string) (titleProvenance : option NameProvenance) (updatedAt : Z)
| SetModel (model : string) (updatedAt : Z)
| SetProvider (resumeThreadId : option string)
    (expectedProviderThreadId : option (option string)) (providerId model : string)
    (updatedAt : Z)
| SetRuntimeMode (runtimeMode : RuntimeMode) (updatedAt : Z)
| SetPermissionMode (permissionMode : PermissionMode) (updatedAt : Z)
| SetWorktree (worktreeId : option string) (updatedAt : Z) (forceProjection : option bool)
| SetStatus (status : SessionStatus) (updatedAt : Z)
| SetQueuePaused (paused : bool) (updatedAt : Z)
| ReleaseInitialTurn (expectedTurnId providerInputJson : string)
    (providerStartJson : option string) (requestedAt : Z)
| BindAttemptProviderTurn (fields : AttemptProviderTurnFields)
| BindProviderThread (nativeThreadId : string) (nativeHeadId : option (option string))
    (updatedAt : Z)
| ExpireAttempt (turnId expectedAttemptId : string) (expiredAt : Z)
| RecoverTurn (turnId expectedAttemptId : string) (requestedAt : Z)
| RetryTurn (turnId : string) (reason : RetryReason) (providerInputJson : string)
    (providerStartJson : option string) (requestedAt : Z)
| ArchiveSession (archivedAt : Z)
| UnarchiveSession (unarchivedAt : Z)
| DeleteSession (deletedAt : Z)
| StartTurn (turnId : string) (startedAt : Z)
| SubmitTurn (turnId messageId role kind contentJson : string)
    (parentItemId : option string) (providerInputJson : string) (createdAt : Z)
| RollbackTurns (throughOrdinal messageSequence : num) (removedMessageIds : list string)
    (rolledBackAt : Z)
| FinalizeTurn (turnId : string) (outcome : TurnSettlementOutcome) (settledAt : Z)
| SettleTurn (turnId : string) (outcome : TurnSettlementOutcome) (settledAt : Z)
| RequestTurnInterrupt (expectedTurnId : option string) (requestedAt : Z)
| AcknowledgeTurnInterrupt (turnId : string) (acknowledgedAt : Z)
| FailTurnInterrupt (turnId reason : string) (failedAt : Z)
| EnqueueTurn (queueId inputJson : string) (position createdAt : Z) (ready : bool)
| UpdateQueuedTurn (queueId inputJson : string) (updatedAt : Z) (ready : bool)
| ClaimQueuedTurn (queueId : string) (claimedAt : Z)
| RemoveQueuedTurn (queueId : string) (removedAt : Z)
| ReorderQueuedTurns (queueIds : list string) (reorderedAt : Z)
| SteerQueuedTurn (expectedTurnId queueId successorTurnId : string) (requestedAt : Z)
| PersistMessage (message : MessageFields)
| OpenSegment (turnId segmentId : string) (kind : SegmentKind) (openedAt : Z)
| SettleSegment (turnId segmentId : string) (outcome : TurnSettlementOutcome) (settledAt : Z)
| RequestPermission (inputOwner : option InputRequestOwner)
    (requestId turnId payloadJson : string) (requestedAt : Z)
| ResolvePermission (requestId decision : string) (decisionJson : option string)
    (resolvedAt : Z)
| ExpirePermission (requestId : string) (expiredAt : Z)
| ExpirePlan (itemId : string) (reason : PlanExpiryReason) (expiredAt : Z)
| ExpireQuestion (itemId : string) (expiredAt : Z)
| ResolveQuestion (itemId : string) (resolvedAt : Z)
| ReserveProviderSession (ownerAttempt : option AttemptRef) (expectedModel : option string)
    (expectedWorktreeId : option (option string)) (providerId providerSessionId : string)
    (reservedAt : Z)
| AttachProvider (providerId : string) (providerSessionId : option string) (attachedAt : Z)
| RequestProviderStop (requestedAt : Z)
| DetachProvider (detachedAt : Z) (expectedProviderSessionId : option (option string)).

(** events.ts *)
Inductive ProviderThreadStatus : Set :=
| PT_not_loaded | PT_idle | PT_active | PT_closed | PT_error.
Record ProviderThreadSnapshot := {
  pt_id : string;
  pt_provider : string;
  pt_nativeThreadId : string;
  pt_nativeHeadId : option string;
  pt_status : ProviderThreadStatus;
  pt_firstTurnOrdinal : option Z;
  pt_lastTurnOrdinal : option Z;
  pt_createdAt : Z;
  pt_updatedAt : Z }.
#[export] Instance settable_ProviderThreadSnapshot : Settable ProviderThreadSnapshot :=
  λ t, Build_ProviderThreadSnapshot (pt_id t) (pt_provider t) (pt_nativeThreadId t)
    (pt_nativeHeadId t) (pt_status t) (pt_firstTurnOrdinal t) (pt_lastTurnOrdinal t)
    (pt_createdAt t) (pt_updatedAt t).

Inductive SessionEvent : Type :=
| SessionCreated (fields : SessionCreatedEventFields)
| SessionTitleSet (title : string) (titleProvenance : option NameProvenance) (updatedAt : Z)
| SessionModelSet (model : string) (updatedAt : Z)
| SessionProviderSet (providerId model : string) (updatedAt : Z)
| SessionRuntimeModeSet (runtimeMode : RuntimeMode) (updatedAt : Z)
| SessionPermissionModeSet (permissionMode : PermissionMode) (updatedAt : Z)
| SessionWorktreeSet (worktreeId : option string) (updatedAt : Z)
| SessionStatusSet (status : SessionStatus) (updatedAt : Z)
| SessionQueuePausedSet (paused : bool) (updatedAt : Z)
| SessionResumeSet (cursor : option string) (resumeStrategy : option string)
    (providerEventCursor : option (option string)) (updatedAt : Z)
| ProviderThreadUpdated (providerThread : ProviderThreadSnapshot)
| ActiveProviderThreadSet (providerThreadId : option string) (updatedAt : Z)
| SessionArchived (archivedAt : Z)
| SessionUnarchived (unarchivedAt : Z)
| SessionDeleted (deletedAt : Z)
| TurnStarted (turnId : string) (startedAt : Z) (ordinal : option Z)
    (attemptId : option string) (providerThreadId : option (option string))
| AttemptProviderTurnBound (fields : AttemptProviderTurnFields)
| AttemptStarted (turnId attemptId : string) (ordinal : Z) (reason : AttemptReason)
    (startedAt turnOrdinal : Z) (providerThreadId : option string) (turnRequestedAt : Z)
| ProviderRecoveryRequested (turnId attemptId sourceAttemptId : string)
    (reference : ProviderTurnReference) (requestedAt : Z)
| ProviderTurnRequested (turnId : string) (attemptId : option string)
    (providerInputJson : string) (providerStartJson : option string) (requestedAt : Z)
| TurnsRolledBack (rolledBackTurnIds : option (list string))
    (throughOrdinal messageSequence : num) (removedMessageIds : list string)
    (rolledBackAt : Z)
| TurnFinalizationRequested (turnId attemptId : string) (outcome : TurnSettlementOutcome)
    (settledAt : Z)
| TurnSettled (turnId : string) (outcome : TurnSettlementOutcome) (settledAt : Z)
| TurnInterruptRequested (turnId : string) (attemptId : option string) (requestedAt : Z)
| TurnInterruptAcknowledged (turnId : string) (acknowledgedAt : Z)
| TurnInterruptFailed (turnId reason : string) (failedAt : Z)
| QueuedTurnEnqueued (queueId inputJson : string) (position createdAt : Z) (ready : bool)
| QueuedTurnUpdated (queueId inputJson : string) (updatedAt : Z) (ready : bool)
| QueuedTurnRemoved (queueId : string) (removedAt : Z)
| QueuedTurnsReordered (queueIds : list string) (reorderedAt : Z)
| QueuedTurnClaimed (queueId : string) (claimedAt : Z)
| SuccessorTurnScheduled (predecessorTurnId turnId queueId inputJson : string)
    (scheduledAt : Z)
| ScheduledSuccessorReady (predecessorTurnId turnId queueId inputJson : string) (readyAt : Z)
| MessagePersisted (message : MessageFields)
| SegmentOpened (turnId segmentId : string) (kind : SegmentKind) (openedAt : Z)
| SegmentSettled (turnId segmentId : string) (outcome : TurnSettlementOutcome)
    (settledAt : Z)
| PermissionRequested (inputOwner : option InputRequestOwner)
    (requestId turnId payloadJson : string) (requestedAt : Z)
| PermissionResolved (requestId decision : string) (decisionJson : option string)
    (resolvedAt : Z)
| PermissionExpired (requestId : string) (expiredAt : Z)
| PlanExpired (itemId : string) (reason : PlanExpiryReason) (expiredAt : Z)
| QuestionExpired (itemId : string) (expiredAt : Z)
| QuestionResolved (itemId : string) (resolvedAt : Z)
| ProviderSessionReserved (providerId providerSessionId : string) (reservedAt : Z)
| ProviderAttached (providerId : string) (providerSessionId : option string) (attachedAt : Z)
| ProviderStopRequested (providerId : string) (providerSessionId : option string)
    (requestedAt : Z)
| ProviderDetached (providerId : string) (providerSessionId : option string)
    (detachedAt : Z).

#[export] Instance SegmentKind_eq_dec : EqDecision SegmentKind.
Proof. solve_decision. Defined.
#[export] Instance AttemptReason_eq_dec : EqDecision AttemptReason.
Proof. solve_decision. Defined.
#[export] Instance TurnPhase_eq_dec : EqDecision TurnPhase.
Proof. solve_decision. Defined.
#[export] Instance ProviderThreadStatus_eq_dec : EqDecision ProviderThreadStatus.
Proof. solve_decision. Defined.

(** What [{ ...created, _tag: "SessionCreated" }] keeps of a command. *)
Definition created_event (c : SessionCreatedFields) (titleProvenance : option NameProvenance)
    (providerStartJson : option string) : SessionCreatedEventFields :=
  let f := cr_configuration c in
  {| ce_delegation := cr_delegation c;
     ce_identity := cr_identity c;
     ce_title := Some (cf_title f);
     ce_titleProvenance := titleProvenance;
     ce_providerId := Some (cf_providerId f);
     ce_model := Some (cf_model f);
     ce_status := Some (cf_status f);
     ce_cursor := cf_cursor f;
     ce_resumeStrategy := cf_resumeStrategy f;
     ce_runtimeMode := Some (cf_runtimeMode f);
     ce_agentsJson := Some (cf_agentsJson f);
     ce_worktreeId := Some (cf_worktreeId f);
     ce_forkedFromSessionId := Some (cf_forkedFromSessionId f);
     ce_forkedFromMessageId := Some (cf_forkedFromMessageId f);
     ce_permissionMode := Some (cf_permissionMode f);
     ce_toolSearch := Some (cf_toolSearch f);
     ce_queuePaused := Some (cf_queuePaused f);
     ce_providerStartJson := providerStartJson |}.
