(* ===== verification/SessionState.v ===== *)
(** * Session state and its evolution (packages/domain/src/core/state.ts)

    [SessionState] is the fold of a session's events. One definition per event
    handler of [evolve], then [evolve] itself and the batched [evolveAll]. *)
From S2P Require Import Prelude Js JsMap Ids Contracts SessionTypes.

Local Open Scope Z_scope.

(** ** State *)

Record OpenSegmentState := { seg_turnId : string; seg_kind : SegmentKind }.
Record QueuedTurn := {
  qt_queueId : string;
  qt_inputJson : string;
  qt_position : Z;
  qt_createdAt : Z;
  qt_ready : bool }.
Record ScheduledSuccessor := {
  sc_predecessorTurnId : string;
  sc_turnId : string;
  sc_queueId : string;
  sc_inputJson : string }.
Record MessageCheckpointState := { ck_revision : num; ck_final : bool }.
(** [ProviderThreadState] has the fields of the event's snapshot. *)
Notation ProviderThreadState := ProviderThreadSnapshot.

Inductive AttemptStatus : Set :=
| AS_running | AS_completed | AS_interrupted | AS_failed | AS_superseded.
Record AttemptState := {
  at_id : string;
  at_ordinal : Z;
  at_reason : AttemptReason;
  at_status : AttemptStatus;
  at_startedAt : Z;
  at_completedAt : option Z }.

Inductive TurnStatus : Set :=
| TS_rolled_back | TS_finalizing | TS_starting | TS_running
| TS_completed | TS_interrupted | TS_failed.
Record TurnState := {
  tn_id : string;
  tn_ordinal : Z;
  tn_status : TurnStatus;
  tn_phase : option TurnPhase;
  tn_providerThreadId : option string;
  tn_activeAttemptId : string;
  tn_attempts : gmap string AttemptState;
  tn_requestedAt : Z;
  tn_completedAt : option Z }.

Record AttemptRecovery := {
  rc_sourceAttemptId : string;
  rc_reference : ProviderTurnReference }.
Record ProviderReservation := {
  rs_providerId : string;
  rs_providerSessionId : string }.

Record SessionState := {
  st_exists : bool;
  st_sessionId : option string;
  st_chatId : option string;
  st_projectId : option string;
  st_title : option string;
  st_titleProvenance : NameProvenance;
  st_model : option string;
  st_status : option SessionStatus;
  st_queuePaused : bool;
  st_runtimeMode : option RuntimeMode;
  st_worktreeId : option string;
  st_permissionMode : option PermissionMode;
  st_archived : bool;
  st_deleted : bool;
  st_providerThreads : gmap string ProviderThreadState;
  st_activeProviderThreadId : option string;
  st_turns : list (string * TurnState);
  st_attemptRecoveries : gmap string AttemptRecovery;
  st_attemptProviderTurns : gmap string ProviderTurnReference;
  st_turnCount : Z;
  st_currentTurnId : option string;
  st_currentTurnPhase : option TurnPhase;
  st_lastSettledTurnId : option string;
  st_lastSettlementOutcome : option TurnSettlementOutcome;
  st_settledTurnIds : gset string;
  st_queuedTurns : gmap string QueuedTurn;
  st_queueOrder : list string;
  st_scheduledSuccessor : option ScheduledSuccessor;
  st_openSegments : list (string * OpenSegmentState);
  st_messageIds : gset string;
  st_messageCheckpoints : gmap string MessageCheckpointState;
  st_pendingPermissionIds : gset string;
  st_expiredPermissionIds : gset string;
  st_expiredQuestionIds : gset string;
  st_expiredPlanIds : gset string;
  st_resolvedQuestionIds : gset string;
  st_providerId : option string;
  st_attachedProviderId : option string;
  st_attachedProviderSessionId : option string;
  st_providerReservation : option ProviderReservation;
  st_version : Z }.

#[export] Instance settable_SessionState : Settable SessionState := λ s,
  Build_SessionState (st_exists s) (st_sessionId s) (st_chatId s) (st_projectId s)
    (st_title s) (st_titleProvenance s) (st_model s) (st_status s) (st_queuePaused s)
    (st_runtimeMode s) (st_worktreeId s) (st_permissionMode s) (st_archived s)
    (st_deleted s) (st_providerThreads s) (st_activeProviderThreadId s) (st_turns s)
    (st_attemptRecoveries s) (st_attemptProviderTurns s) (st_turnCount s)
    (st_currentTurnId s) (st_currentTurnPhase s) (st_lastSettledTurnId s)
    (st_lastSettlementOutcome s) (st_settledTurnIds s) (st_queuedTurns s)
    (st_queueOrder s) (st_scheduledSuccessor s) (st_openSegments s) (st_messageIds s)
    (st_messageCheckpoints s) (st_pendingPermissionIds s) (st_expiredPermissionIds s)
    (st_expiredQuestionIds s) (st_expiredPlanIds s) (st_resolvedQuestionIds s)
    (st_providerId s) (st_attachedProviderId s) (st_attachedProviderSessionId s)
    (st_providerReservation s) (st_version s).
#[export] Instance settable_TurnState : Settable TurnState := λ t,
  Build_TurnState (tn_id t) (tn_ordinal t) (tn_status t) (tn_phase t)
    (tn_providerThreadId t) (tn_activeAttemptId t) (tn_attempts t) (tn_requestedAt t)
    (tn_completedAt t).
#[export] Instance settable_AttemptState : Settable AttemptState := λ a,
  Build_AttemptState (at_id a) (at_ordinal a) (at_reason a) (at_status a)
    (at_startedAt a) (at_completedAt a).
#[export] Instance settable_QueuedTurn : Settable QueuedTurn := λ q,
  Build_QueuedTurn (qt_queueId q) (qt_inputJson q) (qt_position q) (qt_createdAt q)
    (qt_ready q).
#[export] Instance AttemptStatus_eq_dec : EqDecision AttemptStatus.
Proof. solve_decision. Defined.
#[export] Instance TurnStatus_eq_dec : EqDecision TurnStatus.
Proof. solve_decision. Defined.
#[export] Instance ProviderReservation_eq_dec : EqDecision ProviderReservation.
Proof. solve_decision. Defined.

Definition initialSessionState : SessionState := {|
  st_exists := false;
  st_sessionId := None;
  st_chatId := None;
  st_projectId := None;
  st_title := None;
  st_titleProvenance := NP_manual;
  st_model := None;
  st_status := None;
  st_queuePaused := false;
  st_runtimeMode := None;
  st_worktreeId := None;
  st_permissionMode := None;
  st_archived := false;
  st_deleted := false;
  st_providerThreads := ∅;
  st_activeProviderThreadId := None;
  st_turns := [];
  st_attemptRecoveries := ∅;
  st_attemptProviderTurns := ∅;
  st_turnCount := 0;
  st_currentTurnId := None;
  st_currentTurnPhase := None;
  st_lastSettledTurnId := None;
  st_lastSettlementOutcome := None;
  st_settledTurnIds := ∅;
  st_queuedTurns := ∅;
  st_queueOrder := [];
  st_scheduledSuccessor := None;
  st_openSegments := [];
  st_messageIds := ∅;
  st_messageCheckpoints := ∅;
  st_pendingPermissionIds := ∅;
  st_expiredPermissionIds := ∅;
  st_expiredQuestionIds := ∅;
  st_expiredPlanIds := ∅;
  st_resolvedQuestionIds := ∅;
  st_providerId := None;
  st_attachedProviderId := None;
  st_attachedProviderSessionId := None;
  st_providerReservation := None;
  st_version := 0 |}.

(** ** Helpers *)

Definition added (source : gset string) (value : string) : gset string :=
  source ∪ {[value]}.
Definition removed (source : gset string) (value : string) : gset string :=
  source ∖ {[value]}.

(** The session's current turn, [state.turns.get(state.currentTurnId)]. *)
Definition current_turn (state : SessionState) : option TurnState :=
  st_currentTurnId state ≫= λ id, jm_get id (st_turns state).

(** The [Pick<SessionState, "providerThreads" | "activeProviderThreadId">] the
    thread helpers return, and spreading it into a state. *)
Definition ThreadsPick : Type := gmap string ProviderThreadState * option string.
Definition spread_threads (p : ThreadsPick) (state : SessionState) : SessionState :=
  state <| st_providerThreads := p.1 |> <| st_activeProviderThreadId := p.2 |>.

Definition withProviderThread (state : SessionState) (providerThread : ProviderThreadState)
    (makeActive : bool) : ThreadsPick :=
  (<[pt_id providerThread := providerThread]> (st_providerThreads state),
   if makeActive then Some (pt_id providerThread) else st_activeProviderThreadId state).

Definition bindLegacyResume (state : SessionState) (nativeThreadId : string)
    (nativeHeadId : option (option string)) (at_ : Z) : ThreadsPick :=
  let provider := default "unknown" (st_providerId state) in
  let id := providerThreadIdFor (default "" (st_sessionId state)) provider nativeThreadId in
  let existing := st_providerThreads state !! id in
  let currentTurn := current_turn state in
  withProviderThread state
    {| pt_id := id;
       pt_provider := provider;
       pt_nativeThreadId := nativeThreadId;
       pt_nativeHeadId :=
         match nativeHeadId with
         | None => existing ≫= pt_nativeHeadId
         | Some head => head
         end;
       pt_status :=
         match st_currentTurnId state with None => PT_idle | Some _ => PT_active end;
       pt_firstTurnOrdinal :=
         (existing ≫= pt_firstTurnOrdinal) ?? (tn_ordinal <$> currentTurn);
       pt_lastTurnOrdinal :=
         (tn_ordinal <$> currentTurn) ?? (existing ≫= pt_lastTurnOrdinal);
       pt_createdAt := default at_ (pt_createdAt <$> existing);
       pt_updatedAt := at_ |}
    true.

Definition retireActiveProviderThread (state : SessionState) (at_ : Z) : ThreadsPick :=
  match st_activeProviderThreadId state with
  | None => (st_providerThreads state, None)
  | Some activeId =>
      (match st_providerThreads state !! activeId with
       | Some active =>
           <[pt_id active := active <| pt_status := PT_closed |> <| pt_updatedAt := at_ |>]>
             (st_providerThreads state)
       | None => st_providerThreads state
       end, None)
  end.

(** [Pick<SessionState, "turns" | "turnCount">], spread into a state. *)
Definition withTurn (state : SessionState) (turn : TurnState)
    : list (string * TurnState) * Z :=
  (jm_set (tn_id turn) turn (st_turns state),
   Z.max (st_turnCount state) (tn_ordinal turn)).
Definition spread_turn (p : list (string * TurnState) * Z) (state : SessionState)
    : SessionState :=
  state <| st_turns := p.1 |> <| st_turnCount := p.2 |>.

Definition withTurnPhase (state : SessionState) (turnId : string) (phase : TurnPhase)
    : list (string * TurnState) * option TurnPhase :=
  match jm_get turnId (st_turns state) with
  | Some turn =>
      if decide (st_currentTurnId state = Some turnId) then
        (jm_set turnId (turn <| tn_phase := Some phase |>) (st_turns state), Some phase)
      else (st_turns state, st_currentTurnPhase state)
  | None => (st_turns state, st_currentTurnPhase state)
  end.
Definition spread_phase (p : list (string * TurnState) * option TurnPhase)
    (state : SessionState) : SessionState :=
  state <| st_turns := p.1 |> <| st_currentTurnPhase := p.2 |>.

Section evolve.
Context `{ContentCodec}.

(** ** Messages *)

Record MessageCollections := {
  mc_messageIds : gset string;
  mc_messageCheckpoints : gmap string MessageCheckpointState }.

Definition evolveMessage (state : SessionState) (event : MessageFields) (version : Z)
    (owned : option MessageCollections) : SessionState :=
  let '(expiredQuestionIds, resolvedQuestionIds) :=
    if decide (mf_kind event = "user_question_answer") then
      match decodeMessageContent (mf_contentJson event) with
      | Some (MC_user_question_answer content) =>
          (removed (st_expiredQuestionIds state) (qa_itemId content),
           added (st_resolvedQuestionIds state) (qa_itemId content))
      | _ => (st_expiredQuestionIds state, st_resolvedQuestionIds state)
      end
    else (st_expiredQuestionIds state, st_resolvedQuestionIds state) in
  let messageCheckpoints :=
    default (st_messageCheckpoints state) (mc_messageCheckpoints <$> owned) in
  let messageIds := default (st_messageIds state) (mc_messageIds <$> owned) in
  let messageIds := messageIds ∪ {[mf_messageId event]} in
  let messageCheckpoints :=
    match mf_checkpointRevision event with
    | Some revision =>
        <[mf_messageId event :=
            {| ck_revision := revision;
               ck_final := default false (mf_checkpointFinal event) |}]> messageCheckpoints
    | None => messageCheckpoints
    end in
  state <| st_expiredQuestionIds := expiredQuestionIds |>
        <| st_resolvedQuestionIds := resolvedQuestionIds |>
        <| st_messageIds := messageIds |>
        <| st_messageCheckpoints := messageCheckpoints |>
        <| st_version := version |>.

(** ** One definition per case of [evolve]; [version] is the new version *)

Definition evolve_SessionCreated (state : SessionState) (e : SessionCreatedEventFields)
    (version : Z) : SessionState :=
  let created :=
    state <| st_exists := true |>
          <| st_sessionId := Some (id_sessionId (ce_identity e)) |>
          <| st_chatId := Some (id_chatId (ce_identity e)) |>
          <| st_projectId := Some (id_projectId (ce_identity e)) |>
          <| st_title := ce_title e |>
          <| st_titleProvenance := titleProvenanceOrManual (ce_titleProvenance e) |>
          <| st_providerId := ce_providerId e |>
          <| st_model := ce_model e |>
          <| st_status := ce_status e |>
          <| st_runtimeMode := ce_runtimeMode e |>
          <| st_worktreeId := default None (ce_worktreeId e) |>
          <| st_permissionMode := ce_permissionMode e |>
          <| st_queuePaused := default false (ce_queuePaused e) |>
          <| st_version := version |> in
  match default None (ce_cursor e) with
  | None => created
  | Some legacyCursor =>
      spread_threads
        (bindLegacyResume created legacyCursor (Some None) (id_createdAt (ce_identity e)))
        created
  end.

Definition evolve_SessionTitleSet (state : SessionState) (title : string)
    (titleProvenance : option NameProvenance) (version : Z) : SessionState :=
  state <| st_title := Some title |>
        <| st_titleProvenance := titleProvenanceOrManual titleProvenance |>
        <| st_version := version |>.

Definition evolve_SessionModelSet (state : SessionState) (model : string) (version : Z)
    : SessionState :=
  state <| st_model := Some model |>
        <| st_attachedProviderId := None |>
        <| st_attachedProviderSessionId := None |>
        <| st_providerReservation := None |>
        <| st_version := version |>.

Definition evolve_SessionProviderSet (state : SessionState) (providerId model : string)
    (updatedAt version : Z) : SessionState :=
  spread_threads (retireActiveProviderThread state updatedAt)
    (state <| st_providerId := Some providerId |>
           <| st_model := Some model |>
           <| st_attachedProviderId := None |>
           <| st_attachedProviderSessionId := None |>
           <| st_providerReservation := None |>)
    <| st_version := version |>.

Definition evolve_SessionWorktreeSet (state : SessionState) (worktreeId : option string)
    (updatedAt version : Z) : SessionState :=
  let base :=
    state <| st_worktreeId := worktreeId |>
          <| st_providerReservation :=
               if decide (st_worktreeId state = worktreeId)
               then st_providerReservation state else None |> in
  (if decide (st_worktreeId state = worktreeId) then base
   else spread_threads (retireActiveProviderThread state updatedAt) base)
    <| st_version := version |>.

Definition evolve_SessionStatusSet (state : SessionState) (status : SessionStatus)
    (version : Z) : SessionState :=
  match current_turn state with
  | Some current =>
      if decide (status = SS_running ∧ tn_status current = TS_starting) then
        spread_turn (withTurn state (current <| tn_status := TS_running |>))
          (state <| st_status := Some status |>)
          <| st_version := version |>
      else state <| st_status := Some status |> <| st_version := version |>
  | None => state <| st_status := Some status |> <| st_version := version |>
  end.

Definition evolve_SessionResumeSet (state : SessionState) (cursor : option string)
    (providerEventCursor : option (option string)) (updatedAt version : Z) : SessionState :=
  spread_threads
    (bindLegacyResume state (default "" cursor) providerEventCursor updatedAt) state
    <| st_version := version |>.

Definition evolve_ProviderThreadUpdated (state : SessionState)
    (providerThread : ProviderThreadSnapshot) (version : Z) : SessionState :=
  let id := scopeProviderThreadId (default "" (st_sessionId state)) (pt_id providerThread) in
  let previous := st_providerThreads state !! id in
  spread_threads
    (withProviderThread state
       (providerThread
          <| pt_id := id |>
          <| pt_createdAt := default (pt_createdAt providerThread) (pt_createdAt <$> previous) |>)
       false)
    state
    <| st_version := version |>.

Definition evolve_ActiveProviderThreadSet (state : SessionState)
    (providerThreadId : option string) (version : Z) : SessionState :=
  state <| st_activeProviderThreadId :=
             scopeProviderThreadId (default "" (st_sessionId state)) <$> providerThreadId |>
        <| st_version := version |>.

Definition initial_attempt (attemptId : string) (startedAt : Z) : AttemptState :=
  {| at_id := attemptId;
     at_ordinal := 1;
     at_reason := AR_initial;
     at_status := AS_running;
     at_startedAt := startedAt;
     at_completedAt := None |}.

Definition evolve_TurnStarted (state : SessionState) (turnId : string) (startedAt : Z)
    (ordinal_ : option Z) (attemptId_ : option string)
    (providerThreadId_ : option (option string)) (version : Z) : SessionState :=
  let ordinal := default (st_turnCount state + 1) ordinal_ in
  let attemptId := default (attemptIdFor turnId 1) attemptId_ in
  let providerThreadId :=
    match providerThreadId_ with
    | None => st_activeProviderThreadId state
    | Some threadId => scopeProviderThreadId (default "" (st_sessionId state)) <$> threadId
    end in
  let turn :=
    {| tn_id := turnId;
       tn_ordinal := ordinal;
       tn_status := TS_starting;
       tn_phase := Some TP_running;
       tn_providerThreadId := providerThreadId;
       tn_activeAttemptId := attemptId;
       tn_attempts := {[ attemptId := initial_attempt attemptId startedAt ]};
       tn_requestedAt := startedAt;
       tn_completedAt := None |} in
  let thread := providerThreadId ≫= λ id, st_providerThreads state !! id in
  let base := spread_turn (withTurn state turn) state in
  (match thread with
   | None => base
   | Some thread =>
       spread_threads
         (withProviderThread state
            (thread <| pt_status := PT_active |>
                    <| pt_firstTurnOrdinal := pt_firstTurnOrdinal thread ?? Some ordinal |>
                    <| pt_lastTurnOrdinal := Some ordinal |>
                    <| pt_updatedAt := startedAt |>)
            false)
         base
   end)
    <| st_currentTurnId := Some turnId |>
    <| st_currentTurnPhase := Some TP_running |>
    <| st_version := version |>.

Definition evolve_AttemptProviderTurnBound (state : SessionState)
    (e : AttemptProviderTurnFields) (version : Z) : SessionState :=
  let attempt :=
    jm_get (bt_turnId e) (st_turns state) ≫= λ turn, tn_attempts turn !! bt_attemptId e in
  match attempt, st_attemptProviderTurns state !! bt_attemptId e with
  | Some _, None =>
      state <| st_attemptProviderTurns ::= <[bt_attemptId e := bt_reference e]> |>
            <| st_version := version |>
  | _, _ => state <| st_version := version |>
  end.

Definition supersede_running (previous : AttemptState) (at_ : Z) : AttemptState :=
  previous <| at_status := AS_superseded |> <| at_completedAt := Some at_ |>.

Definition evolve_AttemptStarted (state : SessionState) (turnId attemptId : string)
    (ordinal : Z) (reason : AttemptReason) (startedAt version : Z) : SessionState :=
  match jm_get turnId (st_turns state) with
  | None => state <| st_version := version |>
  | Some turn =>
      let attempts :=
        match tn_attempts turn !! tn_activeAttemptId turn with
        | Some previous =>
            if decide (at_status previous = AS_running)
            then <[at_id previous := supersede_running previous startedAt]> (tn_attempts turn)
            else tn_attempts turn
        | None => tn_attempts turn
        end in
      let attempts :=
        <[attemptId := {| at_id := attemptId; at_ordinal := ordinal; at_reason := reason;
                          at_status := AS_running; at_startedAt := startedAt;
                          at_completedAt := None |}]> attempts in
      spread_turn
        (withTurn state
           (turn <| tn_status := TS_starting |>
                 <| tn_phase := Some TP_running |>
                 <| tn_activeAttemptId := attemptId |>
                 <| tn_attempts := attempts |>))
        state
        <| st_currentTurnPhase :=
             if decide (st_currentTurnId state = Some turnId)
             then Some TP_running else st_currentTurnPhase state |>
        <| st_version := version |>
  end.

Definition evolve_ProviderRecoveryRequested (state : SessionState)
    (attemptId sourceAttemptId : string) (reference : ProviderTurnReference) (version : Z)
    : SessionState :=
  state <| st_attemptRecoveries ::=
             <[attemptId := {| rc_sourceAttemptId := sourceAttemptId;
                               rc_reference := reference |}]> |>
        <| st_version := version |>.

Definition evolve_TurnPhaseEvent (state : SessionState) (turnId : string) (phase : TurnPhase)
    (version : Z) : SessionState :=
  spread_phase (withTurnPhase state turnId phase) state <| st_version := version |>.

Definition close_thread (at_ : Z) (thread : ProviderThreadState) : ProviderThreadState :=
  thread <| pt_status := PT_closed |> <| pt_updatedAt := at_ |>.
Definition roll_back_turn (throughOrdinal : num) (turn : TurnState) : TurnState :=
  if num_ltb throughOrdinal (num_of_Z (tn_ordinal turn))
  then turn <| tn_status := TS_rolled_back |> else turn.

Definition evolve_TurnsRolledBack (state : SessionState) (throughOrdinal : num)
    (removedMessageIds : list string) (rolledBackAt version : Z) : SessionState :=
  state <| st_turns := jm_update_all (roll_back_turn throughOrdinal) (st_turns state) |>
        <| st_messageIds := st_messageIds state ∖ list_to_set removedMessageIds |>
        <| st_messageCheckpoints :=
             foldl (λ m id, delete id m) (st_messageCheckpoints state) removedMessageIds |>
        <| st_providerThreads := close_thread rolledBackAt <$> st_providerThreads state |>
        <| st_pendingPermissionIds := ∅ |>
        <| st_expiredPermissionIds :=
             st_expiredPermissionIds state ∪ st_pendingPermissionIds state |>
        <| st_activeProviderThreadId := None |>
        <| st_lastSettledTurnId := None |>
        <| st_lastSettlementOutcome := None |>
        <| st_version := version |>.

Definition evolve_TurnFinalizationRequested (state : SessionState) (turnId : string)
    (version : Z) : SessionState :=
  match jm_get turnId (st_turns state) with
  | None => state <| st_version := version |>
  | Some turn =>
      spread_turn (withTurn state (turn <| tn_status := TS_finalizing |>)) state
        <| st_version := version |>
  end.

Definition settled_turn_status (outcome : TurnSettlementOutcome) : TurnStatus :=
  match outcome with
  | TSO_completed => TS_completed
  | TSO_interrupted => TS_interrupted
  | TSO_error => TS_failed
  end.
Definition settled_attempt_status (outcome : TurnSettlementOutcome) : AttemptStatus :=
  match outcome with
  | TSO_completed => AS_completed
  | TSO_interrupted => AS_interrupted
  | TSO_error => AS_failed
  end.
Definition settle_attempt (outcome : TurnSettlementOutcome) (settledAt : Z)
    (active : AttemptState) : AttemptState :=
  active <| at_status := settled_attempt_status outcome |>
         <| at_completedAt := Some settledAt |>.
Definition settle_turn (outcome : TurnSettlementOutcome) (settledAt : Z) (turn : TurnState)
    : TurnState :=
  let attempts :=
    match tn_attempts turn !! tn_activeAttemptId turn with
    | Some active =>
        <[at_id active := settle_attempt outcome settledAt active]> (tn_attempts turn)
    | None => tn_attempts turn
    end in
  turn <| tn_status := settled_turn_status outcome |>
       <| tn_phase := None |>
       <| tn_attempts := attempts |>
       <| tn_completedAt := Some settledAt |>.

Definition evolve_TurnSettled (state : SessionState) (turnId : string)
    (outcome : TurnSettlementOutcome) (settledAt version : Z) : SessionState :=
  let turns :=
    match jm_get turnId (st_turns state) with
    | Some turn => (withTurn state (settle_turn outcome settledAt turn)).1
    | None => st_turns state
    end in
  let activeThread := st_activeProviderThreadId state ≫= λ id, st_providerThreads state !! id in
  let base := state <| st_turns := turns |> in
  (match activeThread with
   | Some activeThread =>
       if decide (pt_status activeThread = PT_active) then
         spread_threads
           (withProviderThread state
              (activeThread <| pt_status := PT_idle |> <| pt_updatedAt := settledAt |>) false)
           base
       else base
   | None => base
   end)
    <| st_currentTurnId := None |>
    <| st_currentTurnPhase := None |>
    <| st_lastSettledTurnId := Some turnId |>
    <| st_lastSettlementOutcome := Some outcome |>
    <| st_settledTurnIds := added (st_settledTurnIds state) turnId |>
    <| st_version := version |>.

Definition evolve_QueuedTurnEnqueued (state : SessionState) (queueId inputJson : string)
    (position createdAt : Z) (ready : bool) (version : Z) : SessionState :=
  state <| st_queuedTurns ::=
             <[queueId := {| qt_queueId := queueId; qt_inputJson := inputJson;
                             qt_position := position; qt_createdAt := createdAt;
                             qt_ready := ready |}]> |>
        <| st_queueOrder := st_queueOrder state ++ [queueId] |>
        <| st_version := version |>.

Definition evolve_QueuedTurnUpdated (state : SessionState) (queueId inputJson : string)
    (ready : bool) (version : Z) : SessionState :=
  match st_queuedTurns state !! queueId with
  | None => state <| st_version := version |>
  | Some current =>
      state <| st_queuedTurns ::=
                 <[queueId := current <| qt_inputJson := inputJson |> <| qt_ready := ready |>]> |>
            <| st_version := version |>
  end.

Definition evolve_QueuedTurnTaken (state : SessionState) (queueId : string) (version : Z)
    : SessionState :=
  state <| st_queuedTurns ::= delete queueId |>
        <| st_queueOrder := filter (λ id, id ≠ queueId) (st_queueOrder state) |>
        <| st_version := version |>.

Definition evolve_ProviderAttached (state : SessionState) (providerId : string)
    (providerSessionId : option string) (version : Z) : SessionState :=
  state <| st_attachedProviderId := Some providerId |>
        <| st_attachedProviderSessionId := providerSessionId |>
        <| st_providerReservation :=
             if decide (rs_providerSessionId <$> st_providerReservation state
                        = providerSessionId)
             then st_providerReservation state else None |>
        <| st_version := version |>.

(** The reservation after a stop or detach event for [providerSessionId]. *)
Definition release_reservation (state : SessionState) (providerSessionId : option string)
    : option ProviderReservation :=
  if decide (rs_providerSessionId <$> st_providerReservation state = providerSessionId)
  then None else st_providerReservation state.

(** ** [evolve] *)
Definition evolve (state : SessionState) (event : SessionEvent) : SessionState :=
  let version := st_version state + 1 in
  match event with
  | SessionCreated e => evolve_SessionCreated state e version
  | SessionTitleSet title prov _ => evolve_SessionTitleSet state title prov version
  | SessionModelSet model _ => evolve_SessionModelSet state model version
  | SessionProviderSet providerId model updatedAt =>
      evolve_SessionProviderSet state providerId model updatedAt version
  | SessionRuntimeModeSet mode _ =>
      state <| st_runtimeMode := Some mode |> <| st_version := version |>
  | SessionPermissionModeSet mode _ =>
      state <| st_permissionMode := Some mode |> <| st_version := version |>
  | SessionWorktreeSet worktreeId updatedAt =>
      evolve_SessionWorktreeSet state worktreeId updatedAt version
  | SessionStatusSet status _ => evolve_SessionStatusSet state status version
  | SessionQueuePausedSet paused _ =>
      state <| st_queuePaused := paused |> <| st_version := version |>
  | SessionResumeSet cursor _ providerEventCursor updatedAt =>
      evolve_SessionResumeSet state cursor providerEventCursor updatedAt version
  | ProviderThreadUpdated providerThread =>
      evolve_ProviderThreadUpdated state providerThread version
  | ActiveProviderThreadSet providerThreadId _ =>
      evolve_ActiveProviderThreadSet state providerThreadId version
  | SessionArchived _ =>
      state <| st_archived := true |> <| st_providerReservation := None |>
            <| st_version := version |>
  | SessionUnarchived _ => state <| st_archived := false |> <| st_version := version |>
  | SessionDeleted _ =>
      state <| st_deleted := true |> <| st_providerReservation := None |>
            <| st_version := version |>
  | TurnStarted turnId startedAt ordinal attemptId providerThreadId =>
      evolve_TurnStarted state turnId startedAt ordinal attemptId providerThreadId version
  | AttemptProviderTurnBound e => evolve_AttemptProviderTurnBound state e version
  | AttemptStarted turnId attemptId ordinal reason startedAt _ _ _ =>
      evolve_AttemptStarted state turnId attemptId ordinal reason startedAt version
  | ProviderRecoveryRequested _ attemptId sourceAttemptId reference _ =>
      evolve_ProviderRecoveryRequested state attemptId sourceAttemptId reference version
  | ProviderTurnRequested _ _ _ _ _ => state <| st_version := version |>
  | TurnInterruptRequested turnId _ _ =>
      evolve_TurnPhaseEvent state turnId TP_interrupt_requested version
  | TurnInterruptAcknowledged turnId _ =>
      evolve_TurnPhaseEvent state turnId TP_interrupt_acknowledged version
  | TurnInterruptFailed turnId _ _ => evolve_TurnPhaseEvent state turnId TP_running version
  | TurnsRolledBack _ throughOrdinal _ removedMessageIds rolledBackAt =>
      evolve_TurnsRolledBack state throughOrdinal removedMessageIds rolledBackAt version
  | TurnFinalizationRequested turnId _ _ _ =>
      evolve_TurnFinalizationRequested state turnId version
  | TurnSettled turnId outcome settledAt =>
      evolve_TurnSettled state turnId outcome settledAt version
  | QueuedTurnEnqueued queueId inputJson position createdAt ready =>
      evolve_QueuedTurnEnqueued state queueId inputJson position createdAt ready version
  | QueuedTurnUpdated queueId inputJson _ ready =>
      evolve_QueuedTurnUpdated state queueId inputJson ready version
  | QueuedTurnRemoved queueId _ | QueuedTurnClaimed queueId _ =>
      evolve_QueuedTurnTaken state queueId version
  | QueuedTurnsReordered queueIds _ =>
      state <| st_queueOrder := queueIds |> <| st_version := version |>
  | SuccessorTurnScheduled predecessorTurnId turnId queueId inputJson _ =>
      state <| st_scheduledSuccessor :=
                 Some {| sc_predecessorTurnId := predecessorTurnId; sc_turnId := turnId;
                         sc_queueId := queueId; sc_inputJson := inputJson |} |>
            <| st_version := version |>
  | ScheduledSuccessorReady _ _ _ _ _ =>
      state <| st_scheduledSuccessor := None |> <| st_version := version |>
  | MessagePersisted message => evolveMessage state message version None
  | SegmentOpened turnId segmentId kind _ =>
      state <| st_openSegments ::=
                 jm_set segmentId {| seg_turnId := turnId; seg_kind := kind |} |>
            <| st_version := version |>
  | SegmentSettled _ segmentId _ _ =>
      state <| st_openSegments ::= jm_delete segmentId |> <| st_version := version |>
  | PermissionRequested _ requestId _ _ _ =>
      state <| st_pendingPermissionIds := added (st_pendingPermissionIds state) requestId |>
            <| st_version := version |>
  | PermissionExpired requestId _ =>
      state <| st_expiredPermissionIds := added (st_expiredPermissionIds state) requestId |>
            <| st_version := version |>
  | PermissionResolved requestId _ _ _ =>
      state <| st_expiredPermissionIds := removed (st_expiredPermissionIds state) requestId |>
            <| st_pendingPermissionIds := removed (st_pendingPermissionIds state) requestId |>
            <| st_version := version |>
  | PlanExpired itemId _ _ =>
      state <| st_expiredPlanIds := added (st_expiredPlanIds state) itemId |>
            <| st_version := version |>
  | QuestionExpired itemId _ =>
      state <| st_expiredQuestionIds := added (st_expiredQuestionIds state) itemId |>
            <| st_version := version |>
  | QuestionResolved itemId _ =>
      state <| st_expiredQuestionIds := removed (st_expiredQuestionIds state) itemId |>
            <| st_resolvedQuestionIds := added (st_resolvedQuestionIds state) itemId |>
            <| st_version := version |>
  | ProviderSessionReserved providerId providerSessionId _ =>
      state <| st_providerReservation :=
                 Some {| rs_providerId := providerId;
                         rs_providerSessionId := providerSessionId |} |>
            <| st_version := version |>
  | ProviderAttached providerId providerSessionId _ =>
      evolve_ProviderAttached state providerId providerSessionId version
  | ProviderStopRequested _ providerSessionId _ =>
      state <| st_providerReservation := release_reservation state providerSessionId |>
            <| st_version := version |>
  | ProviderDetached _ providerSessionId _ =>
      state <| st_attachedProviderId := None |>
            <| st_attachedProviderSessionId := None |>
            <| st_providerReservation := release_reservation state providerSessionId |>
            <| st_version := version |>
  end.

(** ** [evolveAll]: a run of message events shares one pair of owned collections *)
Fixpoint evolveAll_loop (current : SessionState) (owned : option MessageCollections)
    (events : list SessionEvent) : SessionState :=
  match events with
  | [] => current
  | MessagePersisted message :: events =>
      let owned :=
        default {| mc_messageIds := st_messageIds current;
                   mc_messageCheckpoints := st_messageCheckpoints current |} owned in
      let next := evolveMessage current message (st_version current + 1) (Some owned) in
      (* [evolveMessage] mutated the owned collections and put them in [next]. *)
      evolveAll_loop next
        (Some {| mc_messageIds := st_messageIds next;
                 mc_messageCheckpoints := st_messageCheckpoints next |}) events
  | event :: events => evolveAll_loop (evolve current event) None events
  end.
Definition evolveAll (state : SessionState) (events : list SessionEvent) : SessionState :=
  evolveAll_loop state None events.

Definition activeProviderThread (state : SessionState) : option ProviderThreadState :=
  st_activeProviderThreadId state ≫= λ id, st_providerThreads state !! id.

End evolve.
