(* ===== verification/SessionDecider.v ===== *)
(** * Session command decisions (packages/domain/src/core/decider.ts)

    [decide state command] is the list of events a command produces, or the
    domain error it fails with. One definition per case of the source's switch. *)
From S2P Require Import Prelude Js JsMap Ids Contracts SessionTypes SessionState.

Local Open Scope Z_scope.

Inductive DomainError : Type :=
| SessionNotFound
| SessionAlreadyExists
| SessionDeletedConflict
| ValidationFailed (message : string)
| TurnAlreadyRunning (turnId : string)
| TurnNotRunning (turnId : string)
| TurnConflict (expectedTurnId : string) (actualTurnId : option string)
| QueuedTurnNotFound (queueId : string)
| SegmentNotOpen (segmentId : string)
| PermissionNotPending (requestId : string).

Notation Decision_ := (result (list SessionEvent) DomainError).

(** ** Helpers *)

Definition turnInterruptReceipt (state : SessionState) (expectedTurnId : option string)
    : TurnInterruptReceipt :=
  match st_currentTurnId state with
  | None => receipt_not_active no_active_turn expectedTurnId None
  | Some actualTurnId =>
      if decide (expectedTurnId ≠ None ∧ expectedTurnId ≠ Some actualTurnId) then
        receipt_not_active turn_mismatch expectedTurnId (Some actualTurnId)
      else receipt_requested actualTurnId
  end.

Definition success (events : list SessionEvent) : Decision_ := Success events.

Definition providerStopTargets (state : SessionState) : list (option string * string) :=
  let targets :=
    match st_attachedProviderId state with
    | Some attached => jm_set (st_attachedProviderSessionId state) attached []
    | None => []
    end in
  match st_providerReservation state with
  | Some reservation =>
      jm_set (Some (rs_providerSessionId reservation)) (rs_providerId reservation) targets
  | None => targets
  end.
Definition providerStops (state : SessionState) (requestedAt : Z) : list SessionEvent :=
  map (λ '(providerSessionId, providerId),
         ProviderStopRequested providerId providerSessionId requestedAt)
      (providerStopTargets state).

Definition providerThreadSeedEvents (sessionId : string) (seed : option ProviderThreadSeed)
    (at_ : Z) : list SessionEvent :=
  match seed with
  | None => []
  | Some seed =>
      let id := providerThreadIdFor sessionId (seed_provider seed) (seed_nativeThreadId seed) in
      [ ProviderThreadUpdated
          {| pt_id := id;
             pt_provider := seed_provider seed;
             pt_nativeThreadId := seed_nativeThreadId seed;
             pt_nativeHeadId := default None (seed_nativeHeadId seed);
             pt_status := PT_not_loaded;
             pt_firstTurnOrdinal := None;
             pt_lastTurnOrdinal := None;
             pt_createdAt := at_;
             pt_updatedAt := at_ |};
        ActiveProviderThreadSet (Some id) at_ ]
  end.

Definition seededProviderThreadId (sessionId : string) (seed : option ProviderThreadSeed)
    : option string :=
  (λ s, providerThreadIdFor sessionId (seed_provider s) (seed_nativeThreadId s)) <$> seed.

(** [state.turns.get(id)?.activeAttemptId ?? attemptIdFor(id, 1)] *)
Definition activeAttemptOr (state : SessionState) (turnId : string) : string :=
  default (attemptIdFor turnId 1) (tn_activeAttemptId <$> jm_get turnId (st_turns state)).

Definition is_interrupting (phase : option TurnPhase) : bool :=
  match phase with
  | Some TP_interrupt_requested | Some TP_interrupt_acknowledged => true
  | _ => false
  end.

(** The message fields a decision builds itself. *)
Definition plain_message (messageId : string) (turnId : option string)
    (role kind contentJson : string) (parentItemId : option string) (createdAt : Z)
    : MessageFields :=
  {| mf_inputOwner := None; mf_messageId := messageId; mf_turnId := turnId;
     mf_role := role; mf_kind := kind; mf_contentJson := contentJson;
     mf_parentItemId := parentItemId; mf_checkpointRevision := None;
     mf_checkpointFinal := None; mf_createdAt := createdAt |}.

(** ** Creation *)

Definition decide_CreateSession (state : SessionState) (created : SessionCreatedFields)
    (providerStartJson : option string) (providerThread : option ProviderThreadSeed)
    : Decision_ :=
  let titleProvenance :=
    titleProvenanceOrManual (cf_titleProvenance (cr_configuration created)) in
  if st_exists state then Failure SessionAlreadyExists
  else
    success
      (SessionCreated (created_event created (Some titleProvenance) providerStartJson)
       :: providerThreadSeedEvents (id_sessionId (cr_identity created)) providerThread
            (id_createdAt (cr_identity created))).

Definition decide_CreateSessionWithInitialTurn (state : SessionState)
    (created : SessionCreatedFields) (providerStartJson : option string)
    (providerThread : option ProviderThreadSeed)
    (turnId messageId messageContentJson providerInputJson : string) : Decision_ :=
  if st_exists state then Failure SessionAlreadyExists
  else
    let sessionId := id_sessionId (cr_identity created) in
    let createdAt := id_createdAt (cr_identity created) in
    success
      (SessionCreated
         (created_event created (cf_titleProvenance (cr_configuration created))
            providerStartJson)
       :: providerThreadSeedEvents sessionId providerThread createdAt
       ++ [ MessagePersisted
              (plain_message messageId (Some turnId) "user" "user" messageContentJson None
                 createdAt);
            TurnStarted turnId createdAt (Some 1) (Some (attemptIdFor turnId 1))
              (Some (seededProviderThreadId sessionId providerThread));
            SessionStatusSet SS_booting createdAt ]
       ++ (if cf_queuePaused (cr_configuration created) then []
           else [ProviderTurnRequested turnId (Some (attemptIdFor turnId 1))
                   providerInputJson providerStartJson createdAt])).

(** ** Session settings *)

Definition decide_SetTitle (state : SessionState) (title_ : string)
    (titleProvenance_ : option NameProvenance) (updatedAt : Z) : Decision_ :=
  let title := trim title_ in
  let titleProvenance := titleProvenanceOrManual titleProvenance_ in
  if decide (title = "") then Failure (ValidationFailed "title cannot be empty")
  else if decide (titleProvenance = NP_automatic ∧ st_titleProvenance state ≠ NP_pending)
  then success []
  else if decide (st_title state = Some title ∧ st_titleProvenance state = titleProvenance)
  then success []
  else success [SessionTitleSet title (Some titleProvenance) updatedAt].

Definition msg_active_switch : string :=
  "Finish or stop the active turn and clear queued messages before switching provider or model.".
Definition msg_history_switch : string :=
  "Provider history changed while switching. Retry the provider selection.".

(** The transcript marker of a model switch. *)
Definition modelSwitchMarker (state : SessionState) (toProviderId : option string)
    (model : string) (updatedAt : Z) : list SessionEvent :=
  match st_providerId state, st_model state, toProviderId with
  | Some fromProviderId, Some fromModel, Some toProvider =>
      if decide (st_messageIds state = ∅) then []
      else
        [ MessagePersisted
            (plain_message
               ("model-switch:" +:+ default "null" (st_sessionId state) +:+ ":"
                +:+ String_of_Z (st_version state))
               None "system" "model_switch"
               (stringify (JObj
                  [ ("_tag", JStr "model_switch");
                    ("fromProviderId", JStr fromProviderId);
                    ("fromModel", JStr fromModel);
                    ("toProviderId", JStr toProvider);
                    ("toModel", JStr model);
                    ("context",
                      JStr (if decide (st_providerId state = toProviderId)
                            then "preserved" else "handoff")) ]))
               None updatedAt) ]
  | _, _, _ => []
  end.

(** The case shared by [SetModel] and [SetProvider]; [switch] holds the fields
    only [SetProvider] has. *)
Record ProviderSwitch := {
  sw_resumeThreadId : option string;
  sw_expectedProviderThreadId : option (option string);
  sw_providerId : string }.

Definition switch_resumed (state : SessionState) (switch : option ProviderSwitch)
    : option ProviderThreadState :=
  (switch ≫= sw_resumeThreadId) ≫= λ id, st_providerThreads state !! id.

(** The guard on the provider history a [SetProvider] was built from. *)
Definition switch_history_changed (state : SessionState) (sw : ProviderSwitch) : bool :=
  match sw_expectedProviderThreadId sw with
  | None => false
  | Some expected => negb (bool_decide (expected = st_activeProviderThreadId state))
  end
  || match sw_resumeThreadId sw, switch_resumed state (Some sw) with
     | None, _ => false
     | Some _, None => true
     | Some _, Some thread => negb (bool_decide (pt_provider thread = sw_providerId sw))
     end.

Definition resume_events (resumed : option ProviderThreadState) (updatedAt : Z)
    : list SessionEvent :=
  match resumed with
  | None => []
  | Some thread =>
      [ ProviderThreadUpdated
          (thread <| pt_status := PT_idle |> <| pt_updatedAt := updatedAt |>);
        ActiveProviderThreadSet (Some (pt_id thread)) updatedAt ]
  end.

Definition switch_event (switch : option ProviderSwitch) (model : string) (updatedAt : Z)
    : SessionEvent :=
  match switch with
  | None => SessionModelSet model updatedAt
  | Some sw => SessionProviderSet (sw_providerId sw) model updatedAt
  end.

Definition decide_SwitchModel (state : SessionState) (switch : option ProviderSwitch)
    (model : string) (updatedAt : Z) : Decision_ :=
  let unchanged :=
    bool_decide (st_model state = Some model)
    && match switch with
       | None => true
       | Some sw => bool_decide (st_providerId state = Some (sw_providerId sw))
       end in
  if unchanged then success []
  else if decide (st_currentTurnId state ≠ None ∨ st_queuedTurns state ≠ ∅) then
    Failure (ValidationFailed msg_active_switch)
  else if match switch with None => false | Some sw => switch_history_changed state sw end then
    Failure (ValidationFailed msg_history_switch)
  else
    let toProviderId :=
      match switch with
      | Some sw => Some (sw_providerId sw)
      | None => st_providerId state
      end in
    success
      (providerStops state updatedAt
       ++ modelSwitchMarker state toProviderId model updatedAt
       ++ [switch_event switch model updatedAt]
       ++ resume_events (switch_resumed state switch) updatedAt
       ++ [SessionStatusSet SS_idle updatedAt]).

Definition decide_SetRuntimeMode (state : SessionState) (runtimeMode : RuntimeMode)
    (updatedAt : Z) : Decision_ :=
  if decide (st_runtimeMode state = Some runtimeMode) then success []
  else success [SessionRuntimeModeSet runtimeMode updatedAt].

Definition decide_SetPermissionMode (state : SessionState) (permissionMode : PermissionMode)
    (updatedAt : Z) : Decision_ :=
  if decide (st_permissionMode state = Some permissionMode) then success []
  else success [SessionPermissionModeSet permissionMode updatedAt].

Definition decide_SetWorktree (state : SessionState) (worktreeId : option string)
    (updatedAt : Z) (forceProjection : option bool) : Decision_ :=
  if decide (st_worktreeId state = worktreeId ∧ forceProjection ≠ Some true) then success []
  else success [SessionWorktreeSet worktreeId updatedAt].

Definition decide_SetStatus (state : SessionState) (status : SessionStatus) (updatedAt : Z)
    : Decision_ :=
  if decide (st_status state = Some status) then success []
  else success [SessionStatusSet status updatedAt].

Definition decide_SetQueuePaused (state : SessionState) (paused : bool) (updatedAt : Z)
    : Decision_ :=
  if decide (st_queuePaused state = paused) then success []
  else success [SessionQueuePausedSet paused updatedAt].

(** ** Provider threads and native turns *)

Definition decide_BindProviderThread (state : SessionState) (sessionId nativeThreadId : string)
    (nativeHeadId_ : option (option string)) (updatedAt : Z) : Decision_ :=
  let provider := default "unknown" (st_providerId state) in
  let id := providerThreadIdFor sessionId provider nativeThreadId in
  let existing := st_providerThreads state !! id in
  let nativeHeadId :=
    match nativeHeadId_ with
    | None => existing ≫= pt_nativeHeadId
    | Some head => head
    end in
  let bound :=
    match existing with
    | None => false
    | Some thread =>
        bool_decide (st_activeProviderThreadId state = Some id)
        && bool_decide (pt_nativeHeadId thread = nativeHeadId)
        && bool_decide (pt_status thread ≠ PT_closed)
        && bool_decide (pt_status thread ≠ PT_error)
    end in
  if bound then success []
  else
    let currentTurn := current_turn state in
    success
      (ProviderThreadUpdated
         {| pt_id := id;
            pt_provider := provider;
            pt_nativeThreadId := nativeThreadId;
            pt_nativeHeadId := nativeHeadId;
            pt_status := match currentTurn with None => PT_idle | Some _ => PT_active end;
            pt_firstTurnOrdinal :=
              (existing ≫= pt_firstTurnOrdinal) ?? (tn_ordinal <$> currentTurn);
            pt_lastTurnOrdinal :=
              (tn_ordinal <$> currentTurn) ?? (existing ≫= pt_lastTurnOrdinal);
            pt_createdAt := default updatedAt (pt_createdAt <$> existing);
            pt_updatedAt := updatedAt |}
       :: (if decide (st_activeProviderThreadId state = Some id) then []
           else [ActiveProviderThreadSet (Some id) updatedAt])).

(** The attempt that a command about the current turn must own. *)
Definition owns_attempt (state : SessionState) (turnId attemptId : string) : bool :=
  bool_decide (st_currentTurnId state = Some turnId)
  && bool_decide (tn_activeAttemptId <$> jm_get turnId (st_turns state) = Some attemptId).

Definition decide_BindAttemptProviderTurn (state : SessionState)
    (command : AttemptProviderTurnFields) : Decision_ :=
  if negb (owns_attempt state (bt_turnId command) (bt_attemptId command)) || st_archived state
  then Failure (ValidationFailed "Native execution must belong to the active attempt")
  else if decide (Some (ref_provider (bt_reference command)) ≠ st_providerId state
                  ∨ ref_nativeThreadId (bt_reference command) = ""
                  ∨ ref_nativeTurnId (bt_reference command) = "")
  then Failure (ValidationFailed "Invalid native execution reference")
  else
    match st_attemptProviderTurns state !! bt_attemptId command with
    | Some existing =>
        if decide (existing = bt_reference command) then success []
        else Failure (ValidationFailed "An attempt cannot change its native execution")
    | None =>
        if decide (map_Exists (λ attemptId reference,
                     attemptId ≠ bt_attemptId command ∧ reference = bt_reference command)
                     (st_attemptProviderTurns state))
        then Failure (ValidationFailed "Native execution already belongs to another attempt")
        else success [AttemptProviderTurnBound command]
    end.

(** ** Recovery, retry and settlement *)

Definition msg_finalizing : string :=
  "Checkpoint capture must finish before retrying this turn.".

Definition decide_RecoverTurn (state : SessionState) (turnId expectedAttemptId : string)
    (requestedAt : Z) : Decision_ :=
  let not_owner :=
    Failure (ValidationFailed "Recovery must own an active, uninterrupted turn") in
  match jm_get turnId (st_turns state) with
  | None => not_owner
  | Some turn =>
      if decide (st_archived state = true ∨ st_currentTurnId state ≠ Some turnId
                 ∨ tn_activeAttemptId turn ≠ expectedAttemptId
                 ∨ tn_phase turn ≠ Some TP_running)
      then not_owner
      else
        let prior := st_attemptRecoveries state !! expectedAttemptId in
        match (rc_reference <$> prior) ?? (st_attemptProviderTurns state !! expectedAttemptId) with
        | None =>
            Failure (ValidationFailed "Recovery requires proven native execution identity")
        | Some reference =>
            if decide (Some (ref_provider reference) ≠ st_providerId state) then
              Failure (ValidationFailed "Recovery requires proven native execution identity")
            else if decide (tn_status turn = TS_finalizing) then
              Failure (ValidationFailed msg_finalizing)
            else
              let ordinal := Z.of_nat (size (tn_attempts turn)) + 1 in
              let attemptId := attemptIdFor turnId ordinal in
              success
                (providerStops state requestedAt
                 ++ [ AttemptStarted turnId attemptId ordinal AR_provider_recovery requestedAt
                        (tn_ordinal turn) (tn_providerThreadId turn) (tn_requestedAt turn);
                      SessionStatusSet SS_booting requestedAt;
                      ProviderRecoveryRequested turnId attemptId
                        (default expectedAttemptId (rc_sourceAttemptId <$> prior))
                        reference requestedAt ])
        end
  end.

Definition decide_RetryTurn (state : SessionState) (turnId : string) (reason : RetryReason)
    (providerInputJson : string) (providerStartJson : option string) (requestedAt : Z)
    : Decision_ :=
  let conflict := Failure (TurnConflict turnId (st_currentTurnId state)) in
  match jm_get turnId (st_turns state) with
  | None => conflict
  | Some turn =>
      if decide (st_currentTurnId state ≠ Some turnId) then conflict
      else if decide (tn_status turn = TS_finalizing) then
        Failure (ValidationFailed msg_finalizing)
      else
        let ordinal := Z.of_nat (size (tn_attempts turn)) + 1 in
        success
          [ AttemptStarted turnId (attemptIdFor turnId ordinal) ordinal
              (retry_attempt_reason reason) requestedAt (tn_ordinal turn)
              (tn_providerThreadId turn) (tn_requestedAt turn);
            SessionStatusSet SS_booting requestedAt;
            ProviderTurnRequested turnId (Some (attemptIdFor turnId ordinal))
              providerInputJson providerStartJson requestedAt ]
  end.

(** A command about a turn that is not current: settled turns accept it. *)
Definition not_current (state : SessionState) (turnId : string) : Decision_ :=
  if decide (turnId ∈ st_settledTurnIds state) then success []
  else Failure (TurnConflict turnId (st_currentTurnId state)).

Definition decide_FinalizeTurn (state : SessionState) (turnId : string)
    (outcome : TurnSettlementOutcome) (settledAt : Z) : Decision_ :=
  if decide (st_currentTurnId state ≠ Some turnId) then not_current state turnId
  else if decide (tn_status <$> jm_get turnId (st_turns state) = Some TS_finalizing)
  then success []
  else success [TurnFinalizationRequested turnId (activeAttemptOr state turnId) outcome
                  settledAt].

Definition settled_segments (state : SessionState) (turnId : string)
    (outcome : TurnSettlementOutcome) (settledAt : Z) : list SessionEvent :=
  map (λ kv : string * OpenSegmentState, SegmentSettled turnId kv.1 outcome settledAt)
      (filter (λ kv, seg_turnId kv.2 = turnId) (st_openSegments state)).

Definition decide_SettleTurn (state : SessionState) (turnId : string)
    (outcome : TurnSettlementOutcome) (settledAt : Z) : Decision_ :=
  if decide (st_currentTurnId state ≠ Some turnId) then not_current state turnId
  else
    let has_successor :=
      decide (sc_predecessorTurnId <$> st_scheduledSuccessor state = Some turnId) in
    success
      (settled_segments state turnId outcome settledAt
       ++ [ TurnSettled turnId outcome settledAt;
            SessionStatusSet
              (if has_successor then SS_running
               else if decide (outcome = TSO_error) then SS_error else SS_idle)
              settledAt ]
       ++ match st_scheduledSuccessor state with
          | Some sc =>
              if has_successor then
                [ScheduledSuccessorReady (sc_predecessorTurnId sc) (sc_turnId sc)
                   (sc_queueId sc) (sc_inputJson sc) settledAt]
              else []
          | None => []
          end).

Definition expiry_message (turnId expectedAttemptId : string) (expiredAt : Z)
    : SessionEvent :=
  MessagePersisted
    (plain_message ("ingestion-expired:" +:+ expectedAttemptId) (Some turnId) "system" "error"
       (stringify (JObj
          [ ("_tag", JStr "error");
            ("message",
              JStr "The Agent Engine stopped ingesting this execution. Delivery was not repeated automatically; review the provider result before retrying.") ]))
       None expiredAt).

(** The recursive calls of [decide] are on the same state, past its guards. *)
Definition decide_ExpireAttempt (state : SessionState) (turnId expectedAttemptId : string)
    (expiredAt : Z) : Decision_ :=
  let lost := Failure (ValidationFailed "Expired ingestion no longer owns this attempt") in
  match jm_get turnId (st_turns state) with
  | None => lost
  | Some turn =>
      if decide (st_currentTurnId state ≠ Some turnId
                 ∨ tn_activeAttemptId turn ≠ expectedAttemptId) then lost
      else
        match decide_RecoverTurn state turnId expectedAttemptId expiredAt with
        | Success recovery => Success recovery
        | Failure _ =>
            let interrupted :=
              negb (bool_decide (tn_phase turn = Some TP_running)) || st_archived state in
            match decide_SettleTurn state turnId
                    (if interrupted then TSO_interrupted else TSO_error) expiredAt with
            | Failure e => Failure e
            | Success settlement =>
                success
                  (providerStops state expiredAt
                   ++ (if interrupted then []
                       else [expiry_message turnId expectedAttemptId expiredAt])
                   ++ settlement)
            end
        end
  end.

(** ** Lifecycle *)

Definition decide_ArchiveSession (state : SessionState) (archivedAt : Z) : Decision_ :=
  if st_archived state then success [] else success [SessionArchived archivedAt].

Definition decide_ReleaseInitialTurn (state : SessionState)
    (expectedTurnId providerInputJson : string) (providerStartJson : option string)
    (requestedAt : Z) : Decision_ :=
  if st_archived state then
    Failure (ValidationFailed "cannot release an archived session")
  else if decide (st_queuePaused state = false ∨ st_currentTurnId state ≠ Some expectedTurnId
                  ∨ st_currentTurnPhase state ≠ Some TP_running) then
    Failure (ValidationFailed "initial turn is not paused at the expected turn")
  else
    success
      [ SessionQueuePausedSet false requestedAt;
        ProviderTurnRequested expectedTurnId (Some (activeAttemptOr state expectedTurnId))
          providerInputJson providerStartJson requestedAt ].

Definition decide_UnarchiveSession (state : SessionState) (unarchivedAt : Z) : Decision_ :=
  if st_archived state then success [SessionUnarchived unarchivedAt] else success [].

Definition decide_StartTurn (state : SessionState) (turnId : string) (startedAt : Z)
    : Decision_ :=
  match st_currentTurnId state with
  | None =>
      success
        [TurnStarted turnId startedAt (Some (st_turnCount state + 1))
           (Some (attemptIdFor turnId 1)) (Some (st_activeProviderThreadId state))]
  | Some current => Failure (TurnAlreadyRunning current)
  end.

Definition decide_RollbackTurns (state : SessionState) (throughOrdinal messageSequence : num)
    (removedMessageIds : list string) (rolledBackAt : Z) : Decision_ :=
  if decide (st_currentTurnId state ≠ None ∨ st_queuedTurns state ≠ ∅
             ∨ is_Some (st_providerReservation state)) then
    Failure (ValidationFailed "Stop active work and clear queued messages before rollback.")
  else if negb (isInteger throughOrdinal) || num_ltb throughOrdinal (num_of_Z 0)
          || num_ltb (num_of_Z (st_turnCount state)) throughOrdinal then
    Failure (ValidationFailed "Invalid rollback boundary.")
  else
    success
      [ TurnsRolledBack
          (Some (map tn_id
                   (filter (λ turn, num_ltb throughOrdinal (num_of_Z (tn_ordinal turn)) = true)
                      (jm_values (st_turns state)))))
          throughOrdinal messageSequence removedMessageIds rolledBackAt;
        ActiveProviderThreadSet None rolledBackAt ].

(** ** Interrupts *)

Definition decide_RequestTurnInterrupt (state : SessionState) (expectedTurnId : option string)
    (requestedAt : Z) : Decision_ :=
  match turnInterruptReceipt state expectedTurnId with
  | receipt_not_active _ _ _ => success []
  | receipt_requested turnId =>
      if is_interrupting (st_currentTurnPhase state) then success []
      else success [TurnInterruptRequested turnId (Some (activeAttemptOr state turnId))
                      requestedAt]
  end.

Definition decide_AcknowledgeTurnInterrupt (state : SessionState) (turnId : string)
    (acknowledgedAt : Z) : Decision_ :=
  if decide (st_currentTurnId state ≠ Some turnId) then not_current state turnId
  else if decide (st_currentTurnPhase state = Some TP_interrupt_acknowledged) then success []
  else success [TurnInterruptAcknowledged turnId acknowledgedAt].

Definition decide_FailTurnInterrupt (state : SessionState) (turnId reason : string)
    (failedAt : Z) : Decision_ :=
  if decide (st_currentTurnId state ≠ Some turnId) then not_current state turnId
  else success [TurnInterruptFailed turnId reason failedAt].

(** ** Queue *)

Definition queue_has (state : SessionState) (queueId : string) : bool :=
  bool_decide (is_Some (st_queuedTurns state !! queueId)).

Definition decide_EnqueueTurn (state : SessionState) (queueId inputJson : string)
    (position createdAt : Z) (ready : bool) : Decision_ :=
  if queue_has state queueId then success []
  else success [QueuedTurnEnqueued queueId inputJson position createdAt ready].

Definition decide_UpdateQueuedTurn (state : SessionState) (queueId inputJson : string)
    (updatedAt : Z) (ready : bool) : Decision_ :=
  if queue_has state queueId then success [QueuedTurnUpdated queueId inputJson updatedAt ready]
  else Failure (QueuedTurnNotFound queueId).

Definition decide_ClaimQueuedTurn (state : SessionState) (queueId : string) (claimedAt : Z)
    : Decision_ :=
  if decide (qt_ready <$> st_queuedTurns state !! queueId = Some true)
  then success [QueuedTurnClaimed queueId claimedAt]
  else success [].

Definition decide_RemoveQueuedTurn (state : SessionState) (queueId : string) (removedAt : Z)
    : Decision_ :=
  if queue_has state queueId then success [QueuedTurnRemoved queueId removedAt]
  else success [].

Definition decide_ReorderQueuedTurns (state : SessionState) (queueIds : list string)
    (reorderedAt : Z) : Decision_ :=
  let known := filter (λ id, queue_has state id = true) queueIds in
  let remaining := filter (λ id, id ∉ known) (st_queueOrder state) in
  success [QueuedTurnsReordered (known ++ remaining) reorderedAt].

Definition decide_SubmitTurn (state : SessionState)
    (turnId messageId role kind contentJson : string) (parentItemId : option string)
    (providerInputJson : string) (createdAt : Z) : Decision_ :=
  match st_currentTurnId state with
  | Some current => Failure (TurnAlreadyRunning current)
  | None =>
      success
        [ MessagePersisted
            (plain_message messageId (Some turnId) role kind contentJson parentItemId
               createdAt);
          TurnStarted turnId createdAt (Some (st_turnCount state + 1))
            (Some (attemptIdFor turnId 1)) (Some (st_activeProviderThreadId state));
          SessionStatusSet SS_booting createdAt;
          ProviderTurnRequested turnId (Some (attemptIdFor turnId 1)) providerInputJson None
            createdAt ]
  end.

Definition decide_SteerQueuedTurn (state : SessionState)
    (expectedTurnId queueId successorTurnId : string) (requestedAt : Z) : Decision_ :=
  if decide (st_currentTurnId state ≠ Some expectedTurnId) then
    if decide (st_currentTurnId state = None ∧ expectedTurnId ∈ st_settledTurnIds state) then
      match st_queuedTurns state !! queueId with
      | None => Failure (QueuedTurnNotFound queueId)
      | Some queued =>
          success
            [ QueuedTurnClaimed queueId requestedAt;
              SuccessorTurnScheduled expectedTurnId successorTurnId queueId
                (qt_inputJson queued) requestedAt;
              ScheduledSuccessorReady expectedTurnId successorTurnId queueId
                (qt_inputJson queued) requestedAt ]
      end
    else Failure (TurnConflict expectedTurnId (st_currentTurnId state))
  else
    match st_queuedTurns state !! queueId with
    | None => Failure (QueuedTurnNotFound queueId)
    | Some queued =>
        success
          (QueuedTurnClaimed queueId requestedAt
           :: (if is_interrupting (st_currentTurnPhase state) then []
               else [TurnInterruptRequested expectedTurnId
                       (Some (activeAttemptOr state expectedTurnId)) requestedAt])
           ++ [SuccessorTurnScheduled expectedTurnId successorTurnId queueId
                 (qt_inputJson queued) requestedAt])
    end.

(** ** Messages and segments *)

Definition decide_PersistMessage (state : SessionState) (command : MessageFields)
    : Decision_ :=
  let revision := mf_checkpointRevision command in
  let final := mf_checkpointFinal command in
  if negb (Bool.eqb (bool_decide (is_Some revision)) (bool_decide (is_Some final))) then
    Failure (ValidationFailed "checkpoint revision and final must be provided together")
  else
    match revision with
    | Some revision =>
        if negb (isSafeInteger revision) || num_ltb revision (num_of_Z 1) then
          Failure (ValidationFailed "checkpoint revision must be a positive safe integer")
        else
          match st_messageCheckpoints state !! mf_messageId command with
          | Some current =>
              if ck_final current || num_leb revision (ck_revision current) then success []
              else success [MessagePersisted command]
          | None => success [MessagePersisted command]
          end
    | None =>
        match st_messageCheckpoints state !! mf_messageId command with
        | Some _ => success []
        | None => success [MessagePersisted command]
        end
    end.

Definition decide_OpenSegment (state : SessionState) (turnId segmentId : string)
    (kind : SegmentKind) (openedAt : Z) : Decision_ :=
  if decide (st_currentTurnId state ≠ Some turnId) then Failure (TurnNotRunning turnId)
  else if jm_has segmentId (st_openSegments state) then success []
  else success [SegmentOpened turnId segmentId kind openedAt].

Definition decide_SettleSegment (state : SessionState) (turnId segmentId : string)
    (outcome : TurnSettlementOutcome) (settledAt : Z) : Decision_ :=
  if decide (seg_turnId <$> jm_get segmentId (st_openSegments state) = Some turnId)
  then success [SegmentSettled turnId segmentId outcome settledAt]
  else Failure (SegmentNotOpen segmentId).

(** ** Permissions, plans and questions *)

Definition decide_RequestPermission (state : SessionState)
    (inputOwner : option InputRequestOwner) (requestId turnId payloadJson : string)
    (requestedAt : Z) : Decision_ :=
  if decide (requestId ∈ st_pendingPermissionIds state) then success []
  else success [PermissionRequested inputOwner requestId turnId payloadJson requestedAt].

Definition decide_ExpirePermission (state : SessionState) (requestId : string) (expiredAt : Z)
    : Decision_ :=
  if decide (requestId ∈ st_pendingPermissionIds state
             ∧ requestId ∉ st_expiredPermissionIds state)
  then success [PermissionExpired requestId expiredAt]
  else success [].

Definition decide_ResolvePermission (state : SessionState) (requestId decision : string)
    (decisionJson : option string) (resolvedAt : Z) : Decision_ :=
  if decide (requestId ∈ st_pendingPermissionIds state
             ∧ (requestId ∉ st_expiredPermissionIds state ∨ decision = "Deny"))
  then success [PermissionResolved requestId decision decisionJson resolvedAt]
  else Failure (PermissionNotPending requestId).

Definition decide_ExpirePlan (state : SessionState) (itemId : string)
    (reason : PlanExpiryReason) (expiredAt : Z) : Decision_ :=
  if decide (itemId ∈ st_expiredPlanIds state) then success []
  else success [PlanExpired itemId reason expiredAt].

Definition decide_ExpireQuestion (state : SessionState) (itemId : string) (expiredAt : Z)
    : Decision_ :=
  if decide (itemId ∈ st_resolvedQuestionIds state ∨ itemId ∈ st_expiredQuestionIds state)
  then success []
  else success [QuestionExpired itemId expiredAt].

Definition decide_ResolveQuestion (state : SessionState) (itemId : string) (resolvedAt : Z)
    : Decision_ :=
  if decide (itemId ∈ st_resolvedQuestionIds state) then success []
  else success [QuestionResolved itemId resolvedAt].

(** ** Provider sessions *)

Definition decide_ReserveProviderSession (state : SessionState)
    (ownerAttempt : option AttemptRef) (expectedModel : option string)
    (expectedWorktreeId : option (option string)) (providerId providerSessionId : string)
    (reservedAt : Z) : Decision_ :=
  let owns :=
    match st_currentTurnId state with
    | None => true
    | Some current =>
        match ownerAttempt with
        | None => false
        | Some owner =>
            bool_decide (ar_turnId owner = current)
            && bool_decide (Some (ar_attemptId owner)
                            = tn_activeAttemptId <$> jm_get current (st_turns state))
        end
    end in
  if negb owns then Failure (ValidationFailed "an active attempt owns provider startup")
  else if decide (st_currentTurnId state = None ∧ is_Some ownerAttempt) then
    Failure (ValidationFailed "provider startup attempt is no longer active")
  else if decide ((expectedModel ≠ None ∧ expectedModel ≠ st_model state)
                  ∨ (expectedWorktreeId ≠ None
                     ∧ expectedWorktreeId ≠ Some (st_worktreeId state))) then
    Failure (ValidationFailed "provider configuration changed before reservation")
  else if st_archived state then
    Failure (ValidationFailed "cannot start a provider for an archived session")
  else if decide (st_providerId state ≠ None ∧ st_providerId state ≠ Some providerId) then
    Failure (ValidationFailed "provider reservation must match the selected provider")
  else if decide (rs_providerSessionId <$> st_providerReservation state
                  = Some providerSessionId)
  then success []
  else
    success
      (providerStops state reservedAt
       ++ [ProviderSessionReserved providerId providerSessionId reservedAt]).

Definition decide_AttachProvider (state : SessionState) (providerId : string)
    (providerSessionId : option string) (attachedAt : Z) : Decision_ :=
  if decide (st_attachedProviderId state = Some providerId
             ∧ st_attachedProviderSessionId state = providerSessionId)
  then success []
  else
    success
      (match st_attachedProviderId state with
       | None => []
       | Some attached =>
           [ProviderDetached attached (st_attachedProviderSessionId state) attachedAt]
       end
       ++ [ProviderAttached providerId providerSessionId attachedAt]).

Definition decide_DetachProvider (state : SessionState) (detachedAt : Z)
    (expectedProviderSessionId : option (option string)) : Decision_ :=
  if decide (expectedProviderSessionId ≠ None
             ∧ expectedProviderSessionId ≠ Some (st_attachedProviderSessionId state))
  then success []
  else
    match st_attachedProviderId state with
    | None => success []
    | Some attached =>
        success [ProviderDetached attached (st_attachedProviderSessionId state) detachedAt]
    end.

(** ** [decide] *)

(** The [switch], past the guards on the session's existence. *)
Definition decide_live (state : SessionState) (sessionId : string) (command : SessionCommand)
    : Decision_ :=
  match command with
  | CreateSession _ _ _ | CreateSessionWithInitialTurn _ _ _ _ _ _ _ =>
      (* returned before the guards *)
      Failure SessionAlreadyExists
  | SetTitle title prov updatedAt => decide_SetTitle state title prov updatedAt
  | SetModel model updatedAt => decide_SwitchModel state None model updatedAt
  | SetProvider resumeThreadId expectedProviderThreadId providerId model updatedAt =>
      decide_SwitchModel state
        (Some {| sw_resumeThreadId := resumeThreadId;
                 sw_expectedProviderThreadId := expectedProviderThreadId;
                 sw_providerId := providerId |}) model updatedAt
  | SetRuntimeMode mode updatedAt => decide_SetRuntimeMode state mode updatedAt
  | SetPermissionMode mode updatedAt => decide_SetPermissionMode state mode updatedAt
  | SetWorktree worktreeId updatedAt force =>
      decide_SetWorktree state worktreeId updatedAt force
  | SetStatus status updatedAt => decide_SetStatus state status updatedAt
  | SetQueuePaused paused updatedAt => decide_SetQueuePaused state paused updatedAt
  | ReleaseInitialTurn turnId input start requestedAt =>
      decide_ReleaseInitialTurn state turnId input start requestedAt
  | BindAttemptProviderTurn fields => decide_BindAttemptProviderTurn state fields
  | BindProviderThread native head updatedAt =>
      decide_BindProviderThread state sessionId native head updatedAt
  | ExpireAttempt turnId attemptId expiredAt =>
      decide_ExpireAttempt state turnId attemptId expiredAt
  | RecoverTurn turnId attemptId requestedAt =>
      decide_RecoverTurn state turnId attemptId requestedAt
  | RetryTurn turnId reason input start requestedAt =>
      decide_RetryTurn state turnId reason input start requestedAt
  | ArchiveSession archivedAt => decide_ArchiveSession state archivedAt
  | UnarchiveSession unarchivedAt => decide_UnarchiveSession state unarchivedAt
  | DeleteSession deletedAt => success [SessionDeleted deletedAt]
  | StartTurn turnId startedAt => decide_StartTurn state turnId startedAt
  | SubmitTurn turnId messageId role kind content parent input createdAt =>
      decide_SubmitTurn state turnId messageId role kind content parent input createdAt
  | RollbackTurns through sequence removedIds rolledBackAt =>
      decide_RollbackTurns state through sequence removedIds rolledBackAt
  | FinalizeTurn turnId outcome settledAt => decide_FinalizeTurn state turnId outcome settledAt
  | SettleTurn turnId outcome settledAt => decide_SettleTurn state turnId outcome settledAt
  | RequestTurnInterrupt turnId requestedAt =>
      decide_RequestTurnInterrupt state turnId requestedAt
  | AcknowledgeTurnInterrupt turnId acknowledgedAt =>
      decide_AcknowledgeTurnInterrupt state turnId acknowledgedAt
  | FailTurnInterrupt turnId reason failedAt =>
      decide_FailTurnInterrupt state turnId reason failedAt
  | EnqueueTurn queueId input position createdAt ready =>
      decide_EnqueueTurn state queueId input position createdAt ready
  | UpdateQueuedTurn queueId input updatedAt ready =>
      decide_UpdateQueuedTurn state queueId input updatedAt ready
  | ClaimQueuedTurn queueId claimedAt => decide_ClaimQueuedTurn state queueId claimedAt
  | RemoveQueuedTurn queueId removedAt => decide_RemoveQueuedTurn state queueId removedAt
  | ReorderQueuedTurns queueIds reorderedAt =>
      decide_ReorderQueuedTurns state queueIds reorderedAt
  | SteerQueuedTurn turnId queueId successor requestedAt =>
      decide_SteerQueuedTurn state turnId queueId successor requestedAt
  | PersistMessage message => decide_PersistMessage state message
  | OpenSegment turnId segmentId kind openedAt =>
      decide_OpenSegment state turnId segmentId kind openedAt
  | SettleSegment turnId segmentId outcome settledAt =>
      decide_SettleSegment state turnId segmentId outcome settledAt
  | RequestPermission owner requestId turnId payload requestedAt =>
      decide_RequestPermission state owner requestId turnId payload requestedAt
  | ResolvePermission requestId decision json resolvedAt =>
      decide_ResolvePermission state requestId decision json resolvedAt
  | ExpirePermission requestId expiredAt => decide_ExpirePermission state requestId expiredAt
  | ExpirePlan itemId reason expiredAt => decide_ExpirePlan state itemId reason expiredAt
  | ExpireQuestion itemId expiredAt => decide_ExpireQuestion state itemId expiredAt
  | ResolveQuestion itemId resolvedAt => decide_ResolveQuestion state itemId resolvedAt
  | ReserveProviderSession owner model worktree providerId providerSessionId reservedAt =>
      decide_ReserveProviderSession state owner model worktree providerId providerSessionId
        reservedAt
  | AttachProvider providerId providerSessionId attachedAt =>
      decide_AttachProvider state providerId providerSessionId attachedAt
  | RequestProviderStop requestedAt => success (providerStops state requestedAt)
  | DetachProvider detachedAt expected => decide_DetachProvider state detachedAt expected
  end.

Definition decide_command (state : SessionState) (command : SessionCommand) : Decision_ :=
  match command with
  | CreateSession created start thread => decide_CreateSession state created start thread
  | CreateSessionWithInitialTurn created start thread turnId messageId content input =>
      decide_CreateSessionWithInitialTurn state created start thread turnId messageId content
        input
  | _ =>
      match st_exists state, st_sessionId state with
      | true, Some sessionId =>
          if st_deleted state then Failure SessionDeletedConflict
          else decide_live state sessionId command
      | _, _ => Failure SessionNotFound
      end
  end.
