(* ===== verification/SessionLegal.v ===== *)
(** * Which events a session accepts

    [legal state event] is the condition under which an event may follow a
    state: the abstract transition system a session's stream is a run of.
    [SessionRefine] proves that [decide] only produces legal runs, and
    [SessionInv] that legal events preserve the invariants, so the invariants hold
    of every state commands can reach. *)
From S2P Require Import Prelude Js JsMap Ids Contracts SessionTypes SessionState SessionDecider.

Local Open Scope Z_scope.

(** Turn statuses that no event leaves. *)
Definition is_terminal (status : TurnStatus) : bool :=
  match status with
  | TS_rolled_back | TS_completed | TS_interrupted | TS_failed => true
  | TS_finalizing | TS_starting | TS_running => false
  end.

Definition live (s : SessionState) : Prop := st_exists s = true ∧ st_deleted s = false.
Definition is_current (s : SessionState) (turnId : string) : Prop :=
  st_currentTurnId s = Some turnId.
#[export] Instance is_current_dec s turnId : Decision (is_current s turnId).
Proof. unfold is_current. apply _. Defined.
Definition active_attempt (s : SessionState) (turnId : string) : option string :=
  tn_activeAttemptId <$> jm_get turnId (st_turns s).

(** The order of a message's checkpoints: revisions are positive safe integers,
    grow strictly, and stop at the final one. *)
Definition checkpoint_follows (current : option MessageCheckpointState) (revision : num)
    : Prop :=
  isSafeInteger revision = true ∧ num_ltb revision (num_of_Z 1) = false
  ∧ match current with
    | None => True
    | Some c => ck_final c = false ∧ num_leb revision (ck_revision c) = false
    end.

Definition legal_live (s : SessionState) (e : SessionEvent) : Prop :=
  match e with
  | SessionCreated _ => False
  | SessionTitleSet title _ _ => title ≠ ""
  | SessionModelSet _ _ | SessionProviderSet _ _ _ =>
      st_currentTurnId s = None ∧ st_queuedTurns s = ∅
  | SessionRuntimeModeSet _ _ | SessionPermissionModeSet _ _ | SessionWorktreeSet _ _
  | SessionStatusSet _ _ | SessionQueuePausedSet _ _ => True
  | SessionResumeSet _ _ _ _ => False
  | ProviderThreadUpdated t =>
      startsWith (pt_id t)
        (joinId [PStr "provider-thread"; PStr "session"; PStr (default "" (st_sessionId s))]
         +:+ ":") = true
  | ActiveProviderThreadSet None _ => True
  | ActiveProviderThreadSet (Some id) _ => is_Some (st_providerThreads s !! id)
  | SessionArchived _ => st_archived s = false
  | SessionUnarchived _ => st_archived s = true
  | SessionDeleted _ => True
  | TurnStarted turnId _ ordinal attemptId providerThreadId =>
      st_currentTurnId s = None ∧ st_scheduledSuccessor s = None
      ∧ ordinal = Some (st_turnCount s + 1)
      ∧ attemptId = Some (attemptIdFor turnId 1)
      ∧ (∀ id, providerThreadId = Some (Some id) → st_activeProviderThreadId s = Some id)
  | AttemptProviderTurnBound f =>
      is_current s (bt_turnId f) ∧ active_attempt s (bt_turnId f) = Some (bt_attemptId f)
      ∧ st_archived s = false
      ∧ Some (ref_provider (bt_reference f)) = st_providerId s
      ∧ st_attemptProviderTurns s !! bt_attemptId f = None
      ∧ (∀ id r, st_attemptProviderTurns s !! id = Some r → r ≠ bt_reference f)
  | AttemptStarted turnId attemptId ordinal _ _ turnOrdinal providerThreadId turnRequestedAt =>
      is_current s turnId
      ∧ ∃ t, jm_get turnId (st_turns s) = Some t ∧ tn_status t ≠ TS_finalizing
             ∧ ordinal = Z.of_nat (size (tn_attempts t)) + 1
             ∧ attemptId = attemptIdFor turnId ordinal
             ∧ turnOrdinal = tn_ordinal t ∧ providerThreadId = tn_providerThreadId t
             ∧ turnRequestedAt = tn_requestedAt t
  | ProviderRecoveryRequested turnId attemptId _ reference _ =>
      is_current s turnId ∧ active_attempt s turnId = Some attemptId
      ∧ Some (ref_provider reference) = st_providerId s
  | ProviderTurnRequested turnId attemptId _ _ _ =>
      is_current s turnId ∧ attemptId = active_attempt s turnId ∧ is_Some attemptId
  | TurnsRolledBack ids throughOrdinal _ _ _ =>
      st_currentTurnId s = None ∧ st_queuedTurns s = ∅ ∧ st_providerReservation s = None
      ∧ isInteger throughOrdinal = true
      ∧ num_ltb throughOrdinal (num_of_Z 0) = false
      ∧ num_ltb (num_of_Z (st_turnCount s)) throughOrdinal = false
      ∧ ids = Some (map tn_id
                 (filter (λ t, num_ltb throughOrdinal (num_of_Z (tn_ordinal t)) = true)
                    (jm_values (st_turns s))))
  | TurnFinalizationRequested turnId attemptId _ _ =>
      is_current s turnId ∧ active_attempt s turnId = Some attemptId
      ∧ tn_status <$> jm_get turnId (st_turns s) ≠ Some TS_finalizing
  | TurnSettled turnId _ _ =>
      is_current s turnId ∧ ∀ id g, jm_get id (st_openSegments s) = Some g → seg_turnId g ≠ turnId
  | TurnInterruptRequested turnId attemptId _ =>
      is_current s turnId ∧ st_currentTurnPhase s = Some TP_running
      ∧ attemptId = active_attempt s turnId
  | TurnInterruptAcknowledged turnId _ =>
      is_current s turnId ∧ st_currentTurnPhase s ≠ Some TP_interrupt_acknowledged
  | TurnInterruptFailed turnId _ _ => is_current s turnId
  | QueuedTurnEnqueued queueId _ _ _ _ => st_queuedTurns s !! queueId = None
  | QueuedTurnUpdated queueId _ _ _ | QueuedTurnRemoved queueId _
  | QueuedTurnClaimed queueId _ => is_Some (st_queuedTurns s !! queueId)
  | QueuedTurnsReordered queueIds _ =>
      ∀ id, id ∈ queueIds ↔ is_Some (st_queuedTurns s !! id)
  | SuccessorTurnScheduled predecessor _ queueId _ _ =>
      (is_current s predecessor
       ∨ st_currentTurnId s = None ∧ predecessor ∈ st_settledTurnIds s)
      ∧ st_queuedTurns s !! queueId = None
  | ScheduledSuccessorReady predecessor turnId queueId inputJson _ =>
      st_currentTurnId s = None ∧ predecessor ∈ st_settledTurnIds s
      ∧ st_scheduledSuccessor s
        = Some {| sc_predecessorTurnId := predecessor; sc_turnId := turnId;
                  sc_queueId := queueId; sc_inputJson := inputJson |}
  | MessagePersisted m =>
      match mf_checkpointRevision m with
      | None => True
      | Some revision =>
          is_Some (mf_checkpointFinal m)
          ∧ checkpoint_follows (st_messageCheckpoints s !! mf_messageId m) revision
      end
  | SegmentOpened turnId segmentId _ _ =>
      is_current s turnId ∧ jm_get segmentId (st_openSegments s) = None
  | SegmentSettled turnId segmentId _ _ =>
      seg_turnId <$> jm_get segmentId (st_openSegments s) = Some turnId
  | PermissionRequested _ requestId _ _ _ => requestId ∉ st_pendingPermissionIds s
  | PermissionResolved requestId decision _ _ =>
      requestId ∈ st_pendingPermissionIds s
      ∧ (requestId ∈ st_expiredPermissionIds s → decision = "Deny")
  | PermissionExpired requestId _ =>
      requestId ∈ st_pendingPermissionIds s ∧ requestId ∉ st_expiredPermissionIds s
  | PlanExpired itemId _ _ => itemId ∉ st_expiredPlanIds s
  | QuestionExpired itemId _ =>
      itemId ∉ st_resolvedQuestionIds s ∧ itemId ∉ st_expiredQuestionIds s
  | QuestionResolved itemId _ => itemId ∉ st_resolvedQuestionIds s
  | ProviderSessionReserved providerId providerSessionId _ =>
      st_archived s = false ∧ st_providerId s = Some providerId
      ∧ rs_providerSessionId <$> st_providerReservation s ≠ Some providerSessionId
  | ProviderAttached providerId providerSessionId _ => st_attachedProviderId s = None
  | ProviderStopRequested _ _ _ => True
  | ProviderDetached providerId providerSessionId _ =>
      st_attachedProviderId s = Some providerId
      ∧ st_attachedProviderSessionId s = providerSessionId
  end.

Definition complete_creation (e : SessionCreatedEventFields) : Prop :=
  is_Some (ce_title e) ∧ is_Some (ce_providerId e) ∧ is_Some (ce_model e)
  ∧ is_Some (ce_status e) ∧ is_Some (ce_runtimeMode e) ∧ is_Some (ce_permissionMode e).

Definition legal (s : SessionState) (e : SessionEvent) : Prop :=
  match e with
  | SessionCreated f => st_exists s = false ∧ complete_creation f
  | _ => live s ∧ legal_live s e
  end.

Section runs.
Context `{ContentCodec}.

(** Every event is legal in the state the earlier ones produce. *)
Fixpoint legal_run (s : SessionState) (events : list SessionEvent) : Prop :=
  match events with
  | [] => True
  | e :: events => legal s e ∧ legal_run (evolve s e) events
  end.

Lemma legal_run_app s es fs :
  legal_run s (es ++ fs) ↔ legal_run s es ∧ legal_run (foldl evolve s es) fs.
Proof.
  revert s. induction es as [|e es IH]; intros s; simpl; [tauto|].
  rewrite IH. tauto.
Qed.

(** An invariant of legal events is an invariant of legal runs. *)
Lemma legal_run_invariant (P : SessionState → Prop) s es :
  (∀ s e, P s → legal s e → P (evolve s e)) →
  P s → legal_run s es → P (foldl evolve s es).
Proof.
  intros HP. revert s. induction es as [|e es IH]; intros s Hs; simpl; [done|].
  intros [Hl Hr]. apply IH; [by apply HP|done].
Qed.
End runs.
