(* ===== verification/SessionInv.v ===== *)
(** * Invariants of session states

    Each invariant is a predicate over the components of the state it is about,
    so an event that leaves them alone preserves it by conversion. Every group
    is preserved by every legal event ([SessionLegal]). *)
From S2P Require Import Prelude Js JsMap Ids Contracts SessionTypes SessionState SessionDecider SessionLegal.

Local Open Scope Z_scope.

(** Case analysis of one evolved event, down to the branch taken. *)
Ltac evolve_cases :=
  unfold evolve, evolve_SessionCreated, evolve_SessionTitleSet, evolve_SessionModelSet,
    evolve_SessionProviderSet, evolve_SessionWorktreeSet, evolve_SessionStatusSet,
    evolve_SessionResumeSet, evolve_ProviderThreadUpdated, evolve_ActiveProviderThreadSet,
    evolve_TurnStarted, evolve_AttemptProviderTurnBound, evolve_AttemptStarted,
    evolve_ProviderRecoveryRequested, evolve_TurnPhaseEvent, evolve_TurnsRolledBack,
    evolve_TurnFinalizationRequested, evolve_TurnSettled, evolve_QueuedTurnEnqueued,
    evolve_QueuedTurnUpdated, evolve_QueuedTurnTaken, evolve_ProviderAttached,
    evolveMessage in *;
  repeat case_match.

Section invariants.
Context `{ContentCodec}.

(** Every event advances the version by one. *)
Lemma evolve_version s e : st_version (evolve s e) = st_version s + 1.
Proof. destruct e; evolve_cases; reflexivity. Qed.

Lemma foldl_evolve_version s es :
  st_version (foldl evolve s es) = st_version s + Z.of_nat (length es).
Proof.
  revert s. induction es as [|e es IH]; intros s; simpl; [lia|].
  rewrite IH, evolve_version. lia.
Qed.

(** ** Turns and attempts *)

Record attempts_ok (t : TurnState) : Prop := {
  ao_size : (1 <= size (tn_attempts t))%nat;
  ao_active :
    tn_activeAttemptId t = attemptIdFor (tn_id t) (Z.of_nat (size (tn_attempts t)));
  ao_each : ∀ id a, tn_attempts t !! id = Some a →
    at_id a = id ∧ id = attemptIdFor (tn_id t) (at_ordinal a)
    ∧ 1 <= at_ordinal a <= Z.of_nat (size (tn_attempts t))
    ∧ (at_status a = AS_running
       ↔ id = tn_activeAttemptId t ∧ is_terminal (tn_status t) = false);
  ao_all : ∀ i, 1 <= i <= Z.of_nat (size (tn_attempts t)) →
    is_Some (tn_attempts t !! attemptIdFor (tn_id t) i) }.

Record TurnInv (turns : list (string * TurnState)) (count : Z) (current : option string)
    (phase : option TurnPhase) : Prop := {
  ti_wf : jm_wf turns;
  ti_count : 0 <= count;
  ti_turn : ∀ k t, jm_get k turns = Some t →
    tn_id t = k ∧ 1 <= tn_ordinal t <= count ∧ attempts_ok t
    ∧ (is_terminal (tn_status t) = false ↔ current = Some k)
    ∧ tn_phase t = (if decide (current = Some k) then phase else None);
  ti_ordinal : ∀ k k' t t', jm_get k turns = Some t → jm_get k' turns = Some t' →
    tn_ordinal t = tn_ordinal t' → k = k';
  ti_current : ∀ k, current = Some k → is_Some (jm_get k turns) ∧ is_Some phase;
  ti_none : current = None → phase = None }.

Definition turns_inv (s : SessionState) : Prop :=
  TurnInv (st_turns s) (st_turnCount s) (st_currentTurnId s) (st_currentTurnPhase s).

Lemma TurnInv_nil : TurnInv [] 0 None None.
Proof.
  constructor; try done; [apply jm_wf_nil].
Qed.

(** Replacing a turn by one with the same identity. *)
Lemma TurnInv_replace turns count current phase current' phase' k t t' :
  TurnInv turns count current phase →
  jm_get k turns = Some t → tn_id t' = k → tn_ordinal t' = tn_ordinal t → attempts_ok t' →
  current = Some k →
  (current' = Some k ∧ is_terminal (tn_status t') = false ∧ tn_phase t' = phase'
     ∧ is_Some phase'
   ∨ current' = None ∧ is_terminal (tn_status t') = true ∧ tn_phase t' = None
     ∧ phase' = None) →
  TurnInv (jm_set k t' turns) count current' phase'.
Proof.
  intros I Ht Hid Hord Hao -> Hnew.
  destruct (ti_turn _ _ _ _ I k t Ht) as (_ & Hb & _).
  constructor.
  - apply jm_wf_set, I.
  - apply I.
  - intros k' u. rewrite jm_get_set. case_decide; intros Hu; simplify_eq.
    + split_and!; try done; try lia.
      * destruct Hnew as [(-> & -> & _)|(-> & -> & _)]; split; congruence.
      * destruct Hnew as [(-> & _ & -> & _)|(-> & _ & -> & ->)];
          [by rewrite decide_True|done].
    + destruct (ti_turn _ _ _ _ I k' u Hu) as (? & ? & ? & Hterm & Hph).
      assert (is_terminal (tn_status u) = true).
      { destruct (is_terminal (tn_status u)); [done|]. naive_solver. }
      rewrite decide_False in Hph by congruence.
      split_and!; try done; try lia.
      * destruct Hnew as [(-> & _)|(-> & _)]; split; congruence.
      * destruct Hnew as [(-> & _)|(-> & _)]; [|done]. by rewrite decide_False by congruence.
  - intros k1 k2 u1 u2. rewrite !jm_get_set.
    repeat case_decide; intros; simplify_eq; try done.
    + eapply (ti_ordinal _ _ _ _ I); [exact Ht|done|congruence].
    + eapply (ti_ordinal _ _ _ _ I); [done|exact Ht|congruence].
    + by eapply (ti_ordinal _ _ _ _ I).
  - intros k' ->. destruct Hnew as [(? & _ & _ & ?)|(? & _)]; simplify_eq.
    rewrite jm_get_set_eq. naive_solver.
  - intros ->. destruct Hnew as [(? & _)|(_ & _ & _ & ->)]; done.
Qed.

Lemma attempts_ok_same t t' :
  attempts_ok t → tn_id t' = tn_id t → tn_activeAttemptId t' = tn_activeAttemptId t →
  tn_attempts t' = tn_attempts t → is_terminal (tn_status t') = is_terminal (tn_status t) →
  attempts_ok t'.
Proof. intros [] H1 H2 H3 H4. constructor; rewrite ?H1, ?H2, ?H3, ?H4; done. Qed.

Lemma attempts_ok_start turnId ordinal threadId startedAt :
  attempts_ok
    {| tn_id := turnId; tn_ordinal := ordinal; tn_status := TS_starting;
       tn_phase := Some TP_running; tn_providerThreadId := threadId;
       tn_activeAttemptId := attemptIdFor turnId 1;
       tn_attempts := {[ attemptIdFor turnId 1
                           := initial_attempt (attemptIdFor turnId 1) startedAt ]};
       tn_requestedAt := startedAt; tn_completedAt := None |}.
Proof.
  constructor; cbn [tn_id tn_attempts tn_activeAttemptId tn_status is_terminal];
    rewrite ?map_size_singleton; try done.
  - intros id a [<- <-]%lookup_singleton_Some. cbn. split_and!; try done; lia.
  - intros i Hi. replace i with 1 by lia. rewrite lookup_singleton_eq. by eexists.
Qed.

(** An attempt id past the last ordinal is fresh. *)
Lemma attempts_ok_fresh t :
  attempts_ok t →
  tn_attempts t !! attemptIdFor (tn_id t) (Z.of_nat (size (tn_attempts t)) + 1) = None.
Proof.
  intros [_ _ Heach _]. apply eq_None_not_Some. intros [a Ha].
  destruct (Heach _ _ Ha) as (_ & Hid & Hb & _).
  apply attemptIdFor_inj in Hid as [_ Hid]. lia.
Qed.

(** The current turn, with what the invariant says of it. *)
Lemma turns_inv_current s k :
  turns_inv s → st_currentTurnId s = Some k →
  ∃ t p, jm_get k (st_turns s) = Some t ∧ tn_id t = k
    ∧ Z.max (st_turnCount s) (tn_ordinal t) = st_turnCount s ∧ attempts_ok t
    ∧ is_terminal (tn_status t) = false
    ∧ st_currentTurnPhase s = Some p ∧ tn_phase t = Some p.
Proof.
  intros I Hc. destruct (ti_current _ _ _ _ I k Hc) as [[t Ht] [p Hp]].
  destruct (ti_turn _ _ _ _ I k t Ht) as (Hid & Hb & Hao & Hterm & Hph).
  rewrite decide_True in Hph by done. exists t, p.
  split_and!; try done; [lia|by apply Hterm|congruence].
Qed.

(** The current turn keeps its place when its status or phase changes. *)
Lemma turns_inv_update s k t t' phase' :
  turns_inv s → st_currentTurnId s = Some k → jm_get k (st_turns s) = Some t →
  tn_id t' = tn_id t → tn_ordinal t' = tn_ordinal t → attempts_ok t' →
  is_terminal (tn_status t') = false → tn_phase t' = phase' → is_Some phase' →
  TurnInv (jm_set (tn_id t) t' (st_turns s)) (Z.max (st_turnCount s) (tn_ordinal t))
    (st_currentTurnId s) phase'.
Proof.
  intros I Hc Ht Hid Hord Hao Hterm Hph Hs.
  destruct (turns_inv_current s k I Hc) as (u & p & Hu & Huid & Hmax & _).
  simplify_eq. rewrite Hmax.
  eapply TurnInv_replace; [exact I|done|done|done|done|done|]. left. by rewrite Hc.
Qed.

Lemma turns_inv_StatusSet s status version :
  turns_inv s → turns_inv (evolve_SessionStatusSet s status version).
Proof.
  intros I. unfold evolve_SessionStatusSet, current_turn.
  destruct (st_currentTurnId s) as [k|] eqn:Hc; [|exact I]. cbn [mbind option_bind].
  destruct (turns_inv_current s k I Hc) as (t & p & Ht & Hid & _ & Hao & Hterm & Hp & Hph).
  rewrite Ht. case_decide as Hs; [|exact I].
  unfold turns_inv. cbn. rewrite Hp.
  eapply turns_inv_update; try done.
  by apply (attempts_ok_same t).
Qed.

Lemma turns_inv_TurnStarted s turnId startedAt threadId version :
  turns_inv s → st_currentTurnId s = None →
  turns_inv (evolve_TurnStarted s turnId startedAt (Some (st_turnCount s + 1))
               (Some (attemptIdFor turnId 1)) threadId version).
Proof.
  intros I Hc. unfold turns_inv, evolve_TurnStarted.
  set (thr := match threadId with None => _ | Some _ => _ end).
  set (turn := {| tn_id := turnId; tn_ordinal := _; tn_status := _; tn_phase := _;
                  tn_providerThreadId := _; tn_activeAttemptId := _; tn_attempts := _;
                  tn_requestedAt := _; tn_completedAt := _ |}).
  assert (TurnInv (jm_set turnId turn (st_turns s)) (st_turnCount s + 1) (Some turnId)
            (Some TP_running)) as Hnew.
  { assert (attempts_ok turn) by apply attempts_ok_start.
    pose proof (ti_count _ _ _ _ I). constructor; [apply jm_wf_set, I|lia|..].
    - intros k t. rewrite jm_get_set. case_decide; intros Ht; simplify_eq.
      + split_and!; try done; try (cbn; lia). by rewrite decide_True.
      + destruct (ti_turn _ _ _ _ I k t Ht) as (? & ? & ? & Hterm & Hph).
        rewrite decide_False in Hph by congruence.
        split_and!; try done; try lia; [|by rewrite decide_False by congruence].
        split; [|congruence]. intros Hf. apply Hterm in Hf. congruence.
    - intros k k' t t'. rewrite !jm_get_set.
      repeat case_decide; intros Ht Ht' Ho; simplify_eq; try done.
      + destruct (ti_turn _ _ _ _ I k' t' Ht') as (_ & ? & _). cbn in Ho. lia.
      + destruct (ti_turn _ _ _ _ I k t Ht) as (_ & ? & _). cbn in Ho. lia.
      + by eapply (ti_ordinal _ _ _ _ I).
    - intros k [= <-]. rewrite jm_get_set_eq. eauto.
    - done. }
  pose proof (ti_count _ _ _ _ I).
  destruct (thr ≫= _); cbn; rewrite Z.max_r by lia; exact Hnew.
Qed.

(** Starting another attempt of the current turn. *)
Lemma attempts_ok_restart t reason startedAt :
  attempts_ok t → is_terminal (tn_status t) = false →
  let n := Z.of_nat (size (tn_attempts t)) + 1 in
  let id := attemptIdFor (tn_id t) n in
  ∀ previous, tn_attempts t !! tn_activeAttemptId t = Some previous →
  attempts_ok
    (t <| tn_status := TS_starting |> <| tn_phase := Some TP_running |>
       <| tn_activeAttemptId := id |>
       <| tn_attempts :=
            <[id := {| at_id := id; at_ordinal := n; at_reason := reason;
                       at_status := AS_running; at_startedAt := startedAt;
                       at_completedAt := None |}]>
              (<[at_id previous := supersede_running previous startedAt]>
                 (tn_attempts t)) |>).
Proof.
  intros Hao Hterm n id previous Hprev.
  pose proof (attempts_ok_fresh t Hao) as Hfresh. fold n id in Hfresh.
  destruct (ao_each t Hao _ _ Hprev) as (Hpid & Hpeq & Hpb & _).
  assert (at_id previous ≠ id) as Hne by (intros Heq; congruence).
  assert (size (<[at_id previous := supersede_running previous startedAt]> (tn_attempts t))
          = size (tn_attempts t)) as Hsz.
  { rewrite map_size_insert_Some; [done|]. rewrite Hpid. by rewrite Hprev. }
  pose proof (ao_size t Hao). constructor; cbn -[n id];
    rewrite ?map_size_insert_None, ?Hsz by (by rewrite lookup_insert_ne).
  - lia.
  - unfold id. f_equal. unfold n. lia.
  - intros i a. rewrite !lookup_insert_Some.
    intros [[<- <-]|[Hi [[<- <-]|[Hi' Ha]]]]; cbn -[n id].
    + split_and!; try done; unfold n; lia.
    + split_and!; try done; try lia; [by rewrite Hpid|].
      split; [done|]. by intros [? _].
    + destruct (ao_each t Hao _ _ Ha) as (? & ? & ? & Hrun).
      split_and!; try done; try lia. rewrite Hrun. split; [|by intros [-> _]].
      intros [-> _]. by rewrite Hpid in Hi'.
  - intros i Hi. destruct (decide (i = n)) as [->|Hn]; [rewrite lookup_insert_eq; eauto|].
    apply lookup_insert_is_Some'. right. apply lookup_insert_is_Some'. right.
    apply (ao_all t Hao). unfold n in Hn. lia.
Qed.

Lemma turns_inv_AttemptStarted s turnId t reason startedAt version :
  turns_inv s → st_currentTurnId s = Some turnId → jm_get turnId (st_turns s) = Some t →
  turns_inv (evolve_AttemptStarted s turnId
    (attemptIdFor turnId (Z.of_nat (size (tn_attempts t)) + 1))
    (Z.of_nat (size (tn_attempts t)) + 1) reason startedAt version).
Proof.
  intros I Hc Ht.
  destruct (turns_inv_current s turnId I Hc) as (t' & p & Ht' & Hid & Hmax & Hao & Hterm & _).
  simplify_eq. unfold evolve_AttemptStarted. rewrite Ht.
  destruct (ao_all t Hao (Z.of_nat (size (tn_attempts t)))) as [previous Hprev].
  { pose proof (ao_size t Hao). lia. }
  rewrite <-(ao_active t Hao) in Hprev. rewrite Hprev.
  destruct (ao_each t Hao _ _ Hprev) as (_ & _ & _ & Hrun).
  rewrite decide_True by (by apply Hrun).
  unfold turns_inv. cbn. rewrite decide_True by done.
  eapply turns_inv_update; try done. by apply (attempts_ok_restart t).
Qed.

Lemma turns_inv_phase s turnId phase version :
  turns_inv s → st_currentTurnId s = Some turnId →
  turns_inv (evolve_TurnPhaseEvent s turnId phase version).
Proof.
  intros I Hc.
  destruct (turns_inv_current s turnId I Hc) as (t & p & Ht & Hid & Hmax & Hao & Hterm & _).
  unfold evolve_TurnPhaseEvent, withTurnPhase. rewrite Ht, decide_True by done.
  unfold turns_inv. cbn. rewrite <-Hmax, <-Hid.
  eapply turns_inv_update; try done; try (by rewrite Hid).
  by apply (attempts_ok_same t).
Qed.

Lemma turns_inv_finalizing s turnId version :
  turns_inv s → st_currentTurnId s = Some turnId →
  turns_inv (evolve_TurnFinalizationRequested s turnId version).
Proof.
  intros I Hc.
  destruct (turns_inv_current s turnId I Hc)
    as (t & p & Ht & Hid & Hmax & Hao & Hterm & Hp & Hph).
  unfold evolve_TurnFinalizationRequested. rewrite Ht.
  unfold turns_inv. cbn. rewrite Hp.
  eapply turns_inv_update; try done. by apply (attempts_ok_same t).
Qed.

Lemma attempts_ok_settle t outcome settledAt :
  attempts_ok t → attempts_ok (settle_turn outcome settledAt t).
Proof.
  intros Hao. destruct (ao_all t Hao (Z.of_nat (size (tn_attempts t)))) as [active Ha].
  { pose proof (ao_size t Hao). lia. }
  rewrite <-(ao_active t Hao) in Ha.
  destruct (ao_each t Hao _ _ Ha) as (Hid & Heq & Hb & _).
  assert (size (<[at_id active := settle_attempt outcome settledAt active]> (tn_attempts t))
          = size (tn_attempts t)) as Hsz.
  { rewrite map_size_insert_Some; [done|]. rewrite Hid. by rewrite Ha. }
  assert (is_terminal (settled_turn_status outcome) = true) as Hterm by by destruct outcome.
  unfold settle_turn. rewrite Ha. constructor; cbn; rewrite ?Hsz, ?Hterm; try apply Hao.
  - intros i a. rewrite lookup_insert_Some. intros [[<- <-]|[Hi Hi']].
    + cbn. split_and!; try done; try lia; [by rewrite Hid|].
      destruct outcome; cbn; naive_solver.
    + destruct (ao_each t Hao _ _ Hi') as (? & ? & ? & Hrun).
      split_and!; try done; try lia. rewrite Hrun.
      split; intros [-> ?]; [by rewrite Hid in Hi|done].
  - intros i Hi. apply lookup_insert_is_Some'. right. by apply (ao_all t Hao).
Qed.

Lemma turns_inv_TurnSettled s turnId outcome settledAt version :
  turns_inv s → st_currentTurnId s = Some turnId →
  turns_inv (evolve_TurnSettled s turnId outcome settledAt version).
Proof.
  intros I Hc.
  destruct (turns_inv_current s turnId I Hc) as (t & p & Ht & Hid & Hmax & Hao & Hterm & _).
  unfold evolve_TurnSettled. rewrite Ht.
  assert (TurnInv (jm_set (tn_id t) (settle_turn outcome settledAt t) (st_turns s))
            (st_turnCount s) None None) as Hnew.
  { eapply TurnInv_replace; [exact I|by rewrite Hid|done|done| |by rewrite Hid|].
    - by apply attempts_ok_settle.
    - right. split_and!; try done. by destruct outcome. }
  destruct (_ ≫= _); [case_decide|]; exact Hnew.
Qed.

Lemma turns_inv_rollback s through removedIds at_ version :
  turns_inv s → st_currentTurnId s = None →
  turns_inv (evolve_TurnsRolledBack s through removedIds at_ version).
Proof.
  intros I Hc. pose proof (ti_none _ _ _ _ I Hc) as Hp.
  assert (∀ t, tn_id (roll_back_turn through t) = tn_id t
               ∧ tn_ordinal (roll_back_turn through t) = tn_ordinal t
               ∧ tn_phase (roll_back_turn through t) = tn_phase t) as Hr.
  { intros t. unfold roll_back_turn. by case_match. }
  unfold turns_inv. cbn. rewrite Hc, Hp.
  assert (∀ k u, jm_get k (jm_update_all (roll_back_turn through) (st_turns s)) = Some u →
    ∃ t, jm_get k (st_turns s) = Some t ∧ u = roll_back_turn through t) as Hget.
  { intros k u. rewrite jm_get_update_all. intros (t & -> & ->)%fmap_Some. eauto. }
  constructor; try done; [apply jm_wf_update_all, I|apply I|..].
  - intros k u (t & Ht & ->)%Hget.
    destruct (ti_turn _ _ _ _ I k t Ht) as (Hid & Hb & Hao & Hterm & Hph).
    destruct (Hr t) as (-> & -> & ->). rewrite Hc in Hterm, Hph.
    assert (is_terminal (tn_status t) = true) as Ht'.
    { destruct (is_terminal (tn_status t)); [done|]. naive_solver. }
    rewrite decide_False in Hph by done.
    split_and!; try done; try lia; unfold roll_back_turn; case_match; try done.
    by apply (attempts_ok_same t).
  - intros k k' u u' (t & Ht & ->)%Hget (t' & Ht' & ->)%Hget.
    destruct (Hr t) as (_ & -> & _), (Hr t') as (_ & -> & _).
    by eapply (ti_ordinal _ _ _ _ I).
Qed.

(** Legal events preserve the invariant of turns. *)
Lemma turns_inv_evolve s e : turns_inv s → legal s e → turns_inv (evolve s e).
Proof.
  intros I Hl. destruct e; cbn [legal legal_live] in Hl;
    try (destruct Hl as [_ Hl]);
    try (evolve_cases; exact I).
  all: cbn [evolve].
  - by apply turns_inv_StatusSet.
  - destruct Hl as (Hc & _ & -> & -> & _). by apply turns_inv_TurnStarted.
  - destruct Hl as (Hc & t & Ht & _ & -> & -> & _). by apply turns_inv_AttemptStarted.
  - apply turns_inv_rollback; [done|apply Hl].
  - apply turns_inv_finalizing; [done|apply Hl].
  - apply turns_inv_TurnSettled; [done|apply Hl].
  - apply turns_inv_phase; [done|apply Hl].
  - apply turns_inv_phase; [done|apply Hl].
  - apply turns_inv_phase; [done|apply Hl].
Qed.
End invariants.
