(* ===== verification/SessionInvariants.v ===== *)
(** * The other invariants of a session, and the invariant of its whole state *)
From S2P Require Import Prelude Js JsMap Ids Contracts SessionTypes SessionState SessionDecider SessionLegal SessionInv.

Local Open Scope Z_scope.

(** The prefix of every provider thread id of a session. *)
Definition thread_prefix (sessionId : option string) : string :=
  joinId [PStr "provider-thread"; PStr "session"; PStr (default "" sessionId)] +:+ ":".

Definition ConfigInv (s : SessionState) : Prop :=
  (st_exists s = false → s = initialSessionState)
  ∧ (st_exists s = true →
     is_Some (st_sessionId s) ∧ is_Some (st_chatId s) ∧ is_Some (st_projectId s)
     ∧ is_Some (st_title s) ∧ is_Some (st_providerId s) ∧ is_Some (st_model s)
     ∧ is_Some (st_status s) ∧ is_Some (st_runtimeMode s) ∧ is_Some (st_permissionMode s)).

(** [queueOrder] lists exactly the queued turns. *)
Definition QueueInv (order : list string) (queued : gmap string QueuedTurn) : Prop :=
  (∀ id, id ∈ order ↔ is_Some (queued !! id))
  ∧ (∀ id q, queued !! id = Some q → qt_queueId q = id).

(** Open segments belong to the current turn. *)
Definition SegmentInv (segments : list (string * OpenSegmentState))
    (current : option string) : Prop :=
  jm_wf segments ∧ ∀ id g, jm_get id segments = Some g → current = Some (seg_turnId g).

(** A scheduled successor waits for the current turn, or for one that settled. *)
Definition SuccessorInv (successor : option ScheduledSuccessor) (current : option string)
    (settled : gset string) : Prop :=
  ∀ sc, successor = Some sc →
    current = Some (sc_predecessorTurnId sc)
    ∨ current = None ∧ sc_predecessorTurnId sc ∈ settled.

(** A reservation is for the selected provider of a session that is neither
    archived nor deleted. *)
Definition ProviderInv (reservation : option ProviderReservation)
    (providerId : option string) (archived deleted : bool)
    (attached attachedSession : option string) : Prop :=
  (∀ r, reservation = Some r →
     providerId = Some (rs_providerId r) ∧ archived = false ∧ deleted = false)
  ∧ (attached = None → attachedSession = None).
Definition provider_inv (s : SessionState) : Prop :=
  ProviderInv (st_providerReservation s) (st_providerId s) (st_archived s) (st_deleted s)
    (st_attachedProviderId s) (st_attachedProviderSessionId s).

Definition MessageInv (ids : gset string) (checkpoints : gmap string MessageCheckpointState)
    : Prop :=
  ∀ id c, checkpoints !! id = Some c →
    id ∈ ids ∧ isSafeInteger (ck_revision c) = true
    ∧ num_ltb (ck_revision c) (num_of_Z 1) = false.

Definition QuestionInv (expired resolved : gset string) : Prop := expired ## resolved.

(** Provider threads are stored under their own id, scoped to the session, and
    the active one exists. *)
Definition ThreadInv (threads : gmap string ProviderThreadState) (active : option string)
    (sessionId : option string) : Prop :=
  (∀ k t, threads !! k = Some t → pt_id t = k ∧ startsWith k (thread_prefix sessionId) = true)
  ∧ (∀ id, active = Some id → is_Some (threads !! id)).

(** No two attempts are bound to the same native execution. *)
Definition BindingInv (bound : gmap string ProviderTurnReference) : Prop :=
  ∀ a b r, bound !! a = Some r → bound !! b = Some r → a = b.

Record SessionInvariant (s : SessionState) : Prop := {
  si_config : ConfigInv s;
  si_turns : turns_inv s;
  si_queue : QueueInv (st_queueOrder s) (st_queuedTurns s);
  si_segments : SegmentInv (st_openSegments s) (st_currentTurnId s);
  si_successor :
    SuccessorInv (st_scheduledSuccessor s) (st_currentTurnId s) (st_settledTurnIds s);
  si_provider : provider_inv s;
  si_messages : MessageInv (st_messageIds s) (st_messageCheckpoints s);
  si_questions : QuestionInv (st_expiredQuestionIds s) (st_resolvedQuestionIds s);
  si_threads :
    ThreadInv (st_providerThreads s) (st_activeProviderThreadId s) (st_sessionId s);
  si_bindings : BindingInv (st_attemptProviderTurns s) }.

Section preservation.
Context `{ContentCodec}.

Ltac legal_cases e Hl :=
  destruct e; cbn [legal legal_live] in Hl; try (destruct Hl as [[? ?] Hl]); try contradiction;
  unfold is_current in *.

(** ** Queue *)

Lemma queue_take order queued id :
  QueueInv order queued → QueueInv (filter (λ x, x ≠ id) order) (delete id queued).
Proof.
  intros [Hm Hk]. split.
  - intros x. rewrite list_elem_of_filter, lookup_delete_is_Some, Hm. naive_solver.
  - intros x q [_ Hq]%lookup_delete_Some. by apply Hk.
Qed.

Lemma queue_inv_evolve s e :
  QueueInv (st_queueOrder s) (st_queuedTurns s) → legal s e →
  QueueInv (st_queueOrder (evolve s e)) (st_queuedTurns (evolve s e)).
Proof.
  intros I Hl. legal_cases e Hl; try (evolve_cases; exact I).
  - destruct I as [Hm Hk]. split; cbn.
    + intros x. rewrite elem_of_app, list_elem_of_singleton, Hm, lookup_insert_is_Some.
      destruct (decide (queueId = x)); naive_solver.
    + intros x q [[<- <-]|[_ ?]]%lookup_insert_Some; [done|by apply Hk].
  - unfold evolve, evolve_QueuedTurnUpdated. destruct Hl as [q Hq]. rewrite Hq.
    destruct I as [Hm Hk]. split; cbn.
    + intros x. rewrite Hm, lookup_insert_is_Some.
      destruct (decide (queueId = x)); naive_solver.
    + intros x q' [[<- <-]|[_ ?]]%lookup_insert_Some; cbn; by apply Hk.
  - by apply queue_take.
  - split; cbn; [done|apply I].
  - by apply queue_take.
Qed.

(** ** Segments and the successor *)

Lemma segment_inv_evolve s e :
  SegmentInv (st_openSegments s) (st_currentTurnId s) → legal s e →
  SegmentInv (st_openSegments (evolve s e)) (st_currentTurnId (evolve s e)).
Proof.
  intros I Hl. legal_cases e Hl; try (evolve_cases; exact I).
  - destruct I as [Hw Hs]. destruct Hl as [Hc _].
    assert (SegmentInv (st_openSegments s) (Some turnId)) as Hn.
    { split; [done|]. intros id g Hg. apply Hs in Hg. congruence. }
    evolve_cases; exact Hn.
  - destruct I as [Hw Hs]. destruct Hl as [Hc Hno].
    assert (SegmentInv (st_openSegments s) None) as Hn.
    { split; [done|]. intros id g Hg. destruct (Hno id g Hg).
      apply Hs in Hg. congruence. }
    evolve_cases; exact Hn.
  - destruct I as [Hw Hs]. destruct Hl as [Hc _]. split; cbn; [by apply jm_wf_set|].
    intros id g. rewrite jm_get_set. case_decide; intros Hg; simplify_eq; [done|].
    by apply Hs in Hg.
  - destruct I as [Hw Hs]. split; cbn; [by apply jm_wf_delete|].
    intros id g. rewrite jm_get_delete. case_decide; [done|]. apply Hs.
Qed.

Lemma successor_inv_evolve s e :
  SuccessorInv (st_scheduledSuccessor s) (st_currentTurnId s) (st_settledTurnIds s) →
  legal s e →
  SuccessorInv (st_scheduledSuccessor (evolve s e)) (st_currentTurnId (evolve s e))
    (st_settledTurnIds (evolve s e)).
Proof.
  intros I Hl. legal_cases e Hl; try (evolve_cases; exact I).
  - assert (SuccessorInv (st_scheduledSuccessor s) (Some turnId) (st_settledTurnIds s)).
    { destruct Hl as (_ & -> & _). done. }
    evolve_cases; done.
  - destruct Hl as [Hc _].
    assert (SuccessorInv (st_scheduledSuccessor s) None (added (st_settledTurnIds s) turnId)).
    { intros sc Hsc. right. destruct (I sc Hsc) as [Hp|[Hp _]]; unfold added; set_solver. }
    evolve_cases; done.
  - intros sc [= <-]. cbn. tauto.
  - done.
Qed.

(** ** Provider sessions *)

Lemma release_reservation_Some s q r :
  release_reservation s q = Some r → st_providerReservation s = Some r.
Proof. unfold release_reservation. by case_decide. Qed.

Lemma provider_inv_evolve s e :
  provider_inv s → legal s e → (st_exists s = false → st_providerReservation s = None) →
  provider_inv (evolve s e).
Proof.
  intros I Hl Hfresh. legal_cases e Hl; try (evolve_cases; exact I); destruct I as [Hr Ha].
  - rewrite Hfresh in Hr by apply Hl. evolve_cases; split; cbn; try done;
      rewrite Hfresh by apply Hl; done.
  - split; done.
  - evolve_cases; split; cbn; try done.
  - evolve_cases; split; cbn; try done; case_decide; done.
  - split; cbn; done.
  - split; cbn; [|done]. intros r Hq. apply Hr in Hq. naive_solver.
  - split; cbn; done.
  - split; cbn; [|done]. intros r [= <-]. naive_solver.
  - split; cbn; [|done]. intros r Hq. case_decide; [|done]. by apply Hr.
  - split; cbn; [|done]. intros r Hq%release_reservation_Some. by apply Hr.
  - split; cbn; [|done]. intros r Hq%release_reservation_Some. by apply Hr.
Qed.

(** ** Messages and questions *)

Lemma foldl_delete_lookup {V} (ids : list string) (m : gmap string V) k :
  foldl (λ m id, delete id m) m ids !! k = if decide (k ∈ ids) then None else m !! k.
Proof.
  revert m. induction ids as [|i ids IH]; intros m; cbn [foldl].
  - rewrite decide_False; [done|]. apply not_elem_of_nil.
  - rewrite IH. destruct (decide (k = i)) as [->|Hne].
    + rewrite lookup_delete_eq, (decide_True (P:=i ∈ i :: ids)) by left. by case_decide.
    + rewrite lookup_delete_ne by done.
      destruct (decide (k ∈ ids)); [rewrite decide_True by (by right); done|].
      rewrite decide_False; [done|]. by intros [?|?]%elem_of_cons.
Qed.

Lemma message_inv_evolve s e :
  MessageInv (st_messageIds s) (st_messageCheckpoints s) → legal s e →
  MessageInv (st_messageIds (evolve s e)) (st_messageCheckpoints (evolve s e)).
Proof.
  intros I Hl. legal_cases e Hl; try (evolve_cases; exact I).
  - intros id c. cbn. rewrite foldl_delete_lookup. case_decide as Hid; [done|].
    intros (Hm & ?)%I. rewrite elem_of_difference, elem_of_list_to_set. tauto.
  - assert (∀ q, MessageInv (st_messageIds s ∪ {[mf_messageId message]})
       match mf_checkpointRevision message with
       | Some revision => <[mf_messageId message := {| ck_revision := revision; ck_final := q |}]>
                            (st_messageCheckpoints s)
       | None => st_messageCheckpoints s
       end) as Hm.
    { intros q. destruct (mf_checkpointRevision message) as [revision|].
      - intros id c [[<- <-]|[_ Hc]]%lookup_insert_Some.
        + destruct Hl as (_ & Hs & H1' & _). cbn. split_and!; [set_solver|done|done].
        + destruct (I id c Hc) as (? & ? & ?). split_and!; [set_solver|done|done].
      - intros id c Hc. destruct (I id c Hc) as (? & ? & ?). split_and!; [set_solver|done|done]. }
    evolve_cases; cbn; try exact (Hm (default false (mf_checkpointFinal message)));
      exact (Hm false).
Qed.

Lemma question_inv_evolve s e :
  QuestionInv (st_expiredQuestionIds s) (st_resolvedQuestionIds s) → legal s e →
  QuestionInv (st_expiredQuestionIds (evolve s e)) (st_resolvedQuestionIds (evolve s e)).
Proof.
  unfold QuestionInv. intros I Hl. legal_cases e Hl; try (evolve_cases; exact I);
    unfold evolve, evolveMessage, added, removed in *; cbn; repeat case_match; simplify_eq;
    cbn; set_solver.
Qed.

Lemma binding_inv_evolve s e :
  BindingInv (st_attemptProviderTurns s) → legal s e →
  BindingInv (st_attemptProviderTurns (evolve s e)).
Proof.
  intros I Hl. legal_cases e Hl; try (evolve_cases; exact I).
  destruct Hl as (_ & _ & _ & _ & _ & Hu). evolve_cases; try exact I.
  intros i j r. cbn. rewrite !lookup_insert_Some.
  intros [[<- <-]|[? Hi]] [[<- Hj]|[? Hj]]; try done.
  - by destruct (Hu _ _ Hj).
  - subst r. by destruct (Hu _ _ Hi).
  - by eapply I.
Qed.

(** ** Provider threads *)

Lemma ThreadInv_insert threads active sid k t active' :
  ThreadInv threads active sid → pt_id t = k → startsWith k (thread_prefix sid) = true →
  active' = active ∨ active' = Some k → ThreadInv (<[k := t]> threads) active' sid.
Proof.
  intros [Hk Ha] Hid Hp Hactive. split.
  - intros i u [[<- <-]|[_ Hu]]%lookup_insert_Some; [done|by apply Hk].
  - intros id. rewrite lookup_insert_is_Some'.
    destruct Hactive as [->| ->]; [intros ?; right; by apply Ha|intros [= <-]; by left].
Qed.

(** An update in place: the id of a stored thread has the session's prefix. *)
Lemma ThreadInv_update threads active sid id k t t' :
  ThreadInv threads active sid → threads !! id = Some t → k = pt_id t → pt_id t' = k →
  ThreadInv (<[k := t']> threads) active sid.
Proof.
  intros I Ht -> Hid. eapply ThreadInv_insert; [done|done| |by left].
  destruct I as [Hk _]. by destruct (Hk id t Ht) as [<- ?].
Qed.

Lemma ThreadInv_none threads active sid :
  ThreadInv threads active sid → ThreadInv threads None sid.
Proof. intros [Hk _]. by split. Qed.

Lemma providerThreadIdFor_prefix sid provider native :
  startsWith (providerThreadIdFor (default "" sid) provider native) (thread_prefix sid) = true.
Proof. apply scopeProviderThreadId_prefix. Qed.

Lemma scope_id_of_prefix sid id :
  startsWith id (thread_prefix sid) = true → scopeProviderThreadId (default "" sid) id = id.
Proof. unfold scopeProviderThreadId. fold (thread_prefix sid). by intros ->. Qed.

Lemma thread_inv_retire s at_ :
  ThreadInv (st_providerThreads s) (st_activeProviderThreadId s) (st_sessionId s) →
  ThreadInv (retireActiveProviderThread s at_).1 (retireActiveProviderThread s at_).2
    (st_sessionId s).
Proof.
  intros I. unfold retireActiveProviderThread.
  destruct (st_activeProviderThreadId s) as [id|] eqn:Ha; [|by eapply ThreadInv_none].
  destruct (st_providerThreads s !! id) as [t|] eqn:Ht; cbn; [|by eapply ThreadInv_none].
  eapply ThreadInv_none. by eapply ThreadInv_update.
Qed.

Lemma thread_inv_evolve s e :
  ThreadInv (st_providerThreads s) (st_activeProviderThreadId s) (st_sessionId s) →
  legal s e → ConfigInv s →
  ThreadInv (st_providerThreads (evolve s e)) (st_activeProviderThreadId (evolve s e))
    (st_sessionId (evolve s e)).
Proof.
  intros I Hl [Hfresh _]. legal_cases e Hl; try (evolve_cases; exact I).
  - rewrite (Hfresh (proj1 Hl)). unfold evolve, evolve_SessionCreated.
    assert (∀ sid, ThreadInv ∅ None sid) as Hempty.
    { intros sid. split; [|done]. intros k t. by rewrite lookup_empty. }
    case_match; [|apply Hempty].
    unfold bindLegacyResume. cbn. rewrite lookup_empty.
    eapply (ThreadInv_insert _ None); [apply Hempty|done| |by right].
    apply (providerThreadIdFor_prefix (Some _)).
  - exact (thread_inv_retire s updatedAt I).
  - unfold evolve, evolve_SessionWorktreeSet. case_decide; [exact I|].
    exact (thread_inv_retire s updatedAt I).
  - unfold evolve, evolve_ProviderThreadUpdated. cbn.
    eapply ThreadInv_insert; [exact I|done| |by left].
    by rewrite (scope_id_of_prefix _ _ Hl).
  - unfold evolve, evolve_ActiveProviderThreadSet. split; cbn; [apply I|].
    destruct providerThreadId as [id|]; [|done]. intros i [= <-].
    destruct Hl as [t Ht]. destruct I as [Hk _]. destruct (Hk id t Ht) as [_ Hp].
    rewrite (scope_id_of_prefix _ _ Hp). by eexists.
  - unfold evolve, evolve_TurnStarted. case_match; [|exact I].
    match goal with Hx : _ ≫= _ = Some _ |- _ => apply bind_Some in Hx as (id & _ & Hid) end.
    by eapply ThreadInv_update.
  - split; cbn; [|done]. intros k u (t & <- & Ht)%lookup_fmap_Some. by apply I in Ht.
  - unfold evolve, evolve_TurnSettled. case_match; [|exact I]. case_decide; [|exact I].
    match goal with Hx : _ ≫= _ = Some _ |- _ => apply bind_Some in Hx as (id & _ & Hid) end.
    by eapply ThreadInv_update.
Qed.

(** ** Configuration *)

Lemma config_inv_evolve s e : ConfigInv s → legal s e → ConfigInv (evolve s e).
Proof.
  intros [Hf Hc] Hl. legal_cases e Hl;
    try (split; [intros Hx; exfalso; evolve_cases; cbn in *; congruence|]; intros _;
         evolve_cases; cbn; naive_solver).
Qed.

(** ** The whole state *)

Theorem session_invariant_evolve s e :
  SessionInvariant s → legal s e → SessionInvariant (evolve s e).
Proof.
  intros I Hl. constructor.
  - apply config_inv_evolve; [apply I|done].
  - apply turns_inv_evolve; [apply I|done].
  - apply queue_inv_evolve; [apply I|done].
  - apply segment_inv_evolve; [apply I|done].
  - apply successor_inv_evolve; [apply I|done].
  - apply provider_inv_evolve; [apply I|done|].
    intros Hx. by rewrite (proj1 (si_config s I) Hx).
  - apply message_inv_evolve; [apply I|done].
  - apply question_inv_evolve; [apply I|done].
  - apply thread_inv_evolve; [apply I|done|apply I].
  - apply binding_inv_evolve; [apply I|done].
Qed.

Lemma session_invariant_initial : SessionInvariant initialSessionState.
Proof.
  constructor.
  - split; [done|]. intros Hx. discriminate Hx.
  - exact TurnInv_nil.
  - split; cbn; [|done]. intros id. rewrite lookup_empty.
    split; [by intros ?%not_elem_of_nil|by intros []].
  - split; [apply jm_wf_nil|done].
  - done.
  - done.
  - done.
  - unfold QuestionInv. cbn. set_solver.
  - done.
  - done.
Qed.

Lemma session_invariant_run s es :
  SessionInvariant s → legal_run s es → SessionInvariant (foldl evolve s es).
Proof. apply legal_run_invariant, session_invariant_evolve. Qed.
End preservation.
