(* ===== verification/SessionRefine.v ===== *)
(** * Commands produce legal runs

    [decide] refines the transition system of [SessionLegal]: from a state that
    satisfies the invariants, the events of an accepted command are legal one
    after the other. So every state commands reach satisfies the invariants. *)
From S2P Require Import Prelude Js JsMap Ids Contracts SessionTypes SessionState SessionDecider SessionLegal SessionInv SessionInvariants.

Local Open Scope Z_scope.

(** Between commands a scheduled successor waits for the current turn: the
    weaker [SuccessorInv] is only needed inside a command's events. *)
Definition boundary (s : SessionState) : Prop :=
  ∀ sc, st_scheduledSuccessor s = Some sc →
    st_currentTurnId s = Some (sc_predecessorTurnId sc).

(** Events that neither end a turn nor schedule a successor. *)
Definition keeps_boundary (e : SessionEvent) : bool :=
  match e with
  | TurnSettled _ _ _ | SuccessorTurnScheduled _ _ _ _ _ => false
  | _ => true
  end.
(** Events other than a session's creation and deletion. *)
Definition keeps_live (e : SessionEvent) : bool :=
  match e with SessionCreated _ | SessionDeleted _ => false | _ => true end.

Section refine.
Context `{ContentCodec}.

Fixpoint legal_live_run (s : SessionState) (events : list SessionEvent) : Prop :=
  match events with
  | [] => True
  | e :: events => legal_live s e ∧ legal_live_run (evolve s e) events
  end.

Lemma live_evolve s e : live s → keeps_live e = true → live (evolve s e).
Proof. intros [Hx Hd] Hk. destruct e; try discriminate Hk; evolve_cases; by split. Qed.

Lemma legal_live_run_legal s es :
  live s → forallb keeps_live es = true → legal_live_run s es → legal_run s es.
Proof.
  revert s. induction es as [|e es IH]; intros s Hlive Hk Hl; [done|].
  cbn in *. apply andb_true_iff in Hk as [Hk Hks]. destruct Hl as [Hl Hr]. split.
  - destruct e; try done; by split.
  - apply IH; [by apply live_evolve|done|done].
Qed.

Lemma legal_live_run_app s es fs :
  legal_live_run s (es ++ fs) ↔ legal_live_run s es ∧ legal_live_run (foldl evolve s es) fs.
Proof.
  revert s. induction es as [|e es IH]; intros s; simpl; [tauto|]. rewrite IH. tauto.
Qed.

Lemma boundary_evolve s e :
  boundary s → legal s e → keeps_boundary e = true → boundary (evolve s e).
Proof.
  intros Hb Hl Hk. destruct e; try discriminate Hk; try (evolve_cases; exact Hb).
  - destruct Hl as [_ (_ & Hn & _)].
    evolve_cases; intros sc; cbn; rewrite Hn; done.
  - done.
Qed.

Lemma boundary_run s es :
  boundary s → legal_run s es → forallb keeps_boundary es = true →
  boundary (foldl evolve s es).
Proof.
  revert s. induction es as [|e es IH]; intros s Hb Hl Hk; [done|].
  cbn in *. apply andb_true_iff in Hk as [Hk Hks]. destruct Hl as [Hl Hr].
  apply IH; [by apply boundary_evolve|done|done].
Qed.

(** What a command's events must be: a legal run that ends at a boundary. *)
Definition accepted (s : SessionState) (es : list SessionEvent) : Prop :=
  legal_run s es ∧ boundary (foldl evolve s es).

Lemma accepted_nil s : boundary s → accepted s [].
Proof. by split. Qed.

Lemma accepted_plain s es :
  live s → boundary s → forallb keeps_live es = true → forallb keeps_boundary es = true →
  legal_live_run s es → accepted s es.
Proof.
  intros Hlive Hb Hk Hkb Hl. assert (legal_run s es) by by apply legal_live_run_legal.
  split; [done|by apply boundary_run].
Qed.

Lemma accepted_one s e :
  live s → boundary s → keeps_live e = true → keeps_boundary e = true → legal_live s e →
  accepted s [e].
Proof. intros. apply accepted_plain; cbn; [done|done|by rewrite andb_true_r..|done]. Qed.

(** ** Stopping the provider *)

(** Stop requests release the reservation and change nothing else. *)
Lemma providerStops_effect s at_ :
  foldl evolve s (providerStops s at_)
  = s <| st_providerReservation := None |>
      <| st_version := st_version s + Z.of_nat (length (providerStops s at_)) |>.
Proof.
  assert (∀ q, st_providerReservation q = None →
    q = q <| st_providerReservation := None |> <| st_version := st_version q |>) as Hnone.
  { intros q Hq. destruct q. cbn in *. by subst. }
  unfold providerStops, providerStopTargets.
  destruct (st_attachedProviderId s) as [p|], (st_providerReservation s) as [r|] eqn:Hr;
    cbn [jm_set map foldl length].
  - case_decide as Hs; cbn [jm_set map foldl length]; unfold evolve, release_reservation;
      rewrite Hr; cbn.
    + by rewrite Hs, decide_True.
    + rewrite (decide_False (P := Some _ = _)) by congruence. cbn.
      rewrite decide_True by done. f_equal; lia.
  - unfold evolve, release_reservation. rewrite Hr. cbn.
    case_decide; f_equal; done || lia.
  - unfold evolve, release_reservation. rewrite Hr. cbn. rewrite decide_True by done.
    f_equal; done || lia.
  - rewrite Z.add_0_r. by apply Hnone.
Qed.

Lemma providerStops_legal s s' at_ es :
  legal_live_run
    (foldl evolve s (providerStops s' at_)) es →
  legal_live_run s (providerStops s' at_ ++ es).
Proof.
  intros Hl. apply legal_live_run_app. split; [|done]. clear Hl es.
  unfold providerStops. generalize (providerStopTargets s'). intros l. revert s.
  induction l as [|[q p] l IH]; intros s; cbn; [done|]. split; [done|]. apply IH.
Qed.

Lemma providerStops_keeps_live s at_ : forallb keeps_live (providerStops s at_) = true.
Proof.
  unfold providerStops. induction (providerStopTargets s) as [|[q p] l IH]; cbn; done.
Qed.
Lemma providerStops_keeps_boundary s at_ :
  forallb keeps_boundary (providerStops s at_) = true.
Proof.
  unfold providerStops. induction (providerStopTargets s) as [|[q p] l IH]; cbn; done.
Qed.

(** ** One lemma per command that has more than one event *)

Lemma active_attempt_turn s k t :
  jm_get k (st_turns s) = Some t → active_attempt s k = Some (tn_activeAttemptId t).
Proof. unfold active_attempt. by intros ->. Qed.

Lemma activeAttemptOr_current s k :
  SessionInvariant s → st_currentTurnId s = Some k →
  active_attempt s k = Some (activeAttemptOr s k).
Proof.
  intros I Hc. destruct (turns_inv_current s k (si_turns s I) Hc) as (t & p & Ht & _).
  unfold active_attempt, activeAttemptOr. by rewrite Ht.
Qed.

Lemma boundary_no_successor s :
  boundary s → st_currentTurnId s = None → st_scheduledSuccessor s = None.
Proof.
  intros Hb Hc. destruct (st_scheduledSuccessor s) as [sc|] eqn:Hs; [|done].
  specialize (Hb sc Hs). congruence.
Qed.

(** Seeding the provider thread of a session. *)
Lemma seed_events_legal s sid seed at_ :
  st_sessionId s = Some sid → legal_live_run s (providerThreadSeedEvents sid seed at_).
Proof.
  intros Hsid. pose proof (providerThreadIdFor_prefix (Some sid)) as Hp. cbn in Hp.
  destruct seed as [seed|]; [|done]. cbn [providerThreadSeedEvents legal_live_run legal_live].
  rewrite Hsid. split_and!; [apply Hp| |done].
  unfold evolve, evolve_ProviderThreadUpdated. cbn. rewrite Hsid.
  rewrite scope_id_of_prefix by apply Hp. rewrite lookup_insert_eq. by eexists.
Qed.

Lemma seed_events_effect s sid seed at_ :
  st_sessionId s = Some sid →
  let s' := foldl evolve s (providerThreadSeedEvents sid seed at_) in
  st_currentTurnId s' = st_currentTurnId s
  ∧ st_scheduledSuccessor s' = st_scheduledSuccessor s
  ∧ st_turnCount s' = st_turnCount s ∧ st_turns s' = st_turns s
  ∧ (is_Some seed → st_activeProviderThreadId s' = seededProviderThreadId sid seed).
Proof.
  intros Hsid. pose proof (providerThreadIdFor_prefix (Some sid)) as Hp. cbn in Hp.
  destruct seed as [seed|]; cbn; [|by split_and!; [..|intros []]].
  split_and!; try done. intros _. rewrite Hsid.
  by rewrite scope_id_of_prefix by apply Hp.
Qed.

Lemma SessionCreated_effect s f :
  let s' := evolve s (SessionCreated f) in
  live s' = live (s <| st_exists := true |>)
  ∧ st_sessionId s' = Some (id_sessionId (ce_identity f))
  ∧ st_currentTurnId s' = st_currentTurnId s
  ∧ st_scheduledSuccessor s' = st_scheduledSuccessor s
  ∧ st_turnCount s' = st_turnCount s ∧ st_turns s' = st_turns s.
Proof. evolve_cases; done. Qed.

Lemma created_event_complete c prov start :
  complete_creation (created_event c prov start).
Proof. unfold complete_creation. cbn. split_and!; by eexists. Qed.

(** The creation of a session, the seeding of its thread and more events. *)
Lemma accepted_created s f seed at_ es :
  st_exists s = false → ConfigInv s → complete_creation f →
  forallb keeps_live es = true → forallb keeps_boundary es = true →
  let seeds := providerThreadSeedEvents (id_sessionId (ce_identity f)) seed at_ in
  legal_live_run (foldl evolve (evolve s (SessionCreated f)) seeds) es →
  accepted s (SessionCreated f :: seeds ++ es).
Proof.
  intros Hx [Hf _] Hc Hk Hkb seeds Hl. specialize (Hf Hx).
  assert (forallb keeps_live seeds = true ∧ forallb keeps_boundary seeds = true)
    as [Hks Hkbs] by (unfold seeds; by destruct seed).
  assert (forallb keeps_live (seeds ++ es) = true) by by rewrite forallb_app, Hks, Hk.
  assert (forallb keeps_boundary (seeds ++ es) = true) by by rewrite forallb_app, Hkbs, Hkb.
  destruct (SessionCreated_effect s f) as (_ & Hsid & _).
  assert (legal_run s (SessionCreated f :: seeds ++ es)) as Hr.
  { split; [done|]. apply legal_live_run_legal; [|done|].
    - subst s. unfold evolve, evolve_SessionCreated. case_match; done.
    - apply legal_live_run_app. split; [|done]. by apply seed_events_legal. }
  split; [done|]. apply boundary_run; [|done|done].
  subst s. intros sc Hsc. discriminate Hsc.
Qed.

Lemma accepted_CreateSession s created start seed es :
  SessionInvariant s → decide_CreateSession s created start seed = Success es →
  accepted s es.
Proof.
  unfold decide_CreateSession, success. intros I Hd. inv_success.
  rewrite <-(app_nil_r (providerThreadSeedEvents _ _ _)).
  apply (accepted_created s (created_event created _ start) seed);
    [done|apply I|apply created_event_complete|done..].
Qed.

(** A status other than running only changes the status. *)
Lemma StatusSet_effect s status at_ :
  status ≠ SS_running →
  evolve s (SessionStatusSet status at_)
  = s <| st_status := Some status |> <| st_version := st_version s + 1 |>.
Proof.
  intros Hs. unfold evolve, evolve_SessionStatusSet. case_match; [|done].
  rewrite decide_False; [done|]. by intros [? _].
Qed.

Lemma TurnStarted_effect s turnId at_ n a p :
  let s' := evolve s (TurnStarted turnId at_ (Some n) (Some a) p) in
  st_currentTurnId s' = Some turnId ∧ active_attempt s' turnId = Some a.
Proof.
  unfold evolve, evolve_TurnStarted, active_attempt.
  case_match; cbn; by rewrite jm_get_set_eq.
Qed.

Lemma MessagePersisted_effect s message :
  let s' := evolve s (MessagePersisted message) in
  st_currentTurnId s' = st_currentTurnId s
  ∧ st_scheduledSuccessor s' = st_scheduledSuccessor s
  ∧ st_turnCount s' = st_turnCount s
  ∧ st_activeProviderThreadId s' = st_activeProviderThreadId s
  ∧ st_queuedTurns s' = st_queuedTurns s ∧ st_providerThreads s' = st_providerThreads s
  ∧ st_openSegments s' = st_openSegments s ∧ st_sessionId s' = st_sessionId s.
Proof. evolve_cases; done. Qed.

(** The events that start a turn with its first message. *)
Definition first_message_turn (message : MessageFields) (turnId : string) (at_ n : Z)
    (threadId : option string) : list SessionEvent :=
  [ MessagePersisted message;
    TurnStarted turnId at_ (Some n) (Some (attemptIdFor turnId 1)) (Some threadId);
    SessionStatusSet SS_booting at_ ].

Lemma first_message_turn_legal s message turnId at_ threadId :
  st_currentTurnId s = None → st_scheduledSuccessor s = None →
  mf_checkpointRevision message = None →
  (∀ id, threadId = Some id → st_activeProviderThreadId s = Some id) →
  let es := first_message_turn message turnId at_ (st_turnCount s + 1) threadId in
  legal_live_run s es
  ∧ st_currentTurnId (foldl evolve s es) = Some turnId
  ∧ active_attempt (foldl evolve s es) turnId = Some (attemptIdFor turnId 1).
Proof.
  intros Hc Hs Hm Ht es. unfold es. cbn [foldl first_message_turn legal_live_run].
  destruct (MessagePersisted_effect s message) as (Hc0 & Hs0 & Hn0 & Ha0 & _).
  set (s0 := evolve s (MessagePersisted message)) in *.
  set (s1 := evolve s0 _).
  destruct (TurnStarted_effect s0 turnId at_ (st_turnCount s + 1) (attemptIdFor turnId 1)
    (Some threadId)) as [Hc1 Ha1].
  rewrite StatusSet_effect by done. split_and!; try done.
  - cbn. by rewrite Hm.
  - cbn [legal_live]. rewrite Hn0, Ha0, Hc0, Hs0. split_and!; try done. intros id [= ->]. by apply Ht.
Qed.

Lemma accepted_CreateSessionWithInitialTurn s created start seed t m c i es :
  SessionInvariant s →
  decide_CreateSessionWithInitialTurn s created start seed t m c i = Success es →
  accepted s es.
Proof.
  unfold decide_CreateSessionWithInitialTurn, success. intros I Hd.
  destruct (st_exists s) eqn:Hx; [discriminate|]. injection Hd as <-.
  set (f := created_event _ _ _). set (sid := id_sessionId _). set (at_ := id_createdAt _).
  set (s1 := foldl evolve (evolve s (SessionCreated f)) (providerThreadSeedEvents sid seed at_)).
  assert (st_currentTurnId s1 = None ∧ st_scheduledSuccessor s1 = None ∧ st_turnCount s1 = 0
    ∧ ∀ id, seededProviderThreadId sid seed = Some id → st_activeProviderThreadId s1 = Some id)
    as (Hc1 & Hs1 & Hn1 & Ha1).
  { pose proof (proj1 (si_config s I) Hx) as ->.
    destruct (SessionCreated_effect initialSessionState f) as (_ & Hsid & Hc0 & Hs0 & Hn0 & _).
    destruct (seed_events_effect _ sid seed at_ Hsid) as (Hc1 & Hs1 & Hn1 & _ & Ha1).
    fold s1 in Hc1, Hs1, Hn1, Ha1.
    split_and!; [by rewrite Hc1, Hc0|by rewrite Hs1, Hs0|by rewrite Hn1, Hn0|]. intros id Hid. rewrite <-Hid. apply Ha1. by destruct seed. }
  destruct (first_message_turn_legal s1 (plain_message m (Some t) "user" "user" c None at_)
    t at_ (seededProviderThreadId sid seed)) as (Hl & Hc2 & Ha2); try done.
  rewrite Hn1 in Hl, Hc2, Ha2.
  apply (accepted_created s f seed); [done|apply I|apply created_event_complete|..].
  - by case_match.
  - by case_match.
  - apply (legal_live_run_app _ (first_message_turn _ _ _ _ _)). split; [exact Hl|].
    case_match; [done|]. cbn [legal_live_run legal_live]. split_and!; try done.
Qed.

Lemma accepted_SubmitTurn s t m role kind c parent i at_ es :
  SessionInvariant s → boundary s → live s →
  decide_SubmitTurn s t m role kind c parent i at_ = Success es → accepted s es.
Proof.
  unfold decide_SubmitTurn, success. intros I Hb Hlive Hd.
  destruct (st_currentTurnId s) eqn:Hc; [discriminate|]. injection Hd as <-.
  destruct (first_message_turn_legal s (plain_message m (Some t) role kind c parent at_)
    t at_ (st_activeProviderThreadId s)) as (Hl & Hc2 & Ha2);
    [done|by apply boundary_no_successor|done|done|].
  apply accepted_plain; [done..|].
  apply (legal_live_run_app _ (first_message_turn _ _ _ _ _)). split; [exact Hl|].
  cbn [legal_live_run legal_live]. by split_and!.
Qed.

End refine.

#[export] Hint Rewrite @forallb_app @providerStops_keeps_live
  @providerStops_keeps_boundary : zuse.

(** Goals of [accepted_plain] when the events begin with stop requests. *)
Ltac stops_first :=
  match goal with
  | |- forallb _ (providerStops _ _ ++ _) = true => autorewrite with zuse
  | |- legal_live_run _ (providerStops _ _ ++ _) =>
      apply providerStops_legal; rewrite providerStops_effect
  end.
