(* ===== verification/SessionCommands.v ===== *)
(** * Every accepted command is a legal run, and the states commands reach *)
From S2P Require Import Prelude Js JsMap Ids Contracts SessionTypes SessionState SessionDecider SessionLegal SessionInv SessionInvariants SessionRefine.

Local Open Scope Z_scope.

Section commands.
Context `{ContentCodec}.

(** ** Switching the model or the provider *)

Lemma modelSwitchMarker_cases s to model at_ :
  modelSwitchMarker s to model at_ = []
  ∨ ∃ m, modelSwitchMarker s to model at_ = [MessagePersisted m]
         ∧ mf_checkpointRevision m = None.
Proof.
  unfold modelSwitchMarker.
  destruct (st_providerId s), (st_model s), to; try (by left).
  destruct (decide (st_messageIds s = ∅)); [by left|right; by eexists].
Qed.

Lemma resume_events_legal s t at_ :
  ThreadInv (st_providerThreads s) (st_activeProviderThreadId s) (st_sessionId s) →
  (∀ thread, t = Some thread →
     startsWith (pt_id thread) (thread_prefix (st_sessionId s)) = true) →
  legal_live_run s (resume_events t at_ ++ [SessionStatusSet SS_idle at_]).
Proof.
  intros I Ht. destruct t as [t|]; [|by split].
  specialize (Ht t eq_refl). cbn [resume_events app legal_live_run legal_live].
  split_and!; [exact Ht| |done|done].
  unfold evolve, evolve_ProviderThreadUpdated. cbn.
  rewrite (scope_id_of_prefix _ _ Ht), lookup_insert_eq. by eexists.
Qed.

Lemma switch_event_effect s switch model at_ :
  ThreadInv (st_providerThreads s) (st_activeProviderThreadId s) (st_sessionId s) →
  let s' := evolve s (switch_event switch model at_) in
  st_sessionId s' = st_sessionId s
  ∧ ThreadInv (st_providerThreads s') (st_activeProviderThreadId s') (st_sessionId s').
Proof.
  intros I. destruct switch as [sw|]; [|done]. split; [done|].
  exact (thread_inv_retire s at_ I).
Qed.

Lemma switch_resumed_prefix s switch thread :
  ThreadInv (st_providerThreads s) (st_activeProviderThreadId s) (st_sessionId s) →
  switch_resumed s switch = Some thread →
  startsWith (pt_id thread) (thread_prefix (st_sessionId s)) = true.
Proof.
  intros [Hk _] (id & _ & Hid)%bind_Some. by destruct (Hk id thread Hid) as [<- ?].
Qed.

Lemma accepted_SwitchModel s switch model at_ es :
  SessionInvariant s → boundary s → live s →
  decide_SwitchModel s switch model at_ = Success es → accepted s es.
Proof.
  unfold decide_SwitchModel, success. intros I Hb Hlive Hd.
  destruct (_ && _); [injection Hd as <-; by apply accepted_nil|].
  destruct (decide (_ ∨ _)) as [|Hidle]; [discriminate|].
  destruct (match switch with None => false | _ => _ end); [discriminate|].
  injection Hd as <-.
  assert (st_currentTurnId s = None ∧ st_queuedTurns s = ∅) as [Hc Hq]
    by (split; apply dec_stable; tauto).
  pose proof (modelSwitchMarker_cases s
    match switch with Some sw => Some (sw_providerId sw) | None => st_providerId s end
    model at_) as Hm.
  set (marker := modelSwitchMarker _ _ _ _) in *. clearbody marker.
  apply accepted_plain; [done|done|..]; try stops_first.
  1,2: destruct Hm as [->|(m & -> & _)], (switch_resumed s switch); by destruct switch.
  set (s1 := s <| st_providerReservation := None |> <| st_version := _ |>).
  assert (ThreadInv (st_providerThreads s1) (st_activeProviderThreadId s1) (st_sessionId s1))
    as I1 by apply I.
  assert (st_currentTurnId s1 = None ∧ st_queuedTurns s1 = ∅) as Hidle1 by done.
  assert (∀ q, st_sessionId q = st_sessionId s →
    ThreadInv (st_providerThreads q) (st_activeProviderThreadId q) (st_sessionId q) →
    st_currentTurnId q = None ∧ st_queuedTurns q = ∅ →
    legal_live_run q ([switch_event switch model at_]
      ++ resume_events (switch_resumed s switch) at_ ++ [SessionStatusSet SS_idle at_]))
    as Htail.
  { intros q Hsid Iq Hq'. split; [by destruct switch|].
    destruct (switch_event_effect q switch model at_ Iq) as [Hsid' Iq'].
    apply resume_events_legal; [done|]. intros thread Ht. rewrite Hsid', Hsid.
    by eapply switch_resumed_prefix; [apply I|]. }
  destruct Hm as [->|(m & -> & Hm)]; [by apply Htail|].
  split; [cbn; by rewrite Hm|].
  destruct (MessagePersisted_effect s1 m) as (Hc1 & _ & _ & Ha1 & Hq1 & Ht1 & _ & Hs1).
  apply Htail; [done|by rewrite Ht1, Ha1, Hs1|by rewrite Hc1, Hq1].
Qed.

(** ** Provider threads *)

Lemma accepted_BindProviderThread s sid native head at_ es :
  boundary s → live s → st_sessionId s = Some sid →
  decide_BindProviderThread s sid native head at_ = Success es → accepted s es.
Proof.
  unfold decide_BindProviderThread, success. intros Hb Hlive Hsid Hd.
  match type of Hd with (if ?b then _ else _) = _ => destruct b end;
    injection Hd as <-; [by apply accepted_nil|].
  pose proof (providerThreadIdFor_prefix (st_sessionId s)) as Hp.
  rewrite Hsid in Hp. cbn [default from_option] in Hp.
  apply accepted_plain; [done|done|by case_decide..|].
  split; [cbn; rewrite Hsid; apply Hp|]. case_decide; [done|]. split; [|done].
  unfold evolve, evolve_ProviderThreadUpdated. cbn. rewrite Hsid.
  rewrite (scope_id_of_prefix (Some sid)) by apply Hp.
  rewrite lookup_insert_eq. by eexists.
Qed.

(** ** Turns *)

Lemma AttemptStarted_effect s turnId t attemptId n reason at_ a b c :
  st_currentTurnId s = Some turnId → jm_get turnId (st_turns s) = Some t → tn_id t = turnId →
  let s' := evolve s (AttemptStarted turnId attemptId n reason at_ a b c) in
  st_currentTurnId s' = Some turnId ∧ active_attempt s' turnId = Some attemptId
  ∧ st_providerId s' = st_providerId s
  ∧ st_providerReservation s' = st_providerReservation s.
Proof.
  intros Hc Ht Hid. unfold evolve, evolve_AttemptStarted, active_attempt. rewrite Ht.
  cbn. by rewrite Hid, jm_get_set_eq.
Qed.

Lemma accepted_RecoverTurn s turnId attemptId at_ es :
  SessionInvariant s → boundary s → live s →
  decide_RecoverTurn s turnId attemptId at_ = Success es → accepted s es.
Proof.
  unfold decide_RecoverTurn, success. intros I Hb Hlive Hd.
  destruct (jm_get turnId (st_turns s)) as [t|] eqn:Ht; [|discriminate].
  destruct (decide (_ ∨ _)) as [|Hown]; [discriminate|].
  destruct (_ ?? _) as [reference|]; [|discriminate].
  destruct (decide (_ ≠ _)) as [|Href]; [discriminate|].
  destruct (decide (_ = _)) as [|Hfin]; [discriminate|]. injection Hd as <-.
  apply dec_stable in Href.
  assert (st_currentTurnId s = Some turnId) as Hc by (apply dec_stable; tauto).
  destruct (turns_inv_current s turnId (si_turns s I) Hc) as (t' & p & Ht' & Hid & _).
  simplify_eq. apply accepted_plain; [done|done|..]; try stops_first; try done.
  destruct (AttemptStarted_effect
    (s <| st_providerReservation := None |>
       <| st_version := st_version s + Z.of_nat (length (providerStops s at_)) |>)
    (tn_id t) t (attemptIdFor (tn_id t) (Z.of_nat (size (tn_attempts t)) + 1))
    (Z.of_nat (size (tn_attempts t)) + 1) AR_provider_recovery at_ (tn_ordinal t)
    (tn_providerThreadId t) (tn_requestedAt t)) as (Hc1 & Ha1 & Hp1 & _); [done..|].
  cbn [legal_live_run]. rewrite StatusSet_effect by done.
  split_and!; [|done| |done].
  - split; [exact Hc|]. exists t. by split_and!.
  - cbn [legal_live]. split_and!; [exact Hc1|exact Ha1|]. cbn in Hp1 |- *. by rewrite Hp1.
Qed.

Lemma accepted_RetryTurn s turnId reason i start at_ es :
  SessionInvariant s → boundary s → live s →
  decide_RetryTurn s turnId reason i start at_ = Success es → accepted s es.
Proof.
  unfold decide_RetryTurn, success. intros I Hb Hlive Hd.
  destruct (jm_get turnId (st_turns s)) as [t|] eqn:Ht; [|discriminate].
  destruct (decide (_ ≠ _)) as [|Hc]; [discriminate|].
  destruct (decide (_ = _)) as [|Hfin]; [discriminate|]. injection Hd as <-.
  apply dec_stable in Hc.
  destruct (turns_inv_current s turnId (si_turns s I) Hc) as (t' & p & Ht' & Hid & _).
  simplify_eq. apply accepted_plain; [done..|].
  destruct (AttemptStarted_effect s (tn_id t) t
    (attemptIdFor (tn_id t) (Z.of_nat (size (tn_attempts t)) + 1))
    (Z.of_nat (size (tn_attempts t)) + 1) (retry_attempt_reason reason) at_ (tn_ordinal t)
    (tn_providerThreadId t) (tn_requestedAt t)) as (Hc1 & Ha1 & _); [done..|].
  cbn [legal_live_run]. rewrite StatusSet_effect by done.
  split_and!; [|done| |done].
  - split; [exact Hc|]. exists t. by split_and!.
  - cbn [legal_live]. split_and!; [exact Hc1|symmetry; exact Ha1|by eexists].
Qed.

Lemma accepted_ReleaseInitialTurn s turnId i start at_ es :
  SessionInvariant s → boundary s → live s →
  decide_ReleaseInitialTurn s turnId i start at_ = Success es → accepted s es.
Proof.
  unfold decide_ReleaseInitialTurn, success. intros I Hb Hlive Hd.
  destruct (st_archived s); [discriminate|].
  destruct (decide (_ ∨ _)) as [|Hg]; [discriminate|]. injection Hd as <-.
  assert (st_currentTurnId s = Some turnId) as Hc by (apply dec_stable; tauto).
  apply accepted_plain; [done..|]. split; [done|]. split; [|done].
  pose proof (activeAttemptOr_current s turnId I Hc) as Ha.
  split_and!; [exact Hc|symmetry; exact Ha|by eexists].
Qed.

(** ** Settlement *)

(** Settling the segments of a turn one after the other leaves the turn's other
    components alone and none of its segments open. *)
Lemma settle_segments_effect (segs : list (string * OpenSegmentState)) turnId outcome at_ s :
  let es := map (λ kv : string * OpenSegmentState, SegmentSettled turnId kv.1 outcome at_) segs in
  let s' := foldl evolve s es in
  s' = s <| st_openSegments := foldl (λ m (kv : string * OpenSegmentState), jm_delete kv.1 m)
                                 (st_openSegments s) segs |>
         <| st_version := st_version s + Z.of_nat (length segs) |>.
Proof.
  cbn. revert s. induction segs as [|[id g] segs IH]; intros s.
  - cbn. destruct s. cbn. f_equal. lia.
  - cbn [map foldl length]. rewrite IH. cbn. f_equal. lia.
Qed.

Lemma foldl_jm_delete (segs m : list (string * OpenSegmentState)) k :
  jm_get k (foldl (λ m kv, jm_delete kv.1 m) m segs)
  = if decide (k ∈ segs.*1) then None else jm_get k m.
Proof.
  revert m. induction segs as [|[i g] segs IH]; intros m; cbn.
  - rewrite decide_False; [done|]. apply not_elem_of_nil.
  - rewrite IH, jm_get_delete. repeat case_decide; set_solver.
Qed.

Lemma settle_segments_legal (segs : list (string * OpenSegmentState)) turnId outcome at_ s :
  NoDup (segs.*1) →
  (∀ id g, (id, g) ∈ segs → jm_get id (st_openSegments s) = Some g ∧ seg_turnId g = turnId) →
  legal_live_run s
    (map (λ kv : string * OpenSegmentState, SegmentSettled turnId kv.1 outcome at_) segs).
Proof.
  revert s. induction segs as [|[id g] segs IH]; intros s Hn Hs; [done|].
  cbn [map legal_live_run legal_live]. apply NoDup_cons in Hn as [Hni Hn].
  destruct (Hs id g) as [Hg Ht]; [by left|]. cbn [fst]. rewrite Hg. cbn.
  split; [by rewrite Ht|].
  apply IH; [done|]. intros i h Hin. cbn. rewrite jm_get_delete, decide_False.
  - apply Hs. by right.
  - intros ->. apply Hni. apply list_elem_of_fmap. by exists (i, h).
Qed.

Lemma filter_segments_NoDup (P : string * OpenSegmentState → Prop) `{∀ kv, Decision (P kv)}
    (m : list (string * OpenSegmentState)) :
  jm_wf m → NoDup ((filter P m).*1).
Proof.
  intros Hm. eapply sublist_NoDup; [exact Hm|]. apply fmap_sublist, sublist_filter.
Qed.

(** Settling the segments of a turn, from a state [q] that agrees with the one
    the command was decided in. *)
Lemma settled_segments_run s q turnId outcome at_ :
  SegmentInv (st_openSegments s) (st_currentTurnId s) →
  st_openSegments q = st_openSegments s →
  let es := settled_segments s turnId outcome at_ in
  let q' := foldl evolve q es in
  legal_live_run q es
  ∧ (∀ id g, jm_get id (st_openSegments q') = Some g → seg_turnId g ≠ turnId)
  ∧ st_currentTurnId q' = st_currentTurnId q
  ∧ st_scheduledSuccessor q' = st_scheduledSuccessor q ∧ (live q → live q').
Proof.
  intros [Hwf _] Hq. cbn zeta. unfold settled_segments.
  match goal with |- context [filter ?P ?m] => set (segs := filter P m) end.
  assert (∀ id g, (id, g) ∈ segs ↔ (id, g) ∈ st_openSegments s ∧ seg_turnId g = turnId)
    as Hsegs by (intros id g; unfold segs; rewrite list_elem_of_filter; tauto).
  rewrite settle_segments_effect. cbn. split_and!; try done.
  - apply settle_segments_legal; [by apply filter_segments_NoDup|].
    intros id g [Hin Ht]%Hsegs. rewrite Hq. split; [by apply jm_elem_get|done].
  - intros id g. rewrite foldl_jm_delete, Hq.
    case_decide as Hin; [done|]. intros Hg Ht. apply Hin, list_elem_of_fmap.
    exists (id, g). split; [done|]. apply Hsegs. split; [by apply jm_get_elem|done].
Qed.

Lemma TurnSettled_effect s turnId outcome at_ :
  let s' := evolve s (TurnSettled turnId outcome at_) in
  st_currentTurnId s' = None ∧ st_scheduledSuccessor s' = st_scheduledSuccessor s
  ∧ st_settledTurnIds s' = st_settledTurnIds s ∪ {[turnId]}.
Proof. evolve_cases; done. Qed.

Lemma StatusSet_no_turn s status at_ :
  st_currentTurnId s = None →
  evolve s (SessionStatusSet status at_)
  = s <| st_status := Some status |> <| st_version := st_version s + 1 |>.
Proof. intros Hc. unfold evolve, evolve_SessionStatusSet, current_turn. by rewrite Hc. Qed.

(** The events after a turn settled: its status, and its successor. *)
Definition successor_ready (successor : option ScheduledSuccessor) (turnId : string) (at_ : Z)
    (ready : list SessionEvent) : Prop :=
  match successor with
  | None => ready = []
  | Some sc => ready = [ScheduledSuccessorReady (sc_predecessorTurnId sc) (sc_turnId sc)
                          (sc_queueId sc) (sc_inputJson sc) at_]
               ∧ sc_predecessorTurnId sc = turnId
  end.

(** What an accepted settlement of the current turn is. *)
Lemma decide_SettleTurn_events s turnId outcome at_ es :
  st_currentTurnId s = Some turnId → boundary s →
  decide_SettleTurn s turnId outcome at_ = Success es →
  ∃ status ready,
    es = settled_segments s turnId outcome at_
         ++ [TurnSettled turnId outcome at_; SessionStatusSet status at_] ++ ready
    ∧ successor_ready (st_scheduledSuccessor s) turnId at_ ready.
Proof.
  unfold decide_SettleTurn, success. intros Hc Hb Hd.
  rewrite decide_False in Hd by (intros Hn; by apply Hn). injection Hd as <-.
  eexists _, _. split; [reflexivity|].
  unfold successor_ready. destruct (st_scheduledSuccessor s) as [sc|] eqn:Hsc; [|done].
  specialize (Hb sc Hsc). cbn. rewrite decide_True; [|congruence].
  split; [done|congruence].
Qed.

Lemma ready_run q turnId status at_ ready :
  st_currentTurnId q = None → turnId ∈ st_settledTurnIds q →
  successor_ready (st_scheduledSuccessor q) turnId at_ ready →
  legal_live_run q (SessionStatusSet status at_ :: ready)
  ∧ boundary (foldl evolve q (SessionStatusSet status at_ :: ready)).
Proof.
  intros Hc Hset Hready. cbn [foldl legal_live_run]. rewrite StatusSet_no_turn by done.
  unfold successor_ready in Hready.
  destruct (st_scheduledSuccessor q) as [sc|] eqn:Hsc.
  - destruct Hready as [-> <-]. cbn. split; [|intros ? [=]].
    split_and!; try done. rewrite Hsc. by destruct sc.
  - subst ready. cbn. split; [done|]. intros sc. cbn. by rewrite Hsc.
Qed.

(** A settlement, from any state that agrees on what the settlement reads. *)
Lemma settlement_run s q turnId outcome at_ es :
  SessionInvariant s → boundary s → st_currentTurnId s = Some turnId →
  decide_SettleTurn s turnId outcome at_ = Success es →
  st_openSegments q = st_openSegments s → st_currentTurnId q = st_currentTurnId s →
  st_scheduledSuccessor q = st_scheduledSuccessor s →
  legal_live_run q es ∧ boundary (foldl evolve q es).
Proof.
  intros I Hb Hc Hd Hseg Hcur Hsuc.
  destruct (decide_SettleTurn_events s turnId outcome at_ es Hc Hb Hd)
    as (status & ready & -> & Hready).
  destruct (settled_segments_run s q turnId outcome at_ (si_segments s I) Hseg)
    as (Hl & Hnone & Hc1 & Hs1 & _).
  rewrite legal_live_run_app, foldl_app.
  destruct (TurnSettled_effect (foldl evolve q (settled_segments s turnId outcome at_))
    turnId outcome at_) as (Hc2 & Hs2 & Hset2).
  destruct (ready_run (evolve (foldl evolve q (settled_segments s turnId outcome at_))
    (TurnSettled turnId outcome at_)) turnId status at_ ready) as [Hl2 Hb2].
  - exact Hc2.
  - rewrite Hset2. set_solver.
  - rewrite Hs2, Hs1, Hsuc. exact Hready.
  - split; [split; [exact Hl|split; [split|exact Hl2]]|exact Hb2]; [|exact Hnone].
    unfold is_current. congruence.
Qed.

Lemma not_current_nil s turnId es : not_current s turnId = Success es → es = [].
Proof. unfold not_current, success. by case_decide; intros [= <-]. Qed.

Lemma settlement_keeps_live s turnId outcome at_ es :
  decide_SettleTurn s turnId outcome at_ = Success es → forallb keeps_live es = true.
Proof.
  unfold decide_SettleTurn, success. case_decide; [by intros ->%not_current_nil|].
  intros [= <-]. rewrite !forallb_app. apply andb_true_iff. split.
  - unfold settled_segments. generalize (filter (λ kv : string * OpenSegmentState,
      seg_turnId kv.2 = turnId) (st_openSegments s)) as l.
    induction l; cbn; done.
  - destruct (st_scheduledSuccessor s); [|done]. cbn. by case_decide.
Qed.

Lemma accepted_SettleTurn s turnId outcome at_ es :
  SessionInvariant s → boundary s → live s →
  decide_SettleTurn s turnId outcome at_ = Success es → accepted s es.
Proof.
  intros I Hb Hlive Hd. pose proof (settlement_keeps_live _ _ _ _ _ Hd) as Hk.
  destruct (decide (st_currentTurnId s = Some turnId)) as [Hc|Hc].
  - destruct (settlement_run s s turnId outcome at_ es I Hb Hc Hd) as [Hl Hb']; [done..|].
    split; [by apply legal_live_run_legal|done].
  - unfold decide_SettleTurn in Hd. rewrite decide_True in Hd by done.
    apply not_current_nil in Hd as ->. by apply accepted_nil.
Qed.

Lemma accepted_ExpireAttempt s turnId attemptId at_ es :
  SessionInvariant s → boundary s → live s →
  decide_ExpireAttempt s turnId attemptId at_ = Success es → accepted s es.
Proof.
  unfold decide_ExpireAttempt. intros I Hb Hlive Hd.
  destruct (jm_get turnId (st_turns s)) as [t|]; [|discriminate].
  destruct (decide (_ ∨ _)) as [|Hown]; [discriminate|].
  assert (st_currentTurnId s = Some turnId) as Hc by (apply dec_stable; tauto).
  destruct (decide_RecoverTurn s turnId attemptId at_) as [rec|] eqn:Hrec.
  { injection Hd as <-. by eapply accepted_RecoverTurn. }
  set (interrupted := negb _ || _) in Hd.
  destruct (decide_SettleTurn s turnId _ at_) as [es'|] eqn:Hset; [|discriminate].
  injection Hd as <-.
  pose proof (settlement_keeps_live _ _ _ _ _ Hset) as Hk.
  set (q := foldl evolve s (providerStops s at_)).
  assert (∀ q, st_openSegments q = st_openSegments s → st_currentTurnId q = st_currentTurnId s →
    st_scheduledSuccessor q = st_scheduledSuccessor s →
    legal_live_run q es' ∧ boundary (foldl evolve q es')) as Hrun.
  { intros. by eapply settlement_run. }
  assert (st_openSegments q = st_openSegments s ∧ st_currentTurnId q = st_currentTurnId s
    ∧ st_scheduledSuccessor q = st_scheduledSuccessor s) as (Hq1 & Hq2 & Hq3)
    by (unfold q; by rewrite providerStops_effect).
  assert (legal_live_run q ((if interrupted then [] else [expiry_message turnId attemptId at_])
      ++ es')
    ∧ boundary (foldl evolve q ((if interrupted then []
         else [expiry_message turnId attemptId at_]) ++ es'))) as [Hl Hb'].
  { destruct interrupted; [by apply Hrun|].
    destruct (MessagePersisted_effect q (plain_message ("ingestion-expired:" +:+ attemptId)
      (Some turnId) "system" "error" (stringify (JObj
          [ ("_tag", JStr "error");
            ("message",
              JStr "The Agent Engine stopped ingesting this execution. Delivery was not repeated automatically; review the provider result before retrying.") ])) None at_))
      as (Hm1 & Hm2 & _ & _ & _ & _ & Hm3 & _).
    unfold expiry_message. cbn [app foldl legal_live_run].
    set (q' := evolve q _) in *. clearbody q'.
    destruct (Hrun q') as [Hl Hb']; [congruence..|]. split; [split; [done|exact Hl]|exact Hb']. }
  split.
  - apply legal_live_run_legal; [done| |by apply providerStops_legal].
    autorewrite with zuse. rewrite Hk. by destruct interrupted.
  - rewrite foldl_app. exact Hb'.
Qed.

Lemma accepted_RollbackTurns s through seqn removedIds at_ es :
  boundary s → live s →
  decide_RollbackTurns s through seqn removedIds at_ = Success es → accepted s es.
Proof.
  unfold decide_RollbackTurns, success. intros Hb Hlive Hd.
  destruct (decide (_ ∨ _)) as [|Hidle]; [discriminate|].
  destruct (negb (isInteger through)) eqn:H1; [discriminate|].
  destruct (num_ltb through (num_of_Z 0)) eqn:H2; [discriminate|].
  destruct (num_ltb (num_of_Z (st_turnCount s)) through) eqn:H3; [discriminate|].
  injection Hd as <-. apply negb_false_iff in H1.
  apply accepted_plain; [done..|]. cbn [legal_live_run legal_live].
  assert (st_providerReservation s = None).
  { destruct (st_providerReservation s); [|done]. exfalso. apply Hidle. right. right. by eexists. }
  split_and!; try done; apply dec_stable; tauto.
Qed.

Lemma scheduled_boundary q turnId successor queueId i at_ :
  st_currentTurnId q = Some turnId →
  boundary (evolve q (SuccessorTurnScheduled turnId successor queueId i at_)).
Proof. intros Hc sc [= <-]. exact Hc. Qed.

Lemma accepted_SteerQueuedTurn s turnId queueId successor at_ es :
  SessionInvariant s → boundary s → live s →
  decide_SteerQueuedTurn s turnId queueId successor at_ = Success es → accepted s es.
Proof.
  unfold decide_SteerQueuedTurn, success. intros I Hb Hlive Hd.
  destruct (decide (_ ≠ _)) as [|Hc].
  - destruct (decide (_ ∧ _)) as [[Hc Hset]|]; [|discriminate].
    destruct (st_queuedTurns s !! queueId) as [queued|] eqn:Hq; [|discriminate].
    injection Hd as <-. split; [|intros sc Hx; discriminate Hx].
    apply legal_live_run_legal; [done..|]. cbn. rewrite lookup_delete_eq.
    split_and!; try done. by right.
  - apply dec_stable in Hc.
    destruct (st_queuedTurns s !! queueId) as [queued|] eqn:Hq; [|discriminate].
    injection Hd as <-.
    destruct (turns_inv_current s turnId (si_turns s I) Hc)
      as (t & p & Ht & Hid & _ & _ & _ & Hp & Hph).
    rewrite Hp. assert (is_Some (st_queuedTurns s !! queueId)) by by eexists.
    pose proof (activeAttemptOr_current s turnId I Hc) as Ha.
    destruct (is_interrupting (Some p)) eqn:Hi; cbn [app].
    + split; [|by apply scheduled_boundary].
      apply legal_live_run_legal; [done..|]. cbn. rewrite lookup_delete_eq. tauto.
    + assert (p = TP_running) as -> by by destruct p.
      assert (st_currentTurnId (evolve (evolve s (QueuedTurnClaimed queueId at_))
        (TurnInterruptRequested turnId (Some (activeAttemptOr s turnId)) at_)) = Some turnId
        ∧ st_queuedTurns (evolve (evolve s (QueuedTurnClaimed queueId at_))
        (TurnInterruptRequested turnId (Some (activeAttemptOr s turnId)) at_)) !! queueId = None)
        as [Hc2 Hq2].
      { cbn. by rewrite lookup_delete_eq. }
      split; [|by apply scheduled_boundary].
      apply legal_live_run_legal; [done..|]. cbn [legal_live_run legal_live].
      split; [done|]. split; [split_and!; [exact Hc|exact Hp|symmetry; exact Ha]|].
      split; [split; [by left|exact Hq2]|done].
Qed.

(** ** Provider sessions *)

Lemma accepted_ReserveProviderSession s owner model worktree p ps at_ es :
  SessionInvariant s → boundary s → live s →
  decide_ReserveProviderSession s owner model worktree p ps at_ = Success es → accepted s es.
Proof.
  unfold decide_ReserveProviderSession, success. intros I Hb Hlive Hd.
  match type of Hd with (if negb ?b then _ else _) = _ => destruct b end; [|discriminate].
  cbn [negb] in Hd.
  destruct (decide (_ ∧ _)); [discriminate|]. destruct (decide (_ ∨ _)); [discriminate|].
  destruct (st_archived s) eqn:Har; [discriminate|].
  destruct (decide (_ ∧ _)) as [|Hp]; [discriminate|].
  destruct (decide (_ = _)); injection Hd as <-; [by apply accepted_nil|].
  assert (st_providerId s = Some p) as Hps.
  { destruct (proj2 (si_config s I) (proj1 Hlive)) as (_ & _ & _ & _ & [p' Hp'] & _).
    rewrite Hp' in *. f_equal. destruct (decide (p' = p)); [done|].
    exfalso. apply Hp. split; congruence. }
  apply accepted_plain; [done|done|..]; try stops_first; try done.
Qed.

Lemma accepted_AttachProvider s p ps at_ es :
  boundary s → live s → decide_AttachProvider s p ps at_ = Success es → accepted s es.
Proof.
  unfold decide_AttachProvider, success. intros Hb Hlive Hd.
  destruct (decide (_ ∧ _)); injection Hd as <-; [by apply accepted_nil|].
  destruct (st_attachedProviderId s) as [a|] eqn:Ha; apply accepted_plain; try done.
Qed.

(** ** Commands of one event *)

Ltac single_event Hd :=
  unfold success, queue_has in Hd;
  repeat match type of Hd with
  | context [if bool_decide ?P then _ else _] => destruct (bool_decide_reflect P)
  | context [if decide ?P then _ else _] => destruct (decide P)
  | context [if ?b then _ else _] => destruct b eqn:?
  end;
  try discriminate Hd; first
  [ apply not_current_nil in Hd as ->; by apply accepted_nil
  | injection Hd as <-; first
      [ by apply accepted_nil
      | apply accepted_one; [done|done|done|done|cbn [legal_live]] ] ].

Lemma accepted_PersistMessage s m es :
  boundary s → live s → decide_PersistMessage s m = Success es → accepted s es.
Proof.
  unfold decide_PersistMessage. intros Hb Hlive Hd.
  assert (∀ q, q = Success es → q = success [] ∨
    q = success [MessagePersisted m] ∧ legal_live s (MessagePersisted m) → accepted s es) as Hdone.
  { intros q -> [Hq|[Hq Hl]]; unfold success in Hq; injection Hq as ->.
    - by apply accepted_nil.
    - by apply accepted_one. }
  destruct (Bool.eqb _ _) eqn:Hboth; cbn [negb] in Hd; [|discriminate].
  apply Bool.eqb_prop in Hboth. apply (Hdone _ Hd). cbn [legal_live].
  destruct (mf_checkpointRevision m) as [revision|] eqn:Hrev.
  - destruct (isSafeInteger revision) eqn:Hs; cbn [negb orb] in *; [|discriminate].
    destruct (num_ltb revision (num_of_Z 1)) eqn:H1; [discriminate|].
    assert (is_Some (mf_checkpointFinal m)) as Hfin.
    { symmetry in Hboth. rewrite (bool_decide_eq_true_2 (is_Some (Some _))) in Hboth by eauto.
      by apply bool_decide_eq_true in Hboth. }
    destruct (st_messageCheckpoints s !! mf_messageId m) as [c|] eqn:Hck; unfold checkpoint_follows.
    + destruct (ck_final c) eqn:Hcf; cbn [orb] in *; [by left|].
      destruct (num_leb revision (ck_revision c)); [by left|right; by split_and!].
    + right; by split_and!.
  - destruct (st_messageCheckpoints s !! _); [by left|by right].
Qed.

Lemma accepted_BindAttemptProviderTurn s f es :
  boundary s → live s → decide_BindAttemptProviderTurn s f = Success es → accepted s es.
Proof.
  unfold decide_BindAttemptProviderTurn, success. intros Hb Hlive Hd.
  destruct (owns_attempt s _ _) eqn:Hown; cbn [negb orb] in Hd; [|discriminate].
  destruct (st_archived s) eqn:Har; [discriminate|].
  destruct (decide (_ ∨ _)) as [|Href]; [discriminate|].
  destruct (st_attemptProviderTurns s !! bt_attemptId f) as [r|] eqn:Hx.
  { destruct (decide (r = _)); [injection Hd as <-; by apply accepted_nil|discriminate]. }
  destruct (decide (map_Exists _ _)) as [|Hex]; [discriminate|]. injection Hd as <-.
  apply accepted_one; [done..|]. unfold owns_attempt in Hown.
  apply andb_true_iff in Hown as [Hc%bool_decide_eq_true Ha%bool_decide_eq_true].
  cbn [legal_live]. split_and!; [done|done|done|apply dec_stable; tauto|done|].
  intros id r Hid ->. apply Hex. exists id, (bt_reference f).
  split; [done|]. split; [congruence|done].
Qed.

Lemma accepted_ReorderQueuedTurns s ids at_ es :
  SessionInvariant s → boundary s → live s →
  decide_ReorderQueuedTurns s ids at_ = Success es → accepted s es.
Proof.
  unfold decide_ReorderQueuedTurns, success. intros I Hb Hlive [= <-].
  apply accepted_one; [done..|]. cbn [legal_live]. intros id.
  rewrite elem_of_app, !list_elem_of_filter. unfold queue_has.
  rewrite bool_decide_eq_true, (proj1 (si_queue s I)).
  destruct (decide (is_Some (st_queuedTurns s !! id))); destruct (decide (id ∈ ids)); tauto.
Qed.

Lemma accepted_RequestTurnInterrupt s expected at_ es :
  SessionInvariant s → boundary s → live s →
  decide_RequestTurnInterrupt s expected at_ = Success es → accepted s es.
Proof.
  unfold decide_RequestTurnInterrupt, turnInterruptReceipt, success. intros I Hb Hlive Hd.
  destruct (st_currentTurnId s) as [k|] eqn:Hc; [|injection Hd as <-; by apply accepted_nil].
  destruct (decide (_ ∧ _)); [injection Hd as <-; by apply accepted_nil|].
  destruct (turns_inv_current s k (si_turns s I) Hc) as (t & p & _ & _ & _ & _ & _ & Hp & _).
  rewrite Hp in Hd.
  destruct (is_interrupting (Some p)) eqn:Hi; injection Hd as <-; [by apply accepted_nil|].
  apply accepted_one; [done..|]. cbn [legal_live]. split_and!; [done|by destruct p|].
  symmetry. by apply activeAttemptOr_current.
Qed.

(** Commands on a live session. *)
Lemma decide_live_accepted s sid c es :
  SessionInvariant s → boundary s → live s → st_sessionId s = Some sid →
  decide_live s sid c = Success es → accepted s es.
Proof.
  intros I Hb Hlive Hsid Hd. destruct c; cbn [decide_live] in Hd; try discriminate Hd;
    try (by eapply accepted_SwitchModel); try (by eapply accepted_ReleaseInitialTurn);
    try (by eapply accepted_BindAttemptProviderTurn);
    try (by eapply accepted_BindProviderThread); try (by eapply accepted_ExpireAttempt);
    try (by eapply accepted_RecoverTurn); try (by eapply accepted_RetryTurn);
    try (by eapply accepted_SubmitTurn); try (by eapply accepted_RollbackTurns);
    try (by eapply accepted_SettleTurn); try (by eapply accepted_RequestTurnInterrupt);
    try (by eapply accepted_ReorderQueuedTurns); try (by eapply accepted_SteerQueuedTurn);
    try (by eapply accepted_PersistMessage); try (by eapply accepted_ReserveProviderSession);
    try (by eapply accepted_AttachProvider).
  - unfold decide_SetTitle in Hd. by single_event Hd.
  - unfold decide_SetRuntimeMode in Hd. by single_event Hd.
  - unfold decide_SetPermissionMode in Hd. by single_event Hd.
  - unfold decide_SetWorktree in Hd. by single_event Hd.
  - unfold decide_SetStatus in Hd. by single_event Hd.
  - unfold decide_SetQueuePaused in Hd. by single_event Hd.
  - unfold decide_ArchiveSession in Hd. by single_event Hd.
  - unfold decide_UnarchiveSession in Hd. by single_event Hd.
  - injection Hd as <-. split; [by split|]. exact Hb.
  - unfold decide_StartTurn in Hd. destruct (st_currentTurnId s) eqn:Hc; [discriminate|].
    single_event Hd. split_and!; try done; [by apply boundary_no_successor|congruence].
  - unfold decide_FinalizeTurn in Hd. single_event Hd.
    assert (st_currentTurnId s = Some turnId) as Hc by by apply dec_stable.
    split_and!; [done|by apply activeAttemptOr_current|done].
  - unfold decide_AcknowledgeTurnInterrupt in Hd. single_event Hd. split; [|done].
    by apply dec_stable.
  - unfold decide_FailTurnInterrupt in Hd. single_event Hd. by apply dec_stable.
  - unfold decide_EnqueueTurn in Hd. single_event Hd. by apply eq_None_not_Some.
  - unfold decide_UpdateQueuedTurn in Hd. by single_event Hd.
  - unfold decide_ClaimQueuedTurn in Hd. single_event Hd.
    match goal with Hx : _ <$> _ = Some _ |- _ => apply fmap_Some in Hx as (q & -> & _) end.
    by eexists.
  - unfold decide_RemoveQueuedTurn in Hd. by single_event Hd.
  - unfold decide_OpenSegment in Hd. single_event Hd.
    split; [by apply dec_stable|by apply jm_has_false].
  - unfold decide_SettleSegment in Hd. by single_event Hd.
  - unfold decide_RequestPermission in Hd. by single_event Hd.
  - unfold decide_ResolvePermission in Hd. single_event Hd. tauto.
  - unfold decide_ExpirePermission in Hd. by single_event Hd.
  - unfold decide_ExpirePlan in Hd. by single_event Hd.
  - unfold decide_ExpireQuestion in Hd. single_event Hd. tauto.
  - unfold decide_ResolveQuestion in Hd. by single_event Hd.
  - injection Hd as <-. rewrite <-(app_nil_r (providerStops _ _)).
    apply accepted_plain; [done|done|..]; try stops_first; done.
  - unfold decide_DetachProvider in Hd. destruct (decide _);
      [injection Hd as <-; by apply accepted_nil|].
    destruct (st_attachedProviderId s) eqn:Ha; injection Hd as <-;
      [by apply accepted_one|by apply accepted_nil].
Qed.

(** The events of an accepted command are a legal run that ends at a boundary. *)
Lemma decide_accepted s c es :
  SessionInvariant s → boundary s → decide_command s c = Success es → accepted s es.
Proof.
  intros I Hb Hd. destruct c; cbn [decide_command] in Hd;
    try (by eapply accepted_CreateSession);
    try (by eapply accepted_CreateSessionWithInitialTurn);
    destruct (st_exists s) eqn:Hx; try discriminate Hd;
    destruct (st_sessionId s) as [sid|] eqn:Hsid; try discriminate Hd;
    destruct (st_deleted s) eqn:Hdel; try discriminate Hd;
    by eapply decide_live_accepted.
Qed.
End commands.
