(* ===== verification/SessionProps.v ===== *)
(** * What sessions guarantee

    [reachable] is the set of states the commands of a session produce, each
    command decided on the state before it and its events folded by [evolveAll]
    (decider.ts, state.ts and the commit of engine/dispatch.ts). *)
From S2P Require Import Prelude Js JsMap Ids Contracts SessionTypes SessionState SessionDecider SessionLegal SessionInv SessionInvariants SessionRefine SessionCommands.

Local Open Scope Z_scope.

(** Past the guards of [decide]: the session exists and is not deleted. *)
Ltac past_guards Hd :=
  cbn [decide_command] in Hd;
  lazymatch type of Hd with
  | context [st_exists ?s] =>
      let Hx := fresh "Hexists" in let Hdel := fresh "Hdeleted" in
      destruct (st_exists s) eqn:Hx; [|discriminate Hd];
      let sid := fresh "sid" in
      destruct (st_sessionId s) as [sid|] eqn:?; [|discriminate Hd];
      destruct (st_deleted s) eqn:Hdel; [discriminate Hd|]
  end;
  cbn [decide_live] in Hd.

Section reachable.
Context `{ContentCodec}.

Inductive session_step (s : SessionState) (c : SessionCommand)
    : list SessionEvent → SessionState → Prop :=
| step_accepted events :
    decide_command s c = Success events → session_step s c events (evolveAll s events).

Inductive reachable : SessionState → Prop :=
| reachable_initial : reachable initialSessionState
| reachable_step s c events s' :
    reachable s → session_step s c events s' → reachable s'.

(** Commands in sequence; a refused command changes nothing. *)
Fixpoint run_commands (s : SessionState) (cs : list SessionCommand) : SessionState :=
  match cs with
  | [] => s
  | c :: cs =>
      run_commands (match decide_command s c with
                    | Success events => evolveAll s events
                    | Failure _ => s
                    end) cs
  end.

Lemma run_commands_reachable s cs : reachable s → reachable (run_commands s cs).
Proof.
  revert s. induction cs as [|c cs IH]; intros s Hs; [done|]. cbn. apply IH.
  destruct (decide_command s c) eqn:Hd; [|done].
  eapply reachable_step; [done|by constructor].
Qed.

(** ** [evolveAll] is the fold of [evolve] *)

Lemma evolveMessage_owned s m v :
  evolveMessage s m v
    (Some {| mc_messageIds := st_messageIds s;
             mc_messageCheckpoints := st_messageCheckpoints s |})
  = evolveMessage s m v None.
Proof. reflexivity. Qed.

Lemma evolveAll_loop_foldl s owned es :
  (owned = None ∨ owned = Some {| mc_messageIds := st_messageIds s;
                                  mc_messageCheckpoints := st_messageCheckpoints s |}) →
  evolveAll_loop s owned es = foldl evolve s es.
Proof.
  revert s owned. induction es as [|e es IH]; intros s owned Howned; [done|].
  destruct e; cbn [evolveAll_loop foldl]; try (apply IH; by left).
  assert (default {| mc_messageIds := st_messageIds s;
                     mc_messageCheckpoints := st_messageCheckpoints s |} owned
    = {| mc_messageIds := st_messageIds s; mc_messageCheckpoints := st_messageCheckpoints s |})
    as -> by by destruct Howned as [-> | ->].
  rewrite evolveMessage_owned. rewrite IH by by right. reflexivity.
Qed.

Lemma evolveAll_eq s es : evolveAll s es = foldl evolve s es.
Proof. apply evolveAll_loop_foldl. by left. Qed.

Lemma reachable_accepted s :
  reachable s → SessionInvariant s ∧ boundary s.
Proof.
  induction 1 as [|s c es s' _ [I Hb] Hstep].
  - split; [apply session_invariant_initial|intros sc Hx; discriminate Hx].
  - destruct Hstep as [es Hd]. rewrite evolveAll_eq.
    destruct (decide_accepted s c es I Hb Hd) as [Hl Hb'].
    split; [by apply session_invariant_run|done].
Qed.

(** ** Effects of the decided events *)

Lemma settlement_effect s q turnId outcome at_ es t :
  st_currentTurnId s = Some turnId → boundary s → jm_get turnId (st_turns q) = Some t →
  tn_id t = turnId →
  decide_SettleTurn s turnId outcome at_ = Success es →
  let s' := foldl evolve q es in
  st_currentTurnId s' = None
  ∧ turnId ∈ st_settledTurnIds s'
  ∧ jm_get turnId (st_turns s') = Some (settle_turn outcome at_ t)
  ∧ st_providerReservation s' = st_providerReservation q
  ∧ (st_scheduledSuccessor s = None ∨ st_scheduledSuccessor s' = None).
Proof.
  intros Hc Hb Ht Hid Hd.
  destruct (decide_SettleTurn_events s turnId outcome at_ es Hc Hb Hd)
    as (status & ready & -> & Hready).
  cbn zeta. rewrite foldl_app. unfold settled_segments. rewrite settle_segments_effect.
  match goal with |- context [foldl evolve ?x _] => set (q1 := x) end.
  assert (jm_get turnId (st_turns q1) = Some t) as Ht1 by exact Ht.
  assert (st_providerReservation q1 = st_providerReservation q) as <- by done.
  generalize dependent q1. intros q1 Ht1. cbn [app foldl].
  assert (∃ q2, evolve q1 (TurnSettled turnId outcome at_) = q2
    ∧ st_currentTurnId q2 = None ∧ turnId ∈ st_settledTurnIds q2
    ∧ jm_get turnId (st_turns q2) = Some (settle_turn outcome at_ t)
    ∧ st_providerReservation q2 = st_providerReservation q1) as (q2 & -> & Hq2).
  { eexists; split; [reflexivity|]. unfold evolve, evolve_TurnSettled. rewrite Ht1.
    repeat case_match; cbn; rewrite Hid, jm_get_set_eq; unfold added; set_solver. }
  rewrite StatusSet_no_turn by apply Hq2. unfold successor_ready in Hready.
  destruct Hq2 as (? & ? & ? & ?).
  destruct (st_scheduledSuccessor s); [destruct Hready as [-> _]|subst ready];
    cbn; split_and!; try done; auto.
Qed.

(** ** Properties *)

(** C1: every reachable session satisfies the invariants of its state: turns are
    stored under their own id with distinct ordinals up to [turnCount], the
    current turn is exactly the one that is not terminal, attempts are numbered
    1..n with the n-th active, [queueOrder] lists exactly the queued turns, open
    segments belong to the current turn, a reservation is for the selected
    provider, checkpoints are positive safe integers, expired and resolved
    questions are disjoint, provider threads carry scoped ids and no native
    execution belongs to two attempts; a scheduled successor waits for the
    current turn. *)
Theorem session_invariants_reachable s :
  reachable s → SessionInvariant s ∧ boundary s.
Proof. apply reachable_accepted. Qed.

(** C2: the decider refines the transition system of legal events: from every
    reachable state, each event of an accepted command is legal after the
    earlier ones. *)
Theorem decide_refines_legal s c es :
  reachable s → decide_command s c = Success es → legal_run s es.
Proof.
  intros Hr Hd. destruct (reachable_accepted s Hr) as [I Hb].
  by apply (decide_accepted s c es I Hb Hd).
Qed.

(** C29: folding a batch with the shared message collections gives the fold of
    [evolve] over its events, and advances the version by the batch's length. *)
Theorem evolveAll_is_fold s es :
  evolveAll s es = foldl evolve s es
  ∧ st_version (evolveAll s es) = st_version s + Z.of_nat (length es).
Proof. rewrite evolveAll_eq. split; [done|apply foldl_evolve_version]. Qed.

(** C6: at most one attempt of a session runs: two running attempts are the same
    attempt of the same turn, and that turn is the current one. *)
Theorem single_running_attempt s k t i a k' t' i' a' :
  reachable s →
  jm_get k (st_turns s) = Some t → tn_attempts t !! i = Some a → at_status a = AS_running →
  jm_get k' (st_turns s) = Some t' → tn_attempts t' !! i' = Some a' →
  at_status a' = AS_running →
  k = k' ∧ i = i' ∧ st_currentTurnId s = Some k.
Proof.
  intros Hr Ht Ha Hrun Ht' Ha' Hrun'. destruct (reachable_accepted s Hr) as [I _].
  destruct (ti_turn _ _ _ _ (si_turns s I) k t Ht) as (_ & _ & Hao & Hterm & _).
  destruct (ti_turn _ _ _ _ (si_turns s I) k' t' Ht') as (_ & _ & Hao' & Hterm' & _).
  destruct (ao_each t Hao i a Ha) as (_ & _ & _ & He).
  destruct (ao_each t' Hao' i' a' Ha') as (_ & _ & _ & He').
  destruct (proj1 He Hrun) as [-> Hlive]. destruct (proj1 He' Hrun') as [-> Hlive'].
  apply Hterm in Hlive. apply Hterm' in Hlive'. assert (k = k') as <- by congruence.
  by simplify_eq.
Qed.

(** Retrying a turn starts the attempt numbered after its last one: its id is
    new, it becomes the active running attempt, the attempt it replaces is
    superseded at the time of the retry, and the turn keeps its ordinal. *)
Theorem retry_starts_next_attempt s turnId reason i start at_ es :
  reachable s →
  decide_command s (RetryTurn turnId reason i start at_) = Success es →
  ∃ t t' previous, jm_get turnId (st_turns s) = Some t
    ∧ jm_get turnId (st_turns (evolveAll s es)) = Some t'
    ∧ tn_attempts t !! tn_activeAttemptId t = Some previous
    ∧ (let n := Z.of_nat (size (tn_attempts t)) in
       tn_activeAttemptId t' = attemptIdFor turnId (n + 1)
       ∧ tn_attempts t !! attemptIdFor turnId (n + 1) = None
       ∧ size (tn_attempts t') = S (size (tn_attempts t)))
    ∧ tn_attempts t' !! tn_activeAttemptId t = Some (supersede_running previous at_)
    ∧ tn_ordinal t' = tn_ordinal t
    ∧ st_currentTurnId (evolveAll s es) = Some turnId.
Proof.
  intros Hr Hd. destruct (reachable_accepted s Hr) as [I _]. rewrite evolveAll_eq.
  past_guards Hd. unfold decide_RetryTurn, success in Hd.
  destruct (jm_get turnId (st_turns s)) as [t|] eqn:Ht; [|discriminate].
  destruct (decide (_ ≠ _)) as [|Hc]; [discriminate|]. apply dec_stable in Hc.
  destruct (decide (_ = _)); [discriminate|]. injection Hd as <-.
  destruct (turns_inv_current s turnId (si_turns s I) Hc)
    as (t0 & p & Ht0 & Hid & _ & Hao & Hterm & _). simplify_eq.
  destruct (ao_all t Hao (Z.of_nat (size (tn_attempts t)))) as [previous Hprev].
  { pose proof (ao_size t Hao). lia. }
  rewrite <-(ao_active t Hao) in Hprev.
  destruct (ao_each t Hao _ _ Hprev) as (Hpid & _ & _ & Hprun).
  pose proof (attempts_ok_fresh t Hao) as Hfresh.
  assert (at_status previous = AS_running) as Hrun by by apply Hprun.
  cbn [foldl]. rewrite StatusSet_effect by done.
  unfold evolve, evolve_AttemptStarted. rewrite Ht, Hprev, decide_True by done. cbn.
  rewrite jm_get_set_eq. eexists t, _, previous. split_and!; try done.
  - cbn. rewrite map_size_insert_None; [rewrite map_size_insert_Some; [done|]|].
    + rewrite Hpid. by eexists.
    + rewrite lookup_insert_ne; [done|]. rewrite Hpid. intros Heq. congruence.
  - cbn. rewrite lookup_insert_ne by congruence. by rewrite Hpid, lookup_insert_eq.
Qed.

(** A live session, decided past its guards. *)
Lemma decide_command_live s sid c :
  live s → st_sessionId s = Some sid →
  (∀ a b d, c ≠ CreateSession a b d) →
  (∀ a b d e f g h, c ≠ CreateSessionWithInitialTurn a b d e f g h) →
  decide_command s c = decide_live s sid c.
Proof.
  intros [Hx Hd] Hsid H1 H2. destruct c; cbn [decide_command]; rewrite ?Hx, ?Hsid, ?Hd;
    try done; exfalso; [by eapply H1|by eapply H2].
Qed.

Lemma settle_current s k outcome at_ :
  st_currentTurnId s = Some k → ∃ es, decide_SettleTurn s k outcome at_ = Success es.
Proof.
  intros Hc. unfold decide_SettleTurn, success.
  rewrite decide_False by (intros Hn; by apply Hn). by eexists.
Qed.

(** Expiring the attempt that owns the current turn never fails, releases
    the provider reservation, and ends the attempt: either the turn is settled, or
    a recovery attempt took its place. *)
Theorem expire_attempt_ends_attempt s k a at_ :
  reachable s → live s → st_currentTurnId s = Some k → active_attempt s k = Some a →
  ∃ es, decide_command s (ExpireAttempt k a at_) = Success es
    ∧ let s' := evolveAll s es in
      st_providerReservation s' = None
      ∧ (st_currentTurnId s' = None ∧ k ∈ st_settledTurnIds s'
         ∨ st_currentTurnId s' = Some k
           ∧ ∃ b, active_attempt s' k = Some b ∧ b ≠ a).
Proof.
  intros Hr Hlive Hc Ha. destruct (reachable_accepted s Hr) as [I Hb].
  destruct (proj2 (si_config s I) (proj1 Hlive)) as [[sid Hsid] _].
  rewrite (decide_command_live s sid) by done. cbn [decide_live]. unfold decide_ExpireAttempt.
  destruct (turns_inv_current s k (si_turns s I) Hc)
    as (t & p & Ht & Hid & _ & Hao & _). rewrite Ht.
  rewrite (active_attempt_turn s k t Ht) in Ha. injection Ha as <-.
  rewrite decide_False by tauto.
  destruct (decide_RecoverTurn s k _ at_) as [rec|e] eqn:Hrec.
  - exists rec. split; [done|]. rewrite evolveAll_eq. unfold decide_RecoverTurn in Hrec.
    rewrite Ht in Hrec. destruct (decide (_ ∨ _)); [discriminate|].
    destruct (_ ?? _); [|discriminate]. destruct (decide (_ ≠ _)); [discriminate|].
    destruct (decide (_ = _)); [discriminate|]. injection Hrec as <-.
    cbn zeta. rewrite foldl_app, providerStops_effect. cbn [foldl].
    rewrite StatusSet_effect by done.
    match goal with |- context [evolve ?q (AttemptStarted _ ?b ?n ?r _ ?x ?y ?z)] =>
      destruct (AttemptStarted_effect q k t b n r at_ x y z) as (H1 & H2 & _ & H3);
        [done..|] end.
    split; [exact H3|]. right. split; [exact H1|].
    eexists. split; [exact H2|]. intros Heq.
    pose proof (attempts_ok_fresh t Hao) as Hf. rewrite Hid, Heq in Hf.
    destruct (ao_all t Hao (Z.of_nat (size (tn_attempts t)))) as [previous Hprev].
    { pose proof (ao_size t Hao). lia. }
    rewrite <-(ao_active t Hao) in Hprev. congruence.
  - set (interrupted := negb _ || _).
    destruct (settle_current s k (if interrupted then TSO_interrupted else TSO_error) at_ Hc)
      as [es' Hes']. rewrite Hes'. eexists. split; [reflexivity|].
    rewrite evolveAll_eq. cbn zeta. rewrite foldl_app, providerStops_effect, foldl_app.
    set (q := foldl evolve _ (if interrupted then [] else _)).
    assert (jm_get k (st_turns q) = Some t ∧ st_providerReservation q = None) as [Hq Hqr].
    { unfold q. destruct interrupted; [done|]. cbn [foldl expiry_message]. evolve_cases; done. }
    destruct (settlement_effect s q k _ at_ es' t Hc Hb Hq Hid Hes') as (H1 & H2 & _ & H4 & _).
    split; [congruence|by left].
Qed.

(** Settling the current turn closes it: the session has no current turn and
    no open segment, the turn and its active attempt end with the outcome, and
    settling it again, with any outcome, is accepted and changes nothing. *)
Theorem settle_closes_turn s k outcome at_ es :
  reachable s → st_currentTurnId s = Some k →
  decide_command s (SettleTurn k outcome at_) = Success es →
  let s' := evolveAll s es in
  st_currentTurnId s' = None ∧ st_openSegments s' = []
  ∧ st_scheduledSuccessor s' = None
  ∧ (∃ t a, jm_get k (st_turns s') = Some t ∧ tn_status t = settled_turn_status outcome
       ∧ tn_completedAt t = Some at_
       ∧ tn_attempts t !! tn_activeAttemptId t = Some a
       ∧ at_status a = settled_attempt_status outcome)
  ∧ ∀ outcome' at', decide_command s' (SettleTurn k outcome' at') = Success [].
Proof.
  intros Hr Hc Hd. assert (reachable (evolveAll s es)) as Hr'
    by (eapply reachable_step; [done|by constructor]).
  destruct (reachable_accepted s Hr) as [I Hb].
  destruct (reachable_accepted _ Hr') as [I' Hb'].
  past_guards Hd.
  destruct (turns_inv_current s k (si_turns s I) Hc) as (t & p & Ht & Hid & _ & Hao & _).
  destruct (settlement_effect s s k outcome at_ es t Hc Hb Ht Hid Hd)
    as (H1 & H2 & H3 & _ & _).
  pose proof (decide_accepted s (SettleTurn k outcome at_) es I Hb) as Hacc.
  assert (forallb keeps_live es = true) as Hk by by eapply settlement_keeps_live.
  cbn zeta. rewrite evolveAll_eq in *.
  assert (live (foldl evolve s es)) as Hlive'.
  { clear -Hexists Hdeleted Hk. assert (live s) as Hl by done. clear Hexists Hdeleted.
    revert s Hl Hk. induction es as [|e es IH]; intros s Hl Hk; [done|].
    cbn in *. apply andb_true_iff in Hk as [He Hk].
    apply IH; [by apply live_evolve|done]. }
  split; [done|]. split.
  { apply jm_get_all_None. intros id. apply eq_None_not_Some. intros [g Hg].
    apply (si_segments _ I') in Hg. congruence. }
  split. { apply boundary_no_successor; done. }
  split.
  { destruct (ao_all t Hao (Z.of_nat (size (tn_attempts t)))) as [a Ha].
    { pose proof (ao_size t Hao). lia. }
    rewrite <-(ao_active t Hao) in Ha.
    destruct (ao_each t Hao _ _ Ha) as (Haid & _).
    exists (settle_turn outcome at_ t), (settle_attempt outcome at_ a).
    split; [exact H3|]. unfold settle_turn. rewrite Ha.
    split_and!; try done. cbn. by rewrite Haid, lookup_insert_eq. }
  intros outcome' at'.
  destruct (proj2 (si_config _ I') (proj1 Hlive')) as [[sid' Hsid'] _].
  rewrite (decide_command_live _ sid') by done. cbn [decide_live].
  unfold decide_SettleTurn. rewrite decide_True by congruence.
  unfold not_current. by rewrite decide_True.
Qed.

(** Steering a queued turn into a running one hands it over exactly once: the
    queued turn leaves the queue, the current turn is being interrupted, and the
    settlement of that turn, whatever its outcome, reports the successor ready
    with the steered input as its last event and forgets it. *)
Theorem steer_hands_over s k queueId successor at_ es queued outcome at' :
  reachable s → st_currentTurnId s = Some k → st_queuedTurns s !! queueId = Some queued →
  decide_command s (SteerQueuedTurn k queueId successor at_) = Success es →
  let s' := evolveAll s es in
  st_queuedTurns s' !! queueId = None
  ∧ is_interrupting (st_currentTurnPhase s') = true
  ∧ ∃ es', decide_command s' (SettleTurn k outcome at') = Success es'
      ∧ last es' = Some (ScheduledSuccessorReady k successor queueId (qt_inputJson queued) at')
      ∧ st_scheduledSuccessor (evolveAll s' es') = None.
Proof.
  intros Hr Hc Hq Hd. assert (reachable (evolveAll s es)) as Hr'
    by (eapply reachable_step; [done|by constructor]).
  destruct (reachable_accepted s Hr) as [I Hb].
  destruct (reachable_accepted _ Hr') as [I' Hb'].
  past_guards Hd. unfold decide_SteerQueuedTurn, success in Hd.
  rewrite decide_False in Hd by (intros Hn; by apply Hn). rewrite Hq in Hd.
  destruct (turns_inv_current s k (si_turns s I) Hc) as (t & p & Ht & Hid & _ & _ & _ & Hp & _).
  rewrite evolveAll_eq in *. cbn zeta.
  assert (∃ q, foldl evolve s es = evolve q (SuccessorTurnScheduled k successor queueId
            (qt_inputJson queued) at_)
          ∧ st_queuedTurns q !! queueId = None ∧ st_currentTurnId q = Some k
          ∧ st_exists q = true ∧ st_deleted q = false ∧ st_sessionId q = Some sid
          ∧ is_interrupting (st_currentTurnPhase q) = true) as (q & Heq & Hq1 & Hq2 & Hq3).
  { injection Hd as <-. cbn [app]. destruct (is_interrupting (st_currentTurnPhase s)) eqn:Hi.
    - eexists. split; [reflexivity|]. cbn. by rewrite lookup_delete_eq.
    - eexists. split; [reflexivity|]. unfold evolve, evolve_TurnPhaseEvent, withTurnPhase.
      cbn. rewrite Ht. cbn. rewrite decide_True by done. cbn. by rewrite lookup_delete_eq. }
  rewrite Heq in *. destruct Hq3 as (Hx & Hdel & Hsid & Hi).
  split; [exact Hq1|]. split; [exact Hi|].
  set (s' := evolve q _) in *.
  assert (st_currentTurnId s' = Some k) as Hc' by exact Hq2.
  destruct (settle_current s' k outcome at' Hc') as [es' Hes'].
  assert (decide_command s' (SettleTurn k outcome at') = Success es') as Hd'.
  { by rewrite (decide_command_live s' sid) by done. }
  exists es'. split; [done|].
  destruct (decide_SettleTurn_events s' k outcome at' es' Hc' Hb' Hes')
    as (status & ready & -> & Hready).
  cbn in Hready. destruct Hready as [-> _].
  split; [by rewrite app_assoc, last_snoc|].
  rewrite evolveAll_eq, foldl_app, foldl_app. cbn. reflexivity.
Qed.

Definition removes_message (id : string) (e : SessionEvent) : bool :=
  match e with
  | TurnsRolledBack _ _ _ removedIds _ => bool_decide (id ∈ removedIds)
  | _ => false
  end.
Definition checkpoint_advances (ck ck' : MessageCheckpointState) : Prop :=
  ck' = ck ∨ ck_final ck = false ∧ num_Z (ck_revision ck) < num_Z (ck_revision ck').

Lemma checkpoint_event s e id ck :
  SessionInvariant s → legal s e → removes_message id e = false →
  st_messageCheckpoints s !! id = Some ck →
  ∃ ck', st_messageCheckpoints (evolve s e) !! id = Some ck' ∧ checkpoint_advances ck ck'.
Proof.
  intros I Hl Hrm Hck.
  assert (∃ ck', st_messageCheckpoints s !! id = Some ck' ∧ checkpoint_advances ck ck')
    as Hsame by (exists ck; split; [done|by left]).
  destruct e; cbn [legal] in Hl; try (destruct Hl as [_ Hl]);
    try (evolve_cases; exact Hsame).
  - cbn. rewrite foldl_delete_lookup, decide_False; [exact Hsame|].
    by apply bool_decide_eq_false in Hrm.
  - assert (∀ q, ∃ ck', match mf_checkpointRevision message with
       | Some revision => <[mf_messageId message := {| ck_revision := revision; ck_final := q |}]>
                            (st_messageCheckpoints s)
       | None => st_messageCheckpoints s
       end !! id = Some ck' ∧ checkpoint_advances ck ck') as Hm.
    { intros q. cbn [legal_live] in Hl.
      destruct (mf_checkpointRevision message) as [revision|]; [|exact Hsame].
      destruct Hl as (_ & Hs & _ & Hf).
      destruct (decide (mf_messageId message = id)) as [<-|Hne];
        [|rewrite lookup_insert_ne by done; exact Hsame].
      rewrite lookup_insert_eq. eexists. split; [done|]. right. rewrite Hck in Hf.
      destruct Hf as [Hfin Hle]. split; [done|].
      destruct (si_messages s I _ _ Hck) as (_ & Hs' & _).
      rewrite num_leb_int in Hle by by apply isSafeInteger_isInteger.
      apply Z.leb_gt in Hle. exact Hle. }
    evolve_cases; cbn; try exact (Hm (default false (mf_checkpointFinal message)));
      exact (Hm false).
Qed.

Lemma checkpoint_run s es id ck :
  SessionInvariant s → legal_run s es → existsb (removes_message id) es = false →
  st_messageCheckpoints s !! id = Some ck →
  ∃ ck', st_messageCheckpoints (foldl evolve s es) !! id = Some ck'
         ∧ checkpoint_advances ck ck'.
Proof.
  revert s ck. induction es as [|e es IH]; intros s ck I Hl Hrm Hck.
  - exists ck. split; [done|by left].
  - cbn in Hl, Hrm |- *. destruct Hl as [Hl Hrest]. apply orb_false_iff in Hrm as [He Hrm].
    destruct (checkpoint_event s e id ck I Hl He Hck) as (ck1 & Hck1 & Hadv).
    destruct (IH (evolve s e) ck1) as (ck2 & Hck2 & Hadv'); [|done..|].
    { by apply session_invariant_evolve. }
    exists ck2. split; [done|]. unfold checkpoint_advances in *.
    destruct Hadv as [->|[? ?]], Hadv' as [->|[? ?]]; auto.
    right. split; [done|lia].
Qed.

(** A message's checkpoint only moves forward: unless a rollback removes the
    message, the state after a command keeps its checkpoint, or holds a strictly
    larger revision of one that was not final. *)
Theorem checkpoint_monotone s c es s' id ck :
  reachable s → session_step s c es s' → existsb (removes_message id) es = false →
  st_messageCheckpoints s !! id = Some ck →
  ∃ ck', st_messageCheckpoints s' !! id = Some ck' ∧ checkpoint_advances ck ck'.
Proof.
  intros Hr [es' Hd] Hrm Hck. destruct (reachable_accepted s Hr) as [I Hb].
  rewrite evolveAll_eq. apply checkpoint_run; [done| |done|done].
  by apply (decide_accepted s c es').
Qed.

(** Stopping the provider names every attached or reserved provider session
    exactly once, releases the reservation, and changes nothing else. *)
Theorem provider_stop_releases s at_ es :
  decide_command s (RequestProviderStop at_) = Success es →
  NoDup es
  ∧ (∀ p q, ProviderStopRequested p q at_ ∈ es →
       st_attachedProviderId s = Some p ∧ st_attachedProviderSessionId s = q
       ∨ ∃ r, st_providerReservation s = Some r ∧ p = rs_providerId r
              ∧ q = Some (rs_providerSessionId r))
  ∧ (∀ p, st_attachedProviderId s = Some p →
       ∃ p', ProviderStopRequested p' (st_attachedProviderSessionId s) at_ ∈ es)
  ∧ (∀ r, st_providerReservation s = Some r →
       ProviderStopRequested (rs_providerId r) (Some (rs_providerSessionId r)) at_ ∈ es)
  ∧ evolveAll s es
    = s <| st_providerReservation := None |>
        <| st_version := st_version s + Z.of_nat (length es) |>.
Proof.
  intros Hd. past_guards Hd. injection Hd as <-. rewrite evolveAll_eq, providerStops_effect.
  unfold providerStops, providerStopTargets.
  destruct (st_attachedProviderId s) as [p|], (st_providerReservation s) as [r|];
    cbn [jm_set map]; try case_decide; cbn [map]; split_and!; try done;
    try (repeat constructor; set_solver);
    try (intros ? ? Hin; repeat (apply elem_of_cons in Hin as [Hin|Hin]); simplify_eq;
         eauto; by apply not_elem_of_nil in Hin);
    try (intros ? [= <-]; set_solver).
  intros r' [= <-]. match goal with Hs : _ = Some _ |- _ => rewrite Hs end. by left.
Qed.

Lemma binding_event s e a r :
  st_attemptProviderTurns s !! a = Some r →
  st_attemptProviderTurns (evolve s e) !! a = Some r.
Proof.
  intros Ha. destruct e; try (evolve_cases; exact Ha).
  unfold evolve, evolve_AttemptProviderTurnBound.
  destruct (_ ≫= _); [|exact Ha].
  destruct (st_attemptProviderTurns s !! bt_attemptId fields) eqn:Hb; [exact Ha|].
  cbn. rewrite lookup_insert_ne; [done|]. congruence.
Qed.

(** A native execution belongs to one attempt for good: once an attempt is
    bound to it every later state keeps the binding, and no other attempt is
    ever bound to it. *)
Theorem native_binding_permanent s c es s' a r :
  reachable s → session_step s c es s' → st_attemptProviderTurns s !! a = Some r →
  st_attemptProviderTurns s' !! a = Some r
  ∧ ∀ b, st_attemptProviderTurns s' !! b = Some r → b = a.
Proof.
  intros Hr Hstep Ha. assert (reachable s') as Hr' by by eapply reachable_step.
  destruct Hstep as [es' Hd]. destruct (reachable_accepted _ Hr') as [I' _].
  assert (st_attemptProviderTurns (evolveAll s es') !! a = Some r) as Ha'.
  { rewrite evolveAll_eq. clear Hd Hr' I'. revert s Hr Ha.
    assert (∀ s, st_attemptProviderTurns s !! a = Some r →
      st_attemptProviderTurns (foldl evolve s es') !! a = Some r) as Hgen.
    { induction es' as [|e es' IH]; intros s Ha; [done|]. by apply IH, binding_event. }
    intros s _. apply Hgen. }
  split; [done|]. intros b Hb. by eapply (si_bindings _ I').
Qed.

(** A deleted session is final: every command on it is refused, so no event
    follows its deletion. *)
Theorem deleted_is_final s c :
  reachable s → st_deleted s = true →
  decide_command s c = Failure SessionDeletedConflict
  ∨ decide_command s c = Failure SessionAlreadyExists.
Proof.
  intros Hr Hdel. destruct (reachable_accepted s Hr) as [I _].
  destruct (st_exists s) eqn:Hx.
  - destruct (proj2 (si_config s I) Hx) as [[sid Hsid] _].
    destruct c; cbn [decide_command]; unfold decide_CreateSession,
      decide_CreateSessionWithInitialTurn; rewrite ?Hx, ?Hsid, ?Hdel; auto.
  - by rewrite (proj1 (si_config s I) Hx) in Hdel.
Qed.

(** An interrupt receipt tells what the command does: "requested" names the
    current turn, whose phase is interrupting afterwards; "not-active" changes
    nothing; and repeating an interrupt is accepted and changes nothing. *)
Theorem interrupt_receipt_faithful s expected at_ es :
  reachable s → decide_command s (RequestTurnInterrupt expected at_) = Success es →
  let s' := evolveAll s es in
  match turnInterruptReceipt s expected with
  | receipt_requested k =>
      st_currentTurnId s' = Some k ∧ is_interrupting (st_currentTurnPhase s') = true
  | receipt_not_active reason _ actual =>
      es = [] ∧ actual = st_currentTurnId s
      ∧ (reason = no_active_turn ↔ st_currentTurnId s = None)
  end
  ∧ ∀ at', decide_command s' (RequestTurnInterrupt expected at') = Success [].
Proof.
  intros Hr Hd. destruct (reachable_accepted s Hr) as [I _]. rewrite evolveAll_eq.
  past_guards Hd. unfold decide_RequestTurnInterrupt, success in Hd. cbn zeta.
  assert (∀ q, live q → st_sessionId q = Some sid →
    (match turnInterruptReceipt q expected with
     | receipt_requested _ => is_interrupting (st_currentTurnPhase q) = true
     | receipt_not_active _ _ _ => True
     end) → ∀ at', decide_command q (RequestTurnInterrupt expected at') = Success []) as Hrepeat.
  { intros q Hlive Hsid Hq at'. rewrite (decide_command_live q sid) by done.
    cbn [decide_live]. unfold decide_RequestTurnInterrupt.
    destruct (turnInterruptReceipt q expected); [by rewrite Hq|done]. }
  unfold turnInterruptReceipt in *. destruct (st_currentTurnId s) as [k|] eqn:Hc.
  - case_decide as Hm.
    { injection Hd as <-. split; [done|]. apply Hrepeat; [done..|]. cbn. by rewrite Hc, decide_True. }
    destruct (is_interrupting (st_currentTurnPhase s)) eqn:Hi; injection Hd as <-.
    { split; [done|]. apply Hrepeat; [done..|]. cbn. by rewrite Hc, decide_False. }
    destruct (turns_inv_current s k (si_turns s I) Hc) as (t & p & Ht & _).
    assert (∃ q, foldl evolve s [TurnInterruptRequested k (Some (activeAttemptOr s k)) at_] = q
      ∧ st_currentTurnId q = Some k ∧ is_interrupting (st_currentTurnPhase q) = true
      ∧ live q ∧ st_sessionId q = Some sid) as (q & -> & Hq1 & Hq2 & Hq3 & Hq4).
    { eexists. split; [reflexivity|]. cbn [foldl]. unfold evolve, evolve_TurnPhaseEvent, withTurnPhase.
      rewrite Ht, decide_True by done. by cbn. }
    split; [done|]. apply Hrepeat; [done..|]. rewrite Hq1. by case_decide.
  - injection Hd as <-. split; [done|]. apply Hrepeat; [done..|]. cbn. by rewrite Hc.
Qed.

(** A rollback marks exactly the turns past the boundary as rolled back and
    lists them in its event, forgets the removed messages and their checkpoints,
    expires the pending permissions and unbinds the provider thread; ordinals are
    never reused, since the turn count stays. *)
Theorem rollback_exact s through seqn removedIds at_ es :
  reachable s → decide_command s (RollbackTurns through seqn removedIds at_) = Success es →
  let s' := evolveAll s es in
  (∀ k, jm_get k (st_turns s') = roll_back_turn through <$> jm_get k (st_turns s))
  ∧ (∃ ids, es = [TurnsRolledBack (Some ids) through seqn removedIds at_;
                  ActiveProviderThreadSet None at_]
      ∧ ∀ k, k ∈ ids ↔ ∃ t, jm_get k (st_turns s) = Some t
                            ∧ num_ltb through (num_of_Z (tn_ordinal t)) = true)
  ∧ (∀ id, id ∈ st_messageIds s' ↔ id ∈ st_messageIds s ∧ id ∉ removedIds)
  ∧ (∀ id, id ∈ removedIds → st_messageCheckpoints s' !! id = None)
  ∧ st_pendingPermissionIds s' = ∅
  ∧ st_pendingPermissionIds s ⊆ st_expiredPermissionIds s'
  ∧ st_activeProviderThreadId s' = None ∧ st_turnCount s' = st_turnCount s.
Proof.
  intros Hr Hd. destruct (reachable_accepted s Hr) as [I _]. rewrite evolveAll_eq.
  past_guards Hd. unfold decide_RollbackTurns, success in Hd.
  destruct (decide _); [discriminate|]. destruct (_ || _); [discriminate|].
  injection Hd as <-. cbn. split_and!; try done.
  - intros k. apply jm_get_update_all.
  - eexists. split; [reflexivity|]. intros k.
    rewrite list_elem_of_fmap. setoid_rewrite list_elem_of_filter.
    split.
    + intros (t & -> & Hlt & Hin). apply list_elem_of_fmap in Hin as ([k t'] & -> & Hin).
      apply jm_elem_get in Hin; [|apply (ti_wf _ _ _ _ (si_turns s I))].
      destruct (ti_turn _ _ _ _ (si_turns s I) _ _ Hin) as (Hid & _). cbn in *.
      exists t'. by rewrite Hid.
    + intros (t & Ht & Hlt). destruct (ti_turn _ _ _ _ (si_turns s I) _ _ Ht) as (Hid & _).
      exists t. split_and!; [done|done|]. apply jm_get_elem in Ht.
      apply list_elem_of_fmap. by exists (k, t).
  - intros id. rewrite elem_of_difference, elem_of_list_to_set. tauto.
  - intros id Hin. by rewrite foldl_delete_lookup, decide_True.
  - set_solver.
Qed.

(** Switching the provider happens only between turns with an empty queue,
    and leaves the session idle on the new provider and model, with no attached
    or reserved provider session and either the thread it resumes or none. *)
Theorem provider_switch_idle s resume expected p m at_ es :
  reachable s → decide_command s (SetProvider resume expected p m at_) = Success es →
  es ≠ [] →
  let s' := evolveAll s es in
  st_currentTurnId s = None ∧ st_queuedTurns s = ∅
  ∧ st_providerId s' = Some p ∧ st_model s' = Some m ∧ st_status s' = Some SS_idle
  ∧ st_currentTurnId s' = None
  ∧ st_attachedProviderId s' = None ∧ st_attachedProviderSessionId s' = None
  ∧ st_providerReservation s' = None
  ∧ st_activeProviderThreadId s' = resume
  ∧ ∀ id, resume = Some id →
      ∃ t, st_providerThreads s' !! id = Some t ∧ pt_provider t = p ∧ pt_status t = PT_idle.
Proof.
  intros Hr Hd Hne. destruct (reachable_accepted s Hr) as [I Hb]. rewrite evolveAll_eq.
  past_guards Hd. unfold decide_SwitchModel, success in Hd.
  destruct (_ && _); [congruence|]. destruct (decide (_ ∨ _)) as [|Hidle]; [discriminate|].
  destruct (switch_history_changed _ _) eqn:Hh; [discriminate|]. injection Hd as <-.
  assert (st_currentTurnId s = None) as Hc by (apply dec_stable; tauto).
  assert (st_queuedTurns s = ∅) as Hq by (apply dec_stable; tauto).
  cbn zeta. rewrite foldl_app, providerStops_effect, !foldl_app.
  match goal with |- context [modelSwitchMarker s ?to ?m ?a] =>
    pose proof (modelSwitchMarker_cases s to m a) as Hm;
    set (marker := modelSwitchMarker s to m a) in * end.
  set (s1 := s <| st_providerReservation := None |> <| st_version := _ |>).
  assert (∃ q, foldl evolve s1 marker = q ∧ st_currentTurnId q = None
    ∧ st_sessionId q = st_sessionId s ∧ st_providerThreads q = st_providerThreads s)
    as (q & -> & Hqc & Hqs & Hqt).
  { destruct Hm as [->|(msg & -> & _)]; [by eexists|].
    destruct (MessagePersisted_effect s1 msg) as (H1 & _ & _ & _ & _ & H2 & _ & H3).
    eexists. split; [reflexivity|]. cbn [foldl]. by rewrite H1, H2, H3. }
  clearbody marker. clear Hm marker Hne s1.
  cbn [foldl]. set (q1 := evolve q _).
  assert (st_currentTurnId q1 = None ∧ st_activeProviderThreadId q1 = None
    ∧ st_providerId q1 = Some p ∧ st_model q1 = Some m ∧ st_sessionId q1 = st_sessionId s
    ∧ st_attachedProviderId q1 = None ∧ st_attachedProviderSessionId q1 = None
    ∧ st_providerReservation q1 = None) as Hq1.
  { unfold q1, evolve, evolve_SessionProviderSet, retireActiveProviderThread.
    cbn. rewrite Hqs. by destruct (st_activeProviderThreadId q); cbn. }
  generalize dependent q1. intros q1 (H1 & H2 & H3 & H4 & H5 & H6 & H7 & H8).
  unfold switch_history_changed, switch_resumed in *. cbn [sw_resumeThreadId mbind option_bind sw_expectedProviderThreadId sw_providerId] in *.
  destruct resume as [id|]; cbn [mbind option_bind] in *.
  - destruct (st_providerThreads s !! id) as [t|] eqn:Ht; [|by rewrite orb_true_r in Hh].
    destruct (proj1 (si_threads s I) id t Ht) as [Hid Hp].
    apply orb_false_iff in Hh as [_ Hp'%negb_false_iff%bool_decide_eq_true].
    cbn [resume_events foldl app]. rewrite StatusSet_no_turn by exact H1.
    unfold evolve, evolve_ActiveProviderThreadSet, evolve_ProviderThreadUpdated. cbn.
    rewrite H5, Hid, (scope_id_of_prefix _ _ Hp). split_and!; try done.
    intros ? [= <-]. rewrite lookup_insert_eq. by eexists.
  - cbn [resume_events foldl app]. rewrite StatusSet_no_turn by exact H1. cbn.
    split_and!; try done.
Qed.

(** A permission is decided at most once, and an expired one only by denying
    it: an accepted decision was pending, and afterwards every decision on it is
    refused until it is requested again. *)
Theorem permission_resolved_once s id decision json at_ es :
  reachable s → decide_command s (ResolvePermission id decision json at_) = Success es →
  let s' := evolveAll s es in
  id ∈ st_pendingPermissionIds s
  ∧ (id ∈ st_expiredPermissionIds s → decision = "Deny")
  ∧ id ∉ st_pendingPermissionIds s' ∧ id ∉ st_expiredPermissionIds s'
  ∧ ∀ d j a, decide_command s' (ResolvePermission id d j a) = Failure (PermissionNotPending id).
Proof.
  intros Hr Hd. rewrite evolveAll_eq. past_guards Hd. unfold decide_ResolvePermission, success in Hd.
  destruct (decide (_ ∧ _)) as [Hg|]; [|discriminate]. injection Hd as <-.
  assert (id ∉ st_pendingPermissionIds (foldl evolve s [PermissionResolved id decision json at_]))
    as Hn by (cbn; unfold removed; set_solver).
  split_and!; [tauto|tauto|done|cbn; unfold removed; set_solver|].
  intros d j a. rewrite (decide_command_live _ sid) by done. cbn [decide_live].
  unfold decide_ResolvePermission. by rewrite decide_False by tauto.
Qed.

(** Steering another queued turn while a successor is already scheduled
    replaces it: the successor's queued turn, claimed when it was steered, does
    not return to the queue, and the settlement reports only the new one ready. *)
Theorem steer_again_replaces_successor s k queueId successor at_ es sc outcome at' es' :
  reachable s → st_currentTurnId s = Some k → st_scheduledSuccessor s = Some sc →
  st_queuedTurns s !! sc_queueId sc = None →
  decide_command s (SteerQueuedTurn k queueId successor at_) = Success es →
  decide_command (evolveAll s es) (SettleTurn k outcome at') = Success es' →
  let s' := evolveAll s es in
  sc_queueId sc ≠ queueId
  ∧ sc_queueId <$> st_scheduledSuccessor s' = Some queueId
  ∧ st_queuedTurns s' !! sc_queueId sc = None
  ∧ ∀ p t q i a, ScheduledSuccessorReady p t q i a ∈ es' → q = queueId.
Proof.
  intros Hr Hc Hsc Hgone Hd Hset. rewrite evolveAll_eq in *. cbn zeta.
  past_guards Hd. unfold decide_SteerQueuedTurn, success in Hd.
  rewrite decide_False in Hd by (intros Hn; by apply Hn).
  destruct (st_queuedTurns s !! queueId) as [queued|] eqn:Hq; [|discriminate].
  assert (sc_queueId sc ≠ queueId) as Hne by congruence.
  assert (∃ q, foldl evolve s es = evolve q (SuccessorTurnScheduled k successor queueId
            (qt_inputJson queued) at_)
          ∧ st_currentTurnId q = Some k
          ∧ st_queuedTurns q !! sc_queueId sc = None) as (q & Heq & Hqc & Hq1).
  { injection Hd as <-. case_match; eexists; (split; [reflexivity|]);
      unfold evolve, evolve_TurnPhaseEvent; cbn; by rewrite lookup_delete_ne. }
  rewrite Heq in *. split_and!; [done|done|exact Hq1|].
  intros p t q' i a Hin. past_guards Hset.
  unfold decide_SettleTurn, success in Hset.
  rewrite decide_False in Hset by (intros Hn; by apply Hn). injection Hset as <-.
  apply elem_of_app in Hin as [Hin|Hin].
  { apply list_elem_of_fmap in Hin as (kv & [=] & _). }
  do 2 apply elem_of_cons in Hin as [[=]|Hin].
  cbn in Hin. case_match; [|by apply not_elem_of_nil in Hin].
  by apply list_elem_of_singleton in Hin as [= -> -> -> -> ->].
Qed.
End reachable.

(** ** A concrete session *)

(** The events of a command, when it is accepted. *)
Definition events_of (s : SessionState) (c : SessionCommand) : list SessionEvent :=
  match decide_command s c with Success es => es | Failure _ => [] end.

Module demo.
(** A decoder that rejects every content, for the concrete runs below. *)
#[export] Instance reject_content : ContentCodec := λ _, None.

Definition created : SessionCreatedFields :=
  {| cr_delegation := None;
     cr_identity := {| id_sessionId := "s1"; id_chatId := "c1"; id_projectId := "p1";
                       id_createdAt := 10 |};
     cr_configuration :=
       {| cf_title := "demo"; cf_titleProvenance := Some NP_pending;
          cf_providerId := "claude"; cf_model := "opus"; cf_status := SS_idle;
          cf_cursor := None; cf_resumeStrategy := None;
          cf_runtimeMode := RM_approval_required; cf_agentsJson := None;
          cf_worktreeId := None; cf_forkedFromSessionId := None;
          cf_forkedFromMessageId := None; cf_permissionMode := PM_default;
          cf_toolSearch := false; cf_queuePaused := false |} |}.

Definition checkpoint (revision : Z) (final : bool) : MessageFields :=
  {| mf_inputOwner := None; mf_messageId := "m2"; mf_turnId := Some "t1";
     mf_role := "assistant"; mf_kind := "assistant"; mf_contentJson := "{}";
     mf_parentItemId := None; mf_checkpointRevision := Some (num_of_Z revision);
     mf_checkpointFinal := Some final; mf_createdAt := 20 |}.

(** A session whose first turn runs, with an open segment, a queued turn, a
    pending permission, a bound native turn, an attached provider session and a
    streamed message. *)
Definition running : SessionState :=
  run_commands initialSessionState
    [ CreateSessionWithInitialTurn created None None "t1" "m1" "{}" "{}";
      ReserveProviderSession (Some {| ar_turnId := "t1"; ar_attemptId := attemptIdFor "t1" 1 |})
        None None "claude" "ps1" 11;
      AttachProvider "claude" (Some "ps1") 12;
      SetStatus SS_running 13;
      BindAttemptProviderTurn
        {| bt_turnId := "t1"; bt_attemptId := attemptIdFor "t1" 1;
           bt_reference := {| ref_provider := "claude"; ref_nativeThreadId := "nt";
                              ref_nativeTurnId := "nn" |}; bt_boundAt := 14 |};
      OpenSegment "t1" "g1" SK_tool 15;
      EnqueueTurn "q1" "input" 0 16 true;
      RequestPermission None "perm" "t1" "{}" 17;
      PersistMessage (checkpoint 1 false) ].

Lemma running_reachable : reachable running.
Proof. apply run_commands_reachable, reachable_initial. Qed.

(** The same session after its turn settled and the queue was emptied. *)
Definition settled : SessionState :=
  run_commands running
    [SettleTurn "t1" TSO_completed 30; RemoveQueuedTurn "q1" 31; RequestProviderStop 32;
     DetachProvider 33 None].
Lemma settled_reachable : reachable settled.
Proof. apply run_commands_reachable, running_reachable. Qed.

Definition deleted : SessionState := run_commands settled [DeleteSession 40].
Lemma deleted_reachable : reachable deleted.
Proof. apply run_commands_reachable, settled_reachable. Qed.
End demo.
Import demo.

Lemma session_invariants_reachable_witness : SessionInvariant running ∧ boundary running.
Proof. apply (session_invariants_reachable running). exact running_reachable. Defined.

Lemma decide_refines_legal_witness :
  legal_run running (events_of running (RetryTurn "t1" RR_retry "{}" None 20)).
Proof.
  apply (decide_refines_legal running (RetryTurn "t1" RR_retry "{}" None 20));
    [exact running_reachable|vm_compute; reflexivity].
Defined.

(** Evaluates the hypotheses of a witness. *)
Ltac compute_hyp := vm_compute; reflexivity.

Lemma single_running_attempt_witness : st_currentTurnId running = Some "t1".
Proof.
  destruct (jm_get "t1" (st_turns running)) as [t|] eqn:Ht; [|vm_compute in Ht; discriminate Ht].
  destruct (tn_attempts t !! attemptIdFor "t1" 1) as [a|] eqn:Ha;
    [|vm_compute in Ht; injection Ht as <-; vm_compute in Ha; discriminate Ha].
  assert (at_status a = AS_running) as Hrun.
  { vm_compute in Ht. injection Ht as <-. vm_compute in Ha. injection Ha as <-. reflexivity. }
  destruct (single_running_attempt running "t1" t _ a "t1" t _ a running_reachable Ht Ha Hrun
              Ht Ha Hrun) as (_ & _ & Hc).
  exact Hc.
Defined.

Lemma retry_starts_next_attempt_witness :
  st_currentTurnId (evolveAll running
    (events_of running (RetryTurn "t1" RR_retry "{}" None 20))) = Some "t1".
Proof.
  destruct (retry_starts_next_attempt running "t1" RR_retry "{}" None 20
    (events_of running (RetryTurn "t1" RR_retry "{}" None 20)))
    as (t & t' & previous & _ & _ & _ & _ & _ & _ & Hc);
    [exact running_reachable|compute_hyp|exact Hc].
Defined.

Lemma expire_attempt_ends_attempt_witness :
  ∃ es, decide_command running (ExpireAttempt "t1" (attemptIdFor "t1" 1) 21) = Success es.
Proof.
  destruct (expire_attempt_ends_attempt running "t1" (attemptIdFor "t1" 1) 21)
    as (es & Hes & _); [exact running_reachable|split; compute_hyp|compute_hyp..|].
  exists es. exact Hes.
Defined.

Lemma settle_closes_turn_witness :
  let s' := evolveAll running (events_of running (SettleTurn "t1" TSO_error 22)) in
  st_openSegments s' = [] ∧ decide_command s' (SettleTurn "t1" TSO_completed 23) = Success [].
Proof.
  destruct (settle_closes_turn running "t1" TSO_error 22
    (events_of running (SettleTurn "t1" TSO_error 22))) as (_ & Hs & _ & _ & Hagain);
    [exact running_reachable|compute_hyp|compute_hyp|].
  split; [exact Hs|apply Hagain].
Defined.

Lemma steer_hands_over_witness :
  st_queuedTurns (evolveAll running (events_of running (SteerQueuedTurn "t1" "q1" "t2" 22)))
    !! "q1" = None.
Proof.
  destruct (st_queuedTurns running !! "q1") as [queued|] eqn:Hq;
    [|vm_compute in Hq; discriminate Hq].
  destruct (steer_hands_over running "t1" "q1" "t2" 22
    (events_of running (SteerQueuedTurn "t1" "q1" "t2" 22)) queued TSO_interrupted 23)
    as (Hgone & _); [exact running_reachable|compute_hyp|exact Hq|compute_hyp|exact Hgone].
Defined.

Lemma checkpoint_monotone_witness :
  ∃ ck, st_messageCheckpoints (evolveAll running
          (events_of running (PersistMessage (checkpoint 2 true)))) !! "m2" = Some ck.
Proof.
  destruct (checkpoint_monotone running (PersistMessage (checkpoint 2 true))
    (events_of running (PersistMessage (checkpoint 2 true)))
    (evolveAll running (events_of running (PersistMessage (checkpoint 2 true)))) "m2"
    {| ck_revision := num_of_Z 1; ck_final := false |}) as (ck & Hck & _);
    [exact running_reachable|constructor; compute_hyp|compute_hyp|compute_hyp|].
  exists ck. exact Hck.
Defined.

Lemma provider_stop_releases_witness : NoDup (events_of running (RequestProviderStop 25)).
Proof.
  apply (provider_stop_releases running 25 (events_of running (RequestProviderStop 25))).
  compute_hyp.
Defined.

Lemma native_binding_permanent_witness :
  st_attemptProviderTurns (evolveAll running (events_of running (ArchiveSession 26)))
    !! attemptIdFor "t1" 1
  = Some {| ref_provider := "claude"; ref_nativeThreadId := "nt"; ref_nativeTurnId := "nn" |}.
Proof.
  destruct (native_binding_permanent running (ArchiveSession 26)
    (events_of running (ArchiveSession 26))
    (evolveAll running (events_of running (ArchiveSession 26))) (attemptIdFor "t1" 1)
    {| ref_provider := "claude"; ref_nativeThreadId := "nt"; ref_nativeTurnId := "nn" |})
    as [Hb _]; [exact running_reachable|constructor; compute_hyp|compute_hyp|exact Hb].
Defined.

Lemma deleted_is_final_witness :
  decide_command deleted (UnarchiveSession 50) = Failure SessionDeletedConflict
  ∨ decide_command deleted (UnarchiveSession 50) = Failure SessionAlreadyExists.
Proof. apply (deleted_is_final deleted); [exact deleted_reachable|compute_hyp]. Defined.

Lemma interrupt_receipt_faithful_witness :
  decide_command (evolveAll running (events_of running (RequestTurnInterrupt (Some "t1") 27)))
    (RequestTurnInterrupt (Some "t1") 28) = Success [].
Proof.
  destruct (interrupt_receipt_faithful running (Some "t1") 27
    (events_of running (RequestTurnInterrupt (Some "t1") 27))) as (_ & Hr);
    [exact running_reachable|compute_hyp|apply Hr].
Defined.

Lemma rollback_exact_witness :
  st_turnCount (evolveAll settled
    (events_of settled (RollbackTurns (num_of_Z 0) (num_of_Z 0) ["m1"] 50)))
  = st_turnCount settled.
Proof.
  destruct (rollback_exact settled (num_of_Z 0) (num_of_Z 0) ["m1"] 50
    (events_of settled (RollbackTurns (num_of_Z 0) (num_of_Z 0) ["m1"] 50)))
    as (_ & _ & _ & _ & _ & _ & _ & Hc); [exact settled_reachable|compute_hyp|exact Hc].
Defined.

Lemma provider_switch_idle_witness :
  st_providerId (evolveAll settled
    (events_of settled (SetProvider None None "codex" "gpt" 50))) = Some "codex".
Proof.
  destruct (provider_switch_idle settled None None "codex" "gpt" 50
    (events_of settled (SetProvider None None "codex" "gpt" 50))) as (_ & _ & Hp & _);
    [exact settled_reachable|compute_hyp| |exact Hp].
  intros He. vm_compute in He. discriminate He.
Defined.

Lemma permission_resolved_once_witness :
  decide_command (evolveAll running (events_of running (ResolvePermission "perm" "Allow" None 29)))
    (ResolvePermission "perm" "Deny" None 30) = Failure (PermissionNotPending "perm").
Proof.
  destruct (permission_resolved_once running "perm" "Allow" None 29
    (events_of running (ResolvePermission "perm" "Allow" None 29))) as (_ & _ & _ & _ & Hf);
    [exact running_reachable|compute_hyp|apply Hf].
Defined.

(** ** Behaviours worth knowing *)

(** Reordering keeps repeated ids: a reorder that names a queued turn twice leaves
    it twice in [queueOrder]. *)
Lemma reorder_keeps_repetitions :
  st_queueOrder (run_commands running [ReorderQueuedTurns ["q1"; "q1"] 40]) = ["q1"; "q1"].
Proof. vm_compute. reflexivity. Qed.

Definition steered : SessionState :=
  run_commands running
    [EnqueueTurn "q2" "input2" 1 17 true; SteerQueuedTurn "t1" "q1" "t2" 41].

Lemma steer_again_replaces_successor_witness :
  let s' := evolveAll steered (events_of steered (SteerQueuedTurn "t1" "q2" "t3" 42)) in
  st_queuedTurns s' !! "q1" = None ∧ sc_queueId <$> st_scheduledSuccessor s' = Some "q2".
Proof.
  destruct (steer_again_replaces_successor steered "t1" "q2" "t3" 42
    (events_of steered (SteerQueuedTurn "t1" "q2" "t3" 42))
    {| sc_predecessorTurnId := "t1"; sc_turnId := "t2"; sc_queueId := "q1";
       sc_inputJson := "input" |} TSO_interrupted 43
    (events_of (evolveAll steered (events_of steered (SteerQueuedTurn "t1" "q2" "t3" 42)))
       (SettleTurn "t1" TSO_interrupted 43))) as (_ & Hs & Hq & _);
    [apply run_commands_reachable, running_reachable|compute_hyp..|].
  split; [exact Hq|exact Hs].
Defined.
