(* ===== verification/Dispatch.v ===== *)
(** * Command dispatch (packages/domain/src/engine/dispatch.ts,
    aggregate-dispatch.ts)

    A dispatch looks up the command's receipt, folds the stream's events, checks
    the ownership the caller claims, decides the command and appends its events
    with a receipt. The storage is an interface ([DispatchStorage] with its laws),
    implemented by the in-memory storage of the source ([MemoryStorage]). Event
    ids come from outside: [makeEventId] is a parameter that may fail. *)
From S2P Require Import Prelude Js JsMap Ids Contracts SessionTypes SessionState SessionDecider.

Local Open Scope Z_scope.

(** ** Data *)

Record StoredEvent (E : Type) := {
  se_eventId : string;
  se_correlationId : string;
  se_causationEventId : option string;
  se_streamId : string;
  se_streamVersion : Z;
  se_sequence : Z;
  se_event : E }.
Arguments Build_StoredEvent {E}.
Arguments se_eventId {E}.
Arguments se_correlationId {E}.
Arguments se_causationEventId {E}.
Arguments se_streamId {E}.
Arguments se_streamVersion {E}.
Arguments se_sequence {E}.
Arguments se_event {E}.

Record CommandReceiptIdentity := {
  ri_fingerprint : string;
  ri_commandKind : string;
  ri_schemaVersion : num;
  ri_storageIncarnationId : string }.

Record CommandReceipt := {
  cr_commandId : string;
  cr_streamId : string;
  cr_streamVersion : Z;
  cr_eventIds : list string;
  cr_result : option TurnInterruptReceipt;
  cr_receiptIdentity : option CommandReceiptIdentity }.

Record AttemptOwnership := {
  ow_requireUninterrupted : bool;
  ow_turnId : string;
  ow_attemptId : string }.

Record DispatchInput (C : Type) := {
  di_commandId : string;
  di_streamId : string;
  di_correlationId : option string;
  di_causationEventId : option string;
  di_receiptIdentity : option CommandReceiptIdentity;
  di_expectedAttempt : option AttemptOwnership;
  di_expectedProviderSessionId : option string;
  di_command : C }.
Arguments Build_DispatchInput {C}.
Arguments di_commandId {C}.
Arguments di_streamId {C}.
Arguments di_correlationId {C}.
Arguments di_causationEventId {C}.
Arguments di_receiptIdentity {C}.
Arguments di_expectedAttempt {C}.
Arguments di_expectedProviderSessionId {C}.
Arguments di_command {C}.

Record AppendInput (E : Type) := {
  ai_commandId : string;
  ai_streamId : string;
  ai_correlationId : string;
  ai_causationEventId : option string;
  ai_expectedVersion : Z;
  ai_events : list (string * E);
  ai_result : option TurnInterruptReceipt;
  ai_receiptIdentity : option CommandReceiptIdentity }.
Arguments Build_AppendInput {E}.
Arguments ai_commandId {E}.
Arguments ai_streamId {E}.
Arguments ai_correlationId {E}.
Arguments ai_causationEventId {E}.
Arguments ai_expectedVersion {E}.
Arguments ai_events {E}.
Arguments ai_result {E}.
Arguments ai_receiptIdentity {E}.

(** Failures of the storage, and of a dispatch; [D] is the aggregate's own error
    and [I] the error of [makeEventId]. *)
Inductive StorageFailure : Type :=
| ConcurrencyConflict (streamId : string) (expectedVersion actualVersion : Z)
| CommandReceiptConflict (commandId expectedStreamId actualStreamId : string)
| CommandReceiptIdentityConflict (commandId : string).
Inductive DispatchFailure (D I : Type) : Type :=
| DF_domain (e : D)
| DF_eventId (e : I)
| DF_storage (e : StorageFailure)
| AttemptOwnershipConflict (turnId expectedAttemptId : string) (actualAttemptId : option string)
| ProviderSessionOwnershipConflict (expectedProviderSessionId : string)
    (actualProviderSessionId : option string).
Arguments DF_domain {D I} e.
Arguments DF_eventId {D I} e.
Arguments DF_storage {D I} e.
Arguments AttemptOwnershipConflict {D I} _ _ _.
Arguments ProviderSessionOwnershipConflict {D I} _ _.

(** ** Receipts *)

Definition sameReceiptIdentity (l r : CommandReceiptIdentity) : bool :=
  bool_decide (ri_fingerprint l = ri_fingerprint r)
  && bool_decide (ri_commandKind l = ri_commandKind r)
  && num_eqb (ri_schemaVersion l) (ri_schemaVersion r)
  && bool_decide (ri_storageIncarnationId l = ri_storageIncarnationId r).

Definition validateCommandReceipt (commandId streamId : string)
    (identity : option CommandReceiptIdentity) (receipt : CommandReceipt)
    : result CommandReceipt StorageFailure :=
  if decide (cr_streamId receipt ≠ streamId) then
    Failure (CommandReceiptConflict commandId streamId (cr_streamId receipt))
  else
    match identity, cr_receiptIdentity receipt with
    | Some requested, Some recorded =>
        if sameReceiptIdentity requested recorded then Success receipt
        else Failure (CommandReceiptIdentityConflict commandId)
    | _, _ => Success receipt
    end.

(** ** The storage interface *)

Class DispatchStorage (S E : Type) := {
  ds_receipt : string → S → option CommandReceipt;
  ds_events : string → S → list (StoredEvent E);
  ds_append : AppendInput E → S → result CommandReceipt StorageFailure * S }.

(** The events and the receipt an accepted append adds. *)
Definition append_receipt {E} (input : AppendInput E) : CommandReceipt :=
  {| cr_commandId := ai_commandId input;
     cr_streamId := ai_streamId input;
     cr_streamVersion := ai_expectedVersion input + Z.of_nat (length (ai_events input));
     cr_eventIds := map fst (ai_events input);
     cr_result := ai_result input;
     cr_receiptIdentity := ai_receiptIdentity input |}.

(** What a storage promises, on the states [valid] selects: reads see what was
    appended, an append is refused when the command has a receipt or the stream
    moved, and an accepted one adds exactly its events and its receipt. *)
Class DispatchStorageLaws (S E : Type) `{DispatchStorage S E} (valid : S → Prop) := {
  dsl_versions s streamId i e : valid s →
    ds_events streamId s !! i = Some e →
    se_streamVersion e = Z.of_nat i + 1 ∧ se_streamId e = streamId;
  dsl_append_replay s (input : AppendInput E) receipt : valid s →
    ds_receipt (ai_commandId input) s = Some receipt →
    ds_append input s
    = (validateCommandReceipt (ai_commandId input) (ai_streamId input)
         (ai_receiptIdentity input) receipt, s);
  dsl_append_conflict s (input : AppendInput E) : valid s →
    ds_receipt (ai_commandId input) s = None →
    Z.of_nat (length (ds_events (ai_streamId input) s)) ≠ ai_expectedVersion input →
    ds_append input s
    = (Failure (ConcurrencyConflict (ai_streamId input) (ai_expectedVersion input)
                  (Z.of_nat (length (ds_events (ai_streamId input) s)))), s);
  dsl_append_new s (input : AppendInput E) : valid s →
    ds_receipt (ai_commandId input) s = None →
    Z.of_nat (length (ds_events (ai_streamId input) s)) = ai_expectedVersion input →
    ∃ s', ds_append input s = (Success (append_receipt input), s') ∧ valid s'
      ∧ (∀ id, ds_receipt id s'
               = if decide (ai_commandId input = id) then Some (append_receipt input)
                 else ds_receipt id s)
      ∧ (∀ streamId, ai_streamId input ≠ streamId → ds_events streamId s' = ds_events streamId s)
      ∧ ∃ added, ds_events (ai_streamId input) s' = ds_events (ai_streamId input) s ++ added
           ∧ map se_event added = map snd (ai_events input)
           ∧ map se_eventId added = map fst (ai_events input) }.

(** ** The in-memory storage *)

Record MemoryStore (E : Type) := {
  ms_eventLog : list (StoredEvent E);
  ms_receipts : gmap string CommandReceipt }.
Arguments Build_MemoryStore {E}.
Arguments ms_eventLog {E}.
Arguments ms_receipts {E}.

Section memory.
Context {E : Type}.

Definition emptyStore : MemoryStore E := {| ms_eventLog := []; ms_receipts := ∅ |}.

Definition eventsFor (streamId : string) (s : MemoryStore E) : list (StoredEvent E) :=
  filter (λ record, se_streamId record = streamId) (ms_eventLog s).

(** The loop of [append]: the log grows by one record per event. *)
Fixpoint push_events (input : AppendInput E) (streamVersion : Z)
    (log : list (StoredEvent E)) (events : list (string * E)) : Z * list (StoredEvent E) :=
  match events with
  | [] => (streamVersion, log)
  | (eventId, event) :: events =>
      let streamVersion := streamVersion + 1 in
      push_events input streamVersion
        (log ++
           [{| se_eventId := eventId;
               se_correlationId := ai_correlationId input;
               se_causationEventId := ai_causationEventId input;
               se_streamId := ai_streamId input;
               se_streamVersion := streamVersion;
               se_sequence := Z.of_nat (length log) + 1;
               se_event := event |}]) events
  end.

Definition memory_append (input : AppendInput E) (s : MemoryStore E)
    : result CommandReceipt StorageFailure * MemoryStore E :=
  match ms_receipts s !! ai_commandId input with
  | Some existing =>
      (validateCommandReceipt (ai_commandId input) (ai_streamId input)
         (ai_receiptIdentity input) existing, s)
  | None =>
      let actualVersion := Z.of_nat (length (eventsFor (ai_streamId input) s)) in
      if decide (actualVersion ≠ ai_expectedVersion input) then
        (Failure (ConcurrencyConflict (ai_streamId input) (ai_expectedVersion input)
                    actualVersion), s)
      else
        let '(streamVersion, log) :=
          push_events input (ai_expectedVersion input) (ms_eventLog s) (ai_events input) in
        let receipt :=
          {| cr_commandId := ai_commandId input;
             cr_streamId := ai_streamId input;
             cr_streamVersion := streamVersion;
             cr_eventIds := map fst (ai_events input);
             cr_result := ai_result input;
             cr_receiptIdentity := ai_receiptIdentity input |} in
        (Success receipt,
         {| ms_eventLog := log; ms_receipts := <[ai_commandId input := receipt]> (ms_receipts s) |})
  end.

#[export] Instance InMemoryDispatchStorage : DispatchStorage (MemoryStore E) E := {|
  ds_receipt id s := ms_receipts s !! id;
  ds_events := eventsFor;
  ds_append := memory_append |}.

(** What the log and the receipts always satisfy: records are numbered along the
    log and along their stream, and a receipt points at the records it made. *)
Record store_ok (s : MemoryStore E) : Prop := {
  so_sequence : ∀ i e, ms_eventLog s !! i = Some e → se_sequence e = Z.of_nat i + 1;
  so_version : ∀ streamId i e, eventsFor streamId s !! i = Some e →
    se_streamVersion e = Z.of_nat i + 1;
  so_receipt : ∀ id r, ms_receipts s !! id = Some r →
    cr_commandId r = id
    ∧ ∃ before after, eventsFor (cr_streamId r) s = before ++ after
      ∧ cr_streamVersion r = Z.of_nat (length before)
      ∧ ∃ older, map se_eventId before = older ++ cr_eventIds r }.

Lemma store_ok_empty : store_ok emptyStore.
Proof. constructor; cbn; intros *; by rewrite ?lookup_nil, ?lookup_empty. Qed.

(** The records [push_events] adds. *)
Fixpoint pushed (input : AppendInput E) (streamVersion : Z) (sequence : nat)
    (events : list (string * E)) : list (StoredEvent E) :=
  match events with
  | [] => []
  | (eventId, event) :: events =>
      {| se_eventId := eventId;
         se_correlationId := ai_correlationId input;
         se_causationEventId := ai_causationEventId input;
         se_streamId := ai_streamId input;
         se_streamVersion := streamVersion + 1;
         se_sequence := Z.of_nat sequence + 1;
         se_event := event |} :: pushed input (streamVersion + 1) (S sequence) events
  end.

Lemma push_events_pushed input v log events :
  push_events input v log events
  = (v + Z.of_nat (length events), log ++ pushed input v (length log) events).
Proof.
  revert v log. induction events as [|[id e] events IH]; intros v log; cbn [push_events pushed length].
  - by rewrite Z.add_0_r, app_nil_r.
  - rewrite IH. rewrite length_app, <-app_assoc. cbn [length app]. rewrite Nat.add_1_r.
    f_equal. lia.
Qed.

Lemma pushed_spec input v n events :
  map se_event (pushed input v n events) = map snd events
  ∧ map se_eventId (pushed input v n events) = map fst events
  ∧ length (pushed input v n events) = length events
  ∧ (∀ i e, pushed input v n events !! i = Some e →
       se_streamVersion e = v + Z.of_nat i + 1 ∧ se_sequence e = Z.of_nat (n + i) + 1
       ∧ se_streamId e = ai_streamId input).
Proof.
  revert v n. induction events as [|[id ev] events IH]; intros v n; cbn [pushed map length].
  - by split_and!.
  - destruct (IH (v + 1) (S n)) as (H1 & H2 & H3 & H4). rewrite H1, H2, H3.
    split_and!; try done. intros [|i] e; cbn; [intros [= <-]; cbn; split_and!; (lia || done)|].
    intros (Hv & Hs & Hst)%H4. split_and!; (lia || done).
Qed.

Lemma filter_pushed input v n events streamId :
  filter (λ record, se_streamId record = streamId) (pushed input v n events)
  = if decide (ai_streamId input = streamId) then pushed input v n events else [].
Proof.
  revert v n. induction events as [|[id ev] events IH]; intros v n; cbn [pushed].
  - by case_decide.
  - rewrite filter_cons. cbn. rewrite IH. by case_decide.
Qed.

(** The effect of an append that is neither a replay nor in conflict. *)
Lemma memory_append_new s input :
  ms_receipts s !! ai_commandId input = None →
  Z.of_nat (length (eventsFor (ai_streamId input) s)) = ai_expectedVersion input →
  memory_append input s
  = (Success (append_receipt input),
     {| ms_eventLog := ms_eventLog s
          ++ pushed input (ai_expectedVersion input) (length (ms_eventLog s)) (ai_events input);
        ms_receipts := <[ai_commandId input := append_receipt input]> (ms_receipts s) |}).
Proof.
  intros Hr Hv. unfold memory_append. rewrite Hr, decide_False by tauto.
  by rewrite push_events_pushed.
Qed.

Lemma eventsFor_append s input rs streamId :
  eventsFor streamId
    {| ms_eventLog := ms_eventLog s
         ++ pushed input (ai_expectedVersion input) (length (ms_eventLog s)) (ai_events input);
       ms_receipts := rs |}
  = eventsFor streamId s
    ++ (if decide (ai_streamId input = streamId)
        then pushed input (ai_expectedVersion input) (length (ms_eventLog s)) (ai_events input)
        else []).
Proof. unfold eventsFor. cbn. by rewrite filter_app, filter_pushed. Qed.

Lemma store_ok_append s input :
  store_ok s → ms_receipts s !! ai_commandId input = None →
  Z.of_nat (length (eventsFor (ai_streamId input) s)) = ai_expectedVersion input →
  store_ok (memory_append input s).2.
Proof.
  intros Hok Hr Hv. rewrite (memory_append_new s input Hr Hv). cbn [snd].
  destruct (pushed_spec input (ai_expectedVersion input) (length (ms_eventLog s))
    (ai_events input)) as (_ & Hids & Hlen & Hp).
  constructor; cbn [ms_eventLog ms_receipts].
  - intros i e. rewrite lookup_app_Some. intros [He|[Hi He]].
    + by eapply so_sequence.
    + destruct (Hp _ _ He) as (_ & -> & _). lia.
  - intros streamId i e. rewrite eventsFor_append, lookup_app_Some. intros [He|[Hi He]].
    + by eapply so_version.
    + case_decide as Hs; [|by rewrite lookup_nil in He]. subst streamId.
      destruct (Hp _ _ He) as (-> & _). lia.
  - intros id r. rewrite lookup_insert_Some. intros [[<- <-]|[_ Hid]].
    + split; [done|]. exists (eventsFor (ai_streamId input) s
        ++ pushed input (ai_expectedVersion input) (length (ms_eventLog s)) (ai_events input)), [].
      cbn [append_receipt cr_streamId cr_streamVersion cr_eventIds].
      rewrite eventsFor_append, decide_True, app_nil_r by done. split; [done|].
      split; [rewrite length_app, Hlen; lia|].
      exists (map se_eventId (eventsFor (ai_streamId input) s)). by rewrite map_app, Hids.
    + destruct (so_receipt s Hok id r Hid) as (? & before & after & Heq & Hn & Holder).
      split; [done|]. eexists before, _. rewrite eventsFor_append, Heq, <-app_assoc. done.
Qed.

#[export] Instance InMemoryDispatchStorageLaws :
  DispatchStorageLaws (MemoryStore E) E store_ok.
Proof.
  constructor; cbn.
  - intros s streamId i e Hok He. split; [by eapply so_version|].
    apply list_elem_of_lookup_2 in He. by apply list_elem_of_filter in He as [? _].
  - intros s input receipt Hok Hr. unfold memory_append. by rewrite Hr.
  - intros s input Hok Hr Hv. unfold memory_append. by rewrite Hr, decide_True.
  - intros s input Hok Hr Hv. eexists. split; [by apply memory_append_new|].
    split. { pose proof (store_ok_append s input Hok Hr Hv) as Hok'.
             by rewrite (memory_append_new s input Hr Hv) in Hok'. }
    split. { intros id. cbn. rewrite lookup_insert. done. }
    split. { intros streamId Hne. by rewrite eventsFor_append, decide_False, app_nil_r. }
    eexists. rewrite eventsFor_append, decide_True by done. split; [done|].
    by destruct (pushed_spec input (ai_expectedVersion input) (length (ms_eventLog s))
      (ai_events input)) as (? & ? & _).
Qed.
End memory.
