(* ===== verification/DispatchEngine.v ===== *)
(** * The dispatch engines (engine/dispatch.ts [DispatchEngine],
    engine/aggregate-dispatch.ts [AggregateDispatchEngine])

    A world is the storage with the state of the event id source. The engines run
    one dispatch of a stream at a time (their serial worker), so a dispatch is a
    function of the world; dispatches of other streams may commit between its
    reads and its append, which [prepare]/[commit] separate. *)
From S2P Require Import Prelude Js JsMap Ids Contracts SessionTypes SessionState SessionDecider Dispatch.

Local Open Scope Z_scope.

(** ** Event ids *)

Section ids.
Context {G I E : Type} (makeEventId : G → result string I * G).

(** [Effect.forEach(events, (event) => makeEventId().map(...))]: in order, up to
    the first failure. *)
Fixpoint with_event_ids (events : list E) (g : G) : result (list (string * E)) I * G :=
  match events with
  | [] => (Success [], g)
  | event :: events =>
      match makeEventId g with
      | (Failure e, g) => (Failure e, g)
      | (Success eventId, g) =>
          match with_event_ids events g with
          | (Failure e, g) => (Failure e, g)
          | (Success rest, g) => (Success ((eventId, event) :: rest), g)
          end
      end
  end.

Lemma with_event_ids_events events g items g' :
  with_event_ids events g = (Success items, g') → map snd items = events.
Proof.
  revert g items g'. induction events as [|e events IH]; intros g items g'; cbn.
  - by intros [= <- _].
  - destruct (makeEventId g) as [[id|err] g1]; [|discriminate].
    destruct (with_event_ids events g1) as [[rest|err] g2] eqn:Hr; [|discriminate].
    intros [= <- _]. cbn. f_equal. by eapply IH.
Qed.
End ids.

(** ** Aggregates *)

Class Aggregate (State Command Event DomainErr : Type) := {
  ag_initialState : State;
  ag_version : State → Z;
  ag_evolveAll : State → list Event → State;
  ag_decide : State → Command → result (list Event) DomainErr }.

(** The version of a folded stream is its length. *)
Class AggregateLaws (State Command Event DomainErr : Type)
    `{Aggregate State Command Event DomainErr} :=
  ag_version_length (events : list Event) :
    ag_version (ag_evolveAll ag_initialState events) = Z.of_nat (length events).

Section append_input.
Context {C E : Type}.

Definition append_input (input : DispatchInput C) (version : Z) (events : list (string * E))
    (receiptResult : option TurnInterruptReceipt) : AppendInput E :=
  {| ai_commandId := di_commandId input;
     ai_streamId := di_streamId input;
     ai_correlationId := default (di_commandId input) (di_correlationId input);
     ai_causationEventId := di_causationEventId input;
     ai_expectedVersion := version;
     ai_events := events;
     ai_result := receiptResult;
     ai_receiptIdentity := di_receiptIdentity input |}.

Definition lift_storage {A D I} (r : result A StorageFailure) : result A (DispatchFailure D I) :=
  match r with Success a => Success a | Failure e => Failure (DF_storage e) end.
End append_input.

(** What a dispatch decided before it commits: an answer, or an append. *)
Inductive Prepared (E D I : Type) : Type :=
| P_answer (answer : result CommandReceipt (DispatchFailure D I))
| P_append (input : AppendInput E).
Arguments P_answer {E D I} answer.
Arguments P_append {E D I} input.

Section commit.
Context {S E D I : Type} `{DispatchStorage S E}.

Definition commit (p : Prepared E D I) (s : S)
    : result CommandReceipt (DispatchFailure D I) * S :=
  match p with
  | P_answer answer => (answer, s)
  | P_append input => let '(r, s) := ds_append input s in (lift_storage r, s)
  end.
End commit.

Section aggregate_engine.
Context {State Command Event DomainErr : Type} `{Aggregate State Command Event DomainErr}.
Context {S : Type} `{DispatchStorage S Event}.
Context {G I : Type} (makeEventId : G → result string I * G).

Definition stream_state (streamId : string) (s : S) : State :=
  ag_evolveAll ag_initialState (map se_event (ds_events streamId s)).

(** [AggregateDispatchEngine.run] up to its append. *)
Definition aggregate_prepare (input : DispatchInput Command) (s : S) (g : G)
    : Prepared Event DomainErr I * G :=
  match ds_receipt (di_commandId input) s with
  | Some existing =>
      (P_answer (lift_storage (validateCommandReceipt (di_commandId input) (di_streamId input)
         (di_receiptIdentity input) existing)), g)
  | None =>
      let state := stream_state (di_streamId input) s in
      match ag_decide state (di_command input) with
      | Failure e => (P_answer (Failure (DF_domain e)), g)
      | Success decision =>
          match with_event_ids makeEventId decision g with
          | (Failure e, g) => (P_answer (Failure (DF_eventId e)), g)
          | (Success events, g) =>
              (P_append (append_input input (ag_version state) events None), g)
          end
      end
  end.

(** [AggregateDispatchEngine.run] *)
Definition aggregate_run (input : DispatchInput Command) (w : S * G)
    : result CommandReceipt (DispatchFailure DomainErr I) * (S * G) :=
  let '(prepared, g) := aggregate_prepare input w.1 w.2 in
  let '(answer, s) := commit prepared w.1 in
  (answer, (s, g)).
End aggregate_engine.

(** ** Sessions *)

(** Only existing tool work may append content after its application turn settles. *)
Definition providerToolReference (content : MessageContent) : option string :=
  match content with
  | MC_tool_result c => Some (tr_itemId c)
  | MC_subagent_summary c => Some (ss_itemId c)
  | MC_assistant _ _ parentItemId _ | MC_thinking _ _ parentItemId _ => parentItemId
  | MC_tool_use c => tu_parentItemId c
  | MC_subagent_progress c => Some (sp_parentId c)
  | _ => None
  end.

(** [event.turnId], for the events that have the key. *)
Definition event_turnId (event : SessionEvent) : option string :=
  match event with
  | TurnStarted turnId _ _ _ _ | AttemptStarted turnId _ _ _ _ _ _ _
  | ProviderRecoveryRequested turnId _ _ _ _ | ProviderTurnRequested turnId _ _ _ _
  | TurnFinalizationRequested turnId _ _ _ | TurnSettled turnId _ _
  | TurnInterruptRequested turnId _ _ | TurnInterruptAcknowledged turnId _
  | TurnInterruptFailed turnId _ _ | SuccessorTurnScheduled _ turnId _ _ _
  | ScheduledSuccessorReady _ turnId _ _ _ | SegmentOpened turnId _ _ _
  | SegmentSettled turnId _ _ _ | PermissionRequested _ _ turnId _ _ => Some turnId
  | AttemptProviderTurnBound fields => Some (bt_turnId fields)
  | MessagePersisted message => mf_turnId message
  | _ => None
  end.

Section session_engine.
Context `{ContentCodec}.

(** Is the event the persisted use of the tool [reference]? *)
Definition anchors_tool (reference : string) (event : SessionEvent) : bool :=
  match event with
  | MessagePersisted message =>
      bool_decide (mf_kind message = "tool_use")
      && match decodeMessageContent (mf_contentJson message) with
         | Some (MC_tool_use c) => bool_decide (tu_itemId c = reference)
         | _ => false
         end
  | _ => false
  end.
Definition starts_attempt (event : SessionEvent) : bool :=
  match event with
  | TurnStarted _ _ _ _ _ | AttemptStarted _ _ _ _ _ _ _ _ => true
  | _ => false
  end.

(** The backwards loop over the stream, on the reversed list of its events. *)
Fixpoint scan_tool_tail (turnId reference : string) (backwards : list SessionEvent) : bool :=
  match backwards with
  | [] => false
  | event :: older =>
      if decide (event_turnId event ≠ Some turnId) then scan_tool_tail turnId reference older
      else if starts_attempt event then false
      else if anchors_tool reference event then true
      else scan_tool_tail turnId reference older
  end.

Definition ownsTail (state : SessionState) (expected : AttemptOwnership)
    (command : SessionCommand) : bool :=
  match command with
  | BindProviderThread _ _ _ =>
      bool_decide (tn_ordinal <$> jm_get (ow_turnId expected) (st_turns state)
                   = Some (st_turnCount state))
  | _ => false
  end.

Definition ownsToolTail (state : SessionState) (stored : list SessionEvent)
    (expected : AttemptOwnership) (expectedProviderSessionId : option string)
    (command : SessionCommand) : bool :=
  match expectedProviderSessionId, jm_get (ow_turnId expected) (st_turns state), command with
  | Some _, Some turn, PersistMessage message =>
      if decide (tn_status turn = TS_completed ∧ tn_ordinal turn = st_turnCount state
                 ∧ mf_turnId message = Some (ow_turnId expected)) then
        match decodeMessageContent (mf_contentJson message) ≫= providerToolReference with
        | Some reference => scan_tool_tail (ow_turnId expected) reference (reverse stored)
        | None => false
        end
      else false
  | _, _, _ => false
  end.

(** The attempt that owns the write, [actual] of the source. *)
Definition owningAttempt (state : SessionState) (stored : list SessionEvent)
    (expected : AttemptOwnership) (expectedProviderSessionId : option string)
    (command : SessionCommand) : option string :=
  let turn := jm_get (ow_turnId expected) (st_turns state) in
  if (bool_decide (st_currentTurnId state = Some (ow_turnId expected))
      || ownsTail state expected command
      || ownsToolTail state stored expected expectedProviderSessionId command)
     && negb (st_deleted state) && negb (st_archived state)
     && (negb (ow_requireUninterrupted expected)
         || bool_decide (turn ≫= tn_phase = Some TP_running))
  then tn_activeAttemptId <$> turn
  else None.

Definition owningProviderSession (state : SessionState) : option string :=
  if st_deleted state || st_archived state then None
  else rs_providerSessionId <$> st_providerReservation state.

(** The two fences of [run]. *)
Definition check_ownership {I} (input : DispatchInput SessionCommand) (state : SessionState)
    (stored : list SessionEvent) : result () (DispatchFailure DomainError I) :=
  let provider_fence :=
    match di_expectedProviderSessionId input with
    | Some expected =>
        let actual := owningProviderSession state in
        if decide (actual ≠ Some expected)
        then Failure (ProviderSessionOwnershipConflict expected actual) else Success ()
    | None => Success ()
    end in
  _ ←! provider_fence;
  match di_expectedAttempt input with
  | Some expected =>
      let actual := owningAttempt state stored expected (di_expectedProviderSessionId input)
                      (di_command input) in
      if decide (actual ≠ Some (ow_attemptId expected))
      then Failure (AttemptOwnershipConflict (ow_turnId expected) (ow_attemptId expected) actual)
      else Success ()
  | None => Success ()
  end.

Context {S : Type} `{DispatchStorage S SessionEvent}.
Context {G I : Type} (makeEventId : G → result string I * G).

Definition session_events (streamId : string) (s : S) : list SessionEvent :=
  map se_event (ds_events streamId s).
Definition session_state (streamId : string) (s : S) : SessionState :=
  evolveAll initialSessionState (session_events streamId s).

Definition interrupt_result (state : SessionState) (command : SessionCommand)
    : option TurnInterruptReceipt :=
  match command with
  | RequestTurnInterrupt expectedTurnId _ => Some (turnInterruptReceipt state expectedTurnId)
  | _ => None
  end.

(** [DispatchEngine.run] up to its append. *)
Definition session_prepare (input : DispatchInput SessionCommand) (s : S) (g : G)
    : Prepared SessionEvent DomainError I * G :=
  let replay existing :=
    P_answer (lift_storage (validateCommandReceipt (di_commandId input) (di_streamId input)
      (di_receiptIdentity input) existing)) in
  let fenced := bool_decide (is_Some (di_expectedAttempt input)
                             ∨ is_Some (di_expectedProviderSessionId input)) in
  match ds_receipt (di_commandId input) s, fenced with
  | Some existing, false => (replay existing, g)
  | existing, _ =>
      let stored := session_events (di_streamId input) s in
      let state := session_state (di_streamId input) s in
      match check_ownership input state stored with
      | Failure e => (P_answer (Failure e), g)
      | Success _ =>
          match existing with
          | Some existing => (replay existing, g)
          | None =>
              match decide_command state (di_command input) with
              | Failure e => (P_answer (Failure (DF_domain e)), g)
              | Success decision =>
                  match with_event_ids makeEventId decision g with
                  | (Failure e, g) => (P_answer (Failure (DF_eventId e)), g)
                  | (Success events, g) =>
                      (P_append (append_input input (st_version state) events
                                   (interrupt_result state (di_command input))), g)
                  end
              end
          end
      end
  end.

(** [DispatchEngine.run] *)
Definition session_run (input : DispatchInput SessionCommand) (w : S * G)
    : result CommandReceipt (DispatchFailure DomainError I) * (S * G) :=
  let '(prepared, g) := session_prepare input w.1 w.2 in
  let '(answer, s) := commit prepared w.1 in
  (answer, (s, g)).
End session_engine.
