(* ===== verification/DispatchProps.v ===== *)
(** * What dispatch guarantees

    Proved against the storage interface, so they hold of every storage that
    satisfies [DispatchStorageLaws]; the last section instantiates them with the
    in-memory storage. *)
From S2P Require Import Prelude Js JsMap Ids Contracts SessionTypes SessionState SessionDecider SessionProps Dispatch DispatchEngine.

Local Open Scope Z_scope.

(** ** Storage *)

Section storage.
Context {S E : Type} `{DispatchStorage S E} {valid : S → Prop}.
Context {Hlaws : DispatchStorageLaws S E valid}.

(** An append replays, conflicts, or adds its events and receipt. *)
Lemma append_cases s (input : AppendInput E) : valid s →
  (∃ receipt, ds_receipt (ai_commandId input) s = Some receipt
     ∧ ds_append input s = (validateCommandReceipt (ai_commandId input) (ai_streamId input)
                              (ai_receiptIdentity input) receipt, s))
  ∨ (ds_receipt (ai_commandId input) s = None
     ∧ Z.of_nat (length (ds_events (ai_streamId input) s)) ≠ ai_expectedVersion input
     ∧ ds_append input s = (Failure (ConcurrencyConflict (ai_streamId input)
          (ai_expectedVersion input) (Z.of_nat (length (ds_events (ai_streamId input) s)))), s))
  ∨ (ds_receipt (ai_commandId input) s = None
     ∧ Z.of_nat (length (ds_events (ai_streamId input) s)) = ai_expectedVersion input
     ∧ ∃ s', ds_append input s = (Success (append_receipt input), s') ∧ valid s'
      ∧ (∀ id, ds_receipt id s'
               = if decide (ai_commandId input = id) then Some (append_receipt input)
                 else ds_receipt id s)
      ∧ (∀ streamId, ai_streamId input ≠ streamId → ds_events streamId s' = ds_events streamId s)
      ∧ map se_event (ds_events (ai_streamId input) s')
        = map se_event (ds_events (ai_streamId input) s) ++ map snd (ai_events input)).
Proof.
  intros Hv. destruct (ds_receipt (ai_commandId input) s) as [receipt|] eqn:Hr.
  { left. exists receipt. split; [done|]. by apply dsl_append_replay. }
  right. destruct (decide (Z.of_nat (length (ds_events (ai_streamId input) s))
                           = ai_expectedVersion input)) as [Hl|Hl].
  - right. split_and!; [done|done|].
    destruct (dsl_append_new s input Hv Hr Hl)
      as (s' & Ha & Hv' & Hrs & Hst & added & Hev & Hsnd & _).
    exists s'. split_and!; try done. by rewrite Hev, map_app, Hsnd.
  - left. split_and!; [done|done|]. by apply dsl_append_conflict.
Qed.

Lemma append_valid s (input : AppendInput E) : valid s → valid (ds_append input s).2.
Proof.
  intros Hv. destruct (append_cases s input Hv)
    as [(r & _ & ->)|[(_ & _ & ->)|(_ & _ & s' & -> & ? & _)]]; done.
Qed.

Lemma append_failure s (input : AppendInput E) e s' : valid s →
  ds_append input s = (Failure e, s') → s' = s.
Proof.
  intros Hv. destruct (append_cases s input Hv)
    as [(r & _ & ->)|[(_ & _ & ->)|(_ & _ & s1 & -> & ? & _)]];
    [by intros [= _ <-]|by intros [= _ <-]|by intros [=]].
Qed.

(** Appends to other streams, by other dispatches. *)
Definition other_append (streamId : string) (s s' : S) : Prop :=
  ∃ input : AppendInput E, ai_streamId input ≠ streamId ∧ s' = (ds_append input s).2.

Lemma other_appends_events streamId s s' :
  valid s → rtc (other_append streamId) s s' →
  valid s' ∧ ds_events streamId s' = ds_events streamId s.
Proof.
  intros Hv Hrtc. induction Hrtc as [|s s1 s' (input & Hne & ->) _ IH]; [done|].
  destruct IH as [Hv' Heq]; [by apply append_valid|]. split; [done|]. rewrite Heq.
  destruct (append_cases s input Hv) as [(r & _ & ->)|[(_ & _ & ->)|(_ & _ & s1 & -> & _ & _ & Hst & _)]];
    [done|done|by apply Hst].
Qed.

Lemma validate_Success commandId streamId identity receipt r :
  validateCommandReceipt commandId streamId identity receipt = Success r → r = receipt.
Proof.
  unfold validateCommandReceipt. case_decide; [done|].
  repeat case_match; by intros [= <-].
Qed.

Lemma validate_not_conflict commandId streamId identity receipt a b c :
  validateCommandReceipt commandId streamId identity receipt
  ≠ Failure (ConcurrencyConflict a b c).
Proof. unfold validateCommandReceipt. repeat case_match; done. Qed.

Lemma validate_own commandId streamId identity receipt :
  (∀ i, identity = Some i → num_eqb (ri_schemaVersion i) (ri_schemaVersion i) = true) →
  cr_streamId receipt = streamId → cr_receiptIdentity receipt = identity →
  validateCommandReceipt commandId streamId identity receipt = Success receipt.
Proof.
  intros Hnan Hs Hi. unfold validateCommandReceipt. rewrite decide_False by tauto. rewrite Hi.
  destruct identity as [i|]; [|done]. unfold sameReceiptIdentity.
  by rewrite !bool_decide_true, (Hnan i eq_refl) by done.
Qed.
End storage.

(** ** The tail of a turn *)

Section tail.
Context `{ContentCodec}.

(** The backwards scan for the tool of a late write finds it exactly when the
    stream holds a use of that tool in the turn, with no attempt of the turn
    started after it. *)
Theorem tool_tail_scan_spec turnId reference events :
  scan_tool_tail turnId reference (reverse events) = true
  ↔ ∃ before anchor after, events = before ++ anchor :: after
      ∧ event_turnId anchor = Some turnId ∧ anchors_tool reference anchor = true
      ∧ ∀ e, e ∈ after → event_turnId e = Some turnId → starts_attempt e = false.
Proof.
  assert (∀ e, anchors_tool reference e = true → starts_attempt e = false) as Hdisj
    by by intros [].
  induction events as [|e events IH] using rev_ind.
  { cbn. split; [done|]. by intros ([] & ? & ? & [=] & _). }
  rewrite reverse_snoc. cbn [scan_tool_tail]. split.
  - intros Hscan. case_decide as Ht.
    { apply IH in Hscan as (b & a & af & -> & Ha & Hanc & Hafter).
      exists b, a, (af ++ [e]). split; [by rewrite <-app_assoc|]. split_and!; [done|done|].
      intros e' [He'|He']%elem_of_app Hte'; [by apply Hafter|].
      apply list_elem_of_singleton in He' as ->. by destruct Ht. }
    destruct (starts_attempt e) eqn:Hst; [done|].
    destruct (anchors_tool reference e) eqn:Hanc.
    { exists events, e, []. split_and!; [done|done|done|]. intros e' He'. by apply not_elem_of_nil in He'. }
    apply IH in Hscan as (b & a & af & -> & Ha & Hanc' & Hafter).
    exists b, a, (af ++ [e]). split; [by rewrite <-app_assoc|]. split_and!; [done|done|].
    intros e' [He'|He']%elem_of_app Hte'; [by apply Hafter|].
    by apply list_elem_of_singleton in He' as ->.
  - intros (b & a & af & Heq & Ha & Hanc & Hafter).
    destruct af as [|x af _] using rev_ind.
    + apply app_inj_tail in Heq as [<- <-]. rewrite decide_False by (intros Hn; by apply Hn).
      by rewrite (Hdisj _ Hanc), Hanc.
    + rewrite app_comm_cons, app_assoc in Heq. apply app_inj_tail in Heq as [-> <-].
      assert (scan_tool_tail turnId reference (reverse (b ++ a :: af)) = true) as Hr.
      { apply IH. exists b, a, af. split_and!; [done|done|done|]. intros e' He'. apply Hafter. set_solver. }
      case_decide as Ht; [done|].
      rewrite (Hafter e) by (set_solver || done). by rewrite Hr; case_match.
Qed.
End tail.

(** ** Sessions *)

Section sessions.
Context `{ContentCodec}.
Context {S : Type} `{DispatchStorage S SessionEvent} {valid : S → Prop}.
Context {Hlaws : DispatchStorageLaws S SessionEvent valid}.
Context {G I : Type} (makeEventId : G → result string I * G).

Notation run := (session_run makeEventId).

Lemma session_version streamId (s : S) :
  st_version (session_state streamId s) = Z.of_nat (length (ds_events streamId s)).
Proof.
  unfold session_state, session_events. rewrite evolveAll_eq, SessionInv.foldl_evolve_version.
  cbn. by rewrite length_map.
Qed.

Definition fenced (input : DispatchInput SessionCommand) : Prop :=
  is_Some (di_expectedAttempt input) ∨ is_Some (di_expectedProviderSessionId input).

(** A dispatch answers from the receipt or with a failure, or prepares an append. *)
Lemma session_prepare_cases input (s : S) g :
  let state := session_state (di_streamId input) s in
  let stored := session_events (di_streamId input) s in
  (∃ answer g', session_prepare makeEventId input s g = (P_answer answer, g')
     ∧ (∀ r, answer = Success r →
          ds_receipt (di_commandId input) s = Some r
          ∧ validateCommandReceipt (di_commandId input) (di_streamId input)
              (di_receiptIdentity input) r = Success r
          ∧ (fenced input → check_ownership (I:=I) input state stored = Success ()))
     ∧ (∀ a b c, answer ≠ Failure (DF_storage (ConcurrencyConflict a b c))))
  ∨ (∃ events g', ds_receipt (di_commandId input) s = None
     ∧ check_ownership (I:=I) input state stored = Success ()
     ∧ decide_command state (di_command input) = Success (map snd events)
     ∧ session_prepare makeEventId input s g
       = (P_append (append_input input (st_version state) events
                      (interrupt_result state (di_command input))), g')).
Proof.
  cbn zeta. unfold session_prepare. fold (fenced input).
  set (state := session_state _ s). set (stored := session_events _ s).
  assert (∀ existing, ds_receipt (di_commandId input) s = Some existing →
    (fenced input → check_ownership (I:=I) input state stored = Success ()) →
    let answer := lift_storage (validateCommandReceipt (di_commandId input) (di_streamId input)
       (di_receiptIdentity input) existing) : result _ (DispatchFailure DomainError I) in
    (∀ r, answer = Success r →
          ds_receipt (di_commandId input) s = Some r
          ∧ validateCommandReceipt (di_commandId input) (di_streamId input)
              (di_receiptIdentity input) r = Success r
          ∧ (fenced input → check_ownership (I:=I) input state stored = Success ()))
     ∧ (∀ a b c, answer ≠ Failure (DF_storage (ConcurrencyConflict a b c)))) as Hreplay.
  { intros existing Hr Hf. cbn zeta. split.
    - intros r. destruct (validateCommandReceipt _ _ _ existing) eqn:Hval; [|done].
      intros [= <-]. pose proof (validate_Success _ _ _ _ _ Hval) as ->. done.
    - intros a b c. destruct (validateCommandReceipt _ _ _ existing) eqn:Hval; [done|].
      intros [= ->]. by apply validate_not_conflict in Hval. }
  destruct (ds_receipt (di_commandId input) s) as [existing|] eqn:Hr.
  - case_bool_decide as Hf.
    + destruct (check_ownership input state stored) as [[]|e] eqn:Hown.
      * left. eexists _, _. split; [reflexivity|]. by apply Hreplay.
      * left. eexists _, _. split; [reflexivity|]. split; [done|]. intros a b c [= ->].
        unfold check_ownership in Hown. repeat case_match; simplify_eq.
    + left. eexists _, _. split; [reflexivity|]. by apply Hreplay.
  - destruct (check_ownership input state stored) as [[]|e] eqn:Hown.
    + destruct (decide_command state (di_command input)) as [decision|e] eqn:Hd.
      * destruct (with_event_ids makeEventId decision g) as [[events|e] g'] eqn:Hids.
        { right. eexists _, _. rewrite (with_event_ids_events _ _ _ _ _ Hids). done. }
        { left. by eexists _, _. }
      * left. by eexists _, _.
    + left. eexists _, _. split; [reflexivity|]. split; [done|]. intros a b c [= ->].
      unfold check_ownership in Hown. repeat case_match; simplify_eq.
Qed.

(** The append a dispatch prepared from [s], committed to a state of the storage
    in which only other streams moved. *)
Lemma prepared_append_commits input (s s1 : S) g a g' :
  valid s → rtc (other_append (di_streamId input)) s s1 →
  session_prepare makeEventId input s g = (P_append a, g') →
  ai_commandId a = di_commandId input ∧ ai_streamId a = di_streamId input
  ∧ ai_receiptIdentity a = di_receiptIdentity input
  ∧ ∀ x y z, (commit (D:=DomainError) (I:=I) (P_append a) s1).1
             ≠ Failure (DF_storage (ConcurrencyConflict x y z)).
Proof.
  intros Hv Hrtc Hp.
  destruct (session_prepare_cases input s g)
    as [(? & ? & Hp' & _)|(events & g1 & _ & _ & _ & Hp')]; rewrite Hp' in Hp; [done|].
  injection Hp as <- <-. split_and!; try done. intros x y z.
  destruct (other_appends_events (di_streamId input) s s1 Hv Hrtc) as [Hv1 Heq].
  cbn [commit]. set (a := append_input _ _ _ _).
  destruct (append_cases s1 a Hv1) as [(r & _ & ->)|[(_ & Hl & _)|(_ & _ & s' & -> & _)]].
  - cbn. destruct (validateCommandReceipt _ _ _ r) eqn:Hval; [done|].
    intros [= ->]. by apply validate_not_conflict in Hval.
  - exfalso. apply Hl. subst a. cbn. by rewrite Heq, session_version.
  - done.
Qed.

(** Dispatches of a stream run one at a time, so a dispatch never loses a
    version race: however many appends other streams made between its reads and
    its append, it does not fail with a concurrency conflict. *)
Theorem dispatch_never_conflicts input (s s1 : S) g prepared g' :
  valid s → rtc (other_append (di_streamId input)) s s1 →
  session_prepare makeEventId input s g = (prepared, g') →
  ∀ x y z, (commit prepared s1).1 ≠ Failure (DF_storage (ConcurrencyConflict x y z)).
Proof.
  intros Hv Hrtc Hp x y z. destruct prepared as [answer|a].
  - destruct (session_prepare_cases input s g) as [(? & ? & Hp' & _ & Hn)|(? & ? & _ & _ & _ & Hp')];
      rewrite Hp' in Hp; simplify_eq. apply Hn.
  - by apply (prepared_append_commits input s s1 g a g').
Qed.

(** One dispatch: its storage stays valid; a failure changes nothing; a success
    is the receipt of a replay, or the decided events appended with a new one. *)
Lemma session_run_cases input (s : S) g answer s' g' :
  valid s → run input (s, g) = (answer, (s', g')) →
  valid s'
  ∧ match answer with
    | Failure _ => s' = s
    | Success r =>
        (fenced input →
           check_ownership (I:=I) input (session_state (di_streamId input) s)
             (session_events (di_streamId input) s) = Success ())
        ∧ (s' = s ∧ ds_receipt (di_commandId input) s = Some r
           ∧ validateCommandReceipt (di_commandId input) (di_streamId input)
               (di_receiptIdentity input) r = Success r
           ∨ ds_receipt (di_commandId input) s = None
             ∧ cr_commandId r = di_commandId input ∧ cr_streamId r = di_streamId input
             ∧ cr_receiptIdentity r = di_receiptIdentity input
             ∧ cr_result r = interrupt_result (session_state (di_streamId input) s)
                               (di_command input)
             ∧ (∃ events, decide_command (session_state (di_streamId input) s)
                            (di_command input) = Success events
                 ∧ session_events (di_streamId input) s'
                   = session_events (di_streamId input) s ++ events
                 ∧ length (cr_eventIds r) = length events
                 ∧ cr_streamVersion r = st_version (session_state (di_streamId input) s')
                 ∧ ∀ other, other ≠ di_streamId input →
                     session_events other s' = session_events other s)
             ∧ ∀ id, ds_receipt id s'
                     = if decide (di_commandId input = id) then Some r else ds_receipt id s)
    end.
Proof.
  intros Hv Hrun. unfold session_run in Hrun. cbn [fst snd] in Hrun.
  destruct (session_prepare_cases input s g)
    as [(an & g1 & Hp & Hs & _)|(events & g1 & Hr & Hown & Hd & Hp)]; rewrite Hp in Hrun.
  - cbn [commit] in Hrun. injection Hrun as <- <- <-. split; [done|].
    destruct an as [r|e]; [|done]. destruct (Hs r eq_refl) as (H1 & H2 & H3). split; [done|]. by left.
  - cbn [commit] in Hrun. set (a := append_input _ _ _ _) in *.
    destruct (append_cases s a Hv) as [(r & Hr' & _)|[(_ & Hl & _)|(_ & Hl & s1 & Ha & Hv1 & Hrs & Hst & Hev)]].
    + exfalso. change (ai_commandId a) with (di_commandId input) in Hr'. congruence.
    + exfalso. apply Hl. subst a. cbn. by rewrite session_version.
    + rewrite Ha in Hrun. cbn in Hrun. injection Hrun as <- <- <-. split; [done|].
      split; [done|]. right. split_and!; try done. exists (map snd events).
      split_and!; try done.
      * cbn. by rewrite !length_map.
      * rewrite session_version. cbn [append_receipt cr_streamVersion ai_expectedVersion].
        apply (f_equal length) in Hev. rewrite length_app, !length_map in Hev.
        change (ai_streamId a) with (di_streamId input) in Hev, Hl. rewrite Hev.
        change (ai_expectedVersion a) with (st_version (session_state (di_streamId input) s)).
        rewrite session_version. subst a. cbn. lia.
      * intros other Hne. unfold session_events. by rewrite Hst.
Qed.

(** A command takes effect once: after a dispatch succeeded, dispatching the
    same command id on the same stream with the same receipt identity answers
    with the same receipt and leaves the storage and the id source untouched. *)
Theorem dispatch_idempotent input again (s : S) g receipt s' g' g2 :
  valid s → run input (s, g) = (Success receipt, (s', g')) →
  di_commandId again = di_commandId input → di_streamId again = di_streamId input →
  di_receiptIdentity again = di_receiptIdentity input →
  (∀ i, di_receiptIdentity input = Some i →
     num_eqb (ri_schemaVersion i) (ri_schemaVersion i) = true) →
  ¬ fenced again →
  run again (s', g2) = (Success receipt, (s', g2)).
Proof.
  intros Hv Hrun Hcmd Hstream Hid Hnan Hf.
  destruct (session_run_cases input s g _ s' g' Hv Hrun) as (Hv' & _ & Hcase).
  assert (ds_receipt (di_commandId input) s' = Some receipt
    ∧ validateCommandReceipt (di_commandId input) (di_streamId input)
        (di_receiptIdentity input) receipt = Success receipt) as [Hr Hval].
  { destruct Hcase as [(-> & Hr & Hval)|(_ & _ & Hst & Hi & _ & _ & Hrs)]; [done|].
    rewrite Hrs, decide_True by done. split; [done|]. by apply validate_own. }
  unfold session_run, session_prepare. cbn [fst snd]. rewrite Hcmd, Hr, Hstream, Hid.
  rewrite (bool_decide_eq_false_2 (is_Some (di_expectedAttempt again) ∨ _)) by exact Hf.
  rewrite Hval. done.
Qed.

(** A dispatch that claims an attempt succeeds, even as a replay, only while
    that attempt owns the write: it is the active attempt of its turn in a session
    that is neither deleted nor archived, and the turn is the current one unless
    the command closes the tail of the last turn. *)
Theorem dispatch_respects_attempt_owner input (s : S) g receipt s' g' expected :
  valid s → run input (s, g) = (Success receipt, (s', g')) →
  di_expectedAttempt input = Some expected →
  let state := session_state (di_streamId input) s in
  (∃ t, jm_get (ow_turnId expected) (st_turns state) = Some t
        ∧ tn_activeAttemptId t = ow_attemptId expected
        ∧ (ow_requireUninterrupted expected = true → tn_phase t = Some TP_running))
  ∧ st_deleted state = false ∧ st_archived state = false
  ∧ (st_currentTurnId state = Some (ow_turnId expected)
     ∨ ownsTail state expected (di_command input) = true
     ∨ ownsToolTail state (session_events (di_streamId input) s) expected
         (di_expectedProviderSessionId input) (di_command input) = true).
Proof.
  intros Hv Hrun He. cbn zeta.
  destruct (session_run_cases input s g _ s' g' Hv Hrun) as (_ & Hown & _).
  specialize (Hown (or_introl (ex_intro _ expected He))).
  unfold check_ownership in Hown. rewrite He in Hown.
  assert (owningAttempt (session_state (di_streamId input) s)
    (session_events (di_streamId input) s) expected (di_expectedProviderSessionId input)
    (di_command input) = Some (ow_attemptId expected)) as Ha.
  { destruct (match di_expectedProviderSessionId input with
                | Some _ => _ | None => Success () end) in Hown; [|done].
    cbn [result_bind] in Hown. case_decide as Ho; [done|exact Ho]. }
  clear Hown. unfold owningAttempt in Ha. case_match eqn:Hg; [|done].
  apply andb_true_iff in Hg as [Hg Hun]. apply andb_true_iff in Hg as [Hg Har].
  apply andb_true_iff in Hg as [Hg Hdel].
  apply fmap_Some in Ha as (t & Ht & Hatt). rewrite Ht in Hun.
  split; [exists t; split_and!; [done|done|]|].
  - intros Hreq. rewrite Hreq in Hun. cbn in Hun. by apply bool_decide_eq_true in Hun.
  - apply negb_true_iff in Hdel, Har. split_and!; [done|done|].
    apply orb_true_iff in Hg as [Hg|Hg]; [|by right; right].
    apply orb_true_iff in Hg as [Hg|Hg]; [|by right; left].
    left. by apply bool_decide_eq_true in Hg.
Qed.

(** A dispatch that claims a provider session succeeds only while the session
    holds exactly that reservation. *)
Theorem dispatch_respects_provider_owner input (s : S) g receipt s' g' ps :
  valid s → run input (s, g) = (Success receipt, (s', g')) →
  di_expectedProviderSessionId input = Some ps →
  let state := session_state (di_streamId input) s in
  st_deleted state = false ∧ st_archived state = false
  ∧ ∃ r, st_providerReservation state = Some r ∧ rs_providerSessionId r = ps.
Proof.
  intros Hv Hrun He. cbn zeta.
  destruct (session_run_cases input s g _ s' g' Hv Hrun) as (_ & Hown & _).
  specialize (Hown (or_intror (ex_intro _ ps He))).
  unfold check_ownership in Hown. rewrite He in Hown. cbn [result_bind] in Hown.
  case_decide as Ho; [done|].
  unfold owningProviderSession in Ho.
  destruct (st_deleted _); [done|]. destruct (st_archived _); [done|]. cbn in Ho.
  apply fmap_Some in Ho as (r & Hr & ->). split_and!; [done|done|]. by exists r.
Qed.

(** ** Worlds dispatches reach *)

Inductive dispatched : S → Prop :=
| dispatched_start s :
    valid s → (∀ streamId, ds_events streamId s = []) → dispatched s
| dispatched_run s input g answer s' g' :
    dispatched s → run input (s, g) = (answer, (s', g')) → dispatched s'.

Lemma dispatched_valid s : dispatched s → valid s.
Proof.
  induction 1 as [|s input g answer s' g' _ Hv Hrun]; [done|].
  by destruct (session_run_cases input s g answer s' g' Hv Hrun).
Qed.

(** C24: in every storage dispatches reach, each stream folds to a reachable state
    of a session, so the invariants of sessions hold of everything dispatched. *)
Theorem dispatched_streams_reachable s streamId :
  dispatched s → reachable (session_state streamId s).
Proof.
  intros Hs. induction Hs as [s _ Hempty|s input g answer s' g' Hs IH Hrun].
  { unfold session_state, session_events. rewrite Hempty. apply reachable_initial. }
  destruct (session_run_cases input s g answer s' g' (dispatched_valid s Hs) Hrun)
    as (_ & Hcase).
  destruct answer as [r|e]; [|by subst s'].
  destruct Hcase as [_ [(-> & _)|(_ & _ & _ & _ & _ & (events & Hd & Hev & _ & _ & Hother) & _)]];
    [done|].
  destruct (decide (streamId = di_streamId input)) as [->|Hne].
  - eapply reachable_step; [exact IH|].
    assert (session_state (di_streamId input) s'
      = evolveAll (session_state (di_streamId input) s) events) as ->.
    { unfold session_state. rewrite Hev, !evolveAll_eq. by rewrite foldl_app. }
    by constructor.
  - unfold session_state. by rewrite Hother.
Qed.
End sessions.

(** ** The in-memory engine on a concrete session *)

Import demo.
Module dispatch_demo.

Definition make_id (n : nat) : result string Empty_set * nat :=
  (Success ("e" +:+ pretty n), S n).

Definition input (commandId : string) (expected : option AttemptOwnership)
    (provider : option string) (command : SessionCommand) : DispatchInput SessionCommand :=
  {| di_commandId := commandId; di_streamId := "s1"; di_correlationId := None;
     di_causationEventId := None; di_receiptIdentity := None; di_expectedAttempt := expected;
     di_expectedProviderSessionId := provider; di_command := command |}.

Definition owner : AttemptOwnership :=
  {| ow_requireUninterrupted := true; ow_turnId := "t1"; ow_attemptId := attemptIdFor "t1" 1 |}.

Definition run_all (inputs : list (DispatchInput SessionCommand))
    (w : MemoryStore SessionEvent * nat) : MemoryStore SessionEvent * nat :=
  foldl (λ w i, (session_run make_id i w).2) w inputs.

Definition create : DispatchInput SessionCommand :=
  input "c1" None None
    (CreateSessionWithInitialTurn created None None "t1" "m1" "{}" "{}").
Definition reserve : DispatchInput SessionCommand :=
  input "c2" None None
    (ReserveProviderSession (Some {| ar_turnId := "t1"; ar_attemptId := attemptIdFor "t1" 1 |})
       None None "claude" "ps1" 11).
Definition persist : DispatchInput SessionCommand :=
  input "c3" (Some owner) (Some "ps1") (PersistMessage (checkpoint 1 false)).

Definition world : MemoryStore SessionEvent * nat := run_all [create; reserve] (emptyStore, 0%nat).

Lemma run_all_dispatched inputs w :
  dispatched (valid:=store_ok) make_id w.1 → dispatched (valid:=store_ok) make_id (run_all inputs w).1.
Proof.
  revert w. induction inputs as [|i inputs IH]; intros w Hw; [done|]. cbn. apply IH.
  destruct w as [s g]. cbn in Hw.
  destruct (session_run make_id i (s, g)) as [answer [s' g']] eqn:Hrun. cbn.
  by eapply dispatched_run.
Qed.
Lemma world_dispatched : dispatched (valid:=store_ok) make_id world.1.
Proof. apply run_all_dispatched, dispatched_start; [apply store_ok_empty|done]. Qed.
Lemma world_ok : store_ok world.1.
Proof. exact (dispatched_valid make_id _ world_dispatched). Qed.

(** The receipt of a dispatch that succeeds. *)
Definition receipt_of (i : DispatchInput SessionCommand) (w : MemoryStore SessionEvent * nat)
    : CommandReceipt :=
  match (session_run make_id i w).1 with
  | Success r => r
  | Failure _ => append_receipt (append_input i 0 ([] : list (string * SessionEvent)) None)
  end.

(** A tool use, a late result of another turn, and content that reads as the use. *)
Definition tool_content : ContentCodec := λ json,
  if decide (json = "tool i1")
  then Some (MC_tool_use {| tu_itemId := "i1"; tu_tool := "bash"; tu_input := JObj [];
                            tu_parentItemId := None; tu_backgroundTask := None;
                            tu_subagent := None |})
  else None.
Definition tool_stream : list SessionEvent :=
  [TurnStarted "t1" 1 (Some 1) None None;
   MessagePersisted (plain_message "m1" (Some "t1") "assistant" "tool_use" "tool i1" None 2);
   TurnSettled "t1" TSO_completed 3].
End dispatch_demo.
Import dispatch_demo.

Lemma tool_tail_scan_spec_witness :
  @scan_tool_tail tool_content "t1" "i1" (reverse tool_stream) = true.
Proof.
  apply (@tool_tail_scan_spec tool_content "t1" "i1" tool_stream).
  eexists [_], _, [_]. split; [reflexivity|]. split; [reflexivity|].
  split; [vm_compute; reflexivity|].
  intros e He _. apply list_elem_of_singleton in He as ->. reflexivity.
Defined.

Lemma dispatch_never_conflicts_witness :
  (∀ x y z, (commit (session_prepare make_id persist world.1 world.2).1 world.1).1
            ≠ Failure (DF_storage (ConcurrencyConflict x y z))) ∧ store_ok world.1.
Proof.
  split; [|exact world_ok].
  apply (dispatch_never_conflicts (valid:=store_ok) make_id persist world.1 world.1 world.2
    _ (session_prepare make_id persist world.1 world.2).2);
    [exact world_ok|apply rtc_refl|apply surjective_pairing].
Defined.

Lemma dispatch_idempotent_witness :
  let w := (session_run make_id persist world).2 in
  let again := input "c3" None None (PersistMessage (checkpoint 1 false)) in
  session_run make_id again (w.1, 7%nat) = (Success (receipt_of persist world), (w.1, 7%nat)).
Proof.
  apply (dispatch_idempotent (valid:=store_ok) make_id persist
    (input "c3" None None (PersistMessage (checkpoint 1 false))) world.1 world.2
    (receipt_of persist world) (session_run make_id persist world).2.1
    (session_run make_id persist world).2.2 7%nat world_ok);
    [vm_compute; reflexivity|reflexivity|reflexivity|reflexivity|intros i Hi; discriminate Hi|].
  intros [[x Hx]|[x Hx]]; discriminate Hx.
Defined.

Lemma dispatch_respects_attempt_owner_witness :
  st_archived (session_state "s1" world.1) = false.
Proof.
  destruct (dispatch_respects_attempt_owner (valid:=store_ok) make_id persist world.1 world.2
    (receipt_of persist world) (session_run make_id persist world).2.1
    (session_run make_id persist world).2.2 owner world_ok) as (_ & _ & Ha & _);
    [vm_compute; reflexivity|reflexivity|exact Ha].
Defined.

Lemma dispatch_respects_provider_owner_witness :
  ∃ r, st_providerReservation (session_state "s1" world.1) = Some r
       ∧ rs_providerSessionId r = "ps1".
Proof.
  destruct (dispatch_respects_provider_owner (valid:=store_ok) make_id persist world.1 world.2
    (receipt_of persist world) (session_run make_id persist world).2.1
    (session_run make_id persist world).2.2 "ps1" world_ok) as (_ & _ & Hr);
    [vm_compute; reflexivity|reflexivity|exact Hr].
Defined.

Lemma dispatched_streams_reachable_witness : reachable (session_state "s1" world.1).
Proof.
  apply (dispatched_streams_reachable (valid:=store_ok) make_id world.1 "s1").
  exact world_dispatched.
Defined.
