(* ===== verification/Chat.v ===== *)
(** * Chats (packages/domain/src/chat)

    A chat groups sessions; its aggregate keeps the title, the read marker, the
    worktree, the active session and the archive and delete flags. *)
From S2P Require Import Prelude Js Contracts Dispatch DispatchEngine.

Local Open Scope Z_scope.

(** ** Commands and events (commands.ts, events.ts) *)

Inductive ChatCommand : Type :=
| CreateChat (chatId projectId : string) (worktreeId : option string) (title : string)
    (titleProvenance : option NameProvenance) (originSessionId : option string)
    (lastReadAt : option Z) (createdAt : Z)
| RenameChat (title : string) (titleProvenance : option NameProvenance) (updatedAt : Z)
| MarkChatRead (readAt : Z)
| SetChatWorktree (worktreeId : option string) (updatedAt : Z)
| SetActiveSession (sessionId : option string) (updatedAt : Z)
| RequestArchiveChat (requestedAt : Z) (force : bool)
| ArchiveChat (archivedAt : Z) (archivedWorktreeJson : option string)
| RecordArchiveCheckpoint (archivedWorktreeJson : string) (recordedAt : Z)
| UnarchiveChat (unarchivedAt : Z) (worktreeId : option string)
| RequestDeleteChat (requestedAt : Z)
| DeleteChat (deletedAt : Z).

Inductive ChatEvent : Type :=
| ChatCreated (chatId projectId : string) (worktreeId : option string) (title : string)
    (titleProvenance : option NameProvenance) (originSessionId : option string)
    (lastReadAt : option Z) (createdAt : Z)
| ChatRenamed (title : string) (titleProvenance : option NameProvenance) (updatedAt : Z)
| ChatRead (readAt : Z)
| ChatWorktreeSet (worktreeId : option string) (updatedAt : Z)
| ChatActiveSessionSet (sessionId : option string) (updatedAt : Z)
| ChatLastMessageSet (messageAt : option Z)
| ChatArchiveRequested (requestedAt : Z) (force : option bool)
| ChatArchived (archivedAt : Z) (archivedWorktreeJson : option string)
| ChatArchiveCheckpointRecorded (archivedWorktreeJson : string) (recordedAt : Z)
| ChatUnarchived (unarchivedAt : Z) (worktreeId : option string)
| ChatDeleteRequested (requestedAt : Z)
| ChatDeleted (deletedAt : Z).

(** ** State (state.ts) *)

Record ChatState := {
  ch_exists : bool;
  ch_deleted : bool;
  ch_archived : bool;
  ch_archiveRequested : bool;
  ch_deleteRequested : bool;
  ch_chatId : option string;
  ch_projectId : option string;
  ch_worktreeId : option string;
  ch_title : option string;
  ch_titleProvenance : NameProvenance;
  ch_activeSessionId : option string;
  ch_originSessionId : option string;
  ch_lastReadAt : option Z;
  ch_lastMessageAt : option Z;
  ch_archivedWorktreeJson : option string;
  ch_version : Z }.
#[export] Instance settable_ChatState : Settable ChatState := λ c,
  Build_ChatState (ch_exists c) (ch_deleted c) (ch_archived c) (ch_archiveRequested c)
    (ch_deleteRequested c) (ch_chatId c) (ch_projectId c) (ch_worktreeId c) (ch_title c)
    (ch_titleProvenance c) (ch_activeSessionId c) (ch_originSessionId c) (ch_lastReadAt c)
    (ch_lastMessageAt c) (ch_archivedWorktreeJson c) (ch_version c).

Definition initialChatState : ChatState := {|
  ch_exists := false;
  ch_deleted := false;
  ch_archived := false;
  ch_archiveRequested := false;
  ch_deleteRequested := false;
  ch_chatId := None;
  ch_projectId := None;
  ch_worktreeId := None;
  ch_title := None;
  ch_titleProvenance := NP_manual;
  ch_activeSessionId := None;
  ch_originSessionId := None;
  ch_lastReadAt := None;
  ch_lastMessageAt := None;
  ch_archivedWorktreeJson := None;
  ch_version := 0 |}.

Definition evolveChat (state : ChatState) (event : ChatEvent) : ChatState :=
  let version := ch_version state + 1 in
  match event with
  | ChatCreated chatId projectId worktreeId title prov origin lastReadAt _ =>
      state <| ch_exists := true |>
            <| ch_chatId := Some chatId |>
            <| ch_projectId := Some projectId |>
            <| ch_worktreeId := worktreeId |>
            <| ch_title := Some title |>
            <| ch_titleProvenance := titleProvenanceOrManual prov |>
            <| ch_originSessionId := origin |>
            <| ch_lastReadAt := lastReadAt |>
            <| ch_version := version |>
  | ChatRenamed title prov _ =>
      state <| ch_title := Some title |>
            <| ch_titleProvenance := titleProvenanceOrManual prov |>
            <| ch_version := version |>
  | ChatRead readAt => state <| ch_lastReadAt := Some readAt |> <| ch_version := version |>
  | ChatWorktreeSet worktreeId _ =>
      state <| ch_worktreeId := worktreeId |> <| ch_version := version |>
  | ChatActiveSessionSet sessionId _ =>
      state <| ch_activeSessionId := sessionId |> <| ch_version := version |>
  | ChatLastMessageSet messageAt =>
      state <| ch_lastMessageAt := messageAt |> <| ch_version := version |>
  | ChatArchiveRequested _ _ =>
      state <| ch_archiveRequested := true |> <| ch_version := version |>
  | ChatArchived _ json =>
      state <| ch_archived := true |>
            <| ch_archiveRequested := false |>
            <| ch_archivedWorktreeJson := json |>
            <| ch_version := version |>
  | ChatArchiveCheckpointRecorded json _ =>
      state <| ch_archivedWorktreeJson := Some json |> <| ch_version := version |>
  | ChatUnarchived _ worktreeId =>
      state <| ch_archived := false |>
            <| ch_archiveRequested := false |>
            <| ch_worktreeId := worktreeId |>
            <| ch_archivedWorktreeJson := None |>
            <| ch_version := version |>
  | ChatDeleteRequested _ =>
      state <| ch_deleteRequested := true |> <| ch_version := version |>
  | ChatDeleted _ =>
      state <| ch_deleted := true |> <| ch_deleteRequested := false |>
            <| ch_version := version |>
  end.

Definition evolveChats (state : ChatState) (events : list ChatEvent) : ChatState :=
  foldl evolveChat state events.

(** ** Decisions (decider.ts) *)

Inductive ChatDomainError : Type :=
| ChatNotFound
| ChatAlreadyExists
| ChatDeletedConflict
| ChatValidationFailed (message : string).

Notation ChatDecision := (result (list ChatEvent) ChatDomainError).

Definition decide_CreateChat (state : ChatState) (chatId projectId : string)
    (worktreeId : option string) (title_ : string) (titleProvenance_ : option NameProvenance)
    (originSessionId : option string) (lastReadAt : option Z) (createdAt : Z)
    : ChatDecision :=
  let title := trim title_ in
  let titleProvenance := titleProvenanceOrManual titleProvenance_ in
  if decide (title = "") then Failure (ChatValidationFailed "title cannot be empty")
  else if ch_exists state then Failure ChatAlreadyExists
  else Success [ChatCreated chatId projectId worktreeId title (Some titleProvenance)
                  originSessionId lastReadAt createdAt].

Definition decide_RenameChat (state : ChatState) (title_ : string)
    (titleProvenance_ : option NameProvenance) (updatedAt : Z) : ChatDecision :=
  let title := trim title_ in
  let titleProvenance := titleProvenanceOrManual titleProvenance_ in
  if decide (title = "") then Failure (ChatValidationFailed "title cannot be empty")
  else if decide (titleProvenance = NP_automatic ∧ ch_titleProvenance state ≠ NP_pending)
  then Success []
  else if decide (ch_title state = Some title ∧ ch_titleProvenance state = titleProvenance)
  then Success []
  else Success [ChatRenamed title (Some titleProvenance) updatedAt].

Definition decideChat (state : ChatState) (command : ChatCommand) : ChatDecision :=
  match command with
  | CreateChat chatId projectId worktreeId title prov origin lastReadAt createdAt =>
      decide_CreateChat state chatId projectId worktreeId title prov origin lastReadAt createdAt
  | _ =>
      if negb (ch_exists state) then Failure ChatNotFound
      else if ch_deleted state then Failure ChatDeletedConflict
      else
        match command with
        | CreateChat _ _ _ _ _ _ _ _ => Failure ChatAlreadyExists (* returned above *)
        | RenameChat title prov updatedAt => decide_RenameChat state title prov updatedAt
        | MarkChatRead readAt =>
            if decide (ch_lastReadAt state = Some readAt) then Success []
            else Success [ChatRead readAt]
        | SetChatWorktree worktreeId updatedAt =>
            if decide (ch_worktreeId state = worktreeId) then Success []
            else Success [ChatWorktreeSet worktreeId updatedAt]
        | SetActiveSession sessionId updatedAt =>
            if decide (ch_activeSessionId state = sessionId) then Success []
            else Success [ChatActiveSessionSet sessionId updatedAt]
        | RequestArchiveChat requestedAt force =>
            if ch_archived state || ch_archiveRequested state then Success []
            else Success [ChatArchiveRequested requestedAt (Some force)]
        | ArchiveChat archivedAt json =>
            if ch_archived state then Success [] else Success [ChatArchived archivedAt json]
        | RecordArchiveCheckpoint json recordedAt =>
            if ch_archived state
            then Success [ChatArchiveCheckpointRecorded json recordedAt] else Success []
        | UnarchiveChat unarchivedAt worktreeId =>
            if ch_archived state
            then Success [ChatUnarchived unarchivedAt worktreeId] else Success []
        | RequestDeleteChat requestedAt =>
            if ch_deleteRequested state then Success []
            else Success [ChatDeleteRequested requestedAt]
        | DeleteChat deletedAt => Success [ChatDeleted deletedAt]
        end
  end.

(** The aggregate engine/chat-domain.ts dispatches. *)
#[export] Instance chat_aggregate : Aggregate ChatState ChatCommand ChatEvent ChatDomainError := {|
  ag_initialState := initialChatState;
  ag_version := ch_version;
  ag_evolveAll := evolveChats;
  ag_decide := decideChat |}.

Lemma evolveChat_version s e : ch_version (evolveChat s e) = ch_version s + 1.
Proof. by destruct e. Qed.

#[export] Instance chat_aggregate_laws :
  AggregateLaws ChatState ChatCommand ChatEvent ChatDomainError.
Proof.
  intros events. cbn. unfold evolveChats.
  assert (∀ s, ch_version (foldl evolveChat s events)
               = ch_version s + Z.of_nat (length events)) as ->; [|done].
  induction events as [|e events IH]; intros s; cbn; [lia|]. rewrite IH, evolveChat_version. lia.
Qed.

(** ** Properties *)

Inductive chat_reachable : ChatState → Prop :=
| chat_reachable_initial : chat_reachable initialChatState
| chat_reachable_step s command events :
    chat_reachable s → decideChat s command = Success events →
    chat_reachable (evolveChats s events).

Record ChatInvariant (s : ChatState) : Prop := {
  ci_fresh : ch_exists s = false → s = initialChatState;
  ci_title : ch_exists s = true → ∃ t, ch_title s = Some t ∧ t ≠ "";
  ci_archived : ch_archived s = true → ch_archiveRequested s = false;
  ci_checkpoint : is_Some (ch_archivedWorktreeJson s) → ch_archived s = true;
  ci_deleted : ch_deleted s = true → ch_deleteRequested s = false;
  ci_no_message : ch_lastMessageAt s = None }.

(** Splits a chat decision into its branches. *)
Ltac chat_cases Hd :=
  unfold decideChat, decide_CreateChat, decide_RenameChat in Hd; cbn zeta in Hd;
  repeat match type of Hd with
  | context [if decide ?P then _ else _] => destruct (decide P)
  | context [if ?b then _ else _] => destruct b eqn:?
  end;
  try discriminate Hd; injection Hd as <-.

Lemma decideChat_length s command events :
  decideChat s command = Success events → (length events <= 1)%nat.
Proof. intros Hd. destruct command; chat_cases Hd; cbn; lia. Qed.

(** The invariant of chats: an existing chat has a non-empty title, an
    archived one has no archive request pending, a recorded archive checkpoint
    belongs to an archived chat, and deletion settles the delete request. *)
Theorem chat_invariant_reachable s : chat_reachable s → ChatInvariant s.
Proof.
  induction 1 as [|s command events _ [] Hd].
  - constructor; cbn; try done.
  - destruct (ch_exists s) eqn:Hx.
    + clear ci_fresh0. assert (∃ t, ch_title s = Some t ∧ t ≠ "") as Ht by auto.
      destruct command; chat_cases Hd; cbn; constructor; cbn; try congruence; try auto;
        try (by intros; eexists); try (by intros []);
        repeat match goal with H : _ || _ = false |- _ => apply orb_false_iff in H as [] end.
        all: intros Hi; try (apply ci_checkpoint0 in Hi); congruence.
    + rewrite (ci_fresh0 eq_refl) in Hd |- *.
      destruct command; chat_cases Hd; cbn; constructor; cbn; try done; try (by intros []).
      intros _. by eexists.
Qed.

(** Commands whose repetition is accepted without effect. *)
Definition repeatable (command : ChatCommand) : bool :=
  match command with
  | CreateChat _ _ _ _ _ _ _ _ | RecordArchiveCheckpoint _ _ | DeleteChat _ => false
  | _ => true
  end.

(** Chat commands other than creation, deletion and recording a checkpoint are
    idempotent: the same command on the resulting chat is accepted and decides
    nothing. *)
Theorem chat_commands_idempotent s command events :
  decideChat s command = Success events → repeatable command = true →
  decideChat (evolveChats s events) command = Success [].
Proof.
  intros Hd Hr. destruct command; try discriminate Hr; chat_cases Hd; cbn;
    unfold decide_RenameChat; cbn;
    repeat match goal with
    | H : negb _ = false |- _ => apply negb_false_iff in H
    | H : _ || _ = false |- _ => apply orb_false_iff in H as []
    | H : ch_exists s = true |- _ => rewrite H
    | H : ch_deleted s = false |- _ => rewrite H
    | H : ch_archived s = _ |- _ => rewrite H
    | H : ch_archiveRequested s = _ |- _ => rewrite H
    | H : ch_deleteRequested s = _ |- _ => rewrite H
    | H : _ || _ = true |- _ => rewrite H
    end; cbn; try done; repeat case_decide; try done; naive_solver.
Qed.

(** A name given by a user is never replaced by a generated one: an automatic
    rename takes effect only while the title's provenance is pending. *)
Theorem automatic_rename_keeps_manual_title s title at_ events :
  decideChat s (RenameChat title (Some NP_automatic) at_) = Success events →
  ch_titleProvenance s ≠ NP_pending → evolveChats s events = s.
Proof. intros Hd Hp. chat_cases Hd; try done. naive_solver. Qed.

Lemma chat_invariant_reachable_witness :
  ChatInvariant (evolveChats initialChatState
    [ChatCreated "c1" "p1" None "title" (Some NP_pending) None None 1]).
Proof.
  apply chat_invariant_reachable.
  apply (chat_reachable_step initialChatState
    (CreateChat "c1" "p1" None " title " (Some NP_pending) None None 1));
    [apply chat_reachable_initial|reflexivity].
Defined.

Definition demo_chat : ChatState :=
  evolveChats initialChatState
    [ChatCreated "c1" "p1" None "title" (Some NP_manual) None None 1].

Lemma chat_commands_idempotent_witness :
  decideChat (evolveChats demo_chat [ChatArchived 5 (Some "{}")]) (ArchiveChat 5 (Some "{}"))
  = Success [].
Proof.
  apply (chat_commands_idempotent demo_chat (ArchiveChat 5 (Some "{}"))); reflexivity.
Defined.

Lemma automatic_rename_keeps_manual_title_witness : evolveChats demo_chat [] = demo_chat.
Proof.
  apply (automatic_rename_keeps_manual_title demo_chat "generated" 6); [reflexivity|discriminate].
Defined.
