(* ===== verification/AggregateProps.v ===== *)
(** * Dispatch of any aggregate, and of chats (engine/aggregate-dispatch.ts,
    engine/chat-domain.ts)

    The engine is proved against the aggregate interface ([AggregateLaws]) and the
    storage interface ([DispatchStorageLaws]); chats over the in-memory storage
    are an instance. *)
From S2P Require Import Prelude Js Contracts Dispatch DispatchEngine DispatchProps Chat.

Local Open Scope Z_scope.

Section aggregates.
Context {State Command Event DomainErr : Type} `{Aggregate State Command Event DomainErr}.
Context {Hag : AggregateLaws State Command Event DomainErr}.
Context {S : Type} `{DispatchStorage S Event} {valid : S → Prop}.
Context {Hlaws : DispatchStorageLaws S Event valid}.
Context {G I : Type} (makeEventId : G → result string I * G).

Notation run := (aggregate_run (State:=State) makeEventId).

Lemma stream_version streamId (s : S) :
  ag_version (stream_state (State:=State) streamId s)
  = Z.of_nat (length (ds_events streamId s)).
Proof. unfold stream_state. rewrite ag_version_length. by rewrite length_map. Qed.

(** A dispatch of an aggregate either leaves the storage as it was, answering
    with a failure that is never a version conflict or with the receipt the
    command already has, or appends exactly the events decided on the stream's
    state, under a new receipt that carries the stream's new version. *)
Theorem aggregate_dispatch_commits input (s : S) g answer s' g' :
  valid s → run input (s, g) = (answer, (s', g')) →
  valid s' ∧
  match answer with
  | Failure e => s' = s ∧ ∀ a b c, e ≠ DF_storage (ConcurrencyConflict a b c)
  | Success r =>
      (s' = s ∧ ds_receipt (di_commandId input) s = Some r)
      ∨ (ds_receipt (di_commandId input) s = None
         ∧ ds_receipt (di_commandId input) s' = Some r
         ∧ cr_streamVersion r = ag_version (stream_state (State:=State) (di_streamId input) s')
         ∧ ∃ events,
             ag_decide (stream_state (State:=State) (di_streamId input) s) (di_command input)
             = Success events
             ∧ map se_event (ds_events (di_streamId input) s')
               = map se_event (ds_events (di_streamId input) s) ++ events)
  end.
Proof.
  intros Hv Hrun. unfold aggregate_run, aggregate_prepare in Hrun. cbn [fst snd] in Hrun.
  destruct (ds_receipt (di_commandId input) s) as [existing|] eqn:Hr.
  { cbn [commit] in Hrun.
    destruct (validateCommandReceipt _ _ _ existing) as [r|e] eqn:Hval; cbn in Hrun;
      injection Hrun as <- <- <-; split; try done.
    - left. by pose proof (validate_Success _ _ _ _ _ Hval) as ->.
    - split; [done|]. intros a b c [= ->]. by apply validate_not_conflict in Hval. }
  destruct (ag_decide _ _) as [decision|e] eqn:Hd.
  2: { injection Hrun as <- <- <-. done. }
  destruct (with_event_ids makeEventId decision g) as [[events|e] g1] eqn:Hids.
  2: { injection Hrun as <- <- <-. done. }
  pose proof (with_event_ids_events _ _ _ _ _ Hids) as Hev.
  cbn [commit] in Hrun. set (a := append_input _ _ _ _) in Hrun.
  destruct (append_cases s a Hv) as [(r & Hr' & _)|[(_ & Hl & _)|(_ & _ & s1 & Ha & Hv1 & Hrs & _ & Hst)]].
  - change (ai_commandId a) with (di_commandId input) in Hr'. congruence.
  - exfalso. apply Hl. subst a. cbn. by rewrite stream_version.
  - rewrite Ha in Hrun. injection Hrun as <- <- <-. split; [done|]. right.
    split_and!; [done| | |].
    + by rewrite Hrs, decide_True.
    + rewrite stream_version. apply (f_equal length) in Hst.
      rewrite length_app, !length_map in Hst.
      change (ai_streamId a) with (di_streamId input) in Hst. rewrite Hst.
      subst a. cbn. rewrite stream_version. lia.
    + exists decision. split; [done|]. change (ai_streamId a) with (di_streamId input) in Hst.
      rewrite Hst. subst a. cbn. by rewrite Hev.
Qed.
End aggregates.

(** ** Chats in memory *)

Module chat_demo.
Definition make_id (n : nat) : result string Empty_set * nat :=
  (Success ("e" +:+ pretty n), Datatypes.S n).
Definition create : DispatchInput ChatCommand :=
  {| di_commandId := "cc1"; di_streamId := "c1"; di_correlationId := None;
     di_causationEventId := None; di_receiptIdentity := None; di_expectedAttempt := None;
     di_expectedProviderSessionId := None;
     di_command := CreateChat "c1" "p1" None "title" None None None 1 |}.
Definition created_world : result CommandReceipt (DispatchFailure ChatDomainError Empty_set)
    * (MemoryStore ChatEvent * nat) := aggregate_run (State:=ChatState) make_id create (emptyStore, 0%nat).
End chat_demo.
Import chat_demo.

Lemma aggregate_dispatch_commits_witness : store_ok created_world.2.1.
Proof.
  apply (aggregate_dispatch_commits (State:=ChatState) (valid:=store_ok) make_id create
    emptyStore 0%nat created_world.1 created_world.2.1 created_world.2.2);
    [apply store_ok_empty|vm_compute; reflexivity].
Defined.
