(* ===== verification/Jobs.v ===== *)
(** * Durable jobs (agent-engine/jobs.ts)

    The kinds of provider-facing work, the requests that carry them, and the pure
    mapping from a committed session event to the jobs it implies. Timestamps of
    the ledger (ISO strings of [toISOString], fixed width for the years 0 to 9999,
    compared as text) are [Z] milliseconds: for that range the order of the texts
    is the order of the instants. *)
From S2P Require Import Prelude Js JsMap Ids Contracts SessionTypes Dispatch.

Local Open Scope Z_scope.

Inductive JobKind : Set :=
| checkpoint_capture
| provider_stop
| provider_turn_send
| provider_turn_recover
| provider_turn_interrupt
| provider_successor_start.
#[export] Instance JobKind_eq_dec : EqDecision JobKind.
Proof. solve_decision. Defined.

Inductive JobRequest : Type :=
| CheckpointCapture (turnId attemptId : string) (outcome : TurnSettlementOutcome)
    (settledAt : Z)
| ProviderStop (providerSessionId : option string) (requestedAt : Z)
| ProviderTurnRecover (turnId attemptId sourceAttemptId : string)
    (reference : ProviderTurnReference)
| ProviderTurnSend (turnId : string) (attemptId : option string)
    (providerInputJson : string) (providerStartJson : option string)
| ProviderTurnInterrupt (turnId : string) (attemptId : option string) (requestedAt : Z)
| ProviderSuccessorStart (turnId queueId inputJson : string).
#[export] Instance JobRequest_eq_dec : EqDecision JobRequest.
Proof. solve_decision. Defined.

(** [request._tag], as the kind and as the text stored in the [kind] column. *)
Definition request_kind (r : JobRequest) : JobKind :=
  match r with
  | CheckpointCapture _ _ _ _ => checkpoint_capture
  | ProviderStop _ _ => provider_stop
  | ProviderTurnRecover _ _ _ _ => provider_turn_recover
  | ProviderTurnSend _ _ _ _ => provider_turn_send
  | ProviderTurnInterrupt _ _ _ => provider_turn_interrupt
  | ProviderSuccessorStart _ _ _ => provider_successor_start
  end.

Definition kind_tag (k : JobKind) : string :=
  match k with
  | checkpoint_capture => "checkpoint.capture"
  | provider_stop => "provider.stop"
  | provider_turn_send => "provider.turn.send"
  | provider_turn_recover => "provider.turn.recover"
  | provider_turn_interrupt => "provider.turn.interrupt"
  | provider_successor_start => "provider.successor.start"
  end.
#[export] Instance kind_tag_inj : Inj (=) (=) kind_tag.
Proof. by intros [] [] ?. Qed.

Definition JOB_KINDS : list JobKind :=
  [checkpoint_capture; provider_stop; provider_turn_send; provider_turn_recover;
   provider_turn_interrupt; provider_successor_start].
Definition REPLAYABLE_JOB_KINDS : list JobKind :=
  [checkpoint_capture; provider_stop; provider_turn_send; provider_turn_recover;
   provider_turn_interrupt; provider_successor_start].
Definition NON_REPLAYABLE_JOB_KINDS : list JobKind := [].

Definition isReplayableJobKind (kind : JobKind) : bool :=
  bool_decide (kind ∈ REPLAYABLE_JOB_KINDS).

Inductive JobStatus : Set :=
| JS_pending | JS_waiting | JS_running | JS_succeeded | JS_failed | JS_cancelled.
#[export] Instance JobStatus_eq_dec : EqDecision JobStatus.
Proof. solve_decision. Defined.

Record Job := {
  job_id : string;
  job_sequence : Z;
  job_sessionId : string;
  job_request : JobRequest;
  job_status : JobStatus;
  job_attemptCount : Z;
  job_availableAt : Z;
  job_leaseOwner : option string;
  job_leaseExpiresAt : option Z;
  job_causationEventId : option string;
  job_correlationId : option string;
  job_lastError : option string;
  job_createdAt : Z;
  job_updatedAt : Z;
  job_completedAt : option Z }.

Record PendingJob := {
  pj_id : string;
  pj_sessionId : string;
  pj_request : JobRequest;
  pj_causationEventId : string;
  pj_correlationId : string }.

Definition jobIdForEvent (record : StoredEvent SessionEvent) (index : nat) : string :=
  joinId [PStr "job"; PStr (se_eventId record); PNum (Z.of_nat index)].

Definition jobRequestsForEvent (event : SessionEvent) : list JobRequest :=
  match event with
  | ProviderStopRequested _ providerSessionId requestedAt =>
      [ProviderStop providerSessionId requestedAt]
  | ProviderRecoveryRequested turnId attemptId sourceAttemptId reference _ =>
      [ProviderTurnRecover turnId attemptId sourceAttemptId reference]
  | TurnFinalizationRequested turnId attemptId outcome settledAt =>
      [CheckpointCapture turnId attemptId outcome settledAt]
  | ProviderTurnRequested turnId attemptId providerInputJson providerStartJson _ =>
      [ProviderTurnSend turnId attemptId providerInputJson providerStartJson]
  | TurnInterruptRequested turnId attemptId requestedAt =>
      [ProviderTurnInterrupt turnId attemptId requestedAt]
  | ScheduledSuccessorReady _ turnId queueId inputJson _ =>
      [ProviderSuccessorStart turnId queueId inputJson]
  | _ => []
  end.

Definition jobsForSessionEvent (record : StoredEvent SessionEvent) : list PendingJob :=
  imap (λ index request,
          {| pj_id := jobIdForEvent record index;
             pj_sessionId := se_streamId record;
             pj_request := request;
             pj_causationEventId := se_eventId record;
             pj_correlationId := se_correlationId record |})
       (jobRequestsForEvent (se_event record)).

(** ** Facts *)

Lemma jobIdForEvent_inj r n r' n' :
  jobIdForEvent r n = jobIdForEvent r' n' → se_eventId r = se_eventId r' ∧ n = n'.
Proof.
  intros H. apply joinId_inj in H; [|done]. cbn [map part_string] in H.
  injection H as H1 H2. split; [done|]. apply String_of_Z_inj in H2. lia.
Qed.
#[global] Opaque jobIdForEvent.

(** Every kind is either replayed or cancelled after a process loss, and the
    partition is total. *)
Lemma replayable_total kind : isReplayableJobKind kind = true.
Proof. by destruct kind. Qed.

Lemma jobsForSessionEvent_length r :
  length (jobsForSessionEvent r) = length (jobRequestsForEvent (se_event r)).
Proof. apply length_imap. Qed.

Lemma elem_of_jobsForSessionEvent r job :
  job ∈ jobsForSessionEvent r →
  pj_causationEventId job = se_eventId r ∧ pj_sessionId job = se_streamId r
  ∧ pj_request job ∈ jobRequestsForEvent (se_event r)
  ∧ ∃ index, pj_id job = jobIdForEvent r index.
Proof.
  unfold jobsForSessionEvent. intros (i & req & -> & Hr)%elem_of_lookup_imap.
  split_and!; try done; [|by eexists]. cbn. by eapply list_elem_of_lookup_2.
Qed.

(** Jobs of distinct events have distinct ids. *)
Lemma jobs_ids_NoDup (records : list (StoredEvent SessionEvent)) :
  NoDup (map se_eventId records) →
  NoDup (map pj_id (records ≫= jobsForSessionEvent)).
Proof.
  induction records as [|r rs IH]; cbn; [intros; constructor|].
  intros [Hnin Hnd]%NoDup_cons. rewrite map_app. apply NoDup_app. split_and!.
  - apply NoDup_alt. intros i j x Hi Hj.
    change (map pj_id ?l) with (pj_id <$> l) in Hi, Hj.
    rewrite list_lookup_fmap in Hi, Hj. unfold jobsForSessionEvent in Hi, Hj.
    rewrite list_lookup_imap in Hi, Hj.
    destruct (jobRequestsForEvent (se_event r) !! i) eqn:?; cbn in Hi; [|done].
    destruct (jobRequestsForEvent (se_event r) !! j) eqn:?; cbn in Hj; [|done].
    apply (inj Some) in Hi as <-. apply (inj Some) in Hj.
    by apply jobIdForEvent_inj in Hj as [].
  - intros x (j & -> & Hj)%list_elem_of_fmap (j' & He & Hj')%list_elem_of_fmap.
    apply elem_of_jobsForSessionEvent in Hj as (_ & _ & _ & i & Hi).
    apply list_elem_of_bind in Hj' as (r' & Hj' & Hr').
    apply elem_of_jobsForSessionEvent in Hj' as (_ & _ & _ & i' & Hi').
    rewrite Hi, Hi' in He. apply jobIdForEvent_inj in He as [He _].
    apply Hnin. rewrite He. apply list_elem_of_fmap. by exists r'.
  - by apply IH.
Qed.
