(* ===== verification/JobLedger.v ===== *)
(** * The job ledger (agent-engine/job-ledger.ts)

    The [jobs] table is the list of its rows in the order of [sequence], with the
    last value of its AUTOINCREMENT counter. Every SQL statement of the source is
    one definition: an [UPDATE ... WHERE ... RETURNING] is [update_where] of its
    condition and its assignments. A reading of the clock is an argument, one per
    reading the source makes. The JSON codec of requests is the schema library's
    and is the class [RequestCodec]. *)
From S2P Require Import Prelude Js Jobs.

Local Open Scope Z_scope.

Class RequestCodec := {
  (** [Schema.encodeEffect]; a failure is turned into a defect ([Effect.orDie]). *)
  encodeRequest : JobRequest → option string;
  (** [Schema.decodeUnknownEffect]; the failure is the text of its cause. *)
  decodeRequest : string → result JobRequest string }.

Record JobRowDecodeError := { jde_jobId : string; jde_reason : string }.

Record JobRow := {
  row_sequence : Z;
  row_id : string;
  row_session_id : string;
  row_kind : string;
  row_request_json : string;
  row_status : JobStatus;
  row_attempt_count : Z;
  row_available_at : Z;
  row_lease_owner : option string;
  row_lease_expires_at : option Z;
  row_causation_event_id : option string;
  row_correlation_id : option string;
  row_last_error : option string;
  row_created_at : Z;
  row_updated_at : Z;
  row_completed_at : option Z }.
#[export] Instance settable_JobRow : Settable JobRow := λ r,
  Build_JobRow (row_sequence r) (row_id r) (row_session_id r) (row_kind r)
    (row_request_json r) (row_status r) (row_attempt_count r) (row_available_at r)
    (row_lease_owner r) (row_lease_expires_at r) (row_causation_event_id r)
    (row_correlation_id r) (row_last_error r) (row_created_at r) (row_updated_at r)
    (row_completed_at r).

Record JobTable := {
  tb_rows : list JobRow;
  tb_lastSequence : Z }.

Definition emptyTable : JobTable := {| tb_rows := []; tb_lastSequence := 0 |}.

(** [UPDATE jobs SET f WHERE p RETURNING ...]. *)
Definition update_row (p : JobRow → bool) (f : JobRow → JobRow) (r : JobRow) : JobRow :=
  if p r then f r else r.
Definition update_where (p : JobRow → bool) (f : JobRow → JobRow) (t : JobTable)
    : list JobRow * JobTable :=
  (map f (filter (λ r, p r = true) (tb_rows t)),
   {| tb_rows := map (update_row p f) (tb_rows t); tb_lastSequence := tb_lastSequence t |}).

Definition leb_text (a : Z) (o : option Z) : bool :=
  match o with Some b => a <=? b | None => false end.

Section ledger.
Context `{RequestCodec}.

Definition decodeRow (row : JobRow) : result Job JobRowDecodeError :=
  match decodeRequest (row_request_json row) with
  | Failure cause => Failure {| jde_jobId := row_id row; jde_reason := cause |}
  | Success request =>
      Success
        {| job_id := row_id row;
           job_sequence := row_sequence row;
           job_sessionId := row_session_id row;
           job_request := request;
           job_status := row_status row;
           job_attemptCount := row_attempt_count row;
           job_availableAt := row_available_at row;
           job_leaseOwner := row_lease_owner row;
           job_leaseExpiresAt := row_lease_expires_at row;
           job_causationEventId := row_causation_event_id row;
           job_correlationId := row_correlation_id row;
           job_lastError := row_last_error row;
           job_createdAt := row_created_at row;
           job_updatedAt := row_updated_at row;
           job_completedAt := row_completed_at row |}
  end.

(** ** enqueue *)

Definition inserted_row (sequence now : Z) (job : PendingJob) (requestJson : string) : JobRow :=
  {| row_sequence := sequence;
     row_id := pj_id job;
     row_session_id := pj_sessionId job;
     row_kind := kind_tag (request_kind (pj_request job));
     row_request_json := requestJson;
     row_status := JS_pending;
     row_attempt_count := 0;
     row_available_at := now;
     row_lease_owner := None;
     row_lease_expires_at := None;
     row_causation_event_id := Some (pj_causationEventId job);
     row_correlation_id := Some (pj_correlationId job);
     row_last_error := None;
     row_created_at := now;
     row_updated_at := now;
     row_completed_at := None |}.

(** [INSERT OR IGNORE INTO jobs ... RETURNING id]: the number of returned rows. *)
Definition insert_or_ignore (now : Z) (job : PendingJob) (requestJson : string)
    (t : JobTable) : Z * JobTable :=
  if decide (pj_id job ∈ map row_id (tb_rows t)) then (0, t)
  else
    let sequence := tb_lastSequence t + 1 in
    (1, {| tb_rows := tb_rows t ++ [inserted_row sequence now job requestJson];
           tb_lastSequence := sequence |}).

(** The loop of [enqueue]; [None] is the defect of a request that cannot be
    encoded, with the table as the loop leaves it. *)
Fixpoint enqueue_loop (now : Z) (jobs : list PendingJob) (inserted : Z) (t : JobTable)
    : option Z * JobTable :=
  match jobs with
  | [] => (Some inserted, t)
  | job :: jobs =>
      match encodeRequest (pj_request job) with
      | None => (None, t)
      | Some requestJson =>
          let '(n, t) := insert_or_ignore now job requestJson t in
          enqueue_loop now jobs (inserted + n) t
      end
  end.

Definition enqueue (now : Z) (jobs : list PendingJob) (t : JobTable) : option Z * JobTable :=
  enqueue_loop now jobs 0 t.

(** ** claimNext *)

Record ClaimInput := {
  cl_excludedKinds : option (list JobKind);
  cl_workerId : string;
  cl_leaseMs : Z;
  cl_minAgeMs : option Z;
  cl_sessionId : option string;
  cl_includeWaitingBefore : option Z }.

Definition session_running (sessionId : string) (t : JobTable) : bool :=
  existsb (λ active, bool_decide (row_session_id active = sessionId)
                     && bool_decide (row_status active = JS_running)) (tb_rows t).

(** The condition of the candidate query. *)
Definition claimable (input : ClaimInput) (availableBefore : Z) (t : JobTable)
    (candidate : JobRow) : bool :=
  ((bool_decide (row_status candidate = JS_pending)
      && (row_available_at candidate <=? availableBefore))
   || (bool_decide (row_status candidate = JS_waiting)
       && match cl_includeWaitingBefore input with
          | Some before => row_updated_at candidate <? before
          | None => false
          end))
  && match cl_sessionId input with
     | None => true
     | Some s => bool_decide (row_session_id candidate = s)
     end
  && bool_decide (row_kind candidate ∉ map kind_tag (default [] (cl_excludedKinds input)))
  && negb (session_running (row_session_id candidate) t).

Definition claim_row (workerId : string) (leaseExpiresAt now : Z) (r : JobRow) : JobRow :=
  r <| row_status := JS_running |>
    <| row_lease_owner := Some workerId |>
    <| row_lease_expires_at := Some leaseExpiresAt |>
    <| row_attempt_count ::= Z.add 1 |>
    <| row_last_error := None |>
    <| row_updated_at := now |>.

(** [ORDER BY sequence ASC LIMIT 1] of the candidates: the rows are kept in that
    order. *)
Definition candidate (input : ClaimInput) (availableBefore : Z) (t : JobTable)
    : option JobRow :=
  snd <$> list_find (λ r, claimable input availableBefore t r = true) (tb_rows t).

(** [now1], [now2] and [now3] are the clock at [now], [availableBefore] and
    [leaseExpiresAt]. *)
Definition claimNext (now1 now2 now3 : Z) (input : ClaimInput) (t : JobTable)
    : result (option Job) JobRowDecodeError * JobTable :=
  let availableBefore := now2 - default 0 (cl_minAgeMs input) in
  let leaseExpiresAt := now3 + cl_leaseMs input in
  let chosen := row_sequence <$> candidate input availableBefore t in
  let '(rows, t) :=
    update_where (λ r, bool_decide (Some (row_sequence r) = chosen))
      (claim_row (cl_workerId input) leaseExpiresAt now1) t in
  (match rows with
   | [] => Success None
   | row :: _ => result_map Some (decodeRow row)
   end, t).

(** ** Leases *)

Definition owned_live (jobId workerId : string) (now : Z) (r : JobRow) : bool :=
  bool_decide (row_id r = jobId) && bool_decide (row_status r = JS_running)
  && bool_decide (row_lease_owner r = Some workerId)
  && match row_lease_expires_at r with Some e => now <? e | None => false end.

(** [UPDATE jobs SET f WHERE id AND running AND owner AND live RETURNING id], and
    whether it returned a row. *)
Definition update_owned (jobId workerId : string) (now : Z) (f : JobRow → JobRow)
    (t : JobTable) : bool * JobTable :=
  let '(rows, t) := update_where (owned_live jobId workerId now) f t in
  (match rows with [] => false | _ :: _ => true end, t).

Definition renew (now1 now2 : Z) (jobId workerId : string) (leaseMs : Z) (t : JobTable)
    : bool * JobTable :=
  update_owned jobId workerId now1
    (λ r, r <| row_lease_expires_at := Some (now2 + leaseMs) |> <| row_updated_at := now1 |>) t.

Definition unlease (r : JobRow) : JobRow :=
  r <| row_lease_owner := None |> <| row_lease_expires_at := None |>.

Definition msg_expired : string := "Claim expired; delivery requires reconciliation.".

Definition expired (now : Z) (r : JobRow) : bool :=
  bool_decide (row_status r = JS_running)
  && match row_lease_expires_at r with Some e => e <=? now | None => false end.

Definition reclaimExpired (now : Z) (t : JobTable) : Z * JobTable :=
  let '(rows, t) :=
    update_where (expired now)
      (λ r, unlease r <| row_status := JS_pending |> <| row_available_at := now |>
              <| row_updated_at := now |> <| row_last_error := Some msg_expired |>) t in
  (Z.of_nat (length rows), t).

Definition succeed (now : Z) (jobId workerId : string) (t : JobTable) : bool * JobTable :=
  update_owned jobId workerId now
    (λ r, unlease r <| row_status := JS_succeeded |> <| row_completed_at := Some now |>
            <| row_updated_at := now |>) t.

Definition retry (now1 now2 : Z) (jobId workerId : string) (delayMs : Z) (error : string)
    (t : JobTable) : bool * JobTable :=
  update_owned jobId workerId now1
    (λ r, unlease r <| row_status := JS_pending |> <| row_available_at := now2 + delayMs |>
            <| row_last_error := Some error |> <| row_updated_at := now1 |>) t.

Definition hold (now : Z) (jobId workerId error : string) (t : JobTable) : bool * JobTable :=
  update_owned jobId workerId now
    (λ r, unlease r <| row_status := JS_waiting |> <| row_available_at := now |>
            <| row_last_error := Some error |> <| row_updated_at := now |>) t.

Definition fail (now : Z) (jobId workerId error : string) (t : JobTable) : bool * JobTable :=
  update_owned jobId workerId now
    (λ r, unlease r <| row_status := JS_failed |> <| row_last_error := Some error |>
            <| row_completed_at := Some now |> <| row_updated_at := now |>) t.

(** The four ways a worker gives up a claim. *)
Inductive Settlement : Type :=
| S_succeed
| S_retry (delayMs : Z) (error : string)
| S_hold (error : string)
| S_fail (error : string).

Definition settle_with (s : Settlement) (now1 now2 : Z) (jobId workerId : string)
    (t : JobTable) : bool * JobTable :=
  match s with
  | S_succeed => succeed now1 jobId workerId t
  | S_retry delayMs error => retry now1 now2 jobId workerId delayMs error t
  | S_hold error => hold now1 jobId workerId error t
  | S_fail error => fail now1 jobId workerId error t
  end.

(** ** Cancellation and recovery *)

Definition unsettled (r : JobRow) : bool :=
  match row_status r with JS_pending | JS_waiting | JS_running => true | _ => false end.

Definition cancel_row (now : Z) (reason : string) (r : JobRow) : JobRow :=
  unlease r <| row_status := JS_cancelled |> <| row_last_error := Some reason |>
    <| row_completed_at := Some now |> <| row_updated_at := now |>.

Definition of_kinds (kinds : list JobKind) (r : JobRow) : bool :=
  bool_decide (row_kind r ∈ map kind_tag kinds).

Definition cancelUnsettled (now : Z) (sessionId : string) (kinds : list JobKind)
    (reason : string) (t : JobTable) : list string * JobTable :=
  match kinds with
  | [] => ([], t)
  | _ :: _ =>
      let '(rows, t) :=
        update_where (λ r, bool_decide (row_session_id r = sessionId) && unsettled r
                           && of_kinds kinds r) (cancel_row now reason) t in
      (map row_id rows, t)
  end.

Definition msg_requeued : string := "Requeued after the previous server process ended.".
Definition msg_lost : string :=
  "Cancelled because the server process ended before the job completed.".

Definition reconcileAfterProcessLoss (now : Z) (t : JobTable) : (Z * Z) * JobTable :=
  let '(requeued, t) :=
    update_where
      (λ r, (bool_decide (row_status r = JS_running) || bool_decide (row_status r = JS_waiting))
            && of_kinds REPLAYABLE_JOB_KINDS r)
      (λ r, unlease r <| row_status := JS_pending |> <| row_available_at := now |>
              <| row_last_error := Some msg_requeued |> <| row_updated_at := now |>) t in
  let '(cancelled, t) :=
    update_where (λ r, unsettled r && negb (of_kinds REPLAYABLE_JOB_KINDS r))
      (cancel_row now msg_lost) t in
  ((Z.of_nat (length requeued), Z.of_nat (length cancelled)), t).

(** ** Queries *)

Definition min_opt (o : option Z) (z : Z) : option Z :=
  match o with Some m => Some (Z.min m z) | None => Some z end.
Definition nextAvailableAt (t : JobTable) : option Z :=
  foldl (λ m r, if bool_decide (row_status r = JS_pending) then min_opt m (row_available_at r)
                else m) None (tb_rows t).

Definition hasRunning (sessionId : string) (t : JobTable) : bool := session_running sessionId t.

Definition unsettledCount (t : JobTable) : Z :=
  Z.of_nat (length (filter (λ r, unsettled r = true) (tb_rows t))).

Definition get (jobId : string) (t : JobTable) : result (option Job) JobRowDecodeError :=
  match list_find (λ r, row_id r = jobId) (tb_rows t) with
  | None => Success None
  | Some (_, row) => result_map Some (decodeRow row)
  end.

Fixpoint decodeRows (rows : list JobRow) : result (list Job) JobRowDecodeError :=
  match rows with
  | [] => Success []
  | row :: rows => job ←! decodeRow row; jobs ←! decodeRows rows; Success (job :: jobs)
  end.

Definition listBySession (sessionId : string) (t : JobTable)
    : result (list Job) JobRowDecodeError :=
  decodeRows (filter (λ r, row_session_id r = sessionId) (tb_rows t)).
End ledger.

#[global] Arguments of_kinds : simpl never.
