(* ===== verification/LedgerInv.v ===== *)
(** * The invariant of the job table

    [LedgerOp] names the operations of the ledger with their inputs and clock
    readings, [run_op] is their effect on the table; the lemmas give the shape every
    operation has on the rows and the invariant all of them preserve. *)
From S2P Require Import Prelude Js Jobs JobLedger.

Local Open Scope Z_scope.

Inductive LedgerOp : Type :=
| OpEnqueue (now : Z) (jobs : list PendingJob)
| OpClaim (now1 now2 now3 : Z) (input : ClaimInput)
| OpRenew (now1 now2 : Z) (jobId workerId : string) (leaseMs : Z)
| OpReclaim (now : Z)
| OpSucceed (now : Z) (jobId workerId : string)
| OpRetry (now1 now2 : Z) (jobId workerId : string) (delayMs : Z) (error : string)
| OpHold (now : Z) (jobId workerId error : string)
| OpFail (now : Z) (jobId workerId error : string)
| OpCancel (now : Z) (sessionId : string) (kinds : list JobKind) (reason : string)
| OpReconcile (now : Z).

Section ops.
Context `{RequestCodec}.

Definition run_op (op : LedgerOp) (t : JobTable) : JobTable :=
  match op with
  | OpEnqueue now jobs => (enqueue now jobs t).2
  | OpClaim now1 now2 now3 input => (claimNext now1 now2 now3 input t).2
  | OpRenew now1 now2 jobId workerId leaseMs => (renew now1 now2 jobId workerId leaseMs t).2
  | OpReclaim now => (reclaimExpired now t).2
  | OpSucceed now jobId workerId => (succeed now jobId workerId t).2
  | OpRetry now1 now2 jobId workerId delayMs error =>
      (retry now1 now2 jobId workerId delayMs error t).2
  | OpHold now jobId workerId error => (hold now jobId workerId error t).2
  | OpFail now jobId workerId error => (fail now jobId workerId error t).2
  | OpCancel now sessionId kinds reason => (cancelUnsettled now sessionId kinds reason t).2
  | OpReconcile now => (reconcileAfterProcessLoss now t).2
  end.

Definition run_ops (ops : list LedgerOp) (t : JobTable) : JobTable :=
  foldl (λ t op, run_op op t) t ops.

(** ** The table as a transition system

    Every operation is a sequence of three kinds of changes: a new row, a claim of
    one row whose session runs nothing, and changes of rows that never start a
    run. *)

Definition running (r : JobRow) : Prop := row_status r = JS_running.
#[global] Instance running_dec r : Decision (running r).
Proof. unfold running. apply _. Defined.

(** Back to the queue, unleased. *)
Definition requeue_row (status : JobStatus) (availableAt now : Z) (error : string)
    (r : JobRow) : JobRow :=
  unlease r <| row_status := status |> <| row_available_at := availableAt |>
    <| row_last_error := Some error |> <| row_updated_at := now |>.

(** Done for good. *)
Definition settle_row (status : JobStatus) (error : option string) (now : Z) (r : JobRow)
    : JobRow :=
  unlease r <| row_status := status |> <| row_last_error := error |>
    <| row_completed_at := Some now |> <| row_updated_at := now |>.

Inductive row_update (r : JobRow) : JobRow → Prop :=
| ru_renew expires now :
    running r →
    row_update r (r <| row_lease_expires_at := Some expires |> <| row_updated_at := now |>)
| ru_requeue status availableAt now error :
    unsettled r = true → status = JS_pending ∨ status = JS_waiting →
    row_update r (requeue_row status availableAt now error r)
| ru_settle status error now :
    unsettled r = true → status = JS_succeeded ∨ status = JS_failed ∨ status = JS_cancelled →
    row_update r (settle_row status error now r).

Inductive table_change (claimant : string → Prop) (t : JobTable) : JobTable → Prop :=
| tc_insert now job requestJson :
    pj_id job ∉ map row_id (tb_rows t) → encodeRequest (pj_request job) = Some requestJson →
    table_change claimant t
      {| tb_rows := tb_rows t ++ [inserted_row (tb_lastSequence t + 1) now job requestJson];
         tb_lastSequence := tb_lastSequence t + 1 |}
| tc_claim c workerId expires now :
    claimant workerId → c ∈ tb_rows t → unsettled c = true →
    session_running (row_session_id c) t = false →
    table_change claimant t
      (update_where (λ r, bool_decide (Some (row_sequence r) = Some (row_sequence c)))
         (claim_row workerId expires now) t).2
| tc_update p f :
    (∀ r, p r = true → row_update r (f r)) → table_change claimant t (update_where p f t).2.

(** An operation claims as a worker. *)
Definition claims_as (workerId : string) (op : LedgerOp) : bool :=
  match op with
  | OpClaim _ _ _ input => bool_decide (cl_workerId input = workerId)
  | _ => false
  end.

Lemma claim_candidate input before t c :
  candidate input before t = Some c →
  c ∈ tb_rows t ∧ claimable input before t c = true.
Proof.
  unfold candidate. intros H1. apply fmap_Some in H1 as ([i c'] & Hf & ->).
  apply list_find_Some in Hf as (Hl & Hc & _). split; [|done].
  by eapply list_elem_of_lookup_2.
Qed.

Lemma claimable_parts input before t c :
  claimable input before t c = true →
  unsettled c = true ∧ ¬ running c ∧ session_running (row_session_id c) t = false
  ∧ (row_status c = JS_pending ∨ row_status c = JS_waiting).
Proof.
  unfold claimable, unsettled, running. rewrite !andb_true_iff, negb_true_iff.
  intros [[[Hs _] _] Hr]. apply orb_true_iff in Hs as [[Hs _]%andb_true_iff|[Hs _]%andb_true_iff];
    apply bool_decide_eq_true in Hs; rewrite Hs; split_and!; auto; done.
Qed.

Lemma update_where_none p f t :
  (∀ r, p r = false) → update_where p f t = ([], t).
Proof.
  intros Hp. destruct t as [rows n]. unfold update_where. cbn. f_equal; [|f_equal].
  - induction rows as [|r rows IH]; [done|]. rewrite filter_cons, decide_False; [done|].
    by rewrite Hp.
  - induction rows as [|r rows IH]; [done|]. cbn. unfold update_row at 1. by rewrite Hp, IH.
Qed.

Lemma owned_live_running jobId workerId now r :
  owned_live jobId workerId now r = true → running r.
Proof.
  unfold owned_live. rewrite !andb_true_iff. intros [[[_ Hr] _] _].
  by apply bool_decide_eq_true in Hr.
Qed.

Lemma running_unsettled r : running r → unsettled r = true.
Proof. unfold running, unsettled. by intros ->. Qed.

Lemma update_owned_change who jobId workerId now f t :
  (∀ r, running r → row_update r (f r)) →
  table_change who t (update_owned jobId workerId now f t).2.
Proof. intros Hf. apply tc_update. intros r Hr. apply Hf. by eapply owned_live_running. Qed.

Lemma enqueue_loop_changes who now jobs n t :
  rtc (table_change who) t (enqueue_loop now jobs n t).2.
Proof.
  revert n t. induction jobs as [|job jobs IH]; intros n t; cbn; [done|].
  destruct (encodeRequest (pj_request job)) as [json|] eqn:He; [|done].
  unfold insert_or_ignore. case_decide as Hin; [apply IH|].
  eapply rtc_l; [|apply IH]. by eapply tc_insert.
Qed.

Lemma run_op_changes (who : string → Prop) op t :
  (∀ w, claims_as w op = true → who w) → rtc (table_change who) t (run_op op t).
Proof.
  intros Hwho. destruct op; cbn [run_op].
  - apply enqueue_loop_changes.
  - unfold claimNext. destruct (candidate input _ t) as [c|] eqn:Hc; cbn [fmap option_fmap option_map].
    + apply claim_candidate in Hc as [Hin Hc]. apply claimable_parts in Hc as (Hu & _ & Hs & _).
      apply rtc_once. apply tc_claim; [|done..]. apply Hwho. cbn. by apply bool_decide_eq_true.
    + by rewrite update_where_none.
  - apply rtc_once, update_owned_change. intros r. apply ru_renew.
  - apply rtc_once. unfold reclaimExpired. apply tc_update. intros r Hr.
    apply (ru_requeue r JS_pending now now msg_expired); [|auto].
    unfold expired in Hr. apply andb_true_iff in Hr as [Hr%bool_decide_eq_true _].
    by apply running_unsettled.
  - apply rtc_once, update_owned_change. intros r Hr%running_unsettled.
    apply (ru_settle r JS_succeeded (row_last_error r) now); auto.
  - apply rtc_once, update_owned_change. intros r Hr%running_unsettled.
    apply (ru_requeue r JS_pending (now2 + delayMs) now1 error); auto.
  - apply rtc_once, update_owned_change. intros r Hr%running_unsettled.
    apply (ru_requeue r JS_waiting now now error); auto.
  - apply rtc_once, update_owned_change. intros r Hr%running_unsettled.
    apply (ru_settle r JS_failed (Some error) now); auto.
  - destruct kinds as [|k kinds]; [done|]. apply rtc_once, tc_update. intros r Hr.
    rewrite !andb_true_iff in Hr. apply (ru_settle r JS_cancelled (Some reason) now); naive_solver.
  - eapply rtc_l; [|apply rtc_once]; [|apply tc_update; intros r Hr].
    + apply tc_update. intros r Hr. rewrite andb_true_iff, orb_true_iff, !bool_decide_eq_true in Hr.
      apply (ru_requeue r JS_pending now now msg_requeued); [|auto].
      unfold unsettled. by destruct Hr as [[-> | ->] _].
    + rewrite andb_true_iff in Hr. apply (ru_settle r JS_cancelled (Some msg_lost) now); naive_solver.
Qed.

Lemma run_ops_changes (who : string → Prop) ops t :
  (∀ w op, op ∈ ops → claims_as w op = true → who w) →
  rtc (table_change who) t (run_ops ops t).
Proof.
  unfold run_ops. revert t. induction ops as [|op ops IH]; intros t Hwho; cbn; [done|].
  etrans; [apply run_op_changes; intros w; by apply Hwho; left|].
  apply IH. intros w op' Hin. apply Hwho. by right.
Qed.

Lemma run_ops_reach ops t : rtc (table_change (λ _, True)) t (run_ops ops t).
Proof. by apply run_ops_changes. Qed.

(** ** The invariant *)

(** The columns no operation rewrites. *)
Definition identity (r : JobRow) :=
  (row_sequence r, row_id r, row_session_id r, row_kind r, row_request_json r,
   (row_causation_event_id r, row_correlation_id r, row_created_at r)).

(** A row's lease, completion and attempts agree with its status. *)
Record row_ok (r : JobRow) : Prop := {
  ro_running : running r → is_Some (row_lease_owner r) ∧ is_Some (row_lease_expires_at r)
                           ∧ 1 ≤ row_attempt_count r;
  ro_idle : ¬ running r → row_lease_owner r = None ∧ row_lease_expires_at r = None;
  ro_completed : is_Some (row_completed_at r) ↔ unsettled r = false;
  ro_attempts : 0 ≤ row_attempt_count r }.

Definition one_running (rows : list JobRow) : Prop :=
  ∀ i j r r', rows !! i = Some r → rows !! j = Some r' → running r → running r' →
    row_session_id r = row_session_id r' → i = j.

(** The rows are listed in the order of their sequence. *)
Definition in_sequence (rows : list JobRow) : Prop :=
  ∀ i j r r', rows !! i = Some r → rows !! j = Some r' → (i < j)%nat →
    row_sequence r < row_sequence r'.

Record ledger_inv (t : JobTable) : Prop := {
  li_sorted : in_sequence (tb_rows t);
  li_last : Forall (λ r, row_sequence r ≤ tb_lastSequence t) (tb_rows t);
  li_ids : NoDup (map row_id (tb_rows t));
  li_rows : Forall row_ok (tb_rows t);
  li_one : one_running (tb_rows t) }.

Lemma row_update_identity r r' : row_update r r' → identity r' = identity r.
Proof. by destruct 1. Qed.

Lemma row_update_running r r' : row_update r r' → running r' → running r.
Proof.
  destruct 1 as [? ? Hr|? ? ? ? _ Hs|? ? ? _ Hs]; [done|..]; unfold running; cbn;
    intros ->; naive_solver.
Qed.

Lemma row_update_unsettled r r' : row_update r r' → unsettled r = true.
Proof. by destruct 1 as [? ? Hr%running_unsettled|? ? ? ? Hu _|? ? ? Hu _]. Qed.

Lemma row_update_ok r r' : row_update r r' → row_ok r → row_ok r'.
Proof.
  destruct 1 as [? ? Hr|? ? ? ? Hu Hs|? ? ? Hu Hs]; intros [H1 H2 H3 H4]; constructor; cbn; try done.
  - intros _. specialize (H1 Hr). naive_solver.
  - unfold running; cbn. intros ->. naive_solver.
  - rewrite H3, Hu. unfold unsettled. cbn. by destruct Hs as [-> | ->].
  - unfold running; cbn. intros ->. naive_solver.
  - split; [|by eexists]. intros _. unfold unsettled. cbn. by destruct Hs as [-> | [-> | ->]].
Qed.

Lemma claim_row_ok w e now r : unsettled r = true → row_ok r → row_ok (claim_row w e now r).
Proof.
  intros Hu [H1 H2 H3 H4]. constructor; cbn; try done.
  - intros _. split_and!; [by eexists..|lia].
  - by rewrite H3, Hu.
  - lia.
Qed.

Lemma update_row_identity p f r :
  (p r = true → identity (f r) = identity r) → identity (update_row p f r) = identity r.
Proof. unfold update_row. destruct (p r); auto. Qed.

Lemma map_identity {A} (col : JobRow → A) g (rows : list JobRow) :
  (∀ r r', identity r = identity r' → col r = col r') →
  (∀ r, identity (g r) = identity r) → map col (map g rows) = map col rows.
Proof. intros Hc Hg. rewrite map_map. apply map_ext. intros r. apply Hc, Hg. Qed.

Lemma identity_columns r r' :
  identity r = identity r' →
  row_sequence r = row_sequence r' ∧ row_id r = row_id r'
  ∧ row_session_id r = row_session_id r' ∧ row_kind r = row_kind r'
  ∧ row_request_json r = row_request_json r'.
Proof. unfold identity. intros Heq. by simplify_eq. Qed.

Lemma session_running_false s t :
  session_running s t = false → ∀ r, r ∈ tb_rows t → running r → row_session_id r ≠ s.
Proof.
  intros Hs r Hin Hr <-. eapply eq_true_false_abs; [|exact Hs]. apply existsb_exists. exists r. split; [by apply list_elem_of_In|].
  unfold running in Hr. rewrite Hr, bool_decide_true by done. done.
Qed.

Lemma session_running_true s t :
  session_running s t = true → ∃ r, r ∈ tb_rows t ∧ running r ∧ row_session_id r = s.
Proof.
  unfold session_running. intros (r & Hin%list_elem_of_In & Hr)%existsb_exists.
  rewrite andb_true_iff, !bool_decide_eq_true in Hr. exists r. naive_solver.
Qed.

(** Sequences identify the rows of a table. *)
Lemma in_sequence_inj rows i j r r' :
  in_sequence rows → rows !! i = Some r → rows !! j = Some r' →
  row_sequence r = row_sequence r' → i = j.
Proof.
  intros Hs Hi Hj He. destruct (Nat.lt_trichotomy i j) as [Hlt|[?|Hlt]]; [|done|]; exfalso.
  - specialize (Hs _ _ _ _ Hi Hj Hlt). lia.
  - specialize (Hs _ _ _ _ Hj Hi Hlt). lia.
Qed.

(** A change of rows that keeps their identity keeps the order, the bound and the
    ids. *)
Lemma identity_change_inv g n rows :
  (∀ r, identity (g r) = identity r) →
  in_sequence rows → Forall (λ r, row_sequence r ≤ n) rows → NoDup (map row_id rows) →
  in_sequence (map g rows) ∧ Forall (λ r, row_sequence r ≤ n) (map g rows)
  ∧ NoDup (map row_id (map g rows)).
Proof.
  intros Hg Hs Hl Hn.
  assert (∀ r, row_sequence (g r) = row_sequence r) as Hseq
    by (intros r; by destruct (identity_columns _ _ (Hg r))).
  split_and!.
  - intros i j r r' Hi Hj Hlt. change (map g rows) with (g <$> rows) in Hi, Hj.
    rewrite list_lookup_fmap in Hi, Hj.
    apply fmap_Some in Hi as (r0 & Hi & ->). apply fmap_Some in Hj as (r1 & Hj & ->).
    rewrite !Hseq. by eapply Hs.
  - apply Forall_fmap. eapply Forall_impl; [exact Hl|]. cbn. intros r. by rewrite Hseq.
  - rewrite map_identity; [done| |done]. intros r r' Heq.
    by destruct (identity_columns _ _ Heq) as (_ & ? & _).
Qed.

(** Rows that run after a change ran before it. *)
Lemma one_running_change g rows :
  (∀ r, r ∈ rows → running (g r) → running r) →
  (∀ r, row_session_id (g r) = row_session_id r) →
  one_running rows → one_running (map g rows).
Proof.
  intros Hr Hsid Ho i j r r' Hi Hj. change (map g rows) with (g <$> rows) in Hi, Hj.
  rewrite list_lookup_fmap in Hi, Hj.
  apply fmap_Some in Hi as (r0 & Hi & ->). apply fmap_Some in Hj as (r1 & Hj & ->).
  rewrite !Hsid. intros Hr0%Hr Hr1%Hr; [by eapply Ho|by eapply list_elem_of_lookup_2..].
Qed.

Lemma update_where_inv p f t :
  (∀ r, p r = true → row_update r (f r)) → ledger_inv t → ledger_inv (update_where p f t).2.
Proof.
  intros Hf [Hs Hl Hn Hr Ho]. cbn.
  assert (∀ r, identity (update_row p f r) = identity r) as Hid
    by (intros r; apply update_row_identity; intros; by apply row_update_identity, Hf).
  destruct (identity_change_inv _ _ _ Hid Hs Hl Hn) as (Hs' & Hl' & Hn').
  constructor; cbn; [exact Hs'|exact Hl'|exact Hn'| |].
  - apply Forall_fmap. eapply Forall_impl; [exact Hr|]. cbn. intros r. unfold update_row.
    destruct (p r) eqn:Hp; [|done]. by apply row_update_ok, Hf.
  - apply one_running_change; [| |done].
    + intros r _. unfold update_row. destruct (p r) eqn:Hp; [|done].
      by apply row_update_running, Hf.
    + intros r. by destruct (identity_columns _ _ (Hid r)) as (_ & _ & ? & _).
Qed.

Lemma claim_inv t c w e now :
  c ∈ tb_rows t → unsettled c = true → session_running (row_session_id c) t = false →
  ledger_inv t →
  ledger_inv (update_where (λ r, bool_decide (Some (row_sequence r) = Some (row_sequence c)))
                (claim_row w e now) t).2.
Proof.
  intros Hin Hu Hrun [Hs Hl Hn Hr Ho]. cbn.
  set (p := λ r, bool_decide (Some (row_sequence r) = Some (row_sequence c))).
  assert (∀ r, identity (update_row p (claim_row w e now) r) = identity r) as Hid
    by (intros r; by apply update_row_identity).
  destruct (identity_change_inv _ _ _ Hid Hs Hl Hn) as (Hs' & Hl' & Hn').
  apply list_elem_of_lookup in Hin as (k & Hk).
  assert (∀ i r, tb_rows t !! i = Some r → p r = true → i = k ∧ r = c) as Honly.
  { intros i r Hi Hp. subst p. apply bool_decide_eq_true in Hp. injection Hp as Hp.
    pose proof (in_sequence_inj _ _ _ _ _ Hs Hi Hk Hp) as ->. split; congruence. }
  constructor; cbn; [exact Hs'|exact Hl'|exact Hn'| |].
  - apply Forall_fmap, Forall_forall. intros r Hr'. apply list_elem_of_lookup in Hr' as (i & Hi).
    cbn. unfold update_row. destruct (p r) eqn:Hp.
    + destruct (Honly i r Hi Hp) as [-> ->]. apply claim_row_ok; [done|].
      by eapply Forall_lookup_1.
    + by eapply Forall_lookup_1.
  - pose proof (session_running_false _ _ Hrun) as Hfree.
    intros i j r r' Hi Hj. change (map ?f ?l) with (f <$> l) in Hi, Hj.
    rewrite list_lookup_fmap in Hi, Hj.
    apply fmap_Some in Hi as (r0 & Hi & ->). apply fmap_Some in Hj as (r1 & Hj & ->).
    unfold update_row. destruct (p r0) eqn:H0, (p r1) eqn:H1.
    + intros _ _ _. destruct (Honly _ _ Hi H0), (Honly _ _ Hj H1). congruence.
    + intros _ Hrun1 Hsid. destruct (Honly _ _ Hi H0) as [_ ->]. exfalso.
      eapply Hfree; [|exact Hrun1|by rewrite <-Hsid]. by eapply list_elem_of_lookup_2.
    + intros Hrun0 _ Hsid. destruct (Honly _ _ Hj H1) as [_ ->]. exfalso.
      eapply Hfree; [|exact Hrun0|by rewrite Hsid]. by eapply list_elem_of_lookup_2.
    + intros. by eapply Ho.
Qed.

Lemma insert_inv t now job json :
  pj_id job ∉ map row_id (tb_rows t) → ledger_inv t →
  ledger_inv {| tb_rows := tb_rows t ++ [inserted_row (tb_lastSequence t + 1) now job json];
                tb_lastSequence := tb_lastSequence t + 1 |}.
Proof.
  intros Hin [Hs Hl Hn Hr Ho]. constructor; cbn.
  - intros i j r r' Hi Hj Hlt.
    apply lookup_app_Some in Hj as [Hj|[Hge Hj]].
    + rewrite lookup_app_l in Hi; [by eapply Hs|]. apply lookup_lt_Some in Hj. lia.
    + apply list_lookup_singleton_Some in Hj as [Hj <-]. cbn.
      rewrite lookup_app_l in Hi by lia. eapply Forall_lookup_1 in Hl; [|done]. cbn in Hl. lia.
  - apply Forall_app. split; [|by repeat constructor; cbn; lia].
    eapply Forall_impl; [exact Hl|]. cbn. lia.
  - rewrite map_app. apply NoDup_app. split_and!; [done| |apply NoDup_singleton].
    intros x Hx Hx'. apply list_elem_of_singleton in Hx'. cbn in Hx'. congruence.
  - apply Forall_app. split; [done|]. constructor; [|done]. by constructor; cbn.
  - intros i j r r' Hi Hj. apply lookup_app_Some in Hi as [Hi|[_ Hi]];
      apply lookup_app_Some in Hj as [Hj|[_ Hj]].
    + by eapply Ho.
    + apply list_lookup_singleton_Some in Hj as [_ <-]. intros _ Hj. done.
    + apply list_lookup_singleton_Some in Hi as [_ <-]. intros Hi _. done.
    + apply list_lookup_singleton_Some in Hi as [_ <-]. intros Hi _. done.
Qed.

Lemma ledger_inv_change who t t' : table_change who t t' → ledger_inv t → ledger_inv t'.
Proof.
  destruct 1; [by apply insert_inv|by apply claim_inv|by apply update_where_inv].
Qed.

Lemma ledger_inv_changes who t t' : rtc (table_change who) t t' → ledger_inv t → ledger_inv t'.
Proof. induction 1; eauto using ledger_inv_change. Qed.

Lemma ledger_inv_empty : ledger_inv emptyTable.
Proof. constructor; cbn; try constructor; [by intros i j r r' Hi|by intros i j r r' Hi]. Qed.

Lemma run_ops_inv ops : ledger_inv (run_ops ops emptyTable).
Proof. eapply ledger_inv_changes; [apply run_ops_reach|apply ledger_inv_empty]. Qed.

(** ** Settled rows *)

Lemma update_row_settled p f r :
  (∀ r, p r = true → unsettled r = true) → unsettled r = false → update_row p f r = r.
Proof. intros Hp Hu. unfold update_row. destruct (p r) eqn:He; [|done]. apply Hp in He. congruence. Qed.

(** A change keeps the settled rows at their places. *)
Lemma settled_change who t t' i r :
  table_change who t t' → ledger_inv t →
  tb_rows t !! i = Some r → unsettled r = false → tb_rows t' !! i = Some r.
Proof.
  destruct 1 as [now job json|c w e now _ Hin Hu Hrun|p f Hf]; intros Hinv Hi Hs; cbn.
  - by apply lookup_app_l_Some.
  - change (map ?f ?l) with (f <$> l). rewrite list_lookup_fmap, Hi. cbn. f_equal.
    unfold update_row. case_bool_decide as He; [|done]. exfalso. injection He as He.
    apply list_elem_of_lookup in Hin as (k & Hk).
    pose proof (in_sequence_inj _ _ _ _ _ (li_sorted _ Hinv) Hi Hk He) as ->. congruence.
  - change (map ?f ?l) with (f <$> l). rewrite list_lookup_fmap, Hi. cbn. f_equal.
    apply update_row_settled; [|done]. intros r' Hr'. by eapply row_update_unsettled, Hf.
Qed.

Lemma settled_changes who t t' i r :
  rtc (table_change who) t t' → ledger_inv t →
  tb_rows t !! i = Some r → unsettled r = false → tb_rows t' !! i = Some r.
Proof. induction 1; eauto using settled_change, ledger_inv_change. Qed.

(** ** Identities *)

Lemma update_where_identity p f t :
  (∀ r, identity (f r) = identity r) →
  map identity (tb_rows (update_where p f t).2) = map identity (tb_rows t).
Proof.
  intros Hf. cbn. rewrite map_map. apply map_ext. intros r. by apply update_row_identity.
Qed.

Definition is_enqueue (op : LedgerOp) : bool :=
  match op with OpEnqueue _ _ => true | _ => false end.

(** Only enqueueing adds rows. *)
Lemma run_op_identity op t :
  is_enqueue op = false → map identity (tb_rows (run_op op t)) = map identity (tb_rows t).
Proof.
  destruct op; intros Hop; try done; cbn [run_op].
  - unfold claimNext. cbn zeta. by apply update_where_identity.
  - by apply update_where_identity.
  - by apply update_where_identity.
  - by apply update_where_identity.
  - by apply update_where_identity.
  - by apply update_where_identity.
  - by apply update_where_identity.
  - destruct kinds; [done|]. by apply update_where_identity.
  - unfold reconcileAfterProcessLoss. etrans; by apply update_where_identity.
Qed.
End ops.
