(* ===== verification/JobLedgerProps.v ===== *)
(** * Theorems about the job ledger *)
From S2P Require Import Prelude Js Jobs JobLedger LedgerInv.

Local Open Scope Z_scope.

Section table.
Context `{RequestCodec}.

(** ** Updates of owned rows *)

Lemma filter_map_nil {A B} (p : A → bool) (f : A → B) l :
  map f (filter (λ r, p r = true) l) = [] ↔ ∀ r, r ∈ l → p r = false.
Proof.
  induction l as [|x l IH]; [by split; [intros _ r Hr; inversion Hr|]|]. rewrite filter_cons.
  destruct (decide (p x = true)) as [Hp|Hp].
  - split; [done|]. intros Hf. specialize (Hf x ltac:(left)). congruence.
  - rewrite IH. split; [|intros Hf r Hr; apply Hf; by right].
    intros Hf r [-> |Hr]%elem_of_cons; [by apply not_true_is_false|by apply Hf].
Qed.

Lemma map_update_row_id p f (rows : list JobRow) :
  (∀ r, r ∈ rows → p r = false) → map (update_row p f) rows = rows.
Proof.
  induction rows as [|r rows IH]; cbn; [done|]. intros Hp. f_equal.
  - unfold update_row. by rewrite Hp by left.
  - apply IH. intros r' Hr'. apply Hp. by right.
Qed.

Lemma update_where_no_match p f t :
  (∀ r, r ∈ tb_rows t → p r = false) → update_where p f t = ([], t).
Proof.
  intros Hp. unfold update_where. rewrite (map_update_row_id p f _ Hp).
  rewrite (proj2 (filter_map_nil p f (tb_rows t)) Hp). by destruct t.
Qed.

(** An owned update succeeds exactly when a row matches, and otherwise changes
    nothing. *)
Lemma update_owned_spec jobId workerId now f t :
  (∃ r, r ∈ tb_rows t ∧ owned_live jobId workerId now r = true
        ∧ update_owned jobId workerId now f t
          = (true, (update_where (owned_live jobId workerId now) f t).2))
  ∨ ((∀ r, r ∈ tb_rows t → owned_live jobId workerId now r = false)
     ∧ update_owned jobId workerId now f t = (false, t)).
Proof.
  destruct (existsb (owned_live jobId workerId now) (tb_rows t)) eqn:He.
  - left. apply existsb_exists in He as (r & Hin%list_elem_of_In & Hr). exists r.
    split_and!; [done..|]. unfold update_owned, update_where. cbn [fst snd].
    destruct (map f _) eqn:Hm; [|done]. rewrite filter_map_nil in Hm. rewrite Hm in Hr; done.
  - right. assert (∀ r, r ∈ tb_rows t → owned_live jobId workerId now r = false) as Hp.
    { intros r Hr. apply not_true_is_false. intros Ho.
      eapply eq_true_false_abs; [|exact He]. apply existsb_exists. exists r.
      by split; [apply list_elem_of_In|]. }
    split; [done|]. unfold update_owned. by rewrite update_where_no_match.
Qed.

Definition settlement_row (s : Settlement) (now1 now2 : Z) (r : JobRow) : JobRow :=
  match s with
  | S_succeed => settle_row JS_succeeded (row_last_error r) now1 r
  | S_retry delayMs error => requeue_row JS_pending (now2 + delayMs) now1 error r
  | S_hold error => requeue_row JS_waiting now1 now1 error r
  | S_fail error => settle_row JS_failed (Some error) now1 r
  end.

Lemma settle_with_update s now1 now2 jobId workerId t :
  settle_with s now1 now2 jobId workerId t
  = update_owned jobId workerId now1 (settlement_row s now1 now2) t.
Proof. by destruct s. Qed.

Lemma owned_live_true jobId workerId now r :
  owned_live jobId workerId now r = true ↔
  row_id r = jobId ∧ running r ∧ row_lease_owner r = Some workerId
  ∧ ∃ e, row_lease_expires_at r = Some e ∧ now < e.
Proof.
  unfold owned_live, running. rewrite !andb_true_iff, !bool_decide_eq_true.
  destruct (row_lease_expires_at r); [rewrite Z.ltb_lt|]; naive_solver.
Qed.

Lemma settlement_not_running s now1 now2 r : ¬ running (settlement_row s now1 now2 r).
Proof. by destruct s. Qed.

Lemma settlement_id s now1 now2 r : row_id (settlement_row s now1 now2 r) = row_id r.
Proof. by destruct s. Qed.

Lemma id_unique t r r' :
  ledger_inv t → r ∈ tb_rows t → r' ∈ tb_rows t → row_id r = row_id r' → r = r'.
Proof.
  intros Hinv (i & Hi)%list_elem_of_lookup (j & Hj)%list_elem_of_lookup He.
  assert (i = j) as ->; [|congruence]. eapply NoDup_lookup; [exact (li_ids _ Hinv)|..];
    change (map ?f ?l) with (f <$> l); rewrite list_lookup_fmap; [by rewrite Hi|].
  rewrite Hj. cbn. by rewrite He.
Qed.

(** ** Theorems *)

(** C25: the invariant of the job table, after any sequence of ledger operations with
    any inputs and clock readings: the rows are in sequence order with distinct ids,
    at most one job of a session runs, exactly the running jobs hold a lease, and
    exactly the settled ones have a completion time. *)
Theorem job_table_invariant ops : ledger_inv (run_ops ops emptyTable).
Proof. apply run_ops_inv. Qed.

(** A settled job (succeeded, failed or cancelled) is never changed again, by any
    sequence of operations. *)
Theorem settled_jobs_final before after r :
  r ∈ tb_rows (run_ops before emptyTable) → unsettled r = false →
  r ∈ tb_rows (run_ops (before ++ after) emptyTable).
Proof.
  intros (i & Hi)%list_elem_of_lookup Hu. unfold run_ops. rewrite foldl_app.
  eapply list_elem_of_lookup_2, settled_changes; [apply run_ops_reach| |exact Hi|done].
  apply run_ops_inv.
Qed.

Lemma claimNext_last now1 now2 now3 input t answer t' :
  claimNext now1 now2 now3 input t = (answer, t') → tb_lastSequence t' = tb_lastSequence t.
Proof. unfold claimNext. cbn. by intros [= _ <-]. Qed.

Lemma claimNext_spec now1 now2 now3 input t answer t' :
  ledger_inv t → claimNext now1 now2 now3 input t = (answer, t') →
  let ready := claimable input (now2 - default 0 (cl_minAgeMs input)) t in
  (answer = Success None ∧ t' = t ∧ ∀ r, r ∈ tb_rows t → ready r = false)
  ∨ ∃ i c, let c' := claim_row (cl_workerId input) (now3 + cl_leaseMs input) now1 c in
     tb_rows t !! i = Some c ∧ ready c = true
     ∧ (∀ r, r ∈ tb_rows t → ready r = true → row_sequence c ≤ row_sequence r)
     ∧ tb_rows t' = <[i := c']> (tb_rows t)
     ∧ answer = result_map Some (decodeRow c').
Proof.
  intros Hinv Hc. cbn zeta. unfold claimNext in Hc. cbn zeta in Hc.
  set (b := now2 - _) in *. unfold candidate in Hc.
  destruct (list_find _ (tb_rows t)) as [[i c]|] eqn:Hf; cbn [fmap option_fmap option_map snd] in Hc.
  - right. apply list_find_Some in Hf as (Hi & Hready & Hfirst). exists i, c. cbn zeta.
    split_and!; [done|done| | |].
    + intros r (j & Hj)%list_elem_of_lookup Hr. destruct (Nat.lt_trichotomy i j) as [Hlt|[->|Hlt]].
      * pose proof (li_sorted _ Hinv _ _ _ _ Hi Hj Hlt). lia.
      * rewrite Hi in Hj. injection Hj as ->. lia.
      * by destruct (Hfirst _ _ Hj Hlt).
    + injection Hc as _ <-. cbn. apply list_eq. intros j. change (map ?f ?l) with (f <$> l).
      rewrite list_lookup_fmap. destruct (decide (i = j)) as [->|Hne].
      * rewrite Hi, list_lookup_insert_eq by (by eapply lookup_lt_Some). cbn. f_equal.
        unfold update_row. by rewrite bool_decide_true.
      * rewrite list_lookup_insert_ne by done. destruct (tb_rows t !! j) as [r|] eqn:Hj; [|done].
        cbn. f_equal. unfold update_row. case_bool_decide as He; [|done]. injection He as He.
        by destruct Hne, (in_sequence_inj _ _ _ _ _ (li_sorted _ Hinv) Hj Hi He).
    + injection Hc as <- _. clear Hready Hfirst.
      assert (filter (λ r, bool_decide (Some (row_sequence r) = Some (row_sequence c)) = true)
                (tb_rows t) = [c]) as ->; [|done].
      apply (filter_singleton_lookup _ i); [done|by rewrite bool_decide_true|].
      intros j r Hj He%bool_decide_eq_true. injection He as He.
      by apply (in_sequence_inj _ _ _ _ _ (li_sorted _ Hinv) Hj Hi).
  - left. rewrite update_where_none in Hc by done. injection Hc as <- <-.
    split_and!; [done..|]. intros r Hr. apply list_find_None in Hf.
    eapply Forall_forall in Hf; [|done]. by apply not_true_is_false.
Qed.

(** A claim takes the oldest claimable job: it returns nothing and changes nothing
    exactly when no job is claimable; otherwise the claimable row of the smallest
    sequence becomes running under the claimant's lease with one attempt more, no
    other row changes, and the answer is that row (or the failure to decode it). *)
Theorem claim_takes_oldest now1 now2 now3 input t answer t' :
  ledger_inv t → claimNext now1 now2 now3 input t = (answer, t') →
  let ready := claimable input (now2 - default 0 (cl_minAgeMs input)) t in
  (answer = Success None ∧ t' = t ∧ ∀ r, r ∈ tb_rows t → ready r = false)
  ∨ ∃ i c, let c' := claim_row (cl_workerId input) (now3 + cl_leaseMs input) now1 c in
     tb_rows t !! i = Some c ∧ ready c = true
     ∧ (∀ r, r ∈ tb_rows t → ready r = true → row_sequence c ≤ row_sequence r)
     ∧ tb_rows t' = <[i := c']> (tb_rows t)
     ∧ answer = result_map Some (decodeRow c').
Proof. apply claimNext_spec. Qed.

(** An accepted update of an owned row rewrites that row alone. *)
Lemma update_owned_insert jobId workerId now f t :
  ledger_inv t →
  (∃ i r, tb_rows t !! i = Some r ∧ owned_live jobId workerId now r = true
     ∧ tb_rows (update_owned jobId workerId now f t).2 = <[i := f r]> (tb_rows t)
     ∧ tb_lastSequence (update_owned jobId workerId now f t).2 = tb_lastSequence t
     ∧ (update_owned jobId workerId now f t).1 = true)
  ∨ ((∀ r, r ∈ tb_rows t → owned_live jobId workerId now r = false)
     ∧ update_owned jobId workerId now f t = (false, t)).
Proof.
  intros Hinv. destruct (update_owned_spec jobId workerId now f t)
    as [(r & Hin & Ho & He)|?]; [left|by right].
  apply list_elem_of_lookup in Hin as (i & Hi). exists i, r. rewrite He.
  split_and!; [done|done| |done|done]. cbn. apply list_eq. intros j.
  change (map ?f ?l) with (f <$> l). rewrite list_lookup_fmap.
  destruct (decide (i = j)) as [->|Hne].
  - rewrite Hi, list_lookup_insert_eq by (by eapply lookup_lt_Some). cbn. f_equal.
    unfold update_row. by rewrite Ho.
  - rewrite list_lookup_insert_ne by done. destruct (tb_rows t !! j) as [r'|] eqn:Hj; [|done].
    cbn. f_equal. unfold update_row. destruct (owned_live _ _ _ r') eqn:Ho'; [|done].
    apply owned_live_true in Ho as (Hid & _). apply owned_live_true in Ho' as (Hid' & _).
    destruct Hne. eapply NoDup_lookup; [exact (li_ids _ Hinv)|..];
      change (map ?f ?l) with (f <$> l); rewrite list_lookup_fmap; [by rewrite Hi|].
    rewrite Hj. cbn. by rewrite Hid, Hid'.
Qed.

Lemma owned_live_id_unique t i r jobId w now f j r' :
  ledger_inv t → tb_rows t !! i = Some r → row_id r = jobId → ¬ running (f r) →
  row_id (f r) = row_id r → <[i := f r]> (tb_rows t) !! j = Some r' →
  owned_live jobId w now r' = false.
Proof.
  intros Hinv Hi Hid Hrun Hf Hj. apply not_true_iff_false. intros Ho.
  apply owned_live_true in Ho as (Hid' & Hrun' & _).
  destruct (decide (i = j)) as [->|Hne].
  - rewrite list_lookup_insert_eq in Hj by (by eapply lookup_lt_Some). congruence.
  - rewrite list_lookup_insert_ne in Hj by done. destruct Hne.
    eapply NoDup_lookup; [exact (li_ids _ Hinv)|..];
      change (map ?f ?l) with (f <$> l); rewrite list_lookup_fmap; [by rewrite Hi|].
    rewrite Hj. cbn. by rewrite Hid, Hid'.
Qed.

(** C31: only the holder of a live lease settles a job, and only once: settling
    (success, retry, parking or failure) reports true exactly when the job runs under
    the caller's unexpired lease; a refused settlement changes nothing; after an
    accepted one the row is back in the queue or done, and every later settlement of
    that job is refused, whoever asks. *)
Theorem settlement_exclusive s now1 now2 jobId workerId t settled t' :
  ledger_inv t → settle_with s now1 now2 jobId workerId t = (settled, t') →
  (settled = true ↔
   ∃ r e, r ∈ tb_rows t ∧ row_id r = jobId ∧ running r
          ∧ row_lease_owner r = Some workerId ∧ row_lease_expires_at r = Some e ∧ now1 < e)
  ∧ (settled = false → t' = t)
  ∧ (settled = true →
     ∃ i r, tb_rows t !! i = Some r ∧ row_id r = jobId
       ∧ tb_rows t' = <[i := settlement_row s now1 now2 r]> (tb_rows t)
       ∧ ∀ again later1 later2 other,
           settle_with again later1 later2 jobId other t' = (false, t')).
Proof.
  intros Hinv Hs. rewrite settle_with_update in Hs.
  destruct (update_owned_insert jobId workerId now1 (settlement_row s now1 now2) t Hinv)
    as [(i & r & Hi & Ho & Hrows & _ & Hb)|[Hno He]].
  2: { rewrite He in Hs. injection Hs as <- <-. split_and!; [|done..]. split; [done|].
       intros (r & e & Hin & Hr). specialize (Hno r Hin).
       rewrite <-not_true_iff_false, owned_live_true in Hno. naive_solver. }
  rewrite Hs in Hrows, Hb. cbn in Hrows, Hb. subst settled.
  pose proof Ho as (Hid & Hrun & Hown & e & Hexp & Hlt)%owned_live_true.
  split_and!; [|done|].
  - split; [|done]. intros _. exists r, e. split_and!; try done. by eapply list_elem_of_lookup_2.
  - intros _. exists i, r. split_and!; [done..|]. intros again later1 later2 other.
    rewrite settle_with_update. destruct (update_owned_spec jobId other later1
      (settlement_row again later1 later2) t') as [(r1 & Hin1 & Ho1 & _)|[_ He1]]; [exfalso|done].
    apply list_elem_of_lookup in Hin1 as (j & Hj). rewrite Hrows in Hj.
    rewrite (owned_live_id_unique t i r jobId other later1 (settlement_row s now1 now2) j r1)
      in Ho1; try done; [apply settlement_not_running|apply settlement_id].
Qed.

(** ** Fencing *)

(** No row of the job is leased to the owner. *)
Definition unowned (jobId workerId : string) (t : JobTable) : Prop :=
  ∀ r, r ∈ tb_rows t → row_id r = jobId → row_lease_owner r ≠ Some workerId.

Lemma row_update_owner r r' w :
  row_update r r' → row_lease_owner r' = Some w → row_lease_owner r = Some w.
Proof. by destruct 1. Qed.

Lemma unowned_change who jobId w t t' :
  table_change who t t' → ¬ who w → unowned jobId w t → unowned jobId w t'.
Proof.
  destruct 1 as [now job json|c w' e now Hw _ _ _|p f Hf]; intros Hno Hu r' Hin; cbn in Hin.
  - apply elem_of_app in Hin as [Hin|Hin]; [by apply Hu|].
    by apply list_elem_of_singleton in Hin as ->.
  - change (map ?f ?l) with (f <$> l) in Hin.
    apply list_elem_of_fmap in Hin as (r & -> & Hin). unfold update_row.
    case_bool_decide; [|by apply Hu]. cbn. intros _ [= <-]. done.
  - change (map ?f ?l) with (f <$> l) in Hin.
    apply list_elem_of_fmap in Hin as (r & -> & Hin). unfold update_row.
    destruct (p r) eqn:Hp; [|by apply Hu]. specialize (Hf r Hp).
    destruct (identity_columns _ _ (row_update_identity _ _ Hf)) as (_ & -> & _).
    intros Hid Ho%(row_update_owner _ _ _ Hf). by eapply Hu.
Qed.

Lemma unowned_changes who jobId w t t' :
  rtc (table_change who) t t' → ¬ who w → unowned jobId w t → unowned jobId w t'.
Proof. induction 1; eauto using unowned_change. Qed.

Lemma unowned_refused jobId w now f t :
  unowned jobId w t → update_owned jobId w now f t = (false, t).
Proof.
  intros Hu. destruct (update_owned_spec jobId w now f t) as [(r & Hin & Ho & _)|[_ He]]; [|done].
  apply owned_live_true in Ho as (Hid & _ & Ho & _). by destruct (Hu r Hin Hid).
Qed.

(** A claimant whose lease expired is fenced for good: once the expired claims are
    reclaimed, whatever operations follow, as long as it makes no new claim it can
    neither renew the lease nor settle the job, even after other workers claimed
    it. *)
Theorem expired_claimant_fenced before now jobId w ops s later1 later2 leaseMs t :
  t = run_ops before emptyTable →
  (∀ r, r ∈ tb_rows t → row_id r = jobId → row_lease_owner r = Some w →
        ∃ e, row_lease_expires_at r = Some e ∧ e ≤ now) →
  (∀ op, op ∈ ops → claims_as w op = false) →
  let t' := run_ops (OpReclaim now :: ops) t in
  renew later1 later2 jobId w leaseMs t' = (false, t')
  ∧ settle_with s later1 later2 jobId w t' = (false, t').
Proof.
  intros -> Hexp Hops. cbn zeta. rewrite settle_with_update. unfold renew.
  assert (unowned jobId w (run_ops (OpReclaim now :: ops) (run_ops before emptyTable))) as Hu;
    [|by split; apply unowned_refused].
  apply (unowned_changes (λ w', ∃ op, op ∈ ops ∧ claims_as w' op = true)
           jobId w (run_op (OpReclaim now) (run_ops before emptyTable))).
  - change (run_ops (OpReclaim now :: ops) ?t) with (run_ops ops (run_op (OpReclaim now) t)).
    apply run_ops_changes. naive_solver.
  - intros (op & Hop & Hc). by rewrite Hops in Hc.
  - set (t := run_ops before emptyTable) in *.
    assert (ledger_inv t) as Hinv by apply run_ops_inv. clearbody t.
    intros r' Hin. cbn in Hin. change (map ?f ?l) with (f <$> l) in Hin.
    apply list_elem_of_fmap in Hin as (r & -> & Hin). unfold update_row.
    destruct (expired now r) eqn:He; [done|]. intros Hid Ho.
    destruct (Hexp r Hin Hid Ho) as (e & Hle & Hlt).
    assert (running r) as Hr.
    { pose proof (li_rows _ Hinv) as Hrows. rewrite Forall_forall in Hrows.
      apply dec_stable. intros Hn. destruct (ro_idle _ (Hrows r Hin) Hn). congruence. }
    unfold expired in He. unfold running in Hr. rewrite Hle, Hr, bool_decide_true in He by done.
    cbn in He. apply Z.leb_gt in He. lia.
Qed.

(** ** Enqueueing *)

Lemma enqueue_loop_spec now jobs n t m t' :
  enqueue_loop now jobs n t = (Some m, t') →
  (∃ new, tb_rows t' = tb_rows t ++ new ∧ m = n + Z.of_nat (length new)
     ∧ Forall (λ r, row_status r = JS_pending ∧ row_attempt_count r = 0
                    ∧ row_available_at r = now
                    ∧ ∃ job, job ∈ jobs ∧ row_id r = pj_id job
                             ∧ row_session_id r = pj_sessionId job
                             ∧ encodeRequest (pj_request job) = Some (row_request_json r)) new)
  ∧ (∀ job, job ∈ jobs → pj_id job ∈ map row_id (tb_rows t')).
Proof.
  revert n t. induction jobs as [|job jobs IH]; intros n t; cbn.
  { intros [= <- <-]. split; [|by intros ? ?%elem_of_nil]. exists []. rewrite app_nil_r. split_and!; [done|cbn; lia|done]. }
  destruct (encodeRequest (pj_request job)) as [json|] eqn:He; [|done].
  unfold insert_or_ignore. case_decide as Hin; intros Hl.
  - apply IH in Hl as [(new & -> & -> & Hnew) Hall]. split.
    + exists new. split_and!; [done|lia|]. eapply Forall_impl; [exact Hnew|]. cbn.
      intros r (? & ? & ? & j & ? & ?). split_and!; [done..|]. exists j. by split; [right|].
    + intros j [-> |Hj]%elem_of_cons; [|by apply Hall]. rewrite map_app. apply elem_of_app. by left.
  - apply IH in Hl as [(new & -> & -> & Hnew) Hall]. cbn [tb_rows] in *. split.
    + eexists. rewrite <-app_assoc. split_and!; [done|cbn; lia|]. cbn. constructor.
      * cbn. split_and!; [done..|]. exists job. by split; [left|].
      * eapply Forall_impl; [exact Hnew|]. cbn.
        intros r (? & ? & ? & j & ? & ?). split_and!; [done..|]. exists j. by split; [right|].
    + intros j [-> |Hj]%elem_of_cons; [|by apply Hall]. rewrite !map_app. apply elem_of_app.
      left. apply elem_of_app. right. by left.
Qed.

Lemma enqueue_loop_present now jobs n t :
  (∀ job, job ∈ jobs → pj_id job ∈ map row_id (tb_rows t)) →
  (∀ job, job ∈ jobs → encodeRequest (pj_request job) ≠ None) →
  enqueue_loop now jobs n t = (Some n, t).
Proof.
  revert n. induction jobs as [|job jobs IH]; intros n Hin He; cbn; [done|].
  destruct (encodeRequest (pj_request job)) eqn:Hj; [|by destruct (He job ltac:(left))].
  unfold insert_or_ignore. rewrite decide_True by (apply Hin; left). rewrite Z.add_0_r.
  apply IH; intros j Hj'; [apply Hin|apply He]; by right.
Qed.

Lemma enqueue_loop_encodes now jobs n t m t' :
  enqueue_loop now jobs n t = (Some m, t') →
  ∀ job, job ∈ jobs → encodeRequest (pj_request job) ≠ None.
Proof.
  revert n t. induction jobs as [|job jobs IH]; intros n t; cbn; [by intros _ ? ?%elem_of_nil|].
  destruct (encodeRequest (pj_request job)) eqn:He; [|done].
  destruct (insert_or_ignore _ _ _ _) as [k t1]. intros Hl j [-> |Hj]%elem_of_cons; [congruence|].
  by eapply IH.
Qed.

(** Enqueueing is exactly once: it keeps every row, appends one pending row without
    attempts per id that was not present and returns their number; afterwards every
    job has a row, and enqueueing the jobs again inserts nothing. *)
Theorem enqueue_exactly_once now later jobs t n t' :
  enqueue now jobs t = (Some n, t') →
  (∃ new, tb_rows t' = tb_rows t ++ new ∧ n = Z.of_nat (length new)
     ∧ Forall (λ r, row_status r = JS_pending ∧ row_attempt_count r = 0
                    ∧ row_available_at r = now
                    ∧ ∃ job, job ∈ jobs ∧ row_id r = pj_id job
                             ∧ row_session_id r = pj_sessionId job
                             ∧ encodeRequest (pj_request job) = Some (row_request_json r)) new)
  ∧ (∀ job, job ∈ jobs → pj_id job ∈ map row_id (tb_rows t'))
  ∧ enqueue later jobs t' = (Some 0, t').
Proof.
  unfold enqueue. intros Hl. pose proof (enqueue_loop_encodes _ _ _ _ _ _ Hl) as He.
  apply enqueue_loop_spec in Hl as [(new & Hn & -> & Hf) Hall].
  split_and!; [|done|by apply enqueue_loop_present]. exists new. split_and!; [done|lia|done].
Qed.

(** ** Recovery at process start *)

(** What recovery makes of a row: unsettled work of a replayable kind is pending
    again, unsettled work of any other kind is cancelled. *)
Definition reconciled (now : Z) (r : JobRow) : JobRow :=
  match row_status r with
  | JS_running | JS_waiting =>
      if of_kinds REPLAYABLE_JOB_KINDS r
      then requeue_row JS_pending now now msg_requeued r
      else settle_row JS_cancelled (Some msg_lost) now r
  | JS_pending =>
      if of_kinds REPLAYABLE_JOB_KINDS r then r
      else settle_row JS_cancelled (Some msg_lost) now r
  | _ => r
  end.

(** Operations keep the kind: [of_kinds] of a changed row is that of the row. *)
Ltac same_kinds r :=
  repeat match goal with
  | |- context [of_kinds ?k ?x] =>
      tryif constr_eq x r then fail else change (of_kinds k x) with (of_kinds k r)
  end.

(** Computes the tests of a row whose status and kind are known. *)
Ltac status_cases r Hs Hk :=
  repeat first
    [ progress (rewrite ?Hs, ?Hk; cbn)
    | progress same_kinds r
    | rewrite bool_decide_true by done
    | rewrite bool_decide_false by done ].

Lemma reconcile_rows now t :
  tb_rows (reconcileAfterProcessLoss now t).2 = map (reconciled now) (tb_rows t).
Proof.
  unfold reconcileAfterProcessLoss. cbn. rewrite map_map. apply map_ext. intros r.
  unfold update_row, reconciled, unsettled.
  destruct (row_status r) eqn:Hs; destruct (of_kinds REPLAYABLE_JOB_KINDS r) eqn:Hk;
    by status_cases r Hs Hk.
Qed.

Lemma filter_map_length {A} (p : A → bool) (q : A → bool) (g : A → A) l :
  (∀ r, p (g r) = q r) →
  length (filter (λ r, p r = true) (map g l)) = length (filter (λ r, q r = true) l).
Proof.
  intros Hp. induction l as [|r l IH]; [done|]. cbn [map]. rewrite !filter_cons, Hp.
  destruct (decide (q r = true)); cbn; by rewrite IH.
Qed.

Definition interrupted_replayable (r : JobRow) : bool :=
  (bool_decide (row_status r = JS_running) || bool_decide (row_status r = JS_waiting))
  && of_kinds REPLAYABLE_JOB_KINDS r.
Definition unsettled_unknown (r : JobRow) : bool :=
  unsettled r && negb (of_kinds REPLAYABLE_JOB_KINDS r).

Definition count (p : JobRow → bool) (t : JobTable) : Z :=
  Z.of_nat (length (filter (λ r, p r = true) (tb_rows t))).

Lemma reconcile_counts now t :
  (reconcileAfterProcessLoss now t).1 = (count interrupted_replayable t, count unsettled_unknown t).
Proof.
  unfold reconcileAfterProcessLoss, count. cbn. rewrite !length_map. f_equal. f_equal.
  apply (filter_map_length (λ r, unsettled r && negb (of_kinds REPLAYABLE_JOB_KINDS r))).
  intros r. unfold update_row, unsettled_unknown, unsettled.
  destruct (row_status r) eqn:Hs; destruct (of_kinds REPLAYABLE_JOB_KINDS r) eqn:Hk;
    by status_cases r Hs Hk.
Qed.

Lemma reconciled_idle now r :
  interrupted_replayable (reconciled now r) = false
  ∧ unsettled_unknown (reconciled now r) = false
  ∧ row_status (reconciled now r) ≠ JS_running ∧ row_status (reconciled now r) ≠ JS_waiting.
Proof.
  unfold reconciled, interrupted_replayable, unsettled_unknown, unsettled.
  destruct (row_status r) eqn:Hs; destruct (of_kinds REPLAYABLE_JOB_KINDS r) eqn:Hk;
    (split_and!; status_cases r Hs Hk; repeat case_bool_decide; (done || congruence)).
Qed.

(** Recovery after a process loss leaves nothing running or parked: every
    interrupted or parked job of a replayable kind is pending and available at once,
    every unsettled job of another kind is cancelled, settled and already pending jobs
    stay as they are, the answer counts both groups, and running recovery again changes
    nothing. *)
Theorem reconcile_requeues now later t counts t' :
  reconcileAfterProcessLoss now t = (counts, t') →
  tb_rows t' = map (reconciled now) (tb_rows t)
  ∧ counts = (count interrupted_replayable t, count unsettled_unknown t)
  ∧ (∀ r, r ∈ tb_rows t' → row_status r ≠ JS_running ∧ row_status r ≠ JS_waiting)
  ∧ reconcileAfterProcessLoss later t' = ((0, 0), t').
Proof.
  intros Hr. pose proof (reconcile_rows now t) as Hrows. pose proof (reconcile_counts now t) as Hc.
  rewrite Hr in Hrows, Hc. cbn in Hrows, Hc.
  assert (∀ r, r ∈ tb_rows t' → interrupted_replayable r = false ∧ unsettled_unknown r = false
            ∧ row_status r ≠ JS_running ∧ row_status r ≠ JS_waiting) as Hidle.
  { rewrite Hrows. change (map ?f ?l) with (f <$> l).
    intros r (r0 & -> & _)%list_elem_of_fmap. apply reconciled_idle. }
  split_and!; [done|done|by intros r (_ & _ & ?)%Hidle|].
  unfold reconcileAfterProcessLoss.
  rewrite update_where_no_match by (intros r Hin; by apply (Hidle r)).
  by rewrite update_where_no_match by (intros r Hin; by apply (Hidle r)).
Qed.
End table.

(** ** A ledger in use *)

Module ledger_demo.
(** A codec for sends of one turn; it reads back what it wrote and nothing else. *)
#[export] Instance codec : RequestCodec := {|
  encodeRequest r := match r with ProviderTurnSend turnId _ _ _ => Some turnId | _ => Some "" end;
  decodeRequest s :=
    if decide (s = "") then Failure "unreadable" else Success (ProviderTurnSend s None "{}" None) |}.

Definition job (id session turnId : string) : PendingJob :=
  {| pj_id := id; pj_sessionId := session;
     pj_request := ProviderTurnSend turnId None "{}" None;
     pj_causationEventId := "e"; pj_correlationId := "c" |}.

Definition jobs : list PendingJob := [job "j1" "s1" "t1"; job "j2" "s1" "t2"; job "j3" "s2" "t3"].

Definition claim (worker : string) : ClaimInput :=
  {| cl_excludedKinds := None; cl_workerId := worker; cl_leaseMs := 100; cl_minAgeMs := None;
     cl_sessionId := None; cl_includeWaitingBefore := None |}.

Definition queued : JobTable := run_ops [OpEnqueue 10 jobs] emptyTable.
Definition claim_ops : list LedgerOp := [OpEnqueue 10 jobs; OpClaim 20 20 20 (claim "w1")].
Definition claimed : JobTable := run_ops claim_ops emptyTable.
(** [j1] is back with [w2] after [w1] lost its lease. *)
Definition taken_over : list LedgerOp := [OpClaim 130 130 130 (claim "w2")].
Definition finished : list LedgerOp := claim_ops ++ [OpSucceed 30 "j1" "w1"].

(** The row of a table at a place; every place used exists. *)
Definition row (i : nat) (t : JobTable) : JobRow :=
  default (inserted_row 0 0 (job "" "" "") "") (tb_rows t !! i).
End ledger_demo.
Import ledger_demo.

Lemma settled_jobs_final_witness :
  row 0 (run_ops finished emptyTable) ∈ tb_rows (run_ops (finished ++ [OpReconcile 40]) emptyTable).
Proof.
  apply settled_jobs_final; [|vm_compute; reflexivity].
  apply (list_elem_of_lookup_2 _ 0). vm_compute. reflexivity.
Defined.

Lemma claim_takes_oldest_witness :
  ∃ i c, tb_rows queued !! i = Some c
    ∧ tb_rows claimed = <[i := claim_row "w1" 120 20 c]> (tb_rows queued).
Proof.
  destruct (claim_takes_oldest 20 20 20 (claim "w1") queued
    (claimNext 20 20 20 (claim "w1") queued).1 claimed)
    as [(Hno & _)|(i & c & Hi & _ & _ & Hrows & _)].
  - apply (run_ops_inv [OpEnqueue 10 jobs]).
  - apply surjective_pairing.
  - vm_compute in Hno. discriminate Hno.
  - exists i, c. split; [exact Hi|exact Hrows].
Defined.

Lemma settlement_exclusive_witness :
  settle_with (S_fail "late") 31 31 "j1" "w1" (run_ops finished emptyTable)
  = (false, run_ops finished emptyTable).
Proof.
  destruct (settlement_exclusive S_succeed 30 30 "j1" "w1" claimed true
    (run_ops finished emptyTable)) as (_ & _ & Hs).
  - apply (run_ops_inv claim_ops).
  - vm_compute. reflexivity.
  - destruct (Hs eq_refl) as (i & r & _ & _ & _ & Hno). apply Hno.
Defined.

Lemma expired_claimant_fenced_witness :
  let t' := run_ops (OpReclaim 120 :: taken_over) claimed in
  renew 140 140 "j1" "w1" 100 t' = (false, t') ∧ settle_with S_succeed 140 140 "j1" "w1" t' = (false, t').
Proof.
  apply (expired_claimant_fenced claim_ops 120 "j1" "w1" taken_over S_succeed 140 140 100 claimed).
  - reflexivity.
  - intros r Hin Hid Hown. vm_compute in Hin.
    repeat (apply elem_of_cons in Hin as [-> |Hin]; [try discriminate Hid; try discriminate Hown|]).
    + exists 120. split; [reflexivity|lia].
    + by apply elem_of_nil in Hin.
  - intros op Hop. apply list_elem_of_singleton in Hop as ->. reflexivity.
Defined.

Lemma enqueue_exactly_once_witness : enqueue 50 jobs queued = (Some 0, queued).
Proof.
  destruct (enqueue_exactly_once 10 50 jobs emptyTable 3 queued) as (_ & _ & He);
    [vm_compute; reflexivity|exact He].
Defined.

Lemma reconcile_requeues_witness :
  let t' := (reconcileAfterProcessLoss 200 claimed).2 in
  reconcileAfterProcessLoss 300 t' = ((0, 0), t').
Proof.
  destruct (reconcile_requeues 200 300 claimed (reconcileAfterProcessLoss 200 claimed).1
    (reconcileAfterProcessLoss 200 claimed).2) as (_ & _ & _ & Hr);
    [apply surjective_pairing|exact Hr].
Defined.
