(* ===== verification/JobWorker.v ===== *)
(** * The job worker (agent-engine/job-worker.ts)

    One fiber of the worker over the ledger. The clock is a function of the number of
    readings taken so far, which is threaded through. [execute] stands for the executor:
    it gives the steps of the race it runs with the heartbeat, in the order in which they
    happen - its own writes to the ledger, the heartbeat's renewals, other work - and the
    exit it ends with, a cancellation included. *)
From S2P Require Import Prelude Js Jobs JobLedger.

Local Open Scope Z_scope.

Inductive JobRetry : Set := automatic | on_demand | never.
#[export] Instance JobRetry_eq_dec : EqDecision JobRetry.
Proof. solve_decision. Defined.

Record JobExecutionFailure := {
  jx_message : string;
  jx_retry : JobRetry }.

Inductive FailureOutcome : Set := FO_retry | FO_waiting | FO_failed.

Record JobFailure := {
  jf_job : Job;
  jf_failure : JobExecutionFailure;
  jf_outcome : FailureOutcome }.

(** The exit of an execution: success, or a cause with the failure found in it (none
    for a defect or an interruption) and its description. *)
Inductive JobExit : Type :=
| Exit_success
| Exit_failure (error : option JobExecutionFailure) (description : string).

Definition DEFAULT_JOB_LEASE_MS : Z := 30000.
Definition DEFAULT_JOB_MAX_ATTEMPTS : Z := 5.
Definition DEFAULT_JOB_POLL_INTERVAL_MS : Z := 30000.
Definition DEFAULT_JOB_BACKGROUND_GRACE_MS : Z := 250.

(** Numbers of attempts are small integers: the doubles are exact, and a power beyond
    their range is infinite, above the cap. *)
Definition retryDelayMs (attemptCount : Z) : Z :=
  Z.min 30000 (100 * 2 ^ Z.max 0 (attemptCount - 1)).

(** The steps of an execution: the executor commits new jobs or cancels those of a
    session, through the commands it dispatches; the heartbeat is due; or it works on
    something that is not in the ledger. *)
Inductive ExecutionStep : Type :=
| ES_enqueue (jobs : list PendingJob)
| ES_cancel (sessionId : string) (kinds : list JobKind) (reason : string)
| ES_heartbeat
| ES_work.

(** The failure of a cancelled or superseded claim. *)
Definition cancelled_failure : JobExecutionFailure :=
  {| jx_message := "Cancelled or claim lost."; jx_retry := never |}.

Section worker.
Context `{RequestCodec}.
Context (clock : nat → Z) (maxAttempts leaseMs : Z).
Context (execute : Job → nat → JobTable → list ExecutionStep * JobExit).
(** [`${workerId}:${randomUUID()}`] of a run. *)
Context (owner : nat → string).
Context (excludedKinds : option (list JobKind)).

Definition settle_failure (error : option JobExecutionFailure) (description : string)
    : JobExecutionFailure :=
  default {| jx_message := description; jx_retry := never |} error.

Definition failure_outcome (job : Job) (failure : JobExecutionFailure) : FailureOutcome :=
  match jx_retry failure with
  | on_demand => FO_waiting
  | automatic => if job_attemptCount job <? maxAttempts then FO_retry else FO_failed
  | never => FO_failed
  end.

Definition outcome_settlement (job : Job) (failure : JobExecutionFailure)
    (outcome : FailureOutcome) : Settlement :=
  match outcome with
  | FO_retry => S_retry (retryDelayMs (job_attemptCount job)) (jx_message failure)
  | FO_waiting => S_hold (jx_message failure)
  | FO_failed => S_fail (jx_message failure)
  end.

(** Settles the claim at the [n]-th clock reading; the failure is recorded when the
    ledger accepted it. *)
Definition settleJob (n : nat) (job : Job) (exit : JobExit) (t : JobTable)
    : option JobFailure * JobTable :=
  match job_leaseOwner job with
  | None => (None, t)
  | Some owner =>
      match exit with
      | Exit_success => (None, (succeed (clock n) (job_id job) owner t).2)
      | Exit_failure error description =>
          let failure := settle_failure error description in
          let outcome := failure_outcome job failure in
          let '(settled, t) :=
            settle_with (outcome_settlement job failure outcome) (clock n) (clock (S n))
              (job_id job) owner t in
          (if settled
           then Some {| jf_job := job; jf_failure := failure; jf_outcome := outcome |}
           else None, t)
      end
  end.

Record Claim := {
  cm_minAgeMs : Z;
  cm_sessionId : option string;
  cm_includeWaitingBefore : option Z }.

Definition claim_input (owner : string) (claim : Claim) : ClaimInput :=
  {| cl_excludedKinds := excludedKinds;
     cl_workerId := owner;
     cl_leaseMs := leaseMs;
     cl_minAgeMs := Some (cm_minAgeMs claim);
     cl_sessionId := cm_sessionId claim;
     cl_includeWaitingBefore := cm_includeWaitingBefore claim |}.

(** [raceFirst] of the executor, the cancellation and the heartbeat: a renewal that the
    ledger refuses cancels the execution. *)
Fixpoint race (n : nat) (owner : string) (job : Job) (steps : list ExecutionStep) (exit : JobExit)
    (t : JobTable) : JobExit * nat * JobTable :=
  match steps with
  | [] => (exit, n, t)
  | ES_enqueue jobs :: steps => race (S n) owner job steps exit (enqueue (clock n) jobs t).2
  | ES_cancel sessionId kinds reason :: steps =>
      race (S n) owner job steps exit (cancelUnsettled (clock n) sessionId kinds reason t).2
  | ES_heartbeat :: steps =>
      let '(renewed, t) := renew (clock n) (clock (S n)) (job_id job) owner leaseMs t in
      if renewed then race (n + 2) owner job steps exit t
      else (Exit_failure (Some cancelled_failure) (jx_message cancelled_failure), (n + 2)%nat, t)
  | ES_work :: steps => race (S n) owner job steps exit t
  end.

(** The lease is renewed once more before the job executes; a claim lost meanwhile
    executes nothing. *)
Definition execution (n : nat) (owner : string) (job : Job) (t : JobTable)
    : JobExit * nat * JobTable :=
  let '(owned, t) := renew (clock n) (clock (S n)) (job_id job) owner leaseMs t in
  if owned then
    let '(steps, exit) := execute job (n + 2) t in race (n + 2) owner job steps exit t
  else (Exit_success, (n + 2)%nat, t).

(** One claim, its execution and its settlement: whether a job was claimed, and the
    failure recorded. *)
Definition runOnce (n : nat) (claim : Claim) (t : JobTable)
    : result (bool * option JobFailure) JobRowDecodeError * (nat * JobTable) :=
  let '(_, t) := reclaimExpired (clock n) t in
  match claimNext (clock (n + 1)) (clock (n + 2)) (clock (n + 3))
          (claim_input (owner n) claim) t with
  | (Failure e, t) => (Failure e, ((n + 4)%nat, t))
  | (Success None, t) => (Success (false, None), ((n + 4)%nat, t))
  | (Success (Some job), t) =>
      let '(exit, n', t) := execution (n + 4) (owner n) job t in
      let '(failure, t) := settleJob n' job exit t in
      (Success (true, failure), ((n' + 2)%nat, t))
  end.

(** An observer keeps the failures of its session. *)
Definition observe (sessionId : option string) (failures : list JobFailure)
    (failure : option JobFailure) : list JobFailure :=
  match failure with
  | Some f =>
      match sessionId with
      | None => failures ++ [f]
      | Some s => if decide (s = job_sessionId (jf_job f)) then failures ++ [f] else failures
      end
  | None => failures
  end.

(** [inFlight] is what the counter shows at a reading: the runs of the other fibers. *)
Context (inFlight : nat → Z).

Definition drain_pending (n : nat) (sessionId : option string) (t : JobTable) : bool :=
  match sessionId with
  | None => 0 <? inFlight n
  | Some s => hasRunning s t
  end.

(** The loop of [makeDrain]; a pause takes one clock reading. *)
Fixpoint drain_loop (fuel n : nat) (sessionId : option string) (startedAt : Z)
    (failures : list JobFailure) (t : JobTable)
    : option (result (list JobFailure) JobRowDecodeError * (nat * JobTable)) :=
  match fuel with
  | O => None
  | S fuel =>
      match runOnce n {| cm_minAgeMs := 0; cm_sessionId := sessionId;
                         cm_includeWaitingBefore := Some startedAt |} t with
      | (Failure e, w) => Some (Failure e, w)
      | (Success (true, failure), (n, t)) =>
          drain_loop fuel n sessionId startedAt (observe sessionId failures failure) t
      | (Success (false, _), (n, t)) =>
          if drain_pending n sessionId t
          then drain_loop fuel (S n) sessionId startedAt failures t
          else Some (Success failures, (n, t))
      end
  end.

Definition makeDrain (fuel n : nat) (sessionId : option string) (t : JobTable)
    : option (result (list JobFailure) JobRowDecodeError * (nat * JobTable)) :=
  drain_loop fuel (S n) sessionId (clock n) [] t.

(** How long a background loop sleeps when nothing is claimable. *)
Definition idleDelayMs (n : nat) (pollIntervalMs backgroundGraceMs : Z) (t : JobTable) : Z :=
  match nextAvailableAt t with
  | None => Z.min pollIntervalMs leaseMs
  | Some next =>
      let untilAvailable := next + backgroundGraceMs - clock n in
      let minimumDelay := match excludedKinds with
                          | Some (_ :: _) => 1000
                          | _ => 25
                          end in
      Z.min pollIntervalMs (Z.max minimumDelay untilAvailable)
  end.
End worker.
