(* ===== verification/JobWorkerProps.v ===== *)
(** * Theorems about the job worker *)
From S2P Require Import Prelude Js Jobs JobLedger LedgerInv JobLedgerProps JobWorker.

Local Open Scope Z_scope.

Lemma retryDelayMs_bounds n : 100 ≤ retryDelayMs n ≤ 30000.
Proof.
  unfold retryDelayMs. assert (2 ^ 0 ≤ 2 ^ Z.max 0 (n - 1)) by (apply Z.pow_le_mono_r; lia).
  change (2 ^ 0) with 1 in *. lia.
Qed.

Lemma retryDelayMs_mono n m : n ≤ m → retryDelayMs n ≤ retryDelayMs m.
Proof.
  intros Hle. unfold retryDelayMs.
  assert (2 ^ Z.max 0 (n - 1) ≤ 2 ^ Z.max 0 (m - 1)) by (apply Z.pow_le_mono_r; lia). lia.
Qed.

Section worker.
Context `{RequestCodec}.

Lemma update_owned_at t i r jobId w now f :
  ledger_inv t → tb_rows t !! i = Some r → owned_live jobId w now r = true →
  update_owned jobId w now f t
  = (true, {| tb_rows := <[i := f r]> (tb_rows t); tb_lastSequence := tb_lastSequence t |}).
Proof.
  intros Hinv Hi Ho.
  destruct (update_owned_insert jobId w now f t Hinv)
    as [(j & r' & Hj & Ho' & Hrows & Hlast & Hb)|[Hno _]].
  - assert (i = j) as <-.
    { apply owned_live_true in Ho as (Hid & _). apply owned_live_true in Ho' as (Hid' & _).
      eapply NoDup_lookup; [exact (li_ids _ Hinv)|..];
        change (map ?g ?l) with (g <$> l); rewrite list_lookup_fmap; [by rewrite Hi|].
      rewrite Hj. cbn. by rewrite Hid, Hid'. }
    rewrite Hi in Hj. injection Hj as <-.
    destruct (update_owned jobId w now f t) as [b [rows last]]. cbn in *. congruence.
  - rewrite Hno in Ho; [done|by eapply list_elem_of_lookup_2].
Qed.

Context (clock : nat → Z) (maxAttempts leaseMs : Z).
Context (execute : Job → nat → JobTable → list ExecutionStep * JobExit).
Context (owner : nat → string) (excludedKinds : option (list JobKind)).
Context (inFlight : nat → Z).

(** The row a claim becomes when it is settled. *)
Definition exit_settlement (job : Job) (exit : JobExit) : Settlement :=
  match exit with
  | Exit_success => S_succeed
  | Exit_failure error description =>
      let failure := settle_failure error description in
      outcome_settlement job failure (failure_outcome maxAttempts job failure)
  end.

Definition exit_record (job : Job) (exit : JobExit) : option JobFailure :=
  match exit with
  | Exit_success => None
  | Exit_failure error description =>
      let failure := settle_failure error description in
      Some {| jf_job := job; jf_failure := failure;
              jf_outcome := failure_outcome maxAttempts job failure |}
  end.

Lemma settleJob_at n job exit t i r w :
  ledger_inv t → job_leaseOwner job = Some w → tb_rows t !! i = Some r →
  owned_live (job_id job) w (clock n) r = true →
  settleJob clock maxAttempts n job exit t
  = (exit_record job exit,
     {| tb_rows := <[i := settlement_row (exit_settlement job exit) (clock n) (clock (S n)) r]>
                     (tb_rows t);
        tb_lastSequence := tb_lastSequence t |}).
Proof.
  intros Hinv Hw Hi Ho. unfold settleJob. rewrite Hw. destruct exit as [|error description].
  - change (succeed (clock n) (job_id job) w t)
      with (settle_with S_succeed (clock n) (clock (S n)) (job_id job) w t).
    rewrite settle_with_update. by erewrite update_owned_at.
  - cbn zeta. rewrite settle_with_update. by erewrite update_owned_at.
Qed.

Lemma run_op_inv op t : ledger_inv t → ledger_inv (run_op op t).
Proof. apply (ledger_inv_changes (λ _, True)). by apply run_op_changes. Qed.

Lemma settle_with_inv s now1 now2 jobId w t :
  ledger_inv t → ledger_inv (settle_with s now1 now2 jobId w t).2.
Proof.
  intros Hinv. destruct s as [|delayMs error|error|error]; cbn [settle_with].
  - exact (run_op_inv (OpSucceed now1 jobId w) t Hinv).
  - exact (run_op_inv (OpRetry now1 now2 jobId w delayMs error) t Hinv).
  - exact (run_op_inv (OpHold now1 jobId w error) t Hinv).
  - exact (run_op_inv (OpFail now1 jobId w error) t Hinv).
Qed.

Lemma settleJob_inv n job exit t :
  ledger_inv t → ledger_inv (settleJob clock maxAttempts n job exit t).2.
Proof.
  intros Hinv. unfold settleJob. destruct (job_leaseOwner job) as [w|]; [|done].
  destruct exit as [|error description]; cbn [snd].
  - exact (settle_with_inv S_succeed (clock n) (clock n) (job_id job) w t Hinv).
  - cbn zeta. pose proof (λ s, settle_with_inv s (clock n) (clock (S n)) (job_id job) w t Hinv) as Hs.
    specialize (Hs (exit_settlement job (Exit_failure error description))).
    unfold exit_settlement in Hs. cbn zeta in Hs.
    destruct (settle_with _ _ _ _ _ t) as [b t']. exact Hs.
Qed.

Lemma settleJob_unheld n job exit t :
  (∀ w r, job_leaseOwner job = Some w → r ∈ tb_rows t → owned_live (job_id job) w (clock n) r = false) →
  settleJob clock maxAttempts n job exit t = (None, t).
Proof.
  intros Hno. unfold settleJob. destruct (job_leaseOwner job) as [w|]; [|done].
  assert (∀ s, settle_with s (clock n) (clock (S n)) (job_id job) w t = (false, t)) as Hf.
  { intros s. rewrite settle_with_update.
    destruct (update_owned_spec (job_id job) w (clock n) (settlement_row s (clock n) (clock (S n))) t)
      as [(r & Hin & Ho & _)|[_ He]]; [|done]. by rewrite (Hno w r) in Ho. }
  destruct exit as [|error description].
  - specialize (Hf S_succeed). cbn [settle_with] in Hf. by rewrite Hf.
  - cbn zeta. by rewrite Hf.
Qed.

(** What settling an execution does. When the claim is no longer held (or has no
    owner) nothing is written and nothing is reported. When it is held, exactly its row
    changes: success completes the job; a failure to be retried on demand parks it; an
    automatic one is pending again after between 0.1 and 30 seconds as long as the
    attempt budget lasts; every other failure, defects included, fails the job for
    good; and each failure is reported with the outcome it had. *)
Theorem settle_job_outcome n job exit t record t' :
  ledger_inv t → settleJob clock maxAttempts n job exit t = (record, t') →
  ((∀ w r, job_leaseOwner job = Some w → r ∈ tb_rows t →
           owned_live (job_id job) w (clock n) r = false) → record = None ∧ t' = t)
  ∧ (∀ w i r, job_leaseOwner job = Some w → tb_rows t !! i = Some r →
     owned_live (job_id job) w (clock n) r = true →
     ∃ r', tb_rows t' = <[i := r']> (tb_rows t) ∧ ¬ running r'
     ∧ match exit with
       | Exit_success => record = None ∧ row_status r' = JS_succeeded
       | Exit_failure error description =>
           let failure := default {| jx_message := description; jx_retry := never |} error in
           row_last_error r' = Some (jx_message failure)
           ∧ ∃ outcome,
               record = Some {| jf_job := job; jf_failure := failure; jf_outcome := outcome |}
               ∧ match jx_retry failure, outcome with
                 | on_demand, FO_waiting => row_status r' = JS_waiting
                 | automatic, FO_retry =>
                     job_attemptCount job < maxAttempts ∧ row_status r' = JS_pending
                     ∧ clock (S n) + 100 ≤ row_available_at r' ≤ clock (S n) + 30000
                 | automatic, FO_failed =>
                     maxAttempts ≤ job_attemptCount job ∧ row_status r' = JS_failed
                 | never, FO_failed => row_status r' = JS_failed
                 | _, _ => False
                 end
       end).
Proof.
  intros Hinv Hs. split.
  - intros Hno. rewrite settleJob_unheld in Hs by done. by injection Hs as <- <-.
  - intros w i r Hw Hi Ho. rewrite (settleJob_at n job exit t i r w) in Hs by done.
    injection Hs as <- <-. cbn [tb_rows]. eexists. split; [done|].
    split; [apply settlement_not_running|]. destruct exit as [|error description]; [done|].
    cbn zeta. unfold exit_settlement, exit_record, settle_failure. cbn zeta.
    set (failure := default _ error). unfold failure_outcome.
    destruct (jx_retry failure); [destruct (Z.ltb_spec (job_attemptCount job) maxAttempts)|..];
      (split; [done|]); eexists; (split; [done|]); cbn; try done.
    pose proof (retryDelayMs_bounds (job_attemptCount job)). split_and!; [done|done|lia..].
Qed.

(** ** Draining alone

    The hypotheses of a drain that runs without other fibers. The clock does not go back,
    and leases outlive the steps they cover: the reading after a claim, and an execution
    from one renewal to the next and to its settlement. An executor may commit jobs of its
    own and cancel any, also its own; but what it commits is worth less than its job, by
    a weight of jobs that stands for the work they stem from (a turn has finitely many
    queued turns behind it). *)
Fixpoint kept_leased (expires : Z) (n : nat) (steps : list ExecutionStep) : Prop :=
  match steps with
  | [] => clock n < expires
  | ES_heartbeat :: steps => clock n < expires ∧ kept_leased (clock (S n) + leaseMs) (n + 2) steps
  | _ :: steps => kept_leased expires (S n) steps
  end.
Context (weight : string → nat).
Definition all_attempts : nat := Z.to_nat (Z.max 1 maxAttempts).
Definition jobs_weight (jobs : list PendingJob) : nat :=
  sum_list_with (λ job, all_attempts * weight (pj_id job))%nat jobs.
Definition spawned (steps : list ExecutionStep) : nat :=
  sum_list_with (λ step, match step with ES_enqueue jobs => jobs_weight jobs | _ => 0%nat end) steps.
Record drains_alone : Prop := {
  da_clock : ∀ n m, (n ≤ m)%nat → clock n ≤ clock m;
  da_lease : ∀ n, clock (S n) < clock n + leaseMs;
  da_heartbeat : ∀ job n t, kept_leased (clock (S n) + leaseMs) (n + 2) (execute job (n + 2) t).1;
  da_spawns : ∀ job n t, (spawned (execute job n t).1 < weight (job_id job))%nat;
  da_inFlight : ∀ n, inFlight n = 0 }.
Context (Halone : drains_alone).

Definition none_running (t : JobTable) : Prop := ∀ r, r ∈ tb_rows t → ¬ running r.

Lemma reclaim_none now t : none_running t → reclaimExpired now t = (0, t).
Proof.
  intros Hn. unfold reclaimExpired. rewrite update_where_no_match; [done|].
  intros r Hr. unfold expired. by rewrite bool_decide_false by (by apply Hn).
Qed.

Lemma decodeRow_fields row job :
  decodeRow row = Success job →
  job_id job = row_id row ∧ job_leaseOwner job = row_lease_owner row
  ∧ job_attemptCount job = row_attempt_count row ∧ job_sessionId job = row_session_id row.
Proof. unfold decodeRow. destruct (decodeRequest _); [|done]. by intros [= <-]. Qed.

Lemma decodeRow_failure row e :
  decodeRow row = Failure e → decodeRequest (row_request_json row) = Failure (jde_reason e).
Proof. unfold decodeRow. destruct (decodeRequest _); [done|]. by intros [= <-]. Qed.

(** *** The budget of a table *)

Definition attempts_left (r : JobRow) : nat :=
  Z.to_nat (Z.max 1 (maxAttempts - row_attempt_count r)).

(** What a drain started at [startedAt] may still take a row for: each attempt is worth
    its weight. *)
Definition row_budget (startedAt : Z) (r : JobRow) : nat :=
  match row_status r with
  | JS_pending => attempts_left r * weight (row_id r)
  | JS_waiting => if row_updated_at r <? startedAt then attempts_left r * weight (row_id r) else 0
  | _ => 0
  end.

Definition table_budget (startedAt : Z) (t : JobTable) : nat :=
  sum_list_with (row_budget startedAt) (tb_rows t).

Lemma running_budget startedAt r : running r → row_budget startedAt r = 0%nat.
Proof. unfold running, row_budget. by intros ->. Qed.

Lemma sum_list_with_insert {A} (f : A → nat) i x y l :
  l !! i = Some y → (sum_list_with f (<[i:=x]> l) + f y = sum_list_with f l + f x)%nat.
Proof.
  revert i. induction l as [|z l IH]; intros [|i] Hi; [done..| |]; simpl in *.
  - injection Hi as ->. lia.
  - specialize (IH i Hi). simpl in *. lia.
Qed.
Lemma sum_list_with_map_le {A} (f : A → nat) (g : A → A) l :
  (∀ x, f (g x) ≤ f x)%nat → (sum_list_with f (map g l) ≤ sum_list_with f l)%nat.
Proof. intros Hg. induction l as [|x l IH]; [done|]. specialize (Hg x). simpl in *. lia. Qed.

(** *** An execution *)

(** Only the row of the execution may be running. *)
Definition runs_only (i : nat) (t : JobTable) : Prop :=
  ∀ j r, tb_rows t !! j = Some r → running r → j = i.
(** The execution's row: still held by its owner, or settled by a cancellation. *)
Definition held (i : nat) (owner : string) (expires : Z) (c : JobRow) (t : JobTable) : Prop :=
  ∃ updated, tb_rows t !! i
    = Some (c <| row_lease_owner := Some owner |> <| row_lease_expires_at := Some expires |>
              <| row_updated_at := updated |>).
Definition given_away (i : nat) (t : JobTable) : Prop := ∃ r, tb_rows t !! i = Some r ∧ ¬ running r.

Lemma given_away_none i t : runs_only i t → given_away i t → none_running t.
Proof.
  intros Ho (r & Hi & Hn) r' (j & Hj)%list_elem_of_lookup Hr. assert (j = i) as -> by by eapply Ho.
  rewrite Hi in Hj. by injection Hj as <-.
Qed.

Lemma enqueue_loop_grows now jobs n t startedAt :
  let t' := (enqueue_loop now jobs n t).2 in
  (∃ new, tb_rows t' = tb_rows t ++ new ∧ Forall (λ r, ¬ running r) new)
  ∧ (table_budget startedAt t' ≤ table_budget startedAt t + jobs_weight jobs)%nat.
Proof.
  revert n t. induction jobs as [|job jobs IH]; intros n t; cbn zeta.
  { cbn. split; [|lia]. exists []. by rewrite app_nil_r. }
  cbn [enqueue_loop]. destruct (encodeRequest (pj_request job)) as [text|].
  2: { cbn. split; [|lia]. exists []. by rewrite app_nil_r. }
  unfold insert_or_ignore. case_decide.
  { destruct (IH (n + 0) t) as [Hnew Hb]. split; [exact Hnew|]. unfold jobs_weight in *. cbn. lia. }
  set (t1 := {| tb_rows := _ ++ [_]; tb_lastSequence := _ |}).
  destruct (IH (n + 1) t1) as [(new & Hrows & Hnew) Hb]. cbv zeta in *. split.
  - eexists. rewrite Hrows. subst t1. cbn [tb_rows]. rewrite <-app_assoc. split; [done|].
    by apply Forall_cons.
  - assert (table_budget startedAt t1 = table_budget startedAt t + all_attempts * weight (pj_id job))%nat
      as Ht1.
    { unfold table_budget, t1. cbn [tb_rows]. rewrite sum_list_with_app. cbn.
      unfold attempts_left, all_attempts. cbn. rewrite Z.sub_0_r. lia. }
    unfold jobs_weight in *. cbn [sum_list_with]. lia.
Qed.
Lemma cancel_shrinks now sessionId kinds reason t startedAt :
  let t' := (cancelUnsettled now sessionId kinds reason t).2 in
  (table_budget startedAt t' ≤ table_budget startedAt t)%nat
  ∧ ∀ j, tb_rows t' !! j = tb_rows t !! j
         ∨ ∃ r, tb_rows t !! j = Some r ∧ tb_rows t' !! j = Some (cancel_row now reason r).
Proof.
  unfold cancelUnsettled. destruct kinds as [|kind kinds]; [by split; [|left]|]. cbn zeta. cbn. split.
  - apply sum_list_with_map_le. intros r. unfold update_row. case_match; [cbn; lia|done].
  - intros j. change (map ?f ?l) with (f <$> l). rewrite list_lookup_fmap.
    destruct (tb_rows t !! j) as [r|]; [|by left]. cbn. unfold update_row.
    case_match; [right; by exists r|by left].
Qed.

(** The lease of a held row is renewed; a row given away is not. *)
Lemma held_owned i w expires c t n jobId :
  held i w expires c t → running c → row_id c = jobId → clock n < expires →
  ∃ r, tb_rows t !! i = Some r ∧ owned_live jobId w (clock n) r = true.
Proof.
  intros (u & Hi) Hr Hid He. eexists. split; [exact Hi|]. apply owned_live_true.
  split_and!; [done|exact Hr|done|]. by exists expires.
Qed.
Lemma renew_held i w expires c t n jobId :
  ledger_inv t → held i w expires c t → running c → row_id c = jobId → clock n < expires →
  ∃ t', renew (clock n) (clock (S n)) jobId w leaseMs t = (true, t')
        ∧ ledger_inv t' ∧ held i w (clock (S n) + leaseMs) c t'
        ∧ (∀ j, j ≠ i → tb_rows t' !! j = tb_rows t !! j)
        ∧ ∀ startedAt, table_budget startedAt t' = table_budget startedAt t.
Proof.
  intros Hinv Hheld Hr Hid He. destruct (held_owned i w expires c t n jobId) as (r & Hi & Ho); try done.
  destruct Hheld as (u & Hi'). rewrite Hi in Hi'. injection Hi' as ->.
  unfold renew. rewrite (update_owned_at t i _ jobId w (clock n) _ Hinv Hi Ho). eexists. split; [done|].
  split_and!.
  - pose proof (run_op_inv (OpRenew (clock n) (clock (S n)) jobId w leaseMs) t Hinv) as Hx.
    cbn [run_op] in Hx. unfold renew in Hx. by rewrite (update_owned_at t i _ jobId w (clock n) _ Hinv Hi Ho) in Hx.
  - eexists. cbn [tb_rows]. rewrite list_lookup_insert_eq by (by eapply lookup_lt_Some). reflexivity.
  - intros j Hj. cbn [tb_rows]. by rewrite list_lookup_insert_ne.
  - intros startedAt. unfold table_budget. cbn [tb_rows].
    match goal with |- context [<[i := ?x]> _] => pose proof (sum_list_with_insert (row_budget startedAt) i x _ _ Hi) as Hs end.
    rewrite !running_budget in Hs by exact Hr. lia.
Qed.
Lemma renew_given_away t n jobId w :
  none_running t → renew (clock n) (clock (S n)) jobId w leaseMs t = (false, t).
Proof.
  intros Hn. unfold renew.
  destruct (update_owned_spec jobId w (clock n)
    (λ r, r <| row_lease_expires_at := Some (clock (S n) + leaseMs) |> <| row_updated_at := clock n |>) t)
    as [(r & Hin & Ho & _)|[_ He]]; [|done].
  apply owned_live_true in Ho as (_ & Hr & _). by destruct (Hn r Hin).
Qed.
Lemma runs_only_same i t t' :
  runs_only i t → (∀ j, j ≠ i → tb_rows t' !! j = tb_rows t !! j) → runs_only i t'.
Proof.
  intros Ho Hsame j r Hj Hr. destruct (decide (j = i)) as [|Hne]; [done|].
  rewrite Hsame in Hj by done. by eapply Ho.
Qed.

(** What an execution leaves: its row held by a live lease or given away, no other row
    running, and as much more to do as its executor committed. *)
Record executed (i : nat) (w : string) (c : JobRow) (startedAt : Z) (budget n n' : nat) (t' : JobTable)
    : Prop := {
  ex_later : (n ≤ n')%nat;
  ex_inv : ledger_inv t';
  ex_only : runs_only i t';
  ex_budget : (table_budget startedAt t' ≤ budget)%nat;
  ex_row : (∃ expires, held i w expires c t' ∧ clock n' < expires) ∨ given_away i t' }.
Lemma executed_weaken i w c startedAt budget budget' n0 n n' t' :
  executed i w c startedAt budget n n' t' → (n0 ≤ n)%nat → (budget ≤ budget')%nat →
  executed i w c startedAt budget' n0 n' t'.
Proof. intros [] ? ?. split; try done; lia. Qed.

Lemma race_spec steps : ∀ n t i w c expires exit startedAt job,
  ledger_inv t → runs_only i t → running c → row_id c = job_id job →
  held i w expires c t ∨ given_away i t → kept_leased expires n steps →
  ∃ exit' n' t', race clock leaseMs n w job steps exit t = (exit', n', t')
    ∧ executed i w c startedAt (table_budget startedAt t + spawned steps) n n' t'.
Proof.
  induction steps as [|step steps IH]; intros n t i w c expires exit startedAt job Hinv Ho Hc Hid Hrow Hkept.
  { cbn in Hkept. exists exit, n, t. split; [done|]. split; try done; [cbn; lia|].
    destruct Hrow; [left; by exists expires|by right]. }
  assert (∀ t1, ledger_inv t1 → runs_only i t1 → held i w expires c t1 ∨ given_away i t1 →
            kept_leased expires (S n) steps →
            (table_budget startedAt t1 + spawned steps
             ≤ table_budget startedAt t + spawned (step :: steps))%nat →
            ∃ exit' n' t', race clock leaseMs (S n) w job steps exit t1 = (exit', n', t')
              ∧ executed i w c startedAt (table_budget startedAt t + spawned (step :: steps)) n n' t') as Hnext.
  { intros t1 Hinv1 Ho1 Hrow1 Hk1 Hb1.
    destruct (IH (S n) t1 i w c expires exit startedAt job Hinv1 Ho1 Hc Hid Hrow1 Hk1)
      as (exit' & n' & t' & -> & He).
    exists exit', n', t'. split; [done|]. eapply executed_weaken; [exact He|lia|done]. }
  destruct step as [jobs|sessionId kinds reason| |]; cbn [race kept_leased] in *.
  - pose proof (run_op_inv (OpEnqueue (clock n) jobs) t Hinv) as Hinv1. cbn [run_op] in Hinv1.
    destruct (enqueue_loop_grows (clock n) jobs 0 t startedAt) as [(new & Hrows & Hnew) Hb].
    unfold enqueue in *. apply Hnext; [done| | |done|unfold spawned; cbn [sum_list_with]; lia].
    + intros j r Hj Hr. rewrite Hrows in Hj. apply lookup_app_Some in Hj as [Hj|[_ Hj]]; [by eapply Ho|].
      rewrite Forall_forall in Hnew. by destruct (Hnew r (list_elem_of_lookup_2 _ _ _ Hj)).
    + destruct Hrow as [(u & Hi)|(r & Hi & Hn)]; [left; exists u|right; exists r];
        rewrite Hrows; (split || idtac); try done; by apply lookup_app_l_Some.
  - pose proof (run_op_inv (OpCancel (clock n) sessionId kinds reason) t Hinv) as Hinv1. cbn [run_op] in Hinv1.
    destruct (cancel_shrinks (clock n) sessionId kinds reason t startedAt) as [Hb Hsame].
    apply Hnext; [done| | |done|unfold spawned in *; cbn [sum_list_with]; lia].
    + intros j r Hj Hr. destruct (Hsame j) as [Hs|(r0 & _ & Hs)]; rewrite Hs in Hj; [by eapply Ho|].
      injection Hj as <-. discriminate Hr.
    + destruct (Hsame i) as [Hs|(r0 & _ & Hs)].
      * destruct Hrow as [(u & Hi)|(r & Hi & Hn)]; [left; exists u|right; exists r]; by rewrite Hs.
      * right. eexists. split; [exact Hs|]. discriminate.
  - destruct Hkept as [Hlive Hkept]. destruct Hrow as [Hheld|Haway].
    + destruct (renew_held i w expires c t n (job_id job)) as (t1 & -> & Hinv1 & Hheld1 & Hsame & Hb); try done.
      destruct (IH (n + 2)%nat t1 i w c (clock (S n) + leaseMs) exit startedAt job Hinv1
                  (runs_only_same _ _ _ Ho Hsame) Hc Hid (or_introl Hheld1) Hkept) as (exit' & n' & t' & -> & He).
      exists exit', n', t'. split; [done|]. rewrite Hb in He. eapply executed_weaken; [exact He|lia|].
      unfold spawned. cbn [sum_list_with]. lia.
    + rewrite renew_given_away by by eapply given_away_none. eexists _, _, t. split; [done|].
      split; try done; [lia|lia|by right].
  - by apply Hnext.
Qed.

Lemma settled_budget n job exit c startedAt :
  job_attemptCount job = row_attempt_count c → startedAt ≤ clock n →
  (row_budget startedAt (settlement_row (exit_settlement job exit) (clock n) (clock (S n)) c)
   ≤ (Z.to_nat (Z.max 1 (maxAttempts - (row_attempt_count c - 1))) - 1) * weight (row_id c))%nat.
Proof.
  intros Hatt Hle. destruct exit as [|error description]; [exact (Nat.le_0_l _)|].
  unfold exit_settlement. cbn zeta. unfold failure_outcome, row_budget, attempts_left.
  destruct (jx_retry _); [destruct (Z.ltb_spec (job_attemptCount job) maxAttempts)|..]; cbn -[Z.add Nat.mul Nat.sub];
    try exact (Nat.le_0_l _).
  - apply Nat.mul_le_mono_r. lia.
  - destruct (Z.ltb_spec (clock n) startedAt); [lia|exact (Nat.le_0_l _)].
Qed.

(** *** A run *)

Definition drain_claim (sessionId : option string) (startedAt : Z) : Claim :=
  {| cm_minAgeMs := 0; cm_sessionId := sessionId; cm_includeWaitingBefore := Some startedAt |}.

Lemma claimable_budget w sessionId startedAt b t c :
  claimable (claim_input leaseMs excludedKinds w (drain_claim sessionId startedAt)) b t c = true →
  row_budget startedAt c = (attempts_left c * weight (row_id c))%nat.
Proof.
  unfold claimable, row_budget. cbn [cl_includeWaitingBefore claim_input drain_claim cm_includeWaitingBefore].
  rewrite !andb_true_iff, orb_true_iff, !andb_true_iff, !bool_decide_eq_true.
  intros [[[[[-> _]|[-> ->]] _] _] _]; done.
Qed.

(** Settling after an execution: the row is no longer running. *)
Lemma settle_executed i w c startedAt budget n n' t' job exit :
  executed i w c startedAt budget n n' t' → running c → row_id c = job_id job →
  job_leaseOwner job = Some w → job_attemptCount job = row_attempt_count c → startedAt ≤ clock n' →
  let t'' := (settleJob clock maxAttempts n' job exit t').2 in
  ledger_inv t'' ∧ none_running t''
  ∧ (table_budget startedAt t''
     ≤ budget + (Z.to_nat (Z.max 1 (maxAttempts - (row_attempt_count c - 1))) - 1) * weight (row_id c))%nat.
Proof.
  intros [_ Hinv Ho Hb Hrow] Hc Hid Hw Hatt Hle. cbv zeta. split; [by apply settleJob_inv|].
  destruct Hrow as [(expires & Hheld & Hlive)|Haway].
  - destruct (held_owned i w expires c t' n' (job_id job)) as (r & Hi & Hown); try done.
    rewrite (settleJob_at n' job exit t' i r w) by done. cbn [snd].
    destruct Hheld as (u & Hi'). rewrite Hi in Hi'. injection Hi' as ->. split.
    + intros x (j & Hj)%list_elem_of_lookup Hr. cbn [tb_rows] in Hj.
      destruct (decide (j = i)) as [->|Hne].
      * rewrite list_lookup_insert_eq in Hj by (by eapply lookup_lt_Some). injection Hj as <-.
        by apply settlement_not_running in Hr.
      * rewrite list_lookup_insert_ne in Hj by done. by eapply Hne, Ho.
    + unfold table_budget. cbn [tb_rows].
      match goal with |- context [<[i := ?x]> _] => pose proof (sum_list_with_insert (row_budget startedAt) i x _ _ Hi) as Hs end.
      match goal with |- context [settlement_row _ _ _ ?r] =>
        pose proof (settled_budget n' job exit r startedAt Hatt Hle) as Hx end.
      cbn [row_attempt_count row_id] in Hx. unfold table_budget in Hb. lia.
  - pose proof (given_away_none _ _ Ho Haway) as Hn. rewrite settleJob_unheld.
    { split; [done|]. etrans; [exact Hb|apply Nat.le_add_r]. }
    intros w' r _ Hr. apply not_true_is_false. intros (_ & Hrun & _)%owned_live_true. by destruct (Hn r Hr).
Qed.

Lemma runOnce_alone n sessionId startedAt t :
  ledger_inv t → none_running t → startedAt ≤ clock n →
  let claim := drain_claim sessionId startedAt in
  let ready := claimable (claim_input leaseMs excludedKinds (owner n) claim)
                 (clock (n + 2) - cm_minAgeMs claim) t in
  let run := runOnce clock maxAttempts leaseMs execute owner excludedKinds n claim t in
  (run = (Success (false, None), ((n + 4)%nat, t)) ∧ ∀ r, r ∈ tb_rows t → ready r = false)
  ∨ (∃ e t1 text, text ∈ map row_request_json (tb_rows t1) ∧ decodeRequest text = Failure (jde_reason e)
     ∧ run = (Failure e, ((n + 4)%nat, t1)))
  ∨ ∃ record k t', run = (Success (true, record), (k, t')) ∧ (n ≤ k)%nat
      ∧ ledger_inv t' ∧ none_running t' ∧ (table_budget startedAt t' < table_budget startedAt t)%nat.
Proof.
  intros Hinv Hn Hst. cbv zeta. unfold runOnce. rewrite reclaim_none by done.
  destruct (claimNext _ _ _ _ t) as [answer t1] eqn:Hc.
  pose proof (run_op_inv
    (OpClaim (clock (n + 1)) (clock (n + 2)) (clock (n + 3))
       (claim_input leaseMs excludedKinds (owner n) (drain_claim sessionId startedAt))) t Hinv) as Hinv1.
  cbn [run_op] in Hinv1. rewrite Hc in Hinv1. cbn [snd] in Hinv1.
  destruct (claimNext_spec _ _ _ _ _ _ _ Hinv Hc)
    as [(-> & -> & Hno)|(i & c & Hi & Hready & _ & Hrows & ->)].
  { left. split; [done|]. exact Hno. }
  right. cbn [cl_minAgeMs cl_workerId cl_leaseMs claim_input default] in *.
  set (c1 := claim_row (owner n) (clock (n + 3) + leaseMs) (clock (n + 1)) c) in *.
  assert (tb_rows t1 !! i = Some c1) as Hi1.
  { rewrite Hrows. apply list_lookup_insert_eq. by eapply lookup_lt_Some. }
  destruct (decodeRow c1) as [job|e] eqn:Hd; cbn [result_map].
  2: { left. exists e, t1, (row_request_json c1). split_and!; [|by apply decodeRow_failure|done].
       change (map ?f ?l) with (f <$> l). eapply list_elem_of_fmap_2, list_elem_of_lookup_2, Hi1. }
  right. destruct (decodeRow_fields _ _ Hd) as (Hid & Hown & Hatt & _).
  assert (held i (owner n) (clock (n + 3) + leaseMs) c1 t1) as Hheld by by exists (clock (n + 1)).
  assert (runs_only i t1) as Honly.
  { intros j r Hj Hr. destruct (decide (j = i)) as [|Hne]; [done|]. rewrite Hrows, list_lookup_insert_ne in Hj by done.
    by destruct (Hn r); [eapply list_elem_of_lookup_2|]. }
  pose proof (da_lease Halone (n + 3)) as Hlease. replace (S (n + 3)) with (n + 4)%nat in Hlease by lia.
  destruct (renew_held i (owner n) _ c1 t1 (n + 4) (job_id job) Hinv1 Hheld eq_refl (eq_sym Hid) Hlease)
    as (t2 & Hrenew & Hinv2 & Hheld2 & Hsame & Hb2).
  unfold execution. rewrite Hrenew.
  pose proof (da_heartbeat Halone job (n + 4) t2) as Hkept.
  pose proof (da_spawns Halone job (n + 4 + 2) t2) as Hsp.
  destruct (execute job (n + 4 + 2) t2) as [steps exit]. cbn [fst] in Hkept, Hsp.
  destruct (race_spec steps (n + 4 + 2) t2 i (owner n) c1 _ exit startedAt job Hinv2
              (runs_only_same _ _ _ Honly Hsame) eq_refl (eq_sym Hid) (or_introl Hheld2) Hkept)
    as (exit' & n' & t3 & -> & Hex).
  pose proof (ex_later _ _ _ _ _ _ _ _ Hex) as Hlater.
  pose proof (da_clock Halone n n' ltac:(lia)) as Hck.
  destruct (settle_executed i (owner n) c1 startedAt _ _ n' t3 job exit' Hex eq_refl (eq_sym Hid) Hown Hatt
              ltac:(lia)) as (Hinv4 & Hn4 & Hb4).
  destruct (settleJob clock maxAttempts n' job exit' t3) as [record t4]. cbn [snd] in *.
  exists record, (n' + 2)%nat, t4. split_and!; [done|lia|done|done|].
  pose proof (sum_list_with_insert (row_budget startedAt) i c1 c _ Hi) as Hs. rewrite <-Hrows in Hs.
  rewrite (claimable_budget _ _ _ _ _ _ Hready) in Hs. change (row_budget startedAt c1) with 0%nat in Hs.
  rewrite Hb2 in Hb4. unfold table_budget in *. change (row_id c1) with (row_id c) in *.
  change (row_attempt_count c1) with (1 + row_attempt_count c) in Hb4.
  replace (1 + row_attempt_count c - 1) with (row_attempt_count c) in Hb4 by lia.
  rewrite Hid in Hsp. change (row_id c1) with (row_id c) in Hsp. fold (attempts_left c) in Hb4.
  assert (1 ≤ attempts_left c)%nat by (unfold attempts_left; lia). nia.
Qed.

(** ** Draining ends *)

Lemma drain_pending_alone n sessionId t :
  none_running t → drain_pending inFlight n sessionId t = false.
Proof.
  intros Hn. destruct sessionId as [s|]; cbn.
  - unfold hasRunning. destruct (session_running s t) eqn:Hs; [|done].
    apply session_running_true in Hs as (r & Hin & Hr & _). by destruct (Hn r Hin).
  - by rewrite (da_inFlight Halone).
Qed.

Definition drained (n : nat) (sessionId : option string) (startedAt : Z)
    (end_ : result (list JobFailure) JobRowDecodeError * (nat * JobTable)) : Prop :=
  match end_ with
  | (Success _, (_, t')) =>
      none_running t'
      ∧ ∃ m w, (n ≤ m)%nat ∧ ∀ r, r ∈ tb_rows t' →
          claimable (claim_input leaseMs excludedKinds w (drain_claim sessionId startedAt))
            (clock m) t' r = false
  | (Failure e, (_, t')) =>
      ∃ text, text ∈ map row_request_json (tb_rows t') ∧ decodeRequest text = Failure (jde_reason e)
  end.

Lemma drain_loop_ends fuel n sessionId startedAt failures t :
  ledger_inv t → none_running t → startedAt ≤ clock n →
  (table_budget startedAt t < fuel)%nat →
  ∃ end_, drain_loop clock maxAttempts leaseMs execute owner excludedKinds inFlight
            fuel n sessionId startedAt failures t = Some end_
          ∧ drained n sessionId startedAt end_.
Proof.
  revert n failures t. induction fuel as [|fuel IH]; intros n failures t Hinv Hn Hst Hb; [lia|].
  cbn [drain_loop]. fold (drain_claim sessionId startedAt).
  destruct (runOnce_alone n sessionId startedAt t Hinv Hn Hst)
    as [[-> Hno]|[(e & t1 & text & Hin & Hd & ->)
                 |(record & k & t' & -> & Hk & Hinv' & Hn' & Hlt)]].
  - rewrite drain_pending_alone by done. eexists. split; [done|]. cbn. split; [done|].
    exists (n + 2)%nat, (owner n). split; [lia|]. intros r Hr. rewrite <-(Hno r Hr).
    cbn. by rewrite Z.sub_0_r.
  - eexists. split; [done|]. by exists text.
  - pose proof (da_clock Halone n k Hk) as Hck.
    destruct (IH k (observe sessionId failures record) t') as (end_ & -> & Hend); [done|done|lia|lia|].
    exists end_. split; [done|]. unfold drained in *.
    destruct end_ as [[fs|e] [m t'']]; [|done].
    destruct Hend as (? & m' & w & ? & ?). split; [done|]. exists m', w. split; [lia|done].
Qed.

(** C32: a drain ends. Run alone, a drain (of one session or of all) takes at most as
    many claims as its start table allows: the attempts left to each pending job and to
    each job parked before the drain started, each worth the job's weight, which pays for
    the jobs its executions commit. It then returns its failures, with nothing running and
    nothing left that the drain could claim; or it stops at a stored request that cannot
    be read, and only then. Executors may write to the ledger meanwhile and cancel jobs,
    also their own, and an execution lasts as long as its heartbeats renew its lease;
    executions whose lease expires are not covered: the ledger hands them out again
    without regard to their attempts. *)
Theorem drain_terminates fuel n sessionId t :
  ledger_inv t → none_running t → (table_budget (clock n) t < fuel)%nat →
  ∃ end_, makeDrain clock maxAttempts leaseMs execute owner excludedKinds inFlight
            fuel n sessionId t = Some end_
          ∧ drained (S n) sessionId (clock n) end_.
Proof.
  intros Hinv Hn Hb. apply drain_loop_ends; [done|done| |done].
  apply (da_clock Halone). lia.
Qed.
End worker.

(** ** A worker in use *)

Import ledger_demo.
Module worker_demo.
Definition clock (n : nat) : Z := 100 + Z.of_nat n.
(** The first send fails and is retried on demand. The second lasts past its first lease
    of ten units, commits a job and is renewed; the third cancels the jobs of its session,
    which is its own, and loses its claim at the next heartbeat. *)
Definition execute (j : Job) (n : nat) (t : JobTable) : list ExecutionStep * JobExit :=
  if decide (job_id j = "j1")
  then ([ES_work], Exit_failure (Some {| jx_message := "offline"; jx_retry := on_demand |}) "offline")
  else if decide (job_id j = "j2")
  then ([ES_work; ES_enqueue [job "j4" "s3" "t4"]; ES_heartbeat; ES_work; ES_work; ES_heartbeat; ES_work;
         ES_work; ES_heartbeat; ES_work], Exit_success)
  else if decide (job_id j = "j3")
  then ([ES_cancel "s2" [provider_turn_send] "superseded"; ES_heartbeat; ES_work], Exit_success)
  else ([], Exit_success).
Definition owner (n : nat) : string := "w:" +:+ pretty n.
Definition inFlight (_ : nat) : Z := 0.
Definition weight (jobId : string) : nat := if decide (jobId = "j2") then 6 else 1.

Lemma alone : drains_alone clock 5 10 execute inFlight weight.
Proof.
  constructor; unfold clock, inFlight; intros; try lia; unfold execute, weight;
    repeat case_decide; try congruence; cbn; unfold all_attempts; repeat case_decide; try congruence; cbn; lia.
Qed.

Lemma queued_idle : none_running queued.
Proof.
  intros r Hin. vm_compute in Hin.
  repeat (apply elem_of_cons in Hin as [-> |Hin]; [discriminate|]).
  by apply elem_of_nil in Hin.
Qed.
Definition drain_end := makeDrain clock 5 10 execute owner None inFlight 64 0 None queued.
End worker_demo.
Import worker_demo.

Lemma settle_job_outcome_witness :
  let job := {| job_id := "j1"; job_sequence := 1; job_sessionId := "s1";
                job_request := ProviderTurnSend "t1" None "{}" None; job_status := JS_running;
                job_attemptCount := 1; job_availableAt := 10; job_leaseOwner := Some "w1";
                job_leaseExpiresAt := Some 120; job_causationEventId := None;
                job_correlationId := None; job_lastError := None; job_createdAt := 10;
                job_updatedAt := 20; job_completedAt := None |} in
  ∃ r', tb_rows (settleJob clock 5 3 job Exit_success claimed).2 = <[0%nat := r']> (tb_rows claimed)
        ∧ row_status r' = JS_succeeded.
Proof.
  intros job.
  destruct (settle_job_outcome clock 5 3 job Exit_success claimed
    (settleJob clock 5 3 job Exit_success claimed).1
    (settleJob clock 5 3 job Exit_success claimed).2) as (_ & Hheld).
  - apply (run_ops_inv claim_ops).
  - apply surjective_pairing.
  - destruct (Hheld "w1" 0%nat (row 0 claimed)) as (r' & Hrows & _ & _ & Hst);
      [reflexivity|vm_compute; reflexivity|vm_compute; reflexivity|].
    exists r'. split; [exact Hrows|exact Hst].
Defined.

Lemma drain_terminates_witness :
  (λ end_, (λ r, (row_id r, row_status r)) <$> tb_rows end_.2.2) <$> drain_end
    = Some [("j1", JS_waiting); ("j2", JS_succeeded); ("j3", JS_cancelled); ("j4", JS_succeeded)]
  ∧ ∃ end_, drain_end = Some end_ ∧ drained clock 10 None 1 None (clock 0) end_.
Proof.
  split; [vm_compute; reflexivity|].
  apply (drain_terminates clock 5 10 execute owner None inFlight weight alone 64 0 None queued).
  - apply (run_ops_inv [OpEnqueue 10 jobs]).
  - apply queued_idle.
  - apply Nat.ltb_lt. vm_compute. reflexivity.
Defined.
