(* ===== verification/SessionDomain.v ===== *)
(** * Transactional dispatch of session commands (engine/session-domain.ts,
    engine/admission.ts)

    The write path of the session domain: the admission gate, the command gates, the
    dispatch with its retries, the projection of the appended events, the jobs they
    imply and cancel, all in one transaction. The database is a [World]: the event
    store, the projector's cursor, the jobs table, and the rest ([wd_rest]), on which
    the projector and the caller's callback act. A transaction that fails leaves the
    world as it was; the event-id source is outside of it. *)
From S2P Require Import Prelude Js JsMap Ids Contracts SessionTypes SessionState SessionDecider Dispatch DispatchEngine Jobs JobLedger.

Local Open Scope Z_scope.

Record World (S X : Type) := {
  wd_store : S;
  wd_cursor : Z;
  wd_jobs : JobTable;
  wd_rest : X;
  (** [closed] of the admission gate. *)
  wd_closed : bool;
  (** Sessions with an unfinished fork construction. *)
  wd_forkPending : list string;
  (** An unfinished checkpoint restore exists. *)
  wd_restorePending : bool }.
Arguments Build_World {S X}.
Arguments wd_store {S X}.
Arguments wd_cursor {S X}.
Arguments wd_jobs {S X}.
Arguments wd_rest {S X}.
Arguments wd_closed {S X}.
Arguments wd_forkPending {S X}.
Arguments wd_restorePending {S X}.
#[export] Instance settable_World {S X} : Settable (World S X) := λ w,
  Build_World (wd_store w) (wd_cursor w) (wd_jobs w) (wd_rest w) (wd_closed w)
    (wd_forkPending w) (wd_restorePending w).

Inductive SessionDomainError (I E : Type) : Type :=
| AdmissionClosed
| DispatchFailed (e : DispatchFailure DomainError I)
(** Of the projector or the callback. *)
| WriteFailed (e : E)
(** A job request that cannot be encoded ([Effect.orDie]). *)
| EnqueueDefect.
Arguments AdmissionClosed {I E}.
Arguments DispatchFailed {I E} e.
Arguments WriteFailed {I E} e.
Arguments EnqueueDefect {I E}.

(** What is published once the transaction committed. *)
Inductive Publication : Type :=
| JobCancellations (ids : list string)
| ReconciliationWake
| JobWakeup.

Definition exempt_from_fork_gate (command : SessionCommand) : bool :=
  match command with
  | CreateSession _ _ _ | DeleteSession _ | RequestProviderStop _ | PersistMessage _ => true
  | _ => false
  end.

Definition restore_gated (command : SessionCommand) : bool :=
  match command with
  | SubmitTurn _ _ _ _ _ _ _ _ | StartTurn _ _ | RetryTurn _ _ _ _ _ | RecoverTurn _ _ _
  | CreateSessionWithInitialTurn _ _ _ _ _ _ _ | ReleaseInitialTurn _ _ _ _
  | ClaimQueuedTurn _ _ | SteerQueuedTurn _ _ _ _ | ReserveProviderSession _ _ _ _ _ _
  | SetProvider _ _ _ _ _ | SetModel _ _ | SetWorktree _ _ _ | UnarchiveSession _ => true
  | _ => false
  end.

Definition is_AttemptStarted (record : StoredEvent SessionEvent) : bool :=
  match se_event record with AttemptStarted _ _ _ _ _ _ _ _ => true | _ => false end.
Definition is_TurnInterruptRequested (record : StoredEvent SessionEvent) : bool :=
  match se_event record with TurnInterruptRequested _ _ _ => true | _ => false end.
Definition is_ExpireAttempt (command : SessionCommand) : bool :=
  match command with ExpireAttempt _ _ _ => true | _ => false end.

Section domain.
Context `{ContentCodec} `{RequestCodec}.
Context {St X : Type} `{DispatchStorage St SessionEvent}.
Context {G I E : Type} (makeEventId : G → result string I * G).
(** [makeSqlSessionProjector(sql).apply], on the projected tables. *)
Context (apply : StoredEvent SessionEvent → X → result X E).

Notation World := (World St X).
Notation Error := (SessionDomainError I E).

(** [sql.withTransaction] *)
Definition withTransaction {A} (body : World * G → result A Error * (World * G)) (w : World * G)
    : result A Error * (World * G) :=
  match body w with
  | (Failure e, (_, g)) => (Failure e, (w.1, g))
  | done => done
  end.

(** [admission.run] *)
Definition admission_run {A} (work : World * G → result A Error * (World * G))
    : World * G → result A Error * (World * G) :=
  withTransaction (λ w, if wd_closed w.1 then (Failure AdmissionClosed, w) else work w).

Definition gated (input : DispatchInput SessionCommand) (w : World) : bool :=
  (negb (exempt_from_fork_gate (di_command input))
     && bool_decide (di_streamId input ∈ wd_forkPending w))
  || (restore_gated (di_command input) && wd_restorePending w).

(** [Effect.retry] on concurrency conflicts, at most [retries] times. *)
Fixpoint dispatch_retrying (retries : nat) (input : DispatchInput SessionCommand) (w : St * G)
    : result CommandReceipt (DispatchFailure DomainError I) * (St * G) :=
  match session_run makeEventId input w, retries with
  | (Failure (DF_storage (ConcurrencyConflict _ _ _)), w), S retries =>
      dispatch_retrying retries input w
  | answer, _ => answer
  end.

Definition eventsInVersionRange (streamId : string) (fromExclusive toInclusive : Z) (s : St)
    : list (StoredEvent SessionEvent) :=
  filter (λ record, fromExclusive < se_streamVersion record ∧ se_streamVersion record ≤ toInclusive)
    (ds_events streamId s).

Definition appended_events (input : DispatchInput SessionCommand) (receipt : CommandReceipt) (s : St)
    : list (StoredEvent SessionEvent) :=
  match cr_eventIds receipt with
  | [] => []
  | _ :: _ =>
      eventsInVersionRange (di_streamId input)
        (cr_streamVersion receipt - Z.of_nat (length (cr_eventIds receipt)))
        (cr_streamVersion receipt) s
  end.

(** Applies the appended events the cursor has not passed, moving the cursor. *)
Fixpoint project (appended : list (StoredEvent SessionEvent)) (cursor : Z) (x : X)
    : result (Z * X) E :=
  match appended with
  | [] => Success (cursor, x)
  | record :: appended =>
      if se_sequence record <=? cursor then project appended cursor x
      else x ←! apply record x; project appended (se_sequence record) x
  end.

Definition superseded_kinds : list JobKind :=
  [provider_turn_send; provider_turn_interrupt; provider_turn_recover].
Definition interrupted_kinds : list JobKind := [provider_turn_send; provider_turn_recover].

(** The jobs the command cancels, in the order of the code. *)
Definition cancel_jobs (now1 now2 : Z) (input : DispatchInput SessionCommand)
    (appended : list (StoredEvent SessionEvent)) (t : JobTable) : list string * JobTable :=
  let '(cancelled, t) :=
    if is_ExpireAttempt (di_command input) || existsb is_AttemptStarted appended
    then cancelUnsettled now1 (di_streamId input) superseded_kinds
           "Superseded by a new attempt." t
    else ([], t) in
  if existsb is_TurnInterruptRequested appended
  then
    let '(interrupted, t) :=
      cancelUnsettled now2 (di_streamId input) interrupted_kinds
        "Turn interrupted by the user." t in
    (cancelled ++ interrupted, t)
  else (cancelled, t).

Record Dispatched (A : Type) := {
  dp_result : A;
  dp_appended : list (StoredEvent SessionEvent);
  dp_enqueued : Z;
  dp_cancelled : list string }.
Arguments Build_Dispatched {A}.
Arguments dp_result {A}.
Arguments dp_appended {A}.
Arguments dp_enqueued {A}.
Arguments dp_cancelled {A}.

(** The body of the transaction; [now1], [now2] and [now3] are the clock at the two
    cancellations and at the enqueueing. *)
Definition transaction {A} (now1 now2 now3 : Z) (input : DispatchInput SessionCommand)
    (onCommitted : CommandReceipt → X → result (A * X) E) (w : World * G)
    : result (Dispatched A) Error * (World * G) :=
  let '(w, g) := w in
  if gated input w then (Failure AdmissionClosed, (w, g))
  else
    match dispatch_retrying 8 input (wd_store w, g) with
    | (Failure e, (s, g)) => (Failure (DispatchFailed e), (w <| wd_store := s |>, g))
    | (Success receipt, (s, g)) =>
        let w := w <| wd_store := s |> in
        let appended := appended_events input receipt s in
        match project appended (wd_cursor w) (wd_rest w) with
        | Failure e => (Failure (WriteFailed e), (w, g))
        | Success (cursor, x) =>
            let '(cancelled, t) := cancel_jobs now1 now2 input appended (wd_jobs w) in
            let '(enqueued, t) := enqueue now3 (appended ≫= jobsForSessionEvent) t in
            let w := w <| wd_cursor := cursor |> <| wd_rest := x |> <| wd_jobs := t |> in
            match enqueued with
            | None => (Failure EnqueueDefect, (w, g))
            | Some enqueued =>
                match onCommitted receipt (wd_rest w) with
                | Failure e => (Failure (WriteFailed e), (w, g))
                | Success (result, x) =>
                    (Success {| dp_result := result; dp_appended := appended;
                                dp_enqueued := enqueued; dp_cancelled := cancelled |},
                     (w <| wd_rest := x |>, g))
                end
            end
        end
    end.

Definition publications {A} (d : Dispatched A) : list Publication :=
  (match dp_cancelled d with [] => [] | ids => [JobCancellations ids] end)
  ++ (match dp_appended d with [] => [] | _ :: _ => [ReconciliationWake] end)
  ++ (if 0 <? dp_enqueued d then [JobWakeup] else []).

Definition dispatchTransactionally {A} (now1 now2 now3 : Z) (input : DispatchInput SessionCommand)
    (onCommitted : CommandReceipt → X → result (A * X) E) (w : World * G)
    : result (A * list Publication) Error * (World * G) :=
  match admission_run (transaction now1 now2 now3 input onCommitted) w with
  | (Failure e, w) => (Failure e, w)
  | (Success d, w) => (Success (dp_result d, publications d), w)
  end.

(** [dispatch: (input) => dispatchTransactionally(input, Effect.succeed)] *)
Definition dispatch (now1 now2 now3 : Z) (input : DispatchInput SessionCommand) (w : World * G)
    : result (CommandReceipt * list Publication) Error * (World * G) :=
  dispatchTransactionally now1 now2 now3 input (λ receipt x, Success (receipt, x)) w.

(** The ledger the domain exposes: claims pass the admission gate, and a claim that
    fails to decode is rolled back with its transaction. *)
Definition jobs_claimNext (now1 now2 now3 : Z) (input : ClaimInput) (w : World)
    : result (option Job) JobRowDecodeError * World :=
  if wd_closed w then (Success None, w)
  else
    match claimNext now1 now2 now3 input (wd_jobs w) with
    | (Failure e, _) => (Failure e, w)
    | (answer, t) => (answer, w <| wd_jobs := t |>)
    end.
End domain.
Arguments dp_result {A}.
Arguments dp_appended {A}.
Arguments dp_enqueued {A}.
Arguments dp_cancelled {A}.
