(* ===== verification/SessionDomainProps.v ===== *)
(** * What the transactional dispatch guarantees of jobs *)
From S2P Require Import Prelude Js JsMap Ids Contracts SessionTypes SessionState SessionDecider SessionProps Dispatch DispatchEngine DispatchProps Jobs JobLedger LedgerInv JobLedgerProps SessionDomain.

Local Open Scope Z_scope.

Section domain.
Context `{ContentCodec} `{RequestCodec}.
Context {St X : Type} `{DispatchStorage St SessionEvent} {valid : St → Prop}.
Context {Hlaws : DispatchStorageLaws St SessionEvent valid}.
Context {G I E : Type} (makeEventId : G → result string I * G).
Context (apply : StoredEvent SessionEvent → X → result X E).

(** ** The stored records of a dispatch *)

Record dispatch_effect (input : DispatchInput SessionCommand) (s s' : St)
    (answer : result CommandReceipt (DispatchFailure DomainError I)) : Prop := {
  de_valid : valid s';
  de_other streamId : streamId ≠ di_streamId input → ds_events streamId s' = ds_events streamId s;
  de_answer :
    match answer with
    | Failure _ => s' = s
    | Success r =>
        (s' = s ∧ ds_receipt (di_commandId input) s = Some r)
        ∨ ds_receipt (di_commandId input) s = None
          ∧ ∃ added,
              ds_events (di_streamId input) s' = ds_events (di_streamId input) s ++ added
              ∧ length (cr_eventIds r) = length added
              ∧ cr_streamVersion r = Z.of_nat (length (ds_events (di_streamId input) s'))
    end }.

Lemma session_run_effect input s g answer s' g' :
  valid s → session_run makeEventId input (s, g) = (answer, (s', g')) →
  dispatch_effect input s s' answer.
Proof.
  intros Hv Hrun. unfold session_run in Hrun. cbn [fst snd] in Hrun.
  destruct (session_prepare_cases makeEventId input s g)
    as [(an & g1 & Hp & Hs & _)|(events & g1 & Hr & Hown & Hd & Hp)]; rewrite Hp in Hrun.
  - cbn [commit] in Hrun. injection Hrun as <- <- <-. constructor; [done|done|].
    destruct an as [r|e]; [|done]. destruct (Hs r eq_refl) as (Hr & _). by left.
  - cbn [commit] in Hrun. set (a := append_input _ _ _ _) in *.
    assert (Z.of_nat (length (ds_events (ai_streamId a) s)) = ai_expectedVersion a) as Hver
      by (subst a; cbn; by rewrite session_version).
    destruct (dsl_append_new s a Hv Hr Hver) as (s1 & Ha & Hv1 & _ & Hother & added & Hev & Hsnd & Hids).
    rewrite Ha in Hrun. cbn in Hrun. injection Hrun as <- <- <-. constructor; [done| |].
    + intros streamId Hne. by apply Hother.
    + right. split; [done|]. exists added. split_and!; [done| |].
      * apply (f_equal length) in Hids. rewrite !length_map in Hids. cbn.
        by rewrite length_map, Hids.
      * apply (f_equal length) in Hids. rewrite !length_map in Hids.
        change (di_streamId input) with (ai_streamId a). rewrite Hev, length_app, Nat2Z.inj_add, Hver.
        cbn [cr_streamVersion append_receipt]. by rewrite Hids.
Qed.

Lemma dispatch_retrying_effect n input s g answer s' g' :
  valid s → dispatch_retrying makeEventId n input (s, g) = (answer, (s', g')) →
  dispatch_effect input s s' answer.
Proof.
  revert s g. induction n as [|n IH]; intros s g Hv Hd; cbn [dispatch_retrying] in Hd.
  - destruct (session_run makeEventId input (s, g)) as [an [s1 g1]] eqn:Hrun.
    apply session_run_effect in Hrun; [|done].
    assert ((an, (s1, g1)) = (answer, (s', g'))) as Heq by by repeat case_match.
    by injection Heq as <- <- <-.
  - destruct (session_run makeEventId input (s, g)) as [an [s1 g1]] eqn:Hrun.
    apply session_run_effect in Hrun; [|done].
    destruct an as [r|[| |[]| |]]; try (by injection Hd as <- <- <-).
    destruct Hrun as [_ _ Heq]. subst s1. by eapply IH.
Qed.

(** The range a new receipt names is what the append added. *)
Lemma range_of_append streamId s s' added v :
  valid s' → ds_events streamId s' = ds_events streamId s ++ added →
  v = Z.of_nat (length (ds_events streamId s')) →
  eventsInVersionRange streamId (v - Z.of_nat (length added)) v s' = added.
Proof.
  intros Hv Hev ->. unfold eventsInVersionRange.
  assert (∀ i e, ds_events streamId s' !! i = Some e → se_streamVersion e = Z.of_nat i + 1) as Hver
    by (intros i e Hi; by destruct (dsl_versions s' streamId i e Hv Hi)).
  rewrite Hev in Hver |- *. rewrite length_app, filter_app.
  rewrite (filter_none _ (ds_events streamId s)).
  2: { intros e (i & Hi)%list_elem_of_lookup [Hlt _]. pose proof (lookup_lt_Some _ _ _ Hi).
       rewrite (Hver i e) in Hlt by (by apply lookup_app_l_Some). lia. }
  cbn [app]. apply list_filter_all_lookup. intros i e Hi.
  rewrite (Hver (length (ds_events streamId s) + i)%nat e).
  - apply lookup_lt_Some in Hi. lia.
  - rewrite lookup_app_r by lia. by replace (_ + i - _)%nat with i by lia.
Qed.

Lemma appended_new input receipt s s' added :
  valid s' → ds_events (di_streamId input) s' = ds_events (di_streamId input) s ++ added →
  length (cr_eventIds receipt) = length added →
  cr_streamVersion receipt = Z.of_nat (length (ds_events (di_streamId input) s')) →
  appended_events input receipt s' = added.
Proof.
  intros Hv Hev Hlen Hver. unfold appended_events.
  destruct (cr_eventIds receipt) as [|id ids] eqn:Hids.
  - by destruct added.
  - rewrite Hlen. by apply (range_of_append _ s).
Qed.

Lemma appended_stored input receipt s record :
  record ∈ appended_events input receipt s → record ∈ ds_events (di_streamId input) s.
Proof.
  unfold appended_events, eventsInVersionRange. destruct (cr_eventIds receipt); [by intros ?%elem_of_nil|].
  by intros [_ ?]%list_elem_of_filter.
Qed.

(** ** Cancellations *)

Definition cancels (input : DispatchInput SessionCommand)
    (appended : list (StoredEvent SessionEvent)) (r : JobRow) : bool :=
  bool_decide (row_session_id r = di_streamId input) && unsettled r
  && (((is_ExpireAttempt (di_command input) || existsb is_AttemptStarted appended)
         && of_kinds superseded_kinds r)
      || (existsb is_TurnInterruptRequested appended && of_kinds interrupted_kinds r)).

(** A row before and after the cancellations of a commit. *)
Definition cancelled_or_kept (input : DispatchInput SessionCommand)
    (appended : list (StoredEvent SessionEvent)) (r r' : JobRow) : Prop :=
  if cancels input appended r
  then row_status r' = JS_cancelled ∧ identity r' = identity r
  else r' = r.

Lemma cancel_jobs_rows now1 now2 input appended t :
  Forall2 (cancelled_or_kept input appended) (tb_rows t)
    (tb_rows (cancel_jobs now1 now2 input appended t).2).
Proof.
  apply Forall2_same_length_lookup. unfold cancel_jobs.
  set (c1 := _ || _). set (c2 := existsb is_TurnInterruptRequested appended).
  assert (tb_rows (let '(cancelled, t1) :=
      if c1 then cancelUnsettled now1 (di_streamId input) superseded_kinds
                   "Superseded by a new attempt." t else ([], t) in
      if c2 then let '(interrupted, t2) :=
          cancelUnsettled now2 (di_streamId input) interrupted_kinds
            "Turn interrupted by the user." t1 in (cancelled ++ interrupted, t2)
      else (cancelled, t1)).2
    = map (λ r, let r1 := if c1 then update_row (λ r, bool_decide (row_session_id r = di_streamId input)
                  && unsettled r && of_kinds superseded_kinds r)
                  (cancel_row now1 "Superseded by a new attempt.") r else r in
                if c2 then update_row (λ r, bool_decide (row_session_id r = di_streamId input)
                  && unsettled r && of_kinds interrupted_kinds r)
                  (cancel_row now2 "Turn interrupted by the user.") r1 else r1) (tb_rows t)) as ->.
  { destruct c1, c2; cbn; rewrite ?map_map; [done..|by rewrite map_id]. }
  split; [by rewrite length_map|]. intros i r r' Hi Hi'.
  change (map ?f ?l) with (f <$> l) in Hi'. rewrite list_lookup_fmap, Hi in Hi'.
  cbn in Hi'. injection Hi' as <-. unfold cancelled_or_kept, cancels. fold c1 c2. unfold update_row.
  destruct (bool_decide (row_session_id r = di_streamId input)) eqn:Hs, (unsettled r) eqn:Hu,
    c1, c2, (of_kinds superseded_kinds r) eqn:Hk1, (of_kinds interrupted_kinds r) eqn:Hk2;
    cbn; rewrite ?Hs, ?Hu, ?Hk1, ?Hk2; cbn; done.
Qed.

Lemma cancel_jobs_identity now1 now2 input appended t :
  map identity (tb_rows (cancel_jobs now1 now2 input appended t).2) = map identity (tb_rows t).
Proof.
  pose proof (cancel_jobs_rows now1 now2 input appended t) as Hf. induction Hf as [|r r' l k Hr _ IH]; [done|].
  cbn. rewrite IH. f_equal. unfold cancelled_or_kept in Hr. destruct (cancels _ _ r); naive_solver.
Qed.

(** ** The transaction *)

Notation World := (World St X).

Definition committed (now1 now2 now3 : Z) (input : DispatchInput SessionCommand) (w w' : World)
    (receipt : CommandReceipt) : Prop :=
  dispatch_effect input (wd_store w) (wd_store w') (Success receipt)
  ∧ let appended := appended_events input receipt (wd_store w') in
    ∃ n, enqueue now3 (appended ≫= jobsForSessionEvent)
           (cancel_jobs now1 now2 input appended (wd_jobs w)).2 = (Some n, wd_jobs w').

Lemma dispatch_cases now1 now2 now3 input (w : World) g answer w' g' :
  valid (wd_store w) →
  dispatch makeEventId apply now1 now2 now3 input (w, g) = (answer, (w', g')) →
  match answer with
  | Failure _ => w' = w
  | Success (receipt, _) => committed now1 now2 now3 input w w' receipt
  end.
Proof.
  intros Hv Hd. unfold dispatch, dispatchTransactionally, admission_run, withTransaction in Hd.
  cbn [fst snd] in Hd. destruct (wd_closed w); [by injection Hd as <- <- _|].
  unfold transaction in Hd. destruct (gated input w); [by injection Hd as <- <- _|].
  destruct (dispatch_retrying makeEventId 8 input (wd_store w, g)) as [[receipt|e] [s1 g1]] eqn:Hr;
    [|by injection Hd as <- <- _].
  apply dispatch_retrying_effect in Hr; [|done].
  destruct (project _ _ _ _) as [[cursor x]|e]; [|by injection Hd as <- <- _].
  destruct (cancel_jobs _ _ _ _ _) as [cancelled t1] eqn:Hc.
  destruct (enqueue _ _ _) as [[n|] t2] eqn:He; [|by injection Hd as <- <- _].
  injection Hd as <- <- _. cbn [dp_result]. split; [exact Hr|]. cbn zeta. exists n.
  change (enqueue now3 (appended_events input receipt s1 ≫= jobsForSessionEvent)
            (cancel_jobs now1 now2 input (appended_events input receipt s1) (wd_jobs w)).2
          = (Some n, t2)).
  change (cancel_jobs now1 now2 input (appended_events input receipt s1) (wd_jobs w)
          = (cancelled, t1)) in Hc. by rewrite Hc.
Qed.

(** C30: a dispatch commits its events and their jobs together, or nothing. A failed
    one leaves the database as it was. A successful one of a new command appends
    exactly the events it reports; every job those events imply has a row; and the
    rows that were there before stay as they are, except the unsettled sends,
    recoveries and interrupts of the session that a new attempt or an interrupt
    supersedes, which are cancelled. *)
Theorem dispatch_commits_jobs now1 now2 now3 input (w : World) g answer w' g' :
  valid (wd_store w) →
  dispatch makeEventId apply now1 now2 now3 input (w, g) = (answer, (w', g')) →
  match answer with
  | Failure _ => w' = w
  | Success (receipt, _) =>
      let appended := appended_events input receipt (wd_store w') in
      (ds_receipt (di_commandId input) (wd_store w) = None →
       ds_events (di_streamId input) (wd_store w')
       = ds_events (di_streamId input) (wd_store w) ++ appended)
      ∧ (∀ job, job ∈ appended ≫= jobsForSessionEvent →
           pj_id job ∈ map row_id (tb_rows (wd_jobs w')))
      ∧ ∃ kept new, tb_rows (wd_jobs w') = kept ++ new
          ∧ Forall2 (cancelled_or_kept input appended) (tb_rows (wd_jobs w)) kept
          ∧ Forall (λ r, row_status r = JS_pending ∧ row_attempt_count r = 0) new
  end.
Proof.
  intros Hv Hd. apply dispatch_cases in Hd; [|done]. destruct answer as [[receipt pubs]|e]; [|done].
  destruct Hd as [[Hv' Hother Ha] (n & He)]. cbn zeta in *.
  apply enqueue_loop_spec in He as [(new & Hrows & _ & Hnew) Hall]. split_and!; [|done|].
  - intros Hno. destruct Ha as [[_ Hr]|(_ & added & Hev & Hlen & Hver)]; [congruence|].
    by rewrite (appended_new input receipt (wd_store w) (wd_store w') added Hv' Hev Hlen Hver).
  - eexists _, new. split; [exact Hrows|]. split; [apply cancel_jobs_rows|].
    eapply Forall_impl; [exact Hnew|]. cbn. naive_solver.
Qed.

(** ** The outbox *)

(** The jobs table is the outbox of the event log: every job that a committed event
    implies has a row, and every row is the job of a committed event. *)
Record outbox (s : St) (t : JobTable) : Prop := {
  ob_complete streamId record job :
    record ∈ ds_events streamId s → job ∈ jobsForSessionEvent record →
    pj_id job ∈ map row_id (tb_rows t);
  ob_sound r : r ∈ tb_rows t →
    ∃ streamId record job, record ∈ ds_events streamId s ∧ job ∈ jobsForSessionEvent record
      ∧ row_id r = pj_id job ∧ row_session_id r = pj_sessionId job
      ∧ encodeRequest (pj_request job) = Some (row_request_json r) }.

Lemma identity_ids rows rows' :
  map identity rows' = map identity rows → map row_id rows' = map row_id rows.
Proof.
  intros Hi. apply (f_equal (map (λ k, k.1.1.1.1.2))) in Hi.
  by rewrite !map_map in Hi.
Qed.

Lemma outbox_identity s t t' :
  map identity (tb_rows t') = map identity (tb_rows t) → outbox s t → outbox s t'.
Proof.
  intros Hid [Hc Hs]. constructor.
  - intros streamId record job Hr Hj. rewrite (identity_ids _ _ Hid). by eapply Hc.
  - intros r (i & Hi)%list_elem_of_lookup.
    assert ((identity <$> tb_rows t') !! i = Some (identity r)) as Hi'
      by (by rewrite list_lookup_fmap, Hi).
    change (identity <$> tb_rows t') with (map identity (tb_rows t')) in Hi'. rewrite Hid in Hi'.
    change (map ?f ?l) with (f <$> l) in Hi'. rewrite list_lookup_fmap in Hi'.
    apply fmap_Some in Hi' as (r0 & Hr0 & Heq).
    destruct (identity_columns _ _ Heq) as (_ & -> & -> & _ & ->).
    apply Hs. by eapply list_elem_of_lookup_2.
Qed.

Lemma outbox_commit now1 now2 now3 input w w' receipt :
  committed now1 now2 now3 input w w' receipt →
  outbox (wd_store w) (wd_jobs w) → outbox (wd_store w') (wd_jobs w').
Proof.
  intros [[Hv' Hother Ha] (n & He)] Hob. cbn zeta in He.
  set (appended := appended_events input receipt (wd_store w')) in *.
  apply (outbox_identity _ _ _ (cancel_jobs_identity now1 now2 input appended (wd_jobs w))) in Hob.
  destruct Hob as [Hc Hs].
  apply enqueue_loop_spec in He as [(new & Hrows & _ & Hnew) Hall].
  assert (∀ streamId record, record ∈ ds_events streamId (wd_store w) →
            record ∈ ds_events streamId (wd_store w')) as Hgrow.
  { intros streamId record Hin. destruct (decide (streamId = di_streamId input)) as [->|Hne].
    - destruct Ha as [[-> _]|(_ & added & -> & _)]; [done|]. apply elem_of_app. by left.
    - by rewrite Hother. }
  constructor.
  - intros streamId record job Hr Hj.
    assert (record ∈ ds_events streamId (wd_store w) ∨ record ∈ appended) as [Hold|Hnewr].
    { destruct (decide (streamId = di_streamId input)) as [->|Hne];
        [|left; by rewrite Hother in Hr].
      destruct Ha as [[Heq _]|(_ & added & Hev & Hlen & Hver)]; [left; by rewrite Heq in Hr|].
      subst appended.
      rewrite (appended_new input receipt (wd_store w) (wd_store w') added Hv' Hev Hlen Hver).
      rewrite Hev in Hr. by apply elem_of_app in Hr. }
    + rewrite Hrows, map_app. apply elem_of_app. left. by eapply Hc.
    + apply Hall, list_elem_of_bind. by exists record.
  - intros r. rewrite Hrows. intros [Hin|Hin]%elem_of_app.
    + destruct (Hs r Hin) as (streamId & record & job & Hr & Hj). exists streamId, record, job.
      split; [by apply Hgrow|done].
    + rewrite Forall_forall in Hnew. destruct (Hnew r Hin) as (_ & _ & _ & job & Hj & Hid & Hsess & Hjson).
      apply list_elem_of_bind in Hj as (record & Hj & Hr).
      exists (di_streamId input), record, job. split; [by eapply appended_stored|done].
Qed.

(** Worlds that dispatches and the ledger's own operations reach. *)
Inductive domain_reachable : World → Prop :=
| dr_start w :
    valid (wd_store w) → (∀ streamId, ds_events streamId (wd_store w) = []) →
    wd_jobs w = emptyTable → domain_reachable w
| dr_dispatch now1 now2 now3 input w g answer w' g' :
    domain_reachable w →
    dispatch makeEventId apply now1 now2 now3 input (w, g) = (answer, (w', g')) →
    domain_reachable w'
| dr_ledger op w :
    domain_reachable w → is_enqueue op = false →
    domain_reachable (w <| wd_jobs ::= run_op op |>)
(** What else the process does to the database: the gates, the projections. *)
| dr_other w w' :
    domain_reachable w → wd_store w' = wd_store w → wd_jobs w' = wd_jobs w →
    domain_reachable w'.

Lemma domain_valid w : domain_reachable w → valid (wd_store w).
Proof.
  induction 1 as [|now1 now2 now3 input w g answer w' g' _ Hv Hd| |w w' _ Hv Hs _];
    [done| |done|by rewrite Hs].
  apply dispatch_cases in Hd; [|done]. destruct answer as [[receipt pubs]|e]; [|by subst].
  by destruct Hd as [[Hv' _ _] _].
Qed.

Lemma outbox_of_reachable w : domain_reachable w → outbox (wd_store w) (wd_jobs w).
Proof.
  induction 1 as [w _ Hempty Hjobs|now1 now2 now3 input w g answer w' g' Hw IH Hd
                 |op w _ IH Hop|w w' _ IH Hs Hj].
  - constructor; [|rewrite Hjobs; by intros r ?%elem_of_nil].
    intros streamId record job. rewrite Hempty. by intros ?%elem_of_nil.
  - apply dispatch_cases in Hd; [|by apply domain_valid].
    destruct answer as [[receipt pubs]|e]; [|by subst]. by eapply outbox_commit.
  - eapply outbox_identity; [|exact IH]. by apply run_op_identity.
  - by rewrite Hs, Hj.
Qed.

(** C4: the transactional outbox. In every database that dispatches and the ledger's
    operations reach, no committed event has lost a job it implies, and no job exists
    for an event that did not commit: each row carries the id, the session and the
    request of a job of a stored event. *)
Theorem outbox_reachable w :
  domain_reachable w →
  (∀ streamId record job,
     record ∈ ds_events streamId (wd_store w) → job ∈ jobsForSessionEvent record →
     pj_id job ∈ map row_id (tb_rows (wd_jobs w)))
  ∧ ∀ r, r ∈ tb_rows (wd_jobs w) →
     ∃ streamId record job, record ∈ ds_events streamId (wd_store w)
       ∧ job ∈ jobsForSessionEvent record
       ∧ row_id r = pj_id job ∧ row_session_id r = pj_sessionId job
       ∧ encodeRequest (pj_request job) = Some (row_request_json r).
Proof. intros Hw. by destruct (outbox_of_reachable w Hw). Qed.

(** ** Replays *)

Lemma project_passed appended cursor x :
  (∀ record, record ∈ appended → se_sequence record ≤ cursor) →
  project apply appended cursor x = Success (cursor, x).
Proof.
  induction appended as [|record appended IH]; intros Hle; [done|]. cbn.
  rewrite (proj2 (Z.leb_le _ _)) by (apply Hle; left). apply IH. intros r Hr. apply Hle. by right.
Qed.

(** Repeating a command is not without effect on jobs. A repetition of an interrupt
    command appends nothing and enqueues nothing, yet it cancels every unsettled send
    of the session, also that of a turn which was submitted after the interrupt. *)
Theorem replayed_interrupt_cancels_sends now1 now2 now3 input (w : World) g receipt r :
  domain_reachable w → wd_closed w = false → gated input w = false →
  di_expectedAttempt input = None → di_expectedProviderSessionId input = None →
  ds_receipt (di_commandId input) (wd_store w) = Some receipt →
  validateCommandReceipt (di_commandId input) (di_streamId input) (di_receiptIdentity input)
    receipt = Success receipt →
  let appended := appended_events input receipt (wd_store w) in
  (∀ record, record ∈ appended → se_sequence record ≤ wd_cursor w) →
  (∀ job, job ∈ appended ≫= jobsForSessionEvent → encodeRequest (pj_request job) ≠ None) →
  existsb is_TurnInterruptRequested appended = true →
  r ∈ tb_rows (wd_jobs w) → row_session_id r = di_streamId input →
  row_kind r = kind_tag provider_turn_send → unsettled r = true →
  ∃ pubs w' r', dispatch makeEventId apply now1 now2 now3 input (w, g)
                = (Success (receipt, pubs), (w', g))
    ∧ wd_store w' = wd_store w
    ∧ length (tb_rows (wd_jobs w')) = length (tb_rows (wd_jobs w))
    ∧ r' ∈ tb_rows (wd_jobs w') ∧ row_id r' = row_id r ∧ row_status r' = JS_cancelled.
Proof.
  intros Hw Hopen Hgate Ha Hp Hr Hval appended Hcur Henc Hint Hin Hsess Hkind Hu.
  assert (session_run makeEventId input (wd_store w, g) = (Success receipt, (wd_store w, g))) as Hrun.
  { unfold session_run, session_prepare. cbn [fst snd]. rewrite Hr, Ha, Hp.
    rewrite bool_decide_eq_false_2 by (intros [[? [=]]|[? [=]]]). by rewrite Hval. }
  assert (dispatch_retrying makeEventId 8 input (wd_store w, g)
          = (Success receipt, (wd_store w, g))) as Hretry by (cbn; by rewrite Hrun).
  destruct (cancel_jobs now1 now2 input appended (wd_jobs w)) as [cancelled t1] eqn:Hc.
  assert (enqueue now3 (appended ≫= jobsForSessionEvent) t1 = (Some 0, t1)) as He.
  { apply enqueue_loop_present; [|done]. intros job (record & Hj & Hrec)%list_elem_of_bind.
    pose proof (cancel_jobs_identity now1 now2 input appended (wd_jobs w)) as Hid.
    rewrite Hc in Hid. apply identity_ids in Hid. cbn [snd] in Hid. rewrite Hid.
    eapply ob_complete; [by apply outbox_of_reachable|by eapply appended_stored|done]. }
  pose proof (cancel_jobs_rows now1 now2 input appended (wd_jobs w)) as Hrows. rewrite Hc in Hrows.
  apply list_elem_of_lookup in Hin as (i & Hi).
  destruct (Forall2_lookup_l _ _ _ _ _ Hrows Hi) as (r' & Hi' & Hck). cbn [snd] in Hi'.
  assert (cancels input appended r = true) as Hcan.
  { unfold cancels. rewrite Hint, Hu, bool_decide_true by done. unfold of_kinds. rewrite Hkind.
    cbn. by rewrite orb_true_r. }
  unfold cancelled_or_kept in Hck. rewrite Hcan in Hck. destruct Hck as [Hst Hid].
  exists (publications {| dp_result := receipt; dp_appended := appended; dp_enqueued := 0;
                          dp_cancelled := cancelled |}),
    (w <| wd_jobs := t1 |>), r'.
  split_and!.
  - unfold dispatch, dispatchTransactionally, admission_run, withTransaction, transaction.
    cbn [fst snd]. rewrite Hopen, Hgate, Hretry. fold appended.
    change (appended_events input receipt (wd_store w)) with appended.
    rewrite project_passed by exact Hcur.
    change (wd_jobs (w <| wd_store := wd_store w |>)) with (wd_jobs w). rewrite Hc, He. by destruct w.
  - done.
  - symmetry. apply (Forall2_length _ _ _ Hrows).
  - by eapply list_elem_of_lookup_2.
  - by destruct (identity_columns _ _ Hid) as (_ & ? & _).
  - done.
Qed.

(** ** Unreadable rows *)

Definition same_selection (i j : ClaimInput) : Prop :=
  cl_excludedKinds i = cl_excludedKinds j ∧ cl_minAgeMs i = cl_minAgeMs j
  ∧ cl_sessionId i = cl_sessionId j ∧ cl_includeWaitingBefore i = cl_includeWaitingBefore j.

Lemma claimable_later i j b b' t r :
  same_selection i j → b ≤ b' → claimable i b t r = true → claimable j b' t r = true.
Proof.
  unfold claimable. intros (-> & _ & -> & ->) Hle. rewrite !andb_true_iff, !orb_true_iff.
  intros [[[Hs Hsess] Hk] Hr]. split_and!; [|done..]. destruct Hs as [Hs|Hs]; [left|by right].
  rewrite andb_true_iff, Z.leb_le in *. destruct Hs. split; [done|lia].
Qed.

(** A row whose request cannot be read stops the queue behind it. The claim that
    meets it fails and is rolled back, and as long as the table stays as it is no
    claim with the same selection, however late and by whatever worker, returns a job
    that was enqueued after that row, of any session. *)
Theorem unreadable_row_blocks now1 now2 now3 input (w : World) e w1 :
  ledger_inv (wd_jobs w) → jobs_claimNext now1 now2 now3 input w = (Failure e, w1) →
  w1 = w
  ∧ ∃ c, c ∈ tb_rows (wd_jobs w) ∧ row_id c = jde_jobId e
    ∧ decodeRequest (row_request_json c) = Failure (jde_reason e)
    ∧ ∀ later1 later2 later3 input' job w2,
        same_selection input input' → now2 ≤ later2 →
        jobs_claimNext later1 later2 later3 input' w = (Success (Some job), w2) →
        job_sequence job < row_sequence c.
Proof.
  intros Hinv Hc. unfold jobs_claimNext in Hc. destruct (wd_closed w) eqn:Hcl; [done|].
  destruct (claimNext now1 now2 now3 input (wd_jobs w)) as [[a|e'] t] eqn:Hclaim; [done|].
  injection Hc as <- <-. split; [done|].
  destruct (claimNext_spec _ _ _ _ _ _ _ Hinv Hclaim) as [(? & _)|(i & c & Hi & Hready & _ & _ & Hans)];
    [done|].
  exists c. split; [by eapply list_elem_of_lookup_2|].
  assert (row_id c = jde_jobId e' ∧ decodeRequest (row_request_json c) = Failure (jde_reason e'))
    as [Hid Hdec].
  { unfold decodeRow in Hans. cbn in Hans.
    destruct (decodeRequest (row_request_json c)); cbn in Hans; [done|]. by injection Hans as ->. }
  split_and!; [done|done|]. intros later1 later2 later3 input' job w2 Hsame Hle Hc2.
  unfold jobs_claimNext in Hc2. rewrite Hcl in Hc2.
  destruct (claimNext later1 later2 later3 input' (wd_jobs w)) as [[a|] t2] eqn:Hclaim2; [|done].
  injection Hc2 as -> _.
  destruct (claimNext_spec _ _ _ _ _ _ _ Hinv Hclaim2)
    as [(? & _)|(j & d & Hj & Hready2 & Hfirst & _ & Hans2)]; [done|].
  assert (row_sequence d ≤ row_sequence c) as Hdc.
  { apply Hfirst; [by eapply list_elem_of_lookup_2|]. eapply claimable_later; [done| |exact Hready].
    destruct Hsame as (_ & -> & _). lia. }
  unfold decodeRow in Hans2. cbn in Hans2.
  destruct (decodeRequest (row_request_json d)) eqn:Hd2; cbn in Hans2; [|done].
  injection Hans2 as ->. cbn. enough (row_sequence d ≠ row_sequence c) by lia. intros Heq.
  pose proof (in_sequence_inj _ _ _ _ _ (li_sorted _ Hinv) Hi Hj (eq_sym Heq)) as ->.
  rewrite Hi in Hj. injection Hj as ->. congruence.
Qed.
End domain.

(** ** A domain in use *)

Import demo dispatch_demo ledger_demo.
Module domain_demo.
Definition apply (_ : StoredEvent SessionEvent) (x : ()) : result () Empty_set := Success x.

Definition start : World (MemoryStore SessionEvent) () :=
  {| wd_store := emptyStore; wd_cursor := 0; wd_jobs := emptyTable; wd_rest := ();
     wd_closed := false; wd_forkPending := []; wd_restorePending := false |}.

Definition send (i : DispatchInput SessionCommand)
    (w : World (MemoryStore SessionEvent) () * nat) : World (MemoryStore SessionEvent) () * nat :=
  (SessionDomain.dispatch make_id apply 50 50 50 i w).2.

Definition interrupt : DispatchInput SessionCommand :=
  input "c9" None None (RequestTurnInterrupt None 20).
Definition settle : DispatchInput SessionCommand :=
  input "c10" None None (SettleTurn "t1" TSO_interrupted 21).
Definition submit : DispatchInput SessionCommand :=
  input "c11" None None (SubmitTurn "t2" "m2" "user" "user" "{}" None "{}" 22).

(** A session whose first turn was interrupted and whose second one waits for its
    send. *)
Definition after : World (MemoryStore SessionEvent) () * nat :=
  foldl (λ w i, send i w) (start, 0%nat) [create; interrupt; settle; submit].

Lemma sends_reachable inputs w :
  domain_reachable (valid:=store_ok) make_id apply w.1 →
  domain_reachable (valid:=store_ok) make_id apply (foldl (λ w i, send i w) w inputs).1.
Proof.
  revert w. induction inputs as [|i inputs IH]; intros w Hw; [done|]. cbn. apply IH.
  unfold send. destruct w as [w g]. cbn in Hw.
  destruct (SessionDomain.dispatch make_id apply 50 50 50 i (w, g)) as [answer [w' g']] eqn:Hd.
  by eapply dr_dispatch.
Qed.
Lemma after_reachable : domain_reachable (valid:=store_ok) make_id apply after.1.
Proof. apply sends_reachable, dr_start; [apply store_ok_empty|done|done]. Qed.

Definition before : World (MemoryStore SessionEvent) () * nat :=
  foldl (λ w i, send i w) (start, 0%nat) [create; interrupt; settle].
Definition receipt_c11 : CommandReceipt :=
  default (append_receipt (append_input submit 0 ([] : list (string * SessionEvent)) None))
    (ds_receipt "c11" (wd_store after.1)).
Definition publications_c11 : list Publication :=
  match (SessionDomain.dispatch make_id apply 50 50 50 submit before).1 with
  | Success (_, pubs) => pubs
  | Failure _ => []
  end.

Definition receipt_c9 : CommandReceipt :=
  default (append_receipt (append_input interrupt 0 ([] : list (string * SessionEvent)) None))
    (ds_receipt "c9" (wd_store after.1)).

(** A stop request is stored in a form the codec cannot read. *)
Definition stop_job : PendingJob :=
  {| pj_id := "j0"; pj_sessionId := "s9"; pj_request := ProviderStop None 1;
     pj_causationEventId := "e"; pj_correlationId := "c" |}.
Definition blocked : World (MemoryStore SessionEvent) () :=
  start <| wd_jobs := run_ops [OpEnqueue 10 (stop_job :: jobs)] emptyTable |>.
End domain_demo.
Import domain_demo.

Lemma dispatch_commits_jobs_witness :
  (∀ job, job ∈ appended_events submit receipt_c11 (wd_store after.1) ≫= jobsForSessionEvent →
    pj_id job ∈ map row_id (tb_rows (wd_jobs after.1)))
  ∧ length (appended_events submit receipt_c11 (wd_store after.1) ≫= jobsForSessionEvent) = 1%nat.
Proof.
  split; [|vm_compute; reflexivity].
  destruct (dispatch_commits_jobs (valid:=store_ok) make_id apply 50 50 50 submit before.1 before.2
    (Success (receipt_c11, publications_c11)) after.1 after.2) as (_ & Hjobs & _).
  - apply (domain_valid make_id apply), (sends_reachable [create; interrupt; settle] (start, 0%nat)).
    apply dr_start; [apply store_ok_empty|done|done].
  - vm_compute. reflexivity.
  - exact Hjobs.
Defined.

Lemma outbox_reachable_witness :
  (∀ r, r ∈ tb_rows (wd_jobs after.1) →
     ∃ streamId record job, record ∈ ds_events streamId (wd_store after.1)
       ∧ job ∈ jobsForSessionEvent record
       ∧ row_id r = pj_id job ∧ row_session_id r = pj_sessionId job
       ∧ encodeRequest (pj_request job) = Some (row_request_json r))
  ∧ length (tb_rows (wd_jobs after.1)) = 3%nat.
Proof.
  split; [|vm_compute; reflexivity].
  destruct (outbox_reachable (valid:=store_ok) make_id apply after.1 after_reachable) as [_ Hs].
  exact Hs.
Defined.

Lemma replayed_interrupt_cancels_sends_witness :
  ∃ r r' pubs w',
    r ∈ tb_rows (wd_jobs after.1) ∧ row_status r = JS_pending
    ∧ row_request_json r = "t2"
    ∧ SessionDomain.dispatch make_id apply 60 60 60 interrupt (after.1, after.2)
      = (Success (receipt_c9, pubs), (w', after.2))
    ∧ r' ∈ tb_rows (wd_jobs w') ∧ row_id r' = row_id r ∧ row_status r' = JS_cancelled.
Proof.
  set (r := row 2 (wd_jobs after.1)).
  destruct (replayed_interrupt_cancels_sends (valid:=store_ok) make_id apply 60 60 60 interrupt
    after.1 after.2 receipt_c9 r) as (pubs & w' & r' & Hd & _ & _ & Hin & Hid & Hst).
  - exact after_reachable.
  - vm_compute. reflexivity.
  - vm_compute. reflexivity.
  - reflexivity.
  - reflexivity.
  - vm_compute. reflexivity.
  - vm_compute. reflexivity.
  - intros record Hr. apply list_elem_of_lookup in Hr as (i & Hi).
    destruct i as [|i]; vm_compute in Hi; [|discriminate Hi]. injection Hi as <-. vm_compute. discriminate.
  - intros job _ Hj. destruct (pj_request job); discriminate Hj.
  - vm_compute. reflexivity.
  - apply (list_elem_of_lookup_2 _ 2). vm_compute. reflexivity.
  - vm_compute. reflexivity.
  - vm_compute. reflexivity.
  - vm_compute. reflexivity.
  - exists r, r', pubs, w'. split; [apply (list_elem_of_lookup_2 _ 2); vm_compute; reflexivity|].
    split; [vm_compute; reflexivity|]. split; [vm_compute; reflexivity|].
    split; [exact Hd|]. split; [exact Hin|]. split; [exact Hid|exact Hst].
Defined.

Lemma unreadable_row_blocks_witness :
  ∃ c, c ∈ tb_rows (wd_jobs blocked) ∧ row_id c = "j0"
    ∧ ∀ later job w2,
        20 ≤ later → jobs_claimNext later later later (claim "w2") blocked = (Success (Some job), w2) →
        job_sequence job < row_sequence c.
Proof.
  destruct (unreadable_row_blocks (X:=()) 20 20 20 (claim "w1") blocked
    {| jde_jobId := "j0"; jde_reason := "unreadable" |} blocked) as (_ & c & Hin & Hid & _ & Hno).
  - apply (run_ops_inv [OpEnqueue 10 (stop_job :: jobs)]).
  - vm_compute. reflexivity.
  - exists c. split; [exact Hin|]. split; [exact Hid|]. intros later job w2 Hle Hc.
    apply (Hno later later later (claim "w2") job w2); [repeat split|exact Hle|exact Hc].
Defined.
