(* ===== verification/Keybindings.v ===== *)
(** * Keybindings: key strings and when-clauses

    [packages/contracts/src/keybindings-parse.ts]: the shortcut parser
    ([parseKey]), the matching and the recording of keyboard events, the
    recursive-descent parser, the evaluator and the printer of when-clauses, and
    the translations of a key string for the screen and for Electron. Strings
    are their UTF-16 code units, as the source indexes them. *)
From Stdlib Require Import Ascii.
From S2P Require Import Prelude Js.

(** ** Strings as code units *)

Definition jstr : Type := list N.
Definition u (s : string) : jstr := N_of_ascii <$> String.list_ascii_of_string s.

Definition in_range (lo hi c : N) : bool := N.leb lo c && N.leb c hi.
(** The white space of [String.prototype.trim] and of [/\s/]. *)
Definition is_space (c : N) : bool :=
  in_range 9 13 c || N.eqb c 32 || N.eqb c 160 || N.eqb c 5760
  || in_range 8192 8202 c || N.eqb c 8232 || N.eqb c 8233 || N.eqb c 8239
  || N.eqb c 8287 || N.eqb c 12288 || N.eqb c 65279.
Fixpoint drop_space (s : jstr) : jstr :=
  match s with
  | c :: r => if is_space c then drop_space r else s
  | [] => []
  end.
(** [String.prototype.trim]. *)
Definition jtrim (s : jstr) : jstr := reverse (drop_space (reverse (drop_space s))).

(** [toLowerCase] and [toUpperCase]: exact on ASCII strings; the Unicode tables
    for the other strings are the parameter. *)
Class UnicodeCase := {
  unicode_lower : jstr → jstr;
  unicode_upper : jstr → jstr
}.
Definition is_ascii (c : N) : bool := N.ltb c 128.
Definition is_upper (c : N) : bool := in_range 65 90 c.
Definition is_lower (c : N) : bool := in_range 97 122 c.
Definition is_digit (c : N) : bool := in_range 48 57 c.
Definition lower_unit (c : N) : N := if is_upper c then (c + 32)%N else c.
Definition upper_unit (c : N) : N := if is_lower c then (c - 32)%N else c.
Definition toLowerCase `{UnicodeCase} (s : jstr) : jstr :=
  if forallb is_ascii s then map lower_unit s else unicode_lower s.
Definition toUpperCase `{UnicodeCase} (s : jstr) : jstr :=
  if forallb is_ascii s then map upper_unit s else unicode_upper s.

(** [parts.join(sep)]. *)
Fixpoint jjoin (sep : jstr) (parts : list jstr) : jstr :=
  match parts with
  | [] => []
  | [p] => p
  | p :: rest => p ++ sep ++ jjoin sep rest
  end.

Definition plus : N := 43.

(** ** Key strings *)

(** A base key as [parseKey] stores it. [KEY_ALIASES] is an object literal, so
    looking up [constructor] or [__proto__] yields the member inherited from
    [Object.prototype] instead of a string. *)
Inductive keyval : Type :=
| KeyString (s : jstr)
| KeyObjectConstructor
| KeyObjectPrototype.
#[export] Instance keyval_eq_dec : EqDecision keyval.
Proof. solve_decision. Defined.

Record KeybindingShortcut : Type := {
  ks_key : keyval;
  ks_modKey : bool;
  ks_metaKey : bool;
  ks_ctrlKey : bool;
  ks_altKey : bool;
  ks_shiftKey : bool
}.
#[export] Instance KeybindingShortcut_eta : Settable KeybindingShortcut :=
  λ r, Build_KeybindingShortcut (ks_key r) (ks_modKey r) (ks_metaKey r)
         (ks_ctrlKey r) (ks_altKey r) (ks_shiftKey r).

Definition MODIFIER_TOKENS : list jstr :=
  u <$> ["mod"; "cmd"; "meta"; "command"; "ctrl"; "control"; "alt"; "option"; "opt"; "shift"].

Definition KEY_ALIASES : list (jstr * jstr) :=
  [(u "esc", u "escape"); (u "return", u "enter"); (u "ins", u "insert");
   (u "del", u "delete"); (u "pgup", u "pageup"); (u "pgdn", u "pagedown");
   (u "pagedn", u "pagedown"); (u "spc", u "space"); (u "space", u " ");
   (u "plus", u "+")].
Definition own_entry (table : list (jstr * jstr)) (k : jstr) : option jstr :=
  r ← list_find (λ p, p.1 = k) table; Some r.2.2.

(** [KEY_ALIASES[lower] ?? lower]. *)
Definition normalizeKey `{UnicodeCase} (raw : jstr) : keyval :=
  let lower := toLowerCase raw in
  if decide (lower = u "constructor") then KeyObjectConstructor
  else if decide (lower = u "__proto__") then KeyObjectPrototype
  else KeyString (default lower (own_entry KEY_ALIASES lower)).

(** The loop that cuts the trimmed input at every [+] that is neither its first
    nor its last unit. [i] is the index, [last] the index of the last unit. *)
Fixpoint split_plus (i last : nat) (s current : jstr) : list jstr :=
  match s with
  | [] => [current]
  | ch :: r =>
      if N.eqb ch plus && Nat.ltb 0 i && Nat.ltb i last
      then current :: split_plus (S i) last r []
      else split_plus (S i) last r (current ++ [ch])
  end.

(** One case of the [switch] on a modifier token. *)
Definition set_modifier (tok : jstr) (k : KeybindingShortcut) : KeybindingShortcut :=
  if decide (tok = u "mod") then k <| ks_modKey := true |>
  else if decide (tok ∈ u <$> ["cmd"; "meta"; "command"]) then k <| ks_metaKey := true |>
  else if decide (tok ∈ u <$> ["ctrl"; "control"]) then k <| ks_ctrlKey := true |>
  else if decide (tok ∈ u <$> ["alt"; "option"; "opt"]) then k <| ks_altKey := true |>
  else if decide (tok = u "shift") then k <| ks_shiftKey := true |>
  else k.

Definition no_modifiers (k : keyval) : KeybindingShortcut :=
  {| ks_key := k; ks_modKey := false; ks_metaKey := false; ks_ctrlKey := false;
     ks_altKey := false; ks_shiftKey := false |}.

(** The loop over the tokens; [base] is [baseKey] and [k] holds the flags. *)
Fixpoint read_tokens `{UnicodeCase} (tokens : list jstr) (base : option keyval)
    (k : KeybindingShortcut) : option KeybindingShortcut :=
  match tokens with
  | [] => b ← base; Some (k <| ks_key := b |>)
  | raw :: rest =>
      let tok := normalizeKey raw in
      if decide (tok = KeyString []) then None
      else
        let as_base := match base with
                       | Some _ => None
                       | None => read_tokens rest (Some tok) k
                       end in
        match tok with
        | KeyString t =>
            if decide (t ∈ MODIFIER_TOKENS) then read_tokens rest base (set_modifier t k)
            else as_base
        | _ => as_base
        end
  end.

Definition parseKey `{UnicodeCase} (input : jstr) : option KeybindingShortcut :=
  let trimmed := jtrim input in
  if decide (trimmed = []) then None
  else read_tokens (split_plus 0 (length trimmed - 1) trimmed []) None
         (no_modifiers (KeyString [])).

(** ** Keyboard events *)

Record KeyEventLike : Type := {
  ev_key : jstr;
  ev_code : option jstr;
  ev_metaKey : bool;
  ev_ctrlKey : bool;
  ev_altKey : bool;
  ev_shiftKey : bool
}.

(** Map DOM [KeyboardEvent.key] values onto the vocabulary of [parseKey]. *)
Definition normalizeEventKey `{UnicodeCase} (key : jstr) : jstr :=
  if decide (length key = 1) then toLowerCase key
  else
    let lower := toLowerCase key in
    if decide (lower = u "arrowup") then u "up"
    else if decide (lower = u "arrowdown") then u "down"
    else if decide (lower = u "arrowleft") then u "left"
    else if decide (lower = u "arrowright") then u "right"
    else if decide (lower = u "control") then u "ctrl"
    else if decide (lower = u "meta") then u "meta"
    else if decide (lower = u "os") then u "meta"
    else if decide (lower = u "altgraph") then u "alt"
    else lower.

(** [/^(?:Key([A-Z])|Digit(\d))$/.exec(code)]: the captured unit. *)
Definition physical_key (code : jstr) : option N :=
  match code with
  | [75; 101; 121; c]%N => if is_upper c then Some c else None
  | [68; 105; 103; 105; 116; c]%N => if is_digit c then Some c else None
  | _ => None
  end.

Definition eventBaseKey `{UnicodeCase} (event : KeyEventLike) : jstr :=
  let physical := if ev_altKey event then ev_code event ≫= physical_key else None in
  match physical with
  | Some c => toLowerCase [c]
  | None => normalizeEventKey (ev_key event)
  end.

Definition matchesShortcut `{UnicodeCase} (event : KeyEventLike)
    (shortcut : KeybindingShortcut) (isMac : bool) : bool :=
  let wantMeta := ks_metaKey shortcut || (ks_modKey shortcut && isMac) in
  let wantCtrl := ks_ctrlKey shortcut || (ks_modKey shortcut && negb isMac) in
  eqb (ev_metaKey event) wantMeta && eqb (ev_ctrlKey event) wantCtrl
  && eqb (ev_altKey event) (ks_altKey shortcut)
  && eqb (ev_shiftKey event) (ks_shiftKey shortcut)
  && bool_decide (KeyString (eventBaseKey event) = ks_key shortcut).

(** The modifier names [keyStringFromEvent] puts before the base key. *)
Definition event_modifiers (event : KeyEventLike) (isMac : bool) : list jstr :=
  (if isMac
   then (if ev_metaKey event then [u "mod"] else [])
        ++ (if ev_ctrlKey event then [u "ctrl"] else [])
   else (if ev_ctrlKey event then [u "mod"] else [])
        ++ (if ev_metaKey event then [u "meta"] else []))
  ++ (if ev_altKey event then [u "alt"] else [])
  ++ (if ev_shiftKey event then [u "shift"] else []).

Definition keyStringFromEvent `{UnicodeCase} (event : KeyEventLike) (isMac : bool)
  : option jstr :=
  let base := eventBaseKey event in
  if decide (base ∈ [u "shift"; u "ctrl"; u "meta"; u "alt"; []]) then None
  else Some (jjoin [plus] (event_modifiers event isMac ++ [base])).

(** ** Display and accelerators *)

(** A [TypeError] thrown by a method call on a value that has no such method. *)
Inductive type_error : Type := TypeError.

Definition formatBaseKeyForDisplay `{UnicodeCase} (key : keyval) : result keyval type_error :=
  match key with
  | KeyString s =>
      Success (KeyString (
        if decide (s = u " ") then u "Space"
        else if decide (s = u "enter") then [8629%N]
        else if decide (s = u "tab") then [8677%N]
        else if decide (s = u "backspace") then [9003%N]
        else if decide (s = u "delete") then [8998%N]
        else if decide (s = u "escape") then u "Esc"
        else if decide (s = u "up") then [8593%N]
        else if decide (s = u "down") then [8595%N]
        else if decide (s = u "left") then [8592%N]
        else if decide (s = u "right") then [8594%N]
        else if decide (length s = 1) then toUpperCase s else s))
  | KeyObjectConstructor => Failure TypeError
  | KeyObjectPrototype => Success KeyObjectPrototype
  end.

(** [parts.push(base); parts.join(sep)]: the prototype object joins as its
    [String] conversion. *)
Definition keyval_text (k : keyval) : jstr :=
  match k with
  | KeyString s => s
  | KeyObjectConstructor => u "function Object() { [native code] }"
  | KeyObjectPrototype => u "[object Object]"
  end.

Definition formatKeyForDisplay `{UnicodeCase} (key : jstr) (isMac : bool)
  : result jstr type_error :=
  match parseKey key with
  | None => Success key
  | Some parsed =>
      let glyph (m o : jstr) := if isMac then m else o in
      let parts :=
        (if ks_modKey parsed then [glyph [8984%N] (u "Ctrl")] else [])
        ++ (if ks_metaKey parsed then [glyph [8984%N] (u "Win")] else [])
        ++ (if ks_ctrlKey parsed then [glyph [8963%N] (u "Ctrl")] else [])
        ++ (if ks_altKey parsed then [glyph [8997%N] (u "Alt")] else [])
        ++ (if ks_shiftKey parsed then [glyph [8679%N] (u "Shift")] else []) in
      base ←! formatBaseKeyForDisplay (ks_key parsed);
      Success (jjoin (glyph (u " ") [plus]) (parts ++ [keyval_text base]))
  end.

Definition ELECTRON_KEYS : list (jstr * jstr) :=
  [(u " ", u "Space"); (u "enter", u "Return"); (u "tab", u "Tab");
   (u "backspace", u "Backspace"); (u "delete", u "Delete"); (u "escape", u "Escape");
   (u "up", u "Up"); (u "down", u "Down"); (u "left", u "Left"); (u "right", u "Right");
   (u "home", u "Home"); (u "end", u "End"); (u "pageup", u "PageUp");
   (u "pagedown", u "PageDown")].

Definition keyToElectronBase `{UnicodeCase} (key : keyval) : result (option jstr) type_error :=
  match key with
  | KeyString s =>
      Success (
        match s with
        | [c] => Some (if is_lower c then toUpperCase s else s)
        | _ => own_entry ELECTRON_KEYS s
        end)
  | KeyObjectConstructor => Failure TypeError
  | KeyObjectPrototype => Success None
  end.

Definition keyToElectronAccelerator `{UnicodeCase} (key : jstr)
  : result (option jstr) type_error :=
  match parseKey key with
  | None => Success None
  | Some parsed =>
      let parts :=
        (if ks_modKey parsed then [u "CmdOrCtrl"] else [])
        ++ (if ks_metaKey parsed then [u "Cmd"] else [])
        ++ (if ks_ctrlKey parsed then [u "Ctrl"] else [])
        ++ (if ks_altKey parsed then [u "Alt"] else [])
        ++ (if ks_shiftKey parsed then [u "Shift"] else []) in
      base ←! keyToElectronBase (ks_key parsed);
      Success (b ← base; Some (jjoin [plus] (parts ++ [b])))
  end.
