(* ===== verification/WhenClause.v ===== *)
(** * When-clauses: parser, evaluator and printer

    [parseWhen], [evaluateWhen], [collectWhenIdentifiers] and [whenAstToString]
    of [packages/contracts/src/keybindings-parse.ts]. The parser's mutable [pos]
    is a cursor: the index and the unread suffix of the trimmed input. *)
From Stdlib Require Import Ascii.
From S2P Require Import Prelude Js Keybindings.

Inductive KeybindingWhenNode : Type :=
| Identifier (name : jstr)
| Not (node : KeybindingWhenNode)
| And (l r : KeybindingWhenNode)
| Or (l r : KeybindingWhenNode).
#[export] Instance KeybindingWhenNode_eq_dec : EqDecision KeybindingWhenNode.
Proof. solve_decision. Defined.

(** ** Parser *)

Record WhenParseError : Type := { message : jstr; position : nat }.

Record cursor : Type := { pos : nat; unread : jstr }.

(** A node and the cursor behind it, the source's error, or (never, see
    [parseWhen_total]) the fuel used up. *)
Inductive parse (A : Type) : Type :=
| Parsed (a : A) (c : cursor)
| ParseFailed (e : WhenParseError)
| OutOfFuel.
Arguments Parsed {A} a c.
Arguments ParseFailed {A} e.
Arguments OutOfFuel {A}.

Definition parse_bind {A B} (r : parse A) (k : A → cursor → parse B) : parse B :=
  match r with
  | Parsed a c => k a c
  | ParseFailed e => ParseFailed e
  | OutOfFuel => OutOfFuel
  end.

Definition MAX_WHEN_DEPTH : nat := 64.

Definition peek (c : cursor) : option N := head (unread c).
Definition eof (c : cursor) : bool := match unread c with [] => true | _ => false end.
Definition advance (c : cursor) (n : nat) : cursor :=
  {| pos := pos c + n; unread := drop n (unread c) |}.
Definition fail {A} (c : cursor) (m : jstr) : parse A :=
  ParseFailed {| message := m; position := pos c |}.

(** [while (!eof() && test(peek())) pos++]. *)
Fixpoint span (test : N → bool) (s : jstr) : nat :=
  match s with
  | ch :: r => if test ch then S (span test r) else 0
  | [] => 0
  end.
Definition skipWs (c : cursor) : cursor := advance c (span is_space (unread c)).

Definition ident_unit (c : N) : bool :=
  is_upper c || is_lower c || is_digit c || N.eqb c 95.
Definition ident_start (c : N) : bool := is_upper c || is_lower c || N.eqb c 95.

Definition parseIdentifier (c : cursor) : parse KeybindingWhenNode :=
  let n := span ident_unit (unread c) in
  if decide (n = 0) then fail c (u "expected identifier")
  else Parsed (Identifier (take n (unread c))) (advance c n).

Definition lparen : N := 40.
Definition rparen : N := 41.
Definition bang : N := 33.
Definition amp2 : jstr := u "&&".
Definition bar2 : jstr := u "||".

Definition starts (p s : jstr) : bool := bool_decide (take (length p) s = p).

(** The [while (true)] loop of [parseAnd] and [parseOr]: [op] is the operator,
    [operand] parses what follows it and [mk] builds the node. *)
Fixpoint operator_loop (fuel : nat) (op : jstr)
    (operand : cursor → parse KeybindingWhenNode)
    (mk : KeybindingWhenNode → KeybindingWhenNode → KeybindingWhenNode)
    (acc : KeybindingWhenNode) (c : cursor) : parse KeybindingWhenNode :=
  match fuel with
  | O => OutOfFuel
  | S fuel =>
      let c := skipWs c in
      if eof c then Parsed acc c
      else if starts op (unread c) then
        parse_bind (operand (advance c (length op)))
          (λ right c, operator_loop fuel op operand mk (mk acc right) c)
      else Parsed acc c
  end.

Section descent.
Context (parseAtom : nat → cursor → parse KeybindingWhenNode).

Definition parseAndWith (depth : nat) (c : cursor) : parse KeybindingWhenNode :=
  parse_bind (parseAtom depth c)
    (λ acc c, operator_loop (S (length (unread c))) amp2 (parseAtom (S depth)) And acc c).

Definition parseOrWith (depth : nat) (c : cursor) : parse KeybindingWhenNode :=
  parse_bind (parseAndWith depth c)
    (λ acc c, operator_loop (S (length (unread c))) bar2 (parseAndWith (S depth)) Or acc c).
End descent.

Fixpoint parseAtom (fuel depth : nat) (c : cursor) : parse KeybindingWhenNode :=
  match fuel with
  | O => OutOfFuel
  | S fuel =>
      if Nat.ltb MAX_WHEN_DEPTH depth then fail c (u "expression nested too deep")
      else
        let c := skipWs c in
        match peek c with
        | None => fail c (u "unexpected end of input")
        | Some ch =>
            if N.eqb ch bang then
              parse_bind (parseAtom fuel (S depth) (advance c 1))
                (λ inner c, Parsed (Not inner) c)
            else if N.eqb ch lparen then
              parse_bind (parseOrWith (parseAtom fuel) (S depth) (advance c 1))
                (λ inner c,
                  let c := skipWs c in
                  if decide (peek c = Some rparen) then Parsed inner (advance c 1)
                  else fail c (u "expected ')'"))
            else if ident_start ch then parseIdentifier c
            else fail c (u "unexpected character '" ++ [ch] ++ u "'")
        end
  end.

(** Every recursive call raises the depth, which [MAX_WHEN_DEPTH] caps. *)
Definition PARSE_FUEL : nat := MAX_WHEN_DEPTH + 2.

(** The parse of the trimmed text, which must be read to its end. *)
Definition parseTrimmed (fuel : nat) (trimmed : jstr) : parse KeybindingWhenNode :=
  parse_bind (parseOrWith (parseAtom fuel) 0 {| pos := 0; unread := trimmed |})
    (λ result c,
      let c := skipWs c in
      if eof c then Parsed result c else fail c (u "unexpected trailing input")).

(** [None] is the source's [null]: no when-clause. *)
Definition parseWhen (input : jstr) : option (parse KeybindingWhenNode) :=
  let trimmed := jtrim input in
  if decide (trimmed = []) then None else Some (parseTrimmed PARSE_FUEL trimmed).

(** ** Evaluation *)

(** [context[name] === true]; absent or inherited members are not [true]. *)
Fixpoint evaluateNode (context : jstr → bool) (node : KeybindingWhenNode) : bool :=
  match node with
  | Identifier name => context name
  | Not n => negb (evaluateNode context n)
  | And l r => evaluateNode context l && evaluateNode context r
  | Or l r => evaluateNode context l || evaluateNode context r
  end.
Definition evaluateWhen (context : jstr → bool) (node : option KeybindingWhenNode) : bool :=
  match node with None => true | Some n => evaluateNode context n end.

Fixpoint collectNode (node : KeybindingWhenNode) (out : gset jstr) : gset jstr :=
  match node with
  | Identifier name => {[ name ]} ∪ out
  | Not n => collectNode n out
  | And l r | Or l r => collectNode r (collectNode l out)
  end.
Definition collectWhenIdentifiers (node : option KeybindingWhenNode) : gset jstr :=
  match node with None => ∅ | Some n => collectNode n ∅ end.

(** ** Printing *)

Definition PRECEDENCE (node : KeybindingWhenNode) : nat :=
  match node with Identifier _ => 3 | Not _ => 2 | And _ _ => 1 | Or _ _ => 0 end.

Definition parens (s : jstr) : jstr := lparen :: s ++ [rparen].

Fixpoint renderNode (node : KeybindingWhenNode) (parentPrecedence : nat) : jstr :=
  let text :=
    match node with
    | Identifier name => name
    | Not n => bang :: renderNode n 2
    | And l r => renderNode l 1 ++ u " && " ++ renderNode r 1
    | Or l r => renderNode l 0 ++ u " || " ++ renderNode r 0
    end in
  if Nat.ltb (PRECEDENCE node) parentPrecedence then parens text else text.

Definition whenAstToString (node : option KeybindingWhenNode) : jstr :=
  match node with None => [] | Some n => renderNode n 0 end.

(** ** What the theorems speak of *)

(** [[A-Za-z_][A-Za-z0-9_]*]. *)
Definition is_identifier (name : jstr) : bool :=
  match name with
  | [] => false
  | c :: r => ident_start c && forallb ident_unit r
  end.
Fixpoint well_named (node : KeybindingWhenNode) : bool :=
  match node with
  | Identifier name => is_identifier name
  | Not n => well_named n
  | And l r | Or l r => well_named l && well_named r
  end.

(** The depth the parser reaches on the printed text of a node that stands where
    precedence [p] is expected: one for a [!], one for a parenthesis and one for
    entering a chain of operators, however long. *)
Fixpoint nesting (p : nat) (node : KeybindingWhenNode) : nat :=
  match node with
  | Identifier _ => 0
  | Not n => 1 + nesting 2 n
  | And l r => (match p with 0 => 1 | 1 => 0 | _ => 2 end) + max (nesting 1 l) (nesting 1 r)
  | Or l r => (match p with 0 => 0 | _ => 2 end) + max (nesting 0 l) (nesting 0 r)
  end.

(** The place of a node: an operand of a [!], of an [&&] or of an [||]. *)
Inductive level : Type := LAtom | LAnd | LOr.

(** The parser builds chains of an operator from the left: [hang lv acc n] hangs
    the operands of the chain [n] onto [acc] one by one. *)
Fixpoint hang (lv : level) (acc : option KeybindingWhenNode) (n : KeybindingWhenNode)
  : KeybindingWhenNode :=
  let put (x : KeybindingWhenNode) :=
    match acc, lv with
    | Some a, LAnd => And a x
    | Some a, LOr => Or a x
    | _, _ => x
    end in
  match n with
  | Identifier name => put (Identifier name)
  | Not m => put (Not (hang LAtom None m))
  | And l r =>
      match lv with
      | LAnd => hang LAnd (Some (hang LAnd acc l)) r
      | _ => put (hang LAnd (Some (hang LAnd None l)) r)
      end
  | Or l r =>
      match lv with
      | LOr => hang LOr (Some (hang LOr acc l)) r
      | _ => put (hang LOr (Some (hang LOr None l)) r)
      end
  end.
Definition reassociate (n : KeybindingWhenNode) : KeybindingWhenNode := hang LOr None n.

Definition w (s : string) : parse KeybindingWhenNode :=
  default OutOfFuel (parseWhen (u s)).
Example when_ex :
  w "a && (b || !c)" =
    Parsed (And (Identifier (u "a")) (Or (Identifier (u "b")) (Not (Identifier (u "c")))))
           {| pos := 14; unread := [] |}.
Proof. vm_compute. reflexivity. Qed.
Example when_ex2 : w " a && " = ParseFailed {| message := u "unexpected end of input"; position := 4 |}.
Proof. vm_compute. reflexivity. Qed.
