(* ===== verification/WhenClauseProps.v ===== *)
(** * When-clauses: the parser implements its grammar

    A grammar of the when-clauses with their nesting limit, the proof that
    [parseWhen] accepts exactly its sentences and always returns, the bounds of
    the error positions, and the round trip through [whenAstToString]. *)
From Stdlib Require Import Ascii.
From S2P Require Import Prelude Js Keybindings WhenClause.

(** ** The grammar *)

Definition spaces (s : jstr) : Prop := Forall (λ c, is_space c = true) s.

(** [derives l d s n]: the text [s], read at level [l] and depth [d], is the
    node [n]. *)
Inductive derives : level → nat → jstr → KeybindingWhenNode → Prop :=
| D_name d ws s :
    d ≤ MAX_WHEN_DEPTH → spaces ws → is_identifier s = true →
    derives LAtom d (ws ++ s) (Identifier s)
| D_not d ws s n :
    d ≤ MAX_WHEN_DEPTH → spaces ws → derives LAtom (S d) s n →
    derives LAtom d (ws ++ bang :: s) (Not n)
| D_paren d ws s ws' n :
    d ≤ MAX_WHEN_DEPTH → spaces ws → spaces ws' → derives LOr (S d) s n →
    derives LAtom d (ws ++ lparen :: s ++ ws' ++ [rparen]) n
| D_atom d s n : derives LAtom d s n → derives LAnd d s n
| D_and d s ws t l r :
    derives LAnd d s l → spaces ws → derives LAtom (S d) t r →
    derives LAnd d (s ++ ws ++ amp2 ++ t) (And l r)
| D_conj d s n : derives LAnd d s n → derives LOr d s n
| D_or d s ws t l r :
    derives LOr d s l → spaces ws → derives LAnd (S d) t r →
    derives LOr d (s ++ ws ++ bar2 ++ t) (Or l r).

(** ** Cursors *)

Definition consumes (c : cursor) (s : jstr) (c' : cursor) : Prop :=
  unread c = s ++ unread c' ∧ pos c' = pos c + length s.

Lemma consumes_refl c : consumes c [] c.
Proof. split; simpl; [done|lia]. Qed.
Lemma consumes_trans c s c' t c'' :
  consumes c s c' → consumes c' t c'' → consumes c (s ++ t) c''.
Proof.
  intros [E1 P1] [E2 P2]. split; [by rewrite E1, E2, app_assoc|].
  rewrite length_app. lia.
Qed.
Lemma consumes_length c s c' :
  consumes c s c' → length (unread c) = length s + length (unread c').
Proof. intros [E _]. by rewrite E, length_app. Qed.
Lemma consumes_det c s c1 c2 : consumes c s c1 → consumes c s c2 → c1 = c2.
Proof.
  destruct c1, c2. intros [E1 P1] [E2 P2]. cbn in *. rewrite E1 in E2.
  apply app_inv_head in E2. by subst.
Qed.
Lemma consumes_advance c s rest :
  unread c = s ++ rest → consumes c s (advance c (length s)).
Proof.
  intros E. split; cbn; [|done]. by rewrite E, drop_app_length.
Qed.
Lemma consumes_unread c s c' : consumes c s c' → unread c = s ++ unread c'.
Proof. by intros []. Qed.

Lemma span_spec test s :
  Forall (λ c, test c = true) (take (span test s) s) ∧
  (∀ ch, head (drop (span test s) s) = Some ch → test ch = false).
Proof.
  induction s as [|ch r IH]; cbn; [split; [constructor|done]|].
  destruct (test ch) eqn:Ht; cbn; [|split; [constructor|naive_solver]].
  destruct IH as [IH1 IH2]. split; [by constructor|done].
Qed.
Lemma span_app test s rest :
  Forall (λ c, test c = true) s → (∀ ch, head rest = Some ch → test ch = false) →
  span test (s ++ rest) = length s.
Proof.
  intros Hs Hr. induction Hs as [|ch s Hch Hs IH]; cbn.
  - destruct rest as [|ch rest]; [done|]. cbn. by rewrite (Hr ch).
  - by rewrite Hch, IH.
Qed.

(** The head of the unread text. *)
Definition headed (P : N → bool) (s : jstr) : Prop := ∀ ch, head s = Some ch → P ch = true.
Definition not_space (c : N) : bool := negb (is_space c).

Lemma skipWs_spec c :
  ∃ ws, spaces ws ∧ consumes c ws (skipWs c) ∧ headed not_space (unread (skipWs c)).
Proof.
  exists (take (span is_space (unread c)) (unread c)).
  destruct (span_spec is_space (unread c)) as [H1 H2]. split; [exact H1|]. split.
  - split; cbn; [by rewrite take_drop|]. rewrite length_take.
    assert (span is_space (unread c) ≤ length (unread c)) as Hle.
    { clear. induction (unread c) as [|ch r IH]; cbn; [lia|].
      destruct (is_space ch); lia. }
    lia.
  - intros ch Hch. unfold not_space. by rewrite (H2 ch Hch).
Qed.
Lemma skipWs_consumes c ws c' :
  spaces ws → consumes c ws c' → headed not_space (unread c') → skipWs c = c'.
Proof.
  intros Hws [E P] Hh. unfold skipWs, advance.
  assert (span is_space (unread c) = length ws) as ->.
  { rewrite E. apply span_app; [done|]. intros ch Hch. apply Hh in Hch.
    by apply negb_true_iff in Hch. }
  destruct c' as [p' s']. cbn in *. rewrite E, drop_app_length. by rewrite P.
Qed.
Lemma skipWs_idemp c : skipWs (skipWs c) = skipWs c.
Proof.
  destruct (skipWs_spec c) as (ws & _ & _ & Hh).
  by apply (skipWs_consumes (skipWs c) [] (skipWs c)); [constructor|apply consumes_refl|].
Qed.

Lemma eof_spec c : eof c = true ↔ unread c = [].
Proof. unfold eof. by destruct (unread c). Qed.
Lemma starts_spec p s : starts p s = true ↔ ∃ rest, s = p ++ rest.
Proof.
  unfold starts. rewrite bool_decide_eq_true. split.
  - intros E. exists (drop (length p) s). rewrite <-E at 1. by rewrite take_drop.
  - intros [rest ->]. by rewrite take_app_length.
Qed.

(** ** Soundness, termination and error positions, in one induction *)

(** What a parse of the text behind [c] may return when [Acc s n] says that the
    consumed text [s] is the node [n]. *)
Definition sound (Acc : jstr → KeybindingWhenNode → Prop) (c : cursor)
    (r : parse KeybindingWhenNode) : Prop :=
  match r with
  | Parsed n c' => ∃ s, consumes c s c' ∧ Acc s n
  | ParseFailed e => pos c ≤ position e ≤ pos c + length (unread c)
  | OutOfFuel => False
  end.

Lemma sound_shift Acc c s c' r :
  consumes c s c' → sound (λ t n, Acc (s ++ t) n) c' r → sound Acc c r.
Proof.
  intros Hc. destruct r as [n c''|e|]; cbn; [|destruct Hc as [E P]|done].
  - intros (t & Ht & Ha). exists (s ++ t). split; [by eapply consumes_trans|done].
  - rewrite E, length_app. lia.
Qed.
Lemma sound_impl (A1 A2 : jstr → KeybindingWhenNode → Prop) c r :
  (∀ s n, A1 s n → A2 s n) → sound A1 c r → sound A2 c r.
Proof. intros Hi. destruct r; cbn; naive_solver. Qed.
Lemma sound_bind (A1 A2 : jstr → KeybindingWhenNode → Prop) c r k :
  sound A1 c r →
  (∀ s n c', consumes c s c' → A1 s n → sound (λ t m, A2 (s ++ t) m) c' (k n c')) →
  sound A2 c (parse_bind r k).
Proof.
  intros Hr Hk. destruct r as [n c'|e|]; cbn in *; [|done..].
  destruct Hr as (s & Hs & Ha). eapply sound_shift; [done|]. by apply (Hk s).
Qed.
Lemma sound_fail Acc c m : sound Acc c (fail c m).
Proof. cbn. lia. Qed.
Lemma sound_skip Acc c r :
  (∀ ws, spaces ws → sound (λ t n, Acc (ws ++ t) n) (skipWs c) r) → sound Acc c r.
Proof.
  intros H. destruct (skipWs_spec c) as (ws & Hws & Hc & _).
  eapply sound_shift; [done|]. by apply H.
Qed.

(** A level's text may be followed by white space already skipped. *)
Definition padded (Acc : jstr → KeybindingWhenNode → Prop) (s : jstr)
    (n : KeybindingWhenNode) : Prop := ∃ t ws, s = t ++ ws ∧ spaces ws ∧ Acc t n.

Lemma spaces_app s t : spaces s → spaces t → spaces (s ++ t).
Proof. apply Forall_app_2. Qed.
Lemma padded_intro (Acc : jstr → KeybindingWhenNode → Prop) s n : Acc s n → padded Acc s n.
Proof. intros H. exists s, []. rewrite app_nil_r. split; [done|]. by split; [constructor|]. Qed.

Lemma operator_loop_sound op operand mk (Acc Arg : jstr → KeybindingWhenNode → Prop) :
  op ≠ [] →
  (∀ c, sound (padded Arg) c (operand c)) →
  (∀ s ws t l r, Acc s l → spaces ws → Arg t r → Acc (s ++ ws ++ op ++ t) (mk l r)) →
  ∀ fuel s0 n c, length (unread c) < fuel → padded Acc s0 n →
    sound (λ t m, padded Acc (s0 ++ t) m) c (operator_loop fuel op operand mk n c).
Proof.
  intros Hop Harg Hmk fuel. induction fuel as [|fuel IH]; intros s0 n c Hf Hn; [lia|].
  cbn [operator_loop]. destruct (skipWs_spec c) as (ws & Hws & Hc & _).
  destruct Hn as (t0 & ws0 & -> & Hws0 & Hn).
  assert (padded Acc ((t0 ++ ws0) ++ ws) n) as Hn'.
  { exists t0, (ws0 ++ ws). rewrite app_assoc. by split; [|split; [apply spaces_app|]]. }
  apply (sound_shift _ _ _ _ _ Hc).
  destruct (eof (skipWs c)); [exists []; rewrite app_nil_r; by split; [apply consumes_refl|]|].
  destruct (starts op (unread (skipWs c))) eqn:Hst;
    [|exists []; rewrite app_nil_r; by split; [apply consumes_refl|]].
  apply starts_spec in Hst as [rest Hst].
  pose proof (consumes_advance _ _ _ Hst) as Ha.
  apply (sound_shift _ _ _ _ _ Ha). eapply sound_bind; [apply Harg|].
  intros s r c' Hs (t & ws' & -> & Hws' & Hr).
  eapply sound_impl; [|apply (IH (t0 ++ (ws0 ++ ws) ++ op ++ t ++ ws'))].
  - intros t' m. by rewrite <-!app_assoc.
  - apply consumes_length in Hs, Ha, Hc. assert (length op ≠ 0) by (by destruct op). lia.
  - exists (t0 ++ (ws0 ++ ws) ++ op ++ t), ws'. rewrite <-!app_assoc.
    split; [done|]. split; [done|]. rewrite (app_assoc ws0). apply Hmk; [done| |done].
    by apply spaces_app.
Qed.

Lemma derives_spaces l d ws s n :
  spaces ws → derives l d s n → derives l d (ws ++ s) n.
Proof.
  intros Hws. induction 1; [| | |by apply D_atom| |by apply D_conj|]; rewrite app_assoc;
    [apply D_name|apply D_not|apply D_paren|apply D_and|apply D_or]; try done;
    by apply spaces_app.
Qed.

Lemma parseIdentifier_sound d c ch :
  d ≤ MAX_WHEN_DEPTH → head (unread c) = Some ch → ident_start ch = true →
  sound (derives LAtom d) c (parseIdentifier c).
Proof.
  intros Hd Hh Hs. unfold parseIdentifier. set (n := span ident_unit (unread c)).
  destruct (span_spec ident_unit (unread c)) as [H1 _]. fold n in H1.
  case_decide as Hn; [apply sound_fail|].
  exists (take n (unread c)). split.
  - split; cbn; [by rewrite take_drop|]. rewrite length_take.
    assert (n ≤ length (unread c)); [|lia]. unfold n. clear.
    induction (unread c) as [|x r IH]; cbn; [lia|]. destruct (ident_unit x); lia.
  - apply (D_name d []); [done|constructor|]. destruct (unread c) as [|x r]; [done|].
    cbn in Hh. injection Hh as ->. destruct n as [|n]; [done|]. cbn. rewrite Hs. cbn.
    inversion H1 as [|? ? _ H2]; subst. apply forallb_forall.
    intros y Hy%list_elem_of_In. rewrite Forall_forall in H2. by apply H2.
Qed.

Section levels.
Context (atom : nat → cursor → parse KeybindingWhenNode) (d : nat).
Context (Hatom : ∀ d' c, d ≤ d' → sound (derives LAtom d') c (atom d' c)).

Lemma parseAndWith_sound d' c :
  d ≤ d' → sound (padded (derives LAnd d')) c (parseAndWith atom d' c).
Proof.
  intros Hd. unfold parseAndWith. eapply sound_bind; [by apply Hatom|].
  intros s n c' Hs Hn.
  apply (operator_loop_sound amp2 _ And (derives LAnd d') (derives LAtom (S d'))); [done| | |lia|].
  - intros c1. eapply sound_impl; [apply padded_intro|]. apply Hatom. lia.
  - intros. by apply D_and.
  - by apply padded_intro, D_atom.
Qed.
Lemma parseOrWith_sound d' c :
  d ≤ d' → sound (padded (derives LOr d')) c (parseOrWith atom d' c).
Proof.
  intros Hd. unfold parseOrWith. eapply sound_bind; [by apply parseAndWith_sound|].
  intros s n c' Hs (t & ws & -> & Hws & Hn).
  apply (operator_loop_sound bar2 _ Or (derives LOr d') (derives LAnd (S d'))); [done| | |lia|].
  - intros c1. apply parseAndWith_sound. lia.
  - intros. by apply D_or.
  - exists t, ws. by split; [|split; [|apply D_conj]].
Qed.
End levels.

Lemma head_cons_unread c ch : head (unread c) = Some ch → ∃ r, unread c = [ch] ++ r.
Proof. destruct (unread c) as [|x r]; [done|]. intros [= ->]. by exists r. Qed.

Lemma parseAtom_sound fuel d c :
  0 < fuel → MAX_WHEN_DEPTH + 2 ≤ fuel + d →
  sound (derives LAtom d) c (parseAtom fuel d c).
Proof.
  revert d c. induction fuel as [|fuel IH]; intros d c Hf Hd; [lia|].
  cbn [parseAtom]. destruct (Nat.ltb_spec MAX_WHEN_DEPTH d) as [Hl|Hl]; [apply sound_fail|].
  assert (0 < fuel) as Hf' by lia.
  apply sound_skip. intros ws Hws. set (c1 := skipWs c).
  destruct (peek c1) as [ch|] eqn:Hp; [|apply sound_fail].
  pose proof (head_cons_unread c1 ch Hp) as [r Hr].
  pose proof (consumes_advance c1 [ch] r Hr) as Ha. cbn [length] in Ha.
  destruct (N.eqb_spec ch bang) as [->|_]; [|destruct (N.eqb_spec ch lparen) as [->|_]].
  - apply (sound_shift _ _ _ _ _ Ha). eapply sound_bind; [apply IH; lia|].
    intros s n c' Hs Hn. exists []. rewrite app_nil_r. split; [apply consumes_refl|].
    by apply D_not.
  - apply (sound_shift _ _ _ _ _ Ha). eapply sound_bind.
    { apply (parseOrWith_sound _ (S d)); [|done]. intros d' c' Hd'. apply IH; lia. }
    intros s n c' Hs (t & ws' & -> & Hws' & Hn). apply sound_skip. intros ws2 Hws2.
    set (c2 := skipWs c'). case_decide as Hc2; [|apply sound_fail].
    pose proof (head_cons_unread c2 _ Hc2) as [r2 Hr2].
    pose proof (consumes_advance c2 [rparen] r2 Hr2) as Ha2. cbn [length] in Ha2.
    exists [rparen]. split; [done|].
    replace (ws ++ [lparen] ++ (t ++ ws') ++ ws2 ++ [rparen])
      with (ws ++ lparen :: t ++ (ws' ++ ws2) ++ [rparen]) by (by rewrite <-!app_assoc).
    apply D_paren; [done..| |done]. by apply spaces_app.
  - destruct (ident_start ch) eqn:Hi; [|apply sound_fail].
    eapply sound_impl; [|by apply (parseIdentifier_sound d c1 ch)].
    intros s n Hn. by apply derives_spaces.
Qed.

(** ** Completeness *)

Definition stops (s : jstr) : Prop := headed (λ ch, negb (ident_unit ch)) s.
Definition no_op (op : jstr) (c : cursor) : Prop := starts op (unread (skipWs c)) = false.

Lemma space_not_ident ch : is_space ch = true → ident_unit ch = false.
Proof.
  unfold is_space, ident_unit, is_upper, is_lower, is_digit, in_range. intros H.
  apply not_true_is_false. intros H'. revert H H'.
  rewrite !orb_true_iff, !andb_true_iff, !N.leb_le, !N.eqb_eq. lia.
Qed.
Lemma ident_start_unit ch : ident_start ch = true → ident_unit ch = true.
Proof.
  unfold ident_start, ident_unit. rewrite !orb_true_iff. tauto.
Qed.
Lemma ident_start_visible ch :
  ident_start ch = true → not_space ch = true ∧ N.eqb ch bang = false ∧ N.eqb ch lparen = false.
Proof.
  intros H%ident_start_unit. split; [|split].
  - unfold not_space. apply negb_true_iff, not_true_is_false. intros Hs%space_not_ident. congruence.
  - destruct (N.eqb_spec ch bang) as [->|]; done.
  - destruct (N.eqb_spec ch lparen) as [->|]; done.
Qed.

Lemma headed_spaces P ws s :
  spaces ws → (∀ ch, is_space ch = true → P ch = true) → headed P s → headed P (ws ++ s).
Proof. intros Hws Hp Hs. destruct Hws as [|ch ws Hch _]; [done|]. intros ? [= <-]. by apply Hp. Qed.
Lemma stops_spaces ws s : spaces ws → stops s → stops (ws ++ s).
Proof.
  intros Hws Hs. apply headed_spaces; [done| |done]. intros ch Hch. by rewrite (space_not_ident ch Hch).
Qed.
Lemma headed_cons (P : N → bool) ch s : P ch = true → headed P (ch :: s).
Proof. intros H ? [= <-]. done. Qed.

Lemma consumes_app_inv c s t c' :
  consumes c (s ++ t) c' → ∃ m, consumes c s m ∧ consumes m t c' ∧ unread m = t ++ unread c'.
Proof.
  intros [E P]. exists (advance c (length s)). rewrite <-app_assoc in E.
  rewrite length_app in P.
  assert (unread (advance c (length s)) = t ++ unread c') as Hm
    by (cbn; by rewrite E, drop_app_length).
  split; [by apply consumes_advance with (t ++ unread c')|]. split; [|done].
  split; [done|]. cbn. lia.
Qed.
Lemma consumes_advance_eq c s c' : consumes c s c' → advance c (length s) = c'.
Proof.
  intros H. eapply consumes_det; [|done]. eapply consumes_advance. by apply H.
Qed.

Lemma no_op_head op c ws o r ch rest :
  spaces ws → op = o :: r → unread c = ws ++ ch :: rest → not_space ch = true → ch ≠ o →
  no_op op c.
Proof.
  intros Hws -> E Hv Ho. unfold no_op.
  assert (skipWs c = advance c (length ws)) as ->.
  { eapply skipWs_consumes; [done|by eapply consumes_advance|].
    cbn. rewrite E, drop_app_length. by apply headed_cons. }
  cbn [advance unread]. rewrite E, drop_app_length. apply not_true_is_false.
  intros [? [= ? _]]%starts_spec. congruence.
Qed.
Lemma no_op_nil op c ws : spaces ws → op ≠ [] → unread c = ws → no_op op c.
Proof.
  intros Hws Hop E. unfold no_op.
  assert (skipWs c = advance c (length ws)) as ->.
  { eapply skipWs_consumes; [done|eapply (consumes_advance _ _ []); by rewrite app_nil_r|].
    cbn. rewrite E, drop_all. done. }
  cbn [advance unread]. rewrite E, drop_all. apply not_true_is_false.
  intros [? H]%starts_spec. by destruct op.
Qed.

Definition consuming (operand : cursor → parse KeybindingWhenNode) : Prop :=
  ∀ c, sound (λ _ _, True) c (operand c).

Lemma operator_loop_fuel op operand mk f1 f2 n c :
  op ≠ [] → consuming operand → length (unread c) < f1 → length (unread c) < f2 →
  operator_loop f1 op operand mk n c = operator_loop f2 op operand mk n c.
Proof.
  intros Hop Hc. revert f2 n c. induction f1 as [|f1 IH]; intros f2 n c H1 H2; [lia|].
  destruct f2 as [|f2]; [lia|]. cbn [operator_loop].
  destruct (eof (skipWs c)); [done|].
  destruct (starts op (unread (skipWs c))) eqn:Hst; [|done].
  apply starts_spec in Hst as [rest Hst]. pose proof (consumes_advance _ _ _ Hst) as Ha.
  pose proof (Hc (advance (skipWs c) (length op))) as Ho.
  destruct (operand _) as [r c'|e|]; [|done..]. cbn. destruct Ho as (s & Hs & _).
  destruct (skipWs_spec c) as (ws & _ & Hw & _).
  apply consumes_length in Ha, Hs, Hw. assert (length op ≠ 0) by (by destruct op).
  apply IH; lia.
Qed.
Lemma operator_loop_end op operand mk f n c :
  op ≠ [] → no_op op c → operator_loop (S f) op operand mk n c = Parsed n (skipWs c).
Proof. intros Hop Hn. cbn [operator_loop]. rewrite Hn. by destruct (eof (skipWs c)). Qed.
Lemma operator_loop_skip op operand mk f n c :
  operator_loop (S f) op operand mk n (skipWs c) = operator_loop (S f) op operand mk n c.
Proof. cbn [operator_loop]. by rewrite skipWs_idemp. Qed.
Lemma operator_loop_S op operand mk f n c :
  operator_loop (S f) op operand mk n c =
  if eof (skipWs c) then Parsed n (skipWs c)
  else if starts op (unread (skipWs c)) then
    parse_bind (operand (advance (skipWs c) (length op)))
      (λ right c, operator_loop f op operand mk (mk n right) c)
  else Parsed n (skipWs c).
Proof. reflexivity. Qed.
(** One turn of the loop over [ws], the operator and an operand. *)
Lemma operator_loop_step op operand mk n c ws c1 c2 r :
  op ≠ [] → headed not_space op → consuming operand →
  spaces ws → consumes c ws c1 → consumes c1 op c2 → operand c2 = r →
  operator_loop (S (length (unread c))) op operand mk n c
  = parse_bind r (λ right c3, operator_loop (S (length (unread c3))) op operand mk (mk n right) c3).
Proof.
  intros Hop Hv Hcons Hws Hc1 Hc2 <-. rewrite operator_loop_S.
  assert (skipWs c = c1) as ->.
  { apply (skipWs_consumes _ ws); [done..|]. destruct Hc2 as [-> _].
    destruct op as [|o op]; [done|]. cbn. apply headed_cons. by apply Hv. }
  assert (eof c1 = false) as ->.
  { apply not_true_is_false. intros E%eof_spec. destruct Hc2 as [E2 _].
    rewrite E in E2. by destruct op. }
  assert (starts op (unread c1) = true) as ->.
  { apply starts_spec. exists (unread c2). by destruct Hc2. }
  rewrite (consumes_advance_eq _ _ _ Hc2). pose proof (Hcons c2) as Ho.
  destruct (operand c2) as [r c3|e|]; [|done..]. cbn [parse_bind]. destruct Ho as (s & Hs & _).
  apply consumes_length in Hc1, Hc2, Hs. assert (length op ≠ 0) by (by destruct op).
  apply operator_loop_fuel; [done..|lia|lia].
Qed.

(** ** Completeness *)

Definition enough (fuel d : nat) : Prop := 0 < fuel ∧ MAX_WHEN_DEPTH + 2 ≤ fuel + d.

Lemma atom_consuming fuel d : enough fuel d → consuming (parseAtom fuel d).
Proof. intros [] c. eapply sound_impl; [|by apply parseAtom_sound]. done. Qed.
Lemma and_consuming fuel d : enough fuel d → consuming (parseAndWith (parseAtom fuel) d).
Proof.
  intros [] c. eapply sound_impl; [|apply (parseAndWith_sound _ d)]; [done| |done].
  intros. apply parseAtom_sound; lia.
Qed.
Lemma enough_S fuel d : enough fuel d → enough fuel (S d).
Proof. unfold enough. lia. Qed.
Lemma enough_inner fuel d : enough (S fuel) d → d ≤ MAX_WHEN_DEPTH → enough fuel (S d).
Proof. unfold enough. lia. Qed.

Definition and_rest (fuel d : nat) (n : KeybindingWhenNode) (c : cursor) : parse KeybindingWhenNode :=
  operator_loop (S (length (unread c))) amp2 (parseAtom fuel (S d)) And n c.
Definition or_rest (fuel d : nat) (n : KeybindingWhenNode) (c : cursor) : parse KeybindingWhenNode :=
  operator_loop (S (length (unread c))) bar2 (parseAndWith (parseAtom fuel) (S d)) Or n c.

(** Reading the text of a derivation leads the parser of its level behind it. *)
Definition reads (l : level) (d : nat) (s : jstr) (n : KeybindingWhenNode) : Prop :=
  ∀ fuel c c', enough fuel d → consumes c s c' → stops (unread c') →
  match l with
  | LAtom => parseAtom fuel d c = Parsed n c'
  | LAnd => parseAndWith (parseAtom fuel) d c = and_rest fuel d n c'
  | LOr => no_op amp2 c' → parseOrWith (parseAtom fuel) d c = or_rest fuel d n c'
  end.

(** [parseAtom] behind its guards: [ch] is the first visible unit. *)
Definition atom_at (fuel d : nat) (ch : N) (c1 c2 : cursor) : parse KeybindingWhenNode :=
  if N.eqb ch bang then
    parse_bind (parseAtom fuel (S d) c2) (λ inner c, Parsed (Not inner) c)
  else if N.eqb ch lparen then
    parse_bind (parseOrWith (parseAtom fuel) (S d) c2)
      (λ inner c, if decide (peek (skipWs c) = Some rparen)
                  then Parsed inner (advance (skipWs c) 1)
                  else fail (skipWs c) (u "expected ')'"))
  else if ident_start ch then parseIdentifier c1
  else fail c1 (u "unexpected character '" ++ [ch] ++ u "'").

Lemma parseAtom_enter fuel d c ws ch c1 c2 :
  d ≤ MAX_WHEN_DEPTH → spaces ws → not_space ch = true →
  consumes c ws c1 → consumes c1 [ch] c2 →
  parseAtom (S fuel) d c = atom_at fuel d ch c1 c2.
Proof.
  intros Hd Hws Hv Hc1 Hc2. cbn [parseAtom].
  assert (Nat.ltb MAX_WHEN_DEPTH d = false) as -> by (by apply Nat.ltb_ge).
  destruct (Hc2) as [E2 _].
  assert (skipWs c = c1) as ->.
  { eapply skipWs_consumes; [done..|]. rewrite E2. by apply headed_cons. }
  unfold peek at 1. rewrite E2. cbn [head app].
  by rewrite <-(consumes_advance_eq _ _ _ Hc2).
Qed.

Lemma parseIdentifier_reads c s c' :
  is_identifier s = true → consumes c s c' → stops (unread c') →
  parseIdentifier c = Parsed (Identifier s) c'.
Proof.
  intros Hs Hc Hst. unfold parseIdentifier. destruct (Hc) as [E _].
  assert (span ident_unit (unread c) = length s) as ->.
  { rewrite E. apply span_app.
    - destruct s as [|ch s]; [done|]. cbn in Hs. apply andb_true_iff in Hs as [Hch Hs].
      constructor; [by apply ident_start_unit|]. apply Forall_forall.
      intros x Hx. rewrite forallb_forall in Hs. by apply Hs, list_elem_of_In.
    - intros ch Hch. apply Hst in Hch. by apply negb_true_iff. }
  case_decide as Hl; [by destruct s|].
  rewrite (consumes_advance_eq _ _ _ Hc), E. by rewrite take_app_length.
Qed.

Lemma reads_name d ws s :
  d ≤ MAX_WHEN_DEPTH → spaces ws → is_identifier s = true →
  reads LAtom d (ws ++ s) (Identifier s).
Proof.
  intros Hd Hws Hs fuel c c' [Hf _] (c1 & Hc1 & Hc' & _)%consumes_app_inv Hst.
  destruct s as [|ch s]; [done|].
  destruct (consumes_app_inv c1 [ch] s c' Hc') as (c2 & Hc2 & _ & _).
  pose proof Hs as [Hch _]%andb_true_iff. destruct (ident_start_visible ch Hch) as (Hv & Hb & Hl).
  destruct fuel as [|fuel]; [lia|].
  rewrite (parseAtom_enter fuel d c ws ch c1 c2) by done.
  unfold atom_at. rewrite Hb, Hl, Hch. by apply parseIdentifier_reads.
Qed.
Lemma reads_not d ws s n :
  d ≤ MAX_WHEN_DEPTH → spaces ws → reads LAtom (S d) s n →
  reads LAtom d (ws ++ bang :: s) (Not n).
Proof.
  intros Hd Hws IH fuel c c' Hf (c1 & Hc1 & Hc' & _)%consumes_app_inv Hst.
  destruct (consumes_app_inv c1 [bang] s c' Hc') as (c2 & Hc2 & Hs & _).
  destruct fuel as [|fuel]; [destruct Hf; lia|].
  rewrite (parseAtom_enter fuel d c ws bang c1 c2) by done. unfold atom_at. cbn [N.eqb].
  rewrite (IH fuel c2 c'); [done|by apply enough_inner|done..].
Qed.
Lemma reads_paren d ws s ws' n :
  d ≤ MAX_WHEN_DEPTH → spaces ws → spaces ws' → reads LOr (S d) s n →
  reads LAtom d (ws ++ lparen :: s ++ ws' ++ [rparen]) n.
Proof.
  intros Hd Hws Hws' IH fuel c c' Hf (c1 & Hc1 & Hc' & _)%consumes_app_inv Hst.
  destruct (consumes_app_inv c1 [lparen] _ c' Hc') as (c2 & Hc2 & H2 & _).
  apply consumes_app_inv in H2 as (c3 & Hs & H3 & E3).
  apply consumes_app_inv in H3 as (c4 & Hw & H4 & E4).
  destruct fuel as [|fuel]; [destruct Hf; lia|].
  rewrite (parseAtom_enter fuel d c ws lparen c1 c2) by done. unfold atom_at.
  change (N.eqb lparen bang) with false. change (N.eqb lparen lparen) with true. cbn iota.
  rewrite <-app_assoc in E3.
  rewrite (IH fuel c2 c3); [|by apply enough_inner|done| |].
  - unfold or_rest. rewrite operator_loop_end; [|done|].
    2: by eapply (no_op_head _ c3 ws'); [done..|exact E3| |].
    cbn [parse_bind]. rewrite skipWs_idemp.
    assert (skipWs c3 = c4) as ->
      by (eapply skipWs_consumes; [done..|]; rewrite E4; by apply headed_cons).
    unfold peek. rewrite E4. cbn [head app].
    destruct (decide _) as [_|]; [|done]. f_equal. by apply (consumes_advance_eq c4 [rparen]).
  - rewrite E3. apply stops_spaces; [done|]. by apply headed_cons.
  - by eapply (no_op_head _ c3 ws'); [done..|exact E3| |].
Qed.

Lemma op_stops op ws s :
  spaces ws → op = amp2 ∨ op = bar2 → stops (ws ++ op ++ s).
Proof. intros Hws [-> | ->]; apply stops_spaces; try done; by apply headed_cons. Qed.
Lemma op_visible op : op = amp2 ∨ op = bar2 → op ≠ [] ∧ headed not_space op.
Proof. intros [-> | ->]; split; try done; by apply headed_cons. Qed.

Lemma reads_and d s ws t l r :
  reads LAnd d s l → spaces ws → reads LAtom (S d) t r →
  reads LAnd d (s ++ ws ++ amp2 ++ t) (And l r).
Proof.
  intros IHl Hws IHr fuel c c' Hf (c1 & Hs & H1 & E1)%consumes_app_inv Hst.
  apply consumes_app_inv in H1 as (c2 & Hw & H2 & _).
  apply consumes_app_inv in H2 as (c3 & Hop & Ht & _).
  destruct (op_visible amp2 (or_introl eq_refl)) as [Hn Hv].
  rewrite <-!app_assoc in E1.
  rewrite (IHl fuel c c1); [|done..|].
  2: rewrite E1; apply op_stops; [done|by left].
  unfold and_rest.
  rewrite (operator_loop_step _ _ _ _ c1 ws c2 c3 (Parsed r c')); [done|done|done| |done..|].
  - by apply atom_consuming, enough_S.
  - apply IHr; [by apply enough_S|done..].
Qed.
Lemma or_loop_skip fuel d n c :
  enough fuel d →
  operator_loop (S (length (unread c))) bar2 (parseAndWith (parseAtom fuel) d) Or n c
  = operator_loop (S (length (unread (skipWs c)))) bar2 (parseAndWith (parseAtom fuel) d) Or n
      (skipWs c).
Proof.
  intros He. rewrite <-operator_loop_skip.
  destruct (skipWs_spec c) as (ws & _ & Hw%consumes_length & _).
  apply operator_loop_fuel; [done|by apply and_consuming|lia|lia].
Qed.
Lemma reads_conj d s n : reads LAnd d s n → reads LOr d s n.
Proof.
  intros IH fuel c c' Hf Hc Hst Hno. unfold parseOrWith.
  rewrite (IH fuel c c') by done. unfold and_rest. rewrite operator_loop_end by done.
  cbn [parse_bind]. unfold or_rest. symmetry. by apply or_loop_skip, enough_S.
Qed.
Lemma reads_or d s ws t l r :
  reads LOr d s l → spaces ws → reads LAnd (S d) t r →
  reads LOr d (s ++ ws ++ bar2 ++ t) (Or l r).
Proof.
  intros IHl Hws IHr fuel c c' Hf (c1 & Hs & H1 & E1)%consumes_app_inv Hst Hno.
  apply consumes_app_inv in H1 as (c2 & Hw & H2 & _).
  apply consumes_app_inv in H2 as (c3 & Hop & Ht & _).
  destruct (op_visible bar2 (or_intror eq_refl)) as [Hn Hv].
  rewrite <-!app_assoc in E1.
  rewrite (IHl fuel c c1); [|done..| |].
  2: rewrite E1; apply op_stops; [done|by right].
  2: by eapply (no_op_head _ c1 ws); [done..|exact E1| |].
  unfold or_rest.
  rewrite (operator_loop_step _ _ _ _ c1 ws c2 c3 (Parsed r (skipWs c'))); [|done|done| |done..|].
  - cbn [parse_bind]. symmetry. by apply or_loop_skip, enough_S.
  - by apply and_consuming, enough_S.
  - rewrite (IHr fuel c3 c') by (try done; by apply enough_S).
    unfold and_rest. by apply operator_loop_end.
Qed.

Lemma derives_reads l d s n : derives l d s n → reads l d s n.
Proof.
  induction 1; [by apply reads_name|by apply reads_not|by apply reads_paren| |by apply reads_and
    |by apply reads_conj|by apply reads_or].
  intros fuel c c' Hf Hc Hst. unfold parseAndWith. by rewrite (IHderives fuel c c').
Qed.

(** ** The parser against the grammar *)

Lemma reverse_drop_space s : ∃ ws, spaces ws ∧ s = reverse (drop_space (reverse s)) ++ ws.
Proof.
  assert (∀ t, ∃ ws, spaces ws ∧ t = ws ++ drop_space t) as H.
  { induction t as [|ch t IH]; [by exists []; split; [constructor|]|]. cbn.
    destruct (is_space ch) eqn:Hc; [|by exists []; split; [constructor|]].
    destruct IH as (ws & Hws & E). exists (ch :: ws). split; [by constructor|]. cbn. by f_equal. }
  destruct (H (reverse s)) as (ws & Hws & E). exists (reverse ws). split.
  - unfold spaces in *. by rewrite Forall_reverse.
  - by rewrite <-reverse_app, <-E, reverse_involutive.
Qed.
Lemma drop_space_headed s : headed not_space (drop_space s).
Proof.
  induction s as [|ch s IH]; [done|]. cbn. destruct (is_space ch) eqn:Hc; [done|].
  apply headed_cons. unfold not_space. by rewrite Hc.
Qed.
Lemma drop_space_id s : headed not_space s → drop_space s = s.
Proof.
  destruct s as [|ch s]; [done|]. intros H. specialize (H ch eq_refl). unfold not_space in H.
  cbn. by destruct (is_space ch).
Qed.
(** A trimmed text ends in a visible unit. *)
Lemma jtrim_tail input s ws : jtrim input = s ++ ws → spaces ws → ws = [].
Proof.
  unfold jtrim. intros E Hws. apply (f_equal reverse) in E.
  rewrite reverse_involutive, reverse_app in E.
  pose proof (drop_space_headed (reverse (drop_space input))) as H. rewrite E in H.
  destruct (reverse ws) as [|ch r] eqn:Hr.
  - apply (f_equal reverse) in Hr. by rewrite reverse_involutive in Hr.
  - specialize (H ch eq_refl). unfold spaces in Hws. rewrite <-(reverse_involutive ws) in Hws.
    rewrite Forall_reverse, Hr in Hws. apply Forall_inv in Hws.
    unfold not_space in H. by rewrite Hws in H.
Qed.
Lemma jtrim_id s : headed not_space s → headed not_space (reverse s) → jtrim s = s.
Proof.
  intros H1 H2. unfold jtrim. rewrite (drop_space_id s) by done.
  rewrite drop_space_id by done. apply reverse_involutive.
Qed.

Definition start (s : jstr) : cursor := {| pos := 0; unread := s |}.
Definition finish (s : jstr) : cursor := {| pos := length s; unread := [] |}.

Lemma parse_fuel_enough : enough PARSE_FUEL 0.
Proof. unfold enough, PARSE_FUEL. lia. Qed.

(** The whole parse of a text without trailing white space. *)
Lemma parseTrimmed_result fuel t :
  enough fuel 0 → (∀ s ws, t = s ++ ws → spaces ws → ws = []) →
  match parseTrimmed fuel t with
  | Parsed n c => derives LOr 0 t n ∧ c = finish t
  | ParseFailed e => position e ≤ length t
  | OutOfFuel => False
  end.
Proof.
  intros [Hf1 Hf2] Htail. unfold parseTrimmed. fold (start t).
  assert (sound (padded (derives LOr 0)) (start t) (parseOrWith (parseAtom fuel) 0 (start t))) as Hs.
  { apply (parseOrWith_sound _ 0); [|done]. intros d c' _. apply parseAtom_sound; lia. }
  destruct (parseOrWith _ _ _) as [n c|e|]; cbn [parse_bind]; [|cbn in *; lia|done].
  destruct Hs as (s & Hc & (s' & ws & -> & Hws & Hd)).
  destruct (skipWs_spec c) as (ws2 & Hws2 & Hc2 & _).
  pose proof (consumes_trans _ _ _ _ _ Hc Hc2) as [Hall Hpos]. cbn [start unread pos] in Hall, Hpos.
  destruct (eof (skipWs c)) eqn:He.
  - apply eof_spec in He. rewrite He, app_nil_r, <-app_assoc in Hall.
    assert (ws ++ ws2 = []) as E by (apply (Htail s'); [done|by apply spaces_app]).
    rewrite E, app_nil_r in Hall. rewrite Hall. split; [done|].
    destruct (skipWs c) as [p q]; cbn in *. subst q. unfold finish. f_equal.
    rewrite Hpos, <-app_assoc, E. by rewrite app_nil_r.
  - cbn [fail position]. rewrite Hpos. rewrite Hall. rewrite !length_app. lia.
Qed.
Lemma parseTrimmed_complete fuel t n :
  enough fuel 0 → derives LOr 0 t n → parseTrimmed fuel t = Parsed n (finish t).
Proof.
  intros Hf Hd. unfold parseTrimmed. fold (start t).
  assert (consumes (start t) t (finish t)) as Hc.
  { split; cbn; [by rewrite app_nil_r|done]. }
  rewrite (derives_reads _ _ _ _ Hd fuel _ _ Hf Hc).
  - unfold or_rest. rewrite operator_loop_end; [|done|].
    + assert (skipWs (finish t) = finish t) as E
        by (by apply (skipWs_consumes _ []); [constructor|apply consumes_refl|]).
      cbn [parse_bind]. by rewrite !E.
    + apply (no_op_nil _ _ []); [constructor|done|done].
  - done.
  - apply (no_op_nil _ _ []); [constructor|done|done].
Qed.

Lemma parseWhen_cases input :
  (jtrim input = [] ∧ parseWhen input = None) ∨
  (jtrim input ≠ [] ∧ parseWhen input = Some (parseTrimmed PARSE_FUEL (jtrim input))).
Proof. unfold parseWhen. case_decide; [by left|by right]. Qed.

(** ** The printed text is a sentence *)

Lemma and_operand d s a t r :
  derives LAnd d s a → derives LAtom (S d) t r → derives LAnd d (s ++ u " && " ++ t) (And a r).
Proof.
  intros Ha Hr. change (s ++ u " && " ++ t) with (s ++ u " " ++ amp2 ++ u " " ++ t).
  apply D_and; [done|by repeat constructor|]. apply derives_spaces; [by repeat constructor|done].
Qed.
Lemma or_operand d s a t r :
  derives LOr d s a → derives LAnd (S d) t r → derives LOr d (s ++ u " || " ++ t) (Or a r).
Proof.
  intros Ha Hr. change (s ++ u " || " ++ t) with (s ++ u " " ++ bar2 ++ u " " ++ t).
  apply D_or; [done|by repeat constructor|]. apply derives_spaces; [by repeat constructor|done].
Qed.
Lemma parens_derives d s n :
  d ≤ MAX_WHEN_DEPTH → derives LOr (S d) s n → derives LAtom d (parens s) n.
Proof. intros Hd Hn. by apply (D_paren d [] s []); [|constructor|constructor|]. Qed.
Lemma identifier_derives d s :
  d ≤ MAX_WHEN_DEPTH → is_identifier s = true → derives LAtom d s (Identifier s).
Proof. intros Hd Hs. by apply (D_name d [] s); [|constructor|]. Qed.

(** What the printed text of [n] derives at each place. *)
Record prints (n : KeybindingWhenNode) : Prop := {
  prints_atom d : d + nesting 2 n ≤ MAX_WHEN_DEPTH →
    derives LAtom d (renderNode n 2) (hang LAtom None n);
  prints_and d : S d + nesting 1 n ≤ MAX_WHEN_DEPTH →
    derives LAnd d (renderNode n 1) (hang LAnd None n);
  prints_and_on d s a : S d + nesting 1 n ≤ MAX_WHEN_DEPTH → derives LAnd d s a →
    derives LAnd d (s ++ u " && " ++ renderNode n 1) (hang LAnd (Some a) n);
  prints_or d : S d + nesting 0 n ≤ MAX_WHEN_DEPTH →
    derives LOr d (renderNode n 0) (hang LOr None n);
  prints_or_on d s a : S d + nesting 0 n ≤ MAX_WHEN_DEPTH → derives LOr d s a →
    derives LOr d (s ++ u " || " ++ renderNode n 0) (hang LOr (Some a) n)
}.

(** A node whose text is an atom at depth [d]. *)
Lemma prints_of_atom n :
  (∀ p d, p ≤ 2 → d + nesting p n ≤ MAX_WHEN_DEPTH →
     derives LAtom d (renderNode n p) (hang LAtom None n)) →
  (∀ lv a, lv ≠ LAtom → hang lv (Some a) n =
     (if lv is LAnd then And else Or) a (hang LAtom None n)) →
  (∀ lv, hang lv None n = hang LAtom None n) → prints n.
Proof.
  intros Hat Hon Hno. split.
  - intros d Hd. by apply Hat.
  - intros d Hd. rewrite Hno. apply D_atom, Hat; lia.
  - intros d s a Hd Ha. rewrite Hon by done. apply and_operand, Hat; [done|lia..].
  - intros d Hd. rewrite Hno. apply D_conj, D_atom, Hat; lia.
  - intros d s a Hd Ha. rewrite Hon by done. apply or_operand; [done|]. apply D_atom, Hat; lia.
Qed.

Lemma prints_all n : well_named n = true → prints n.
Proof.
  induction n as [name|n IH|l IHl r IHr|l IHl r IHr]; intros Hn; cbn in Hn;
    try (apply andb_true_iff in Hn as [Hnl Hnr];
         destruct (IHl Hnl) as [_ La Lao Lo Loo], (IHr Hnr) as [_ Ra Rao Ro Roo]; clear IHl IHr).
  - apply prints_of_atom; [|by intros []|by intros []]. intros [|[|[|p]]] d Hp Hd; try lia;
      (apply identifier_derives; [cbn in Hd; lia|done]).
  - apply prints_of_atom; [|by intros []|by intros []]. intros p d Hp Hd.
    assert (renderNode (Not n) p = bang :: renderNode n 2) as ->
      by (destruct p as [|[|[|]]]; [done..|lia]).
    cbn in Hd. apply (D_not d []); [lia|constructor|]. apply (IH Hn). lia.
  - assert (∀ d, S d + max (nesting 1 l) (nesting 1 r) ≤ MAX_WHEN_DEPTH →
      derives LAnd d (renderNode l 1 ++ u " && " ++ renderNode r 1)
        (hang LAnd (Some (hang LAnd None l)) r)) as Hbody.
    { intros d Hd. apply Rao; [lia|]. apply La. lia. }
    split; cbn [nesting]; intros d.
    + intros Hd. apply parens_derives; [lia|]. apply D_conj, Hbody. lia.
    + apply Hbody.
    + intros s a Hd Ha. cbn [renderNode hang PRECEDENCE Nat.ltb Nat.leb].
      rewrite !app_assoc, <-(app_assoc _ (u " && ") (renderNode r 1)).
      apply Rao; [lia|]. rewrite <-app_assoc. apply Lao; [lia|done].
    + intros Hd. apply D_conj, Hbody. lia.
    + intros s a Hd Ha. apply or_operand; [done|]. apply Hbody. lia.
  - assert (∀ d, S d + max (nesting 0 l) (nesting 0 r) ≤ MAX_WHEN_DEPTH →
      derives LOr d (renderNode l 0 ++ u " || " ++ renderNode r 0)
        (hang LOr (Some (hang LOr None l)) r)) as Hbody.
    { intros d Hd. apply Roo; [lia|]. apply Lo. lia. }
    assert (∀ d, d + S (S (max (nesting 0 l) (nesting 0 r))) ≤ MAX_WHEN_DEPTH →
      derives LAtom d (parens (renderNode l 0 ++ u " || " ++ renderNode r 0))
        (hang LOr (Some (hang LOr None l)) r)) as Hparens.
    { intros d Hd. apply parens_derives; [lia|]. apply Hbody. lia. }
    split; cbn [nesting]; intros d.
    + intros Hd. apply Hparens. lia.
    + intros Hd. apply D_atom, Hparens. lia.
    + intros s a Hd Ha. apply and_operand; [done|]. apply Hparens. lia.
    + intros Hd. apply Hbody. lia.
    + intros s a Hd Ha. cbn [renderNode hang PRECEDENCE Nat.ltb Nat.leb].
      rewrite !app_assoc, <-(app_assoc _ (u " || ") (renderNode r 0)).
      apply Roo; [lia|]. rewrite <-app_assoc. apply Loo; [lia|done].
Qed.

(** The first and the last unit of a printed text are visible. *)
Definition visible (s : jstr) : Prop :=
  (∃ ch, head s = Some ch ∧ not_space ch = true) ∧
  (∃ ch, head (reverse s) = Some ch ∧ not_space ch = true).
Lemma head_app_Some {A} (s t : list A) x : head s = Some x → head (s ++ t) = Some x.
Proof. by destruct s. Qed.
Lemma visible_around s m t : visible s → visible t → visible (s ++ m ++ t).
Proof.
  intros [(a & Ha & Va) _] [_ (b & Hb & Vb)]. split; [exists a|exists b]; split; try done.
  - by apply head_app_Some.
  - rewrite !reverse_app, <-app_assoc. by apply head_app_Some.
Qed.
Lemma visible_unit ch : not_space ch = true → visible [ch].
Proof. intros H. by split; exists ch. Qed.
Lemma visible_jtrim s : visible s → s ≠ [] ∧ jtrim s = s.
Proof.
  intros [(a & Ha & Va) (b & Hb & Vb)]. split; [by destruct s|].
  apply jtrim_id; intros ch Hch; congruence.
Qed.
Lemma ident_unit_visible ch : ident_unit ch = true → not_space ch = true.
Proof.
  intros H. unfold not_space. apply negb_true_iff, not_true_is_false.
  intros Hs%space_not_ident. congruence.
Qed.
Lemma identifier_visible s : is_identifier s = true → visible s.
Proof.
  destruct s as [|c s]; [done|]. cbn. intros [Hc Hs]%andb_true_iff.
  apply ident_start_unit in Hc. destruct s as [|x s _] using rev_ind.
  - by apply visible_unit, ident_unit_visible.
  - rewrite forallb_app in Hs. apply andb_true_iff in Hs as [_ Hx]. cbn in Hx.
    rewrite andb_true_r in Hx.
    apply (visible_around [c] s [x]); by apply visible_unit, ident_unit_visible.
Qed.
Lemma render_visible n p : well_named n = true → visible (renderNode n p).
Proof.
  assert (∀ s, visible (parens s)) as Hp.
  { intros s. by apply (visible_around [lparen] s [rparen]); apply visible_unit. }
  revert p. induction n as [name|n IH|l IHl r IHr|l IHl r IHr]; intros p Hn;
    cbn [well_named renderNode] in *; try (apply andb_true_iff in Hn as [Hnl Hnr]).
  all: match goal with |- context [if ?b then _ else _] => destruct b end; try apply Hp.
  - by apply identifier_visible.
  - destruct (IH 2 Hn) as [(a & Ha & Va) (b & Hb & Vb)]. split; [by exists bang|].
    exists b. split; [|done]. rewrite reverse_cons. by apply head_app_Some.
  - by apply visible_around; [apply IHl|apply IHr].
  - by apply visible_around; [apply IHl|apply IHr].
Qed.

(** Re-association changes neither the meaning nor the names nor the text. *)
Lemma evaluate_hang ctx n : ∀ lv acc,
  evaluateNode ctx (hang lv acc n) =
  match acc, lv with
  | Some a, LAnd => evaluateNode ctx a && evaluateNode ctx n
  | Some a, LOr => evaluateNode ctx a || evaluateNode ctx n
  | _, _ => evaluateNode ctx n
  end.
Proof.
  induction n as [name|n IH|l IHl r IHr|l IHl r IHr]; intros [] [a|]; cbn;
    rewrite ?IH, ?IHr, ?IHl; cbn; rewrite ?IHl, ?andb_assoc, ?orb_assoc; done.
Qed.
Lemma collect_union n out : collectNode n out = collectNode n ∅ ∪ out.
Proof.
  revert out. induction n as [name|n IH|l IHl r IHr|l IHl r IHr]; intros out; cbn; [set_solver|done|..];
    rewrite (IHr (collectNode l out)), (IHr (collectNode l ∅)), (IHl out); set_solver.
Qed.
Definition names (n : KeybindingWhenNode) : gset jstr := collectNode n ∅.
Lemma names_And l r : names (And l r) = names l ∪ names r.
Proof. unfold names. cbn. rewrite collect_union. apply (comm_L (∪)). Qed.
Lemma names_Or l r : names (Or l r) = names l ∪ names r.
Proof. apply names_And. Qed.
Lemma collect_hang n : ∀ lv acc,
  names (hang lv acc n) =
  match acc, lv with
  | Some a, LAnd | Some a, LOr => names a ∪ names n
  | _, _ => names n
  end.
Proof.
  induction n as [name|n IH|l IHl r IHr|l IHl r IHr]; intros lv acc.
  - destruct lv, acc; cbn [hang]; rewrite ?names_And, ?names_Or; done.
  - assert (names (Not (hang LAtom None n)) = names (Not n)) as E by apply (IH LAtom None).
    destruct lv, acc; cbn [hang]; rewrite ?names_And, ?names_Or, ?E; done.
  - destruct lv, acc; cbn [hang];
      rewrite ?names_Or, IHr, IHl, ?names_And, ?(assoc_L (∪)); done.
  - destruct lv, acc; cbn [hang];
      rewrite ?names_And, IHr, IHl, ?names_Or, ?(assoc_L (∪)); done.
Qed.
Lemma hang_shape n a :
  (∃ x y, hang LAnd (Some a) n = And x y) ∧ (∃ x y, hang LOr (Some a) n = Or x y).
Proof.
  revert a. induction n as [name|n IH|l IHl r IHr|l IHl r IHr]; intros a; cbn;
    split; try (by eexists _, _); apply IHr.
Qed.
(** Equal texts at the own level of two nodes of one operator are equal at every
    level. *)
Lemma render_and_levels x y l r :
  renderNode (And x y) 1 = renderNode (And l r) 1 →
  ∀ p, p ≤ 2 → renderNode (And x y) p = renderNode (And l r) p.
Proof.
  intros E [|[|[|p]]] Hp; [exact E|exact E| |lia].
  change (parens (renderNode (And x y) 1) = parens (renderNode (And l r) 1)). by rewrite E.
Qed.
Lemma render_or_levels x y l r :
  renderNode (Or x y) 0 = renderNode (Or l r) 0 →
  ∀ p, p ≤ 2 → renderNode (Or x y) p = renderNode (Or l r) p.
Proof.
  intros E [|[|[|p]]] Hp; [exact E| | |lia];
    change (parens (renderNode (Or x y) 0) = parens (renderNode (Or l r) 0)); by rewrite E.
Qed.

Record reprints (n : KeybindingWhenNode) : Prop := {
  reprints_first lv p : p ≤ 2 → renderNode (hang lv None n) p = renderNode n p;
  reprints_and a : renderNode (hang LAnd (Some a) n) 1
    = renderNode a 1 ++ u " && " ++ renderNode n 1;
  reprints_or a : renderNode (hang LOr (Some a) n) 0
    = renderNode a 0 ++ u " || " ++ renderNode n 0
}.
Lemma reprints_all n : reprints n.
Proof.
  induction n as [name|n IH|l IHl r IHr|l IHl r IHr].
  - split; [by intros []|done..].
  - assert (renderNode (hang LAtom None n) 2 = renderNode n 2) as E by (by apply IH).
    split; [intros [] p _|intros a|intros a]; cbn [hang renderNode PRECEDENCE]; by rewrite E.
  - destruct IHl as [Fl Al Ol], IHr as [Fr Ar Or_].
    assert (∀ p, p ≤ 2 →
      renderNode (hang LAnd (Some (hang LAnd None l)) r) p = renderNode (And l r) p) as E.
    { destruct (hang_shape r (hang LAnd None l)) as [(x & y & Ex) _].
      pose proof (Ar (hang LAnd None l)) as Er. rewrite Ex in *. apply render_and_levels.
      rewrite Er, Fl by lia. done. }
    split; [intros []; apply E| |]; intros a.
    + cbn [hang]. rewrite Ar, Al. by rewrite <-!app_assoc.
    + cbn [hang]. change (renderNode a 0 ++ u " || " ++
        renderNode (hang LAnd (Some (hang LAnd None l)) r) 0
        = renderNode a 0 ++ u " || " ++ renderNode (And l r) 0). by rewrite E by lia.
  - destruct IHl as [Fl Al Ol], IHr as [Fr Ar Or_].
    assert (∀ p, p ≤ 2 →
      renderNode (hang LOr (Some (hang LOr None l)) r) p = renderNode (Or l r) p) as E.
    { destruct (hang_shape r (hang LOr None l)) as [_ (x & y & Ex)].
      pose proof (Or_ (hang LOr None l)) as Er. rewrite Ex in *. apply render_or_levels.
      rewrite Er, Fl by lia. done. }
    split; [intros []; apply E| |]; intros a.
    + cbn [hang]. change (renderNode a 1 ++ u " && " ++
        renderNode (hang LOr (Some (hang LOr None l)) r) 1
        = renderNode a 1 ++ u " && " ++ renderNode (Or l r) 1). by rewrite E by lia.
    + cbn [hang]. rewrite Or_, Ol. by rewrite <-!app_assoc.
Qed.

Lemma derives_well_named l d s n : derives l d s n → well_named n = true.
Proof. induction 1; cbn; try done; by apply andb_true_iff. Qed.

(** ** The properties *)

(** C26: [parseWhen] accepts exactly the sentences of the grammar that nest at most
    [MAX_WHEN_DEPTH] deep, and returns the node the grammar gives them. *)
Theorem parseWhen_implements_grammar input n :
  (∃ c, parseWhen input = Some (Parsed n c)) ↔
  jtrim input ≠ [] ∧ derives LOr 0 (jtrim input) n.
Proof.
  destruct (parseWhen_cases input) as [[E ->]|[Hn ->]]; [naive_solver|].
  split.
  - intros (c & Ec%(inj Some)). split; [done|].
    pose proof (parseTrimmed_result PARSE_FUEL (jtrim input) parse_fuel_enough
      (jtrim_tail input)) as H. rewrite Ec in H. apply H.
  - intros [_ Hd]. exists (finish (jtrim input)).
    by rewrite (parseTrimmed_complete _ _ _ parse_fuel_enough Hd).
Qed.

(** On every input [parseWhen] returns: [null] for a blank text, a node whose
    names are identifiers and that accounts for the whole text, or an error whose
    position lies within the trimmed text. *)
Theorem parseWhen_total input :
  match parseWhen input with
  | None => jtrim input = []
  | Some (Parsed n c) => well_named n = true ∧ pos c = length (jtrim input) ∧ unread c = []
  | Some (ParseFailed e) => position e ≤ length (jtrim input)
  | Some OutOfFuel => False
  end.
Proof.
  destruct (parseWhen_cases input) as [[E ->]|[Hn ->]]; [done|].
  pose proof (parseTrimmed_result PARSE_FUEL (jtrim input) parse_fuel_enough
    (jtrim_tail input)) as H.
  destruct (parseTrimmed _ _) as [n c|e|]; [|done..].
  destruct H as [Hd ->]. by split; [eapply derives_well_named|].
Qed.

(** C27: Printing a when-clause gives a text that is the same for the clause with its chains
    of operators associated to the left, which has the same value in every context and the
    same names; and parsing the text gives that clause, as long as it nests less than the
    parser's limit of 64. A clause that nests deeper prints too, but [nesting_limit] shows
    that its text is refused. *)
Theorem when_print_parse_roundtrip n :
  well_named n = true →
  let text := whenAstToString (Some n) in
  (nesting 0 n < MAX_WHEN_DEPTH → parseWhen text = Some (Parsed (reassociate n) (finish text))) ∧
  (∀ ctx, evaluateWhen ctx (Some (reassociate n)) = evaluateWhen ctx (Some n)) ∧
  collectWhenIdentifiers (Some (reassociate n)) = collectWhenIdentifiers (Some n) ∧
  whenAstToString (Some (reassociate n)) = text.
Proof.
  intros Hn text.
  destruct (visible_jtrim text) as [Ht Ej]; [by apply render_visible|].
  repeat split.
  - intros Hd. destruct (parseWhen_cases text) as [[E _]|[_ ->]]; [congruence|]. rewrite Ej.
    rewrite (parseTrimmed_complete _ _ (reassociate n) parse_fuel_enough); [done|].
    apply (prints_all n Hn). lia.
  - intros ctx. apply (evaluate_hang ctx n LOr None).
  - apply (collect_hang n LOr None).
  - apply (reprints_all n). lia.
Qed.

Definition when_demo : KeybindingWhenNode :=
  And (Identifier (u "editorFocus"))
    (And (Not (Or (Identifier (u "a")) (Identifier (u "b_2")))) (Identifier (u "c"))).
Lemma when_print_parse_roundtrip_witness :
  whenAstToString (Some when_demo) = u "editorFocus && !(a || b_2) && c" ∧
  parseWhen (u "editorFocus && !(a || b_2) && c")
  = Some (Parsed (reassociate when_demo) (finish (u "editorFocus && !(a || b_2) && c"))).
Proof.
  split; [vm_compute; reflexivity|].
  apply (when_print_parse_roundtrip when_demo eq_refl).
  apply Nat.ltb_lt. vm_compute. reflexivity.
Defined.

(** The limit is sharp: a text that nests 65 deep is refused, although its tree
    prints. *)
Example nesting_limit :
  let deep := Nat.iter 65 Not (Identifier (u "a")) in
  well_named deep = true ∧
  parseWhen (whenAstToString (Some deep))
  = Some (ParseFailed {| message := u "expression nested too deep"; position := 65 |}).
Proof. vm_compute. split; reflexivity. Qed.
