(* ===== verification/KeyRules.v ===== *)
(** * Keybinding rules: defaults, resolution and dispatch

    [mergeWithDefaults] and [DEFAULT_KEYBINDINGS] of
    [apps/renderer/src/lib/default-keybindings.ts], [resolveRules],
    [menuAccelerators] and the edits of
    [apps/renderer/src/lib/keybindings-client-bus.ts], the document-level
    dispatcher of [hooks/use-keybinding-dispatch.ts] and the CodeMirror keymap of
    [lib/codemirror/]. Commands are strings of the source's literal union. *)
From S2P Require Import Prelude Js Keybindings WhenClause.

Record KeybindingRule : Type := {
  kr_key : jstr;
  kr_command : string;
  kr_when : option jstr
}.
#[export] Instance KeybindingRule_eq_dec : EqDecision KeybindingRule.
Proof. solve_decision. Defined.

Definition MAX_KEYBINDING_RULES : nat := 256.

(** A rule object is one of the built-in defaults or one of the user's: the
    source compares them by reference ([userRules.includes(rule)]). *)
Inductive rule_object : Type :=
| DefaultRule (r : KeybindingRule)
| UserRule (r : KeybindingRule).
Definition rule_of (o : rule_object) : KeybindingRule :=
  match o with DefaultRule r | UserRule r => r end.
Definition is_default (o : rule_object) : bool :=
  match o with DefaultRule _ => true | UserRule _ => false end.

Definition default_rule (p : string * string) : KeybindingRule :=
  {| kr_key := u p.1; kr_command := p.2; kr_when := None |}.

Definition DEFAULT_KEYBINDINGS (IS_MAC : bool) : list KeybindingRule :=
  default_rule <$>
  [("mod+n", "new-chat"); ("mod+alt+n", "new-chat-without-project");
   ("mod+o", "open-project"); ("mod+,", "settings"); ("mod+w", "close-tab");
   ("mod+b", "toggle-left-sidebar"); ("mod+alt+b", "toggle-right-sidebar");
   ("mod+j", "toggle-terminal"); ("mod+l", "focus-composer");
   ("mod+shift+]", "next-tab"); ("mod+shift+[", "prev-tab");
   ("mod+1", "select-tab-1"); ("mod+2", "select-tab-2"); ("mod+3", "select-tab-3");
   ("mod+4", "select-tab-4"); ("mod+5", "select-tab-5"); ("mod+6", "select-tab-6");
   ("mod+7", "select-tab-7"); ("mod+8", "select-tab-8"); ("mod+9", "select-last-tab");
   ("mod+t", "new-tab"); ("ctrl+tab", "next-chat"); ("ctrl+shift+tab", "prev-chat");
   ("mod+alt+]", "next-panel"); ("mod+alt+[", "prev-panel");
   ("ctrl+`", "focus-next-pane"); ("ctrl+shift+`", "focus-prev-pane");
   ("mod+k", "open-chat-switcher"); ("mod+p", "search-files");
   ("mod+/", "show-shortcuts"); ("mod+f", "find-in-chat");
   ("alt+p", "open-model-picker"); ("alt+t", "cycle-reasoning-effort");
   ("alt+o", "toggle-fast-mode");
   (if IS_MAC then "ctrl+o" else "ctrl+shift+o", "toggle-tool-details");
   (if IS_MAC then "ctrl+t" else "ctrl+shift+t", "toggle-task-list");
   ("mod+shift+k", "stop-background-tasks"); ("enter", "composer.submit");
   ("shift+enter", "composer.newline"); ("mod+enter", "composer.forceSubmit");
   ("shift+tab", "composer.togglePlanMode"); ("up", "composer.previousMessage");
   ("down", "composer.nextMessage"); ("alt+enter", "composer.queueSubmit");
   ("ctrl+u", "composer.deleteToStart"); ("ctrl+k", "composer.deleteToEnd");
   ("ctrl+backspace", "composer.deleteWord"); ("alt+backspace", "composer.deleteWord");
   ("ctrl+y", "composer.yank"); ("alt+y", "composer.yankPop");
   ("ctrl+s", "composer.stash");
   (if IS_MAC then "ctrl+r" else "alt+r", "composer.searchHistory");
   ("escape", "composer.interrupt"); ("mod+s", "editor.save");
   ("mod+shift+a", "editor.annotate")].

Definition APPLICATION_COMMANDS : list string :=
  ["search-files"; "new-chat"; "new-chat-without-project"; "open-project"; "settings";
   "toggle-left-sidebar"; "toggle-right-sidebar"; "toggle-terminal"; "focus-composer";
   "next-tab"; "prev-tab"; "select-tab-1"; "select-tab-2"; "select-tab-3";
   "select-tab-4"; "select-tab-5"; "select-tab-6"; "select-tab-7"; "select-tab-8";
   "select-last-tab"; "new-tab"; "next-chat"; "prev-chat"; "next-panel"; "prev-panel";
   "focus-next-pane"; "focus-prev-pane"; "open-chat-switcher"; "show-shortcuts";
   "find-in-chat"; "open-model-picker"; "cycle-reasoning-effort"; "toggle-fast-mode";
   "toggle-tool-details"; "toggle-task-list"; "stop-background-tasks"].

Record ResolvedRule : Type := {
  rr_rule : KeybindingRule;
  rr_shortcut : KeybindingShortcut;
  rr_whenAst : option KeybindingWhenNode;
  rr_isDefault : bool
}.

Section rules.
Context `{UnicodeCase} (IS_MAC : bool).

Definition mergeWithDefaults (userRules : list KeybindingRule) : list rule_object :=
  let overriddenCommands := kr_command <$> userRules in
  (DefaultRule <$> filter (λ d, kr_command d ∉ overriddenCommands) (DEFAULT_KEYBINDINGS IS_MAC))
  ++ (UserRule <$> userRules).

(** The clause of a rule; a clause that does not parse counts as absent. *)
Definition resolve_when (when : option jstr) : option KeybindingWhenNode :=
  match when with
  | Some text =>
      if decide (0 < length text) then
        match parseWhen text with
        | Some (Parsed n _) => Some n
        | _ => None
        end
      else None
  | None => None
  end.

Definition resolve_rule (o : rule_object) : option ResolvedRule :=
  shortcut ← parseKey (kr_key (rule_of o));
  Some {| rr_rule := rule_of o; rr_shortcut := shortcut;
          rr_whenAst := resolve_when (kr_when (rule_of o)); rr_isDefault := is_default o |}.

Definition resolveRules (userRules : list KeybindingRule) : list ResolvedRule :=
  omap resolve_rule (mergeWithDefaults userRules).

Definition has_when (r : KeybindingRule) : bool :=
  match kr_when r with Some text => bool_decide (0 < length text) | None => false end.

(** The last unconditional rule of a command, which [menuAccelerators] and
    [formatShortcut] look for. *)
Definition binding_of (resolved : list ResolvedRule) (command : string) : option ResolvedRule :=
  snd <$> list_find
    (λ c, kr_command (rr_rule c) = command ∧ has_when (rr_rule c) = false) (reverse resolved).

Definition MENU_COMMANDS : list string :=
  ["new-chat"; "open-project"; "settings"; "close-tab"; "toggle-left-sidebar";
   "toggle-right-sidebar"; "toggle-terminal"; "focus-composer"].

Fixpoint menuAccelerators (resolved : list ResolvedRule) (commands : list string)
  : result (list (string * option jstr)) type_error :=
  match commands with
  | [] => Success []
  | command :: rest =>
      accelerator ←! match binding_of resolved command with
                     | Some c => keyToElectronAccelerator (kr_key (rr_rule c))
                     | None => Success None
                     end;
      more ←! menuAccelerators resolved rest;
      Success ((command, accelerator) :: more)
  end.

Definition formatShortcut (resolved : list ResolvedRule) (id : string) : result jstr type_error :=
  match binding_of resolved id with
  | Some c => formatKeyForDisplay (kr_key (rr_rule c)) IS_MAC
  | None => Success []
  end.

(** The document's [keydown] handler: the command it dispatches. The context it
    evaluates clauses in is the empty object. *)
Definition fires (event : KeyEventLike) (r : ResolvedRule) : bool :=
  bool_decide (kr_command (rr_rule r) ∈ APPLICATION_COMMANDS)
  && matchesShortcut event (rr_shortcut r) IS_MAC
  && evaluateWhen (λ _, false) (rr_whenAst r).

Definition onKeyDown (ignored : bool) (event : KeyEventLike) (rules : list ResolvedRule)
  : option string :=
  if ignored then None
  else if decide (normalizeEventKey (ev_key event) ∈ [u "shift"; u "ctrl"; u "meta"; u "alt"])
  then None
  else
    hit ← list_find (λ r, fires event r = true) (reverse rules);
    Some (kr_command (rr_rule hit.2)).

(** ** CodeMirror *)

Definition CODEMIRROR_KEYS : list (jstr * jstr) :=
  [(u " ", u "Space"); (u "enter", u "Enter"); (u "tab", u "Tab");
   (u "backspace", u "Backspace"); (u "delete", u "Delete"); (u "escape", u "Escape");
   (u "up", u "ArrowUp"); (u "down", u "ArrowDown"); (u "left", u "ArrowLeft");
   (u "right", u "ArrowRight"); (u "home", u "Home"); (u "end", u "End");
   (u "pageup", u "PageUp"); (u "pagedown", u "PageDown")].

(** [Object] has length one, so the inherited constructor is returned as it is;
    the prototype object is no key of the table. *)
Definition baseKeyForCodeMirror (key : keyval) : option keyval :=
  match key with
  | KeyString s =>
      if decide (length s = 1) then Some key else KeyString <$> own_entry CODEMIRROR_KEYS s
  | KeyObjectConstructor => Some key
  | KeyObjectPrototype => None
  end.
Definition keyToCodeMirrorKey (shortcut : KeybindingShortcut) : option jstr :=
  let parts :=
    (if ks_modKey shortcut then [u "Mod"] else [])
    ++ (if ks_metaKey shortcut then [u "Cmd"] else [])
    ++ (if ks_ctrlKey shortcut then [u "Ctrl"] else [])
    ++ (if ks_altKey shortcut then [u "Alt"] else [])
    ++ (if ks_shiftKey shortcut then [u "Shift"] else []) in
  base ← baseKeyForCodeMirror (ks_key shortcut);
  Some (jjoin (u "-") (parts ++ [keyval_text base])).

(** One of the two loops of [buildComposerKeymap]: the keys seen so far and the
    bindings pushed, each a key and its command. *)
Fixpoint bind_rules (wanted : string → bool) (ordered : list ResolvedRule)
    (seenKeys : list jstr) (bindings : list (jstr * string))
  : list jstr * list (jstr * string) :=
  match ordered with
  | [] => (seenKeys, bindings)
  | r :: rest =>
      let command := kr_command (rr_rule r) in
      if wanted command then
        match keyToCodeMirrorKey (rr_shortcut r) with
        | Some key =>
            if decide (key ∈ seenKeys) then bind_rules wanted rest seenKeys bindings
            else bind_rules wanted rest (key :: seenKeys) (bindings ++ [(key, command)])
        | None => bind_rules wanted rest seenKeys bindings
        end
      else bind_rules wanted rest seenKeys bindings
  end.
Definition buildComposerKeymap (rules : list ResolvedRule) : list (jstr * string) :=
  let ordered := reverse rules in
  let composer := bind_rules (λ c, startsWith c "composer.") ordered [] [] in
  snd (bind_rules (λ c, bool_decide (c ∈ APPLICATION_COMMANDS)) ordered composer.1 composer.2).

(** ** Edits of the user's rules *)

Definition clamp (rules : list KeybindingRule) : list KeybindingRule :=
  if decide (MAX_KEYBINDING_RULES < length rules)
  then drop (length rules - MAX_KEYBINDING_RULES) rules else rules.
Inductive rule_edit : Type :=
| SetUserRules (rules : list KeybindingRule)
| ResetAll
| ResetCommand (command : string)
| AddRule (rule : KeybindingRule)
| ReplaceUserRuleAt (index : Z) (rule : KeybindingRule)
| RemoveUserRuleAt (index : Z).
(** The rules after an edit of [userRules]. *)
Definition edit_rules (userRules : list KeybindingRule) (e : rule_edit) : list KeybindingRule :=
  let in_bounds (i : Z) := (0 <=? i)%Z && (i <? Z.of_nat (length userRules))%Z in
  match e with
  | SetUserRules rules => clamp rules
  | ResetAll => clamp []
  | ResetCommand command => clamp (filter (λ r, kr_command r ≠ command) userRules)
  | AddRule rule => clamp (userRules ++ [rule])
  | ReplaceUserRuleAt i rule =>
      if in_bounds i then clamp (<[Z.to_nat i := rule]> userRules) else userRules
  | RemoveUserRuleAt i =>
      if in_bounds i then clamp (delete (Z.to_nat i) userRules) else userRules
  end.
End rules.

(** ** Double escape *)

(** [DoubleEscape] of [apps/renderer/src/composer/double-escape.ts], for documents
    of type [D] compared by reference. *)
Section double_escape.
Context {D : Type} `{EqDecision D}.
Definition escape_state : Type := option (Z * D).
Definition press (windowMs : Z) (first : escape_state) (doc : D) (now : Z)
  : bool * escape_state :=
  match first with
  | Some (at_, doc0) =>
      if bool_decide (doc0 = doc) && (0 <=? now - at_)%Z && (now - at_ <=? windowMs)%Z
      then (true, None) else (false, Some (now, doc))
  | None => (false, Some (now, doc))
  end.
Fixpoint presses (windowMs : Z) (first : escape_state) (l : list (D * Z)) : list bool :=
  match l with
  | [] => []
  | (doc, now) :: rest =>
      let r := press windowMs first doc now in r.1 :: presses windowMs r.2 rest
  end.
End double_escape.
