(* ===== verification/KeyRulesProps.v ===== *)
(** * Keybindings: recording, resolution and dispatch are correct

    The key string recorded from a keyboard event parses to a shortcut that
    matches exactly the events of that chord, and a rule with it dispatches its
    command; the default table is well formed on every platform. *)
From Stdlib Require Import Ascii.
From S2P Require Import Prelude Js Keybindings WhenClause WhenClauseProps KeyRules.

Section keys.
Context `{UnicodeCase}.

(** ** Lower case on ASCII *)

Lemma lower_unit_idemp c : lower_unit (lower_unit c) = lower_unit c.
Proof.
  unfold lower_unit, is_upper, in_range.
  destruct (N.leb_spec 65 c), (N.leb_spec c 90); cbn; try done;
    destruct (N.leb_spec 65 c), (N.leb_spec c 90); cbn; try done; try lia.
  destruct (N.leb_spec 65 (c + 32)), (N.leb_spec (c + 32) 90); cbn; try done; lia.
Qed.
Lemma lower_unit_ascii c : is_ascii c = true → is_ascii (lower_unit c) = true.
Proof.
  unfold is_ascii, lower_unit, is_upper, in_range. rewrite !N.ltb_lt.
  destruct (N.leb_spec 65 c), (N.leb_spec c 90); cbn; lia.
Qed.
Lemma toLowerCase_ascii s :
  forallb is_ascii s = true →
  forallb is_ascii (toLowerCase s) = true ∧ toLowerCase (toLowerCase s) = toLowerCase s.
Proof.
  intros Hs. unfold toLowerCase at 1 3 4. rewrite Hs.
  assert (forallb is_ascii (map lower_unit s) = true) as Hm.
  { induction s as [|c s IH]; [done|]. cbn in *. apply andb_true_iff in Hs as [Hc Hs].
    apply andb_true_iff. split; [by apply lower_unit_ascii|by apply IH]. }
  split; [done|]. unfold toLowerCase. rewrite Hm. rewrite map_map. apply map_ext.
  apply lower_unit_idemp.
Qed.

Lemma physical_key_ascii code c : physical_key code = Some c → is_ascii c = true.
Proof.
  unfold physical_key. intros E. repeat (split_match; try done); injection E as <-;
    unfold is_upper, is_digit, in_range, is_ascii in *;
    repeat match goal with Hb : _ && _ = true |- _ => apply andb_true_iff in Hb as [] end;
    rewrite ?N.leb_le in *; apply N.ltb_lt; lia.
Qed.
(** The base key of an event with an ASCII [key] is in lower case. *)
Lemma eventBaseKey_lower ev :
  forallb is_ascii (ev_key ev) = true → toLowerCase (eventBaseKey ev) = eventBaseKey ev.
Proof.
  intros Hk. unfold eventBaseKey.
  destruct (if ev_altKey ev then _ else _) as [c|] eqn:Hp.
  - destruct (ev_altKey ev); [|done]. apply bind_Some in Hp as (code & _ & Hp).
    apply toLowerCase_ascii. cbn. by rewrite (physical_key_ascii _ _ Hp).
  - unfold normalizeEventKey. destruct (toLowerCase_ascii _ Hk) as [_ E].
    repeat case_decide; done.
Qed.

(** ** Splitting a joined key string *)

Definition no_plus (s : jstr) : bool := forallb (λ c, negb (N.eqb c plus)) s.

Lemma split_plus_run i last t r cur :
  no_plus t = true → split_plus i last (t ++ r) cur = split_plus (i + length t) last r (cur ++ t).
Proof.
  revert i cur. induction t as [|c t IH]; intros i cur Ht.
  - cbn. by rewrite Nat.add_0_r, app_nil_r.
  - cbn in Ht. apply andb_true_iff in Ht as [Hc%negb_true_iff Ht].
    cbn [split_plus app length]. rewrite Hc. cbn [andb]. rewrite IH by done.
    rewrite <-app_assoc. f_equal. lia.
Qed.
(** A base key as it may end a key string: [+] itself, or without a [+]. *)
Definition base_ok (base : jstr) : Prop := base = [plus] ∨ (no_plus base = true ∧ base ≠ []).
Definition modifier_ok (t : jstr) : Prop := no_plus t = true ∧ t ≠ [].

Lemma split_plus_base i base :
  base_ok base → split_plus i (i + length base - 1) base [] = [base].
Proof.
  intros [->|[Hn Hb]].
  - cbn [split_plus length]. replace (Nat.ltb i (i + 1 - 1)) with false; [by rewrite andb_false_r|].
    symmetry. apply Nat.ltb_ge. lia.
  - rewrite <-(app_nil_r base) at 2. by rewrite split_plus_run.
Qed.
Lemma split_plus_join ms base : ∀ i,
  Forall modifier_ok ms → base_ok base →
  split_plus i (i + length (jjoin [plus] (ms ++ [base])) - 1) (jjoin [plus] (ms ++ [base])) []
  = ms ++ [base].
Proof.
  induction ms as [|m ms IH]; intros i Hms Hb; [by apply split_plus_base|].
  inversion Hms as [|? ? [Hm Hne] Hms']; subst.
  assert (jjoin [plus] ((m :: ms) ++ [base]) = m ++ plus :: jjoin [plus] (ms ++ [base])) as ->
    by (by destruct ms).
  set (rest := jjoin [plus] (ms ++ [base])) in *.
  assert (0 < length rest) as Hr.
  { unfold rest. destruct ms as [|m' ms']; cbn; [|destruct (ms' ++ [base]) eqn:E;
      [by destruct ms'|rewrite !length_app; cbn; lia]].
    destruct Hb as [->|[_ Hb]]; [cbn; lia|destruct base; [done|cbn; lia]]. }
  rewrite split_plus_run by done. cbn [split_plus].
  assert (0 < length m) by (destruct m; [done|cbn; lia]).
  rewrite length_app. cbn [length].
  replace (N.eqb plus plus) with true by done.
  replace (Nat.ltb 0 (i + length m)) with true by (symmetry; apply Nat.ltb_lt; lia).
  replace (Nat.ltb (i + length m) (i + (length m + S (length rest)) - 1)) with true
    by (symmetry; apply Nat.ltb_lt; lia).
  cbn [andb app]. f_equal.
  replace (i + (length m + S (length rest)) - 1) with (S (i + length m) + length rest - 1) by lia.
  by apply IH.
Qed.

(** ** Recording and parsing *)

Definition event_modifier_names : list jstr :=
  [u "mod"; u "ctrl"; u "meta"; u "alt"; u "shift"].
Lemma read_modifier t rest k :
  t ∈ event_modifier_names → read_tokens (t :: rest) None k = read_tokens rest None (set_modifier t k).
Proof.
  intros Ht. unfold event_modifier_names in Ht.
  repeat (apply elem_of_cons in Ht as [->|Ht]; [reflexivity|]). by apply elem_of_nil in Ht.
Qed.

(** The base keys a recorded string can carry: a lower-case key that is neither
    white space at its ends, nor holds a [+] beside others, nor is a modifier, an
    alias or an inherited name. *)
Definition typeable (base : jstr) : bool :=
  bool_decide (base = [plus] ∨ (no_plus base = true ∧ base ≠ []))
  && bool_decide (base ∉ MODIFIER_TOKENS)
  && bool_decide (base ∉ KEY_ALIASES.*1)
  && bool_decide (base ∉ [u "constructor"; u "__proto__"])
  && bool_decide (jtrim base = base).

Lemma own_entry_None table k : k ∉ table.*1 → own_entry table k = None.
Proof.
  intros Hk. unfold own_entry. destruct (list_find _ table) as [[i p]|] eqn:E; [|done].
  apply list_find_Some in E as (Hi & Hp & _). exfalso. apply Hk. rewrite <-Hp.
  apply list_elem_of_fmap. exists p. split; [done|]. by eapply list_elem_of_lookup_2.
Qed.
Lemma normalizeKey_typeable base :
  typeable base = true → toLowerCase base = base → normalizeKey base = KeyString base.
Proof.
  unfold typeable. rewrite !andb_true_iff, !bool_decide_eq_true.
  intros [[[[_ _] Ha] Hp] _] Hl. unfold normalizeKey. rewrite Hl.
  rewrite !decide_False by (intros ->; apply Hp; set_solver).
  by rewrite own_entry_None.
Qed.

Definition recorded (ev : KeyEventLike) (isMac : bool) : KeybindingShortcut :=
  {| ks_key := KeyString (eventBaseKey ev);
     ks_modKey := if isMac then ev_metaKey ev else ev_ctrlKey ev;
     ks_metaKey := negb isMac && ev_metaKey ev;
     ks_ctrlKey := isMac && ev_ctrlKey ev;
     ks_altKey := ev_altKey ev;
     ks_shiftKey := ev_shiftKey ev |}.

Lemma event_modifiers_spec ev isMac :
  Forall modifier_ok (event_modifiers ev isMac) ∧
  Forall (λ t, headed not_space t) (event_modifiers ev isMac) ∧
  (∀ base, read_tokens (event_modifiers ev isMac ++ [base]) None (no_modifiers (KeyString []))
    = read_tokens [base] None ((recorded ev isMac) <| ks_key := KeyString [] |>)).
Proof.
  destruct ev as [key code [] [] [] []], isMac; cbn [event_modifiers ev_metaKey ev_ctrlKey
    ev_altKey ev_shiftKey app]; (split; [|split]);
    try (intros base; rewrite ?read_modifier by (unfold event_modifier_names; set_solver);
         reflexivity);
    repeat constructor; try done; by intros ? [= <-].
Qed.

Lemma jjoin_snoc ms base :
  ∃ pre, jjoin [plus] (ms ++ [base]) = pre ++ base ∧ (ms = [] → pre = []) ∧
    ∀ m r, ms = m :: r → ∃ pre', pre = m ++ pre'.
Proof.
  induction ms as [|m ms IH]; [by exists []|].
  destruct IH as (pre & E & _ & _). exists (m ++ plus :: pre).
  split; [|split; [done|]].
  - assert (jjoin [plus] ((m :: ms) ++ [base]) = m ++ plus :: jjoin [plus] (ms ++ [base])) as ->
      by (by destruct ms). by rewrite E, <-app_assoc.
  - intros ? ? [= <- <-]. by eexists.
Qed.
Lemma jtrim_headed s : jtrim s = s → headed not_space s ∧ headed not_space (reverse s).
Proof.
  intros E. unfold jtrim in E.
  assert (headed not_space (reverse s)) as Hr.
  { rewrite <-E, reverse_involutive. apply drop_space_headed. }
  split; [|done]. intros ch Hch. destruct s as [|c s]; [done|]. injection Hch as ->.
  cbn [drop_space] in E. destruct (is_space ch) eqn:Hc; [|unfold not_space; by rewrite Hc].
  assert (∀ t, length (drop_space t) ≤ length t) as Hlen.
  { induction t as [|x t IH]; cbn; [done|]. destruct (is_space x); cbn; lia. }
  apply (f_equal length) in E. rewrite length_reverse in E.
  pose proof (Hlen (reverse (drop_space s))) as H1. rewrite length_reverse in H1.
  pose proof (Hlen s). cbn in E. lia.
Qed.

Lemma parse_recorded ev isMac s :
  forallb is_ascii (ev_key ev) = true → typeable (eventBaseKey ev) = true →
  keyStringFromEvent ev isMac = Some s → parseKey s = Some (recorded ev isMac).
Proof.
  intros Ha Ht. set (base := eventBaseKey ev) in *. unfold keyStringFromEvent. fold base.
  case_decide as Hn; [done|]. intros [= <-].
  pose proof (normalizeKey_typeable base Ht (eventBaseKey_lower ev Ha)) as Hnorm.
  pose proof Ht as Ht'. unfold typeable in Ht'. rewrite !andb_true_iff, !bool_decide_eq_true in Ht'.
  destruct Ht' as [[[[Hb Hm] _] _] Htrim].
  destruct (event_modifiers_spec ev isMac) as (Hok & Hhead & Hread).
  destruct (jjoin_snoc (event_modifiers ev isMac) base) as (pre & E & Hpre & Hfirst).
  destruct (jtrim_headed base Htrim) as [Hb1 Hb2].
  assert (base ≠ []) as Hbne by (destruct Hb as [->|[_ Hb]]; done).
  assert (jtrim (jjoin [plus] (event_modifiers ev isMac ++ [base]))
    = jjoin [plus] (event_modifiers ev isMac ++ [base])) as Ej.
  { rewrite E. apply jtrim_id.
    - destruct (event_modifiers ev isMac) as [|m r]; [by rewrite Hpre|].
      destruct (Hfirst m r eq_refl) as [pre' ->]. apply Forall_inv in Hhead, Hok.
      intros ch Hch. destruct m as [|c m]; [by destruct Hok|]. by apply Hhead.
    - rewrite reverse_app. intros ch Hch. apply Hb2.
      destruct (reverse base) as [|c r] eqn:Hr; [|done].
      apply (f_equal reverse) in Hr. by rewrite reverse_involutive in Hr. }
  unfold parseKey. rewrite Ej.
  case_decide as He; [rewrite E in He; by apply app_eq_nil in He as []|].
  pose proof (split_plus_join (event_modifiers ev isMac) base 0 Hok Hb) as Hs.
  cbn [Nat.add] in Hs. rewrite Hs, Hread. cbn [read_tokens]. rewrite Hnorm.
  rewrite decide_False by congruence. rewrite decide_False by done. done.
Qed.

(** Two events of one chord: the same modifiers and the same base key. *)
Definition same_chord (ev ev' : KeyEventLike) : Prop :=
  ev_metaKey ev' = ev_metaKey ev ∧ ev_ctrlKey ev' = ev_ctrlKey ev ∧
  ev_altKey ev' = ev_altKey ev ∧ ev_shiftKey ev' = ev_shiftKey ev ∧
  eventBaseKey ev' = eventBaseKey ev.

Lemma matches_recorded ev ev' isMac :
  matchesShortcut ev' (recorded ev isMac) isMac = true ↔ same_chord ev ev'.
Proof.
  unfold matchesShortcut, same_chord, recorded. cbn.
  rewrite !andb_true_iff, !Bool.eqb_true_iff, bool_decide_eq_true.
  destruct isMac, ev as [k c [] [] a sh]; cbn; intuition congruence.
Qed.

(** ** The rules *)

Context (IS_MAC : bool).

Lemma resolveRules_snoc us r :
  ∃ ds, resolveRules IS_MAC (us ++ [r]) = ds ++ option_list (resolve_rule (UserRule r)).
Proof.
  unfold resolveRules, mergeWithDefaults. rewrite (fmap_app UserRule), app_assoc, omap_app.
  eexists. f_equal.
Qed.
Lemma clamp_snoc us r : ∃ us', clamp (us ++ [r]) = us' ++ [r].
Proof.
  unfold clamp. case_decide as Hl; [|by exists us].
  exists (drop (length (us ++ [r]) - MAX_KEYBINDING_RULES) us).
  rewrite length_app in *. cbn [length] in *. unfold MAX_KEYBINDING_RULES in *.
  rewrite drop_app_le by lia. done.
Qed.
Lemma clamp_length rules : length (clamp rules) ≤ MAX_KEYBINDING_RULES.
Proof. unfold clamp. case_decide; [rewrite length_drop; lia|lia]. Qed.

Lemma fires_recorded ev ev' s command :
  forallb is_ascii (ev_key ev) = true → typeable (eventBaseKey ev) = true →
  keyStringFromEvent ev IS_MAC = Some s → command ∈ APPLICATION_COMMANDS → same_chord ev ev' →
  ∃ rr, resolve_rule (UserRule {| kr_key := s; kr_command := command; kr_when := None |}) = Some rr
    ∧ fires IS_MAC ev' rr = true ∧ kr_command (rr_rule rr) = command.
Proof.
  intros Ha Ht Hs Hc Hch. unfold resolve_rule. cbn [rule_of kr_key].
  rewrite (parse_recorded ev IS_MAC s) by done. cbn. eexists. split; [done|].
  split; [|done]. unfold fires. cbn. rewrite (proj2 (matches_recorded ev ev' IS_MAC)) by done.
  by rewrite bool_decide_true.
Qed.
End keys.

(** C35: the key string recorded from a keyboard event with an ASCII key parses to a
    shortcut that matches exactly the events of the same chord, on either platform, when
    the event's base key can be written at the end of a key string: [typeable] leaves out
    white space, such as the space bar's ([space_recorded] shows that its string does not
    parse back), a plus sign beside other characters, the names of modifiers and aliases,
    and inherited names. *)
Theorem recorded_key_roundtrip `{UnicodeCase} ev isMac s :
  forallb is_ascii (ev_key ev) = true → typeable (eventBaseKey ev) = true →
  keyStringFromEvent ev isMac = Some s →
  ∃ shortcut, parseKey s = Some shortcut ∧
    ∀ ev', matchesShortcut ev' shortcut isMac = true ↔ same_chord ev ev'.
Proof.
  intros Ha Ht Hs. exists (recorded ev isMac). split; [by apply parse_recorded|].
  intros ev'. apply matches_recorded.
Qed.

(** After the settings editor records a chord for an application command, the
    document's handler dispatches that command on the chord, whatever the other
    rules are and however many the cap dropped. *)
Theorem recorded_rule_dispatches `{UnicodeCase} (isMac : bool) userRules ev ev' s command :
  forallb is_ascii (ev_key ev) = true → typeable (eventBaseKey ev) = true →
  keyStringFromEvent ev isMac = Some s → command ∈ APPLICATION_COMMANDS → same_chord ev ev' →
  normalizeEventKey (ev_key ev') ∉ [u "shift"; u "ctrl"; u "meta"; u "alt"] →
  let rule := {| kr_key := s; kr_command := command; kr_when := None |} in
  onKeyDown isMac false ev' (resolveRules isMac (edit_rules userRules (AddRule rule)))
  = Some command.
Proof.
  intros Ha Ht Hs Hc Hch Hmod rule.
  destruct (fires_recorded isMac ev ev' s command) as (rr & Err & Hf & Hcmd); [done..|].
  unfold edit_rules. destruct (clamp_snoc userRules rule) as [us ->].
  destruct (resolveRules_snoc isMac us rule) as [ds ->]. unfold rule. rewrite Err.
  unfold onKeyDown. rewrite decide_False by done.
  change (option_list (Some rr)) with [rr].
  rewrite reverse_snoc. cbn [list_find].
  destruct (decide (fires isMac ev' rr = true)) as [_|]; [|done]. cbn. by rewrite Hcmd.
Qed.

(** ** Concrete events *)

#[export] Instance ascii_only : UnicodeCase := {| unicode_lower := id; unicode_upper := id |}.
Definition key_event (key : string) (code : option string) (meta ctrl alt shift : bool) : KeyEventLike :=
  {| ev_key := u key; ev_code := u <$> code; ev_metaKey := meta; ev_ctrlKey := ctrl;
     ev_altKey := alt; ev_shiftKey := shift |}.

Definition cmd_shift_n : KeyEventLike := key_event "N" (Some "KeyN") true false false true.
Lemma recorded_key_roundtrip_witness :
  keyStringFromEvent cmd_shift_n true = Some (u "mod+shift+n") ∧
  ∃ shortcut, parseKey (u "mod+shift+n") = Some shortcut ∧
    ∀ ev', matchesShortcut ev' shortcut true = true ↔ same_chord cmd_shift_n ev'.
Proof.
  split; [reflexivity|].
  apply (recorded_key_roundtrip cmd_shift_n true); vm_compute; reflexivity.
Defined.
Lemma recorded_rule_dispatches_witness :
  onKeyDown true false cmd_shift_n
    (resolveRules true (edit_rules []
      (AddRule {| kr_key := u "mod+shift+n"; kr_command := "search-files"; kr_when := None |})))
  = Some "search-files".
Proof.
  apply (recorded_rule_dispatches true [] cmd_shift_n cmd_shift_n (u "mod+shift+n") "search-files");
    [vm_compute; reflexivity..|by apply (bool_decide_unpack _)|done|by apply (bool_decide_unpack _)].
Defined.

(** ** The default table *)

Definition chord_of (isMac : bool) (k : KeybindingShortcut) : keyval * (bool * bool * bool * bool) :=
  (ks_key k, (ks_metaKey k || (ks_modKey k && isMac), ks_ctrlKey k || (ks_modKey k && negb isMac),
              ks_altKey k, ks_shiftKey k)).

Lemma matches_chord `{UnicodeCase} ev k isMac :
  matchesShortcut ev k isMac = true ↔
  chord_of isMac k
  = (KeyString (eventBaseKey ev), (ev_metaKey ev, ev_ctrlKey ev, ev_altKey ev, ev_shiftKey ev)).
Proof.
  unfold matchesShortcut, chord_of. rewrite !andb_true_iff, !Bool.eqb_true_iff, bool_decide_eq_true.
  intuition congruence.
Qed.

(** The pairs of rules, the earlier one first, that one chord triggers. *)
Fixpoint conflicts `{UnicodeCase} (isMac : bool) (rules : list ResolvedRule) : list (string * string) :=
  match rules with
  | [] => []
  | r :: rest =>
      ((λ r', (kr_command (rr_rule r), kr_command (rr_rule r'))) <$>
       filter (λ r', chord_of isMac (rr_shortcut r') = chord_of isMac (rr_shortcut r)) rest)
      ++ conflicts isMac rest
  end.
Lemma conflicts_spec `{UnicodeCase} isMac rules i j r1 r2 :
  rules !! i = Some r1 → rules !! j = Some r2 → (i < j)%nat →
  chord_of isMac (rr_shortcut r2) = chord_of isMac (rr_shortcut r1) →
  (kr_command (rr_rule r1), kr_command (rr_rule r2)) ∈ conflicts isMac rules.
Proof.
  revert i j. induction rules as [|r rest IH]; intros [|i] [|j] Hi Hj Hij Hc; try done; try lia; cbn in *.
  - injection Hi as ->. apply elem_of_app. left. apply list_elem_of_fmap. exists r2. split; [done|].
    apply list_elem_of_filter. split; [done|]. by eapply list_elem_of_lookup_2.
  - apply elem_of_app. right. apply (IH i j); [done..|lia|done].
Qed.
(** The chords two default rules share: none on macOS. *)
Definition shared_chords (isMac : bool) : list (string * string) :=
  if isMac then [] else [("open-chat-switcher", "composer.deleteToEnd"); ("composer.stash", "editor.save")].
Lemma default_conflicts `{UnicodeCase} isMac : conflicts isMac (resolveRules isMac []) = shared_chords isMac.
Proof. apply (bool_decide_unpack _). destruct isMac; vm_compute; exact I. Qed.
Lemma defaults_resolve `{UnicodeCase} isMac :
  rr_rule <$> resolveRules isMac [] = DEFAULT_KEYBINDINGS isMac.
Proof. apply (bool_decide_unpack _). destruct isMac; vm_compute; exact I. Qed.

(** The composer's bindings come before the application's. *)
Lemma composer_binds_first `{UnicodeCase} isMac :
  let commands := (buildComposerKeymap (resolveRules isMac [])).*2 in
  filter (λ c, startsWith c "composer." = true) commands
  ++ filter (λ c, startsWith c "composer." ≠ true) commands = commands
  ∧ "composer.deleteToEnd" ∈ commands.
Proof. split; apply (bool_decide_unpack _); destruct isMac; vm_compute; exact I. Qed.

(** C36: every default rule resolves. On macOS no keyboard event satisfies the shortcuts of
    two default rules, of whatever context; elsewhere one that does is Ctrl+K, of the chat
    switcher and of the composer's deletion to the end of the line, or Ctrl+S, of the
    composer's stash and of the file editor's save, which have different focus. While the
    composer has the focus its keymap asks its own rules, the deletion among them, before
    those of the application. *)
Theorem defaults_unambiguous `{UnicodeCase} isMac :
  rr_rule <$> resolveRules isMac [] = DEFAULT_KEYBINDINGS isMac ∧
  (∀ ev i j r1 r2,
    resolveRules isMac [] !! i = Some r1 → resolveRules isMac [] !! j = Some r2 →
    matchesShortcut ev (rr_shortcut r1) isMac = true →
    matchesShortcut ev (rr_shortcut r2) isMac = true →
    i = j ∨ isMac = false ∧ ∃ c1 c2,
      (c1, c2) ∈ [("open-chat-switcher", "composer.deleteToEnd"); ("composer.stash", "editor.save")]
      ∧ ({[kr_command (rr_rule r1); kr_command (rr_rule r2)]} : gset string) = {[c1; c2]}) ∧
  let commands := (buildComposerKeymap (resolveRules isMac [])).*2 in
  filter (λ c, startsWith c "composer." = true) commands
  ++ filter (λ c, startsWith c "composer." ≠ true) commands = commands
  ∧ "composer.deleteToEnd" ∈ commands.
Proof.
  split; [apply defaults_resolve|]. split; [|apply composer_binds_first].
  intros ev i j r1 r2 H1 H2 M1%matches_chord M2%matches_chord.
  assert (Hshared : ∀ i j r1 r2, resolveRules isMac [] !! i = Some r1 → resolveRules isMac [] !! j = Some r2 →
    (i < j)%nat → chord_of isMac (rr_shortcut r2) = chord_of isMac (rr_shortcut r1) →
    isMac = false ∧ (kr_command (rr_rule r1), kr_command (rr_rule r2))
      ∈ [("open-chat-switcher", "composer.deleteToEnd"); ("composer.stash", "editor.save")]).
  { intros i' j' r1' r2' H1' H2' Hlt Hc. pose proof (conflicts_spec _ _ _ _ _ _ H1' H2' Hlt Hc) as Hin.
    rewrite default_conflicts in Hin. unfold shared_chords in Hin. destruct isMac; [by apply elem_of_nil in Hin|done]. }
  destruct (Nat.lt_trichotomy i j) as [Hlt|[?|Hlt]]; [right|by left|right].
  - destruct (Hshared i j r1 r2 H1 H2 Hlt) as [? Hin]; [congruence|]. split; [done|].
    by eexists _, _.
  - destruct (Hshared j i r2 r1 H2 H1 Hlt) as [? Hin]; [congruence|]. split; [done|].
    eexists _, _. split; [exact Hin|]. apply (comm_L (∪)).
Qed.
Lemma defaults_unambiguous_witness :
  ∃ r, resolveRules true [] !! 0%nat = Some r
    ∧ matchesShortcut (key_event "n" None true false false false) (rr_shortcut r) true = true
    ∧ (0%nat = 0%nat ∨ true = false).
Proof.
  eexists. split; [vm_compute; reflexivity|]. split; [vm_compute; reflexivity|].
  destruct (proj1 (proj2 (defaults_unambiguous true)) (key_event "n" None true false false false) 0%nat 0%nat
    {| rr_rule := default_rule ("mod+n", "new-chat");
       rr_shortcut := (no_modifiers (KeyString (u "n"))) <| ks_modKey := true |>;
       rr_whenAst := None; rr_isDefault := true |} {| rr_rule := default_rule ("mod+n", "new-chat");
       rr_shortcut := (no_modifiers (KeyString (u "n"))) <| ks_modKey := true |>;
       rr_whenAst := None; rr_isDefault := true |}) as [?|[? _]];
    [vm_compute; reflexivity..|by left|by right].
Defined.

(** The chat switcher's default chord off macOS: the document dispatches it, the composer's
    keymap takes it as its deletion. *)
Example ctrl_k_deletes_in_composer :
  let ev := key_event "k" None false true false false in
  onKeyDown false false ev (resolveRules false []) = Some "open-chat-switcher" ∧
  (λ r, kr_command (rr_rule r)) <$>
    filter (λ r, matchesShortcut ev (rr_shortcut r) false = true) (resolveRules false [])
  = ["open-chat-switcher"; "composer.deleteToEnd"].
Proof. vm_compute. split; reflexivity. Qed.

(** ** Bounds of the rule list *)

(** The edits keep at most [MAX_KEYBINDING_RULES] rules, the latest ones. *)
Lemma edit_rules_bounded userRules e :
  length userRules ≤ MAX_KEYBINDING_RULES →
  length (edit_rules userRules e) ≤ MAX_KEYBINDING_RULES.
Proof.
  intros Hl. destruct e; cbn -[clamp]; try apply clamp_length; by case_match; try apply clamp_length.
Qed.
Lemma clamp_suffix rules : ∃ old, rules = old ++ clamp rules.
Proof.
  unfold clamp. case_decide; [|by exists []].
  exists (take (length rules - MAX_KEYBINDING_RULES) rules). by rewrite take_drop.
Qed.

(** ** Divergences *)

(** The alias [spc] is resolved once, to the word "space", which no event and
    no accelerator table uses, while [space] is resolved to the key itself: a rule
    written with [spc] never fires on the space bar and has no accelerator. *)
Theorem spc_alias_dead `{UnicodeCase} isMac ev :
  parseKey (u "mod+space") = Some ((no_modifiers (KeyString (u " "))) <| ks_modKey := true |>) ∧
  parseKey (u "mod+spc") = Some ((no_modifiers (KeyString (u "space"))) <| ks_modKey := true |>) ∧
  keyToElectronAccelerator (u "mod+spc") = Success None ∧
  (ev_key ev = u " " → ev_code ev = Some (u "Space") →
   matchesShortcut ev ((no_modifiers (KeyString (u "space"))) <| ks_modKey := true |>) isMac = false).
Proof.
  split; [reflexivity|]. split; [reflexivity|]. split; [reflexivity|].
  intros Hk Hc. apply not_true_is_false. rewrite matches_chord. unfold chord_of. cbn.
  unfold eventBaseKey. rewrite Hk, Hc. destruct (ev_altKey ev); cbn; discriminate.
Qed.
Lemma spc_alias_dead_witness :
  matchesShortcut (key_event " " (Some "Space") true false false false)
    ((no_modifiers (KeyString (u "space"))) <| ks_modKey := true |>) true = false.
Proof.
  apply (spc_alias_dead true (key_event " " (Some "Space") true false false false)); reflexivity.
Defined.

(** The space bar is recorded as a text that does not parse back to it. *)
Example space_recorded :
  let ev := key_event " " (Some "Space") true false false false in
  keyStringFromEvent ev true = Some (u "mod+ ") ∧
  parseKey (u "mod+ ") = Some (no_modifiers (KeyString (u "mod+"))) ∧
  keyStringFromEvent (key_event " " None false false false false) true = Some (u " ") ∧
  parseKey (u " ") = None.
Proof. vm_compute. repeat split. Qed.

(** One-unit keys are passed to Electron as they are, [Space] and [Plus] never. *)
Example electron_space_plus :
  keyToElectronAccelerator (u "mod+space") = Success (Some (u "CmdOrCtrl+ ")) ∧
  keyToElectronAccelerator (u "mod++") = Success (Some (u "CmdOrCtrl++")).
Proof. vm_compute. repeat split. Qed.

(** A rule whose base key is the word [constructor] makes the accelerators throw. *)
Example constructor_throws :
  let us := [{| kr_key := u "mod+constructor"; kr_command := "settings"; kr_when := None |}] in
  menuAccelerators (resolveRules true us) MENU_COMMANDS = Failure TypeError.
Proof. vm_compute. reflexivity. Qed.

(** A user rule removes every default of its command. *)
Example user_rule_drops_defaults :
  let us := [{| kr_key := u "ctrl+w"; kr_command := "composer.deleteWord"; kr_when := None |}] in
  length (filter (λ r, kr_command (rr_rule r) = "composer.deleteWord") (resolveRules true [])) = 2 ∧
  length (filter (λ r, kr_command (rr_rule r) = "composer.deleteWord") (resolveRules true us)) = 1.
Proof. vm_compute. split; reflexivity. Qed.

(** ** The composer's keymap binds each key once *)

Lemma bind_rules_spec wanted ordered : ∀ seen bindings,
  NoDup (bindings.*1) → (∀ k, k ∈ bindings.*1 → k ∈ seen) →
  let r := bind_rules wanted ordered seen bindings in
  NoDup (r.2.*1) ∧ (∀ k, k ∈ r.2.*1 → k ∈ r.1) ∧ ∃ more, r.2 = bindings ++ more.
Proof.
  induction ordered as [|r rest IH]; intros seen bindings Hnd Hin; cbn.
  { split; [done|]. split; [done|]. exists []. by rewrite app_nil_r. }
  destruct (wanted _); [|by apply IH]. destruct (keyToCodeMirrorKey _) as [key|]; [|by apply IH].
  case_decide as Hk; [by apply IH|].
  destruct (IH (key :: seen) (bindings ++ [(key, kr_command (rr_rule r))])) as (H1 & H2 & more & H3).
  - rewrite fmap_app. apply NoDup_app. split; [done|]. split; [|apply NoDup_singleton].
    intros x Hx Hx'. apply list_elem_of_singleton in Hx' as ->. by apply Hk, Hin.
  - intros x. rewrite fmap_app, elem_of_app. intros [Hx|Hx].
    + right. by apply Hin.
    + apply list_elem_of_singleton in Hx as ->. left.
  - split; [done|]. split; [done|]. eexists. rewrite H3, <-app_assoc. done.
Qed.
Lemma composer_keymap_NoDup rules : NoDup ((buildComposerKeymap rules).*1).
Proof.
  unfold buildComposerKeymap.
  destruct (bind_rules_spec (λ c, startsWith c "composer.") (reverse rules) [] [])
    as (H1 & H2 & _); [constructor|done|].
  by apply bind_rules_spec.
Qed.

(** ** Double escape *)

Section double_escape.
Context {D : Type} `{EqDecision D} (windowMs : Z).

(** A press confirms only behind an unconfirmed press on the same document within
    the window, and a confirmed pair is used up: of [n] presses at most half
    confirm. *)
Lemma press_confirms first (doc : D) now :
  fst (press windowMs first doc now) = true →
  (∃ at_, first = Some (at_, doc) ∧ (0 ≤ now - at_ ≤ windowMs)%Z) ∧
  snd (press windowMs first doc now) = None.
Proof.
  unfold press. destruct first as [[t d]|]; [|done].
  destruct (bool_decide (d = doc) && _ && _) eqn:E; [|done]. intros _.
  apply andb_true_iff in E as [[->%bool_decide_eq_true H1%Z.leb_le]%andb_true_iff H2%Z.leb_le].
  split; [|done]. exists t. split; [done|lia].
Qed.
Lemma presses_half (l : list (D * Z)) first :
  2 * length (filter (λ b, b = true) (presses windowMs first l))
  ≤ length l + (if first then 1 else 0).
Proof.
  revert first. induction l as [|[doc now] l IH]; intros first; [cbn; lia|]. cbn [presses].
  destruct (press windowMs first doc now) as [[] st] eqn:E; cbn [fst snd].
  - destruct (press_confirms first doc now) as [(t & Hf & _) Hn]; [by rewrite E|].
    rewrite E in Hn. cbn in Hn. subst. rewrite filter_cons_True by done. cbn [length].
    specialize (IH None). cbn in IH. lia.
  - rewrite filter_cons_False by done. specialize (IH st). destruct st, first; cbn [length]; lia.
Qed.
End double_escape.
