(* ===== verification/Timeline.v ===== *)
(** * The session timeline clients render

    [packages/domain/src/projectors/timeline-reducer.ts], [timeline-projection.ts]
    and [execution-steps.ts]: the projection of a session that the server streams
    and the clients fold, its events, their derivation from the domain events, and
    the tree of execution steps. Dates are their milliseconds. *)
From S2P Require Import Prelude Js JsMap Ids Contracts SessionTypes SessionState.

Local Open Scope Z_scope.

(** ** Sorting: [Array.prototype.sort] is stable *)

Section sort.
Context {A : Type} (le : A → A → bool).
Fixpoint insert_sorted (x : A) (l : list A) : list A :=
  match l with
  | [] => [x]
  | y :: r => if le x y then x :: y :: r else y :: insert_sorted x r
  end.
Definition sort_by (l : list A) : list A := foldr insert_sorted [] l.
End sort.

(** ** Contracts *)

Inductive TimelineTurnPhase : Set :=
| TTP_requested | TTP_starting | TTP_running | TTP_interrupt_requested
| TTP_interrupt_acknowledged.

Record SessionAttempt := {
  sa_id : string;
  sa_ordinal : Z;
  sa_reason : AttemptReason }.
Record SessionTurn := {
  tt_id : string;
  tt_ordinal : Z;
  tt_turnStatus : TurnStatus;
  tt_phase : TimelineTurnPhase;
  tt_attempt : SessionAttempt;
  tt_providerThreadId : option string;
  tt_requestedAt : Z;
  tt_completedAt : option Z }.
#[export] Instance SessionTurn_eta : Settable SessionTurn := λ t,
  Build_SessionTurn (tt_id t) (tt_ordinal t) (tt_turnStatus t) (tt_phase t) (tt_attempt t)
    (tt_providerThreadId t) (tt_requestedAt t) (tt_completedAt t).

(** The fields the reducer reads and the rest of a permission request. *)
Record PermissionRequest := {
  pr_id : string;
  pr_expired : bool;
  pr_fields : json }.
#[export] Instance PermissionRequest_eta : Settable PermissionRequest := λ r,
  Build_PermissionRequest (pr_id r) (pr_expired r) (pr_fields r).

Inductive SessionInteraction : Type :=
| IPlan (id : string) (requestedAt : Z) (recoveryState : option PlanExpiryReason)
| IQuestion (id : string) (questions : json) (requestedAt : Z) (expired : bool)
| IPermission (id : string) (request : PermissionRequest).
Inductive InteractionTag : Set := T_Plan | T_Question | T_Permission.
#[export] Instance InteractionTag_eq_dec : EqDecision InteractionTag.
Proof. solve_decision. Defined.
(** The [_tag] and [id] that identify an interaction. *)
Definition interaction_key (i : SessionInteraction) : InteractionTag * string :=
  match i with
  | IPlan id _ _ => (T_Plan, id)
  | IQuestion id _ _ _ => (T_Question, id)
  | IPermission id _ => (T_Permission, id)
  end.

Record Message := {
  ms_id : string;
  ms_sessionId : string;
  ms_role : MessageRole;
  ms_content : MessageContent;
  ms_createdAt : Z }.

Record QueuedMessage := {
  qm_id : string;
  qm_sessionId : string;
  qm_input : json;
  qm_actor : option json;
  qm_position : Z;
  qm_createdAt : Z;
  qm_updatedAt : Z;
  qm_ready : bool }.
#[export] Instance QueuedMessage_eta : Settable QueuedMessage := λ q,
  Build_QueuedMessage (qm_id q) (qm_sessionId q) (qm_input q) (qm_actor q) (qm_position q)
    (qm_createdAt q) (qm_updatedAt q) (qm_ready q).
Record QueueState := { qs_items : list QueuedMessage; qs_paused : bool }.
#[export] Instance QueueState_eta : Settable QueueState := λ q,
  Build_QueueState (qs_items q) (qs_paused q).

Inductive StepKind : Set := SK_tool_step | SK_background | SK_subagent.
Inductive StepStatus : Set := ST_running | ST_completed | ST_failed | ST_cancelled.
#[export] Instance StepKind_eq_dec : EqDecision StepKind.
Proof. solve_decision. Defined.
#[export] Instance StepStatus_eq_dec : EqDecision StepStatus.
Proof. solve_decision. Defined.
(** [checkpointCapability] is the constant "unsupported". *)
Record SessionExecutionStep := {
  es_id : string;
  es_turnId : string;
  es_attemptId : string;
  es_itemId : string;
  es_parentItemId : option string;
  es_kind : StepKind;
  es_label : string;
  es_status : StepStatus;
  es_childSessionId : option string;
  es_nativeChildId : option string;
  es_rootCompletedAt : option Z;
  es_createdAt : Z;
  es_updatedAt : Z }.
#[export] Instance SessionExecutionStep_eta : Settable SessionExecutionStep := λ s,
  Build_SessionExecutionStep (es_id s) (es_turnId s) (es_attemptId s) (es_itemId s)
    (es_parentItemId s) (es_kind s) (es_label s) (es_status s) (es_childSessionId s)
    (es_nativeChildId s) (es_rootCompletedAt s) (es_createdAt s) (es_updatedAt s).

(** [executionSteps] and [executionStepsTruncated] are optional in the source;
    [undefined] and an empty list, or false, are read alike. *)
Record SessionTimelineProjection := {
  tp_messages : list Message;
  tp_executionSteps : list SessionExecutionStep;
  tp_executionStepsTruncated : bool;
  tp_status : SessionStatus;
  tp_activeTurn : option SessionTurn;
  tp_turnCount : Z;
  tp_queue : QueueState;
  tp_permissionMode : PermissionMode;
  tp_runtimeMode : RuntimeMode;
  tp_interactions : list SessionInteraction }.
#[export] Instance SessionTimelineProjection_eta : Settable SessionTimelineProjection := λ p,
  Build_SessionTimelineProjection (tp_messages p) (tp_executionSteps p)
    (tp_executionStepsTruncated p) (tp_status p) (tp_activeTurn p) (tp_turnCount p)
    (tp_queue p) (tp_permissionMode p) (tp_runtimeMode p) (tp_interactions p).

Inductive SessionTimelineEvent : Type :=
| TE_Noop
| TE_MessagePersisted (turnId : option (option string)) (message : Message)
| TE_StatusSet (status : SessionStatus)
| TE_TurnStarted (turn : SessionTurn)
| TE_TurnUpdated (turn : SessionTurn) (updatedAt : option Z)
| TE_TurnPhaseSet (turnId : string) (phase : TimelineTurnPhase)
| TE_TranscriptRolledBack (rolledBackTurnIds : option (list string)) (rolledBackAt : option Z)
    (removedMessageIds : list string)
| TE_TurnFinalizing (turnId : string)
| TE_TurnSettled (turnId : string) (outcome : TurnSettlementOutcome) (settledAt : option Z)
| TE_PermissionModeSet (permissionMode : PermissionMode)
| TE_RuntimeModeSet (runtimeMode : RuntimeMode)
| TE_PermissionRequested (request : PermissionRequest)
| TE_PermissionResolved (requestId : string)
| TE_PermissionExpired (requestId : string)
| TE_QuestionExpired (itemId : string)
| TE_PlanExpired (itemId : string) (reason : PlanExpiryReason)
| TE_QuestionResolved (itemId : string)
| TE_QueuePausedSet (paused : bool)
| TE_QueueEnqueued (item : QueuedMessage)
| TE_QueueUpdated (queueId : string) (input : json) (updatedAt : Z) (ready : bool)
| TE_QueueRemoved (queueId : string)
| TE_QueueReordered (queueIds : list string).

(** ** Execution steps *)

(** [a.id.localeCompare(b.id) <= 0]: the collation of the host is a parameter. *)
Class Collation := locale_le : string → string → bool.

Record ExecutionIdentity := {
  ei_sessionId : string;
  ei_turnId : string;
  ei_attemptId : string;
  ei_at : Z }.

Definition executionStepItem (content : MessageContent) : option string :=
  match content with
  | MC_tool_use c => Some (tu_itemId c)
  | MC_tool_result c => Some (tr_itemId c)
  | MC_subagent_summary c => Some (ss_itemId c)
  | _ => None
  end.

Definition native_prefix (id : string) : string := "native:" +:+ id.
Definition native_child (c : ToolUseContent) : option string :=
  (sa_childSessionId <$> tu_subagent c) ?? tu_backgroundTask c.

(** The step a tool use opens. *)
Definition new_step (identity : ExecutionIdentity) (c : ToolUseContent) : SessionExecutionStep :=
  let id := stringify (JArr [JStr (ei_sessionId identity); JStr (ei_turnId identity);
                             JStr (ei_attemptId identity); JStr (tu_itemId c)]) in
  {| es_id := id;
     es_turnId := ei_turnId identity;
     es_attemptId := ei_attemptId identity;
     es_itemId := tu_itemId c;
     es_parentItemId := tu_parentItemId c;
     es_kind := match tu_subagent c, tu_backgroundTask c with
                | Some _, _ => SK_subagent
                | None, Some _ => SK_background
                | None, None => SK_tool_step
                end;
     es_label := tu_tool c;
     es_status := ST_running;
     es_childSessionId := match tu_subagent c with
                          | Some _ => Some (native_prefix id) | None => None end;
     es_nativeChildId := native_child c;
     es_rootCompletedAt := None;
     es_createdAt := ei_at identity;
     es_updatedAt := ei_at identity |}.

(** [None] when the source returns [previous] itself (or null): nothing changes. *)
Definition evolveExecutionStep (previous : option SessionExecutionStep)
    (identity : ExecutionIdentity) (content : MessageContent) : option SessionExecutionStep :=
  match content, previous with
  | MC_tool_use c, None => Some (new_step identity c)
  | MC_tool_use c, Some p =>
      if decide (es_kind p = SK_tool_step ∧ (is_Some (tu_subagent c) ∨ is_Some (tu_backgroundTask c)))
      then Some (p <| es_kind := match tu_subagent c with
                                 | Some _ => SK_subagent | None => SK_background end |>
                   <| es_status := ST_running |>
                   <| es_nativeChildId := native_child c |>
                   <| es_childSessionId := match tu_subagent c with
                                           | Some _ => Some (native_prefix (es_id p))
                                           | None => None end |>
                   <| es_updatedAt := ei_at identity |>)
      else None
  | _, None => None
  | content, Some p =>
      if decide (es_status p ≠ ST_running) then None
      else
        match content with
        | MC_subagent_summary c =>
            Some (p <| es_status := if ss_isError c then ST_failed else ST_completed |>
                    <| es_updatedAt := ei_at identity |>)
        | MC_tool_result c =>
            if decide (es_kind p = SK_subagent) then None
            else Some (p <| es_status :=
                              if decide (tr_backgroundOutcome c = Some BTO_stopped) then ST_cancelled
                              else if tr_isError c then ST_failed else ST_completed |>
                         <| es_updatedAt := ei_at identity |>)
        | MC_subagent_progress c =>
            Some (p <| es_rootCompletedAt :=
                         if decide (sp_rootCompleted c = Some true)
                         then es_rootCompletedAt p ?? Some (ei_at identity)
                         else es_rootCompletedAt p |>
                    <| es_updatedAt := ei_at identity |>)
        | _ => None
        end
  end.

Definition MAX_STEPS : nat := 200.

Section reducer.
Context `{Collation}.

(** [b.createdAt - a.createdAt || a.id.localeCompare(b.id)] is not positive. *)
Definition step_le (a b : SessionExecutionStep) : bool :=
  if decide (es_createdAt a = es_createdAt b) then locale_le (es_id a) (es_id b)
  else es_createdAt b <? es_createdAt a.

Definition same_step (identity : ExecutionIdentity) (content : MessageContent)
    (step : SessionExecutionStep) : bool :=
  bool_decide (es_turnId step = ei_turnId identity)
  && bool_decide (es_attemptId step = ei_attemptId identity)
  && match executionStepItem content with
     | Some item => bool_decide (es_itemId step = item)
     | None => match content with
               | MC_subagent_progress c =>
                   bool_decide (es_nativeChildId step = Some (sp_childSessionId c))
               | _ => false
               end
     end.

Definition is_progress (content : MessageContent) : bool :=
  match content with MC_subagent_progress _ => true | _ => false end.

Definition applyExecutionMessage (steps : list SessionExecutionStep)
    (identity : ExecutionIdentity) (content : MessageContent) : list SessionExecutionStep :=
  if decide (executionStepItem content = None ∧ is_progress content = false) then steps
  else
    let found := list_find (λ step, same_step identity content step = true) steps in
    match evolveExecutionStep (snd <$> found) identity content with
    | None => steps
    | Some next =>
        let updated := match found with
                       | None => steps ++ [next]
                       | Some (index, _) => <[index := next]> steps
                       end in
        take MAX_STEPS (sort_by step_le updated)
    end.

Definition settleExecutionSteps (steps : list SessionExecutionStep) (turnId : string)
    (status : StepStatus) (at_ : Z) : list SessionExecutionStep :=
  (λ step, if decide (es_turnId step = turnId ∧ es_status step = ST_running)
           then step <| es_status := status |> <| es_updatedAt := at_ |> else step) <$> steps.

(** ** The reducer *)

Definition emptyTimelineProjection : SessionTimelineProjection :=
  {| tp_messages := [];
     tp_executionSteps := [];
     tp_executionStepsTruncated := false;
     tp_status := SS_idle;
     tp_activeTurn := None;
     tp_turnCount := 0;
     tp_queue := {| qs_items := []; qs_paused := false |};
     tp_permissionMode := DEFAULT_PERMISSION_MODE;
     tp_runtimeMode := DEFAULT_RUNTIME_MODE;
     tp_interactions := [] |}.

(** Replacing the element of a key in place, or adding one at the end: the
    [findIndex] and assignment of messages, interactions and queue items. *)
Fixpoint upsert {A K} `{EqDecision K} (key : A → K) (l : list A) (x : A) : list A :=
  match l with
  | [] => [x]
  | y :: r => if decide (key y = key x) then x :: r else y :: upsert key r x
  end.

Definition upsertInteraction (l : list SessionInteraction) (i : SessionInteraction) :=
  upsert interaction_key l i.
Definition removeInteraction (l : list SessionInteraction) (tag : InteractionTag) (id : string) :=
  filter (λ i, interaction_key i ≠ (tag, id)) l.
Definition has_interaction (l : list SessionInteraction) (tag : InteractionTag) (id : string) :=
  bool_decide ((tag, id) ∈ interaction_key <$> l).

(** The interactions after a message; [known] says that the projection already
    held a message with its id, [messages] includes it. *)
Definition message_interactions (known : bool) (messages : list Message)
    (l : list SessionInteraction) (message : Message) : list SessionInteraction :=
  match ms_content message with
  | MC_tool_use c =>
      if decide (tu_tool c = "ExitPlanMode") then
        if known || has_interaction l T_Plan (tu_itemId c)
           || existsb (λ m, match ms_content m with
                            | MC_tool_result r => bool_decide (tr_itemId r = tu_itemId c)
                            | _ => false end) messages
        then l
        else upsertInteraction l (IPlan (tu_itemId c) (ms_createdAt message) None)
      else l
  | MC_tool_result c => removeInteraction l T_Plan (tr_itemId c)
  | MC_user_question itemId questions _ =>
      if known || has_interaction l T_Question itemId then l
      else upsertInteraction l (IQuestion itemId questions (ms_createdAt message) false)
  | MC_user_question_answer c => removeInteraction l T_Question (qa_itemId c)
  | _ => l
  end.

Definition apply_message (p : SessionTimelineProjection) (turnId : option (option string))
    (message : Message) : SessionTimelineProjection :=
  let known := bool_decide (ms_id message ∈ ms_id <$> tp_messages p) in
  let messages := upsert ms_id (tp_messages p) message in
  let content := ms_content message in
  let steps :=
    match tp_activeTurn p with
    | None => tp_executionSteps p
    | Some turn =>
        if decide (is_Some turnId ∧ turnId ≠ Some (Some (tt_id turn))) then tp_executionSteps p
        else applyExecutionMessage (tp_executionSteps p)
               {| ei_sessionId := ms_sessionId message; ei_turnId := tt_id turn;
                  ei_attemptId := sa_id (tt_attempt turn); ei_at := ms_createdAt message |}
               content
    end in
  let truncated :=
    match content with
    | MC_tool_use c =>
        (MAX_STEPS <=? length (tp_executionSteps p))%nat
        && negb (existsb (λ step,
             match tp_activeTurn p with
             | Some turn => bool_decide (es_turnId step = tt_id turn)
                 && bool_decide (es_attemptId step = sa_id (tt_attempt turn))
                 && bool_decide (es_itemId step = tu_itemId c)
             | None => false
             end) (tp_executionSteps p))
    | _ => false
    end in
  p <| tp_messages := messages |>
    <| tp_executionSteps := steps |>
    <| tp_executionStepsTruncated := tp_executionStepsTruncated p || truncated |>
    <| tp_interactions := message_interactions known messages (tp_interactions p) message |>.

Definition active_is (p : SessionTimelineProjection) (turnId : string) : Prop :=
  tt_id <$> tp_activeTurn p = Some turnId.
#[export] Instance active_is_dec p turnId : Decision (active_is p turnId).
Proof. unfold active_is. apply _. Defined.

Definition update_item (queueId : string) (input : json) (updatedAt : Z) (ready : bool)
    (item : QueuedMessage) : QueuedMessage :=
  if decide (qm_id item = queueId)
  then item <| qm_input := input |> <| qm_updatedAt := updatedAt |> <| qm_ready := ready |>
  else item.
(** [new Map(queueIds.map((id, i) => [id, i])).get(id)]: the last index of the id. *)
Fixpoint last_index (id : string) (ids : list string) (i : Z) : option Z :=
  match ids with
  | [] => None
  | x :: r => match last_index id r (i + 1) with
              | Some j => Some j
              | None => if decide (x = id) then Some i else None
              end
  end.
Definition reposition (queueIds : list string) (item : QueuedMessage) : QueuedMessage :=
  item <| qm_position := default (qm_position item) (last_index (qm_id item) queueIds 0) |>.
Definition position_le (a b : QueuedMessage) : bool := qm_position a <=? qm_position b.

Definition expire_permission (requestId : string) (i : SessionInteraction) : SessionInteraction :=
  match i with
  | IPermission id request =>
      if decide (id = requestId) then IPermission id (request <| pr_expired := true |>) else i
  | _ => i
  end.
Definition expire_plan (itemId : string) (reason : PlanExpiryReason) (i : SessionInteraction) :=
  match i with
  | IPlan id at_ _ => if decide (id = itemId) then IPlan id at_ (Some reason) else i
  | _ => i
  end.
Definition expire_question (itemId : string) (i : SessionInteraction) : SessionInteraction :=
  match i with
  | IQuestion id q at_ _ => if decide (id = itemId) then IQuestion id q at_ true else i
  | _ => i
  end.

Definition applyTimelineEvent (p : SessionTimelineProjection) (event : SessionTimelineEvent)
  : SessionTimelineProjection :=
  match event with
  | TE_Noop => p
  | TE_MessagePersisted turnId message => apply_message p turnId message
  | TE_StatusSet status =>
      p <| tp_status := status |>
        <| tp_activeTurn :=
             (λ turn, if decide (status = SS_running ∧ tt_turnStatus turn = TS_starting)
                      then turn <| tt_turnStatus := TS_running |> else turn)
             <$> tp_activeTurn p |>
  | TE_TurnStarted turn =>
      p <| tp_activeTurn := Some turn |>
        <| tp_turnCount := Z.max (tp_turnCount p) (tt_ordinal turn) |>
  | TE_TurnUpdated turn updatedAt =>
      match tp_activeTurn p with
      | Some active =>
          if decide (tt_id active = tt_id turn) then
            p <| tp_executionSteps :=
                   if decide (sa_id (tt_attempt active) = sa_id (tt_attempt turn))
                   then tp_executionSteps p
                   else settleExecutionSteps (tp_executionSteps p) (tt_id turn) ST_cancelled
                          (default (tt_requestedAt turn) updatedAt) |>
              <| tp_activeTurn := Some turn |>
          else p
      | None => p
      end
  | TE_TurnPhaseSet turnId phase =>
      if decide (active_is p turnId)
      then p <| tp_activeTurn := (λ t, t <| tt_phase := phase |>) <$> tp_activeTurn p |> else p
  | TE_TranscriptRolledBack rolledBackTurnIds rolledBackAt removedMessageIds =>
      let rolledBackTurns := default [] rolledBackTurnIds in
      p <| tp_executionSteps :=
             (λ step, if decide (es_turnId step ∈ rolledBackTurns)
                      then step <| es_status := ST_cancelled |>
                                <| es_updatedAt := default (es_updatedAt step) rolledBackAt |>
                      else step) <$> tp_executionSteps p |>
        <| tp_messages := filter (λ m, ms_id m ∉ removedMessageIds) (tp_messages p) |>
        <| tp_interactions := [] |>
  | TE_TurnFinalizing turnId =>
      if decide (active_is p turnId)
      then p <| tp_activeTurn := (λ t, t <| tt_turnStatus := TS_finalizing |>) <$> tp_activeTurn p |>
      else p
  | TE_TurnSettled turnId outcome settledAt =>
      p <| tp_status := SS_idle |>
        <| tp_executionSteps :=
             settleExecutionSteps (tp_executionSteps p) turnId
               (if decide (outcome = TSO_error) then ST_failed else ST_cancelled)
               (default 0 settledAt) |>
        <| tp_activeTurn := None |>
  | TE_PermissionModeSet mode => p <| tp_permissionMode := mode |>
  | TE_RuntimeModeSet mode => p <| tp_runtimeMode := mode |>
  | TE_PermissionRequested request =>
      p <| tp_interactions := upsertInteraction (tp_interactions p)
                                (IPermission (pr_id request) request) |>
  | TE_PermissionExpired requestId =>
      p <| tp_interactions := expire_permission requestId <$> tp_interactions p |>
  | TE_PermissionResolved requestId =>
      p <| tp_interactions := removeInteraction (tp_interactions p) T_Permission requestId |>
  | TE_PlanExpired itemId reason =>
      p <| tp_interactions := expire_plan itemId reason <$> tp_interactions p |>
  | TE_QuestionExpired itemId =>
      p <| tp_interactions := expire_question itemId <$> tp_interactions p |>
  | TE_QuestionResolved itemId =>
      p <| tp_interactions := removeInteraction (tp_interactions p) T_Question itemId |>
  | TE_QueuePausedSet paused => p <| tp_queue := (tp_queue p) <| qs_paused := paused |> |>
  | TE_QueueEnqueued item =>
      p <| tp_queue := (tp_queue p) <| qs_items := sort_by position_le
                                       (upsert qm_id (qs_items (tp_queue p)) item) |> |>
  | TE_QueueUpdated queueId input updatedAt ready =>
      p <| tp_queue := (tp_queue p) <| qs_items := update_item queueId input updatedAt ready
                                                 <$> qs_items (tp_queue p) |> |>
  | TE_QueueRemoved queueId =>
      p <| tp_queue := (tp_queue p) <| qs_items := filter (λ i, qm_id i ≠ queueId)
                                                   (qs_items (tp_queue p)) |> |>
  | TE_QueueReordered queueIds =>
      p <| tp_queue := (tp_queue p) <| qs_items := sort_by position_le
                                       (reposition queueIds <$> qs_items (tp_queue p)) |> |>
  end.
End reducer.

(** ** From domain events *)

(** The decoders of the schema library that are not [MessageContent]'s. *)
Class TimelineCodec := {
  decodeComposerInput : string → option (json * option json);
  decodePermissionRequest : string → option PermissionRequest
}.
Definition decodeRole (role : string) : option MessageRole :=
  if decide (role = "user") then Some MR_user
  else if decide (role = "assistant") then Some MR_assistant
  else if decide (role = "system") then Some MR_system
  else if decide (role = "tool") then Some MR_tool
  else None.

Definition starting_turn (sessionId turnId : string) (ordinal : Z) (attempt : SessionAttempt)
    (providerThreadId : option string) (requestedAt : Z) : SessionTurn :=
  {| tt_id := turnId; tt_ordinal := ordinal; tt_turnStatus := TS_starting;
     tt_phase := TTP_running; tt_attempt := attempt;
     tt_providerThreadId := scopeProviderThreadId sessionId <$> providerThreadId;
     tt_requestedAt := requestedAt; tt_completedAt := None |}.

Definition timelineEventFromDomain `{ContentCodec} `{TimelineCodec} (sessionId : string)
    (event : SessionEvent) : SessionTimelineEvent :=
  match event with
  | MessagePersisted m =>
      match decodeMessageContent (mf_contentJson m), decodeRole (mf_role m) with
      | Some content, Some role =>
          TE_MessagePersisted (Some (mf_turnId m))
            {| ms_id := mf_messageId m; ms_sessionId := sessionId; ms_role := role;
               ms_content := content; ms_createdAt := mf_createdAt m |}
      | _, _ => TE_Noop
      end
  | SessionStatusSet status _ => TE_StatusSet status
  | TurnStarted turnId startedAt ordinal attemptId providerThreadId =>
      TE_TurnStarted
        (starting_turn sessionId turnId (default 0 ordinal)
           {| sa_id := default ("attempt:turn:" +:+ turnId +:+ ":ordinal:1") attemptId;
              sa_ordinal := 1; sa_reason := AR_initial |}
           (default None providerThreadId) startedAt)
  | AttemptStarted turnId attemptId ordinal reason startedAt turnOrdinal providerThreadId
      turnRequestedAt =>
      TE_TurnUpdated
        (starting_turn sessionId turnId turnOrdinal
           {| sa_id := attemptId; sa_ordinal := ordinal; sa_reason := reason |}
           providerThreadId turnRequestedAt)
        (Some startedAt)
  | TurnInterruptRequested turnId _ _ => TE_TurnPhaseSet turnId TTP_interrupt_requested
  | TurnInterruptAcknowledged turnId _ => TE_TurnPhaseSet turnId TTP_interrupt_acknowledged
  | TurnInterruptFailed turnId _ _ => TE_TurnPhaseSet turnId TTP_running
  | TurnsRolledBack rolledBackTurnIds _ _ removedMessageIds rolledBackAt =>
      TE_TranscriptRolledBack rolledBackTurnIds (Some rolledBackAt) removedMessageIds
  | TurnFinalizationRequested turnId _ _ _ => TE_TurnFinalizing turnId
  | TurnSettled turnId outcome settledAt => TE_TurnSettled turnId outcome (Some settledAt)
  | SessionPermissionModeSet mode _ => TE_PermissionModeSet mode
  | SessionRuntimeModeSet mode _ => TE_RuntimeModeSet mode
  | PermissionRequested _ _ _ payloadJson _ =>
      match decodePermissionRequest payloadJson with
      | Some request => TE_PermissionRequested request
      | None => TE_Noop
      end
  | PermissionExpired requestId _ => TE_PermissionExpired requestId
  | PermissionResolved requestId _ _ _ => TE_PermissionResolved requestId
  | PlanExpired itemId reason _ => TE_PlanExpired itemId reason
  | QuestionExpired itemId _ => TE_QuestionExpired itemId
  | QuestionResolved itemId _ => TE_QuestionResolved itemId
  | SessionQueuePausedSet paused _ => TE_QueuePausedSet paused
  | QueuedTurnEnqueued queueId inputJson position createdAt ready =>
      match decodeComposerInput inputJson with
      | Some (input, actor) =>
          TE_QueueEnqueued
            {| qm_id := queueId; qm_sessionId := sessionId; qm_input := input; qm_actor := actor;
               qm_position := position; qm_createdAt := createdAt; qm_updatedAt := createdAt;
               qm_ready := ready |}
      | None => TE_Noop
      end
  | QueuedTurnUpdated queueId inputJson updatedAt ready =>
      match decodeComposerInput inputJson with
      | Some (input, _) => TE_QueueUpdated queueId input updatedAt ready
      | None => TE_Noop
      end
  | QueuedTurnRemoved queueId _ | QueuedTurnClaimed queueId _ => TE_QueueRemoved queueId
  | QueuedTurnsReordered queueIds _ => TE_QueueReordered queueIds
  | _ => TE_Noop
  end.
