(* ===== verification/TimelineProps.v ===== *)
(** * The timeline tracks the session

    Every domain event, translated and folded into the projection, keeps the
    projection in step with the session state: the running turn and its attempt,
    the queue, the modes and the pending permissions. The projection's own lists
    stay duplicate free, sorted and bounded under every event. *)
From Stdlib Require Import Sorting.Sorted.
From S2P Require Import Prelude Js JsMap Ids Contracts SessionTypes SessionState SessionDecider SessionLegal SessionInv SessionInvariants SessionRefine SessionCommands SessionProps Timeline.

Local Open Scope Z_scope.

(** ** Sorting and upserting *)

Section sorting.
Context {A : Type} (le : A → A → bool).
Lemma insert_sorted_Permutation x l : insert_sorted le x l ≡ₚ x :: l.
Proof.
  induction l as [|y l IH]; [done|]. cbn. destruct (le x y); [done|].
  rewrite IH. apply Permutation_swap.
Qed.
Lemma sort_by_Permutation l : sort_by le l ≡ₚ l.
Proof. induction l as [|x l IH]; [done|]. cbn. by rewrite insert_sorted_Permutation, IH. Qed.
Lemma elem_of_sort_by x l : x ∈ sort_by le l ↔ x ∈ l.
Proof. by rewrite sort_by_Permutation. Qed.

Context (le_total : ∀ x y, le x y = true ∨ le y x = true).
Context (le_trans : ∀ x y z, le x y = true → le y z = true → le x z = true).
Definition sorted (l : list A) : Prop := StronglySorted (λ x y, le x y = true) l.
Lemma insert_sorted_sorted x l : sorted l → sorted (insert_sorted le x l).
Proof.
  induction 1 as [|y l Hl IH Hy]; cbn; [by repeat constructor|].
  destruct (le x y) eqn:Hxy.
  - constructor; [by constructor|]. constructor; [done|].
    eapply Forall_impl; [exact Hy|]. intros z Hz. by apply (le_trans x y z).
  - constructor; [done|]. rewrite insert_sorted_Permutation. constructor; [|done].
    destruct (le_total x y); congruence.
Qed.
Lemma sort_by_sorted l : sorted (sort_by le l).
Proof. induction l; [constructor|by apply insert_sorted_sorted]. Qed.
End sorting.

Lemma sorted_sublist {A} (le : A → A → bool) l k : sublist l k → sorted le k → sorted le l.
Proof.
  induction 1 as [|x l k Hs IH|x l k Hs IH]; intros Hk; [constructor|..];
    inversion Hk as [|? ? Hk' Hx]; subst.
  - constructor; [by apply IH|]. apply Forall_forall. intros y Hy.
    eapply (proj1 (Forall_forall _ _) Hx). by eapply elem_of_sublist.
  - by apply IH.
Qed.
Lemma sorted_fmap {A} (le : A → A → bool) (f : A → A) l :
  (∀ x y, le (f x) (f y) = le x y) → sorted le l → sorted le (f <$> l).
Proof.
  intros Hf. induction 1 as [|x l Hl IH Hx]; [constructor|].
  cbn. constructor; [done|]. apply Forall_fmap. eapply Forall_impl; [exact Hx|].
  intros y Hy. cbn. by rewrite Hf.
Qed.

Section upserting.
Context {A K : Type} `{EqDecision K} (key : A → K).
Lemma upsert_keys l x :
  key <$> upsert key l x = (if decide (key x ∈ key <$> l) then key <$> l else (key <$> l) ++ [key x]).
Proof.
  induction l as [|y l IH]; [done|]. cbn. destruct (decide (key y = key x)) as [E|E].
  - cbn. rewrite E. by rewrite decide_True by left.
  - cbn. rewrite IH. destruct (decide (key x ∈ key <$> l)) as [Hi|Hi].
    + by rewrite decide_True by (by right).
    + rewrite decide_False; [done|]. intros [Hin|Hin]%elem_of_cons; [by apply E|done].
Qed.
Lemma upsert_NoDup l x : NoDup (key <$> l) → NoDup (key <$> upsert key l x).
Proof.
  intros Hl. rewrite upsert_keys. case_decide as Hx; [done|]. apply NoDup_app.
  split; [done|]. split; [|apply NoDup_singleton].
  intros y Hy ->%list_elem_of_singleton. done.
Qed.
Lemma upsert_new l x : key x ∉ key <$> l → upsert key l x = l ++ [x].
Proof.
  induction l as [|y l IH]; [done|]. cbn. intros [Hy Hl]%not_elem_of_cons.
  rewrite decide_False by congruence. by rewrite IH.
Qed.
Lemma elem_of_upsert l x k : k ∈ key <$> upsert key l x ↔ k = key x ∨ k ∈ key <$> l.
Proof.
  rewrite upsert_keys. case_decide as Hx.
  - split; [by right|]. by intros [->|].
  - rewrite elem_of_app, list_elem_of_singleton. tauto.
Qed.
End upserting.

Lemma NoDup_keys_filter {A K} (key : A → K) (P : A → Prop) `{∀ x, Decision (P x)} l :
  NoDup (key <$> l) → NoDup (key <$> filter P l).
Proof.
  induction l as [|x l IH]; [done|]. rewrite fmap_cons, filter_cons. intros [Hx Hl]%NoDup_cons.
  case_decide; [|by apply IH]. rewrite fmap_cons. apply NoDup_cons. split; [|by apply IH].
  intros (y & E & [_ Hy]%list_elem_of_filter)%list_elem_of_fmap. apply Hx.
  apply list_elem_of_fmap. by exists y.
Qed.

(** ** The projection's own invariant *)

(** The host's collation is a total preorder. *)
Class CollationLaws `{Collation} : Prop := {
  locale_total a b : locale_le a b = true ∨ locale_le b a = true;
  locale_trans a b c : locale_le a b = true → locale_le b c = true → locale_le a c = true
}.

Lemma position_total a b : position_le a b = true ∨ position_le b a = true.
Proof. unfold position_le. rewrite !Z.leb_le. lia. Qed.
Lemma position_trans a b c :
  position_le a b = true → position_le b c = true → position_le a c = true.
Proof. unfold position_le. rewrite !Z.leb_le. lia. Qed.
Lemma step_le_total `{CollationLaws} a b : step_le a b = true ∨ step_le b a = true.
Proof.
  unfold step_le. repeat case_decide; try congruence; [apply locale_total|].
  rewrite !Z.ltb_lt. lia.
Qed.
Lemma step_le_trans `{CollationLaws} a b c :
  step_le a b = true → step_le b c = true → step_le a c = true.
Proof.
  unfold step_le. repeat case_decide; try congruence; rewrite ?Z.ltb_lt; try lia.
  apply locale_trans.
Qed.

(** The item an execution step stands for. *)
Definition step_key (step : SessionExecutionStep) : string * string * string :=
  (es_turnId step, es_attemptId step, es_itemId step).
Lemma evolve_step_key p identity content next :
  evolveExecutionStep (Some p) identity content = Some next → step_key next = step_key p.
Proof. unfold evolveExecutionStep. intros E. repeat case_match; simplify_eq; done. Qed.
Lemma evolve_step_new identity content next :
  evolveExecutionStep None identity content = Some next →
  ∃ c, content = MC_tool_use c ∧ next = new_step identity c.
Proof. destruct content; cbn; intros; simplify_eq. by eexists. Qed.

Lemma same_step_key identity c step :
  same_step identity (MC_tool_use c) step = true ↔
  step_key step = (ei_turnId identity, ei_attemptId identity, tu_itemId c).
Proof.
  unfold same_step, step_key. cbn. rewrite !andb_true_iff, !bool_decide_eq_true.
  intuition congruence.
Qed.

Section wf.
Context `{CollationLaws}.

Record timeline_wf (p : SessionTimelineProjection) : Prop := {
  wf_messages : NoDup (ms_id <$> tp_messages p);
  wf_interactions : NoDup (interaction_key <$> tp_interactions p);
  wf_queue : NoDup (qm_id <$> qs_items (tp_queue p));
  wf_positions : sorted position_le (qs_items (tp_queue p));
  wf_steps : (length (tp_executionSteps p) ≤ MAX_STEPS)%nat;
  wf_steps_sorted : sorted step_le (tp_executionSteps p);
  wf_steps_once : NoDup (step_key <$> tp_executionSteps p) }.

Lemma expire_keys f (l : list SessionInteraction) :
  (∀ i, interaction_key (f i) = interaction_key i) →
  interaction_key <$> (f <$> l) = interaction_key <$> l.
Proof. intros Hf. rewrite <-list_fmap_compose. apply list_fmap_ext. intros i x _. cbn. apply Hf. Qed.
Lemma expire_permission_key id i : interaction_key (expire_permission id i) = interaction_key i.
Proof. destruct i; cbn; try done. by case_decide. Qed.
Lemma expire_plan_key id r i : interaction_key (expire_plan id r i) = interaction_key i.
Proof. destruct i; cbn; try done. by case_decide. Qed.
Lemma expire_question_key id i : interaction_key (expire_question id i) = interaction_key i.
Proof. destruct i; cbn; try done. by case_decide. Qed.

Lemma fmap_qm_id f (l : list QueuedMessage) :
  (∀ i, qm_id (f i) = qm_id i) → qm_id <$> (f <$> l) = qm_id <$> l.
Proof. intros Hf. rewrite <-list_fmap_compose. apply list_fmap_ext. intros i x _. cbn. apply Hf. Qed.
Lemma update_item_id q input at_ r i : qm_id (update_item q input at_ r i) = qm_id i.
Proof. unfold update_item. by case_decide. Qed.
Lemma update_item_position q input at_ r i : qm_position (update_item q input at_ r i) = qm_position i.
Proof. unfold update_item. by case_decide. Qed.

Definition steps_wf (steps : list SessionExecutionStep) : Prop :=
  (length steps ≤ MAX_STEPS)%nat ∧ sorted step_le steps ∧ NoDup (step_key <$> steps).
(** Changes of steps that leave their order and their items. *)
Lemma fmap_steps_wf (f : SessionExecutionStep → SessionExecutionStep) steps :
  (∀ x y, step_le (f x) (f y) = step_le x y) → (∀ x, step_key (f x) = step_key x) →
  steps_wf steps → steps_wf (f <$> steps).
Proof.
  intros Hle Hkey (Hl & Hs & Hn). split; [by rewrite length_fmap|]. split; [by apply sorted_fmap|].
  rewrite <-list_fmap_compose. by rewrite (list_fmap_ext _ step_key) by (intros; apply Hkey).
Qed.
Lemma settle_steps_wf steps t st at_ : steps_wf steps → steps_wf (settleExecutionSteps steps t st at_).
Proof. apply fmap_steps_wf; intros *; unfold step_le, step_key; by repeat case_decide. Qed.
(** An evolved step takes the place of the one it evolved from, and a new one is of a new
    item. *)
Lemma updated_step_keys steps identity content next :
  let found := list_find (λ step, same_step identity content step = true) steps in
  evolveExecutionStep (snd <$> found) identity content = Some next →
  NoDup (step_key <$> steps) →
  NoDup (step_key <$> match found with None => steps ++ [next] | Some (index, _) => <[index := next]> steps end).
Proof.
  intros found Hn Hd. subst found.
  destruct (list_find _ steps) as [[i old]|] eqn:Hf; cbn [fmap option_fmap option_map snd] in Hn.
  - apply list_find_Some in Hf as (Hi & _ & _). apply evolve_step_key in Hn.
    rewrite list_fmap_insert, Hn, list_insert_id; [done|]. by rewrite list_lookup_fmap, Hi.
  - apply evolve_step_new in Hn as (c & -> & ->). apply list_find_None in Hf.
    rewrite fmap_app. apply NoDup_app. split; [done|]. split; [|apply NoDup_singleton].
    intros k (step & -> & Hin)%list_elem_of_fmap Hk%list_elem_of_singleton.
    eapply Forall_forall in Hf; [|exact Hin]. apply Hf. by apply same_step_key.
Qed.
Lemma apply_execution_wf steps identity content :
  steps_wf steps → steps_wf (applyExecutionMessage steps identity content).
Proof.
  intros Hwf. unfold applyExecutionMessage. case_decide; [done|].
  destruct (evolveExecutionStep _ _ _) as [next|] eqn:Hn; [|done]. cbv zeta. split; [|split].
  - rewrite length_take. lia.
  - eapply sorted_sublist; [apply sublist_take|]. apply sort_by_sorted; eauto using step_le_total, step_le_trans.
  - eapply sublist_NoDup; [|apply fmap_sublist, sublist_take]. rewrite sort_by_Permutation.
    by apply updated_step_keys, Hwf.
Qed.

Lemma message_interactions_NoDup known messages l m :
  NoDup (interaction_key <$> l) → NoDup (interaction_key <$> message_interactions known messages l m).
Proof.
  intros Hl. unfold message_interactions, upsertInteraction, removeInteraction.
  repeat case_match; try done; by first [apply upsert_NoDup|apply NoDup_keys_filter].
Qed.

Lemma timeline_wf_apply p e : timeline_wf p → timeline_wf (applyTimelineEvent p e).
Proof.
  intros [Hm Hi Hq Hp Hs Hss Hsn]. pose proof (conj Hs (conj Hss Hsn)) as Hst.
  destruct e; cbn [applyTimelineEvent]; try (split; done).
  - unfold apply_message. split; cbn; try done.
    + by apply upsert_NoDup.
    + by apply message_interactions_NoDup.
    + repeat case_match; try done. by apply apply_execution_wf.
    + repeat case_match; try done. by apply apply_execution_wf.
    + repeat case_match; try done. by apply apply_execution_wf.
  - repeat case_match; (split; cbn; try done; case_decide; try done; by apply settle_steps_wf).
  - case_decide; split; done.
  - split; cbn; try done.
    + by apply NoDup_keys_filter.
    + constructor.
    + by rewrite length_fmap.
    + apply sorted_fmap; [|done]. intros x y. unfold step_le. by repeat case_decide.
    + rewrite <-list_fmap_compose, (list_fmap_ext _ step_key); [done|].
      intros i x _. unfold step_key. cbn. by case_decide.
  - case_decide; split; done.
  - split; cbn; try done; by apply settle_steps_wf.
  - split; cbn; try done. by apply upsert_NoDup.
  - split; cbn; try done. by apply NoDup_keys_filter.
  - split; cbn; try done. by rewrite expire_keys by apply expire_permission_key.
  - split; cbn; try done. by rewrite expire_keys by apply expire_question_key.
  - split; cbn; try done. by rewrite expire_keys by apply expire_plan_key.
  - split; cbn; try done. by apply NoDup_keys_filter.
  - split; cbn; try done; [|apply sort_by_sorted; eauto using position_total, position_trans].
    rewrite sort_by_Permutation. by apply upsert_NoDup.
  - split; cbn; try done; [by rewrite fmap_qm_id by apply update_item_id|].
    apply sorted_fmap; [|done]. intros x y. unfold position_le. by rewrite !update_item_position.
  - split; cbn; try done; [by apply NoDup_keys_filter|].
    eapply sorted_sublist; [|done]. apply sublist_filter.
  - split; cbn; try done; [|apply sort_by_sorted; eauto using position_total, position_trans].
    rewrite sort_by_Permutation. by rewrite fmap_qm_id.
Qed.
End wf.

(** ** The simulation *)

Definition timeline_phase (phase : TurnPhase) : TimelineTurnPhase :=
  match phase with
  | TP_running => TTP_running
  | TP_interrupt_requested => TTP_interrupt_requested
  | TP_interrupt_acknowledged => TTP_interrupt_acknowledged
  end.

(** The active turn shows the current turn of the session and its attempt. *)
Record shows_turn (tn : TurnState) (phase : option TurnPhase) (t : SessionTurn) : Prop := {
  sh_ordinal : tt_ordinal t = tn_ordinal tn;
  sh_status : tt_turnStatus t = tn_status tn;
  sh_phase : Some (tt_phase t) = timeline_phase <$> phase;
  sh_attempt : ∃ a, tn_attempts tn !! sa_id (tt_attempt t) = Some a
    ∧ tn_activeAttemptId tn = sa_id (tt_attempt t)
    ∧ at_ordinal a = sa_ordinal (tt_attempt t) ∧ at_reason a = sa_reason (tt_attempt t) }.
Definition TurnTracks (turns : list (string * TurnState)) (current : option string)
    (phase : option TurnPhase) (count : Z) (active : option SessionTurn) (shown : Z) : Prop :=
  shown = count ∧
  match active with
  | None => current = None
  | Some t => current = Some (tt_id t) ∧ ∃ tn, jm_get (tt_id t) turns = Some tn ∧ shows_turn tn phase t
  end.
Definition turn_tracks (s : SessionState) (p : SessionTimelineProjection) : Prop :=
  TurnTracks (st_turns s) (st_currentTurnId s) (st_currentTurnPhase s) (st_turnCount s)
    (tp_activeTurn p) (tp_turnCount p).

Definition QueueTracks (queued : gmap string QueuedTurn) (paused : bool) (q : QueueState) : Prop :=
  qs_paused q = paused ∧
  ∀ id ready, (∃ item, item ∈ qs_items q ∧ qm_id item = id ∧ qm_ready item = ready)
    ↔ qt_ready <$> queued !! id = Some ready.
Definition queue_tracks (s : SessionState) (p : SessionTimelineProjection) : Prop :=
  QueueTracks (st_queuedTurns s) (st_queuePaused s) (tp_queue p).

Definition MiscTracks (pm : option PermissionMode) (rm : option RuntimeMode) (pending : gset string)
    (ids : gset string) (p : SessionTimelineProjection) : Prop :=
  pm = Some (tp_permissionMode p) ∧ rm = Some (tp_runtimeMode p)
  ∧ (∀ id, (T_Permission, id) ∈ interaction_key <$> tp_interactions p ↔ id ∈ pending)
  ∧ (∀ m, m ∈ tp_messages p → ms_id m ∈ ids).
Definition misc_tracks (s : SessionState) (p : SessionTimelineProjection) : Prop :=
  MiscTracks (st_permissionMode s) (st_runtimeMode s) (st_pendingPermissionIds s)
    (st_messageIds s) p.

Definition tracks (s : SessionState) (p : SessionTimelineProjection) : Prop :=
  turn_tracks s p ∧ queue_tracks s p ∧ misc_tracks s p.

Section simulation.
Context `{ContentCodec} `{TimelineCodec} `{Collation} (sessionId : string).
Notation translate := (timelineEventFromDomain sessionId).
Notation apply_event p e := (applyTimelineEvent p (timelineEventFromDomain sessionId e)).

(** The JSON payloads the projection needs were written by the schema library. *)
Definition decodable (e : SessionEvent) : Prop :=
  match e with
  | QueuedTurnEnqueued _ inputJson _ _ _ | QueuedTurnUpdated _ inputJson _ _ =>
      is_Some (decodeComposerInput inputJson)
  | PermissionRequested _ requestId _ payloadJson _ =>
      pr_id <$> decodePermissionRequest payloadJson = Some requestId
  | _ => True
  end.
Definition creates (e : SessionEvent) : bool :=
  match e with SessionCreated _ => true | _ => false end.

Lemma tracks_current s p t :
  turn_tracks s p → tp_activeTurn p = Some t → turns_inv s →
  st_currentTurnId s = Some (tt_id t) ∧ ∃ tn, jm_get (tt_id t) (st_turns s) = Some tn
    ∧ tn_id tn = tt_id t ∧ Z.max (st_turnCount s) (tn_ordinal tn) = st_turnCount s
    ∧ shows_turn tn (st_currentTurnPhase s) t.
Proof.
  unfold turn_tracks, TurnTracks. intros [_ Ht] E I. rewrite E in Ht. destruct Ht as (Hc & tn & Hg & Hs).
  destruct (turns_inv_current s _ I Hc) as (tn' & ph & Hg' & Hid & Hmax & _).
  rewrite Hg in Hg'. injection Hg' as <-. split; [done|]. by exists tn.
Qed.
Lemma tracks_is_current s p k :
  turn_tracks s p → is_current s k → ∃ t, tp_activeTurn p = Some t ∧ tt_id t = k.
Proof.
  unfold turn_tracks, TurnTracks, is_current. intros [_ Ht] Hc.
  destruct (tp_activeTurn p) as [t|]; [|congruence]. exists t. split; [done|].
  destruct Ht as [Ht _]. congruence.
Qed.

(** An event about the current turn that replaces it by [tn'], shown as [t']. *)
Lemma turn_tracks_set s p k tn' phase' t' :
  st_currentTurnId s = Some k → tn_id tn' = k → tt_id t' = k →
  tp_turnCount p = Z.max (st_turnCount s) (tn_ordinal tn') → shows_turn tn' phase' t' →
  TurnTracks (withTurn s tn').1 (st_currentTurnId s) phase' (withTurn s tn').2 (Some t')
    (tp_turnCount p).
Proof.
  intros Hc Hid Ht Hn Hs. unfold withTurn, TurnTracks. cbn [fst snd].
  split; [done|]. rewrite Ht. split; [done|]. exists tn'. rewrite Hid, jm_get_set_eq. done.
Qed.

Lemma turn_tracks_status s p status at_ :
  turns_inv s → turn_tracks s p →
  turn_tracks (evolve s (SessionStatusSet status at_)) (apply_event p (SessionStatusSet status at_)).
Proof.
  intros I T. cbn [evolve timelineEventFromDomain applyTimelineEvent].
  unfold evolve_SessionStatusSet, current_turn. pose proof T as [Tc Ta].
  destruct (tp_activeTurn p) as [t|] eqn:E.
  - destruct (tracks_current s p t T E I) as (Hc & tn & Hg & Hid & Hmax & Hs).
    rewrite Hc. cbn [mbind option_bind]. rewrite Hg. pose proof (sh_status _ _ _ Hs) as Hst.
    cbn [fmap option_fmap option_map].
    destruct (decide (status = SS_running ∧ tn_status tn = TS_starting)) as [[-> Hstart]|Hn].
    + rewrite decide_True by (split; congruence).
      pose (tn' := tn <| tn_status := TS_running |>). pose (t' := t <| tt_turnStatus := TS_running |>).
      refine (turn_tracks_set s p (tt_id t) tn' _ t' Hc Hid _ _ _);
        [done|rewrite Tc; symmetry; exact Hmax|].
      destruct Hs as [H1' H2' H3' H4']. by split.
    + rewrite decide_False by (rewrite Hst; done). by split.
  - rewrite Ta. by split.
Qed.
Lemma turn_tracks_phase s p k phase :
  turns_inv s → turn_tracks s p → is_current s k →
  turn_tracks (evolve_TurnPhaseEvent s k phase (st_version s + 1))
    (applyTimelineEvent p (TE_TurnPhaseSet k (timeline_phase phase))).
Proof.
  intros I T Hk. destruct (tracks_is_current s p k T Hk) as (t & E & <-).
  destruct (tracks_current s p t T E I) as (Hc & tn & Hg & Hid & Hmax & Hs).
  assert (active_is p (tt_id t)) as Hact by (unfold active_is; by rewrite E).
  cbn [applyTimelineEvent]. unfold evolve_TurnPhaseEvent, withTurnPhase.
  rewrite Hg, !decide_True by done. rewrite E.
  split; [apply T|]. split; [done|]. exists (tn <| tn_phase := Some phase |>).
  split; [apply jm_get_set_eq|]. destruct Hs as [H1' H2' H3' H4']. by split.
Qed.
Lemma turn_tracks_attempt s p turnId attemptId ordinal reason at_ turnOrdinal threadId requested :
  turns_inv s → turn_tracks s p →
  let e := AttemptStarted turnId attemptId ordinal reason at_ turnOrdinal threadId requested in
  legal s e → turn_tracks (evolve s e) (apply_event p e).
Proof.
  intros I T e [_ (Hk & tn & Hg & _ & _ & _ & -> & _)].
  destruct (tracks_is_current s p turnId T Hk) as (t & E & <-).
  destruct (tracks_current s p t T E I) as (Hc & tn' & Hg' & Hid & Hmax & Hs).
  rewrite Hg in Hg'. injection Hg' as <-. destruct (T) as [Tc _].
  unfold e. cbn [evolve timelineEventFromDomain applyTimelineEvent].
  unfold evolve_AttemptStarted. rewrite Hg, E, !decide_True by done.
  match goal with |- context [withTurn s ?x] => set (tn' := x) end.
  refine (turn_tracks_set s p (tt_id t) tn' (Some TP_running) _ Hc Hid _ _ _); [done|rewrite Tc; symmetry; exact Hmax|].
  split; cbn; try done. eexists. rewrite lookup_insert_eq. done.
Qed.
Lemma turn_tracks_started s p turnId at_ ordinal attemptId threadId :
  turn_tracks s p →
  let e := TurnStarted turnId at_ ordinal attemptId threadId in
  legal s e → turn_tracks (evolve s e) (apply_event p e).
Proof.
  intros [Tc _] e [_ (_ & _ & -> & -> & _)]. unfold e.
  cbn [evolve timelineEventFromDomain applyTimelineEvent default].
  unfold evolve_TurnStarted. cbn [default].
  match goal with |- context [withTurn s ?x] => set (tn := x) end.
  set (t := starting_turn _ _ _ _ _ _).
  assert (shows_turn tn (Some TP_running) t) as Hs.
  { split; cbn; try done. eexists. rewrite lookup_insert_eq. done. }
  unfold turn_tracks.
  match goal with |- TurnTracks (st_turns ?s') _ _ _ _ _ => set (next := s') end.
  assert (st_turns next = (withTurn s tn).1 ∧ st_currentTurnId next = Some turnId
    ∧ st_currentTurnPhase next = Some TP_running ∧ st_turnCount next = (withTurn s tn).2)
    as (-> & -> & -> & ->) by (unfold next; clearbody tn t; case_match; repeat split).
  split; [cbn; by rewrite Tc|]. split; [done|]. exists tn. split; [apply jm_get_set_eq|done].
Qed.
Lemma turn_tracks_finalizing s p turnId attemptId outcome at_ :
  turns_inv s → turn_tracks s p →
  let e := TurnFinalizationRequested turnId attemptId outcome at_ in
  legal s e → turn_tracks (evolve s e) (apply_event p e).
Proof.
  intros I T e [_ (Hk & _ & _)]. destruct (tracks_is_current s p turnId T Hk) as (t & E & <-).
  destruct (tracks_current s p t T E I) as (Hc & tn & Hg & Hid & Hmax & Hs).
  assert (active_is p (tt_id t)) as Hact by (unfold active_is; by rewrite E).
  unfold e. cbn [evolve timelineEventFromDomain applyTimelineEvent].
  unfold evolve_TurnFinalizationRequested. rewrite Hg, decide_True by done. rewrite E.
  pose (tn' := tn <| tn_status := TS_finalizing |>).
  pose (t' := t <| tt_turnStatus := TS_finalizing |>). destruct (T) as [Tc _].
  refine (turn_tracks_set s p (tt_id t) tn' _ t' Hc Hid _ _ _);
    [done|rewrite Tc; symmetry; exact Hmax|].
  destruct Hs as [H1' H2' H3' H4']. by split.
Qed.
Lemma turn_tracks_settled s p turnId outcome at_ :
  turns_inv s → turn_tracks s p →
  turn_tracks (evolve s (TurnSettled turnId outcome at_))
    (apply_event p (TurnSettled turnId outcome at_)).
Proof.
  intros I [Tc _]. unfold turn_tracks, TurnTracks.
  set (next := evolve s (TurnSettled turnId outcome at_)).
  assert (st_currentTurnId next = None ∧ st_turnCount next = st_turnCount s) as (-> & ->)
    by (unfold next; evolve_cases; by split).
  by split.
Qed.
Lemma turn_tracks_rolled_back s p ids through n removed at_ :
  turn_tracks s p →
  let e := TurnsRolledBack ids through n removed at_ in
  legal s e → turn_tracks (evolve s e) (apply_event p e).
Proof.
  intros [Tc Ta] e [_ (Hk & _)]. unfold e, turn_tracks.
  cbn [timelineEventFromDomain applyTimelineEvent evolve]. unfold evolve_TurnsRolledBack.
  cbn [over st_turns st_currentTurnId st_currentTurnPhase st_turnCount tp_activeTurn tp_turnCount].
  split; [exact Tc|]. destruct (tp_activeTurn p) as [t|]; [|done]. destruct Ta as [Ta _]. congruence.
Qed.

(** Events that leave the turns and the active turn alone. *)
Definition about_turns (e : SessionEvent) : bool :=
  match e with
  | SessionStatusSet _ _ | TurnStarted _ _ _ _ _ | AttemptStarted _ _ _ _ _ _ _ _
  | TurnInterruptRequested _ _ _ | TurnInterruptAcknowledged _ _ | TurnInterruptFailed _ _ _
  | TurnsRolledBack _ _ _ _ _ | TurnFinalizationRequested _ _ _ _ | TurnSettled _ _ _ => true
  | _ => false
  end.
Lemma evolve_turns_same s e :
  about_turns e = false → creates e = false →
  st_turns (evolve s e) = st_turns s ∧ st_currentTurnId (evolve s e) = st_currentTurnId s
  ∧ st_currentTurnPhase (evolve s e) = st_currentTurnPhase s
  ∧ st_turnCount (evolve s e) = st_turnCount s.
Proof. destruct e; intros Ha Hc; try discriminate; evolve_cases; by repeat split. Qed.
Lemma apply_turns_same p e :
  about_turns e = false →
  tp_activeTurn (apply_event p e) = tp_activeTurn p ∧ tp_turnCount (apply_event p e) = tp_turnCount p.
Proof.
  destruct e; intros Ha; try discriminate; cbn [timelineEventFromDomain];
    repeat case_match; by split.
Qed.

Lemma turn_tracks_step s p e :
  turns_inv s → turn_tracks s p → legal s e → creates e = false →
  turn_tracks (evolve s e) (apply_event p e).
Proof.
  intros I T L Hc. destruct (about_turns e) eqn:Ha.
  - destruct e; try discriminate.
    + by apply turn_tracks_status.
    + by apply turn_tracks_started.
    + by apply turn_tracks_attempt.
    + by apply turn_tracks_rolled_back.
    + by apply turn_tracks_finalizing.
    + by apply turn_tracks_settled.
    + by apply turn_tracks_phase; try apply L.
    + by apply turn_tracks_phase; try apply L.
    + by apply turn_tracks_phase; try apply L.
  - unfold turn_tracks. destruct (evolve_turns_same s e Ha Hc) as (-> & -> & -> & ->).
    by destruct (apply_turns_same p e Ha) as [-> ->].
Qed.

(** *** The queue *)

Lemma queue_enqueued s p q inputJson position at_ ready input actor :
  queue_tracks s p → st_queuedTurns s !! q = None → decodeComposerInput inputJson = Some (input, actor) →
  queue_tracks (evolve_QueuedTurnEnqueued s q inputJson position at_ ready (st_version s + 1))
    (apply_event p (QueuedTurnEnqueued q inputJson position at_ ready)).
Proof.
  intros [Hp Hq] Hn Hd. cbn [timelineEventFromDomain]. rewrite Hd.
  split; [exact Hp|]. intros id r. cbn [applyTimelineEvent over tp_queue qs_items
    evolve_QueuedTurnEnqueued st_queuedTurns].
  rewrite upsert_new.
  2: { intros (i & E & Hi)%list_elem_of_fmap. cbn in E.
       assert (qt_ready <$> st_queuedTurns s !! q = Some (qm_ready i)) as Hx
         by (apply Hq; by exists i). by rewrite Hn in Hx. }
  setoid_rewrite elem_of_sort_by. setoid_rewrite elem_of_app. setoid_rewrite list_elem_of_singleton.
  destruct (decide (id = q)) as [->|Hne].
  - rewrite lookup_insert_eq. cbn. split.
    + intros (i & [Hi| ->] & Hid & <-); [|done]. exfalso.
      assert (qt_ready <$> st_queuedTurns s !! q = Some (qm_ready i)) as Hx
        by (apply Hq; by exists i). by rewrite Hn in Hx.
    + intros [= <-]. eexists. split; [by right|done].
  - rewrite lookup_insert_ne by done. rewrite <-Hq. split.
    + intros (i & [Hi| ->] & Hid & Hr); [by exists i|]. cbn in Hid. congruence.
    + intros (i & Hi & Hid & Hr). exists i. split; [by left|done].
Qed.
Lemma queue_updated s p q inputJson at_ ready input actor :
  queue_tracks s p → is_Some (st_queuedTurns s !! q) → decodeComposerInput inputJson = Some (input, actor) →
  queue_tracks (evolve_QueuedTurnUpdated s q inputJson ready (st_version s + 1))
    (apply_event p (QueuedTurnUpdated q inputJson at_ ready)).
Proof.
  intros [Hp Hq] [cur Hcur] Hd. cbn [timelineEventFromDomain]. rewrite Hd.
  unfold evolve_QueuedTurnUpdated. rewrite Hcur. split; [exact Hp|]. intros id r.
  cbn [applyTimelineEvent over tp_queue qs_items st_queuedTurns].
  destruct (decide (id = q)) as [->|Hne].
  - rewrite lookup_insert_eq. cbn. split.
    + intros (i & (i0 & -> & Hi)%list_elem_of_fmap & Hid & <-).
      rewrite update_item_id in Hid. unfold update_item. by rewrite decide_True.
    + intros [= <-].
      destruct (proj2 (Hq q (qt_ready cur))) as (i0 & Hi & Hid & _); [by rewrite Hcur|].
      exists (update_item q input at_ ready i0). split; [by apply list_elem_of_fmap_2|].
      rewrite update_item_id. split; [done|]. unfold update_item. by rewrite decide_True.
  - rewrite lookup_insert_ne by done. rewrite <-Hq. split.
    + intros (i & (i0 & -> & Hi)%list_elem_of_fmap & Hid & Hr). rewrite update_item_id in Hid.
      exists i0. split; [done|]. split; [done|]. revert Hr. unfold update_item.
      by rewrite decide_False by congruence.
    + intros (i0 & Hi & Hid & Hr). exists (update_item q input at_ ready i0).
      split; [by apply list_elem_of_fmap_2|]. rewrite update_item_id. split; [done|].
      unfold update_item. by rewrite decide_False by congruence.
Qed.
Lemma queue_taken s p q :
  queue_tracks s p →
  queue_tracks (evolve_QueuedTurnTaken s q (st_version s + 1))
    (applyTimelineEvent p (TE_QueueRemoved q)).
Proof.
  intros [Hp Hq]. split; [exact Hp|]. intros id r.
  cbn [applyTimelineEvent over tp_queue qs_items evolve_QueuedTurnTaken st_queuedTurns].
  setoid_rewrite list_elem_of_filter. destruct (decide (id = q)) as [->|Hne].
  - rewrite lookup_delete_eq. split; [|done]. by intros (i & [? _] & ? & _).
  - rewrite lookup_delete_ne by done. rewrite <-Hq. split.
    + intros (i & [_ Hi] & ? & ?). by exists i.
    + intros (i & Hi & <- & ?). by exists i.
Qed.
Lemma queue_reordered s p ids at_ :
  queue_tracks s p →
  queue_tracks (evolve s (QueuedTurnsReordered ids at_)) (applyTimelineEvent p (TE_QueueReordered ids)).
Proof.
  intros [Hp Hq]. split; [exact Hp|]. intros id r.
  cbn [applyTimelineEvent over tp_queue qs_items evolve st_queuedTurns].
  setoid_rewrite elem_of_sort_by. rewrite <-Hq. split.
  - intros (i & (i0 & -> & Hi)%list_elem_of_fmap & Hid & Hr). by exists i0.
  - intros (i0 & Hi & Hid & Hr). exists (reposition ids i0). by split; [apply list_elem_of_fmap_2|].
Qed.

Definition about_queue (e : SessionEvent) : bool :=
  match e with
  | SessionQueuePausedSet _ _ | QueuedTurnEnqueued _ _ _ _ _ | QueuedTurnUpdated _ _ _ _
  | QueuedTurnRemoved _ _ | QueuedTurnsReordered _ _ | QueuedTurnClaimed _ _ => true
  | _ => false
  end.
Lemma evolve_queue_same s e :
  about_queue e = false → creates e = false →
  st_queuedTurns (evolve s e) = st_queuedTurns s ∧ st_queuePaused (evolve s e) = st_queuePaused s.
Proof. destruct e; intros Ha Hc; try discriminate; evolve_cases; by repeat split. Qed.
Lemma apply_queue_same p e :
  about_queue e = false → tp_queue (apply_event p e) = tp_queue p.
Proof.
  destruct e; intros Ha; try discriminate; cbn [timelineEventFromDomain];
    repeat case_match; try done; cbn [applyTimelineEvent]; by repeat case_match.
Qed.
Lemma queue_tracks_step s p e :
  queue_tracks s p → legal s e → decodable e → creates e = false →
  queue_tracks (evolve s e) (apply_event p e).
Proof.
  intros Q L D Hc. destruct (about_queue e) eqn:Ha.
  - destruct e; try discriminate.
    + destruct Q as [_ Hq]. by split.
    + destruct D as [[input actor] D]. by eapply queue_enqueued; [done|apply L|].
    + destruct D as [[input actor] D]. by eapply queue_updated; [done|apply L|].
    + by apply queue_taken.
    + by apply queue_reordered.
    + by apply queue_taken.
  - unfold queue_tracks. destruct (evolve_queue_same s e Ha Hc) as [-> ->].
    by rewrite (apply_queue_same p e Ha).
Qed.

(** *** Modes, permissions and messages *)

Lemma elem_of_upsert_items {A K} `{EqDecision K} (key : A → K) l x y :
  y ∈ upsert key l x → y = x ∨ y ∈ l.
Proof.
  induction l as [|z l IH]; cbn; [intros ->%list_elem_of_singleton; by left|].
  case_decide; rewrite !elem_of_cons; naive_solver.
Qed.
Lemma message_permissions known messages l m id :
  (T_Permission, id) ∈ interaction_key <$> message_interactions known messages l m
  ↔ (T_Permission, id) ∈ interaction_key <$> l.
Proof.
  assert (∀ tag i, tag ≠ T_Permission →
    (T_Permission, id) ∈ interaction_key <$> removeInteraction l tag i
    ↔ (T_Permission, id) ∈ interaction_key <$> l) as Hr.
  { intros tag i Ht. unfold removeInteraction. rewrite !list_elem_of_fmap.
    setoid_rewrite list_elem_of_filter. split.
    - intros (x & E & _ & Hx). by exists x.
    - intros (x & E & Hx). exists x. split; [done|]. split; [|done]. rewrite <-E. congruence. }
  unfold message_interactions, upsertInteraction.
  repeat case_match; rewrite ?Hr, ?elem_of_upsert by done; try done; cbn;
    (split; [by intros [?|?]|by right]).
Qed.
Lemma removed_permission l id k :
  (T_Permission, k) ∈ interaction_key <$> removeInteraction l T_Permission id
  ↔ k ≠ id ∧ (T_Permission, k) ∈ interaction_key <$> l.
Proof.
  unfold removeInteraction. rewrite !list_elem_of_fmap. setoid_rewrite list_elem_of_filter. split.
  - intros (x & E & Hx & Hl). split; [|by exists x]. intros ->. by rewrite <-E in Hx.
  - intros [Hne (x & E & Hl)]. exists x. split; [done|]. split; [|done]. rewrite <-E. congruence.
Qed.
Lemma removed_question l id k :
  (T_Permission, k) ∈ interaction_key <$> removeInteraction l T_Question id
  ↔ (T_Permission, k) ∈ interaction_key <$> l.
Proof.
  unfold removeInteraction. rewrite !list_elem_of_fmap. setoid_rewrite list_elem_of_filter. split.
  - intros (x & E & _ & Hl). by exists x.
  - intros (x & E & Hl). exists x. split; [done|]. split; [|done]. by rewrite <-E.
Qed.

Definition about_misc (e : SessionEvent) : bool :=
  match e with
  | SessionRuntimeModeSet _ _ | SessionPermissionModeSet _ _ | TurnsRolledBack _ _ _ _ _
  | MessagePersisted _ | PermissionRequested _ _ _ _ _ | PermissionResolved _ _ _ _
  | PermissionExpired _ _ | PlanExpired _ _ _ | QuestionExpired _ _ | QuestionResolved _ _ => true
  | _ => false
  end.
Lemma evolve_misc_same s e :
  about_misc e = false → creates e = false →
  st_permissionMode (evolve s e) = st_permissionMode s
  ∧ st_runtimeMode (evolve s e) = st_runtimeMode s
  ∧ st_pendingPermissionIds (evolve s e) = st_pendingPermissionIds s
  ∧ st_messageIds (evolve s e) = st_messageIds s.
Proof. destruct e; intros Ha Hc; try discriminate; evolve_cases; by repeat split. Qed.
Lemma apply_misc_same p e :
  about_misc e = false →
  tp_permissionMode (apply_event p e) = tp_permissionMode p
  ∧ tp_runtimeMode (apply_event p e) = tp_runtimeMode p
  ∧ tp_interactions (apply_event p e) = tp_interactions p
  ∧ tp_messages (apply_event p e) = tp_messages p.
Proof.
  destruct e; intros Ha; try discriminate; cbn [timelineEventFromDomain];
    repeat case_match; try done; cbn [applyTimelineEvent]; by repeat case_match.
Qed.
Lemma misc_persisted s p m :
  misc_tracks s p → misc_tracks (evolve s (MessagePersisted m)) (apply_event p (MessagePersisted m)).
Proof.
  intros (Hpm & Hrm & Hi & Hm).
  set (next := evolve s (MessagePersisted m)).
  assert (st_permissionMode next = st_permissionMode s ∧ st_runtimeMode next = st_runtimeMode s
    ∧ st_pendingPermissionIds next = st_pendingPermissionIds s
    ∧ st_messageIds next = st_messageIds s ∪ {[mf_messageId m]}) as (E1 & E2 & E3 & E4)
    by (unfold next; evolve_cases; by repeat split).
  unfold misc_tracks. rewrite E1, E2, E3, E4. clearbody next.
  cbn [timelineEventFromDomain]. repeat case_match;
    try (split; [done|]; split; [done|]; split; [done|]; intros x Hx; apply elem_of_union_l; by apply Hm).
  cbn [applyTimelineEvent]. split; [exact Hpm|]. split; [exact Hrm|]. split.
  - intros id. cbn [apply_message over tp_interactions]. by rewrite message_permissions.
  - intros x. cbn [apply_message over tp_messages]. intros [->|Hx]%elem_of_upsert_items; [set_solver|].
    apply elem_of_union_l. by apply Hm.
Qed.
Lemma misc_tracks_step s p e :
  misc_tracks s p → legal s e → decodable e → creates e = false →
  misc_tracks (evolve s e) (apply_event p e).
Proof.
  intros M L D Hc. destruct (about_misc e) eqn:Ha.
  2: { unfold misc_tracks, MiscTracks. destruct (evolve_misc_same s e Ha Hc) as (-> & -> & -> & ->).
       destruct (apply_misc_same p e Ha) as (-> & -> & -> & ->). exact M. }
  destruct e; try discriminate; try by apply misc_persisted.
  all: destruct M as (Hpm & Hrm & Hi & Hm).
  - by split; [|split].
  - by split; [|split].
  - split; [exact Hpm|]. split; [exact Hrm|]. split; [by intros id; rewrite elem_of_nil|].
    intros x [Hx1 Hx2]%list_elem_of_filter. apply elem_of_difference. split; [by apply Hm|].
    by rewrite elem_of_list_to_set.
  - cbn [decodable] in D. cbn [timelineEventFromDomain].
    destruct (decodePermissionRequest payloadJson) as [request|]; [|done].
    apply (inj Some) in D. cbn [applyTimelineEvent]. split; [exact Hpm|]. split; [exact Hrm|].
    split; [|exact Hm]. intros id. cbn [over tp_interactions evolve st_pendingPermissionIds].
    unfold upsertInteraction, added. rewrite elem_of_upsert, Hi, elem_of_union, elem_of_singleton.
    cbn. rewrite D. split; [intros [[= ->]|?]; tauto|intros [?|<-]; [by right|by left]].
  - split; [exact Hpm|]. split; [exact Hrm|]. split; [|exact Hm].
    intros id. cbn [timelineEventFromDomain applyTimelineEvent over tp_interactions evolve
      st_pendingPermissionIds]. unfold removed. rewrite removed_permission, Hi. set_solver.
  - split; [exact Hpm|]. split; [exact Hrm|]. split; [|exact Hm]. intros id.
    cbn [timelineEventFromDomain applyTimelineEvent over tp_interactions].
    rewrite expire_keys by apply expire_permission_key. apply Hi.
  - split; [exact Hpm|]. split; [exact Hrm|]. split; [|exact Hm]. intros id.
    cbn [timelineEventFromDomain applyTimelineEvent over tp_interactions].
    rewrite expire_keys by apply expire_plan_key. apply Hi.
  - split; [exact Hpm|]. split; [exact Hrm|]. split; [|exact Hm]. intros id.
    cbn [timelineEventFromDomain applyTimelineEvent over tp_interactions].
    rewrite expire_keys by apply expire_question_key. apply Hi.
  - split; [exact Hpm|]. split; [exact Hrm|]. split; [|exact Hm]. intros id.
    cbn [timelineEventFromDomain applyTimelineEvent over tp_interactions].
    rewrite removed_question. apply Hi.
Qed.

Lemma tracks_step s p e :
  turns_inv s → tracks s p → legal s e → decodable e → creates e = false →
  tracks (evolve s e) (apply_event p e).
Proof.
  intros I (T & Q & M) L D Hc.
  split; [by apply turn_tracks_step|]. split; [by apply queue_tracks_step|by apply misc_tracks_step].
Qed.
Lemma legal_existing s e : st_exists s = true → legal s e → creates e = false.
Proof. destruct e; try done. intros He [Hn _]. congruence. Qed.
Lemma evolve_exists s e : creates e = false → st_exists (evolve s e) = st_exists s.
Proof. destruct e; intros Hc; try discriminate; evolve_cases; done. Qed.

Definition fold_events (p : SessionTimelineProjection) (es : list SessionEvent) :=
  foldl (λ p e, apply_event p e) p es.
Lemma tracks_run s p es :
  SessionInvariant s → st_exists s = true → tracks s p → legal_run s es → Forall decodable es →
  tracks (foldl evolve s es) (fold_events p es).
Proof.
  revert s p. induction es as [|e es IH]; intros s p I He T; cbn; [done|].
  intros [L R] D. inversion D as [|? ? D1 D2]; subst.
  pose proof (legal_existing s e He L) as Hc.
  apply IH; [by apply session_invariant_evolve|by rewrite evolve_exists| |done..].
  apply tracks_step; [apply I|done..].
Qed.

(** The projection of a session that was just created. *)
Definition created_projection (f : SessionCreatedEventFields) : SessionTimelineProjection :=
  emptyTimelineProjection
    <| tp_permissionMode := default DEFAULT_PERMISSION_MODE (ce_permissionMode f) |>
    <| tp_runtimeMode := default DEFAULT_RUNTIME_MODE (ce_runtimeMode f) |>
    <| tp_queue := {| qs_items := []; qs_paused := default false (ce_queuePaused f) |} |>.
Lemma tracks_created f :
  complete_creation f →
  tracks (evolve initialSessionState (SessionCreated f)) (created_projection f).
Proof.
  intros (_ & _ & _ & _ & [rm Hrm] & [pm Hpm]).
  set (next := evolve initialSessionState (SessionCreated f)).
  assert (st_currentTurnId next = None ∧ st_turnCount next = 0 ∧ st_queuedTurns next = ∅
    ∧ st_queuePaused next = default false (ce_queuePaused f)
    ∧ st_permissionMode next = ce_permissionMode f ∧ st_runtimeMode next = ce_runtimeMode f
    ∧ st_pendingPermissionIds next = ∅) as (E1 & E2 & E3 & E4 & E5 & E6 & E7)
    by (unfold next; evolve_cases; by repeat split).
  unfold tracks, turn_tracks, queue_tracks, misc_tracks. rewrite E1, E2, E3, E4, E5, E6, E7.
  clearbody next. split; [by split|]. split.
  - split; [done|]. intros id r. rewrite lookup_empty. cbn. split; [|done].
    intros (i & Hi & _). by apply elem_of_nil in Hi.
  - split; [by rewrite Hpm; cbn; rewrite Hpm|]. split; [by rewrite Hrm; cbn; rewrite Hrm|].
    split; [|by intros m Hm%elem_of_nil]. intros id. cbn. rewrite elem_of_nil. set_solver.
Qed.

(** C7: A client's projection in step with a session stays in step through every
    command the session accepts: it shows the current turn with its ordinal,
    status, phase and attempt, the number of turns, exactly the queued inputs with
    their readiness, the modes, the pause flag and exactly the pending permissions. *)
Theorem timeline_tracks_commands s p c es :
  reachable s → st_exists s = true → tracks s p →
  decide_command s c = Success es → Forall decodable es →
  tracks (foldl evolve s es) (fold_events p es).
Proof.
  intros Hr He T Hd D. destruct (reachable_accepted s Hr) as [I Hb].
  apply tracks_run; [done..| |done]. by apply (decide_accepted s c es I Hb Hd).
Qed.
End simulation.

(** ** Bounds of the projection *)

Section bounds.
Context `{CollationLaws}.

Lemma timeline_wf_empty : timeline_wf emptyTimelineProjection.
Proof. split; cbn; try constructor; lia. Qed.

(** What the messages of a projection should be: listed in the order in which they first
    appeared, short of those a rollback removed, each as it was persisted last. *)
Definition order_message (ids : list string) (e : SessionTimelineEvent) : list string :=
  match e with
  | TE_MessagePersisted _ m => if decide (ms_id m ∈ ids) then ids else ids ++ [ms_id m]
  | TE_TranscriptRolledBack _ _ removed => filter (λ id, id ∉ removed) ids
  | _ => ids
  end.
Definition persisted_as (id : string) (e : SessionTimelineEvent) : option Message :=
  match e with
  | TE_MessagePersisted _ m => if decide (ms_id m = id) then Some m else None
  | _ => None
  end.
Definition latest_message (id : string) (es : list SessionTimelineEvent) : option Message :=
  last (omap (persisted_as id) es).
Definition messages_of (es : list SessionTimelineEvent) (messages : list Message) : Prop :=
  ms_id <$> messages = foldl order_message [] es
  ∧ ∀ m, m ∈ messages → latest_message (ms_id m) es = Some m.

Lemma latest_message_snoc id es e :
  latest_message id (es ++ [e])
  = match persisted_as id e with Some m => Some m | None => latest_message id es end.
Proof.
  unfold latest_message. rewrite omap_app. cbn. destruct (persisted_as id e); [by rewrite last_snoc|].
  by rewrite app_nil_r.
Qed.
Lemma elem_of_upserted {A K} `{EqDecision K} (key : A → K) (l : list A) x y :
  NoDup (key <$> l) → y ∈ upsert key l x → y = x ∨ y ∈ l ∧ key y ≠ key x.
Proof.
  induction l as [|z l IH]; cbn; [intros _ ->%list_elem_of_singleton; by left|].
  intros [Hz Hn]%NoDup_cons. destruct (decide (key z = key x)) as [E|E].
  - intros [->|Hy]%elem_of_cons; [by left|right]. split; [by right|]. intros Hk. apply Hz.
    rewrite E, <-Hk. by apply list_elem_of_fmap_2.
  - intros [->|Hy]%elem_of_cons; [right; split; [left|done]|].
    destruct (IH Hn Hy) as [->|[? ?]]; [by left|right]. split; [by right|done].
Qed.
Lemma filter_keys {A} (P : string → Prop) `{∀ x, Decision (P x)} (key : A → string) (l : list A) :
  key <$> filter (λ x, P (key x)) l = filter P (key <$> l).
Proof.
  induction l as [|x l IH]; [done|]. rewrite fmap_cons, !filter_cons.
  case_decide; [by rewrite fmap_cons, IH|done].
Qed.
Lemma messages_of_apply p es e :
  timeline_wf p → messages_of es (tp_messages p) →
  messages_of (es ++ [e]) (tp_messages (applyTimelineEvent p e)).
Proof.
  intros Hwf [Hids Hlatest]. unfold messages_of. rewrite foldl_app. cbn [foldl].
  assert (Hsame : (∀ id, persisted_as id e = None) → order_message (foldl order_message [] es) e = foldl order_message [] es →
    tp_messages (applyTimelineEvent p e) = tp_messages p → messages_of (es ++ [e]) (tp_messages (applyTimelineEvent p e))).
  { intros Hp Ho ->. split; [by rewrite foldl_app; cbn; rewrite Ho|]. intros m Hm.
    rewrite latest_message_snoc, Hp. by apply Hlatest. }
  unfold messages_of in Hsame. rewrite foldl_app in Hsame. cbn [foldl] in Hsame.
  destruct e; try (apply Hsame; [done..|]; cbn; by repeat case_match).
  - clear Hsame. cbn. rewrite upsert_keys, Hids. split; [done|]. intros m Hm.
    rewrite latest_message_snoc. cbn.
    destruct (elem_of_upserted ms_id _ _ _ (wf_messages _ Hwf) Hm) as [->|[Hm' Hne]]; [by rewrite decide_True|].
    rewrite decide_False by done. by apply Hlatest.
  - clear Hsame. cbn. rewrite <-Hids. split; [exact (filter_keys (λ id, id ∉ removedMessageIds) ms_id _)|]. clear Hids.
    intros m [_ Hm]%list_elem_of_filter. rewrite latest_message_snoc. by apply Hlatest.
Qed.

(** C34: whatever events a client folds, the projection lists every message once, in the
    order in which the messages first appeared and each as it was persisted last, but for
    those that were rolled back; every queued input once, in the order of the positions;
    every interaction once; and at most 200 execution steps, newest first, one for each
    item of an attempt. *)
Theorem timeline_well_formed es :
  let p := foldl applyTimelineEvent emptyTimelineProjection es in
  timeline_wf p ∧ ms_id <$> tp_messages p = foldl order_message [] es
  ∧ ∀ m, m ∈ tp_messages p → latest_message (ms_id m) es = Some m.
Proof.
  change (let p := foldl applyTimelineEvent emptyTimelineProjection es in
          timeline_wf p ∧ messages_of es (tp_messages p)).
  induction es as [|e es [IHw IHm]] using rev_ind; cbv zeta.
  - split; [apply timeline_wf_empty|]. split; [done|]. by intros m ?%elem_of_nil.
  - rewrite foldl_app. cbn [foldl]. split; [by apply timeline_wf_apply|by apply messages_of_apply].
Qed.

(** A step is only cut off when 200 steps are there and a further one is opened. *)
Lemma apply_execution_keeps steps identity content key :
  (length steps ≤ MAX_STEPS)%nat →
  (∀ c, content = MC_tool_use c → (length steps < MAX_STEPS)%nat ∨
     ∃ step, step ∈ steps ∧ same_step identity content step = true) →
  key ∈ step_key <$> steps ∨
    (∃ c, content = MC_tool_use c ∧ key = (ei_turnId identity, ei_attemptId identity, tu_itemId c)) →
  key ∈ step_key <$> applyExecutionMessage steps identity content.
Proof.
  intros Hl Hroom Hkey. unfold applyExecutionMessage.
  case_decide as Hskip.
  { destruct Hkey as [?|(c & -> & _)]; [done|by destruct Hskip]. }
  destruct (list_find _ steps) as [[i old]|] eqn:Hf; cbn [fmap option_fmap option_map snd].
  - pose proof Hf as (Hi & Hsame & _)%list_find_Some.
    assert (key ∈ step_key <$> steps) as Hin.
    { destruct Hkey as [?|(c & -> & ->)]; [done|]. apply same_step_key in Hsame.
      apply list_elem_of_fmap. exists old. split; [done|]. by eapply list_elem_of_lookup_2. }
    destruct (evolveExecutionStep (Some old) identity content) as [next|] eqn:Hn; [|done].
    apply evolve_step_key in Hn.
    rewrite take_ge by (rewrite (sort_by_Permutation step_le), length_insert; lia).
    rewrite sort_by_Permutation, list_fmap_insert, Hn.
    rewrite list_insert_id; [done|]. by rewrite list_lookup_fmap, Hi.
  - destruct (evolveExecutionStep None identity content) as [next|] eqn:Hn.
    + apply evolve_step_new in Hn as (c & -> & ->).
      assert (length steps < MAX_STEPS)%nat as Hlt.
      { destruct (Hroom c eq_refl) as [?|(st & Hst & Hs)]; [done|].
        apply list_find_None in Hf. rewrite Forall_forall in Hf. by destruct (Hf st Hst). }
      rewrite take_ge by (rewrite (sort_by_Permutation step_le), length_app; cbn; lia).
      rewrite sort_by_Permutation, fmap_app, elem_of_app. destruct Hkey as [?|(c' & [= <-] & ->)];
        [by left|right]. cbn. by apply list_elem_of_singleton.
    + destruct Hkey as [?|(c & -> & _)]; [done|discriminate Hn].
Qed.

(** Steps are never lost silently: as long as the truncation flag is unset
    after a message, every step of the projection is still there, and the step of a
    tool use of the active turn as well. *)
Theorem steps_lost_only_when_flagged p turnId m :
  timeline_wf p →
  let p' := applyTimelineEvent p (TE_MessagePersisted turnId m) in
  tp_executionStepsTruncated p' = false →
  (∀ key, key ∈ step_key <$> tp_executionSteps p → key ∈ step_key <$> tp_executionSteps p') ∧
  (∀ t c, tp_activeTurn p = Some t → turnId = None ∨ turnId = Some (Some (tt_id t)) →
     ms_content m = MC_tool_use c →
     (tt_id t, sa_id (tt_attempt t), tu_itemId c) ∈ step_key <$> tp_executionSteps p').
Proof.
  intros W p' [_ Hflag]%orb_false_iff. pose proof (wf_steps _ W) as Hl.
  unfold p'. cbn [applyTimelineEvent apply_message over tp_executionSteps].
  destruct (tp_activeTurn p) as [t|] eqn:E; [|split; [done|congruence]].
  case_decide as Hturn.
  { split; [done|]. intros ? c [= <-] [->| ->]; [by destruct Hturn as [[? ?] _]|by destruct Hturn]. }
  set (identity := {| ei_sessionId := _ |}).
  assert (∀ c, ms_content m = MC_tool_use c → (length (tp_executionSteps p) < MAX_STEPS)%nat ∨
     ∃ step, step ∈ tp_executionSteps p ∧ same_step identity (ms_content m) step = true) as Hroom.
  { intros c Hc. rewrite Hc in Hflag |- *. apply andb_false_iff in Hflag as [Hf|Hf].
    - left. by apply Nat.leb_gt.
    - right. apply negb_false_iff, existsb_exists in Hf as (step & Hin & Hs).
      exists step. split; [by apply list_elem_of_In|]. apply same_step_key.
      rewrite !andb_true_iff, !bool_decide_eq_true in Hs. unfold step_key. cbn.
      destruct Hs as [[-> ->] ->]. done. }
  split.
  - intros key Hk. apply apply_execution_keeps; [done..|by left].
  - intros ? c [= <-] _ Hc. apply apply_execution_keeps; [done..|right]. by exists c.
Qed.
End bounds.

(** ** A concrete session and its timeline *)

Module timeline_demo.
Import demo.
(** Strings in the order of their encodings. *)
#[export] Instance encoded_order : Collation := λ a b, Pos.leb (countable.encode a) (countable.encode b).
#[export] Instance encoded_order_laws : CollationLaws.
Proof.
  split; unfold locale_le, encoded_order; intros; rewrite ?Pos.leb_le in *; lia.
Qed.
#[export] Instance demo_codec : TimelineCodec :=
  {| decodeComposerInput := λ s, Some (JStr s, None);
     decodePermissionRequest := λ s, Some {| pr_id := s; pr_expired := false; pr_fields := JStr "" |} |}.

Definition idle_session : SessionState :=
  run_commands initialSessionState [CreateSession demo.created None None].
Lemma idle_reachable : reachable idle_session.
Proof. apply run_commands_reachable, reachable_initial. Qed.
Lemma idle_tracks : tracks idle_session emptyTimelineProjection.
Proof.
  refine (tracks_created (created_event demo.created (Some NP_pending) None) _).
  repeat split; by eexists.
Qed.
Definition submit : SessionCommand :=
  SubmitTurn "t1" "m1" "user" "user" "{}" None "{}" 20.
Definition submitted : list SessionEvent :=
  match decide_command idle_session submit with Success es => es | Failure _ => [] end.

Definition tool_message (item : string) : Message :=
  {| ms_id := item; ms_sessionId := "s1"; ms_role := MR_assistant;
     ms_content := MC_tool_use {| tu_itemId := item; tu_tool := "bash"; tu_input := JNull;
                                  tu_parentItemId := None; tu_backgroundTask := None;
                                  tu_subagent := None |};
     ms_createdAt := 30 |}.
Definition shown_turn : SessionTurn :=
  starting_turn "s1" "t1" 1 {| sa_id := "a1"; sa_ordinal := 1; sa_reason := AR_initial |} None 20.
Definition with_turn : SessionTimelineProjection :=
  applyTimelineEvent emptyTimelineProjection (TE_TurnStarted shown_turn).
End timeline_demo.
Import demo timeline_demo.

Lemma timeline_tracks_commands_witness :
  st_currentTurnId (foldl evolve idle_session submitted) = Some "t1" ∧
  tracks (foldl evolve idle_session submitted)
    (fold_events "s1" emptyTimelineProjection submitted).
Proof.
  split; [vm_compute; reflexivity|].
  apply (timeline_tracks_commands "s1" idle_session emptyTimelineProjection submit);
    [exact idle_reachable|vm_compute; reflexivity|exact idle_tracks|vm_compute; reflexivity|].
  repeat constructor.
Defined.
Lemma timeline_well_formed_witness :
  let p := foldl applyTimelineEvent emptyTimelineProjection
    [TE_TurnStarted shown_turn; TE_MessagePersisted None (tool_message "i1");
     TE_MessagePersisted None (tool_message "i2"); TE_MessagePersisted None (tool_message "i1")] in
  timeline_wf p ∧ ms_id <$> tp_messages p = ["i1"; "i2"].
Proof.
  destruct (timeline_well_formed [TE_TurnStarted shown_turn; TE_MessagePersisted None (tool_message "i1");
     TE_MessagePersisted None (tool_message "i2"); TE_MessagePersisted None (tool_message "i1")]) as (Hwf & Hids & _).
  split; [exact Hwf|exact Hids].
Defined.
Lemma steps_lost_only_when_flagged_witness :
  ("t1", "a1", "i1") ∈ step_key <$>
    tp_executionSteps (applyTimelineEvent with_turn (TE_MessagePersisted None (tool_message "i1"))).
Proof.
  refine (proj2 (steps_lost_only_when_flagged with_turn None (tool_message "i1") _ _)
            shown_turn _ _ (or_introl eq_refl) eq_refl); [|vm_compute; reflexivity..].
  apply timeline_wf_apply, timeline_wf_empty.
Defined.
