(* ===== verification/TurnProtocol.v ===== *)
(** * Correlating provider events with application turns

    [packages/agents/src/kernel/turn-protocol.ts]: [makeTurnScopedSessionHandle]
    wraps a provider's session handle, attributes each native event to a turn,
    closes the children of a turn before it completes, and admits one send per
    turn. A handler is one step: it runs without yielding. The wrapped handle is
    not part of the source; its calls are recorded, what they answer is an
    argument. *)
From S2P Require Import Prelude Js JsMap Contracts.

(** ** Events *)

Inductive AgentStatus : Set :=
| AgentIdle | AgentStarting | AgentRunning | AgentWaiting | AgentClosed | AgentError.
#[export] Instance AgentStatus_eq_dec : EqDecision AgentStatus.
Proof. solve_decision. Defined.
Inductive CompletedReason : Set := CR_ended | CR_interrupted | CR_error.
#[export] Instance CompletedReason_eq_dec : EqDecision CompletedReason.
Proof. solve_decision. Defined.

(** The provider events, with the fields the protocol reads; [fields] is the rest. *)
Inductive AgentEvent : Type :=
| Started (fields : json)
| Status (status : AgentStatus)
| Auth (fields : json)
| Version (fields : json)
| Capabilities (fields : json)
| AssistantMessage (itemId : string) (parentItemId : option string) (fields : json)
| Thinking (itemId : string) (parentItemId : option string) (fields : json)
| ToolUse (c : ToolUseContent)
| ToolResult (c : ToolResultContent)
| PermissionRequest (itemId : string) (parentItemId : option string) (fields : json)
| SubagentSummary (c : SubagentSummaryContent)
| SubagentProgress (c : SubagentProgressContent)
| UsageDelta (parentItemId : option string) (fields : json)
| ContextUsage (fields : json)
| ContextCompaction (itemId : string) (fields : json)
| UsageLimit (fields : json)
| SessionCursor (fields : json)
| NativeTurnStarted (reference : ProviderTurnReference)
| ProviderNotificationMetadata (fields : json)
| UserQuestion (itemId : string) (questions : json) (parentItemId : option string)
| UserQuestionResolved (itemId : string) (resolution : string)
| PlanApprovalRequested (fields : json)
| PermissionModeChanged (fields : json)
| GoalUpdated (fields : json)
| GoalCleared
| ProviderTurnStarted
| Completed (reason : CompletedReason)
| Interrupted
| Error (message : string) (fields : json).

#[export] Instance Presentation_eq_dec : EqDecision Presentation.
Proof. solve_decision. Defined.

Inductive ProviderDriverEvent : Type :=
| Agent (e : AgentEvent)
| QuestionCallbackReleased (itemId reason : string).

Record ProviderAttemptOwnership := { ow_turnId : string; ow_attemptId : string }.
Inductive Envelope : Type :=
| SessionEnvelope (e : ProviderDriverEvent)
| TurnEnvelope (turnId : string) (e : AgentEvent).

(** ** State *)

Inductive ChildKind : Set := CK_subagent | CK_background.
#[export] Instance ChildKind_eq_dec : EqDecision ChildKind.
Proof. solve_decision. Defined.
Record NativeChild := {
  nc_toolUse : ToolUseContent;
  nc_nativeChildId : string;
  nc_childKind : ChildKind }.
Inductive TurnOrigin : Set := FromApplication | FromProvider.
#[export] Instance TurnOrigin_eq_dec : EqDecision TurnOrigin.
Proof. solve_decision. Defined.

(** [Deferred]s are their creation numbers. *)
Record ActiveTurn := {
  act_turnId : string;
  act_released : nat;
  act_sent : bool;
  act_origin : TurnOrigin;
  act_children : list (string * NativeChild);
  act_completedChildren : gset string;
  act_pendingCompletion : option CompletedReason }.
#[export] Instance ActiveTurn_eta : Settable ActiveTurn := λ a,
  Build_ActiveTurn (act_turnId a) (act_released a) (act_sent a) (act_origin a)
    (act_children a) (act_completedChildren a) (act_pendingCompletion a).

Definition MAX_ITEM_TURNS : nat := 4096.

(** The calls made on the wrapped handle. *)
Inductive HandleCall : Type :=
| CallClose
| CallSend (turnId : string)
| CallInterrupt
| CallStopBackgroundTask (taskId : string).

Record HandleState := {
  hs_activeTurn : option ActiveTurn;
  hs_itemTurns : list (string * string);
  hs_goalOwned : bool;
  hs_finished : bool;
  hs_ended : bool;
  hs_resolved : gset nat;
  hs_deferreds : nat;
  hs_uuids : nat;
  hs_injected : list ProviderDriverEvent;
  hs_calls : list HandleCall }.
#[export] Instance HandleState_eta : Settable HandleState := λ h,
  Build_HandleState (hs_activeTurn h) (hs_itemTurns h) (hs_goalOwned h) (hs_finished h)
    (hs_ended h) (hs_resolved h) (hs_deferreds h) (hs_uuids h) (hs_injected h) (hs_calls h).

Record NormalizedBatch := { nb_events : list Envelope; nb_released : option nat }.
Definition batch (events : list Envelope) : NormalizedBatch :=
  {| nb_events := events; nb_released := None |}.
Definition ending (events : list Envelope) (active : ActiveTurn) : NormalizedBatch :=
  {| nb_events := events; nb_released := Some (act_released active) |}.

Definition new_turn (turnId : string) (released : nat) (sent : bool) (origin : TurnOrigin)
  : ActiveTurn :=
  {| act_turnId := turnId; act_released := released; act_sent := sent; act_origin := origin;
     act_children := []; act_completedChildren := ∅; act_pendingCompletion := None |}.

(** [makeTurnScopedSessionHandle]: the attempt that owns the handle and its first
    state, or the death of the effect. *)
Definition make_handle (initialTurnId initialAttemptId : option string)
  : option (option ProviderAttemptOwnership * HandleState) :=
  let state (active : option ActiveTurn) :=
    {| hs_activeTurn := active; hs_itemTurns := []; hs_goalOwned := false; hs_finished := false;
       hs_ended := false; hs_resolved := ∅; hs_deferreds := 1; hs_uuids := 0;
       hs_injected := []; hs_calls := [] |} in
  match initialTurnId, initialAttemptId with
  | None, Some _ => None
  | None, None => Some (None, state None)
  | Some turnId, None => Some (None, state (Some (new_turn turnId 0 false FromApplication)))
  | Some turnId, Some attemptId =>
      Some (Some {| ow_turnId := turnId; ow_attemptId := attemptId |}, state None)
  end.

(** ** Classification of events *)

Definition is_session_event (e : AgentEvent) : bool :=
  match e with
  | Started _ | Auth _ | Version _ | Capabilities _ | SessionCursor _
  | ProviderNotificationMetadata _ | PermissionModeChanged _ | GoalUpdated _ | GoalCleared
  | UsageLimit _ => true
  | _ => false
  end.
Definition is_terminal_event (e : AgentEvent) : bool :=
  match e with Completed _ | Interrupted | Error _ _ => true | _ => false end.
Definition is_status (e : AgentEvent) : bool :=
  match e with Status _ => true | _ => false end.

Definition parentItemIdOf (e : AgentEvent) : option string :=
  match e with
  | AssistantMessage _ p _ | Thinking _ p _ | PermissionRequest _ p _ | UsageDelta p _
  | UserQuestion _ _ p => p
  | ToolUse c => tu_parentItemId c
  | ToolResult c => tr_parentItemId c
  | _ => None
  end.
(** The item of an event that [referencesToolUse]. *)
Definition referencesToolUse (e : AgentEvent) : option string :=
  match e with
  | ToolUse c => Some (tu_itemId c)
  | ToolResult c => Some (tr_itemId c)
  | SubagentSummary c => Some (ss_itemId c)
  | _ => None
  end.

(** ** Children *)

(** The counters of a summary and of a progress report made up by the protocol. *)
Definition no_turns : json := JObj [("turns", JNum 0); ("durationMs", JNum 0)].
Definition no_progress : json :=
  JObj [("durationMs", JNum 0); ("turns", JNum 0); ("toolCalls", JNum 0); ("tokens", JNum 0);
        ("contextPercentage", JNum 0); ("toolsUsed", JArr []); ("errorCount", JNum 0)].
Definition child_id (c : NativeChild) : string := tu_itemId (nc_toolUse c).
Definition stopped_child (c : NativeChild) : AgentEvent :=
  match nc_childKind c with
  | CK_background =>
      ToolResult {| tr_itemId := child_id c;
                    tr_output := JStr "Background task stopped when its parent execution ended.";
                    tr_isError := true; tr_parentItemId := None;
                    tr_backgroundOutcome := Some BTO_stopped |}
  | CK_subagent =>
      SubagentSummary {| ss_itemId := child_id c; ss_agentName := "Delegated work";
                         ss_model := "unknown";
                         ss_summary := "Child stopped when its parent execution ended.";
                         ss_isError := true; ss_childSessionId := Some (nc_nativeChildId c);
                         ss_presentation :=
                           Some (default PR_detached (sa_presentation <$> tu_subagent (nc_toolUse c)));
                         ss_usage := no_turns |}
  end.
Definition stoppedChildren (active : ActiveTurn) : list Envelope :=
  (λ c, TurnEnvelope (act_turnId active) (stopped_child c)) <$> jm_values (act_children active).

Definition progress_event (c : NativeChild) : AgentEvent :=
  SubagentProgress {| sp_rootCompleted := Some true; sp_childId := child_id c;
                      sp_parentId := child_id c; sp_childSessionId := nc_nativeChildId c;
                      sp_status := "running"; sp_usage := no_progress |}.

Definition has_children (active : ActiveTurn) : bool :=
  match act_children active with [] => false | _ => true end.
Definition is_background_child (active : ActiveTurn) (itemId : string) : bool :=
  bool_decide (nc_childKind <$> jm_get itemId (act_children active) = Some CK_background).

(** Whether an event belongs to a child of a turn whose completion is pending. *)
Definition known_child_event (active : ActiveTurn) (e : AgentEvent) : bool :=
  let child_of (p : option string) :=
    match p with Some parent => jm_has parent (act_children active) | None => false end in
  match e with
  | SubagentSummary c => jm_has (ss_itemId c) (act_children active)
  | ToolUse c =>
      match tu_subagent c with
      | Some _ => jm_has (tu_itemId c) (act_children active)
      | None => child_of (tu_parentItemId c)
      end
  | ToolResult c =>
      if is_background_child active (tr_itemId c) then jm_has (tr_itemId c) (act_children active)
      else child_of (tr_parentItemId c)
  | SubagentProgress c =>
      existsb (λ child, bool_decide (nc_nativeChildId child = sp_childSessionId c))
        (jm_values (act_children active))
  | e => child_of (parentItemIdOf e)
  end.

Definition launch_child (c : ToolUseContent) : NativeChild :=
  {| nc_toolUse := c;
     nc_nativeChildId :=
       default (tu_itemId c) ((sa_childSessionId <$> tu_subagent c) ?? tu_backgroundTask c);
     nc_childKind := match tu_subagent c with None => CK_background | Some _ => CK_subagent end |}.

(** The item that an event closes as a child: a summary, or the result of a
    background child. *)
Definition closes_child (active : ActiveTurn) (e : AgentEvent) : option string :=
  match e with
  | SubagentSummary c => Some (ss_itemId c)
  | ToolResult c => if is_background_child active (tr_itemId c) then Some (tr_itemId c) else None
  | _ => None
  end.

Definition launches_child (e : AgentEvent) : option ToolUseContent :=
  match e with
  | ToolUse c =>
      match tu_subagent c, tu_backgroundTask c with None, None => None | _, _ => Some c end
  | _ => None
  end.

(** The reason of an event that asks a turn with open children to complete. *)
Definition completion_request (e : AgentEvent) : option CompletedReason :=
  match e with
  | Completed CR_ended => Some CR_ended
  | Status AgentIdle => Some CR_ended
  | _ => None
  end.

(** An event that ends the provider's execution although children are open. *)
Definition ends_abnormally (e : AgentEvent) : bool :=
  match e with
  | Status AgentClosed | Status AgentError | Interrupted | Error _ _
  | Completed CR_error | Completed CR_interrupted => true
  | _ => false
  end.

Section protocol.
Context (uuid : nat → string) (ownership : option ProviderAttemptOwnership).

(** ** Items *)

Definition rememberItem (items : list (string * string)) (e : AgentEvent) (turnId : string)
  : list (string * string) :=
  match e with
  | ToolUse c =>
      let items := jm_set (tu_itemId c) turnId (jm_delete (tu_itemId c) items) in
      if decide (MAX_ITEM_TURNS < jm_size items) then drop 1 items else items
  | _ => items
  end.

Definition originTurnOf (items : list (string * string)) (e : AgentEvent) : option string :=
  if is_terminal_event e then None
  else
    (parentItemIdOf e ≫= λ parent, jm_get parent items)
    ?? (referencesToolUse e ≫= λ item, jm_get item items).

(** ** [normalize] *)

Definition status_name (s : AgentStatus) : string :=
  match s with
  | AgentIdle => "idle" | AgentStarting => "starting" | AgentRunning => "running"
  | AgentWaiting => "waiting" | AgentClosed => "closed" | AgentError => "error"
  end.

(** The last part of [normalize], for an event of the active turn (or of none)
    that no rule about children has taken. *)
Definition normalize_plain (items : list (string * string)) (active : option ActiveTurn)
    (e : AgentEvent) : NormalizedBatch * option ActiveTurn * list (string * string) :=
  match e, active with
  | Status AgentIdle, Some a =>
      (ending (stoppedChildren a
               ++ [TurnEnvelope (act_turnId a) (Completed CR_ended); SessionEnvelope (Agent e)]) a,
       None, items)
  | Status ((AgentClosed | AgentError) as s), Some a =>
      (ending (stoppedChildren a
               ++ [TurnEnvelope (act_turnId a)
                     (Error ("Provider entered " +:+ status_name s +:+ " state") JNull);
                   TurnEnvelope (act_turnId a) (Completed CR_error); SessionEnvelope (Agent e)]) a,
       None, items)
  | Status _, _ => (batch [SessionEnvelope (Agent e)], active, items)
  | (UserQuestion _ _ _ | UserQuestionResolved _ _), None =>
      (batch [SessionEnvelope (Agent e)], None, items)
  | _, None => (batch [], None, items)
  | Completed _, Some a =>
      (ending (stoppedChildren a ++ [TurnEnvelope (act_turnId a) e]) a, None, items)
  | Interrupted, Some a =>
      (ending (stoppedChildren a ++ [TurnEnvelope (act_turnId a) e;
                                     TurnEnvelope (act_turnId a) (Completed CR_interrupted)]) a,
       None, items)
  | Error _ _, Some a =>
      (ending (stoppedChildren a ++ [TurnEnvelope (act_turnId a) e;
                                     TurnEnvelope (act_turnId a) (Completed CR_error)]) a,
       None, items)
  | _, Some a =>
      (batch [TurnEnvelope (act_turnId a) e], active, rememberItem items e (act_turnId a))
  end.

(** The rules about the children of the active turn, then the plain ones. *)
Definition normalize_active (items : list (string * string)) (a : ActiveTurn) (e : AgentEvent)
  : NormalizedBatch * option ActiveTurn * list (string * string) :=
  let turn := TurnEnvelope (act_turnId a) in
  if bool_decide (is_Some (act_pendingCompletion a)) && negb (is_terminal_event e) && negb (is_status e)
     && negb (known_child_event a e)
  then (batch [], Some a, items)
  else
    match launches_child e with
    | Some c =>
        if decide (tu_itemId c ∈ act_completedChildren a) then (batch [], Some a, items)
        else (batch [turn e],
              Some (a <| act_children ::= jm_set (tu_itemId c) (launch_child c) |>),
              rememberItem items e (act_turnId a))
    | None =>
        match closes_child a e with
        | Some item =>
            let children := jm_delete item (act_children a) in
            match children, act_pendingCompletion a with
            | [], Some reason => (ending [turn e; turn (Completed reason)] a, None, items)
            | _, _ =>
                (batch [turn e],
                 Some (a <| act_children := children |>
                         <| act_completedChildren := act_completedChildren a ∪ {[item]} |>),
                 items)
            end
        | None =>
            match completion_request e with
            | Some reason =>
                if has_children a then
                  match act_pendingCompletion a with
                  | Some _ => (batch [], Some a, items)
                  | None =>
                      (batch ((λ c, turn (progress_event c)) <$> jm_values (act_children a)),
                       Some (a <| act_pendingCompletion := Some reason |>), items)
                  end
                else normalize_plain items (Some a) e
            | None => normalize_plain items (Some a) e
            end
        end
    end.

(** The [Ref.modify] of [normalize]. *)
Definition normalize_event (items : list (string * string)) (active : option ActiveTurn)
    (e : AgentEvent) : NormalizedBatch * option ActiveTurn * list (string * string) :=
  if is_session_event e then (batch [SessionEnvelope (Agent e)], active, items)
  else
    match originTurnOf items e with
    | Some origin =>
        if decide (Some origin = act_turnId <$> active) then
          match active with
          | Some a => normalize_active items a e
          | None => normalize_plain items None e
          end
        else (batch [TurnEnvelope origin e], active, rememberItem items e origin)
    | None =>
        match active with
        | Some a => normalize_active items a e
        | None => normalize_plain items None e
        end
    end.

Definition is_completed (e : AgentEvent) : bool :=
  match e with Completed _ => true | _ => false end.
(** [envelope.scope === "turn" && envelope.turnId === turnId && Completed]. *)
Definition completes (turnId : string) (env : Envelope) : bool :=
  match env with
  | TurnEnvelope t e => bool_decide (t = turnId) && is_completed e
  | SessionEnvelope _ => false
  end.

(** An envelope as it leaves the handle, with the attempt that owns it. *)
Definition Emitted : Type := Envelope * option ProviderAttemptOwnership.
Definition owned_envelope (env : Envelope) : Emitted :=
  match ownership, env with
  | None, _ => (env, None)
  | Some o, TurnEnvelope t _ =>
      (env, if decide (t = ow_turnId o) then Some o else None)
  | Some o, SessionEnvelope _ => (env, Some o)
  end.

Definition releaseBatch (h : HandleState) (b : NormalizedBatch) : HandleState * list Emitted :=
  let h :=
    match nb_released b with
    | None => h
    | Some d =>
        let h := h <| hs_resolved := hs_resolved h ∪ {[d]} |> in
        let finishes := match ownership with
                        | None => true
                        | Some o => existsb (completes (ow_turnId o)) (nb_events b)
                        end in
        if finishes then h <| hs_finished := true |> else h
    end in
  (h, owned_envelope <$> nb_events b).

Definition set_active (h : HandleState) (active : option ActiveTurn)
    (items : list (string * string)) : HandleState :=
  h <| hs_activeTurn := active |> <| hs_itemTurns := items |>.

(** [quiesce]: the provider is closed before its open children are ended. *)
Definition quiesce (h : HandleState) (e : AgentEvent) : HandleState :=
  match hs_activeTurn h with
  | Some a =>
      if (has_children a || hs_goalOwned h) && ends_abnormally e
      then h <| hs_calls := hs_calls h ++ [CallClose] |> else h
  | None => h
  end.

Definition normalize (h : HandleState) (event : ProviderDriverEvent)
  : HandleState * list Emitted :=
  match event with
  | QuestionCallbackReleased _ _ => releaseBatch h (batch [SessionEnvelope event])
  | Agent (NativeTurnStarted r) =>
      if hs_goalOwned h then (h, [])
      else
        let '(b, active, items) :=
          normalize_event (hs_itemTurns h) (hs_activeTurn h) (NativeTurnStarted r) in
        releaseBatch (set_active h active items) b
  | Agent ProviderTurnStarted =>
      match hs_activeTurn h with
      | Some _ => releaseBatch h (batch [])
      | None =>
          let turnId := "turn_" +:+ uuid (hs_uuids h) in
          releaseBatch
            (h <| hs_activeTurn := Some (new_turn turnId (hs_deferreds h) true FromProvider) |>
               <| hs_deferreds := S (hs_deferreds h) |> <| hs_uuids := S (hs_uuids h) |>)
            (batch [TurnEnvelope turnId ProviderTurnStarted])
      end
  | Agent e =>
      let h := quiesce h e in
      let '(b, active, items) := normalize_event (hs_itemTurns h) (hs_activeTurn h) e in
      releaseBatch (set_active h active items) b
  end.

Definition finalizeUnexpectedExit (h : HandleState) : HandleState * list Emitted :=
  match hs_activeTurn h with
  | None => (h <| hs_ended := true |>, [])
  | Some a =>
      let h := if has_children a || hs_goalOwned h
               then h <| hs_calls := hs_calls h ++ [CallClose] |> else h in
      releaseBatch
        (h <| hs_activeTurn := None |> <| hs_ended := true |>)
        (ending (stoppedChildren a
                 ++ [TurnEnvelope (act_turnId a)
                       (Error "Provider event stream ended before the turn settled" JNull);
                     TurnEnvelope (act_turnId a) (Completed CR_error)]) a)
  end.

(** ** Commands *)

Inductive SendOutcome : Type :=
| SendRuns            (** the operation runs *)
| SendNothing         (** a repeated or a finished send *)
| SendUnavailable     (** [ProviderHandleUnavailable] *)
| SendDies.           (** the effect dies *)

(** [admitSend] up to its operation; [goal] is set by [sendGoal]. *)
Definition admitSend (h : HandleState) (turnId : string) (goal : bool) : HandleState * SendOutcome :=
  let run (h : HandleState) (active : ActiveTurn) :=
    (h <| hs_activeTurn := Some active |>
       <| hs_goalOwned := hs_goalOwned h || goal |>
       <| hs_calls := hs_calls h ++ [CallSend turnId] |>, SendRuns) in
  let admitted :=
    if hs_ended h then (h, SendUnavailable)
    else
      let released := hs_deferreds h in
      let h := h <| hs_deferreds := S (hs_deferreds h) |> in
      match hs_activeTurn h with
      | None => run h (new_turn turnId released true FromApplication)
      | Some a =>
          if decide (act_turnId a = turnId) then
            if act_sent a then (h, SendNothing) else run h (a <| act_sent := true |>)
          else if decide (act_origin a = FromProvider) then
            run (h <| hs_resolved := hs_resolved h ∪ {[act_released a]} |>)
              (a <| act_turnId := turnId |> <| act_released := released |>
                 <| act_sent := true |> <| act_origin := FromApplication |>)
          else (h, SendDies)
      end in
  match ownership with
  | Some o =>
      if decide (turnId ≠ ow_turnId o) then (h, SendDies)
      else if hs_finished h then (h, SendNothing)
      else admitted
  | None => admitted
  end.

(** The recovery of a send whose operation failed. *)
Definition sendFailed (h : HandleState) (turnId : string) : HandleState :=
  match hs_activeTurn h with
  | Some a =>
      if decide (act_turnId a = turnId)
      then h <| hs_activeTurn := None |> <| hs_resolved := hs_resolved h ∪ {[act_released a]} |>
      else h
  | None => h
  end.

(** The input [sendGoal] gives [setGoal]: [current] says that the provider has a
    goal. [None] is the death of the effect. *)
Definition goal_objective (supported : bool) (objective fallback : option string) (current : bool)
  : option (option string) :=
  if negb supported then None
  else match objective with
       | Some _ => Some objective
       | None =>
           if current then Some None
           else match fallback with
                | None => None
                | Some f => if decide (f = "Resume goal") then None else Some (Some f)
                end
       end.

Inductive StopOutcome : Type := StopCalled | StopNothing | StopFails (message : string).
Definition stopBackgroundTask (supported : bool) (h : HandleState) (turnId taskId : string)
  : HandleState * StopOutcome :=
  match hs_activeTurn h with
  | Some a =>
      if decide (act_turnId a ≠ turnId)
      then (h, StopFails "The background task's turn is no longer active.")
      else
        match list_find (λ c, nc_nativeChildId c = taskId) (jm_values (act_children a)) with
        | None => (h, StopNothing)
        | Some (_, child) =>
            if decide (nc_childKind child = CK_subagent
                       ∧ sa_presentation <$> tu_subagent (nc_toolUse child) ≠ Some PR_detached)
            then (h, StopFails "This task is foreground work.")
            else if supported
            then (h <| hs_calls := hs_calls h ++ [CallStopBackgroundTask taskId] |>, StopCalled)
            else (h, StopFails "This provider does not support stopping individual background tasks.")
        end
  | None => (h, StopFails "The background task's turn is no longer active.")
  end.

(** [interrupt]: the deferred it waits for, or the death of the effect. *)
Definition interrupt (h : HandleState) (turnId : string) : HandleState * option nat :=
  match hs_activeTurn h with
  | Some a =>
      if decide (act_turnId a ≠ turnId) then (h, None)
      else
        ((if bool_decide (is_Some (act_pendingCompletion a)) || hs_goalOwned h
          then h <| hs_injected := hs_injected h ++ [Agent Interrupted] |>
          else h <| hs_calls := hs_calls h ++ [CallInterrupt] |>),
         Some (act_released a))
  | None => (h, None)
  end.

(** ** Steps *)

Inductive action : Type :=
| A_Event (e : ProviderDriverEvent)
| A_Injected
| A_Exit
| A_Send (turnId : string) (goal : bool)
| A_SendFailed (turnId : string)
| A_Stop (turnId taskId : string)
| A_Interrupt (turnId : string).

Definition act (supported : bool) (h : HandleState) (x : action) : HandleState * list Emitted :=
  match x with
  | A_Event e => normalize h e
  | A_Injected =>
      match hs_injected h with
      | e :: rest => normalize (h <| hs_injected := rest |>) e
      | [] => (h, [])
      end
  | A_Exit => finalizeUnexpectedExit h
  | A_Send turnId goal => ((admitSend h turnId goal).1, [])
  | A_SendFailed turnId => (sendFailed h turnId, [])
  | A_Stop turnId taskId => ((stopBackgroundTask supported h turnId taskId).1, [])
  | A_Interrupt turnId => ((interrupt h turnId).1, [])
  end.

Fixpoint run_actions (supported : bool) (h : HandleState) (l : list action)
  : HandleState * list Emitted :=
  match l with
  | [] => (h, [])
  | x :: rest =>
      let r := act supported h x in
      let q := run_actions supported r.1 rest in
      (q.1, r.2 ++ q.2)
  end.
End protocol.
