(* ===== verification/TurnProtocolProps.v ===== *)
(** * Turn protocol: turns end once, with their children closed

    What a step of the turn-scoped handle does to the active turn, the
    well-formedness its states keep, and what follows for whole runs: an exact
    account of started and completed turns, interrupts that are always released,
    a bounded item index and the admission of one turn at a time. *)
From S2P Require Import Prelude Js JsMap Contracts TurnProtocol.

(** ** Reading envelopes *)

(** The turns a list of envelopes completes, in order. *)
Definition completed_turn (env : Envelope) : option string :=
  match env with TurnEnvelope t (Completed _) => Some t | _ => None end.
Definition completed_turns (l : list Envelope) : list string := omap completed_turn l.

(** The item an envelope of turn [t] closes as a child. *)
Definition closed_item (t : string) (env : Envelope) : option string :=
  match env with
  | TurnEnvelope t' (ToolResult c) => if decide (t' = t) then Some (tr_itemId c) else None
  | TurnEnvelope t' (SubagentSummary c) => if decide (t' = t) then Some (ss_itemId c) else None
  | _ => None
  end.

Lemma completed_turns_app l k : completed_turns (l ++ k) = completed_turns l ++ completed_turns k.
Proof. apply omap_app. Qed.
Lemma completed_turns_stopped a : completed_turns (stoppedChildren a) = [].
Proof.
  unfold stoppedChildren. induction (jm_values (act_children a)) as [|c l IH]; [done|].
  cbn. unfold stopped_child at 1. by destruct (nc_childKind c).
Qed.

(** ** Well-formed states *)

Record turn_wf (deferreds : nat) (resolved : gset nat) (a : ActiveTurn) : Prop := {
  tw_children : jm_wf (act_children a);
  tw_keys : ∀ k c, (k, c) ∈ act_children a → child_id c = k;
  tw_pending : is_Some (act_pendingCompletion a) → act_children a ≠ [];
  tw_provider : act_origin a = FromProvider → act_sent a = true;
  tw_deferred : act_released a < deferreds;
  tw_unresolved : act_released a ∉ resolved }.
Record handle_wf (h : HandleState) : Prop := {
  hw_turn : ∀ a, hs_activeTurn h = Some a → turn_wf (hs_deferreds h) (hs_resolved h) a;
  hw_resolved : ∀ d, d ∈ hs_resolved h → d < hs_deferreds h;
  hw_items : jm_wf (hs_itemTurns h);
  hw_bound : length (hs_itemTurns h) ≤ MAX_ITEM_TURNS }.

Lemma jm_delete_length {V} (k : string) (m : list (string * V)) : length (jm_delete k m) ≤ length m.
Proof. apply length_filter. Qed.
Lemma jm_set_length {V} (k : string) (v : V) m : length (jm_set k v m) ≤ S (length m).
Proof.
  induction m as [|[k' v'] m IH]; [done|]. cbn. case_decide; cbn; [lia|]. cbn in IH. lia.
Qed.

Lemma rememberItem_wf items e t :
  jm_wf items → length items ≤ MAX_ITEM_TURNS →
  jm_wf (rememberItem items e t) ∧ length (rememberItem items e t) ≤ MAX_ITEM_TURNS.
Proof.
  intros Hw Hl. destruct e; try done. cbn [rememberItem].
  set (items' := jm_set _ _ _).
  assert (jm_wf items') as Hw' by (by apply jm_wf_set, jm_wf_delete).
  assert (length items' ≤ S MAX_ITEM_TURNS) as Hl'.
  { pose proof (jm_set_length (tu_itemId c) t (jm_delete (tu_itemId c) items)).
    pose proof (jm_delete_length (tu_itemId c) items). unfold items'. lia. }
  unfold jm_size. case_decide; [|split; [done|lia]].
  split; [|rewrite length_drop; lia]. unfold jm_wf, jm_keys in *.
  rewrite fmap_drop. eapply sublist_NoDup; [exact Hw'|apply sublist_drop].
Qed.

(** ** What one event does to the active turn *)

(** The batch ends the turn [a]: its completion is the only one, every open child
    is closed before it, and what follows it is about the session. *)
Definition ends_turn (a : ActiveTurn) (b : NormalizedBatch) : Prop :=
  nb_released b = Some (act_released a) ∧
  ∃ pre reason post,
    nb_events b = pre ++ TurnEnvelope (act_turnId a) (Completed reason) :: post
    ∧ completed_turns pre = [] ∧ Forall (λ env, ∃ e, env = SessionEnvelope e) post
    ∧ ∀ k c, (k, c) ∈ act_children a → k ∈ omap (closed_item (act_turnId a)) pre.
(** The turn goes on: it keeps its identity, and the batch completes nothing. *)
Definition same_turn (a a' : ActiveTurn) : Prop :=
  act_turnId a' = act_turnId a ∧ act_released a' = act_released a ∧ act_sent a' = act_sent a
  ∧ act_origin a' = act_origin a.
Definition continues_turn (active active' : option ActiveTurn) (b : NormalizedBatch) : Prop :=
  nb_released b = None ∧ completed_turns (nb_events b) = [] ∧
  match active, active' with
  | None, None => True
  | Some a, Some a' => same_turn a a'
  | _, _ => False
  end.
Definition event_effect (active active' : option ActiveTurn) (b : NormalizedBatch) : Prop :=
  (∃ a, active = Some a ∧ active' = None ∧ ends_turn a b) ∨ continues_turn active active' b.

Lemma stopped_child_closes a k c :
  (∀ k c, (k, c) ∈ act_children a → child_id c = k) → (k, c) ∈ act_children a →
  k ∈ omap (closed_item (act_turnId a)) (stoppedChildren a).
Proof.
  intros Hk Hc. apply list_elem_of_omap.
  exists (TurnEnvelope (act_turnId a) (stopped_child c)). split.
  - unfold stoppedChildren. apply list_elem_of_fmap. exists c. split; [done|].
    apply list_elem_of_fmap. by exists (k, c).
  - rewrite <-(Hk k c Hc). unfold stopped_child. destruct (nc_childKind c); cbn;
      by rewrite decide_True.
Qed.

Lemma ends_turn_stopped a mid reason post :
  (∀ k c, (k, c) ∈ act_children a → child_id c = k) → completed_turns mid = [] →
  Forall (λ env, ∃ e, env = SessionEnvelope e) post →
  ends_turn a (ending (stoppedChildren a ++ mid ++ TurnEnvelope (act_turnId a) (Completed reason) :: post) a).
Proof.
  intros Hk Hm Hp. split; [done|]. exists (stoppedChildren a ++ mid), reason, post.
  split; [by rewrite <-app_assoc|]. split; [by rewrite completed_turns_app, completed_turns_stopped|].
  split; [done|]. intros k c Hc. rewrite omap_app. apply elem_of_app. left. by eapply stopped_child_closes.
Qed.

Section effect.
Context (items : list (string * string)).

Lemma continues_same a (b : NormalizedBatch) :
  nb_released b = None → completed_turns (nb_events b) = [] → event_effect (Some a) (Some a) b.
Proof. intros H1 H2. right. by split; [|split]. Qed.

Lemma normalize_plain_effect active e :
  (∀ a, active = Some a → ∀ k c, (k, c) ∈ act_children a → child_id c = k) →
  let r := normalize_plain items active e in event_effect active r.1.2 r.1.1.
Proof.
  intros Hk. destruct active as [a|]; [|destruct e as [|[]| | | | | | | | | | | | | | | | | | | | | | | | | | |];
    right; by split; [|split]].
  specialize (Hk a eq_refl).
  destruct e as [|[]| | | | | | | | | | | | | | | | | | | | | | | | | | |]; cbn -[stoppedChildren];
    try (by apply continues_same);
    left; exists a; (split; [done|]); (split; [done|]).
  - by apply (ends_turn_stopped a [] CR_ended [SessionEnvelope (Agent (Status AgentIdle))]);
      [| |repeat constructor; eexists].
  - by apply (ends_turn_stopped a [TurnEnvelope _ (Error _ _)] CR_error
                [SessionEnvelope (Agent (Status AgentClosed))]); [| |repeat constructor; eexists].
  - by apply (ends_turn_stopped a [TurnEnvelope _ (Error _ _)] CR_error
                [SessionEnvelope (Agent (Status AgentError))]); [| |repeat constructor; eexists].
  - by apply (ends_turn_stopped a [] reason []); [| |constructor].
  - by apply (ends_turn_stopped a [TurnEnvelope _ Interrupted] CR_interrupted []); [| |constructor].
  - by apply (ends_turn_stopped a [TurnEnvelope _ (Error _ _)] CR_error []); [| |constructor].
Qed.

Lemma closes_child_item a e item :
  closes_child a e = Some item →
  closed_item (act_turnId a) (TurnEnvelope (act_turnId a) e) = Some item
  ∧ completed_turns [TurnEnvelope (act_turnId a) e] = [].
Proof.
  destruct e; cbn; try done.
  - destruct (is_background_child _ _); [|done]. intros [= <-]. by rewrite decide_True.
  - intros [= <-]. by rewrite decide_True.
Qed.
Lemma launches_child_item e c : launches_child e = Some c → e = ToolUse c.
Proof. destruct e as [| | | | | | |c'| | | | | | | | | | | | | | | | | | | | |]; try done.
  cbn. by destruct (tu_subagent c'), (tu_backgroundTask c'); intros [= <-]. Qed.
Lemma completed_progress t l :
  completed_turns ((λ c, TurnEnvelope t (progress_event c)) <$> l) = [].
Proof. by induction l. Qed.

Lemma normalize_active_effect a e :
  (∀ k c, (k, c) ∈ act_children a → child_id c = k) →
  let r := normalize_active items a e in event_effect (Some a) r.1.2 r.1.1.
Proof.
  intros Hk. unfold normalize_active.
  assert (∀ x, event_effect (Some a) (normalize_plain items (Some a) x).1.2
    (normalize_plain items (Some a) x).1.1) as Hplain
    by (intros x; apply normalize_plain_effect; by intros ? [= <-]).
  destruct (_ && _); [by apply continues_same|].
  destruct (launches_child e) as [c|] eqn:Hl.
  { apply launches_child_item in Hl as ->. case_decide; [by apply continues_same|].
    right. by split; [|split]. }
  destruct (closes_child a e) as [item|] eqn:Hc.
  { apply closes_child_item in Hc as [Hc Hn].
    destruct (jm_delete item (act_children a)) as [|x l] eqn:Hd;
      destruct (act_pendingCompletion a) as [reason|].
    2-4: right; split; [done|]; split; [exact Hn|done].
    left. exists a. split; [done|]. split; [done|]. split; [done|].
    exists [TurnEnvelope (act_turnId a) e], reason, []. split; [done|].
    split; [exact Hn|]. split; [constructor|].
    intros k ch Hin. apply list_elem_of_omap. exists (TurnEnvelope (act_turnId a) e).
    split; [left|]. rewrite Hc. f_equal.
    destruct (decide (k = item)) as [|Hne]; [done|exfalso].
    assert ((k, ch) ∈ jm_delete item (act_children a)) as Hx
      by (by apply list_elem_of_filter). rewrite Hd in Hx. by apply elem_of_nil in Hx. }
  destruct (completion_request e) as [reason|]; [|apply Hplain].
  destruct (has_children a); [|apply Hplain].
  destruct (act_pendingCompletion a); [by apply continues_same|].
  right. split; [done|]. split; [apply completed_progress|done].
Qed.

Lemma normalize_event_effect active e :
  (∀ a, active = Some a → ∀ k c, (k, c) ∈ act_children a → child_id c = k) →
  let r := normalize_event items active e in event_effect active r.1.2 r.1.1.
Proof.
  intros Hk. unfold normalize_event.
  assert (∀ b, nb_released b = None → completed_turns (nb_events b) = [] →
    event_effect active active b) as Hsame
    by (intros b H1 H2; right; by split; [|split; [|destruct active]]).
  destruct (is_session_event e); [by apply Hsame|].
  assert (let r := match active with
    | Some a => normalize_active items a e
    | None => normalize_plain items None e end in event_effect active r.1.2 r.1.1) as Hactive.
  { destruct active as [a|]; [apply normalize_active_effect; by apply Hk|by apply normalize_plain_effect]. }
  destruct (originTurnOf items e) as [origin|] eqn:Ho; [|exact Hactive].
  case_decide; [exact Hactive|]. apply Hsame; [done|].
  unfold originTurnOf in Ho. destruct e; try done.
Qed.
End effect.

(** ** Well-formedness is kept *)

Lemma jm_set_nonempty {V} (k : string) (v : V) m : jm_set k v m ≠ [].
Proof. destruct m as [|[k' v'] m]; cbn; [done|]. by case_decide. Qed.
Lemma jm_set_elem {V} (k k' : string) (v v' : V) m :
  (k', v') ∈ jm_set k v m → (k' = k ∧ v' = v) ∨ (k', v') ∈ m.
Proof.
  induction m as [|[k0 v0] m IH]; cbn; [intros [= -> ->]%list_elem_of_singleton; by left|].
  case_decide; rewrite !elem_of_cons; naive_solver.
Qed.

Section wf.
Context (deferreds : nat) (resolved : gset nat).
Notation turn_ok := (turn_wf deferreds resolved).

Lemma turn_wf_launch a c :
  turn_ok a → turn_ok (a <| act_children ::= jm_set (tu_itemId c) (launch_child c) |>).
Proof.
  intros [H1 H2 H3 H4 H5 H6]. split; cbn; try done.
  - by apply jm_wf_set.
  - intros k ch [[-> ->]|Hin]%jm_set_elem; [done|by apply H2].
  - intros _. apply jm_set_nonempty.
Qed.
Lemma turn_wf_close a item done_ :
  turn_ok a → jm_delete item (act_children a) ≠ [] ∨ act_pendingCompletion a = None →
  turn_ok (a <| act_children := jm_delete item (act_children a) |> <| act_completedChildren := done_ |>).
Proof.
  intros [H1 H2 H3 H4 H5 H6] Hd. split; cbn; try done.
  - by apply jm_wf_delete.
  - intros k ch [_ Hin]%list_elem_of_filter. by apply H2.
  - intros [r Hr]. destruct Hd as [Hd|Hd]; [done|congruence].
Qed.
Lemma turn_wf_pending a r :
  turn_ok a → has_children a = true → turn_ok (a <| act_pendingCompletion := Some r |>).
Proof.
  intros [H1 H2 H3 H4 H5 H6] Hc. split; cbn; try done.
  intros _. unfold has_children in Hc. by destruct (act_children a).
Qed.

Definition result_ok (r : NormalizedBatch * option ActiveTurn * list (string * string)) : Prop :=
  (∀ a, r.1.2 = Some a → turn_ok a) ∧ jm_wf r.2 ∧ length r.2 ≤ MAX_ITEM_TURNS.
Lemma result_ok_intro b active items :
  (∀ a, active = Some a → turn_ok a) → jm_wf items → length items ≤ MAX_ITEM_TURNS →
  result_ok (b, active, items).
Proof. by split. Qed.

Lemma normalize_plain_wf items active e :
  (∀ a, active = Some a → turn_ok a) → jm_wf items → length items ≤ MAX_ITEM_TURNS →
  result_ok (normalize_plain items active e).
Proof.
  intros Ha Hw Hl. destruct active as [a|];
    destruct e as [|[]| | | | | | | | | | | | | | | | | | | | | | | | | | |];
    cbn -[rememberItem stoppedChildren]; apply result_ok_intro; try done;
    by apply rememberItem_wf.
Qed.
Lemma normalize_active_wf items a e :
  turn_ok a → jm_wf items → length items ≤ MAX_ITEM_TURNS → result_ok (normalize_active items a e).
Proof.
  intros Ha Hw Hl. unfold normalize_active.
  assert (∀ b, result_ok (b, Some a, items)) as Hsame
    by (intros b; apply result_ok_intro; [by intros ? [= <-]|done..]).
  assert (∀ x, result_ok (normalize_plain items (Some a) x)) as Hplain
    by (intros x; apply normalize_plain_wf; [by intros ? [= <-]|done..]).
  destruct (_ && _); [apply Hsame|]. destruct (launches_child e) as [c|].
  { case_decide; [apply Hsame|]. apply result_ok_intro; [|by apply rememberItem_wf..].
    intros ? [= <-]. by apply turn_wf_launch. }
  destruct (closes_child a e) as [item|].
  { assert (∀ b done_, jm_delete item (act_children a) ≠ [] ∨ act_pendingCompletion a = None →
      result_ok (b, Some (a <| act_children := jm_delete item (act_children a) |>
                            <| act_completedChildren := done_ |>), items)) as Hclose.
    { intros b done_ Hd. apply result_ok_intro; [|done..]. intros ? [= <-]. by apply turn_wf_close. }
    destruct (jm_delete item (act_children a)) as [|x l] eqn:Hd;
      destruct (act_pendingCompletion a) as [reason|] eqn:Hp.
    - by apply result_ok_intro.
    - apply Hclose. by right.
    - apply Hclose. by left.
    - apply Hclose. by left. }
  destruct (completion_request e) as [reason|]; [|apply Hplain].
  destruct (has_children a) eqn:Hc; [|apply Hplain].
  destruct (act_pendingCompletion a); [apply Hsame|].
  apply result_ok_intro; [|done..]. intros ? [= <-]. by apply turn_wf_pending.
Qed.
Lemma normalize_event_wf items active e :
  (∀ a, active = Some a → turn_ok a) → jm_wf items → length items ≤ MAX_ITEM_TURNS →
  result_ok (normalize_event items active e).
Proof.
  intros Ha Hw Hl. unfold normalize_event.
  assert (result_ok match active with
    | Some a => normalize_active items a e
    | None => normalize_plain items None e end) as Hactive.
  { destruct active as [a|]; [apply normalize_active_wf; [by apply Ha|done..]|by apply normalize_plain_wf]. }
  destruct (is_session_event e); [by apply result_ok_intro|].
  destruct (originTurnOf items e) as [origin|]; [|exact Hactive].
  case_decide; [exact Hactive|]. apply result_ok_intro; [done|by apply rememberItem_wf..].
Qed.
End wf.

(** A turn survives in a state with more deferreds and more of them resolved, as
    long as its own is not. *)
Lemma turn_wf_mono D R D' R' a :
  turn_wf D R a → D ≤ D' → act_released a ∉ R' → turn_wf D' R' a.
Proof. intros [H1 H2 H3 H4 H5 H6] Hd Hr. split; try done. lia. Qed.
Lemma new_turn_wf D R t sent origin :
  (origin = FromProvider → sent = true) → (∀ d, d ∈ R → d < D) →
  turn_wf (S D) R (new_turn t D sent origin).
Proof.
  intros Ho HR. split; cbn; try done.
  - apply jm_wf_nil.
  - by intros k c Hc%elem_of_nil.
  - lia.
  - intros Hin%HR. lia.
Qed.

Section steps.
Context (uuid : nat → string) (ownership : option ProviderAttemptOwnership) (supported : bool).
Notation step := (act uuid ownership supported).
Notation run := (run_actions uuid ownership supported).

(** The sends the wrapped handle was asked for. *)
Definition is_send (c : HandleCall) : bool := match c with CallSend _ => true | _ => false end.
Definition sends (h : HandleState) : nat := length (List.filter is_send (hs_calls h)).
Lemma sends_snoc l c : length (List.filter is_send (l ++ [c]))
  = length (List.filter is_send l) + (if is_send c then 1 else 0).
Proof. rewrite List.filter_app, length_app. cbn. by destruct (is_send c). Qed.

(** The batch finishes the attempt that owns the handle. *)
Definition finishes (b : NormalizedBatch) : bool :=
  match ownership with
  | None => true
  | Some o => existsb (completes (ow_turnId o)) (nb_events b)
  end.

(** The fields of a state that [releaseBatch] and the call log leave alone. *)
Lemma releaseBatch_fields h b :
  let h' := (releaseBatch ownership h b).1 in
  hs_activeTurn h' = hs_activeTurn h ∧ hs_itemTurns h' = hs_itemTurns h
  ∧ hs_deferreds h' = hs_deferreds h ∧ hs_ended h' = hs_ended h
  ∧ hs_resolved h' = match nb_released b with
                     | Some d => hs_resolved h ∪ {[d]} | None => hs_resolved h end
  ∧ sends h' = sends h
  ∧ hs_finished h' = match nb_released b with
                     | Some _ => finishes b || hs_finished h | None => hs_finished h end.
Proof.
  unfold releaseBatch. destruct (nb_released b); [|by repeat split].
  cbn. fold (finishes b). destruct (finishes b); by repeat split.
Qed.
Lemma releaseBatch_events h b :
  (releaseBatch ownership h b).2.*1 = nb_events b.
Proof.
  unfold releaseBatch. cbn. rewrite <-list_fmap_compose.
  rewrite <-(list_fmap_id (nb_events b)) at 2. apply list_fmap_ext. intros i env _. cbn.
  unfold owned_envelope. by destruct ownership, env.
Qed.

Lemma quiesce_fields h e :
  let h' := quiesce h e in
  hs_activeTurn h' = hs_activeTurn h ∧ hs_itemTurns h' = hs_itemTurns h
  ∧ hs_deferreds h' = hs_deferreds h ∧ hs_resolved h' = hs_resolved h ∧ hs_ended h' = hs_ended h
  ∧ sends h' = sends h ∧ hs_finished h' = hs_finished h.
Proof.
  unfold quiesce, sends. destruct (hs_activeTurn h) eqn:E; [case_match|]; repeat split; try done.
  cbn. by rewrite sends_snoc, Nat.add_0_r.
Qed.

(** The step of an event the protocol classifies. *)
Definition classified (e : AgentEvent) : Prop := e ≠ ProviderTurnStarted.
Lemma normalize_classified h e h' out :
  classified e → normalize uuid ownership h (Agent e) = (h', out) →
  (h' = h ∧ out = []) ∨
  ∃ b active items,
    normalize_event (hs_itemTurns h) (hs_activeTurn h) e = (b, active, items)
    ∧ out.*1 = nb_events b ∧ hs_activeTurn h' = active ∧ hs_itemTurns h' = items
    ∧ hs_deferreds h' = hs_deferreds h ∧ hs_ended h' = hs_ended h
    ∧ hs_resolved h' = match nb_released b with
                       | Some d => hs_resolved h ∪ {[d]} | None => hs_resolved h end
    ∧ sends h' = sends h
    ∧ hs_finished h' = match nb_released b with
                       | Some _ => finishes b || hs_finished h | None => hs_finished h end.
Proof.
  intros Hc E.
  assert ((h' = h ∧ out = []) ∨ ∃ h0, hs_activeTurn h0 = hs_activeTurn h
    ∧ hs_itemTurns h0 = hs_itemTurns h ∧ hs_deferreds h0 = hs_deferreds h
    ∧ hs_resolved h0 = hs_resolved h ∧ hs_ended h0 = hs_ended h
    ∧ sends h0 = sends h ∧ hs_finished h0 = hs_finished h
    ∧ (let '(b, active, items) := normalize_event (hs_itemTurns h0) (hs_activeTurn h0) e in
       releaseBatch ownership (set_active h0 active items) b) = (h', out)) as Hcase.
  { destruct e; try done; cbn [normalize] in E;
      try (right; eexists (quiesce h _);
        match goal with |- context [quiesce h ?x] =>
          destruct (quiesce_fields h x) as (? & ? & ? & ? & ? & ? & ?) end;
        repeat split; [done..|exact E]).
    destruct (hs_goalOwned h); [injection E as <- <-; by left|].
    right. exists h. by repeat split. }
  destruct Hcase as [?|(h0 & E1 & E2 & E3 & E4 & E5 & E6 & E7 & E0)]; [by left|right].
  rewrite E1, E2 in E0.
  destruct (normalize_event (hs_itemTurns h) (hs_activeTurn h) e) as [[b active] items].
  exists b, active, items. split; [done|].
  pose proof (releaseBatch_events (set_active h0 active items) b) as Hev.
  destruct (releaseBatch_fields (set_active h0 active items) b) as (F1 & F2 & F3 & F4 & F5 & F6 & F7).
  rewrite E0 in *. cbn in *. rewrite <-E3, <-E4, <-E5, <-E6, <-E7. by repeat split.
Qed.

(** What a step does: the turn goes on (or none is there), a turn begins, the
    active turn is completed, its send failed, or an application turn takes over
    the one the provider started. *)
Inductive transition (h : HandleState) (x : action) (h' : HandleState) (out : list Emitted) : Prop :=
| T_none :
    hs_activeTurn h = None → hs_activeTurn h' = None → completed_turns out.*1 = [] →
    transition h x h' out
| T_goes_on a a' :
    hs_activeTurn h = Some a → hs_activeTurn h' = Some a' → act_released a' = act_released a →
    completed_turns out.*1 = [] → transition h x h' out
| T_begins a' :
    hs_activeTurn h = None → hs_activeTurn h' = Some a' → completed_turns out.*1 = [] →
    transition h x h' out
| T_completed a b :
    hs_activeTurn h = Some a → hs_activeTurn h' = None → ends_turn a b → out.*1 = nb_events b →
    act_released a ∈ hs_resolved h' → transition h x h' out
| T_failed a t :
    x = A_SendFailed t → hs_activeTurn h = Some a → hs_activeTurn h' = None → out = [] →
    act_released a ∈ hs_resolved h' → transition h x h' out
| T_taken_over a a' t g :
    x = A_Send t g → hs_activeTurn h = Some a → act_origin a = FromProvider →
    hs_activeTurn h' = Some a' → act_turnId a' = t → out = [] →
    act_released a ∈ hs_resolved h' → transition h x h' out.

(** The outcome of a step: its transition, and what every step keeps. *)
Definition step_ok (h : HandleState) (x : action) (r : HandleState * list Emitted) : Prop :=
  transition h x r.1 r.2 ∧ handle_wf r.1 ∧ hs_resolved h ⊆ hs_resolved r.1
  ∧ (hs_ended h = true → hs_ended r.1 = true).

Lemma completed_turns_session post :
  Forall (λ env, ∃ e, env = SessionEnvelope e) post → completed_turns post = [].
Proof. induction 1 as [|env post [e ->] _ IH]; [done|]. exact IH. Qed.
Lemma ends_turn_completed a b : ends_turn a b → completed_turns (nb_events b) = [act_turnId a].
Proof.
  intros (_ & pre & reason & post & -> & Hpre & Hpost & _).
  rewrite completed_turns_app, Hpre. cbn. f_equal. by apply completed_turns_session.
Qed.

Lemma wf_keys h a :
  handle_wf h → hs_activeTurn h = Some a → ∀ k c, (k, c) ∈ act_children a → child_id c = k.
Proof. intros W Ha. apply (tw_keys _ _ _ (hw_turn _ W a Ha)). Qed.

(** A step that leaves the turn, the items and the deferreds as they are. *)
Lemma idle_step_ok h x h' out :
  handle_wf h → hs_activeTurn h' = hs_activeTurn h → hs_itemTurns h' = hs_itemTurns h →
  hs_deferreds h ≤ hs_deferreds h' → hs_resolved h' = hs_resolved h →
  (hs_ended h = true → hs_ended h' = true) →
  completed_turns out.*1 = [] → step_ok h x (h', out).
Proof.
  intros [Wt Wr Wi Wb] Ea Ei Ed Er Ee Ho. split; [|split; [|split]]; cbn.
  - destruct (hs_activeTurn h) as [a|] eqn:E; [by eapply T_goes_on|by apply T_none].
  - split; rewrite ?Ea, ?Ei, ?Er; try done.
    + intros a Ha. specialize (Wt a Ha). eapply turn_wf_mono; [done..|apply Wt].
    + intros d Hd%Wr. lia.
  - by rewrite Er.
  - done.
Qed.

(** A step that settles the deferred of the active turn and leaves none. *)
Lemma settling_wf h h' a :
  handle_wf h → hs_activeTurn h = Some a → hs_activeTurn h' = None →
  jm_wf (hs_itemTurns h') → length (hs_itemTurns h') ≤ MAX_ITEM_TURNS →
  hs_deferreds h' = hs_deferreds h → hs_resolved h' = hs_resolved h ∪ {[act_released a]} →
  handle_wf h'.
Proof.
  intros [Wt Wr Wi Wb] Ea En Ei Eb Ed Er. split; [by rewrite En|..|done|done].
  rewrite Er, Ed. intros d [Hd|Hd]%elem_of_union; [by apply Wr|].
  apply elem_of_singleton in Hd as ->. apply (tw_deferred _ _ _ (Wt a Ea)).
Qed.

(** The step of one classified event. *)
Lemma classified_ok h x e h' out :
  handle_wf h → classified e → normalize uuid ownership h (Agent e) = (h', out) →
  step_ok h x (h', out).
Proof.
  intros W Hc E. pose proof W as [Wt Wr Wi Wb].
  destruct (normalize_classified h e h' out Hc E)
    as [[-> ->]|(b & active & items & En & Hout & Ha & Hi & Hd & He & Hr & _)];
    [by apply idle_step_ok|].
  pose proof (normalize_event_effect (hs_itemTurns h) (hs_activeTurn h) e
    (λ a Hact, wf_keys h a W Hact)) as Heff.
  pose proof (normalize_event_wf (hs_deferreds h) (hs_resolved h) (hs_itemTurns h)
    (hs_activeTurn h) e Wt Wi Wb) as (Ra & Ri & Rb).
  rewrite En in Heff, Ra, Ri, Rb. cbn in Heff, Ra, Ri, Rb.
  destruct Heff as [(a & Ea & -> & Hends)|(Hrel & Hcompl & Hsame)].
  - pose proof Hends as [Hrel _]. rewrite Hrel in Hr. split; [|split; [|split]]; cbn.
    + eapply T_completed; [done..|]. rewrite Hr. apply elem_of_union_r. by apply elem_of_singleton.
    + eapply (settling_wf h h' a); rewrite ?Hi; done.
    + rewrite Hr. apply union_subseteq_l.
    + by rewrite He.
  - rewrite Hrel in Hr. split; [|split; [|split]]; cbn.
    + destruct (hs_activeTurn h) as [a|] eqn:Ea, active as [a'|]; try done.
      * eapply T_goes_on; [done..|apply Hsame|by rewrite Hout].
      * apply T_none; [done..|by rewrite Hout].
    + split; rewrite ?Ha, ?Hi, ?Hd, ?Hr; done.
    + by rewrite Hr.
    + by rewrite He.
Qed.

Lemma normalize_ok h x ev h' out :
  handle_wf h → normalize uuid ownership h ev = (h', out) → step_ok h x (h', out).
Proof.
  intros W E. destruct ev as [e|item reason].
  2: { injection E as <- <-. apply idle_step_ok; try done.
       cbn. unfold owned_envelope. by destruct ownership. }
  destruct e; try (by eapply (classified_ok h x _ h' out W); [|exact E]).
  pose proof W as [Wt Wr Wi Wb]. cbn [normalize] in E.
  destruct (hs_activeTurn h) as [a|] eqn:Ea; injection E as <- <-; [by apply idle_step_ok|].
  split; [|split; [|split; [done|done]]].
  - eapply T_begins; [done..|]. cbn. unfold owned_envelope. destruct ownership; [by case_decide|done].
  - split; cbn; try done; [|intros d Hd; apply Wr in Hd; lia].
    intros ? [= <-]. by apply new_turn_wf.
Qed.

Lemma exit_ok h x : handle_wf h → step_ok h x (finalizeUnexpectedExit ownership h).
Proof.
  intros W. unfold finalizeUnexpectedExit. destruct (hs_activeTurn h) as [a|] eqn:Ea;
    [|by apply idle_step_ok].
  set (h0 := if has_children a || hs_goalOwned h then _ : HandleState else h). set (b := ending (stoppedChildren a ++ _) a).
  pose proof (releaseBatch_events (h0 <| hs_activeTurn := None |> <| hs_ended := true |>) b) as Hev.
  destruct (releaseBatch_fields (h0 <| hs_activeTurn := None |> <| hs_ended := true |>) b)
    as (F1 & F2 & F3 & F4 & F5 & _).
  assert (hs_itemTurns h0 = hs_itemTurns h ∧ hs_deferreds h0 = hs_deferreds h
          ∧ hs_resolved h0 = hs_resolved h) as (G1 & G2 & G3)
    by (unfold h0; by destruct (_ || _)).
  destruct (releaseBatch _ _ b) as [h' out]. cbn in *. rewrite G1 in F2. rewrite G2 in F3.
  rewrite G3 in F5. split; [|split; [|split]]; cbn.
  - eapply (T_completed _ _ _ _ a b); try done.
    + apply (ends_turn_stopped a [TurnEnvelope _ (Error _ _)] CR_error []); [|done|constructor].
      by eapply wf_keys.
    + rewrite F5. apply elem_of_union_r. by apply elem_of_singleton.
  - eapply (settling_wf h h' a); rewrite ?F2; try done; apply W.
  - rewrite F5. apply union_subseteq_l.
  - done.
Qed.

Lemma admitSend_ok h t goal :
  handle_wf h → step_ok h (A_Send t goal) ((admitSend ownership h t goal).1, []).
Proof.
  intros W. pose proof W as [Wt Wr Wi Wb]. unfold admitSend.
  assert (∀ d, d ∈ hs_resolved h → d < S (hs_deferreds h)) as Wr' by (intros d Hd%Wr; lia).
  set (r := if hs_ended h then (h, SendUnavailable) else _).
  assert (step_ok h (A_Send t goal) (r.1, [])) as Hr.
  { subst r. destruct (hs_ended h) eqn:Ee; [by apply idle_step_ok|]. cbn.
    destruct (hs_activeTurn h) as [a|] eqn:Ea.
    2: { split; [|split; [|split]]; [by eapply T_begins| |done|done].
         split; cbn; try done. intros ? [= <-]. by apply new_turn_wf. }
    case_decide as Ht.
    { destruct (act_sent a) eqn:Es; [apply idle_step_ok; try done; cbn; lia|].
      split; [|split; [|split]]; [by eapply T_goes_on| |done|done].
      split; cbn; try done. intros ? [= <-]. destruct (Wt a eq_refl). split; try done. cbn. lia. }
    case_decide as Ho; [|apply idle_step_ok; try done; cbn; lia].
    split; [|split; [|split]]; cbn; try done.
    - eapply T_taken_over; cbn; try done. apply elem_of_union_r. by apply elem_of_singleton.
    - pose proof (Wt a eq_refl) as [H1 H2 H3 H4 H5 H6].
      split; cbn; try done.
      + intros ? [= <-]. split; cbn; try done; [lia|].
        intros [Hd%Wr|Hd%elem_of_singleton]%elem_of_union; lia.
      + intros d [Hd%Wr|Hd%elem_of_singleton]%elem_of_union; lia.
    - apply union_subseteq_l. }
  destruct ownership as [o|]; [|done].
  case_decide; [by apply idle_step_ok|]. destruct (hs_finished h); [by apply idle_step_ok|done].
Qed.

Lemma sendFailed_ok h t : handle_wf h → step_ok h (A_SendFailed t) (sendFailed h t, []).
Proof.
  intros W. unfold sendFailed. destruct (hs_activeTurn h) as [a|] eqn:Ea; [|by apply idle_step_ok].
  case_decide; [|by apply idle_step_ok]. split; [|split; [|split]]; cbn; try done.
  - eapply T_failed; try done. cbn. apply elem_of_union_r. by apply elem_of_singleton.
  - eapply (settling_wf h _ a); try done; apply W.
  - apply union_subseteq_l.
Qed.

Lemma act_ok h x : handle_wf h → step_ok h x (step h x).
Proof.
  intros W. destruct x; cbn [act].
  - destruct (normalize uuid ownership h e) eqn:E. by eapply normalize_ok.
  - destruct (hs_injected h) as [|e rest] eqn:Ei; [by apply idle_step_ok|].
    destruct (normalize uuid ownership (h <| hs_injected := rest |>) e) as [h' out] eqn:E.
    apply normalize_ok with (x := A_Injected) in E; [|by destruct W; split].
    destruct E as (Ht & Hw & Hr & He). split; [|by split]. cbn in *.
    destruct Ht; [eapply T_none|eapply T_goes_on|eapply T_begins|eapply T_completed|
      eapply T_failed|eapply T_taken_over]; done.
  - by apply exit_ok.
  - by apply admitSend_ok.
  - by apply sendFailed_ok.
  - unfold stopBackgroundTask. repeat case_match; by apply idle_step_ok.
  - unfold interrupt. repeat case_match; by apply idle_step_ok.
Qed.

(** ** Runs *)

(** A property that every step from a well-formed state keeps holds after a run. *)
Lemma run_keeps (P : HandleState → Prop) h l :
  (∀ h x, handle_wf h → P h → P (step h x).1) →
  handle_wf h → P h → handle_wf (run h l).1 ∧ P (run h l).1.
Proof.
  intros Hstep. revert h. induction l as [|x l IH]; intros h W HP; [done|]. cbn.
  apply IH; [apply (act_ok h x W)|by apply Hstep].
Qed.
Lemma run_wf h l : handle_wf h → handle_wf (run h l).1.
Proof. intros W. by apply (run_keeps (λ _, True)). Qed.

Lemma fresh_wf it ia h : make_handle it ia = Some (ownership, h) → handle_wf h.
Proof.
  destruct it as [t|], ia as [a|]; cbn; try done; intros [= <- <-] || intros [= <-];
    (split; cbn; [|by intros d Hd%elem_of_empty|apply jm_wf_nil|unfold MAX_ITEM_TURNS; lia]);
    try done.
  intros ? [= <-]. by apply new_turn_wf.
Qed.

(** The states a handle made by [makeTurnScopedSessionHandle] goes through. *)
Definition reachable (h : HandleState) : Prop :=
  ∃ it ia h0 l, make_handle it ia = Some (ownership, h0) ∧ h = (run h0 l).1.
Lemma reachable_wf h : reachable h → handle_wf h.
Proof. intros (it & ia & h0 & l & Hm & ->). by eapply run_wf, fresh_wf. Qed.

(** Whether a turn is active, and what a step does to that. *)
Definition alive (h : HandleState) : nat := match hs_activeTurn h with Some _ => 1 | None => 0 end.
Definition begun (h h' : HandleState) : nat := alive h' - alive h.
Definition failed (h : HandleState) (x : action) (h' : HandleState) : nat :=
  match x with A_SendFailed _ => alive h - alive h' | _ => 0 end.
(** The turns begun and the sends failed over a run. *)
Fixpoint turns_begun (h : HandleState) (l : list action) : nat :=
  match l with [] => 0 | x :: l => begun h (step h x).1 + turns_begun (step h x).1 l end.
Fixpoint sends_failed (h : HandleState) (l : list action) : nat :=
  match l with [] => 0 | x :: l => failed h x (step h x).1 + sends_failed (step h x).1 l end.

(** C8: over any run from a well-formed handle, the [Completed] envelopes emitted,
    the sends that failed and the turn left active account exactly for the turns
    begun and the one that was active: no turn completes twice or is lost. *)
Theorem turns_accounted h l :
  handle_wf h →
  length (completed_turns (run h l).2.*1) + sends_failed h l + alive (run h l).1
    = turns_begun h l + alive h.
Proof.
  revert h. induction l as [|x l IH]; intros h W; [done|]. cbn [run_actions turns_begun sends_failed].
  cbv zeta. cbn [fst snd]. rewrite fmap_app, completed_turns_app, length_app.
  destruct (act_ok h x W) as (Ht & W' & _). specialize (IH _ W').
  enough (length (completed_turns (step h x).2.*1) + failed h x (step h x).1 + alive (step h x).1
          = begun h (step h x).1 + alive h) by lia.
  clear IH. unfold begun, failed, alive.
  destruct Ht as [E1 E2 E3|a a' E1 E2 _ E3|a' E1 E2 E3|a b E1 E2 Hb E3 _
                 |a t -> E1 E2 E3 _|a a' t g -> E1 _ E2 _ E3 _].
  1-3: rewrite E1, E2, E3; by destruct x.
  - rewrite E1, E2, E3, (ends_turn_completed a b Hb). destruct x; try done. exfalso.
    cbn in E3. destruct Hb as (_ & pre & r & post & Hev & _). rewrite Hev in E3. by destruct pre.
  - rewrite E1, E2, E3. done.
  - rewrite E1, E2, E3. done.
Qed.

(** C3: every step of a reachable handle either leaves the active turn in place and
    completes nothing, or ends it. A turn that ends was one whose send failed, with
    nothing emitted, or its [Completed] is emitted once, every child still open is
    closed before it and no other turn completes. A turn changes its identity only
    when an application turn takes over one the provider started. *)
Theorem turn_ends_once h x :
  reachable h →
  let r := step h x in
  match hs_activeTurn h, hs_activeTurn r.1 with
  | Some a, None =>
      ((∃ t, x = A_SendFailed t) ∧ r.2 = [])
      ∨ ∃ pre reason post,
          r.2.*1 = pre ++ TurnEnvelope (act_turnId a) (Completed reason) :: post
          ∧ completed_turns pre = [] ∧ completed_turns post = []
          ∧ ∀ k c, (k, c) ∈ act_children a → k ∈ omap (closed_item (act_turnId a)) pre
  | Some a, Some a' =>
      completed_turns r.2.*1 = []
      ∧ (act_released a' = act_released a
         ∨ (∃ g, x = A_Send (act_turnId a') g) ∧ act_origin a = FromProvider)
  | None, _ => completed_turns r.2.*1 = []
  end.
Proof.
  intros W%reachable_wf. cbv zeta. destruct (act_ok h x W) as (Ht & _).
  destruct Ht as [E1 E2 E3|a a' E1 E2 Hr E3|a' E1 E2 E3|a b E1 E2 Hb E3 _
                 |a t -> E1 E2 E3 _|a a' t g -> E1 Ho E2 Ht E3 _]; rewrite ?E1, ?E2; try done.
  - split; [done|by left].
  - right. destruct Hb as (_ & pre & r & post & Hev & Hpre & Hpost & Hc).
    exists pre, r, post. rewrite E3. split; [done|]. split; [done|].
    split; [by apply completed_turns_session|done].
  - left. split; [by exists t|done].
  - rewrite E3. split; [done|]. right. split; [exists g; by rewrite Ht|done].
Qed.

(** C33: the handle's memory stays bounded and consistent in every reachable state:
    at most [MAX_ITEM_TURNS] items are remembered, each once; a pending completion
    always has an open child to wait for; and the deferred of the active turn, which
    an interrupt waits for, has been created and not been resolved. *)
Theorem handle_state_bounded h :
  reachable h →
  jm_wf (hs_itemTurns h) ∧ length (hs_itemTurns h) ≤ MAX_ITEM_TURNS
  ∧ ∀ a, hs_activeTurn h = Some a →
      jm_wf (act_children a)
      ∧ (is_Some (act_pendingCompletion a) → act_children a ≠ [])
      ∧ act_released a < hs_deferreds h ∧ act_released a ∉ hs_resolved h.
Proof.
  intros [Wt _ Wi Wb]%reachable_wf. split; [done|]. split; [done|]. intros a Ha.
  by destruct (Wt a Ha).
Qed.

(** A deferred is settled, or the active turn still holds it. *)
Definition settled_or_active (d : nat) (h : HandleState) : Prop :=
  d ∈ hs_resolved h ∨ ∃ a, hs_activeTurn h = Some a ∧ act_released a = d.
Lemma settled_or_active_step d h x :
  handle_wf h → settled_or_active d h → settled_or_active d (step h x).1.
Proof.
  intros W Hd. destruct (act_ok h x W) as (Ht & _ & Hr & _).
  destruct Hd as [Hd|(a & Ha & <-)]; [left; by apply Hr|].
  destruct Ht as [E1 _ _|a0 a' E1 E2 Hs _|a' E1 _ _|a0 b E1 _ _ _ Hin|a0 t _ E1 _ _ Hin
                 |a0 a' t g _ E1 _ _ _ _ Hin]; rewrite Ha in E1; try done; injection E1 as <-;
    try (by left). right. by exists a'.
Qed.

(** C28: no interrupt is stranded: whatever happens after an interrupt was accepted,
    the deferred it waits for is resolved or is still the active turn's, and once the
    provider's stream has ended it is resolved. *)
Theorem interrupt_released h t h1 d l :
  reachable h → interrupt h t = (h1, Some d) →
  settled_or_active d (run h1 l).1 ∧ d ∈ hs_resolved (run h1 (l ++ [A_Exit])).1.
Proof.
  intros W%reachable_wf Hi.
  assert (handle_wf h1 ∧ settled_or_active d h1) as [W1 Hd].
  { destruct (act_ok h (A_Interrupt t) W) as (_ & W1 & _). cbn [act] in W1. rewrite Hi in W1.
    split; [done|]. right. unfold interrupt in Hi.
    destruct (hs_activeTurn h) as [a|] eqn:Ea; [|done]. case_decide; [done|].
    exists a. destruct (_ || _); injection Hi as <- <-; by rewrite <-?Ea. }
  destruct (run_keeps (settled_or_active d) h1 l) as [Wl Hl]; [|done..|].
  { intros h' x W' Hs. by apply settled_or_active_step. }
  split; [done|].
  assert (∀ k g, (run g (k ++ [A_Exit])).1 = (step (run g k).1 A_Exit).1) as ->
    by (induction k as [|y k IH]; intros g; [done|apply IH]).
  destruct (settled_or_active_step d _ A_Exit Wl Hl) as [|(a & Ha & _)]; [done|exfalso].
  cbn [act] in Ha. unfold finalizeUnexpectedExit in Ha.
  destruct (hs_activeTurn (run h1 l).1) as [a0|] eqn:Ea; [|cbn in Ha; congruence].
  by rewrite (proj1 (releaseBatch_fields _ _)) in Ha.
Qed.

(** ** The sends of an attempt *)

Lemma ends_turn_finishes o a b :
  ownership = Some o → act_turnId a = ow_turnId o → ends_turn a b → finishes b = true.
Proof.
  intros Ho Ht (_ & pre & r & post & Hev & _). unfold finishes. rewrite Ho, Hev, existsb_app.
  cbn. rewrite bool_decide_true by done. by rewrite orb_true_r.
Qed.

(** What a step that is not a send keeps of an attempt's turn [o]. *)
Definition keeps_attempt (o : ProviderAttemptOwnership) (h h' : HandleState) : Prop :=
  sends h' = sends h ∧ (hs_finished h = true → hs_finished h' = true) ∧
  ∀ a, hs_activeTurn h = Some a → act_turnId a = ow_turnId o →
    hs_finished h' = true ∨ ∃ a', hs_activeTurn h' = Some a' ∧ same_turn a a'.
Lemma keeps_attempt_same o h h' :
  sends h' = sends h → hs_finished h' = hs_finished h → hs_activeTurn h' = hs_activeTurn h →
  keeps_attempt o h h'.
Proof.
  intros H1 H2 H3. split; [done|]. split; [by rewrite H2|]. intros a Ha _. right.
  exists a. by rewrite H3.
Qed.

Lemma normalize_keeps_attempt o h ev h' out :
  handle_wf h → ownership = Some o → normalize uuid ownership h ev = (h', out) →
  keeps_attempt o h h'.
Proof.
  intros W Ho E. destruct ev as [e|item reason]; [|injection E as <- <-; by apply keeps_attempt_same].
  assert (e = ProviderTurnStarted ∨ classified e) as [->|Hc]
    by (destruct e; first [by left|by right]).
  { cbn [normalize] in E. destruct (hs_activeTurn h) as [a|] eqn:Ea; injection E as <- <-.
    - by apply keeps_attempt_same.
    - split; [done|]. split; [done|]. intros a Ha. by rewrite Ha in Ea. }
  destruct (normalize_classified h e h' out Hc E)
    as [[-> ->]|(b & active & items & En & _ & Ha & _ & _ & _ & _ & Hs & Hf)];
    [by apply keeps_attempt_same|].
  pose proof (normalize_event_effect (hs_itemTurns h) (hs_activeTurn h) e
    (λ a Hact, wf_keys h a W Hact)) as Heff. rewrite En in Heff. cbn in Heff.
  split; [done|]. split.
  { intros Hfin. rewrite Hf, Hfin. destruct (nb_released b); [apply orb_true_r|done]. }
  intros a Hact Hid. destruct Heff as [(a0 & Ea & -> & Hends)|(_ & _ & Hsame)].
  - left. rewrite Hact in Ea. injection Ea as <-. pose proof Hends as [Hrel _].
    rewrite Hf, Hrel. by rewrite (ends_turn_finishes o a b).
  - right. rewrite Hact in Hsame. destruct active as [a'|]; [|done]. by exists a'.
Qed.

Lemma exit_keeps_attempt o h :
  handle_wf h → ownership = Some o → keeps_attempt o h (finalizeUnexpectedExit ownership h).1.
Proof.
  intros W Ho. unfold finalizeUnexpectedExit.
  destruct (hs_activeTurn h) as [a|] eqn:Ea; [|by apply keeps_attempt_same].
  set (h0 := if has_children a || hs_goalOwned h then _ : HandleState else h).
  set (b := ending (stoppedChildren a ++ _) a).
  destruct (releaseBatch_fields (h0 <| hs_activeTurn := None |> <| hs_ended := true |>) b)
    as (_ & _ & _ & _ & _ & F6 & F7).
  assert (sends h0 = sends h ∧ hs_finished h0 = hs_finished h) as [G1 G2].
  { unfold h0, sends. destruct (_ || _); [|done]. cbn. by rewrite sends_snoc, Nat.add_0_r. }
  split; [rewrite F6; exact G1|]. rewrite F7. cbn [nb_released b ending].
  split; [cbn; rewrite G2; intros ->; apply orb_true_r|].
  intros a0 Ha Hid. left. rewrite Ea in Ha. injection Ha as <-.
  rewrite (ends_turn_finishes o a b); [done|done|done|].
  apply (ends_turn_stopped a [TurnEnvelope _ (Error _ _)] CR_error []); [|done|constructor].
  by eapply wf_keys.
Qed.

(** The provider was not asked yet, or it was asked once and the attempt's turn is
    being executed or finished. *)
Definition sent_once (o : ProviderAttemptOwnership) (h : HandleState) : Prop :=
  sends h = 0 ∨ sends h = 1 ∧
    (hs_finished h = true
     ∨ ∃ a, hs_activeTurn h = Some a ∧ act_turnId a = ow_turnId o ∧ act_sent a = true).
Lemma sent_once_kept o h h' : keeps_attempt o h h' → sent_once o h → sent_once o h'.
Proof.
  intros (Hs & Hf & Ha) [H0|[H1 Hcase]]; [left; congruence|right]. split; [congruence|].
  destruct Hcase as [Hfin|(a & Hact & Hid & Hsent)]; [left; auto|].
  destruct (Ha a Hact Hid) as [?|(a' & Ha' & Hi & _ & Hse & _)]; [by left|right].
  exists a'. split; [done|]. split; congruence.
Qed.
Lemma admitSend_once o h t goal :
  ownership = Some o → sent_once o h → sent_once o (admitSend ownership h t goal).1.
Proof.
  intros Ho Hh. unfold admitSend. rewrite Ho. case_decide as Ht; [done|].
  subst t. destruct (hs_finished h) eqn:Ef; [done|].
  destruct (hs_ended h); [done|]. cbn.
  destruct Hh as [H0|[H1 [?|(a & Ea & Hid & Hs)]]]; [|congruence|].
  - assert (∀ l, l = hs_calls h ++ [CallSend (ow_turnId o)] → length (List.filter is_send l) = 1)
      as Hone by (intros l ->; rewrite sends_snoc; unfold sends in H0; rewrite H0; done).
    destruct (hs_activeTurn h) as [a|] eqn:Ea.
    2: { right. split; [by apply Hone|]. right. by eexists. }
    case_decide as Hid; [destruct (act_sent a) eqn:Es; [by left|]|case_decide; [|by left]];
      (right; split; [by apply Hone|]; right; by eexists).
  - rewrite Ea. cbn. rewrite decide_True, Hs by done. right. split; [done|]. right. by exists a.
Qed.

(** C9: a handle that belongs to one attempt asks the provider for that attempt at
    most once, whatever is sent, repeated, received or interrupted, as long as the
    send itself does not fail. *)
Theorem attempt_sends_once it ia h o l :
  make_handle it ia = Some (ownership, h) → ownership = Some o →
  Forall (λ x, ∀ t, x ≠ A_SendFailed t) l → sends (run h l).1 ≤ 1.
Proof.
  intros Hm Ho Hl. assert (sent_once o h) as H0.
  { left. destruct it as [t|], ia as [a|]; try done; cbn in Hm; by simplify_eq. }
  apply fresh_wf in Hm. enough (sent_once o (run h l).1) as [-> | [-> _]]; [lia..|].
  clear it ia. revert h Hm H0. induction Hl as [|x l Hx _ IH]; intros h W H0; [done|]. cbn.
  apply IH; [apply (act_ok h x W)|]. clear IH. destruct x as [ev| | |t g|t|t k|t]; cbn [act].
  - destruct (normalize uuid ownership h ev) as [h' out] eqn:E.
    eapply sent_once_kept, H0. by eapply normalize_keeps_attempt.
  - destruct (hs_injected h) as [|ev rest]; [done|].
    destruct (normalize uuid ownership (h <| hs_injected := rest |>) ev) as [h' out] eqn:E.
    eapply (sent_once_kept o (h <| hs_injected := rest |>)); [|exact H0].
    eapply normalize_keeps_attempt; [|done|exact E]. by destruct W; split.
  - eapply sent_once_kept, H0. by apply exit_keeps_attempt.
  - by apply admitSend_once.
  - by destruct (Hx t).
  - eapply sent_once_kept, H0. unfold stopBackgroundTask.
    repeat case_match; apply keeps_attempt_same; try done; unfold sends; cbn;
      by rewrite sends_snoc, Nat.add_0_r.
  - eapply sent_once_kept, H0. unfold interrupt.
    repeat case_match; apply keeps_attempt_same; try done; unfold sends; cbn;
      by rewrite sends_snoc, Nat.add_0_r.
Qed.

(** ** Pending completions *)

(** The children of the turn are attributed to it. *)
Definition children_attributed (h : HandleState) (a : ActiveTurn) : Prop :=
  ∀ k, k ∈ jm_keys (act_children a) →
    default (act_turnId a) (jm_get k (hs_itemTurns h)) = act_turnId a.

Lemma summary_step h a reason c :
  hs_activeTurn h = Some a → act_pendingCompletion a = Some reason → children_attributed h a →
  ss_itemId c ∈ jm_keys (act_children a) →
  let turn := TurnEnvelope (act_turnId a) in
  let children := jm_delete (ss_itemId c) (act_children a) in
  let r := step h (A_Event (Agent (SubagentSummary c))) in
  match children with
  | [] => hs_activeTurn r.1 = None
          ∧ r.2.*1 = [turn (SubagentSummary c); turn (Completed reason)]
  | _ => hs_activeTurn r.1 = Some (a <| act_children := children |>
           <| act_completedChildren := act_completedChildren a ∪ {[ss_itemId c]} |>)
         ∧ hs_itemTurns r.1 = hs_itemTurns h ∧ r.2.*1 = [turn (SubagentSummary c)]
  end.
Proof.
  intros Ha Hp Hitems Hin. cbv zeta. cbn [act].
  assert (quiesce h (SubagentSummary c) = h) as Hq
    by (unfold quiesce; rewrite Ha; by rewrite andb_false_r).
  assert (jm_has (ss_itemId c) (act_children a) = true) as Hhas.
  { apply jm_has_true. destruct (jm_get _ _) eqn:E; [done|by apply jm_get_None in E]. }
  assert (normalize_event (hs_itemTurns h) (hs_activeTurn h) (SubagentSummary c)
          = normalize_active (hs_itemTurns h) a (SubagentSummary c)) as Hn.
  { unfold normalize_event. rewrite Ha. specialize (Hitems _ Hin). cbn.
    destruct (jm_get (ss_itemId c) (hs_itemTurns h)) as [o|]; [|done]. cbn in Hitems.
    by rewrite decide_True by congruence. }
  cbn [normalize]. rewrite Hq, Hn. unfold normalize_active.
  assert (known_child_event a (SubagentSummary c) = true) as -> by exact Hhas.
  rewrite andb_false_r. cbn [launches_child closes_child]. rewrite Hp.
  destruct (jm_delete (ss_itemId c) (act_children a)) as [|x rest].
  - match goal with |- context [releaseBatch _ ?g ?b] =>
      rewrite (proj1 (releaseBatch_fields g b)), (releaseBatch_events g b) end. by split.
  - match goal with |- context [releaseBatch _ ?g ?b] =>
      destruct (releaseBatch_fields g b) as (-> & -> & _); rewrite (releaseBatch_events g b) end.
    by repeat split.
Qed.

(** A completion held back for open children is emitted once they are all
    summarised, in whatever order: the turn's summaries are followed by exactly one
    [Completed] with the reason that was held back, and the turn is over. *)
Theorem pending_completion_settles h a reason cs :
  reachable h → hs_activeTurn h = Some a → act_pendingCompletion a = Some reason →
  children_attributed h a → ss_itemId <$> cs ≡ₚ jm_keys (act_children a) →
  let r := run h ((λ c, A_Event (Agent (SubagentSummary c))) <$> cs) in
  hs_activeTurn r.1 = None
  ∧ r.2.*1 = ((λ c, TurnEnvelope (act_turnId a) (SubagentSummary c)) <$> cs)
             ++ [TurnEnvelope (act_turnId a) (Completed reason)].
Proof.
  intros W%reachable_wf. revert h a W. induction cs as [|c cs IH]; intros h a W Ha Hp Hi Hperm.
  { exfalso. destruct (hw_turn _ W a Ha) as [_ _ Hne _ _ _]. apply Hne; [by rewrite Hp|].
    apply Permutation_nil_l in Hperm. unfold jm_keys in Hperm. by destruct (act_children a). }
  cbv zeta in *. rewrite fmap_cons. cbn [run_actions]. cbv zeta. cbn [fst snd].
  assert (jm_keys (jm_delete (ss_itemId c) (act_children a)) ≡ₚ ss_itemId <$> cs) as Hrest.
  { rewrite fmap_cons in Hperm. apply (Permutation_cons_inv (a := ss_itemId c)).
    rewrite Hperm. apply jm_keys_delete; [apply (hw_turn _ W a Ha)|].
    rewrite <-Hperm. left. }
  pose proof (summary_step h a reason c Ha Hp Hi) as Hs. cbv zeta in Hs.
  pose proof (proj1 (proj2 (act_ok h (A_Event (Agent (SubagentSummary c))) W))) as W'.
  destruct (step h (A_Event (Agent (SubagentSummary c)))) as [h' out] eqn:Est.
  rewrite fmap_app. cbn [fst snd] in *.
  assert (ss_itemId c ∈ jm_keys (act_children a)) as Hin by (rewrite <-Hperm; left).
  specialize (Hs Hin). destruct (jm_delete (ss_itemId c) (act_children a)) as [|x rest] eqn:Hd.
  - apply Permutation_nil_l in Hrest. destruct cs; [|done].
    destruct Hs as [Hs1 Hs2]. split; [exact Hs1|]. cbn. by rewrite Hs2.
  - destruct Hs as (Ha' & Hit & ->). rewrite <-Hd in *. clear x rest Hd.
    destruct (IH h' _ W' Ha') as [-> ->]; [done| |by symmetry|by split].
    intros k Hk. rewrite Hit. apply Hi. cbn in Hk.
    apply list_elem_of_fmap in Hk as (kv & -> & Hkv). apply list_elem_of_filter in Hkv as [_ Hkv].
    apply list_elem_of_fmap. by exists kv.
Qed.

(** ** Admission *)

(** Which sends the provider sees. A handle whose stream has ended refuses; a
    turn that is already sent, and an attempt already finished, are accepted without
    asking the provider again; while another application turn is active the send
    fails; and a send that is admitted makes its turn the active one, asks the
    provider exactly once and releases whoever waited for a turn the provider had
    started itself. *)
Theorem admitSend_outcomes h t goal h' outcome :
  admitSend ownership h t goal = (h', outcome) →
  match outcome with
  | SendRuns =>
      hs_ended h = false ∧ hs_calls h' = hs_calls h ++ [CallSend t]
      ∧ (∃ a', hs_activeTurn h' = Some a' ∧ act_turnId a' = t ∧ act_sent a' = true)
      ∧ ∀ a, hs_activeTurn h = Some a →
          (act_turnId a = t ∧ act_sent a = false)
          ∨ act_turnId a ≠ t ∧ act_origin a = FromProvider ∧ act_released a ∈ hs_resolved h'
  | SendNothing =>
      hs_activeTurn h' = hs_activeTurn h ∧ hs_calls h' = hs_calls h
      ∧ (hs_finished h = true
         ∨ ∃ a, hs_activeTurn h = Some a ∧ act_turnId a = t ∧ act_sent a = true)
  | SendUnavailable => h' = h ∧ hs_ended h = true
  | SendDies =>
      hs_activeTurn h' = hs_activeTurn h ∧ hs_calls h' = hs_calls h
      ∧ ((∃ o, ownership = Some o ∧ t ≠ ow_turnId o)
         ∨ ∃ a, hs_activeTurn h = Some a ∧ act_turnId a ≠ t ∧ act_origin a = FromApplication)
  end.
Proof.
  unfold admitSend. set (r := if hs_ended h then (h, SendUnavailable) else _).
  match goal with |- _ → ?G => assert (r = (h', outcome) → G) as Hr end.
  { subst r. intros E. destruct (hs_ended h); [by injection E as <- <-|]. cbn in E.
    destruct (hs_activeTurn h) as [a|] eqn:Ea; cbn in E.
    2: { injection E as <- <-. cbn. split_and!; [done..|by eexists|done]. }
    case_decide as Ht.
    { destruct (act_sent a) eqn:Es; injection E as <- <-; cbn.
      - split_and!; [done..|]. right. by exists a.
      - split_and!; [done..|by eexists|]. intros ? [= <-]. by left. }
    case_decide as Ho; injection E as <- <-; cbn.
    - split_and!; [done..|by eexists|]. intros ? [= <-]. right. split_and!; [done..|].
      apply elem_of_union_r. by apply elem_of_singleton.
    - split_and!; [done..|]. right. exists a. split_and!; [done..|]. by destruct (act_origin a). }
  intros E. destruct ownership as [o|]; [|by apply Hr].
  case_decide as Ht; [injection E as <- <-; split_and!; [done..|]; left; by exists o|].
  destruct (hs_finished h) eqn:Ef; [injection E as <- <-; split_and!; [done..|]; by left|].
  by apply Hr.
Qed.
End steps.

(** ** Concrete runs *)

Module turn_demo.
Definition uuid (_ : nat) : string := "5a".
Definition child (item : string) : ToolUseContent :=
  {| tu_itemId := item; tu_tool := "Task"; tu_input := JNull; tu_parentItemId := None;
     tu_backgroundTask := None;
     tu_subagent := Some {| sa_childSessionId := "native"; sa_presentation := PR_detached |} |}.
Definition summary (item : string) : SubagentSummaryContent :=
  {| ss_itemId := item; ss_agentName := "agent"; ss_model := "model"; ss_summary := "done";
     ss_isError := false; ss_childSessionId := None; ss_presentation := None; ss_usage := JNull |}.
Definition event (e : AgentEvent) : action := A_Event (Agent e).
Definition fresh : HandleState :=
  {| hs_activeTurn := None; hs_itemTurns := []; hs_goalOwned := false; hs_finished := false;
     hs_ended := false; hs_resolved := ∅; hs_deferreds := 1; hs_uuids := 0;
     hs_injected := []; hs_calls := [] |}.
Definition owner : ProviderAttemptOwnership := {| ow_turnId := "t1"; ow_attemptId := "a1" |}.
(** A sent turn with two open children, then with its completion held back. *)
Definition with_children : list action :=
  [A_Send "t1" false; event (ToolUse (child "k1")); event (ToolUse (child "k2"))].
Definition held_back : list action := with_children ++ [event (Completed CR_ended)].
Definition open_turn : HandleState := (run_actions uuid None true fresh with_children).1.
Definition waiting : HandleState := (run_actions uuid None true fresh held_back).1.
Definition waiting_turn : ActiveTurn :=
  {| act_turnId := "t1"; act_released := 1; act_sent := true; act_origin := FromApplication;
     act_children := [("k1", launch_child (child "k1")); ("k2", launch_child (child "k2"))];
     act_completedChildren := ∅; act_pendingCompletion := Some CR_ended |}.
Lemma fresh_reachable l : reachable uuid None true (run_actions uuid None true fresh l).1.
Proof. by exists None, None, fresh, l. Qed.
End turn_demo.
Import turn_demo.

(** A turn the provider started keeps its open children when an application turn
    takes it over, but their items stay attributed to the provider's turn: the
    child's summary no longer reaches the turn that waits for it, so the completion
    the provider then reports is held back with the child still open. *)
Example takeover_strands_children :
  let r := run_actions uuid None true fresh
    [event ProviderTurnStarted; event (ToolUse (child "k1")); A_Send "t1" false;
     event (SubagentSummary (summary "k1")); event (Completed CR_ended)] in
  r.2.*1 = [TurnEnvelope "turn_5a" ProviderTurnStarted;
            TurnEnvelope "turn_5a" (ToolUse (child "k1"));
            TurnEnvelope "turn_5a" (SubagentSummary (summary "k1"));
            TurnEnvelope "t1" (progress_event (launch_child (child "k1")))]
  ∧ (act_turnId <$> hs_activeTurn r.1) = Some "t1"
  ∧ (act_pendingCompletion <$> hs_activeTurn r.1) = Some (Some CR_ended)
  ∧ (jm_has "k1" ∘ act_children <$> hs_activeTurn r.1) = Some true.
Proof. vm_compute. by repeat split. Qed.

Lemma turns_accounted_witness :
  handle_wf fresh ∧
  length (completed_turns (run_actions uuid None true fresh (held_back ++ [A_Exit])).2.*1)
    + sends_failed uuid None true fresh (held_back ++ [A_Exit])
    + alive (run_actions uuid None true fresh (held_back ++ [A_Exit])).1
  = turns_begun uuid None true fresh (held_back ++ [A_Exit]) + alive fresh.
Proof.
  assert (handle_wf fresh) as W by by apply (fresh_wf None None None).
  split; [exact W|]. apply (turns_accounted uuid None true fresh _ W).
Defined.
Lemma turn_ends_once_witness :
  ∃ pre reason post,
    (act uuid None true waiting (event Interrupted)).2.*1
      = pre ++ TurnEnvelope "t1" (Completed reason) :: post
    ∧ completed_turns pre = [] ∧ completed_turns post = []
    ∧ ∀ k c, (k, c) ∈ act_children waiting_turn → k ∈ omap (closed_item "t1") pre.
Proof.
  pose proof (turn_ends_once uuid None true waiting (event Interrupted)
    (fresh_reachable held_back)) as H.
  assert (hs_activeTurn waiting = Some waiting_turn) as Ea by (vm_compute; reflexivity).
  assert (hs_activeTurn (act uuid None true waiting (event Interrupted)).1 = None) as Eb
    by (vm_compute; reflexivity).
  cbv zeta in H. rewrite Ea, Eb in H. destruct H as [[[t H] _]|H]; [discriminate H|exact H].
Defined.
Lemma handle_state_bounded_witness :
  length (hs_itemTurns waiting) ≤ MAX_ITEM_TURNS ∧ act_released waiting_turn ∉ hs_resolved waiting.
Proof.
  destruct (handle_state_bounded uuid None true waiting (fresh_reachable held_back))
    as (_ & Hb & Ha).
  split; [exact Hb|]. apply (Ha waiting_turn). vm_compute. reflexivity.
Defined.
Lemma interrupt_released_witness :
  ∃ h1, interrupt waiting "t1" = (h1, Some 1) ∧
    1 ∈ hs_resolved (run_actions uuid None true h1 ([A_Injected] ++ [A_Exit])).1.
Proof.
  eexists. split; [reflexivity|].
  apply (interrupt_released uuid None true waiting "t1" _ 1 [A_Injected]
           (fresh_reachable held_back) eq_refl).
Defined.
Lemma attempt_sends_once_witness :
  sends (run_actions uuid (Some owner) true fresh
    [A_Send "t1" false; A_Send "t1" false; event (Completed CR_ended); A_Send "t1" false]).1 = 1
  ∧ sends (run_actions uuid (Some owner) true fresh
    [A_Send "t1" false; A_Send "t1" false; event (Completed CR_ended); A_Send "t1" false]).1 ≤ 1.
Proof.
  split; [vm_compute; reflexivity|].
  apply (attempt_sends_once uuid (Some owner) true (Some "t1") (Some "a1") fresh owner);
    [reflexivity|reflexivity|repeat constructor; discriminate].
Defined.
Lemma pending_completion_settles_witness :
  let r := run_actions uuid None true waiting
    ((λ c, A_Event (Agent (SubagentSummary c))) <$> [summary "k2"; summary "k1"]) in
  hs_activeTurn r.1 = None
  ∧ r.2.*1 = ((λ c, TurnEnvelope (act_turnId waiting_turn) (SubagentSummary c)) <$>
                [summary "k2"; summary "k1"])
             ++ [TurnEnvelope (act_turnId waiting_turn) (Completed CR_ended)].
Proof.
  apply (pending_completion_settles uuid None true waiting waiting_turn CR_ended);
    [exact (fresh_reachable held_back)|vm_compute; reflexivity|reflexivity| |].
  - intros k Hk. apply elem_of_cons in Hk as [->|Hk]; [vm_compute; reflexivity|].
    apply elem_of_cons in Hk as [->|Hk]; [vm_compute; reflexivity|by apply elem_of_nil in Hk].
  - apply Permutation_swap.
Defined.
Lemma admitSend_outcomes_witness :
  admitSend None fresh "t1" false = ((admitSend None fresh "t1" false).1, SendRuns)
  ∧ hs_calls (admitSend None fresh "t1" false).1 = [CallSend "t1"].
Proof.
  split; [reflexivity|].
  apply (admitSend_outcomes None fresh "t1" false _ SendRuns eq_refl).
Defined.
