(* ===== verification/Consumers.v ===== *)
(** * Consumers of the event log

    [packages/domain/src/engine]: the cursors of cursor-storage.ts with their SQL
    and in-memory implementations (sql-consumer-storage.ts, persisted-event.ts), the
    projector runner of projector-runner.ts and the reactor runner of
    reactor-runner.ts, and the reactors of packages/domain/src/reactors/conversation.ts
    and of the permission service. What a projector applies and what a reactor's
    dispatch does are arguments; the interfaces are classes. *)
From S2P Require Import Prelude Js JsMap Contracts SessionTypes Dispatch Chat.

Local Open Scope Z_scope.

(** ** The interfaces *)

(** [CursorStorage] over a storage state [S]. *)
Class CursorStorage (S Event E : Type) := {
  cursor : string → S → result Z E;
  eventsAfter : Z → S → result (list Event) E;
  commitCursor : string → Z → S → result () E * S }.

(** [ProjectorStorage]: [apply] works on the tables [W] kept beside the cursors. *)
Class ProjectorStorage (S W Event E : Type) := {
  ps_cursors :: CursorStorage S Event E;
  applyAndCommit : string → Z → (W → result () E * W) → S → result () E * S }.

(** ** In memory *)

Section memory.
Context {Event W E : Type} (sequenceOf : Event → Z).

Record InMemoryStorage := {
  im_eventLog : list Event;
  im_cursors : gmap string Z;
  im_world : W }.

Definition cursorValue (consumerName : string) (s : InMemoryStorage) : Z :=
  default 0 (im_cursors s !! consumerName).
Definition memory_commit (consumerName : string) (sequence : Z) (s : InMemoryStorage)
  : InMemoryStorage :=
  {| im_eventLog := im_eventLog s; im_cursors := <[consumerName := sequence]> (im_cursors s);
     im_world := im_world s |}.

#[export] Instance InMemoryCursorStorage : CursorStorage InMemoryStorage Event E := {
  cursor consumerName s := Success (cursorValue consumerName s);
  eventsAfter sequence s := Success (filter (λ e, sequence < sequenceOf e) (im_eventLog s));
  commitCursor consumerName sequence s := (Success tt, memory_commit consumerName sequence s) }.

(** The cursor follows the effect; nothing undoes an effect that fails half-way. *)
#[export] Instance InMemoryProjectorStorage : ProjectorStorage InMemoryStorage W Event E := {
  applyAndCommit projectorName sequence apply s :=
    let '(r, w) := apply (im_world s) in
    let s := {| im_eventLog := im_eventLog s; im_cursors := im_cursors s; im_world := w |} in
    match r with
    | Failure e => (Failure e, s)
    | Success _ => (Success tt, memory_commit projectorName sequence s)
    end }.
End memory.
Arguments InMemoryStorage : clear implicits.

(** ** In SQL *)

(** A row of the events table, with the columns the consumers read. The table grows
    by its autoincremented [sequence], in whose order the rows are kept. *)
Record PersistedEventRow := {
  er_stream_kind : string;
  er_sequence : Z;
  er_event_id : string;
  er_correlation_id : option string;
  er_causation_event_id : option string;
  er_stream_id : string;
  er_stream_version : Z;
  er_payload_json : string }.

(** [DispatchPersistenceDecodeError] for an event. *)
Record EventDecodeError := { de_recordId : string }.

Section sql.
Context {Event W E : Type} (streamKind : string) (decodeEvent : string → option Event)
  (decode_error : EventDecodeError → E).

Definition decodePersistedEvent (row : PersistedEventRow) : result (StoredEvent Event) E :=
  match decodeEvent (er_payload_json row) with
  | Some event =>
      Success {| se_eventId := er_event_id row;
                 se_correlationId := default (er_event_id row) (er_correlation_id row);
                 se_causationEventId := er_causation_event_id row;
                 se_streamId := er_stream_id row;
                 se_streamVersion := er_stream_version row;
                 se_sequence := er_sequence row;
                 se_event := event |}
  | None => Failure (decode_error {| de_recordId := er_event_id row |})
  end.

(** [Effect.forEach]: the first failure ends it. *)
Fixpoint decode_all (rows : list PersistedEventRow) : result (list (StoredEvent Event)) E :=
  match rows with
  | [] => Success []
  | row :: rest =>
      event ←! decodePersistedEvent row;
      events ←! decode_all rest;
      Success (event :: events)
  end.

(** The tables: events, projector_cursors, and those the projectors write. *)
Record SqlStorage := {
  sq_events : list PersistedEventRow;
  sq_cursors : gmap string Z;
  sq_world : W }.
Definition sql_cursor (consumerName : string) (s : SqlStorage) : Z :=
  default 0 (sq_cursors s !! consumerName).
Definition sql_rows_after (sequence : Z) (s : SqlStorage) : list PersistedEventRow :=
  filter (λ row, er_stream_kind row = streamKind ∧ sequence < er_sequence row) (sq_events s).
(** [ON CONFLICT DO UPDATE SET last_sequence = MAX(...)]. *)
Definition sql_commit (consumerName : string) (sequence : Z) (s : SqlStorage) : SqlStorage :=
  {| sq_events := sq_events s;
     sq_cursors := <[consumerName :=
                       match sq_cursors s !! consumerName with
                       | Some last => Z.max last sequence
                       | None => sequence
                       end]> (sq_cursors s);
     sq_world := sq_world s |}.

#[export] Instance SqlCursorStorage : CursorStorage SqlStorage (StoredEvent Event) E := {
  cursor consumerName s := Success (sql_cursor consumerName s);
  eventsAfter sequence s := decode_all (sql_rows_after sequence s);
  commitCursor consumerName sequence s := (Success tt, sql_commit consumerName sequence s) }.

(** [sql.withTransaction]: a failed application leaves the tables as they were. *)
#[export] Instance SqlConsumerStorage : ProjectorStorage SqlStorage W (StoredEvent Event) E := {
  applyAndCommit projectorName sequence apply s :=
    match apply (sq_world s) with
    | (Failure e, _) => (Failure e, s)
    | (Success _, w) =>
        (Success tt,
         sql_commit projectorName sequence
           {| sq_events := sq_events s; sq_cursors := sq_cursors s; sq_world := w |})
    end }.
End sql.
Arguments SqlStorage : clear implicits.

(** ** Projectors *)

Section projectors.
Context {S W Event E : Type} `{ProjectorStorage S W Event E}.

Record ProjectorDefinition := {
  pd_name : string;
  pd_sequenceOf : Event → Z;
  pd_apply : Event → W → result () E * W }.

Fixpoint project_loop (p : ProjectorDefinition) (cursor : Z) (events : list Event) (s : S)
  : result Z E * S :=
  match events with
  | [] => (Success cursor, s)
  | event :: rest =>
      let sequence := pd_sequenceOf p event in
      if sequence <=? cursor then project_loop p cursor rest s
      else
        match applyAndCommit (pd_name p) sequence (pd_apply p event) s with
        | (Failure e, s) => (Failure e, s)
        | (Success _, s) => project_loop p sequence rest s
        end
  end.

(** [ProjectorRunner.catchUp] *)
Definition projector_catchUp (p : ProjectorDefinition) (s : S) : result Z E * S :=
  match cursor (pd_name p) s with
  | Failure e => (Failure e, s)
  | Success c =>
      match eventsAfter c s with
      | Failure e => (Failure e, s)
      | Success events => project_loop p c events s
      end
  end.

(** What [dispatchTransactionally] does with the events its dispatch appended, inside
    the dispatch's transaction: it reads the cursor and applies those after it. The
    earlier events are not read: the projector must have caught up with them. *)
Definition project_appended (p : ProjectorDefinition) (appended : list Event) (s : S)
  : result Z E * S :=
  match cursor (pd_name p) s with
  | Failure e => (Failure e, s)
  | Success c => project_loop p c appended s
  end.
End projectors.

(** ** Reactors *)

Record ReactorCommand (C : Type) := { rc_streamId : string; rc_command : C }.
Arguments Build_ReactorCommand {C}.
Arguments rc_streamId {C}.
Arguments rc_command {C}.
Record ReactorDispatchInput (C : Type) := {
  ri_streamId : string;
  ri_command : C;
  ri_commandId : string;
  ri_correlationId : string;
  ri_causationEventId : string }.
Arguments Build_ReactorDispatchInput {C}.
Arguments ri_streamId {C}.
Arguments ri_command {C}.
Arguments ri_commandId {C}.
Arguments ri_correlationId {C}.
Arguments ri_causationEventId {C}.

Section reactors.
Context {S W Event C E : Type} `{CursorStorage S Event E}.
Context (eventId correlationId : Event → string) (sequenceOf : Event → Z)
  (dispatch : ReactorDispatchInput C → W → result () E * W).

Record ReactorDefinition := {
  rd_name : string;
  rd_react : Event → result (list (ReactorCommand C)) E }.
Definition cursorName (reactor : ReactorDefinition) : string := "reactor:" +:+ rd_name reactor.

(** The storage, what the dispatches act on, and the record of the dispatches that
    succeeded, in order. *)
Record Reacting := {
  rx_storage : S;
  rx_world : W;
  rx_dispatched : list (ReactorDispatchInput C) }.

Definition command_input (reactor : ReactorDefinition) (event : Event) (index : nat)
    (command : ReactorCommand C) : ReactorDispatchInput C :=
  {| ri_streamId := rc_streamId command;
     ri_command := rc_command command;
     ri_commandId := cursorName reactor +:+ ":" +:+ eventId event +:+ ":"
                       +:+ String_of_Z (Z.of_nat index);
     ri_correlationId := correlationId event;
     ri_causationEventId := eventId event |}.
Definition command_inputs (reactor : ReactorDefinition) (event : Event)
    (commands : list (ReactorCommand C)) : list (ReactorDispatchInput C) :=
  imap (command_input reactor event) commands.

Fixpoint dispatch_all (inputs : list (ReactorDispatchInput C)) (x : Reacting)
  : result () E * Reacting :=
  match inputs with
  | [] => (Success tt, x)
  | input :: rest =>
      match dispatch input (rx_world x) with
      | (Failure e, w) =>
          (Failure e, {| rx_storage := rx_storage x; rx_world := w;
                         rx_dispatched := rx_dispatched x |})
      | (Success _, w) =>
          dispatch_all rest {| rx_storage := rx_storage x; rx_world := w;
                               rx_dispatched := rx_dispatched x ++ [input] |}
      end
  end.

Definition commit_event (reactor : ReactorDefinition) (event : Event) (x : Reacting)
  : result () E * Reacting :=
  let '(r, s) := commitCursor (cursorName reactor) (sequenceOf event) (rx_storage x) in
  (r, {| rx_storage := s; rx_world := rx_world x; rx_dispatched := rx_dispatched x |}).

(** The loop of a reactor that dispatches one command at a time. *)
Fixpoint react_loop (reactor : ReactorDefinition) (c : Z) (events : list Event) (x : Reacting)
  : result Z E * Reacting :=
  match events with
  | [] => (Success c, x)
  | event :: rest =>
      match rd_react reactor event with
      | Failure e => (Failure e, x)
      | Success commands =>
          match dispatch_all (command_inputs reactor event commands) x with
          | (Failure e, x) => (Failure e, x)
          | (Success _, x) =>
              match commit_event reactor event x with
              | (Failure e, x) => (Failure e, x)
              | (Success _, x) => react_loop reactor (sequenceOf event) rest x
              end
          end
      end
  end.

(** The other mode: all commands are prepared, grouped by their stream, dispatched
    group beside group, and the cursor is committed when all have succeeded. *)
Fixpoint prepare_all (reactor : ReactorDefinition) (events : list Event)
  : result (list (ReactorDispatchInput C)) E :=
  match events with
  | [] => Success []
  | event :: rest =>
      commands ←! rd_react reactor event;
      inputs ←! prepare_all reactor rest;
      Success (command_inputs reactor event commands ++ inputs)
  end.
Definition add_to_group (groups : list (string * list (ReactorDispatchInput C)))
    (input : ReactorDispatchInput C) : list (string * list (ReactorDispatchInput C)) :=
  jm_set (ri_streamId input) (default [] (jm_get (ri_streamId input) groups) ++ [input]) groups.
Definition commandGroups (inputs : list (ReactorDispatchInput C))
  : list (string * list (ReactorDispatchInput C)) :=
  foldl add_to_group [] inputs.

Fixpoint commit_all (reactor : ReactorDefinition) (c : Z) (events : list Event) (x : Reacting)
  : result Z E * Reacting :=
  match events with
  | [] => (Success c, x)
  | event :: rest =>
      match commit_event reactor event x with
      | (Failure e, x) => (Failure e, x)
      | (Success _, x) => commit_all reactor (sequenceOf event) rest x
      end
  end.

(** The order in which concurrent groups get their dispatches in is the runtime's
    choice. *)
Definition react_groups
    (order : list (list (ReactorDispatchInput C)) → list (ReactorDispatchInput C))
    (reactor : ReactorDefinition) (c : Z) (events : list Event) (x : Reacting)
  : result Z E * Reacting :=
  match prepare_all reactor events with
  | Failure e => (Failure e, x)
  | Success inputs =>
      match dispatch_all (order (jm_values (commandGroups inputs))) x with
      | (Failure e, x) => (Failure e, x)
      | (Success _, x) => commit_all reactor c events x
      end
  end.

(** [ReactorRunner.catchUp] *)
Definition reactor_catchUp (order : list (list (ReactorDispatchInput C)) → list (ReactorDispatchInput C))
    (dispatchConcurrency : option Z) (reactor : ReactorDefinition) (x : Reacting)
  : result Z E * Reacting :=
  match cursor (cursorName reactor) (rx_storage x) with
  | Failure e => (Failure e, x)
  | Success c =>
      match eventsAfter c (rx_storage x) with
      | Failure e => (Failure e, x)
      | Success events =>
          let pendingEvents := filter (λ event, c < sequenceOf event) events in
          if Z.max 1 (default 1 dispatchConcurrency) =? 1
          then react_loop reactor c pendingEvents x
          else react_groups order reactor c pendingEvents x
      end
  end.
End reactors.
Arguments ReactorDefinition : clear implicits.
Arguments Reacting : clear implicits.

(** ** The conversation reactors *)

Inductive AutoNameTrigger : Set := turn_started | startup_released | turn_completed.
Record AutoNameCommand := { an_turnId : option string; an_trigger : AutoNameTrigger }.
Record ReviewGuideRefreshCommand := { rg_turnId : string; rg_settledAt : option Z }.
Record ChatArchiveCommand := { ac_force : bool }.
Inductive ChatDeleteCommand : Set := DeleteChatResources.

Definition autoNameCommand (event : SessionEvent) : option AutoNameCommand :=
  match event with
  | TurnStarted turnId _ _ _ _ =>
      Some {| an_turnId := Some turnId; an_trigger := turn_started |}
  | SessionQueuePausedSet paused _ =>
      if paused then None else Some {| an_turnId := None; an_trigger := startup_released |}
  | TurnSettled turnId outcome _ =>
      if decide (outcome = TSO_completed)
      then Some {| an_turnId := Some turnId; an_trigger := turn_completed |} else None
  | _ => None
  end.
(** At most one command, to the stream of the event. *)
Definition to_stream {Ev C} (record : StoredEvent Ev) (command : option C) : list (ReactorCommand C) :=
  match command with
  | Some command => [{| rc_streamId := se_streamId record; rc_command := command |}]
  | None => []
  end.

Section conversation.
Context {E : Type}.

Definition autoNameReactorDefinition
  : ReactorDefinition (StoredEvent SessionEvent) AutoNameCommand E := {|
  rd_name := "auto-name-chat";
  rd_react record := Success (to_stream record (autoNameCommand (se_event record))) |}.

Definition reviewGuideReactorDefinition
  : ReactorDefinition (StoredEvent SessionEvent) ReviewGuideRefreshCommand E := {|
  rd_name := "review-guide-refresh";
  rd_react record :=
    Success (to_stream record
      match se_event record with
      | TurnSettled turnId outcome settledAt =>
          if decide (outcome = TSO_completed)
          then Some {| rg_turnId := turnId; rg_settledAt := Some settledAt |} else None
      | _ => None
      end) |}.

Definition chatArchiveReactorDefinition
  : ReactorDefinition (StoredEvent ChatEvent) ChatArchiveCommand E := {|
  rd_name := "chat-archive";
  rd_react record :=
    Success (to_stream record
      match se_event record with
      | ChatArchiveRequested _ force => Some {| ac_force := default false force |}
      | _ => None
      end) |}.

Definition chatDeleteReactorDefinition
  : ReactorDefinition (StoredEvent ChatEvent) ChatDeleteCommand E := {|
  rd_name := "chat-delete";
  rd_react record :=
    Success (to_stream record
      match se_event record with
      | ChatDeleteRequested _ => Some DeleteChatResources
      | _ => None
      end) |}.

(** ** The permission reactor *)

Inductive PermissionLifecycleCommand : Type :=
| PublishPermission (requestId : string)
| ExpirePermissionCommand (requestId : string)
| CompletePermission (requestId decisionJson : string).

Definition permissionReactorDefinition
  : ReactorDefinition (StoredEvent SessionEvent) PermissionLifecycleCommand E := {|
  rd_name := "permission-lifecycle";
  rd_react record :=
    Success (to_stream record
      match se_event record with
      | PermissionRequested _ requestId _ _ _ => Some (PublishPermission requestId)
      | PermissionExpired requestId _ => Some (ExpirePermissionCommand requestId)
      | PermissionResolved requestId decision decisionJson _ =>
          Some (CompletePermission requestId
                  (default (stringify (JObj [("_tag", JStr decision)])) decisionJson))
      | _ => None
      end) |}.
End conversation.
