(* ===== verification/ConsumersProps.v ===== *)
(** * Consumers: every event is applied once and no command is skipped

    Laws of the storage interface and their SQL implementation; what projectors and
    reactors achieve over histories in which the log grows, runs fail and processes
    are lost between two transactions. *)
From stdpp Require Import sorting.
From S2P Require Import Prelude Js JsMap Ids Contracts SessionTypes Dispatch Chat Consumers.

Local Open Scope Z_scope.

(** ** Strings *)

Lemma pretty_N_go_no_colon x s :
  str_forall not_colon s = true → str_forall not_colon (pretty_N_go x s) = true.
Proof.
  revert s. induction (N.lt_wf_0 x) as [x _ IH]; intros s Hs.
  destruct (decide (x = 0)%N) as [->|Hx]; [by rewrite pretty_N_go_0|].
  rewrite pretty_N_go_step by lia. apply IH; [apply N.div_lt; lia|]. cbn [str_forall].
  rewrite Hs, andb_true_r. unfold pretty_N_char. by repeat case_match.
Qed.
Lemma String_of_Z_no_colon n : str_forall not_colon (String_of_Z (Z.of_nat n)) = true.
Proof.
  unfold String_of_Z, pretty, pretty_Z. destruct n as [|n]; [done|]. cbn [Z.of_nat].
  change (str_forall not_colon (pretty_N_go (N.pos (Pos.of_succ_nat n)) "") = true).
  by apply pretty_N_go_no_colon.
Qed.
(** What follows the last colon is determined by the string. *)
Lemma last_colon_inj a a' r r' :
  str_forall not_colon r = true → str_forall not_colon r' = true →
  a +:+ String colon r = a' +:+ String colon r' → a = a' ∧ r = r'.
Proof.
  intros Hr Hr'.
  assert (∀ s t, str_forall not_colon (s +:+ String colon t) = false) as Hno.
  { intros s t. rewrite str_forall_app. cbn. apply andb_false_r. }
  revert a'. induction a as [|x a IH]; intros [|y a'] Heq;
    rewrite ?string_app_cons, ?string_app_nil_l in Heq.
  - by injection Heq as ->.
  - injection Heq as _ ->. by rewrite Hno in Hr.
  - injection Heq as _ <-. by rewrite Hno in Hr'.
  - injection Heq as -> Heq. by destruct (IH a' Heq) as [-> ->].
Qed.

(** ** Logs in sequence order *)

Section logs.
Context {Event : Type} (seq : Event → Z).
Definition upto (c : Z) (l : list Event) : list Event := filter (λ e, seq e ≤ c) l.
Definition after (c : Z) (l : list Event) : list Event := filter (λ e, c < seq e) l.
Definition in_order (l : list Event) : Prop := StronglySorted (λ a b, seq a < seq b) l.

Lemma upto_none c l : Forall (λ e, c < seq e) l → upto c l = [].
Proof.
  induction 1 as [|e l He _ IH]; [done|]. unfold upto. rewrite filter_cons, decide_False by lia.
  exact IH.
Qed.
Lemma after_all c l : Forall (λ e, c < seq e) l → after c l = l.
Proof.
  induction 1 as [|e l He _ IH]; [done|]. unfold after. rewrite filter_cons, decide_True by done.
  f_equal. exact IH.
Qed.
Lemma upto_after c l : in_order l → l = upto c l ++ after c l.
Proof.
  induction 1 as [|e l _ IH Hall]; [done|]. unfold upto, after. rewrite !filter_cons.
  destruct (decide (seq e ≤ c)).
  - rewrite decide_False by lia. cbn. f_equal. exact IH.
  - rewrite decide_True by lia. fold (upto c l) (after c l).
    assert (Forall (λ x, c < seq x) l) as Hc
      by (eapply Forall_impl; [exact Hall|]; cbn; lia).
    by rewrite (upto_none c l), (after_all c l).
Qed.
(** The first event after the cursor moves the boundary by itself. *)
Lemma after_cons c l e rest :
  in_order l → after c l = e :: rest →
  c < seq e ∧ e ∈ l ∧ upto (seq e) l = upto c l ++ [e] ∧ after (seq e) l = rest.
Proof.
  intros Hl. induction Hl as [|x l Hl IH Hall]; [done|].
  unfold upto, after in *. rewrite !filter_cons. case_decide as Hx.
  - intros [= <- <-]. fold (after c l). split; [done|]. split; [left|].
    rewrite (decide_True (P := seq x ≤ seq x)) by lia.
    rewrite (decide_False (P := seq x ≤ c)) by lia.
    rewrite (decide_False (P := seq x < seq x)) by lia.
    assert (Forall (λ y, c < seq y) l) as Hc by (eapply Forall_impl; [exact Hall|]; cbn; lia).
    fold (upto (seq x) l) (upto c l) (after (seq x) l).
    rewrite (upto_none c l), (upto_none (seq x) l), (after_all c l), (after_all (seq x) l) by done.
    done.
  - intros He. destruct (IH He) as (Hc & Hin & Hu & Ha). split; [done|]. split; [by right|].
    rewrite Forall_forall in Hall. specialize (Hall e Hin). cbn in Hall.
    rewrite (decide_True (P := seq x ≤ seq e)), (decide_True (P := seq x ≤ c)),
      (decide_False (P := seq e < seq x)) by lia.
    by rewrite Hu, Ha.
Qed.
Lemma upto_app_after c l new :
  Forall (λ e, c < seq e) new → upto c (l ++ new) = upto c l.
Proof.
  intros Hn. unfold upto. rewrite filter_app. fold (upto c new).
  by rewrite upto_none, app_nil_r.
Qed.
Lemma in_order_app l k e x : in_order (l ++ k) → e ∈ l → x ∈ k → seq e < seq x.
Proof.
  intros H He Hx. induction l as [|y l IH]; [by apply elem_of_nil in He|].
  apply StronglySorted_inv in H as [H Hy]. apply elem_of_cons in He as [->|He]; [|by apply IH].
  rewrite Forall_forall in Hy. apply Hy, elem_of_app. by right.
Qed.
Lemma elem_of_upto c l e : e ∈ upto c l ↔ seq e ≤ c ∧ e ∈ l.
Proof. unfold upto. by rewrite list_elem_of_filter. Qed.
Lemma upto_prefix c l : in_order l → upto c l `prefix_of` l.
Proof. intros Hl. exists (after c l). by apply upto_after. Qed.
End logs.

(** ** The laws of the storage *)

(** What a consumer may rely on: the cursor it reads is its position, the events it
    gets are those of the log after it, and a commit moves its position or fails. *)
Class CursorLaws (S Event E : Type) (seq : Event → Z) `{CursorStorage S Event E} := {
  log : S → list Event;
  position : string → S → Z;
  cl_cursor n s c : cursor n s = Success c → c = position n s;
  cl_events c s events : eventsAfter c s = Success events → events = after seq c (log s);
  cl_commit n q s r s' :
    commitCursor n q s = (r, s') → position n s < q →
    log s' = log s ∧ (if is_success r then position n s' = q else position n s' = position n s) }.

(** The application of an event and the commit of its sequence happen together or
    not at all. *)
Class ProjectorLaws (S W Event E : Type) (seq : Event → Z) `{P : ProjectorStorage S W Event E} := {
  pl_cursors :: CursorLaws S Event E seq;
  world : S → W;
  pl_apply n q f s r s' :
    applyAndCommit n q f s = (r, s') → position n s < q →
    log s' = log s ∧
    if is_success r then (f (world s)).1 = Success tt ∧ world s' = (f (world s)).2
                         ∧ position n s' = q
    else world s' = world s ∧ position n s' = position n s }.

(** A consumer's place in the log: its position is that of an event, or the start. *)
Section located.
Context {S Event E : Type} {seq : Event → Z} `{CL : CursorLaws S Event E seq}.
Definition located (name : string) (s : S) : Prop :=
  in_order seq (log s)
  ∧ (position name s = 0 ∨ ∃ e, e ∈ log s ∧ seq e = position name s)
  ∧ ∀ e, e ∈ log s → 0 < seq e.
(** A consumer that has not run, over a log of positive sequences. *)
Definition at_start (name : string) (s : S) : Prop :=
  in_order seq (log s) ∧ (∀ e, e ∈ log s → 0 < seq e) ∧ position name s = 0.
(** The log grows, as the engine's appends make it grow. *)
Definition log_grows (s s' : S) (new : list Event) : Prop :=
  log s' = log s ++ new ∧ in_order seq (log s') ∧ Forall (λ e, 0 < seq e) new.

Lemma located_start name s : at_start name s → located name s ∧ upto seq (position name s) (log s) = [].
Proof.
  intros (Ho & Hall & Hpos). split; [by split_and!; [|left|]|]. rewrite Hpos, upto_none; [done|].
  by apply Forall_forall.
Qed.
Lemma located_moved name s s' e :
  located name s → log s' = log s → e ∈ log s → position name s' = seq e → located name s'.
Proof.
  intros (Ho & _ & Hall) Hl He Hp. unfold located. rewrite Hl, Hp. split_and!; [done| |done].
  right. by exists e.
Qed.
Lemma located_same name s s' :
  located name s → log s' = log s → position name s' = position name s → located name s'.
Proof. intros Hloc Hl Hp. unfold located. by rewrite Hl, Hp. Qed.
Lemma located_grows name s s' new :
  located name s → log_grows s s' new → position name s' = position name s →
  located name s' ∧ upto seq (position name s') (log s') = upto seq (position name s) (log s).
Proof.
  intros (_ & Hpos & Hall) (Hlog & Ho & Hnew) Hp. rewrite Forall_forall in Hnew.
  assert (Forall (λ e, position name s < seq e) new) as Hafter.
  { apply Forall_forall. intros x Hx. destruct Hpos as [->|(e & He & <-)]; [by apply Hnew|].
    rewrite Hlog in Ho. by eapply in_order_app. }
  rewrite Hp, Hlog, upto_app_after by done. split; [|done]. unfold located. rewrite Hp.
  split_and!; [done| |].
  - destruct Hpos as [?|(e & He & Hs)]; [by left|right]. exists e. rewrite Hlog.
    split; [apply elem_of_app; by left|done].
  - rewrite Hlog. intros e [He|He]%elem_of_app; [by apply Hall|by apply Hnew].
Qed.
End located.

(** *** SQL *)

Section sql_laws.
Context {Event W E : Type} (streamKind : string) (decodeEvent : string → option Event)
  (decode_error : EventDecodeError → E).
Notation decoded row :=
  (match decodePersistedEvent decodeEvent decode_error row with
   | Success e => Some e | Failure _ => None end).
Definition sql_log (s : SqlStorage W) : list (StoredEvent Event) :=
  omap (λ row, decoded row) (filter (λ row, er_stream_kind row = streamKind) (sq_events s)).

Lemma decode_all_spec rows events :
  decode_all decodeEvent decode_error rows = Success events → events = omap (λ row, decoded row) rows.
Proof.
  revert events. induction rows as [|row rows IH]; intros events; [by intros [= <-]|]. cbn.
  destruct (decodePersistedEvent decodeEvent decode_error row) as [e|]; [cbn|done].
  destruct (decode_all decodeEvent decode_error rows) as [es|]; [cbn|done].
  intros [= <-]. f_equal. by apply IH.
Qed.
Lemma decoded_sequence row e :
  decodePersistedEvent decodeEvent decode_error row = Success e → se_sequence e = er_sequence row.
Proof. unfold decodePersistedEvent. destruct (decodeEvent _); [by intros [= <-]|done]. Qed.
Lemma sql_rows_after_log c s :
  omap (λ row, decoded row) (sql_rows_after streamKind c s) = after se_sequence c (sql_log s).
Proof.
  unfold sql_log, sql_rows_after, after. induction (sq_events s) as [|row rows IH]; [done|].
  rewrite !filter_cons. case_decide as H1.
  - destruct H1 as [Hk Hs]. rewrite (decide_True (P := er_stream_kind row = streamKind)) by done.
    cbn. destruct (decodePersistedEvent decodeEvent decode_error row) as [e|] eqn:Ee; [|exact IH].
    rewrite filter_cons, decide_True by (by rewrite (decoded_sequence _ _ Ee)). f_equal. exact IH.
  - case_decide as Hk; [|exact IH]. cbn.
    destruct (decodePersistedEvent decodeEvent decode_error row) as [e|] eqn:Ee; [|exact IH].
    rewrite filter_cons, decide_False; [exact IH|]. rewrite (decoded_sequence _ _ Ee).
    intros Hs. by apply H1.
Qed.
Lemma sql_commit_position n q (s : SqlStorage W) :
  sql_cursor n s < q → sql_cursor n (sql_commit n q s) = q.
Proof.
  unfold sql_cursor, sql_commit. cbn. rewrite lookup_insert_eq. cbn.
  destruct (sq_cursors s !! n); cbn; lia.
Qed.

#[export] Program Instance sql_cursor_laws :
  CursorLaws (SqlStorage W) (StoredEvent Event) E se_sequence
    (H := SqlCursorStorage streamKind decodeEvent decode_error) := {|
  log := sql_log;
  position := sql_cursor |}.
Next Obligation. intros n s c. cbn. by intros [= <-]. Qed.
Next Obligation.
  intros c s events. cbn. intros H%decode_all_spec. by rewrite H, sql_rows_after_log.
Qed.
Next Obligation.
  intros n q s r s'. cbn. intros [= <- <-] Hq. split; [done|]. by apply sql_commit_position.
Qed.

#[export] Program Instance sql_projector_laws :
  ProjectorLaws (SqlStorage W) W (StoredEvent Event) E se_sequence
    (P := SqlConsumerStorage streamKind decodeEvent decode_error) := {|
  pl_cursors := sql_cursor_laws;
  world := sq_world |}.
Next Obligation.
  intros n q f s r s'. cbn. destruct (f (sq_world s)) as [[[]|e] w]; intros [= <- <-] Hq; [|done].
  split; [done|]. split; [done|]. split; [done|].
  apply (sql_commit_position n q {| sq_events := _; sq_cursors := _; sq_world := w |}). exact Hq.
Qed.
End sql_laws.

(** ** Projectors *)

Section projectors.
Context {S W Event E : Type} {seq : Event → Z} `{PL : ProjectorLaws S W Event E seq}.
Context (name : string) (apply : Event → W → result () E * W).
Notation projector := {| pd_name := name; pd_sequenceOf := seq; pd_apply := apply |}.

(** The reference: the events applied in order, each with success. *)
Fixpoint replay (w : W) (events : list Event) : option W :=
  match events with
  | [] => Some w
  | e :: rest =>
      match apply e w with
      | (Success _, w) => replay w rest
      | (Failure _, _) => None
      end
  end.
Lemma replay_snoc w l e w1 :
  replay w l = Some w1 →
  replay w (l ++ [e]) = match apply e w1 with (Success _, w2) => Some w2 | _ => None end.
Proof.
  revert w. induction l as [|x l IH]; intros w; [by intros [= ->]|]. cbn.
  destruct (apply x w) as [[]]; [apply IH|done].
Qed.

Lemma replay_app w l k : replay w (l ++ k) = replay w l ≫= λ w, replay w k.
Proof.
  revert w. induction l as [|x l IH]; intros w; [done|]. cbn.
  destruct (apply x w) as [[]]; [apply IH|done].
Qed.

(** A run that is lost after the transactions of [k] events. *)
Definition lost_run (k : nat) (s : S) : S :=
  match cursor name s, eventsAfter (position name s) s with
  | Success c, Success events => (project_loop projector c (take k events) s).2
  | _, _ => s
  end.

(** What happens to the storage: the log grows, the projector runs, or is lost; or a
    dispatch appends events and applies them in its transaction, which ends as a whole or
    leaves the storage as it was; a repeated dispatch gets the events it appended before. The server lets the projector catch up before it serves,
    and dispatches keep it so ([dispatch_keeps_caught_up]); after an append by anything
    else a dispatch would pass over events ([dispatch_behind_skips]). *)
Inductive project_step (s s' : S) : Prop :=
| PS_dispatch old new s1 c :
    after seq (position name s) (log s) = [] → Forall (λ e, e ∈ log s) old →
    log_grows s s1 new → world s1 = world s → position name s1 = position name s →
    project_appended projector (old ++ new) s1 = (Success c, s') → project_step s s'
| PS_append new :
    log_grows s s' new → world s' = world s → position name s' = position name s →
    project_step s s'
| PS_catchUp : s' = (projector_catchUp projector s).2 → project_step s s'
| PS_lost k : s' = lost_run k s → project_step s s'.

(** The tables are those of the events up to the cursor. *)
Definition projected (w0 : W) (s : S) : Prop :=
  located name s ∧ replay w0 (upto seq (position name s) (log s)) = Some (world s).

Lemma project_loop_projected w0 events s c k r s' :
  projected w0 s → c = position name s → events = take k (after seq c (log s)) →
  project_loop projector c events s = (r, s') →
  projected w0 s' ∧ (is_success r = true → k = length (after seq c (log s)) →
                     after seq (position name s') (log s') = [] ∧ r = Success (position name s')).
Proof.
  revert s c k. induction events as [|e events IH]; intros s c k Hp -> Hev.
  { cbn. intros [= <- <-]. split; [done|]. intros _ ->. rewrite take_ge in Hev by lia.
    by rewrite <-Hev. }
  destruct k as [|k]; [done|]. destruct (after seq (position name s) (log s)) as [|x rest] eqn:Ha;
    [done|]. cbn in Hev. injection Hev as <- Hev. destruct Hp as (Hloc & Hrep).
  destruct (after_cons seq _ _ _ _ (proj1 Hloc) Ha) as (Hlt & Hin & Hup & Hrest).
  cbn [project_loop pd_sequenceOf pd_name pd_apply]. destruct (Z.leb_spec (seq e) (position name s)); [lia|].
  destruct (applyAndCommit name (seq e) (apply e) s) as [r1 s1] eqn:Ec.
  destruct (pl_apply _ _ _ _ _ _ Ec Hlt) as (Hlog & Hc).
  destruct r1 as [[]|err]; cbn in Hc.
  - destruct Hc as (Hf & Hw & Hq). intros Hloop.
    eapply (IH s1 (seq e) k) in Hloop; [|split|by symmetry|by rewrite Hlog, Hrest].
    + destruct Hloop as [? Hl]. split; [done|]. intros Hs Hk. cbn in Hk. injection Hk as ->.
      apply Hl; [done|]. by rewrite Hlog, Hrest.
    + by eapply located_moved.
    + rewrite Hq, Hlog, Hup, (replay_snoc _ _ _ _ Hrep), Hw.
      destruct (apply e (world s)) as [[]]; [done|by cbn in Hf].
  - destruct Hc as (Hw & Hq). intros [= <- <-]. split; [|done].
    split; [by eapply located_same|by rewrite Hlog, Hq, Hw].
Qed.

Lemma catchUp_projected w0 s r s' :
  projected w0 s → projector_catchUp projector s = (r, s') →
  projected w0 s' ∧ (is_success r = true →
    after seq (position name s') (log s') = [] ∧ r = Success (position name s')).
Proof.
  intros Hp. unfold projector_catchUp. cbn [pd_name].
  destruct (cursor name s) as [c|e] eqn:Ec; [|by intros [= <- <-]].
  apply cl_cursor in Ec as ->.
  destruct (eventsAfter (position name s) s) as [events|e] eqn:Ee; [|by intros [= <- <-]].
  apply cl_events in Ee as ->. intros Hl.
  eapply (project_loop_projected w0 _ s _ (length (after seq (position name s) (log s)))) in Hl;
    [|done..|by rewrite take_ge].
  destruct Hl as [? Hr]. split; [done|]. intros Hs. by apply Hr.
Qed.

Lemma appended_after s s1 new :
  located name s → after seq (position name s) (log s) = [] → log_grows s s1 new →
  position name s1 = position name s → after seq (position name s1) (log s1) = new.
Proof.
  intros Hloc Ha Hg Hpos. destruct (located_grows _ _ _ _ Hloc Hg Hpos) as [_ Hu].
  destruct Hg as (Hlog & Ho & _).
  pose proof (upto_after seq (position name s1) (log s1) Ho) as H1. rewrite Hu, Hlog in H1.
  destruct Hloc as (Hs & _). pose proof (upto_after seq (position name s) (log s) Hs) as H2.
  rewrite Ha, app_nil_r in H2. rewrite <-H2 in H1. apply app_inv_head in H1. by rewrite Hlog.
Qed.
(** Events up to the cursor are passed over. *)
Lemma project_loop_skips q old new s :
  Forall (λ e, seq e ≤ q) old → project_loop projector q (old ++ new) s = project_loop projector q new s.
Proof.
  induction 1 as [|e old He _ IH]; [done|]. cbn [app project_loop pd_sequenceOf].
  destruct (Z.leb_spec (seq e) q); [exact IH|lia].
Qed.
Lemma after_nil q l : after seq q l = [] → Forall (λ e, seq e ≤ q) l.
Proof.
  intros Ha. apply Forall_forall. intros e He. destruct (decide (seq e ≤ q)); [done|].
  assert (e ∈ after seq q l) as Hin by (apply list_elem_of_filter; split; [lia|done]).
  rewrite Ha in Hin. by apply elem_of_nil in Hin.
Qed.
(** A dispatch by a projector that has caught up leaves it caught up. *)
Lemma dispatch_keeps_caught_up w0 s s1 old new c s' :
  projected w0 s → after seq (position name s) (log s) = [] → Forall (λ e, e ∈ log s) old →
  log_grows s s1 new → world s1 = world s → position name s1 = position name s →
  project_appended projector (old ++ new) s1 = (Success c, s') →
  projected w0 s' ∧ after seq (position name s') (log s') = [].
Proof.
  intros [Hloc Hrep] Ha Hold Hg Hw Hpos. pose proof (appended_after _ _ _ Hloc Ha Hg Hpos) as Hnew.
  destruct (located_grows _ _ _ _ Hloc Hg Hpos) as [Hloc1 Hu].
  assert (projected w0 s1) as Hp by (split; [done|by rewrite Hu, Hw]).
  unfold project_appended. cbn [pd_name]. destruct (cursor name s1) as [q|] eqn:Eq; [|done].
  apply cl_cursor in Eq as ->. rewrite project_loop_skips.
  2: { rewrite Hpos. apply after_nil in Ha. rewrite Forall_forall in Ha. eapply Forall_impl; [exact Hold|exact Ha]. }
  intros Hl. eapply (project_loop_projected w0 _ s1 _ (length new)) in Hl; [|done..|by rewrite Hnew, take_ge].
  destruct Hl as [? Hl]. split; [done|]. apply Hl; [done|by rewrite Hnew].
Qed.

Lemma project_step_projected w0 s s' : projected w0 s → project_step s s' → projected w0 s'.
Proof.
  intros Hp [old new s1 c Ha Hold Hg Hw Hpos Hd|new Hg Hw Hpos|Hs|k Hs].
  - by eapply dispatch_keeps_caught_up in Hd as [? _].
  - destruct Hp as [Hloc Hrep]. destruct (located_grows _ _ _ _ Hloc Hg Hpos) as [? Hu].
    split; [done|]. by rewrite Hu, Hw.
  - destruct (projector_catchUp projector s) as [r s1] eqn:Er. cbn in Hs. subst.
    by eapply catchUp_projected in Er as [? _].
  - subst. unfold lost_run. destruct (cursor name s) as [c|] eqn:Ec; [|done].
    apply cl_cursor in Ec as ->.
    destruct (eventsAfter (position name s) s) as [events|] eqn:Ee; [|done].
    apply cl_events in Ee as ->.
    destruct (project_loop _ _ _ _) as [r s'] eqn:Er.
    by eapply (project_loop_projected w0 _ s _ k) in Er as [? _].
Qed.

Lemma projected_reachable s0 s :
  at_start name s0 → rtc project_step s0 s → projected (world s0) s.
Proof.
  intros Hstart Hsteps. assert (projected (world s0) s0) as H0.
  { destruct (located_start _ _ Hstart) as [? Hu]. split; [done|]. by rewrite Hu. }
  revert H0. generalize (world s0). clear Hstart. intros w0.
  induction Hsteps as [|x y z Hxy _ IH]; [done|]. intros H. apply IH. by eapply project_step_projected.
Qed.


(** A run that succeeds leaves nothing behind: it returns the projector's
    position, no event of the log is after it, and the tables are those of the whole
    log. *)
Theorem projector_catches_up s0 s c s' :
  at_start name s0 → rtc project_step s0 s → projector_catchUp projector s = (Success c, s') →
  c = position name s' ∧ after seq c (log s') = [] ∧ replay (world s0) (log s') = Some (world s').
Proof.
  intros H0 H Hc. pose proof (projected_reachable s0 s H0 H) as Hp.
  destruct (catchUp_projected _ _ _ _ Hp Hc) as [((Ho & _) & Hr) Hl].
  destruct (Hl eq_refl) as [Ha [= ->]]. split; [done|]. split; [done|].
  rewrite (upto_after seq (position name s') (log s') Ho), Ha, app_nil_r. exact Hr.
Qed.
End projectors.

(** ** Reactors *)

(** The merges of concurrent groups: each keeps its order. *)
Inductive merges {A : Type} : list (list A) → list A → Prop :=
| merges_done groups : Forall (λ g, g = []) groups → merges groups []
| merges_next groups i x g l :
    groups !! i = Some (x :: g) → merges (<[i := g]> groups) l → merges groups (x :: l).

Section reactors.
Context {S W Event C E : Type} {seq : Event → Z} `{CL : CursorLaws S Event E seq}.
Context (eventId correlationId : Event → string)
  (dispatch : ReactorDispatchInput C → W → result () E * W) (reactor : ReactorDefinition Event C E).
Notation name := (cursorName reactor).
Notation state := (Reacting S W C).
Notation order_choice := (list (list (ReactorDispatchInput C)) → list (ReactorDispatchInput C)).

(** The commands of an event, and of a log. *)
Definition inputs_of (e : Event) : list (ReactorDispatchInput C) :=
  match rd_react reactor e with
  | Success commands => command_inputs eventId correlationId reactor e commands
  | Failure _ => []
  end.
Definition all_inputs (l : list Event) : list (ReactorDispatchInput C) := l ≫= inputs_of.

(** A run of one command at a time that is lost after [k] events and [j] commands of
    the next one. *)
Definition lost_reaction (k j : nat) (x : state) : state :=
  match cursor name (rx_storage x), eventsAfter (position name (rx_storage x)) (rx_storage x) with
  | Success c, Success events =>
      match react_loop eventId correlationId seq dispatch reactor c (take k events) x with
      | (Success _, x') =>
          match drop k events with
          | e :: _ => (dispatch_all dispatch (take j (inputs_of e)) x').2
          | [] => x'
          end
      | (Failure _, x') => x'
      end
  | _, _ => x
  end.
(** A run of concurrent groups that is lost after [j] commands, or after all of them
    and [k] commits. *)
Definition lost_groups (order : order_choice) (j k : nat) (x : state) : state :=
  match cursor name (rx_storage x), eventsAfter (position name (rx_storage x)) (rx_storage x) with
  | Success c, Success events =>
      match prepare_all eventId correlationId reactor events with
      | Failure _ => x
      | Success inputs =>
          let l := order (jm_values (commandGroups inputs)) in
          match dispatch_all dispatch (take j l) x with
          | (Failure _, x') => x'
          | (Success _, x') =>
              if decide (length l ≤ j)%nat
              then (commit_all seq reactor c (take k events) x').2 else x'
          end
      end
  | _, _ => x
  end.

(** What happens to a reactor that dispatches one command at a time. *)
Inductive react_step (x x' : state) : Prop :=
| RS_append new :
    log_grows (rx_storage x) (rx_storage x') new →
    position name (rx_storage x') = position name (rx_storage x) →
    rx_world x' = rx_world x → rx_dispatched x' = rx_dispatched x → react_step x x'
| RS_catchUp order :
    x' = (reactor_catchUp eventId correlationId seq dispatch order None reactor x).2 →
    react_step x x'
| RS_lost k j : x' = lost_reaction k j x → react_step x x'.
(** And to one that may dispatch concurrently. *)
Inductive react_any (x x' : state) : Prop :=
| RA_step : react_step x x' → react_any x x'
| RA_catchUp order n :
    (∀ groups, merges groups (order groups)) →
    x' = (reactor_catchUp eventId correlationId seq dispatch order (Some n) reactor x).2 →
    react_any x x'
| RA_lost order j k :
    (∀ groups, merges groups (order groups)) → x' = lost_groups order j k x → react_any x x'.

Lemma dispatch_all_spec inputs (x x' : state) r :
  dispatch_all dispatch inputs x = (r, x') →
  rx_storage x' = rx_storage x ∧
  ∃ sent, sent `prefix_of` inputs ∧ rx_dispatched x' = rx_dispatched x ++ sent
        ∧ (is_success r = true → sent = inputs).
Proof.
  revert x. induction inputs as [|i inputs IH]; intros x; cbn.
  { intros [= <- <-]. split; [done|]. exists []. by rewrite app_nil_r. }
  destruct (dispatch i (rx_world x)) as [[[]|e] w].
  - intros (Hs & sent & Hp & Hd & Hall)%IH. split; [done|]. exists (i :: sent). cbn in Hd.
    split; [by apply prefix_cons|]. split; [by rewrite Hd, <-app_assoc|].
    intros Hr. by rewrite Hall.
  - intros [= <- <-]. split; [done|]. exists []. cbn. rewrite app_nil_r.
    split; [apply prefix_nil|done].
Qed.
Lemma commit_event_spec e (x x' : state) r :
  commit_event seq reactor e x = (r, x') → position name (rx_storage x) < seq e →
  log (rx_storage x') = log (rx_storage x)
  ∧ rx_world x' = rx_world x ∧ rx_dispatched x' = rx_dispatched x
  ∧ (if is_success r then position name (rx_storage x') = seq e
     else position name (rx_storage x') = position name (rx_storage x)).
Proof.
  unfold commit_event. destruct (commitCursor _ _ _) as [r1 s1] eqn:Ec. intros [= <- <-] Hlt.
  destruct (cl_commit _ _ _ _ _ Ec Hlt) as [Hl Hp]. by split_and!.
Qed.

Lemma all_inputs_app l k : all_inputs (l ++ k) = all_inputs l ++ all_inputs k.
Proof. apply bind_app. Qed.
Lemma all_inputs_prefix l k : l `prefix_of` k → all_inputs l `prefix_of` all_inputs k.
Proof. intros [m ->]. rewrite all_inputs_app. by exists (all_inputs m). Qed.

(** The loop of one command at a time, for a property [I q x] of the commands [q] that
    were passed and the state: it must survive dispatches, and not depend on cursors. *)
Section loop.
Context (I : list (ReactorDispatchInput C) → state → Prop).
Definition passed (x : state) : list (ReactorDispatchInput C) :=
  all_inputs (upto seq (position name (rx_storage x)) (log (rx_storage x))).
Definition keeps (x : state) : Prop := located name (rx_storage x) ∧ I (passed x) x.
Context
  (I_dispatch : ∀ q inputs x r x',
    I q x → q ++ inputs `prefix_of` all_inputs (log (rx_storage x)) →
    dispatch_all dispatch inputs x = (r, x') → I (if is_success r then q ++ inputs else q) x')
  (I_storage : ∀ q (x x' : state),
    I q x → log (rx_storage x) `prefix_of` log (rx_storage x') → rx_world x' = rx_world x →
    rx_dispatched x' = rx_dispatched x → I q x')
  (I_prefix : ∀ q k x, I (q ++ k) x → I q x).

Lemma react_loop_keeps events x c k r x' :
  keeps x → c = position name (rx_storage x) → events = take k (after seq c (log (rx_storage x))) →
  react_loop eventId correlationId seq dispatch reactor c events x = (r, x') →
  keeps x' ∧ (is_success r = true →
    log (rx_storage x') = log (rx_storage x) ∧
    after seq (position name (rx_storage x')) (log (rx_storage x'))
      = drop k (after seq c (log (rx_storage x)))).
Proof.
  revert x c k. induction events as [|e events IH]; intros x c k Hx -> Hev.
  { cbn. intros [= <- <-]. split; [done|]. intros _. split; [done|].
    destruct k; [by rewrite drop_0|]. by destruct (after seq _ _). }
  destruct k as [|k]; [done|].
  destruct (after seq _ (log (rx_storage x))) as [|y rest] eqn:Ha; [done|].
  cbn in Hev. injection Hev as <- Hev. destruct Hx as (Hloc & HI).
  destruct (after_cons seq _ _ _ _ (proj1 Hloc) Ha) as (Hlt & Hin & Hup & Hrest).
  cbn [react_loop]. destruct (rd_react reactor e) as [commands|err] eqn:Er;
    [|by intros [= <- <-]].
  destruct (dispatch_all _ _ x) as [r1 x1] eqn:Ed.
  assert (inputs_of e = command_inputs eventId correlationId reactor e commands) as Hie
    by (unfold inputs_of; by rewrite Er).
  assert (passed x ++ inputs_of e
          = all_inputs (upto seq (seq e) (log (rx_storage x)))) as Hpass.
  { unfold passed. rewrite Hup, all_inputs_app. cbn. by rewrite app_nil_r. }
  assert (passed x ++ inputs_of e `prefix_of` all_inputs (log (rx_storage x))) as Hpre
    by (rewrite Hpass; apply all_inputs_prefix, upto_prefix, Hloc).
  pose proof (I_dispatch _ _ _ _ _ HI Hpre ltac:(rewrite Hie; exact Ed)) as HI1.
  destruct (dispatch_all_spec _ _ _ _ Ed) as (Hs1 & _).
  destruct r1 as [[]|err].
  2: { intros [= <- <-]. split; [|done]. split; [by rewrite Hs1|]. unfold passed. by rewrite Hs1. }
  destruct (commit_event _ _ _ _) as [r2 x2] eqn:Ec.
  rewrite <-Hs1 in Hlt. destruct (commit_event_spec _ _ _ _ Ec Hlt) as (Hl2 & Hw2 & Hd2 & Hp2).
  rewrite Hs1 in Hl2, Hp2. cbn in HI1.
  assert (I (passed x ++ inputs_of e) x2) as HI2.
  { eapply I_storage; [exact HI1| |done..]. by rewrite Hl2, Hs1. }
  destruct r2 as [[]|err]; cbn in Hp2.
  - intros Hloop. eapply (IH x2 (seq e) k) in Hloop; [|split|by symmetry|by rewrite Hl2, Hrest].
    + destruct Hloop as [? Hl]. split; [done|]. intros Hs. destruct (Hl Hs) as [-> ->].
      split; [done|]. by rewrite Hl2, Hrest.
    + by eapply located_moved.
    + unfold passed. by rewrite Hp2, Hl2, <-Hpass.
  - intros [= <- <-]. split; [|done]. split; [by eapply located_same|].
    unfold passed. rewrite Hp2, Hl2. fold (passed x).
    eapply (I_storage _ x1); [by eapply I_prefix|by rewrite Hl2, Hs1|done..].
Qed.

Lemma keeps_events (x : state) events :
  eventsAfter (position name (rx_storage x)) (rx_storage x) = Success events →
  filter (λ e, position name (rx_storage x) < seq e) events
    = after seq (position name (rx_storage x)) (log (rx_storage x))
  ∧ events = after seq (position name (rx_storage x)) (log (rx_storage x)).
Proof.
  intros ->%cl_events. split; [|done]. unfold after. rewrite list_filter_filter.
  apply list_filter_iff. intros e. tauto.
Qed.

Lemma lost_reaction_keeps k j x : keeps x → keeps (lost_reaction k j x).
Proof.
  intros Hx. unfold lost_reaction. destruct (cursor _ _) as [c|] eqn:Ec; [|done].
  apply cl_cursor in Ec as ->. destruct (eventsAfter _ _) as [events|] eqn:Ee; [|done].
  apply keeps_events in Ee as [_ Ee].
  destruct (react_loop _ _ _ _ _ _ _ _) as [[c'|err] x1] eqn:Er;
    (eapply (react_loop_keeps _ x _ k) in Er as [Hx1 Hl]; [|done|done|by rewrite Ee]); [|done].
  destruct (Hl eq_refl) as [Hlog Hafter]. rewrite <-Ee in Hafter.
  destruct (drop k events) as [|e rest]; [done|].
  destruct (dispatch_all _ _ x1) as [r x2] eqn:Ed. cbn.
  destruct (dispatch_all_spec _ _ _ _ Ed) as (Hs & _).
  destruct Hx1 as [Hloc HI]. split; [by rewrite Hs|]. unfold passed. rewrite Hs. fold (passed x1).
  destruct (after_cons seq _ _ _ _ (proj1 Hloc) Hafter) as (_ & _ & Hup & _).
  assert (passed x1 ++ take j (inputs_of e) `prefix_of` all_inputs (log (rx_storage x1))) as Hpre.
  { etrans; [apply prefix_app; exists (drop j (inputs_of e)); by rewrite take_drop|].
    assert (passed x1 ++ inputs_of e = all_inputs (upto seq (seq e) (log (rx_storage x1)))) as ->
      by (unfold passed; rewrite Hup, all_inputs_app; cbn; by rewrite app_nil_r).
    apply all_inputs_prefix, upto_prefix, Hloc. }
  pose proof (I_dispatch _ _ _ _ _ HI Hpre Ed) as H2.
  destruct (is_success r); [by eapply I_prefix|done].
Qed.

Lemma react_step_keeps x x' : keeps x → react_step x x' → keeps x'.
Proof.
  intros Hx [new Hg Hpos Hw Hd|order ->|k j ->].
  - destruct Hx as [Hloc HI]. destruct (located_grows _ _ _ _ Hloc Hg Hpos) as [? Hu].
    split; [done|]. unfold passed. rewrite Hu. eapply (I_storage _ x); [done| |done..].
    destruct Hg as [-> _]. by apply prefix_app_r.
  - unfold reactor_catchUp. destruct (cursor _ _) as [c|] eqn:Ec; [|done].
    apply cl_cursor in Ec as ->. destruct (eventsAfter _ _) as [events|] eqn:Ee; [|done].
    apply keeps_events in Ee as [-> _]. cbn.
    destruct (react_loop _ _ _ _ _ _ _ _) as [r x1] eqn:Er. cbn.
    by eapply (react_loop_keeps _ x _ (length (after seq (position name (rx_storage x)) (log (rx_storage x))))) in Er
      as [Hx1 _]; [|done|done|by rewrite take_ge].
  - by apply lost_reaction_keeps.
Qed.
End loop.

(** *** No command is skipped *)

Definition sent_before (q : list (ReactorDispatchInput C)) (x : state) : Prop :=
  ∀ i, i ∈ q → i ∈ rx_dispatched x.
Lemma sent_dispatch q inputs x r x' :
  sent_before q x → dispatch_all dispatch inputs x = (r, x') →
  sent_before (if is_success r then q ++ inputs else q) x'.
Proof.
  intros Hq Hd. destruct (dispatch_all_spec _ _ _ _ Hd) as (_ & sent & _ & Hx & Hall).
  assert (sent_before q x') as Hq' by (intros i Hi; rewrite Hx; apply elem_of_app; left; by apply Hq).
  destruct (is_success r); [|done]. rewrite Hall in Hx by done.
  intros i [Hi|Hi]%elem_of_app; [by apply Hq'|]. rewrite Hx. apply elem_of_app. by right.
Qed.
Lemma sent_storage q (x x' : state) :
  sent_before q x → rx_dispatched x' = rx_dispatched x → sent_before q x'.
Proof. intros Hq Hd i Hi. rewrite Hd. by apply Hq. Qed.
Lemma sent_prefix q k x : sent_before (q ++ k) x → sent_before q x.
Proof. intros Hq i Hi. apply Hq, elem_of_app. by left. Qed.
Lemma sent_step x x' : keeps sent_before x → react_step x x' → keeps sent_before x'.
Proof.
  apply react_step_keeps.
  - intros q inputs y r y' Hq _ Hd. by eapply sent_dispatch.
  - intros q y y' Hq _ _ Hd. by eapply sent_storage.
  - intros q k y. apply sent_prefix.
Qed.

Lemma merges_elem {A} (groups : list (list A)) l :
  merges groups l → ∀ g x, g ∈ groups → x ∈ g → x ∈ l.
Proof.
  induction 1 as [groups Hall|groups i y g l Hi Hm IH]; intros g0 x Hg Hx.
  - rewrite Forall_forall in Hall. rewrite (Hall g0 Hg) in Hx. by apply elem_of_nil in Hx.
  - apply elem_of_cons. apply list_elem_of_lookup in Hg as [j Hj].
    destruct (decide (i = j)) as [->|Hne].
    + rewrite Hj in Hi. injection Hi as ->. apply elem_of_cons in Hx as [->|Hx]; [by left|right].
      apply (IH g); [|done]. apply list_elem_of_lookup. exists j.
      apply list_lookup_insert_eq. by eapply lookup_lt_Some.
    + right. apply (IH g0); [|done]. apply list_elem_of_lookup. exists j.
      by rewrite list_lookup_insert_ne.
Qed.

(** The groups hold the commands of each stream in their order, and nothing else. *)
Lemma merges_filter {A} (P : A → Prop) `{∀ x, Decision (P x)} groups l j :
  merges groups l → (∀ i g, groups !! i = Some g → i ≠ j → Forall (λ x, ¬ P x) g) →
  filter P l = filter P (default [] (groups !! j)).
Proof.
  induction 1 as [groups Hall|groups i y g l Hi Hm IH]; intros Hother.
  - destruct (groups !! j) as [g|] eqn:Ej; [|done]. rewrite Forall_forall in Hall.
    by rewrite (Hall g) by (by eapply list_elem_of_lookup_2).
  - assert ((i < length groups)%nat) as Hlt by (by eapply lookup_lt_Some).
    assert (∀ i0 g0, <[i := g]> groups !! i0 = Some g0 → i0 ≠ j → Forall (λ x, ¬ P x) g0) as Ho.
    { intros i0 g0 Hg Hne. destruct (decide (i = i0)) as [->|Hi0].
      - rewrite list_lookup_insert_eq in Hg by done. injection Hg as <-.
        pose proof (Hother _ _ Hi Hne) as Hall. by apply Forall_cons in Hall as [_ ?].
      - rewrite list_lookup_insert_ne in Hg by done. by eapply Hother. }
    specialize (IH Ho). rewrite filter_cons. destruct (decide (i = j)) as [->|Hne].
    + rewrite Hi. change (default [] (Some (y :: g))) with (y :: g).
      rewrite filter_cons, IH, list_lookup_insert_eq by done. done.
    + pose proof (Hother _ _ Hi Hne) as Hall. apply Forall_cons in Hall as [Hy _].
      rewrite decide_False by done. by rewrite IH, list_lookup_insert_ne.
Qed.
Lemma merges_Permutation {A} (groups : list (list A)) l : merges groups l → l ≡ₚ concat groups.
Proof.
  induction 1 as [groups Hall|groups i y g l Hi Hm IH].
  - induction Hall as [|g groups -> _ IH]; [done|exact IH].
  - rewrite IH. clear IH Hm. revert i Hi. induction groups as [|h groups IH]; intros [|i] Hi; try done.
    + by injection Hi as ->.
    + cbn. rewrite <-(IH i Hi). apply Permutation_middle.
Qed.

Definition of_stream (s : string) (l : list (ReactorDispatchInput C)) :=
  filter (λ i, ri_streamId i = s) l.
Lemma commandGroups_get (l : list (ReactorDispatchInput C)) s :
  jm_get s (commandGroups l) = match of_stream s l with [] => None | g => Some g end.
Proof.
  induction l as [|i l IH] using rev_ind; [done|].
  unfold commandGroups, of_stream in *. rewrite foldl_app, filter_app. cbn [foldl].
  unfold add_to_group at 1. rewrite jm_get_set, filter_cons, filter_nil.
  destruct (decide (ri_streamId i = s)) as [<-|Hne]; [|by rewrite app_nil_r].
  rewrite IH. by destruct (filter _ l).
Qed.
Lemma commandGroups_wf (l : list (ReactorDispatchInput C)) : jm_wf (commandGroups l).
Proof.
  induction l as [|i l IH] using rev_ind; [apply jm_wf_nil|].
  unfold commandGroups in *. rewrite foldl_app. by apply jm_wf_set.
Qed.
Lemma add_to_group_concat groups (i : ReactorDispatchInput C) :
  concat (jm_values (add_to_group groups i)) ≡ₚ concat (jm_values groups) ++ [i].
Proof.
  unfold add_to_group, jm_values.
  assert (∀ g : list (ReactorDispatchInput C), jm_get (ri_streamId i) groups = Some g ∨
    (jm_get (ri_streamId i) groups = None ∧ g = []) →
    concat (jm_set (ri_streamId i) (g ++ [i]) groups).*2 ≡ₚ concat groups.*2 ++ [i]) as Hall.
  { induction groups as [|[k h] groups IH]; intros g Hg; cbn.
    - by destruct Hg as [Hg|[_ ->]].
    - cbn in Hg. case_decide; cbn.
      + destruct Hg as [[= ->]|[? _]]; [|done]. by rewrite <-!app_assoc, (Permutation_app_comm [i]).
      + by rewrite IH, app_assoc. }
  apply Hall. destruct (jm_get _ groups); [by left|by right].
Qed.
Lemma commandGroups_concat (l : list (ReactorDispatchInput C)) : concat (jm_values (commandGroups l)) ≡ₚ l.
Proof.
  induction l as [|i l IH] using rev_ind; [done|].
  unfold commandGroups in *. rewrite foldl_app. cbn [foldl]. by rewrite add_to_group_concat, IH.
Qed.

(** In whatever order the runtime interleaves the concurrent groups, every
    prepared command is dispatched once, and the commands of each stream in the order
    of their events. *)
Theorem groups_keep_stream_order (inputs l : list (ReactorDispatchInput C)) :
  merges (jm_values (commandGroups inputs)) l →
  l ≡ₚ inputs ∧ ∀ s, of_stream s l = of_stream s inputs.
Proof.
  clear dispatch. intros Hm. split; [by rewrite (merges_Permutation _ _ Hm), commandGroups_concat|].
  intros s. pose proof (commandGroups_get inputs s) as Hs. pose proof (commandGroups_wf inputs) as Hwf.
  assert (∀ i k g, commandGroups inputs !! i = Some (k, g) → g = of_stream k inputs) as Hgroup.
  { intros i k g Hi. pose proof (commandGroups_get inputs k) as Hk.
    rewrite (jm_elem_get k g) in Hk; [|done|by eapply list_elem_of_lookup_2].
    destruct (of_stream k inputs); [done|by injection Hk]. }
  assert (∀ i k g, commandGroups inputs !! i = Some (k, g) → k ≠ s →
    Forall (λ x, ¬ ri_streamId x = s) g) as Hother.
  { intros i k g Hi Hne. rewrite (Hgroup i k g Hi). apply Forall_forall.
    intros x [Hx _]%list_elem_of_filter. congruence. }
  destruct (decide (s ∈ jm_keys (commandGroups inputs))) as [Hin|Hout].
  - apply list_elem_of_lookup in Hin as [j Hj]. unfold jm_keys in Hj.
    rewrite list_lookup_fmap in Hj. destruct (commandGroups inputs !! j) as [[k g]|] eqn:Ej; [|done].
    injection Hj as ->. unfold of_stream at 1.
    rewrite (merges_filter (λ x, ri_streamId x = s) _ _ j Hm).
    + unfold jm_values. rewrite list_lookup_fmap, Ej. cbn. rewrite (Hgroup j s g Ej).
      unfold of_stream. rewrite list_filter_filter. apply list_filter_iff. tauto.
    + intros i g' Hi Hne. unfold jm_values in Hi. rewrite list_lookup_fmap in Hi.
      destruct (commandGroups inputs !! i) as [[k' g0]|] eqn:Ei; [|done]. injection Hi as ->.
      apply (Hother i k' g' Ei). intros ->. apply Hne.
      apply (NoDup_lookup (jm_keys (commandGroups inputs)) i j s Hwf);
        unfold jm_keys; by rewrite list_lookup_fmap, ?Ei, ?Ej.
  - apply jm_get_None in Hout. rewrite Hout in Hs.
    assert (of_stream s inputs = []) as -> by (by destruct (of_stream s inputs)).
    unfold of_stream. rewrite (merges_filter (λ x, ri_streamId x = s) _ _
      (length (jm_values (commandGroups inputs))) Hm).
    + by rewrite lookup_ge_None_2.
    + intros i g' Hi _. unfold jm_values in Hi. rewrite list_lookup_fmap in Hi.
      destruct (commandGroups inputs !! i) as [[k' g0]|] eqn:Ei; [|done]. injection Hi as ->.
      apply (Hother i k' g' Ei). intros ->. apply jm_get_None in Hout. apply Hout.
      apply list_elem_of_lookup. exists i. unfold jm_keys. by rewrite list_lookup_fmap, Ei.
Qed.

Lemma prepare_all_inputs events inputs :
  prepare_all eventId correlationId reactor events = Success inputs → inputs = all_inputs events.
Proof.
  revert inputs. induction events as [|e events IH]; intros inputs; [by intros [= <-]|]. cbn.
  unfold inputs_of. destruct (rd_react reactor e) as [commands|]; [cbn|done].
  destruct (prepare_all _ _ _ events); [cbn|done]. intros [= <-]. f_equal. by apply IH.
Qed.

Lemma commit_all_sent events x c k r x' :
  keeps sent_before x → c = position name (rx_storage x) →
  events = take k (after seq c (log (rx_storage x))) →
  sent_before (all_inputs (after seq c (log (rx_storage x)))) x →
  commit_all seq reactor c events x = (r, x') → keeps sent_before x'.
Proof.
  revert x c k. induction events as [|e events IH]; intros x c k Hx -> Hev Hsent; [by intros [= <- <-]|].
  destruct k as [|k]; [done|].
  destruct (after seq _ (log (rx_storage x))) as [|y rest] eqn:Ha; [done|].
  cbn in Hev. injection Hev as <- Hev. destruct Hx as (Hloc & HI).
  destruct (after_cons seq _ _ _ _ (proj1 Hloc) Ha) as (Hlt & Hin & Hup & Hrest).
  cbn [commit_all]. destruct (commit_event _ _ _ _) as [r2 x2] eqn:Ec.
  destruct (commit_event_spec _ _ _ _ Ec Hlt) as (Hl2 & Hw2 & Hd2 & Hp2).
  assert (sent_before (all_inputs rest) x2) as Hs2.
  { intros i Hi. rewrite Hd2. apply Hsent. cbn. apply elem_of_app. by right. }
  destruct r2 as [[]|err]; cbn in Hp2.
  - apply (IH x2 (seq e) k); [split|done|by rewrite Hl2, Hrest|by rewrite Hl2, Hrest].
    + by eapply located_moved.
    + unfold passed. rewrite Hp2, Hl2, Hup, all_inputs_app. intros i [Hi|Hi]%elem_of_app; rewrite Hd2;
        [by apply HI|]. apply Hsent. cbn in *. rewrite app_nil_r in Hi. apply elem_of_app. by left.
  - intros [= <- <-]. split; [by eapply located_same|].
    unfold passed. rewrite Hp2, Hl2. eapply sent_storage; [exact HI|done].
Qed.

Lemma order_sent order inputs j x r x' :
  (∀ groups, merges groups (order groups)) → (length (order (jm_values (commandGroups inputs))) ≤ j)%nat →
  dispatch_all dispatch (take j (order (jm_values (commandGroups inputs)))) x = (r, x') →
  is_success r = true → sent_before inputs x'.
Proof.
  intros Ho Hj Hd Hr. rewrite take_ge in Hd by done.
  destruct (dispatch_all_spec _ _ _ _ Hd) as (_ & sent & _ & Hx & Hall). rewrite (Hall Hr) in Hx.
  intros i Hi. rewrite Hx. apply elem_of_app. right.
  destruct (groups_keep_stream_order inputs _ (Ho _)) as [-> _]. done.
Qed.

Lemma groups_run_sent order j k x events c inputs r x' :
  (∀ groups, merges groups (order groups)) → keeps sent_before x →
  c = position name (rx_storage x) → events = after seq c (log (rx_storage x)) →
  prepare_all eventId correlationId reactor events = Success inputs →
  dispatch_all dispatch (take j (order (jm_values (commandGroups inputs)))) x = (r, x') →
  keeps sent_before x' ∧
  (is_success r = true → (length (order (jm_values (commandGroups inputs))) ≤ j)%nat →
   keeps sent_before (commit_all seq reactor c (take k events) x').2).
Proof.
  intros Ho Hx -> -> ->%prepare_all_inputs Hd.
  destruct (dispatch_all_spec _ _ _ _ Hd) as (Hs & sent & _ & Hsx & _).
  assert (keeps sent_before x') as Hx'.
  { destruct Hx as [Hloc HI]. split; [by rewrite Hs|]. unfold passed. rewrite Hs. fold (passed x).
    intros i Hi. rewrite Hsx. apply elem_of_app. left. by apply HI. }
  split; [done|]. intros Hr Hj. destruct (commit_all _ _ _ _ _) as [r2 x2] eqn:Ec. cbn.
  eapply (commit_all_sent _ x' _ k); [done|by rewrite Hs|by rewrite Hs| |exact Ec].
  rewrite Hs. by eapply order_sent.
Qed.

Lemma react_any_sent x x' : keeps sent_before x → react_any x x' → keeps sent_before x'.
Proof.
  intros Hx [Hstep|order n Ho ->|order j k Ho ->]; [by eapply sent_step| |].
  - destruct (decide (Z.max 1 n = 1)) as [Hone|Hmany].
    { apply (sent_step x); [done|]. apply (RS_catchUp _ _ order). unfold reactor_catchUp.
      change (default 1 (Some n)) with n. by rewrite Hone. }
    unfold reactor_catchUp. destruct (cursor _ _) as [c|] eqn:Ec; [|done].
    apply cl_cursor in Ec as ->. destruct (eventsAfter _ _) as [events|] eqn:Ee; [|done].
    apply keeps_events in Ee as [-> _]. change (default 1 (Some n)) with n.
    rewrite (proj2 (Z.eqb_neq _ _)) by done. unfold react_groups.
    destruct (prepare_all _ _ _ _) as [inputs|] eqn:Ep; [|done].
    destruct (dispatch_all _ _ x) as [r x1] eqn:Ed.
    rewrite <-(take_ge (order _) (length (order (jm_values (commandGroups inputs))))) in Ed by done.
    eapply groups_run_sent in Ed as [Hx1 Hc]; [|done..].
    destruct r as [[]|]; [|done]. specialize (Hc eq_refl (le_n _)).
    rewrite take_ge in Hc by reflexivity. exact Hc.
  - unfold lost_groups. destruct (cursor _ _) as [c|] eqn:Ec; [|done].
    apply cl_cursor in Ec as ->. destruct (eventsAfter _ _) as [events|] eqn:Ee; [|done].
    apply keeps_events in Ee as [_ Ee].
    destruct (prepare_all _ _ _ _) as [inputs|] eqn:Ep; [|done].
    destruct (dispatch_all _ _ x) as [r x1] eqn:Ed.
    eapply (groups_run_sent order j k) in Ed as [Hx1 Hc]; [|done..].
    destruct r as [[]|]; [|done]. case_decide; [by apply Hc|done].
Qed.

(** A reactor never skips a command: for every event up to its cursor, each of
    the commands it reacts with has been dispatched with success, however often runs
    failed or were lost, one command at a time or in concurrent groups. *)
Theorem no_command_skipped x0 x e :
  at_start name (rx_storage x0) → rtc react_any x0 x →
  e ∈ log (rx_storage x) → seq e ≤ position name (rx_storage x) →
  ∀ i, i ∈ inputs_of e → i ∈ rx_dispatched x.
Proof.
  intros Hstart Hsteps He Hpos i Hi. assert (keeps sent_before x0) as H0.
  { destruct (located_start _ _ Hstart) as [? Hu]. split; [done|]. unfold passed. rewrite Hu.
    by intros j Hj%elem_of_nil. }
  clear Hstart. assert (keeps sent_before x) as [_ Hx].
  { induction Hsteps as [|y z t Hyz _ IH]; [done|]. apply IH; [done..|]. by eapply react_any_sent. }
  apply Hx. unfold passed, all_inputs. apply list_elem_of_bind. exists e. split; [done|].
  by apply elem_of_upto.
Qed.

(** *** Command ids *)

Lemma imap_lookup_elem (e : Event) cs i :
  i ∈ command_inputs eventId correlationId reactor e cs →
  ∃ k c, cs !! k = Some c ∧ i = command_input eventId correlationId reactor e k c.
Proof.
  intros (k & c & -> & Hk)%elem_of_lookup_imap_1. by exists k, c.
Qed.
Lemma command_id_inj e1 e2 k1 k2 c1 c2 :
  ri_commandId (command_input eventId correlationId reactor e1 k1 c1)
    = ri_commandId (command_input eventId correlationId reactor e2 k2 c2) →
  eventId e1 = eventId e2 ∧ k1 = k2.
Proof.
  cbn [command_input ri_commandId]. intros Hid.
  apply (inj (String.append name)) in Hid. rewrite !string_app_cons, !string_app_nil_l in Hid.
  injection Hid as Hid. apply last_colon_inj in Hid as [-> Hk]; [|apply String_of_Z_no_colon..].
  split; [done|]. apply String_of_Z_inj in Hk. lia.
Qed.
(** Distinct events give distinct commands distinct ids. *)
Lemma command_ids_NoDup l : NoDup (eventId <$> l) → NoDup (ri_commandId <$> all_inputs l).
Proof.
  induction l as [|e l IH]; [by constructor|]. rewrite fmap_cons. intros [Hn Hl]%NoDup_cons.
  change (all_inputs (e :: l)) with (inputs_of e ++ all_inputs l). rewrite fmap_app.
  apply NoDup_app. split; [|split; [|by apply IH]].
  - unfold inputs_of. destruct (rd_react reactor e) as [cs|]; [|by constructor].
    unfold command_inputs. apply NoDup_alt. intros i j id Hi Hj.
    rewrite list_lookup_fmap, list_lookup_imap in Hi, Hj.
    destruct (cs !! i) as [c|] eqn:Ec, (cs !! j) as [d|] eqn:Ed; try done.
    injection Hi as Hi. injection Hj as Hj. rewrite <-Hj in Hi. by apply command_id_inj in Hi as [_ ->].
  - intros id (i & -> & Hi)%list_elem_of_fmap (j & Hij & Hj)%list_elem_of_fmap. apply Hn.
    apply list_elem_of_bind in Hj as (e2 & Hj & He2). unfold inputs_of in Hi, Hj.
    destruct (rd_react reactor e); [|by apply elem_of_nil in Hi].
    destruct (rd_react reactor e2); [|by apply elem_of_nil in Hj].
    apply imap_lookup_elem in Hi as (k & c & _ & ->). apply imap_lookup_elem in Hj as (k2 & c2 & _ & ->).
    apply command_id_inj in Hij as [Heq _]. apply list_elem_of_fmap. by exists e2.
Qed.
End reactors.

(** *** Idempotent dispatch *)

(** What a dispatch must promise for replays to be harmless: it settles a command id
    for good, answers a settled one without effect, and has none when it fails. *)
Class IdempotentDispatch {C W E : Type} (dispatch : ReactorDispatchInput C → W → result () E * W) := {
  settled : string → W → Prop;
  id_again i w : settled (ri_commandId i) w → dispatch i w = (Success tt, w);
  id_settles i w w' : dispatch i w = (Success tt, w') → settled (ri_commandId i) w';
  id_keeps i w r w' c : dispatch i w = (r, w') → settled c w → settled c w';
  id_failure i w e w' : dispatch i w = (Failure e, w') → w' = w }.

Section idempotent.
Context {S W Event C E : Type} {seq : Event → Z} `{CL : CursorLaws S Event E seq}.
Context (eventId correlationId : Event → string)
  (dispatch : ReactorDispatchInput C → W → result () E * W) `{!IdempotentDispatch dispatch}
  (reactor : ReactorDefinition Event C E).
Notation name := (cursorName reactor).
Notation state := (Reacting S W C).
Notation all_inputs := (all_inputs eventId correlationId reactor).

(** The reference: the commands dispatched once each, in order, with success. *)
Fixpoint execute (w : W) (l : list (ReactorDispatchInput C)) : option W :=
  match l with
  | [] => Some w
  | i :: rest =>
      match dispatch i w with (Success _, w) => execute w rest | (Failure _, _) => None end
  end.
Lemma execute_app w l k : execute w (l ++ k) = execute w l ≫= λ w, execute w k.
Proof.
  revert w. induction l as [|i l IH]; intros w; [done|]. cbn.
  destruct (dispatch i w) as [[]]; [apply IH|done].
Qed.
Lemma execute_settled w l w' i : execute w l = Some w' → i ∈ l → settled (ri_commandId i) w'.
Proof.
  induction l as [|j l IH] using rev_ind in w' |- *; [by intros _ ?%elem_of_nil|].
  rewrite execute_app. destruct (execute w l) as [w1|] eqn:E1; [cbn|done].
  destruct (dispatch j w1) as [[[]|] w2] eqn:Ed; [|done]. intros [= <-].
  intros [Hi|Hi]%elem_of_app.
  - eapply id_keeps; [exact Ed|by apply IH].
  - apply list_elem_of_singleton in Hi as ->. by eapply id_settles.
Qed.

(** The state is that of a prefix of the log's commands, which holds those passed. *)
Definition executed (w0 : W) (q : list (ReactorDispatchInput C)) (x : state) : Prop :=
  ∃ p, q `prefix_of` p ∧ p `prefix_of` all_inputs (log (rx_storage x))
     ∧ execute w0 p = Some (rx_world x).

Lemma executed_dispatch w0 q inputs x r x' :
  executed w0 q x → q ++ inputs `prefix_of` all_inputs (log (rx_storage x)) →
  dispatch_all dispatch inputs x = (r, x') →
  executed w0 (if is_success r then q ++ inputs else q) x'.
Proof.
  revert q x. induction inputs as [|i inputs IH]; intros q x Hx Hpre; cbn.
  { intros [= <- <-]. cbn. by rewrite app_nil_r. }
  assert (q ++ [i] `prefix_of` all_inputs (log (rx_storage x))) as Hqi.
  { etrans; [|exact Hpre]. apply prefix_app. by exists inputs. }
  destruct (dispatch i (rx_world x)) as [r1 w1] eqn:Ed.
  set (x1 := {| rx_storage := rx_storage x; rx_world := w1; rx_dispatched := _ ++ [i] |}).
  assert (if is_success r1 then executed w0 (q ++ [i]) x1 else w1 = rx_world x) as H1.
  { destruct r1 as [[]|e]; [|by eapply id_failure]. cbn.
    destruct Hx as (p & Hqp & Hp & Hex).
    destruct (prefix_weak_total _ _ _ Hqi Hp) as [Hin|Hout].
    - exists p. split; [done|]. split; [done|]. rewrite Hex. f_equal. cbn.
      assert (settled (ri_commandId i) (rx_world x)) as Hset.
      { eapply execute_settled; [exact Hex|]. destruct Hin as [k ->]. apply elem_of_app. left.
        apply elem_of_app. right. by apply list_elem_of_singleton. }
      rewrite (id_again _ _ Hset) in Ed. congruence.
    - destruct Hqp as [k ->]. assert (k = [] ∨ k = [i]) as [->| ->].
      { apply prefix_app_inv in Hout. destruct Hout as [m Hm].
        destruct k as [|y k]; [by left|right]. injection Hm as <- Hm.
        by destruct k. }
      + rewrite app_nil_r in *. exists (q ++ [i]). split; [done|]. split; [done|].
        rewrite execute_app, Hex. cbn. by rewrite Ed.
      + exists (q ++ [i]). split; [done|]. split; [done|]. rewrite Hex. f_equal. cbn.
        assert (settled (ri_commandId i) (rx_world x)) as Hset.
        { eapply execute_settled; [exact Hex|]. apply elem_of_app. right.
          by apply list_elem_of_singleton. }
        rewrite (id_again _ _ Hset) in Ed. congruence. }
  destruct r1 as [[]|e]; cbn in H1.
  - intros Hd. eapply (IH (q ++ [i])) in Hd; [|exact H1|by rewrite <-app_assoc].
    rewrite <-app_assoc in Hd. destruct (is_success r); [done|].
    destruct Hd as (p & Hp & Hrest). exists p. split; [|done]. etrans; [by exists [i]|exact Hp].
  - intros [= <- <-]. subst w1. destruct Hx as (p & Hp). by exists p.
Qed.

(** C22: when dispatching is idempotent, failed and lost runs leave no trace: the
    reactor's effects are at all times those of dispatching, once each and in order,
    the commands of a prefix of the log that holds every event up to the cursor, and
    distinct events never share a command id. *)
Theorem reactor_exactly_once x0 x :
  at_start name (rx_storage x0) →
  rtc (react_step eventId correlationId dispatch reactor) x0 x →
  ∃ p, all_inputs (upto seq (position name (rx_storage x)) (log (rx_storage x))) `prefix_of` p
     ∧ p `prefix_of` all_inputs (log (rx_storage x))
     ∧ execute (rx_world x0) p = Some (rx_world x)
     ∧ (NoDup (eventId <$> log (rx_storage x)) → NoDup (ri_commandId <$> p)).
Proof.
  intros Hstart Hsteps.
  assert (keeps eventId correlationId reactor (executed (rx_world x0)) x0) as H0.
  { destruct (located_start _ _ Hstart) as [? Hu]. split; [done|]. unfold passed. rewrite Hu.
    exists []. split; [done|]. split; [apply prefix_nil|done]. }
  clear Hstart. revert H0. generalize (rx_world x0). intros w0 H0.
  assert (keeps eventId correlationId reactor (executed w0) x) as [_ (p & Hp & Hall & Hex)].
  { induction Hsteps as [|y z t Hyz _ IH]; [done|]. apply IH.
    eapply react_step_keeps; [| | |exact H0|exact Hyz].
    - intros q inputs v r v'. apply executed_dispatch.
    - intros q v v' (p & Hqp & Hpl & Hex) Hlog Hw _. exists p. split; [done|]. rewrite Hw.
      split; [|done]. etrans; [exact Hpl|by apply all_inputs_prefix].
    - intros q k v (p & Hqp & Hrest). exists p. split; [|done]. etrans; [by exists k|exact Hqp]. }
  exists p. split_and!; [done..|]. intros Hnd.
  apply (command_ids_NoDup eventId correlationId reactor) in Hnd. destruct Hall as [k Hk].
  rewrite Hk, fmap_app in Hnd. by apply NoDup_app in Hnd as [? _].
Qed.
End idempotent.

(** ** Concrete runs *)

Module consumer_demo.
(** The payloads are the events; only "bad" does not decode. *)
Definition decode (json : string) : option string :=
  if decide (json = "bad") then None else Some json.
Definition failed (e : EventDecodeError) : string := de_recordId e.
Definition row (kind : string) (n : Z) (payload : string) : PersistedEventRow :=
  {| er_stream_kind := kind; er_sequence := n; er_event_id := "e" +:+ String_of_Z n;
     er_correlation_id := None; er_causation_event_id := None; er_stream_id := "s1";
     er_stream_version := n; er_payload_json := payload |}.
Definition tables {W} (rows : list PersistedEventRow) (w : W) : SqlStorage W :=
  {| sq_events := rows; sq_cursors := ∅; sq_world := w |}.
Definition rows : list PersistedEventRow :=
  [row "session" 1 "a"; row "chat" 2 "x"; row "session" 3 "b"].

(** A projector that lists the events it saw. *)
Definition collect (e : StoredEvent string) (w : list string) : result () string * list string :=
  (Success tt, w ++ [se_event e]).
#[export] Instance cursors W : CursorStorage (SqlStorage W) (StoredEvent string) string :=
  SqlCursorStorage "session" decode failed.
#[export] Instance cursors_laws W : CursorLaws (SqlStorage W) (StoredEvent string) string se_sequence :=
  sql_cursor_laws "session" decode failed.
#[export] Instance projections :
    ProjectorStorage (SqlStorage (list string)) (list string) (StoredEvent string) string :=
  SqlConsumerStorage "session" decode failed.
#[export] Instance projections_laws :
    ProjectorLaws (SqlStorage (list string)) (list string) (StoredEvent string) string se_sequence :=
  sql_projector_laws "session" decode failed.
Notation projector :=
  {| pd_name := "list"; pd_sequenceOf := se_sequence; pd_apply := collect |}.
Definition empty : SqlStorage (list string) := tables [] [].
Definition filled : SqlStorage (list string) := tables rows [].
Definition lost : SqlStorage (list string) := lost_run (seq := se_sequence) "list" collect 1 filled.
Definition caught_up : SqlStorage (list string) := (projector_catchUp projector lost).2.

Lemma in_order_demo : in_order se_sequence (sql_log "session" decode failed filled).
Proof. by repeat constructor. Qed.
Lemma empty_start name : at_start (seq := se_sequence) name empty.
Proof.
  split; [constructor|]. split; [by intros e He%elem_of_nil|reflexivity].
Qed.
Lemma filled_reached : rtc (project_step (seq := se_sequence) "list" collect) empty filled.
Proof.
  apply rtc_once. apply (PS_append _ _ _ _ (log filled)); [|reflexivity..].
  split; [reflexivity|]. split; [exact in_order_demo|]. by repeat constructor.
Qed.
Lemma lost_reached : rtc (project_step (seq := se_sequence) "list" collect) empty lost.
Proof. eapply rtc_r; [exact filled_reached|]. by apply (PS_lost _ _ _ _ 1). Qed.

(** A reactor that answers every event with a command, and a dispatch that performs
    each command id once. *)
Definition echo : ReactorDefinition (StoredEvent string) string string :=
  {| rd_name := "echo";
     rd_react e := Success [{| rc_streamId := se_streamId e; rc_command := se_event e |};
                            {| rc_streamId := "other"; rc_command := se_event e |}] |}.
Definition once (i : ReactorDispatchInput string) (w : list (string * string))
  : result () string * list (string * string) :=
  (Success tt, match jm_get (ri_commandId i) w with
               | Some _ => w
               | None => w ++ [(ri_commandId i, ri_command i)] end).
Lemma jm_get_snoc {V} (k k' : string) (v : V) m :
  jm_get k (m ++ [(k', v)]) = match jm_get k m with
                              | Some v => Some v
                              | None => if decide (k' = k) then Some v else None end.
Proof. induction m as [|[k0 v0] m IH]; [done|]. cbn. destruct (decide (k0 = k)); [done|exact IH]. Qed.
#[export] Program Instance once_idempotent : IdempotentDispatch once :=
  {| settled c w := is_Some (jm_get c w) |}.
Next Obligation. intros i w [v Hv]. unfold once. by rewrite Hv. Qed.
Next Obligation.
  intros i w w'. unfold once. destruct (jm_get (ri_commandId i) w) eqn:Hw; intros [= <-]; [by exists s|].
  rewrite jm_get_snoc, Hw, decide_True by done. by eexists.
Qed.
Next Obligation.
  intros i w r w' c [= <- <-] [v Hv]. destruct (jm_get (ri_commandId i) w); [by exists v|].
  rewrite jm_get_snoc, Hv. by eexists.
Qed.
Next Obligation. done. Qed.
Definition idle : Reacting (SqlStorage (list string)) (list (string * string)) string :=
  {| rx_storage := filled; rx_world := []; rx_dispatched := [] |}.
Definition concatenated {A} (groups : list (list A)) : list A := concat groups.
Lemma concat_merges {A} (groups : list (list A)) : merges groups (concat groups).
Proof.
  assert (∀ n, merges (replicate n [] ++ groups) (concat groups)) as Hn; [|exact (Hn 0%nat)].
  induction groups as [|g groups IH]; intros n.
  - apply merges_done. rewrite app_nil_r. apply Forall_replicate. done.
  - cbn. induction g as [|x g IHg].
    + specialize (IH (n + 1)%nat). by rewrite replicate_add, <-app_assoc in IH.
    + cbn. apply (merges_next _ n x g).
      * rewrite lookup_app_r by (by rewrite length_replicate). by rewrite length_replicate, Nat.sub_diag.
      * rewrite insert_app_r_alt by (by rewrite length_replicate).
        by rewrite length_replicate, Nat.sub_diag.
Qed.
Definition interrupted := lost_reaction se_eventId se_correlationId once echo 0 1 idle.
Definition reacted := (reactor_catchUp se_eventId se_correlationId se_sequence once (λ g, concat g)
                         None echo interrupted).2.
Lemma filled_start name : at_start (seq := se_sequence) name filled.
Proof.
  split; [exact in_order_demo|]. split; [|reflexivity].
  intros e He. apply elem_of_cons in He as [->|He]; [done|].
  apply elem_of_cons in He as [->|He]; [done|by apply elem_of_nil in He].
Qed.
Lemma reacted_steps :
  rtc (react_step (seq := se_sequence) se_eventId se_correlationId once echo) idle reacted.
Proof.
  eapply rtc_l; [by apply (RS_lost _ _ _ _ _ _ 0 1)|]. apply rtc_once.
  by apply (RS_catchUp _ _ _ _ _ _ (λ g, concat g)).
Qed.
(** A dispatch while the projector is behind moves the cursor past the earlier event: the
    row the dispatch applied is there, the earlier one never will be. *)
Example dispatch_behind_skips :
  let s := tables [row "session" 1 "a"; row "session" 2 "b"] [] in
  let '(r, s') := project_appended projector [ {| se_eventId := "e2"; se_correlationId := "e2";
    se_causationEventId := None; se_streamId := "s1"; se_streamVersion := 2; se_sequence := 2;
    se_event := "b" |} ] s in
  r = Success 2 ∧ sq_world (projector_catchUp projector s').2 = ["b"].
Proof. vm_compute. split; reflexivity. Qed.
End consumer_demo.
Import consumer_demo.

Lemma projector_catches_up_witness :
  sq_world caught_up = ["a"; "b"] ∧
  replay collect (world empty) (log caught_up) = Some (world caught_up).
Proof.
  split; [vm_compute; reflexivity|].
  apply (projector_catches_up (PL := projections_laws) "list" collect empty lost 3 caught_up (empty_start "list") lost_reached).
  vm_compute. reflexivity.
Defined.
Lemma no_command_skipped_witness :
  ∃ e i, e ∈ log (rx_storage reacted) ∧ se_event e = "b" ∧ ri_streamId i = "other"
    ∧ i ∈ rx_dispatched reacted.
Proof.
  exists {| se_eventId := "e3"; se_correlationId := "e3"; se_causationEventId := None;
            se_streamId := "s1"; se_streamVersion := 3; se_sequence := 3; se_event := "b" |}.
  exists {| ri_streamId := "other"; ri_command := "b"; ri_commandId := "reactor:echo:e3:1";
            ri_correlationId := "e3"; ri_causationEventId := "e3" |}.
  assert (∃ y, log (rx_storage reacted) = [y;
    {| se_eventId := "e3"; se_correlationId := "e3"; se_causationEventId := None;
       se_streamId := "s1"; se_streamVersion := 3; se_sequence := 3; se_event := "b" |}]) as [y Hl]
    by (eexists; vm_compute; reflexivity).
  split; [rewrite Hl; right; left|]. split; [reflexivity|]. split; [reflexivity|].
  eapply (no_command_skipped (seq := se_sequence) se_eventId se_correlationId once echo idle reacted);
    [exact (filled_start _)| |rewrite Hl; right; left|vm_compute; discriminate|right; left].
  eapply rtc_subrel; [|exact reacted_steps]. intros a b Hab. by apply RA_step.
Defined.
Lemma groups_keep_stream_order_witness :
  let inputs := all_inputs se_eventId se_correlationId echo (log filled) in
  of_stream "other" (concat (jm_values (commandGroups inputs))) = of_stream "other" inputs.
Proof.
  apply groups_keep_stream_order. apply concat_merges.
Defined.
Lemma reactor_exactly_once_witness :
  snd <$> rx_world reacted = ["a"; "a"; "b"; "b"] ∧
  ∃ p, p `prefix_of` all_inputs se_eventId se_correlationId echo (log filled)
     ∧ execute once [] p = Some (rx_world reacted).
Proof.
  split; [vm_compute; reflexivity|].
  destruct (reactor_exactly_once (seq := se_sequence) se_eventId se_correlationId once echo idle reacted
    (filled_start _) reacted_steps) as (p & _ & Hp & Hex & _).
  exists p. split; [|exact Hex].
  assert (log (rx_storage reacted) = log filled) as Hl by (vm_compute; reflexivity).
  by rewrite Hl in Hp.
Defined.
