(* ===== verification/ChatProjector.v ===== *)
(** * The chats read model

    [packages/domain/src/projectors/sql-chat-projector.ts] with
    chat-last-message-projection.ts: the tables the projector reads and writes and
    its statement for each event, run by the projector runner of [Consumers]. *)
From Stdlib Require Import Ascii.
From S2P Require Import Prelude Js JsMap Contracts Dispatch Chat Consumers.

Local Open Scope Z_scope.

(** ** [Date.prototype.toISOString] *)

(** The proleptic Gregorian date of a day counted from 1970-01-01. *)
Definition civil_of_day (day : Z) : Z * Z * Z :=
  let z := day + 719468 in
  let era := z / 146097 in
  let doe := z mod 146097 in
  let yoe := (doe - doe / 1460 + doe / 36524 - doe / 146096) / 365 in
  let doy := doe - (365 * yoe + yoe / 4 - yoe / 100) in
  let mp := (5 * doy + 2) / 153 in
  let month := if mp <? 10 then mp + 3 else mp - 9 in
  (yoe + era * 400 + (if month <=? 2 then 1 else 0), month, doy - (153 * mp + 2) / 5 + 1).

(** The last [width] decimal digits of a non-negative number. *)
Fixpoint digits (width : nat) (n : Z) (rest : string) : string :=
  match width with
  | O => rest
  | S width => digits width (n / 10) (String (ascii_of_nat (48 + Z.to_nat (n mod 10))) rest)
  end.
Definition year_digits (year : Z) : string :=
  if (0 <=? year) && (year <=? 9999) then digits 4 year ""
  else (if year <? 0 then "-" else "+") +:+ digits 6 (Z.abs year) "".

(** [None] is the [RangeError] of a time no [Date] can hold. *)
Definition toISOString (ms : Z) : option string :=
  if Z.abs ms <=? 8640000000000000 then
    let '(year, month, day) := civil_of_day (ms / 86400000) in
    let t := ms mod 86400000 in
    Some (year_digits year +:+ "-" +:+ digits 2 month "" +:+ "-" +:+ digits 2 day "" +:+ "T"
          +:+ digits 2 (t / 3600000) "" +:+ ":" +:+ digits 2 (t / 60000 mod 60) "" +:+ ":"
          +:+ digits 2 (t / 1000 mod 60) "" +:+ "." +:+ digits 3 (t mod 1000) "" +:+ "Z")
  else None.
Example iso_epoch : toISOString 0 = Some "1970-01-01T00:00:00.000Z".
Proof. reflexivity. Qed.
Example iso_leap : toISOString 951827696789 = Some "2000-02-29T12:34:56.789Z".
Proof. reflexivity. Qed.
Example iso_before : toISOString (-1) = Some "1969-12-31T23:59:59.999Z".
Proof. reflexivity. Qed.
Example iso_last : toISOString 8640000000000000 = Some "+275760-09-13T00:00:00.000Z".
Proof. reflexivity. Qed.

(** ** Tables *)

Record ChatRow := {
  cr_project_id : string;
  cr_worktree_id : option string;
  cr_title : string;
  cr_title_provenance : NameProvenance;
  cr_active_session_id : option string;
  cr_origin_session_id : option string;
  cr_archived_at : option string;
  cr_archived_worktree_json : option string;
  cr_last_message_at : option string;
  cr_last_user_message_at : option string;
  cr_last_read_at : option string;
  cr_created_at : string;
  cr_updated_at : string }.
#[export] Instance ChatRow_eta : Settable ChatRow := λ r,
  Build_ChatRow (cr_project_id r) (cr_worktree_id r) (cr_title r) (cr_title_provenance r)
    (cr_active_session_id r) (cr_origin_session_id r) (cr_archived_at r)
    (cr_archived_worktree_json r) (cr_last_message_at r) (cr_last_user_message_at r)
    (cr_last_read_at r) (cr_created_at r) (cr_updated_at r).

(** A row of session_fork_constructions; an invalid payload has no JSON. *)
Record ForkConstruction := {
  fc_payload : option json;
  fc_completed_at : option Z;
  fc_cancelled_at : option Z;
  fc_error : option string }.

(** The tables the projector touches, with the columns it reads of those it does not
    own: sessions (id, chat_id), user messages (session_id, created_at) and queued
    messages (session_id, created_at). *)
Record ChatTables := {
  ct_chats : gmap string ChatRow;
  ct_sessions : list (string * string);
  ct_user_messages : list (string * string);
  ct_queued_messages : list (string * string);
  ct_forks : list ForkConstruction }.
#[export] Instance ChatTables_eta : Settable ChatTables := λ t,
  Build_ChatTables (ct_chats t) (ct_sessions t) (ct_user_messages t) (ct_queued_messages t)
    (ct_forks t).

(** [UPDATE chats SET ... WHERE id = chatId]. *)
Definition update_chat (chatId : string) (f : ChatRow → ChatRow) (t : ChatTables) : ChatTables :=
  t <| ct_chats ::= alter f chatId |>.

(** [SELECT MAX(created_at)] over text. *)
Definition max_text (l : list string) : option string :=
  foldr (λ s m, match m with
                | Some best => Some (if String.leb best s then s else best)
                | None => Some s end) None l.
Definition session_of_chat (chatId : string) (t : ChatTables) (sessionId : string) : bool :=
  existsb (λ s, bool_decide (s = (sessionId, chatId))) (ct_sessions t).
Definition last_user_message (chatId : string) (t : ChatTables) : option string :=
  max_text
    ((filter (λ m, session_of_chat chatId t m.1) (ct_user_messages t)
      ++ filter (λ m, session_of_chat chatId t m.1) (ct_queued_messages t)).*2).

(** [updateChatLastMessage] for a chat; the caller has rendered the time. *)
Definition updateChatLastMessage (chatId : string) (value : option string) (t : ChatTables)
  : ChatTables :=
  update_chat chatId
    (λ r, (r <| cr_last_message_at := value |>)
            <| cr_last_user_message_at := last_user_message chatId t |>) t.

(** [updateChatLastMessage] for a session, and [updateChatLastUserMessage]. *)
Definition chats_of_session (sessionId : string) (t : ChatTables) : option string :=
  snd <$> List.find (λ s, bool_decide (s.1 = sessionId)) (ct_sessions t).
Definition updateSessionLastMessage (sessionId : string) (value : option string) (t : ChatTables)
  : ChatTables :=
  match chats_of_session sessionId t with
  | Some chatId => update_chat chatId (λ r, r <| cr_last_message_at := value |>) t
  | None => t
  end.
Definition updateChatLastUserMessage (sessionId value : string) (t : ChatTables) : ChatTables :=
  match chats_of_session sessionId t with
  | Some chatId =>
      update_chat chatId
        (λ r, match cr_last_user_message_at r with
              | Some last => if String.ltb last value
                             then r <| cr_last_user_message_at := Some value |> else r
              | None => r <| cr_last_user_message_at := Some value |>
              end) t
  | None => t
  end.

(** [json_set(payload, '$.messages', json('[]'))]. *)
Definition clear_messages (payload : json) : json :=
  match payload with
  | JObj fields => JObj (jm_set "messages" (JArr []) fields)
  | j => j
  end.
(** The open fork constructions of a chat are cancelled with it. *)
Definition cancel_fork (chatId : string) (deletedAt : Z) (f : ForkConstruction) : ForkConstruction :=
  match fc_payload f with
  | Some (JObj fields) =>
      match jm_get "chatId" fields, fc_completed_at f with
      | Some (JStr id), None =>
          if decide (id = chatId)
          then {| fc_payload := Some (clear_messages (JObj fields));
                  fc_completed_at := Some deletedAt; fc_cancelled_at := Some deletedAt;
                  fc_error := None |}
          else f
      | _, _ => f
      end
  | _ => f
  end.

(** ** The statement of an event *)

(** Renders the times an event carries before it runs [k]; a time out of range ends
    the application with a defect. *)
Definition with_time (ms : Z) (k : string → ChatTables → ChatTables) (t : ChatTables)
  : option ChatTables :=
  (λ s, k s t) <$> toISOString ms.
Definition with_optional_time (ms : option Z) (k : option string → option ChatTables)
  : option ChatTables :=
  match ms with
  | None => k None
  | Some ms => toISOString ms ≫= λ s, k (Some s)
  end.

Definition chat_statement (record : StoredEvent ChatEvent) (t : ChatTables) : option ChatTables :=
  let chatId := se_streamId record in
  match se_event record with
  | ChatCreated id projectId worktreeId title prov origin lastReadAt createdAt =>
      toISOString createdAt ≫= λ created,
      with_optional_time lastReadAt (λ read,
        Some match ct_chats t !! id with
             | Some _ => t
             | None =>
                 t <| ct_chats ::= insert id
                        {| cr_project_id := projectId; cr_worktree_id := worktreeId;
                           cr_title := title; cr_title_provenance := default NP_manual prov;
                           cr_active_session_id := None; cr_origin_session_id := origin;
                           cr_archived_at := None; cr_archived_worktree_json := None;
                           cr_last_message_at := None; cr_last_user_message_at := None;
                           cr_last_read_at := read; cr_created_at := created;
                           cr_updated_at := created |} |>
             end)
  | ChatRenamed title prov updatedAt =>
      with_time updatedAt (λ updated,
        update_chat chatId (λ r, ((r <| cr_title := title |>)
                                    <| cr_title_provenance := default NP_manual prov |>)
                                   <| cr_updated_at := updated |>)) t
  | ChatRead readAt =>
      with_time readAt (λ read, update_chat chatId (λ r, r <| cr_last_read_at := Some read |>)) t
  | ChatWorktreeSet worktreeId updatedAt =>
      with_time updatedAt (λ updated,
        update_chat chatId (λ r, (r <| cr_worktree_id := worktreeId |>)
                                   <| cr_updated_at := updated |>)) t
  | ChatActiveSessionSet sessionId updatedAt =>
      with_time updatedAt (λ updated t,
        if match sessionId with None => true | Some s => session_of_chat chatId t s end
        then update_chat chatId (λ r, (r <| cr_active_session_id := sessionId |>)
                                        <| cr_updated_at := updated |>) t
        else t) t
  | ChatLastMessageSet messageAt =>
      with_optional_time messageAt (λ value, Some (updateChatLastMessage chatId value t))
  | ChatArchiveRequested _ _ => Some t
  | ChatArchived archivedAt archivedWorktreeJson =>
      with_time archivedAt (λ archived,
        update_chat chatId (λ r, ((r <| cr_archived_at := Some archived |>)
                                    <| cr_archived_worktree_json := archivedWorktreeJson |>)
                                   <| cr_updated_at := archived |>)) t
  | ChatArchiveCheckpointRecorded archivedWorktreeJson recordedAt =>
      with_time recordedAt (λ recorded,
        update_chat chatId (λ r,
          match cr_archived_at r with
          | Some _ => (r <| cr_archived_worktree_json := Some archivedWorktreeJson |>)
                        <| cr_updated_at := recorded |>
          | None => r
          end)) t
  | ChatUnarchived unarchivedAt worktreeId =>
      with_time unarchivedAt (λ unarchived,
        update_chat chatId (λ r, (((r <| cr_archived_at := None |>)
                                     <| cr_worktree_id := worktreeId |>)
                                    <| cr_archived_worktree_json := None |>)
                                   <| cr_updated_at := unarchived |>)) t
  | ChatDeleteRequested _ => Some t
  | ChatDeleted deletedAt =>
      Some ((t <| ct_forks ::= map (cancel_fork chatId deletedAt) |>)
              <| ct_chats ::= delete chatId |>)
  end.

(** [makeSqlChatProjector]: a defect fails the application. *)
Inductive ProjectorDefect : Set := InvalidTime.
Definition chat_apply (record : StoredEvent ChatEvent) (t : ChatTables)
  : result () ProjectorDefect * ChatTables :=
  match chat_statement record t with
  | Some t => (Success tt, t)
  | None => (Failure InvalidTime, t)
  end.
Definition chat_projector : ProjectorDefinition := {|
  pd_name := "chat-read-model";
  pd_sequenceOf := se_sequence;
  pd_apply := chat_apply |}.
