(* ===== verification/ChatProjectorProps.v ===== *)
(** * The chats read model follows the chats' events

    The row of a chat shows the state its events fold to, and so it does, by the
    laws of the projector runner, at every cursor the projector reaches. *)
From S2P Require Import Prelude Js JsMap Contracts Dispatch DispatchEngine Chat Consumers ConsumersProps ChatProjector.

Local Open Scope Z_scope.

(** The chat's state after its events, and the events of a chat in a log. *)
Definition chat_events (chatId : string) (l : list (StoredEvent ChatEvent)) : list ChatEvent :=
  se_event <$> filter (λ e, se_streamId e = chatId) l.
Definition chat_state (chatId : string) (l : list (StoredEvent ChatEvent)) : ChatState :=
  evolveChats initialChatState (chat_events chatId l).

(** The active sessions a chat's events name, the one the row shows - the last that is
    none or a session the sessions table has for the chat - and whether the table has
    them all. *)
Definition active_sets (events : list ChatEvent) : list (option string) :=
  omap (λ e, match e with ChatActiveSessionSet s _ => Some s | _ => None end) events.
Definition present (chatId : string) (t : ChatTables) (sessionId : option string) : bool :=
  match sessionId with None => true | Some s => session_of_chat chatId t s end.
Definition shown_active (chatId : string) (t : ChatTables) (events : list ChatEvent) : option string :=
  mjoin (last (filter (λ s, present chatId t s) (active_sets events))).
Definition all_present (chatId : string) (t : ChatTables) (events : list ChatEvent) : Prop :=
  Forall (λ s, present chatId t s) (active_sets events).
Definition sets_last_message (e : ChatEvent) : bool :=
  match e with ChatLastMessageSet _ => true | _ => false end.

(** What a chat's row shows of the chat: every column the chat's events decide. *)
Record row_shows (chatId : string) (t : ChatTables) (events : list ChatEvent) (c : ChatState)
    (r : ChatRow) : Prop := {
  rs_project : ch_projectId c = Some (cr_project_id r);
  rs_worktree : ch_worktreeId c = cr_worktree_id r;
  rs_title : ch_title c = Some (cr_title r);
  rs_provenance : ch_titleProvenance c = cr_title_provenance r;
  rs_origin : ch_originSessionId c = cr_origin_session_id r;
  rs_read : (ch_lastReadAt c ≫= toISOString) = cr_last_read_at r;
  rs_archived : ch_archived c = bool_decide (is_Some (cr_archived_at r));
  rs_checkpoint : ch_archivedWorktreeJson c = cr_archived_worktree_json r;
  rs_message : (ch_lastMessageAt c ≫= toISOString) = cr_last_message_at r;
  rs_user_message : cr_last_user_message_at r
    = if existsb sets_last_message events then last_user_message chatId t else None;
  rs_active : cr_active_session_id r = shown_active chatId t events;
  rs_active_state : all_present chatId t events → ch_activeSessionId c = cr_active_session_id r }.
Definition shows (chatId : string) (t : ChatTables) (events : list ChatEvent) : Prop :=
  let c := evolveChats initialChatState events in
  if ch_exists c && negb (ch_deleted c)
  then ∃ r, ct_chats t !! chatId = Some r ∧ row_shows chatId t events c r
  else ct_chats t !! chatId = None.

(** An event as the server writes it on its stream, which is named after the chat: the
    chat engine's decision on the stream's state or, of a chat that exists, the active
    session and the last message the import of older tables records (backfill.ts). *)
Definition written_on (c : ChatState) (e : ChatEvent) : Prop :=
  (∃ command, decideChat c command = Success [e])
  ∨ ch_exists c = true ∧ ch_deleted c = false
    ∧ match e with ChatActiveSessionSet _ _ | ChatLastMessageSet _ => True | _ => False end.
Definition names_stream (e : StoredEvent ChatEvent) : Prop :=
  match se_event e with
  | ChatCreated chatId _ _ _ _ _ _ _ => chatId = se_streamId e
  | _ => True
  end.
Definition decided_event (l : list (StoredEvent ChatEvent)) (e : StoredEvent ChatEvent) : Prop :=
  written_on (chat_state (se_streamId e) l) (se_event e) ∧ names_stream e.
Definition decided (l : list (StoredEvent ChatEvent)) : Prop :=
  ∀ l1 e l2, l = l1 ++ e :: l2 → decided_event l1 e.

Lemma decided_prefix l k : decided l → k `prefix_of` l → decided k.
Proof. intros Hd [m ->] l1 e l2 ->. apply (Hd l1 e (l2 ++ m)). by rewrite <-app_assoc. Qed.

Lemma chat_events_snoc chatId l e :
  chat_events chatId (l ++ [e])
  = chat_events chatId l ++ (if decide (se_streamId e = chatId) then [se_event e] else []).
Proof.
  unfold chat_events. rewrite filter_app, filter_cons, filter_nil, fmap_app. by case_decide.
Qed.
Lemma evolveChats_snoc c events e : evolveChats c (events ++ [e]) = evolveChat (evolveChats c events) e.
Proof. unfold evolveChats. by rewrite foldl_app. Qed.

(** What an event is written on: a chat that exists, except for the chat's creation. *)
Lemma written_creates c e :
  written_on c e →
  match e with
  | ChatCreated _ _ _ _ _ _ _ _ => ch_exists c = false
  | ChatArchiveCheckpointRecorded _ _ => ch_exists c = true ∧ ch_deleted c = false ∧ ch_archived c = true
  | _ => ch_exists c = true ∧ ch_deleted c = false
  end.
Proof.
  intros [[command Hd]|(Hx & Hdel & He)]; [|by destruct e].
  destruct command; chat_cases Hd;
    repeat match goal with H : negb _ = false |- _ => apply negb_false_iff in H end; done.
Qed.

(** A chat that does not exist has had no event. *)
Lemma decided_fresh l chatId :
  decided l → ch_exists (chat_state chatId l) = false → chat_events chatId l = [].
Proof.
  induction l as [|e l IH] using rev_ind; intros Hd; [done|].
  assert (decided l) as Hl by (eapply decided_prefix; [done|by exists [e]]).
  unfold chat_state. rewrite chat_events_snoc. case_decide as He; [|rewrite app_nil_r; by apply IH].
  subst chatId. rewrite evolveChats_snoc. destruct (Hd l e [] eq_refl) as [Hw _].
  apply written_creates in Hw. unfold chat_state in Hw.
  by destruct (se_event e); cbn; destruct_and?; try congruence.
Qed.

(** ** One event *)

Lemma update_chat_lookup chatId f t other :
  ct_chats (update_chat chatId f t) !! other
  = if decide (chatId = other) then f <$> ct_chats t !! other else ct_chats t !! other.
Proof.
  unfold update_chat. cbn. case_decide as Hne; [subst; apply lookup_alter_eq|].
  by apply lookup_alter_ne.
Qed.
Lemma with_time_Some ms k t t' :
  with_time ms k t = Some t' → ∃ s, toISOString ms = Some s ∧ t' = k s t.
Proof. unfold with_time. intros (s & -> & ->)%fmap_Some. by exists s. Qed.
Lemma with_optional_time_Some ms k t' :
  with_optional_time ms k = Some t' → k (ms ≫= toISOString) = Some t'.
Proof.
  destruct ms as [ms|]; [|done]. cbn. intros (s & Hs & Hk)%bind_Some. by rewrite Hs.
Qed.

(** Chats other than the event's keep their row. *)
Lemma chat_statement_other e t t' other :
  chat_statement e t = Some t' → other ≠ se_streamId e →
  match se_event e with ChatCreated id _ _ _ _ _ _ _ => id = se_streamId e | _ => True end →
  ct_chats t' !! other = ct_chats t !! other.
Proof.
  intros Ht Hne Hid. unfold chat_statement, updateChatLastMessage in Ht.
  destruct (se_event e); cbn in Hid; simplify_eq;
    repeat match goal with
    | H : with_time _ _ _ = Some _ |- _ => apply with_time_Some in H as (? & ? & ->)
    | H : with_optional_time _ _ = Some _ |- _ => apply with_optional_time_Some in H
    | H : _ ≫= _ = Some _ |- _ => apply bind_Some in H as (? & ? & H)
    | H : Some _ = Some _ |- _ => injection H as <-
    end; try done;
    try case_match; try done; try (rewrite update_chat_lookup; by rewrite decide_False).
  all: cbn; try (by rewrite lookup_insert_ne); try (by rewrite lookup_delete_ne).
Qed.

(** The row an update leaves for the event's chat. *)
Lemma update_chat_row chatId f t r :
  ct_chats t !! chatId = Some r → ct_chats (update_chat chatId f t) !! chatId = Some (f r).
Proof. intros Hr. by rewrite update_chat_lookup, decide_True, Hr. Qed.

Ltac statement_time Ht :=
  first [apply with_time_Some in Ht as (? & ? & ->)
        |apply with_optional_time_Some in Ht; injection Ht as <-
        |injection Ht as <-].

(** A statement writes chats and fork constructions only. *)
Definition same_tables (t t' : ChatTables) : Prop :=
  ct_sessions t' = ct_sessions t ∧ ct_user_messages t' = ct_user_messages t
  ∧ ct_queued_messages t' = ct_queued_messages t.
Lemma chat_statement_tables e t t' : chat_statement e t = Some t' → same_tables t t'.
Proof.
  intros Ht. unfold chat_statement in Ht.
  destruct (se_event e); try (apply bind_Some in Ht as (? & _ & Ht)); try statement_time Ht;
    repeat case_match; simplify_eq; by repeat split.
Qed.
Lemma present_tables chatId t t' s : same_tables t t' → present chatId t' s = present chatId t s.
Proof. intros (Hs & _). destruct s; [|done]. cbn. unfold session_of_chat. by rewrite Hs. Qed.
Lemma last_user_message_tables chatId t t' :
  same_tables t t' → last_user_message chatId t' = last_user_message chatId t.
Proof.
  intros (Hs & Hu & Hq). unfold last_user_message, session_of_chat. by rewrite Hs, Hu, Hq.
Qed.
Lemma shown_active_tables chatId t t' events :
  same_tables t t' → shown_active chatId t' events = shown_active chatId t events.
Proof.
  intros Ht. unfold shown_active. do 2 f_equal. apply list_filter_iff.
  intros s. by rewrite (present_tables chatId t t').
Qed.
Lemma all_present_tables chatId t t' events :
  same_tables t t' → all_present chatId t' events ↔ all_present chatId t events.
Proof.
  intros Ht. unfold all_present. rewrite !Forall_forall.
  by split; intros H s Hs; specialize (H s Hs); rewrite (present_tables chatId t t') in *.
Qed.
Lemma row_shows_tables chatId t t' events c r :
  same_tables t t' → row_shows chatId t events c r → row_shows chatId t' events c r.
Proof.
  intros Ht []. split; try done.
  - by rewrite (last_user_message_tables chatId t).
  - by rewrite (shown_active_tables chatId t).
  - by rewrite (all_present_tables chatId t).
Qed.

(** The history columns after one more event. *)
Lemma active_sets_snoc events e :
  active_sets (events ++ [e])
  = active_sets events ++ match e with ChatActiveSessionSet s _ => [s] | _ => [] end.
Proof. unfold active_sets. rewrite omap_app. by destruct e. Qed.
Lemma shown_active_snoc chatId t events e :
  shown_active chatId t (events ++ [e])
  = match e with
    | ChatActiveSessionSet s _ => if present chatId t s then s else shown_active chatId t events
    | _ => shown_active chatId t events
    end.
Proof.
  unfold shown_active. rewrite active_sets_snoc, filter_app.
  destruct e; rewrite ?filter_nil, ?app_nil_r; try done.
  rewrite filter_cons, filter_nil. case_decide as Hp; destruct (present _ _ _); try done.
  - by rewrite last_snoc.
  - by rewrite app_nil_r.
Qed.
Lemma all_present_snoc chatId t events e :
  all_present chatId t (events ++ [e])
  → all_present chatId t events
    ∧ match e with ChatActiveSessionSet s _ => present chatId t s = true | _ => True end.
Proof.
  unfold all_present. rewrite active_sets_snoc, Forall_app. intros [? Hs]. split; [done|].
  destruct e; try done. apply Forall_inv in Hs. by destruct (present _ _ _).
Qed.

Definition deletes (e : ChatEvent) : bool := match e with ChatDeleted _ => true | _ => false end.
(** An event of a chat that exists moves the row as it moves the state. *)
Lemma chat_statement_row e t t' events c r :
  written_on c (se_event e) → ch_exists c = true → chat_statement e t = Some t' →
  deletes (se_event e) = false →
  ct_chats t !! se_streamId e = Some r → row_shows (se_streamId e) t events c r →
  ∃ r', ct_chats t' !! se_streamId e = Some r'
        ∧ row_shows (se_streamId e) t (events ++ [se_event e]) (evolveChat c (se_event e)) r'.
Proof.
  intros Hw%written_creates Hx Ht Hlive Hr [P W T V O L A K M U Act Known].
  pose proof (all_present_snoc (se_streamId e) t events (se_event e)) as Hall.
  pose proof (shown_active_snoc (se_streamId e) t events (se_event e)) as Hshown.
  unfold chat_statement in Ht.
  destruct (se_event e) eqn:Ee; try congruence; try statement_time Ht;
    try discriminate Hlive;
    unfold updateChatLastMessage; try (erewrite update_chat_row by exact Hr);
    try match goal with |- context [ct_chats (if ?b then _ else _)] =>
      change b with (present (se_streamId e) t sessionId); destruct (present _ _ _) eqn:Hp end;
    try (erewrite update_chat_row by exact Hr); rewrite ?Hr;
    (eexists; split; [reflexivity|]); try destruct (cr_archived_at r) eqn:Ha;
    split; cbn; rewrite ?existsb_app, ?Hshown; cbn; rewrite ?orb_false_r, ?orb_true_r, ?Ha, ?Hp;
    try done; try (intros [? ?]%Hall; by auto).
  (* a checkpoint is decided for archived chats only *)
  exfalso. destruct Hw as (_ & _ & Hw). rewrite Hw in A. discriminate.
Qed.

(** A decided event moves what the row shows. *)
Lemma chat_statement_shows e t t' events :
  written_on (evolveChats initialChatState events) (se_event e) → names_stream e →
  (ch_exists (evolveChats initialChatState events) = false → events = []) →
  shows (se_streamId e) t events → chat_statement e t = Some t' →
  shows (se_streamId e) t' (events ++ [se_event e]).
Proof.
  intros Hw Hid Hfresh Hshow Ht. pose proof (chat_statement_tables e t t' Ht) as Hsame.
  pose proof (written_creates _ _ Hw) as Hc. unfold shows in *. rewrite evolveChats_snoc.
  destruct (ch_exists (evolveChats initialChatState events)) eqn:Hx.
  - assert (ch_deleted (evolveChats initialChatState events) = false) as Hdel.
    { destruct (se_event e); destruct_and?; congruence. }
    rewrite Hdel in Hshow. cbn in Hshow. destruct Hshow as (r & Hr & Hshow).
    destruct (deletes (se_event e)) eqn:Hlive.
    { unfold chat_statement in Ht. destruct (se_event e); try discriminate Hlive. injection Ht as <-.
      cbn. rewrite Hx. apply lookup_delete_eq. }
    destruct (chat_statement_row e t t' events _ r Hw Hx Ht Hlive Hr Hshow) as (r' & Hr' & Hshow').
    assert (ch_exists (evolveChat (evolveChats initialChatState events) (se_event e)) = true
            ∧ ch_deleted (evolveChat (evolveChats initialChatState events) (se_event e)) = false)
      as [-> ->] by (destruct (se_event e); try discriminate Hlive; try discriminate Hc; done).
    cbn. exists r'. split; [done|]. by eapply row_shows_tables.
  - rewrite (Hfresh eq_refl) in *. unfold names_stream in Hid. unfold chat_statement in Ht.
    destruct (se_event e); destruct_and?; try congruence. cbn in Hshow |- *.
    apply bind_Some in Ht as (created & Hc' & Ht). apply with_optional_time_Some in Ht. subst chatId.
    rewrite Hshow in Ht. injection Ht as <-. cbn. rewrite lookup_insert_eq. eexists. split; [done|]. by split.
Qed.

(** ** Whole logs *)

Lemma replay_shows w0 l w :
  ct_chats w0 = ∅ → decided l → replay chat_apply w0 l = Some w →
  ∀ chatId, shows chatId w (chat_events chatId l).
Proof.
  intros H0. revert w. induction l as [|e l IH] using rev_ind; intros w Hd Hr chatId.
  { injection Hr as <-. unfold shows. cbn. rewrite H0. apply lookup_empty. }
  assert (decided l) as Hl by (eapply decided_prefix; [done|by exists [e]]).
  destruct (Hd l e [] eq_refl) as [Hw Hid].
  destruct (replay chat_apply w0 l) as [w1|] eqn:E1.
  2: { rewrite replay_app, E1 in Hr. discriminate. }
  rewrite (replay_snoc chat_apply w0 l e w1 E1) in Hr.
  unfold chat_apply in Hr. destruct (chat_statement e w1) as [w2|] eqn:Es; [|discriminate].
  injection Hr as <-. specialize (IH w1 Hl eq_refl chatId). rewrite chat_events_snoc.
  case_decide as He.
  - subst chatId. eapply chat_statement_shows; [exact Hw|done|by apply decided_fresh|exact IH|done].
  - rewrite app_nil_r. unfold shows in *.
    rewrite (chat_statement_other e w1 w2 chatId Es); [|done|exact Hid].
    case_match; [|done]. destruct IH as (r & Hr & Hrow). exists r. split; [done|].
    eapply row_shows_tables; [by eapply chat_statement_tables|done].
Qed.

Section composed.
Context {S : Type} `{PL : ProjectorLaws S ChatTables (StoredEvent ChatEvent) ProjectorDefect se_sequence}.

(** C20: the chats read model never shows anything but the chats: at every cursor the
    projector reaches, through failures and losses, a chat has a row exactly when its
    events up to the cursor created it and did not delete it. The row shows the project,
    worktree, title, origin, read mark, archive and last message those events fold to;
    its last user message is that of the message tables if the events set a last message;
    and its active session is the last one the events set among none and the sessions the
    sessions table has for the chat, hence the folded one when the table has them all.
    The tables of sessions and messages are as the projector finds them: their own
    projector's writes, also those to the chats table, are not among the steps. *)
Theorem chat_read_model_shows_chats s0 s chatId :
  at_start "chat-read-model" s0 → ct_chats (world s0) = ∅ →
  rtc (project_step "chat-read-model" chat_apply) s0 s → decided (log s) →
  shows chatId (world s) (chat_events chatId (upto se_sequence (position "chat-read-model" s) (log s))).
Proof.
  intros Hstart H0 Hsteps Hd.
  destruct (projected_reachable _ _ _ _ Hstart Hsteps) as [(Ho & _) Hr].
  eapply replay_shows; [exact H0| |exact Hr].
  eapply decided_prefix; [exact Hd|by apply upto_prefix].
Qed.
End composed.

(** ** A concrete run *)

Module chat_projector_demo.
(** The payloads stand for the events they would encode; the last message is imported. *)
Definition decode (json : string) : option ChatEvent :=
  if decide (json = "created") then
    Some (ChatCreated "c1" "p1" None "title" (Some NP_pending) None (Some 5) 5)
  else if decide (json = "renamed") then Some (ChatRenamed "named" (Some NP_automatic) 6)
  else if decide (json = "active") then Some (ChatActiveSessionSet (Some "s1") 7)
  else if decide (json = "absent") then Some (ChatActiveSessionSet (Some "s9") 8)
  else if decide (json = "message") then Some (ChatLastMessageSet (Some 9))
  else if decide (json = "archived") then Some (ChatArchived 10 (Some "{}"))
  else None.
Definition defect (e : EventDecodeError) : ProjectorDefect := InvalidTime.
Definition chat_row (n : Z) (payload : string) : PersistedEventRow :=
  {| er_stream_kind := "chat"; er_sequence := n; er_event_id := "e" +:+ String_of_Z n;
     er_correlation_id := None; er_causation_event_id := None; er_stream_id := "c1";
     er_stream_version := n; er_payload_json := payload |}.
Definition no_chats : ChatTables :=
  {| ct_chats := ∅; ct_sessions := [("s1", "c1")]; ct_user_messages := [("s1", "noon"); ("s2", "zzz")];
     ct_queued_messages := [("s1", "later")]; ct_forks := [] |}.
#[export] Instance chat_storage :
    ProjectorStorage (SqlStorage ChatTables) ChatTables (StoredEvent ChatEvent) ProjectorDefect :=
  SqlConsumerStorage "chat" decode defect.
#[export] Instance chat_storage_laws :
    ProjectorLaws (SqlStorage ChatTables) ChatTables (StoredEvent ChatEvent) ProjectorDefect
      se_sequence :=
  sql_projector_laws "chat" decode defect.
Definition start : SqlStorage ChatTables :=
  {| sq_events := [chat_row 1 "created"; chat_row 2 "renamed"; chat_row 3 "active";
                   chat_row 4 "absent"; chat_row 5 "message"; chat_row 6 "archived"];
     sq_cursors := ∅; sq_world := no_chats |}.
Definition ended : SqlStorage ChatTables := (projector_catchUp chat_projector start).2.
Lemma start_fresh : at_start (seq := se_sequence) "chat-read-model" start.
Proof.
  split; [by repeat constructor|]. split; [|reflexivity].
  intros e He. repeat (apply elem_of_cons in He as [->|He]; [done|]). by apply elem_of_nil in He.
Qed.
Lemma ended_reached :
  rtc (project_step (seq := se_sequence) "chat-read-model" chat_apply) start ended.
Proof. apply rtc_once. by apply PS_catchUp. Qed.
Lemma start_decided : decided (log start).
Proof.
  intros l1 e l2 Hl. vm_compute in Hl.
  destruct l1 as [|e1 [|e2 [|e3 [|e4 [|e5 [|e6 [|]]]]]]]; cbn in Hl; try discriminate Hl;
    injection Hl; intros; subst; (split; [|done]).
  - left. by exists (CreateChat "c1" "p1" None "title" (Some NP_pending) None (Some 5) 5).
  - left. by exists (RenameChat "named" (Some NP_automatic) 6).
  - left. by exists (SetActiveSession (Some "s1") 7).
  - left. by exists (SetActiveSession (Some "s9") 8).
  - by right.
  - left. by exists (ArchiveChat 10 (Some "{}")).
Qed.
End chat_projector_demo.
Import chat_projector_demo.

Definition ended_row : option ChatRow := ct_chats (sq_world ended) !! "c1".
Lemma chat_read_model_shows_chats_witness :
  (cr_title <$> ended_row, cr_active_session_id <$> ended_row, cr_last_message_at <$> ended_row,
   cr_last_user_message_at <$> ended_row)
  = (Some "named", Some (Some "s1"), Some (Some "1970-01-01T00:00:00.009Z"), Some (Some "noon")) ∧
  shows "c1" (world ended)
    (chat_events "c1" (upto se_sequence (position "chat-read-model" ended) (log ended))).
Proof.
  split; [vm_compute; reflexivity|].
  apply (chat_read_model_shows_chats (PL := chat_storage_laws) start ended "c1" start_fresh eq_refl
           ended_reached).
  exact start_decided.
Defined.
