(* ===== verification/ClientTimeline.v ===== *)
(** * The client's replica of a session timeline

    [packages/client-runtime/src/session-timeline.ts]: the state every client keeps of
    a session's stream, and the reduction of each frame. The projection and its
    events are those of [Timeline]. The overlay of optimistic messages is keyed by
    message ids, which are no array indices, so its entries keep insertion order. *)
From S2P Require Import Prelude Js JsMap Contracts SessionTypes SessionState Timeline.

Local Open Scope Z_scope.

(** ** Frames (packages/contracts/src/session.ts) *)

Record SessionStreamCursor := { sc_epoch : string; sc_version : Z }.
#[export] Instance SessionStreamCursor_eq_dec : EqDecision SessionStreamCursor.
Proof. solve_decision. Defined.

(** [fields] is the rest of the observation. *)
Record SessionRuntimeObservation := {
  ro_observedAt : Z;
  ro_attemptId : option string;
  ro_fields : json }.

(** The projection with the two fields that its reducer carries along unread;
    [olderMessageSequence] is [None] when it is null or undefined. *)
Record ClientProjection := {
  cp_projection : SessionTimelineProjection;
  cp_runtimeObservation : option SessionRuntimeObservation;
  cp_olderMessageSequence : option Z }.
#[export] Instance ClientProjection_eta : Settable ClientProjection := λ p,
  Build_ClientProjection (cp_projection p) (cp_runtimeObservation p) (cp_olderMessageSequence p).
Definition cp_messages (p : ClientProjection) : list Message := tp_messages (cp_projection p).
Definition with_messages (messages : list Message) (p : ClientProjection) : ClientProjection :=
  p <| cp_projection := (cp_projection p) <| tp_messages := messages |> |>.

Record SnapshotFrame := {
  sf_throughVersion : Z;
  sf_projection : ClientProjection;
  sf_cursor : option SessionStreamCursor;
  sf_olderMessageSequence : option Z;
  sf_totalMessageCount : option Z;
  sf_background : bool }.
Inductive SessionTimelineFrame : Type :=
| F_runtime (cursor : SessionStreamCursor) (observation : SessionRuntimeObservation)
| F_snapshot (frame : SnapshotFrame)
| F_snapshot_chunk (throughVersion : Z) (messages : list Message)
    (olderMessageSequence : option Z) (cursor : option SessionStreamCursor)
| F_event (streamVersion : Z) (event : SessionTimelineEvent) (cursor : option SessionStreamCursor)
| F_synchronized (throughVersion : Z) (cursor : option SessionStreamCursor)
| F_reset_required (cursor : SessionStreamCursor).

(** ** State *)

Inductive SessionTimelinePhase : Set :=
| SP_empty | SP_cached | SP_synchronizing | SP_live | SP_stale | SP_deleted.
#[export] Instance SessionTimelinePhase_eq_dec : EqDecision SessionTimelinePhase.
Proof. solve_decision. Defined.

Record SessionTimelineState := {
  ts_projection : option ClientProjection;
  ts_cursor : option SessionStreamCursor;
  ts_resetEpoch : option string;
  ts_phase : SessionTimelinePhase;
  ts_error : option string;
  ts_optimistic : list (string * Message);
  ts_snapshotMessageCount : option Z }.
#[export] Instance SessionTimelineState_eta : Settable SessionTimelineState := λ s,
  Build_SessionTimelineState (ts_projection s) (ts_cursor s) (ts_resetEpoch s) (ts_phase s)
    (ts_error s) (ts_optimistic s) (ts_snapshotMessageCount s).

Definition emptySessionTimelineState : SessionTimelineState :=
  {| ts_projection := None; ts_cursor := None; ts_resetEpoch := None; ts_phase := SP_empty;
     ts_error := None; ts_optimistic := []; ts_snapshotMessageCount := None |}.

Definition restoreSessionTimelineState (projection : option ClientProjection)
    (cursor : option SessionStreamCursor) : SessionTimelineState :=
  match projection, cursor with
  | Some p, Some c =>
      emptySessionTimelineState <| ts_projection := Some (p <| cp_runtimeObservation := None |>) |>
        <| ts_cursor := Some c |> <| ts_phase := SP_cached |>
  | _, _ => emptySessionTimelineState
  end.

(** ** Optimistic messages *)

(** [findIndex]; [None] is -1. *)
Definition message_index (id : string) (messages : list Message) : option nat :=
  fst <$> list_find (λ m, ms_id m = id) messages.

(** [same] says that two messages are one object. *)
Definition observeOptimisticTimelineProjection (same : Message → Message → bool)
    (state : SessionTimelineState) (projection : ClientProjection) (historyPrepend : bool)
  : SessionTimelineState :=
  let known := match ts_projection state with Some p => cp_messages p | None => [] end in
  let historyBoundary :=
    match historyPrepend, head known with
    | true, Some first => default 0%nat (message_index (ms_id first) (cp_messages projection))
    | _, _ => 0%nat
    end in
  let previousById := foldl (λ m x, jm_set (ms_id x) x m) [] known in
  let optimistic :=
    foldl (λ o m,
      if match jm_get (ms_id m) previousById with Some previous => same previous m | None => false end
      then o else jm_set (ms_id m) m o)
      (ts_optimistic state) (drop historyBoundary (cp_messages projection)) in
  state <| ts_projection :=
             Some (projection <| cp_runtimeObservation :=
                     ts_projection state ≫= cp_runtimeObservation |>) |>
        <| ts_optimistic := optimistic |>.

Definition reconcileOptimisticMessages (projection : ClientProjection)
    (optimistic : list (string * Message)) : ClientProjection * list (string * Message) :=
  let retained :=
    filter (λ m, ms_id m ∉ ms_id <$> cp_messages projection) (jm_values optimistic) in
  (match retained with
   | [] => projection
   | _ => with_messages (cp_messages projection ++ retained) projection
   end,
   foldl (λ o m, jm_set (ms_id m) m o) [] retained).

(** ** History *)

Definition prependSessionTimelineMessages (state : SessionTimelineState) (messages : list Message)
    (olderMessageSequence : option Z) : SessionTimelineState :=
  match ts_projection state with
  | None => state
  | Some p =>
      let p := match messages with
               | [] => p
               | _ => with_messages
                        (jm_values (foldl (λ m x, jm_set (ms_id x) x m) [] (messages ++ cp_messages p))) p
               end in
      state <| ts_projection := Some (p <| cp_olderMessageSequence := olderMessageSequence |>) |>
  end.

Definition preserveSessionTimelineHistory (previous : option ClientProjection)
    (previousCursor : option SessionStreamCursor) (next : ClientProjection)
    (nextCursor : SessionStreamCursor) : ClientProjection :=
  match previous, previousCursor, cp_olderMessageSequence next with
  | Some previous, Some previousCursor, Some _ =>
      if decide (previousCursor = nextCursor) then
        match head (cp_messages next) with
        | Some first =>
            match message_index (ms_id first) (cp_messages previous) with
            | Some (S _ as index) =>
                with_messages (take index (cp_messages previous) ++ cp_messages next) next
                  <| cp_olderMessageSequence := cp_olderMessageSequence previous |>
            | _ => next
            end
        | None => next
        end
      else next
  | _, _, _ => next
  end.

(** ** Frames *)

Definition cursorForFrame (state : SessionTimelineState) (version : Z)
    (cursor : option SessionStreamCursor) : SessionStreamCursor :=
  default {| sc_epoch := default "legacy" (sc_epoch <$> ts_cursor state); sc_version := version |}
    cursor.
Definition invalidCursorState (state : SessionTimelineState) (message : string)
  : SessionTimelineState :=
  state <| ts_phase := SP_stale |> <| ts_error := Some message |>.

Section reduce.
Context `{Collation}.

Definition reduce_runtime (state : SessionTimelineState) (cursor : SessionStreamCursor)
    (observation : SessionRuntimeObservation) : SessionTimelineState :=
  match ts_projection state with
  | None => state
  | Some p =>
      if decide (ts_phase state ≠ SP_live ∨ ts_cursor state ≠ Some cursor
                 ∨ (sa_id ∘ tt_attempt <$> tp_activeTurn (cp_projection p)) ≠ ro_attemptId observation
                 ∨ ro_observedAt observation
                   < default (-1) (ro_observedAt <$> cp_runtimeObservation p))
      then state
      else state <| ts_projection := Some (p <| cp_runtimeObservation := Some observation |>) |>
  end.

Definition reduce_snapshot (state : SessionTimelineState) (frame : SnapshotFrame)
  : SessionTimelineState :=
  let cursor := cursorForFrame state (sf_throughVersion frame) (sf_cursor frame) in
  let accept :=
    let next := (sf_projection frame)
                  <| cp_olderMessageSequence :=
                       sf_olderMessageSequence frame
                       ?? cp_olderMessageSequence (sf_projection frame) |> in
    let previous := match ts_resetEpoch state with None => ts_projection state | Some _ => None end in
    let '(projection, optimistic) :=
      reconcileOptimisticMessages
        (preserveSessionTimelineHistory previous (ts_cursor state) next cursor)
        (ts_optimistic state) in
    {| ts_projection := Some projection; ts_cursor := Some cursor; ts_resetEpoch := None;
       ts_phase := SP_synchronizing; ts_error := None; ts_optimistic := optimistic;
       ts_snapshotMessageCount :=
         if sf_background frame then None else sf_totalMessageCount frame |} in
  if decide (sc_version cursor ≠ sf_throughVersion frame) then
    invalidCursorState state
      ("Snapshot cursor " +:+ String_of_Z (sc_version cursor) +:+ " does not match version "
       +:+ String_of_Z (sf_throughVersion frame))
  else
    match ts_resetEpoch state with
    | Some resetEpoch =>
        if decide (sc_epoch cursor ≠ resetEpoch) then
          invalidCursorState state
            ("Expected reset snapshot for epoch " +:+ resetEpoch +:+ ", received "
             +:+ sc_epoch cursor)
        else accept
    | None =>
        match ts_cursor state with
        | Some current =>
            if decide (sc_epoch cursor ≠ sc_epoch current) then
              invalidCursorState state
                ("Snapshot changed epoch from " +:+ sc_epoch current +:+ " to "
                 +:+ sc_epoch cursor +:+ " without a reset")
            else if sc_version cursor <? sc_version current then state
            else accept
        | None => accept
        end
    end.

Definition reduce_chunk (state : SessionTimelineState) (throughVersion : Z)
    (messages : list Message) (olderMessageSequence : option Z)
    (frame_cursor : option SessionStreamCursor) : SessionTimelineState :=
  let cursor := cursorForFrame state throughVersion frame_cursor in
  let invalid :=
    invalidCursorState state
      ("Snapshot chunk for " +:+ sc_epoch cursor +:+ ":" +:+ String_of_Z throughVersion
       +:+ " arrived without its snapshot") in
  match ts_projection state with
  | Some _ =>
      if decide (ts_cursor state = Some cursor ∧ sc_version cursor = throughVersion)
      then prependSessionTimelineMessages state messages olderMessageSequence
      else invalid
  | None => invalid
  end.

Definition reduce_synchronized (state : SessionTimelineState) (throughVersion : Z)
    (frame_cursor : option SessionStreamCursor) : SessionTimelineState :=
  let cursor := cursorForFrame state throughVersion frame_cursor in
  let invalid :=
    invalidCursorState state
      ("Synchronization through " +:+ sc_epoch cursor +:+ ":" +:+ String_of_Z throughVersion
       +:+ " arrived at " +:+ default "none" (sc_epoch <$> ts_cursor state) +:+ ":"
       +:+ String_of_Z (default 0 (sc_version <$> ts_cursor state))) in
  match ts_resetEpoch state, ts_projection state, ts_cursor state with
  | None, Some p, Some current =>
      if decide (sc_epoch current = sc_epoch cursor ∧ sc_version cursor ≤ sc_version current
                 ∧ sc_version cursor = throughVersion) then
        match ts_snapshotMessageCount state with
        | Some count =>
            if decide (Z.of_nat (length (cp_messages p)) ≠ count) then
              invalidCursorState state
                ("Snapshot declared " +:+ String_of_Z count +:+ " messages but assembled "
                 +:+ String_of_Z (Z.of_nat (length (cp_messages p))))
            else
              state <| ts_phase := SP_live |> <| ts_error := None |>
                    <| ts_snapshotMessageCount := None |>
        | None =>
            state <| ts_phase := SP_live |> <| ts_error := None |>
                  <| ts_snapshotMessageCount := None |>
        end
      else invalid
  | _, _, _ => invalid
  end.

Definition reduce_reset (state : SessionTimelineState) (cursor : SessionStreamCursor)
  : SessionTimelineState :=
  if decide (ts_resetEpoch state = Some (sc_epoch cursor)) then state
  else
    state <| ts_resetEpoch := Some (sc_epoch cursor) |> <| ts_phase := SP_synchronizing |>
          <| ts_error := None |>.

Definition persisted_message (event : SessionTimelineEvent) : option string :=
  match event with TE_MessagePersisted _ message => Some (ms_id message) | _ => None end.

Definition reduce_event (state : SessionTimelineState) (streamVersion : Z)
    (event : SessionTimelineEvent) (frame_cursor : option SessionStreamCursor)
  : SessionTimelineState :=
  let cursor := cursorForFrame state streamVersion frame_cursor in
  let apply :=
    match ts_projection state with
    | None => invalidCursorState state "Received an event without a retained projection"
    | Some p =>
        let expectedVersion := default 0 (sc_version <$> ts_cursor state) + 1 in
        if decide (streamVersion ≠ expectedVersion) then
          invalidCursorState state
            ("Expected version " +:+ String_of_Z expectedVersion +:+ ", received "
             +:+ String_of_Z streamVersion)
        else
          state
            <| ts_projection :=
                 Some ((p <| cp_runtimeObservation := None |>)
                         <| cp_projection ::= λ q, applyTimelineEvent q event |>) |>
            <| ts_optimistic :=
                 match persisted_message event with
                 | Some id => jm_delete id (ts_optimistic state)
                 | None => ts_optimistic state
                 end |>
            <| ts_cursor := Some cursor |>
            <| ts_phase := if decide (ts_phase state = SP_live) then SP_live else SP_synchronizing |>
            <| ts_error := None |>
    end in
  if decide (sc_version cursor ≠ streamVersion) then
    invalidCursorState state
      ("Event cursor " +:+ String_of_Z (sc_version cursor) +:+ " does not match version "
       +:+ String_of_Z streamVersion)
  else
    match ts_resetEpoch state with
    | Some _ => invalidCursorState state "Received an event before the required reset snapshot"
    | None =>
        match ts_cursor state with
        | Some current =>
            if decide (sc_epoch cursor ≠ sc_epoch current) then
              invalidCursorState state
                ("Event changed epoch from " +:+ sc_epoch current +:+ " to " +:+ sc_epoch cursor
                 +:+ " without a reset")
            else if sc_version cursor <=? sc_version current then state
            else apply
        | None => apply
        end
    end.

Definition reduceSessionTimelineFrame (state : SessionTimelineState) (frame : SessionTimelineFrame)
  : SessionTimelineState :=
  if decide (ts_phase state = SP_deleted) then state
  else
    match frame with
    | F_runtime cursor observation => reduce_runtime state cursor observation
    | F_snapshot frame => reduce_snapshot state frame
    | F_snapshot_chunk throughVersion messages older cursor =>
        reduce_chunk state throughVersion messages older cursor
    | F_synchronized throughVersion cursor => reduce_synchronized state throughVersion cursor
    | F_reset_required cursor => reduce_reset state cursor
    | F_event streamVersion event cursor => reduce_event state streamVersion event cursor
    end.
End reduce.
