(* ===== verification/ClientTimelineProps.v ===== *)
(** * The client's replica follows the server

    Whatever frames of the server's streams arrive, lost, repeated or out of order, the
    projection a client holds is the one the server has at the client's cursor: all of it
    when the snapshots are whole, all but the messages that are still missing, or that the
    user has just sent, when they are bounded. *)
From S2P Require Import Prelude Js JsMap Contracts SessionTypes SessionState Timeline TimelineProps ClientTimeline.

Local Open Scope Z_scope.

(** ** Pages *)

Lemma jm_values_set {V} (k : string) (v x : V) m : x ∈ jm_values (jm_set k v m) → x = v ∨ x ∈ jm_values m.
Proof.
  induction m as [|[k' v'] m IH]; cbn; [set_solver|]. case_decide; cbn; [set_solver|].
  intros [->|Hx]%elem_of_cons; [by right; left|]. destruct (IH Hx); [by left|by right; right].
Qed.
Lemma page_ids messages known :
  ms_id <$> jm_values (foldl (λ m x, jm_set (ms_id x) x m) [] (messages ++ known))
  ⊆ (ms_id <$> messages) ++ (ms_id <$> known).
Proof.
  rewrite <-fmap_app. generalize (messages ++ known). intros l.
  assert (∀ l o, ms_id <$> jm_values (foldl (λ m x, jm_set (ms_id x) x m) o l)
                 ⊆ (ms_id <$> jm_values o) ++ (ms_id <$> l)) as Hl.
  { clear. induction l as [|x l IH]; intros o; cbn; [by rewrite app_nil_r|].
    etrans; [apply IH|]. intros id. rewrite !elem_of_app, elem_of_cons.
    intros [Hid|Hid]; [|by right; right].
    apply list_elem_of_fmap in Hid as (m & -> & Hm).
    apply jm_values_set in Hm as [->|Hm]; [by right; left|]. left. by apply list_elem_of_fmap_2. }
  apply (Hl l []).
Qed.
Section client.
Context `{Collation}.
Notation reduce := reduceSessionTimelineFrame.

(** ** The cursor *)

(** What a frame may do to the cursor: nothing, one event forward, or a jump to a
    snapshot: forward in the epoch, or to the epoch a reset announced. *)
Inductive cursor_moves (state : SessionTimelineState) (frame : SessionTimelineFrame)
  : option SessionStreamCursor → Prop :=
| CM_stays : cursor_moves state frame (ts_cursor state)
| CM_event event current c :
    frame = F_event (sc_version current) event c → ts_resetEpoch state = None →
    sc_version current = default 0 (sc_version <$> ts_cursor state) + 1 →
    (∀ old, ts_cursor state = Some old → sc_epoch current = sc_epoch old) →
    cursor_moves state frame (Some current)
| CM_snapshot f current :
    frame = F_snapshot f → sc_version current = sf_throughVersion f →
    match ts_resetEpoch state with
    | Some epoch => sc_epoch current = epoch
    | None => ∀ old, ts_cursor state = Some old →
                sc_epoch current = sc_epoch old ∧ sc_version old <= sc_version current
    end →
    cursor_moves state frame (Some current).

Lemma cursorForFrame_Some state v c : cursorForFrame state v (Some c) = c.
Proof. done. Qed.

Lemma prepend_cursor state messages older :
  ts_cursor (prependSessionTimelineMessages state messages older) = ts_cursor state.
Proof. unfold prependSessionTimelineMessages. by destruct (ts_projection state). Qed.

(** A frame that is refused leaves the replica as it is, or only marks it stale. *)
Definition untouched (state state' : SessionTimelineState) : Prop :=
  ts_projection state' = ts_projection state ∧ ts_cursor state' = ts_cursor state
  ∧ ts_optimistic state' = ts_optimistic state ∧ ts_resetEpoch state' = ts_resetEpoch state
  ∧ (state' = state ∨ ts_phase state' = SP_stale).
Lemma untouched_invalid state message : untouched state (invalidCursorState state message).
Proof. by split_and!; [..|right]. Qed.
Lemma untouched_same state : untouched state state.
Proof. by split_and!; [..|left]. Qed.

Lemma reduce_event_cases state v event c :
  let cursor := cursorForFrame state v c in
  let state' := reduce_event state v event c in
  untouched state state'
  ∨ sc_version cursor = v ∧ ts_resetEpoch state = None
    ∧ v = default 0 (sc_version <$> ts_cursor state) + 1
    ∧ (∀ old, ts_cursor state = Some old → sc_epoch cursor = sc_epoch old)
    ∧ ∃ p, ts_projection state = Some p ∧
        state' = {| ts_projection :=
                      Some {| cp_projection := applyTimelineEvent (cp_projection p) event;
                              cp_runtimeObservation := None;
                              cp_olderMessageSequence := cp_olderMessageSequence p |};
                    ts_cursor := Some cursor; ts_resetEpoch := None;
                    ts_phase := if decide (ts_phase state = SP_live) then SP_live
                                else SP_synchronizing;
                    ts_error := None;
                    ts_optimistic := match persisted_message event with
                                     | Some id => jm_delete id (ts_optimistic state)
                                     | None => ts_optimistic state end;
                    ts_snapshotMessageCount := ts_snapshotMessageCount state |}.
Proof.
  cbv zeta. set (cursor := cursorForFrame state v c). unfold reduce_event. fold cursor.
  case_decide as Hv; [left; apply untouched_invalid|].
  destruct (ts_resetEpoch state) as [r|] eqn:Er; [left; apply untouched_invalid|].
  destruct (ts_cursor state) as [current|] eqn:Ec.
  - case_decide as He; [left; apply untouched_invalid|].
    destruct (Z.leb_spec (sc_version cursor) (sc_version current)); [left; apply untouched_same|].
    destruct (ts_projection state) as [p|] eqn:Ep; [|left; apply untouched_invalid].
    cbn. case_decide as Hx; [left; apply untouched_invalid|]. right.
    split_and!; [lia|done|lia|congruence|].
    exists p. split; [done|]. by rewrite Er.
  - destruct (ts_projection state) as [p|] eqn:Ep; [|left; apply untouched_invalid].
    cbn. case_decide as Hx; [left; apply untouched_invalid|]. right.
    split_and!; [lia|done|lia|done|]. exists p. split; [done|]. by rewrite Er.
Qed.

(** The projection a snapshot frame carries. *)
Definition snapshot_projection (f : SnapshotFrame) : ClientProjection :=
  (sf_projection f) <| cp_olderMessageSequence :=
     sf_olderMessageSequence f ?? cp_olderMessageSequence (sf_projection f) |>.
Definition snapshot_allowed (state : SessionTimelineState) (cursor : SessionStreamCursor) : Prop :=
  match ts_resetEpoch state with
  | Some epoch => sc_epoch cursor = epoch
  | None => ∀ old, ts_cursor state = Some old →
              sc_epoch cursor = sc_epoch old ∧ sc_version old <= sc_version cursor
  end.
(** What the replica holds when a snapshot is accepted. *)
Definition snapshot_accepted (state : SessionTimelineState) (f : SnapshotFrame)
    (cursor : SessionStreamCursor) : SessionTimelineState :=
  let previous := match ts_resetEpoch state with None => ts_projection state | Some _ => None end in
  let reconciled :=
    reconcileOptimisticMessages
      (preserveSessionTimelineHistory previous (ts_cursor state) (snapshot_projection f) cursor)
      (ts_optimistic state) in
  {| ts_projection := Some reconciled.1; ts_cursor := Some cursor; ts_resetEpoch := None;
     ts_phase := SP_synchronizing; ts_error := None; ts_optimistic := reconciled.2;
     ts_snapshotMessageCount := if sf_background f then None else sf_totalMessageCount f |}.

Lemma reduce_snapshot_cases state f :
  let cursor := cursorForFrame state (sf_throughVersion f) (sf_cursor f) in
  (untouched state (reduce_snapshot state f)
   ∧ (sc_version cursor = sf_throughVersion f → ¬ snapshot_allowed state cursor))
  ∨ sc_version cursor = sf_throughVersion f ∧ snapshot_allowed state cursor
    ∧ reduce_snapshot state f = snapshot_accepted state f cursor.
Proof.
  cbv zeta. set (cursor := cursorForFrame _ _ _). unfold reduce_snapshot, snapshot_accepted.
  fold cursor. fold (snapshot_projection f). cbv zeta.
  destruct (reconcileOptimisticMessages _ _) as [p o]. cbn [fst snd]. unfold snapshot_allowed.
  case_decide as Hv; [left; split; [apply untouched_invalid|done]|].
  destruct (ts_resetEpoch state) as [r|] eqn:Er.
  - case_decide as He; [left; split; [apply untouched_invalid|done]|]. by right.
  - destruct (ts_cursor state) as [current|] eqn:Ec; [|by right].
    case_decide as He.
    { left. split; [apply untouched_invalid|]. intros _ Ha. by destruct (Ha current eq_refl). }
    destruct (Z.ltb_spec (sc_version cursor) (sc_version current)).
    { left. split; [apply untouched_same|]. intros _ Ha. destruct (Ha current eq_refl). lia. }
    right. split; [done|]. split; [|done]. intros old [= <-]. split; [done|lia].
Qed.

Lemma reduce_runtime_keeps state c o :
  let state' := reduce_runtime state c o in
  ts_cursor state' = ts_cursor state ∧ ts_optimistic state' = ts_optimistic state
  ∧ ts_phase state' = ts_phase state ∧ ts_resetEpoch state' = ts_resetEpoch state
  ∧ ts_error state' = ts_error state ∧ ts_snapshotMessageCount state' = ts_snapshotMessageCount state
  ∧ cp_projection <$> ts_projection state' = cp_projection <$> ts_projection state.
Proof.
  unfold reduce_runtime. destruct (ts_projection state) as [p|] eqn:Ep; [|by rewrite Ep].
  case_decide; [by rewrite Ep|done].
Qed.
Lemma reduce_chunk_cases state v messages older c :
  let state' := reduce_chunk state v messages older c in
  untouched state state'
  ∨ (∃ p, ts_projection state = Some p) ∧ ts_cursor state = Some (cursorForFrame state v c)
    ∧ sc_version (cursorForFrame state v c) = v
    ∧ state' = prependSessionTimelineMessages state messages older.
Proof.
  unfold reduce_chunk. destruct (ts_projection state) as [p|] eqn:Ep; [|left; apply untouched_invalid].
  case_decide as Hc; [right|left; apply untouched_invalid]. destruct Hc. split_and!; try done. by exists p.
Qed.
Lemma reduce_synchronized_cases state v c :
  let state' := reduce_synchronized state v c in
  untouched state state'
  ∨ (∃ p current, ts_projection state = Some p ∧ ts_cursor state = Some current
       ∧ sc_epoch current = sc_epoch (cursorForFrame state v c) ∧ v <= sc_version current
       ∧ (∀ count, ts_snapshotMessageCount state = Some count →
            count = Z.of_nat (length (cp_messages p))))
    ∧ ts_resetEpoch state = None
    ∧ state' = state <| ts_phase := SP_live |> <| ts_error := None |>
                     <| ts_snapshotMessageCount := None |>.
Proof.
  unfold reduce_synchronized. destruct (ts_resetEpoch state) as [r|] eqn:Er;
    [left; apply untouched_invalid|].
  destruct (ts_projection state) as [p|] eqn:Ep; [|left; apply untouched_invalid].
  destruct (ts_cursor state) as [current|] eqn:Ec; [|left; apply untouched_invalid].
  case_decide as Hc; [|left; apply untouched_invalid]. destruct Hc as (He & Hle & Hv).
  destruct (ts_snapshotMessageCount state) as [count|] eqn:Em.
  - case_decide as Hn; [left; apply untouched_invalid|]. right. split; [|done].
    exists p, current. split_and!; try done; [lia|]. intros ? [= <-]. by symmetry.
  - right. split; [|done]. exists p, current. split_and!; try done. lia.
Qed.

(** No frame, honest or not, takes the cursor back: it stays, moves one event
    forward in its epoch, moves forward to a snapshot of its epoch, or enters the
    epoch that a reset announced. *)
Theorem cursor_never_goes_back state frame :
  cursor_moves state frame (ts_cursor (reduce state frame)).
Proof.
  unfold reduceSessionTimelineFrame. case_decide; [apply CM_stays|].
  destruct frame as [c o|f|v messages older c|v event c|v c|c].
  - destruct (reduce_runtime_keeps state c o) as [-> _]. apply CM_stays.
  - destruct (reduce_snapshot_cases state f) as [[(_ & -> & _) _]|(Hv & Ha & ->)]; [apply CM_stays|].
    cbn. by eapply CM_snapshot.
  - destruct (reduce_chunk_cases state v messages older c) as [(_ & -> & _)|(_ & _ & _ & ->)];
      [apply CM_stays|]. rewrite prepend_cursor. apply CM_stays.
  - destruct (reduce_event_cases state v event c) as [(_ & -> & _)|(Hv & Hr & Hx & He & p & _ & ->)];
      [apply CM_stays|]. cbn. eapply CM_event; [by rewrite Hv|done|by rewrite Hv|done].
  - destruct (reduce_synchronized_cases state v c) as [(_ & -> & _)|(_ & _ & ->)];
      exact (CM_stays _ _).
  - unfold reduce_reset. case_decide; exact (CM_stays _ _).
Qed.

(** ** [live] *)

Definition live_ok (state : SessionTimelineState) : Prop :=
  ts_phase state = SP_live →
  is_Some (ts_projection state) ∧ is_Some (ts_cursor state) ∧ ts_resetEpoch state = None
  ∧ ts_error state = None ∧ ts_snapshotMessageCount state = None.
Lemma untouched_live state state' : live_ok state → untouched state state' → live_ok state'.
Proof. intros Hl (_ & _ & _ & _ & [->|Hs]); [done|]. unfold live_ok. by rewrite Hs. Qed.
Lemma live_ok_step state frame : live_ok state → live_ok (reduce state frame).
Proof.
  intros Hl. unfold reduceSessionTimelineFrame. case_decide; [done|].
  destruct frame as [c o|f|v messages older c|v event c|v c|c].
  - destruct (reduce_runtime_keeps state c o) as (E1 & _ & E2 & E3 & E4 & E5 & E6).
    unfold live_ok. rewrite E1, E2, E3, E4, E5. intros Hp. destruct (Hl Hp) as (Hs & ?).
    split; [|done]. by rewrite <-(fmap_is_Some cp_projection), E6, fmap_is_Some.
  - destruct (reduce_snapshot_cases state f) as [[Hu _]|(_ & _ & ->)]; [by eapply untouched_live|done].
  - destruct (reduce_chunk_cases state v messages older c) as [Hu|([p Hp] & _ & _ & ->)];
      [by eapply untouched_live|].
    unfold prependSessionTimelineMessages. rewrite Hp. intros Hphase. destruct (Hl Hphase) as (_ & ?).
    split; [by eexists|done].
  - destruct (reduce_event_cases state v event c) as [Hu|(_ & _ & _ & _ & p & _ & ->)];
      [by eapply untouched_live|]. cbn. intros Hphase. cbn in Hphase.
    case_decide as Hlive; [|done]. destruct (Hl Hlive) as (_ & _ & _ & _ & ?).
    split_and!; try done; by eexists.
  - destruct (reduce_synchronized_cases state v c) as [Hu|((p & current & Hp & Hc & _) & Hr & ->)];
      [by eapply untouched_live|]. intros _. cbn. rewrite Hp, Hc. split_and!; try done; by eexists.
  - unfold reduce_reset. case_decide; [done|]. done.
Qed.

(** A replica that says it is live holds a projection and a cursor, has no reset
    or snapshot series pending and reports no error, whatever frames it received since
    it started empty or from a cache. *)
Theorem live_is_synchronized projection cursor frames :
  live_ok (foldl reduce (restoreSessionTimelineState projection cursor) frames).
Proof.
  assert (live_ok (restoreSessionTimelineState projection cursor)) as H0
    by (unfold restoreSessionTimelineState; by destruct projection, cursor).
  revert H0. generalize (restoreSessionTimelineState projection cursor). intros state Hl.
  induction frames as [|f frames IH] in state, Hl |- *; [done|]. cbn. by apply IH, live_ok_step.
Qed.

(** ** The server's history *)

(** An epoch of the server's stream is the projection it started from and the events
    since; version [v] is the fold of the first [v] of them. *)
Section server.
Variables (base : string → SessionTimelineProjection)
  (events : string → list SessionTimelineEvent).
Definition server (epoch : string) (version : Z) : SessionTimelineProjection :=
  foldl applyTimelineEvent (base epoch) (take (Z.to_nat version) (events epoch)).

Lemma server_step epoch v event :
  0 <= v → events epoch !! Z.to_nat v = Some event →
  server epoch (v + 1) = applyTimelineEvent (server epoch v) event.
Proof.
  intros Hv He. unfold server. replace (Z.to_nat (v + 1)) with (S (Z.to_nat v)) by lia.
  by rewrite (take_S_r _ _ event), foldl_snoc.
Qed.

(** A full snapshot of the server, with nothing left to page in. *)
Definition full_snapshot (f : SnapshotFrame) (cursor : SessionStreamCursor) : Prop :=
  sf_cursor f = Some cursor ∧ sf_throughVersion f = sc_version cursor ∧ 0 <= sc_version cursor
  ∧ cp_projection (sf_projection f) = server (sc_epoch cursor) (sc_version cursor)
  ∧ sf_olderMessageSequence f = None ∧ cp_olderMessageSequence (sf_projection f) = None.
(** The frames the server may ever have sent: nothing is said about their order. *)
Inductive honest : SessionTimelineFrame → Prop :=
| Honest_runtime cursor observation : honest (F_runtime cursor observation)
| Honest_snapshot f cursor : full_snapshot f cursor → honest (F_snapshot f)
| Honest_event cursor event :
    0 < sc_version cursor → events (sc_epoch cursor) !! Z.to_nat (sc_version cursor - 1) = Some event →
    honest (F_event (sc_version cursor) event (Some cursor))
| Honest_synchronized version cursor : honest (F_synchronized version cursor)
| Honest_reset cursor : honest (F_reset_required cursor).

(** The replica holds nothing, or what the server had at its cursor. *)
Definition follows (state : SessionTimelineState) : Prop :=
  ts_optimistic state = [] ∧
  match ts_projection state, ts_cursor state with
  | None, None => True
  | Some p, Some c =>
      0 <= sc_version c ∧ cp_projection p = server (sc_epoch c) (sc_version c)
  | _, _ => False
  end.
Lemma follows_cong state state' :
  follows state → ts_optimistic state' = ts_optimistic state →
  ts_cursor state' = ts_cursor state →
  cp_projection <$> ts_projection state' = cp_projection <$> ts_projection state →
  follows state'.
Proof.
  intros [Ho Hf] Eo Ec Ep. split; [congruence|]. rewrite Ec.
  destruct (ts_projection state), (ts_projection state'); try done. cbn in Ep.
  injection Ep as Ep. destruct (ts_cursor state); [|done]. by rewrite Ep.
Qed.
Lemma follows_untouched state state' : follows state → untouched state state' → follows state'.
Proof. intros Hf (Ep & Ec & Eo & _). eapply follows_cong; [done..|]. by rewrite Ep. Qed.

Lemma snapshot_follows state f cursor :
  ts_optimistic state = [] → full_snapshot f cursor →
  follows (snapshot_accepted state f cursor)
  ∧ cp_projection <$> ts_projection (snapshot_accepted state f cursor)
    = Some (server (sc_epoch cursor) (sc_version cursor)).
Proof.
  intros Ho (_ & _ & H0 & Hp & Hs & Hs').
  assert (cp_olderMessageSequence (snapshot_projection f) = None) as Hn
    by (unfold snapshot_projection; cbn; by rewrite Hs, Hs').
  unfold snapshot_accepted, preserveSessionTimelineHistory, follows. rewrite Hn, Ho. cbn.
  destruct (match ts_resetEpoch state with Some _ => _ | None => _ end); [destruct (ts_cursor state)|];
    cbn; by rewrite Hp.
Qed.

Lemma follows_step state frame : follows state → honest frame → follows (reduce state frame).
Proof.
  intros Hf Hh. unfold reduceSessionTimelineFrame. case_decide as Hdel; [done|].
  destruct Hh as [c o|f c Hs|c event Hpos He|v c|c].
  - destruct (reduce_runtime_keeps state c o) as (E1 & E2 & _ & _ & _ & _ & E3).
    by eapply follows_cong.
  - destruct (reduce_snapshot_cases state f) as [[Hu _]|(_ & _ & ->)]; [by eapply follows_untouched|].
    pose proof Hs as (-> & _). rewrite cursorForFrame_Some.
    by apply snapshot_follows; [destruct Hf|].
  - destruct (reduce_event_cases state (sc_version c) event (Some c))
      as [Hu|(_ & _ & Hv & Hep & p & Hp & ->)]; [by eapply follows_untouched|].
    destruct Hf as [Ho Hf]. rewrite Hp in Hf. destruct (ts_cursor state) as [old|] eqn:Ec; [|done].
    destruct Hf as [H0 Hf]. cbn in Hv. rewrite cursorForFrame_Some in Hep.
    specialize (Hep old eq_refl). split; cbn.
    + rewrite Ho. by destruct (persisted_message event).
    + split; [lia|]. rewrite Hf, Hv, Hep. symmetry. apply server_step; [done|].
      rewrite <-Hep. rewrite <-He. f_equal. lia.
  - destruct (reduce_synchronized_cases state v c) as [Hu|(_ & _ & ->)];
      [by eapply follows_untouched|]. by eapply follows_cong.
  - unfold reduce_reset. case_decide; [done|]. by eapply follows_cong.
Qed.

(** *** Partial snapshots, pages and local messages *)

(** Everything but the messages and the interactions derived from them: status, active
    turn, turn count, steps, queue and modes. *)
Definition apart_from_messages (p : SessionTimelineProjection) : SessionTimelineProjection :=
  p <| tp_messages := [] |> <| tp_interactions := [] |>.
Lemma apart_inj p q :
  apart_from_messages p = apart_from_messages q →
  q = p <| tp_messages := tp_messages q |> <| tp_interactions := tp_interactions q |>.
Proof. destruct p, q. intros Heq. injection Heq as. by subst. Qed.
Lemma apart_messages p messages :
  apart_from_messages (p <| tp_messages := messages |>) = apart_from_messages p.
Proof. done. Qed.
(** An event changes it in a way that does not depend on the messages. *)
Lemma apart_event p q event :
  apart_from_messages p = apart_from_messages q →
  apart_from_messages (applyTimelineEvent p event) = apart_from_messages (applyTimelineEvent q event).
Proof.
  intros ->%apart_inj. destruct event; cbn; unfold apply_message, active_is; cbn; try done;
    repeat case_match; try done; unfold apart_from_messages; cbn; congruence.
Qed.

Definition shown_ids (p : SessionTimelineProjection) : list string := ms_id <$> tp_messages p.
Lemma shown_ids_event p q event :
  shown_ids p ⊆ shown_ids q → shown_ids (applyTimelineEvent p event) ⊆ shown_ids (applyTimelineEvent q event).
Proof.
  intros Hsub. unfold shown_ids in *. destruct event; cbn; unfold active_is; repeat case_match; cbn; try done.
  - intros id. rewrite !elem_of_upsert. set_solver.
  - intros id (m & -> & [Hm Hin]%list_elem_of_filter)%list_elem_of_fmap.
    pose proof (Hsub (ms_id m) ltac:(by apply list_elem_of_fmap_2)) as Hq.
    apply list_elem_of_fmap in Hq as (m' & He & Hin'). rewrite He. apply list_elem_of_fmap_2.
    apply list_elem_of_filter. split; [by rewrite <-He|done].
Qed.

(** The frames of bounded snapshots: a part of the messages, in order, the rest as pages
    of messages the server had. *)
Definition bounded_snapshot (f : SnapshotFrame) (cursor : SessionStreamCursor) : Prop :=
  let now := server (sc_epoch cursor) (sc_version cursor) in
  sf_cursor f = Some cursor ∧ sf_throughVersion f = sc_version cursor ∧ 0 <= sc_version cursor
  ∧ apart_from_messages (cp_projection (sf_projection f)) = apart_from_messages now
  ∧ cp_messages (sf_projection f) `sublist_of` tp_messages now.
Inductive sent : SessionTimelineFrame → Prop :=
| Sent_honest frame : honest frame → sent frame
| Sent_bounded f cursor : bounded_snapshot f cursor → sent (F_snapshot f)
| Sent_page messages older cursor :
    ms_id <$> messages ⊆ shown_ids (server (sc_epoch cursor) (sc_version cursor)) →
    sent (F_snapshot_chunk (sc_version cursor) messages older (Some cursor)).

(** What happens to a replica: a frame arrives, a page the user asked for is prepended,
    or its projection is replaced by one with other messages, which the overlay observes
    (a message the user sends). *)
Inductive evolves (state : SessionTimelineState) : SessionTimelineState → Prop :=
| Ev_frame frame : sent frame → evolves state (reduce state frame)
| Ev_page messages older : evolves state (prependSessionTimelineMessages state messages older)
| Ev_observed same p messages older back :
    ts_projection state = Some p →
    evolves state (observeOptimisticTimelineProjection same state
                     (with_messages messages p <| cp_olderMessageSequence := older |>) back).

(** The replica holds nothing, or the server's projection but for the messages. *)
Definition tracks (state : SessionTimelineState) : Prop :=
  match ts_projection state, ts_cursor state with
  | None, None => True
  | Some p, Some c =>
      0 <= sc_version c
      ∧ apart_from_messages (cp_projection p) = apart_from_messages (server (sc_epoch c) (sc_version c))
  | _, _ => False
  end.
(** Without local messages: it shows no message the server does not have. *)
Definition shows_no_other (state : SessionTimelineState) : Prop :=
  ts_optimistic state = []
  ∧ ∀ p c, ts_projection state = Some p → ts_cursor state = Some c →
      shown_ids (cp_projection p) ⊆ shown_ids (server (sc_epoch c) (sc_version c)).

Lemma tracks_cong state state' :
  tracks state → ts_cursor state' = ts_cursor state →
  (apart_from_messages ∘ cp_projection) <$> ts_projection state'
  = (apart_from_messages ∘ cp_projection) <$> ts_projection state →
  tracks state'.
Proof.
  unfold tracks. intros Hf -> Ep.
  destruct (ts_projection state), (ts_projection state'); try done.
  apply (inj Some) in Ep. unfold compose in Ep. destruct (ts_cursor state); [|done]. by rewrite Ep.
Qed.
Lemma tracks_untouched state state' : tracks state → untouched state state' → tracks state'.
Proof. intros Hf (Ep & Ec & _). eapply tracks_cong; [done..|]. by rewrite Ep. Qed.
Lemma tracks_page state messages older :
  tracks state → tracks (prependSessionTimelineMessages state messages older).
Proof.
  intros Hf. eapply tracks_cong; [done|apply prepend_cursor|].
  unfold prependSessionTimelineMessages. destruct (ts_projection state) as [p|] eqn:Ep; [|by rewrite Ep].
  cbn. rewrite ?Ep. by destruct messages.
Qed.
Lemma reconcile_apart p optimistic :
  apart_from_messages (cp_projection (reconcileOptimisticMessages p optimistic).1)
  = apart_from_messages (cp_projection p).
Proof. unfold reconcileOptimisticMessages. cbn [fst]. by destruct (filter _ _). Qed.
Lemma preserve_apart previous current next cursor :
  apart_from_messages (cp_projection (preserveSessionTimelineHistory previous current next cursor))
  = apart_from_messages (cp_projection next).
Proof.
  unfold preserveSessionTimelineHistory. destruct previous, current, (cp_olderMessageSequence next); try done.
  case_decide; [|done]. destruct (head (cp_messages next)); [|done]. by destruct (message_index _ _) as [[]|].
Qed.

(** Whole snapshots are bounded ones. *)
Lemma full_is_bounded f cursor : full_snapshot f cursor → bounded_snapshot f cursor.
Proof. intros (? & ? & ? & Hp & _). unfold bounded_snapshot, cp_messages. by rewrite Hp. Qed.

Lemma tracks_frame state frame : tracks state → sent frame → tracks (reduce state frame).
Proof.
  intros Hf Hs. unfold reduceSessionTimelineFrame. case_decide as Hdel; [done|].
  assert (∀ f cursor, bounded_snapshot f cursor → tracks (reduce_snapshot state f)) as Hsnap.
  { intros f cursor (Hc & _ & H0 & Hp & _).
    destruct (reduce_snapshot_cases state f) as [[Hu _]|(_ & _ & ->)]; [by eapply tracks_untouched|].
    rewrite Hc, cursorForFrame_Some. unfold tracks, snapshot_accepted. cbn [ts_projection ts_cursor].
    split; [done|]. rewrite reconcile_apart, preserve_apart. exact Hp. }
  destruct Hs as [frame Hh|f cursor Hb|messages older cursor _]; [|by eapply Hsnap|].
  - destruct Hh as [c o|f c Hfull|c event Hpos He|v c|c].
    + destruct (reduce_runtime_keeps state c o) as (E1 & _ & _ & _ & _ & _ & E3).
      eapply tracks_cong; [done..|]. by rewrite !option_fmap_compose, E3.
    + by eapply Hsnap, full_is_bounded.
    + destruct (reduce_event_cases state (sc_version c) event (Some c))
        as [Hu|(_ & _ & Hv & Hep & p & Hp & ->)]; [by eapply tracks_untouched|].
      unfold tracks in *. rewrite Hp in Hf. destruct (ts_cursor state) as [old|] eqn:Ec; [|done].
      destruct Hf as [H0 Hf]. cbn in Hv |- *. rewrite cursorForFrame_Some in Hep.
      specialize (Hep old eq_refl). split; [lia|]. rewrite Hv, Hep, (server_step _ _ event); [|done|].
      * by apply apart_event.
      * rewrite <-Hep, <-He. f_equal. lia.
    + destruct (reduce_synchronized_cases state v c) as [Hu|(_ & _ & ->)];
        [by eapply tracks_untouched|by eapply tracks_cong].
    + unfold reduce_reset. case_decide; [done|by eapply tracks_cong].
  - destruct (reduce_chunk_cases state (sc_version cursor) messages older (Some cursor))
      as [Hu|(_ & _ & _ & ->)]; [by eapply tracks_untouched|by apply tracks_page].
Qed.
Lemma tracks_evolves state state' : tracks state → evolves state state' → tracks state'.
Proof.
  intros Hf [frame Hs|messages older|same p messages older back Hp];
    [by apply tracks_frame|by apply tracks_page|].
  eapply tracks_cong; [done..|]. cbn. by rewrite Hp.
Qed.

Lemma preserve_ids previous current next cursor :
  shown_ids (cp_projection (preserveSessionTimelineHistory previous current next cursor))
  ⊆ shown_ids (cp_projection next)
    ++ match previous with
       | Some p => if decide (current = Some cursor) then shown_ids (cp_projection p) else []
       | None => [] end.
Proof.
  unfold preserveSessionTimelineHistory, cp_messages, shown_ids.
  destruct previous as [p|], current as [c|], (cp_olderMessageSequence next); try set_solver.
  case_decide; [|set_solver]. subst c. rewrite (decide_True (P := Some cursor = Some cursor)) by done.
  repeat case_match; try set_solver. cbn. rewrite fmap_app, fmap_take. intros id.
  rewrite !elem_of_app. intros [Hid|?]; [right|by left]; by eapply elem_of_sublist, sublist_take.
Qed.

Lemma no_other_cong state state' :
  shows_no_other state → ts_optimistic state' = ts_optimistic state →
  ts_cursor state' = ts_cursor state →
  cp_projection <$> ts_projection state' = cp_projection <$> ts_projection state →
  shows_no_other state'.
Proof.
  intros [Ho Hf] Eo Ec Ep. split; [congruence|]. intros p c Hp Hc. rewrite Ec in Hc. rewrite Hp in Ep.
  destruct (ts_projection state) as [p'|]; [|done]. cbn in Ep. injection Ep as ->. by apply Hf.
Qed.
Lemma no_other_untouched state state' : shows_no_other state → untouched state state' → shows_no_other state'.
Proof. intros Hf (Ep & Ec & Eo & _). eapply no_other_cong; [done..|]. by rewrite Ep. Qed.
Lemma no_other_frame state frame :
  tracks state → shows_no_other state → sent frame → shows_no_other (reduce state frame).
Proof.
  intros Ht Hf Hs. unfold reduceSessionTimelineFrame. case_decide as Hdel; [done|].
  assert (∀ f cursor, bounded_snapshot f cursor → shows_no_other (reduce_snapshot state f)) as Hsnap.
  { intros f cursor (Hc & _ & H0 & _ & Hm).
    destruct (reduce_snapshot_cases state f) as [[Hu _]|(_ & _ & ->)]; [by eapply no_other_untouched|].
    rewrite Hc, cursorForFrame_Some. destruct Hf as [Ho Hf]. unfold shows_no_other, snapshot_accepted.
    rewrite Ho. cbn. split; [done|]. intros p c [= <-] [= <-]. etrans; [apply preserve_ids|].
    apply list_subseteq_app_iff_l. split.
    - unfold shown_ids. cbn. intros id Hid. eapply elem_of_sublist; [exact Hid|by apply fmap_sublist].
    - destruct (ts_resetEpoch state); [apply list_subseteq_nil|].
      destruct (ts_projection state) as [p|]; [|apply list_subseteq_nil].
      case_decide as Hcur; [by apply Hf|apply list_subseteq_nil]. }
  destruct Hs as [frame Hh|f cursor Hb|messages older cursor Hpage]; [|by eapply Hsnap|].
  - destruct Hh as [c o|f c Hfull|c event Hpos He|v c|c].
    + destruct (reduce_runtime_keeps state c o) as (E1 & E2 & _ & _ & _ & _ & E3).
      by eapply no_other_cong.
    + by eapply Hsnap, full_is_bounded.
    + destruct (reduce_event_cases state (sc_version c) event (Some c))
        as [Hu|(_ & _ & Hv & Hep & p & Hp & ->)]; [by eapply no_other_untouched|].
      destruct Hf as [Ho Hf]. split; cbn; [rewrite Ho; by destruct (persisted_message event)|].
      intros p' c' [= <-] [= <-]. unfold tracks in Ht. rewrite Hp in Ht.
      destruct (ts_cursor state) as [old|] eqn:Ec; [|done]. destruct Ht as [H0 _]. cbn in Hv |- *.
      rewrite cursorForFrame_Some in Hep. specialize (Hep old eq_refl).
      rewrite Hv, Hep, (server_step _ _ event); [|done|].
      * by apply shown_ids_event, Hf.
      * rewrite <-Hep, <-He. f_equal. lia.
    + destruct (reduce_synchronized_cases state v c) as [Hu|(_ & _ & ->)];
        [by eapply no_other_untouched|by eapply no_other_cong].
    + unfold reduce_reset. case_decide; [done|by eapply no_other_cong].
  - destruct (reduce_chunk_cases state (sc_version cursor) messages older (Some cursor))
      as [Hu|([p Hp] & Hcur & _ & ->)]; [by eapply no_other_untouched|].
    rewrite cursorForFrame_Some in Hcur. destruct Hf as [Ho Hf]. unfold prependSessionTimelineMessages. rewrite Hp.
    split; [done|]. cbn. intros p' c [= <-] Hc. assert (c = cursor) as -> by congruence.
    specialize (Hf p cursor Hp Hcur). destruct messages as [|m messages]; [done|].
    unfold shown_ids. cbn -[foldl app]. etrans; [apply page_ids|]. by apply list_subseteq_app_iff_l.
Qed.

End server.
End client.

(** ** A concrete stream *)

Module client_demo.
#[export] Instance by_length : Collation := λ a b, (String.length a <=? String.length b)%nat.
Definition base (_ : string) : SessionTimelineProjection := emptyTimelineProjection.
Definition events (_ : string) : list SessionTimelineEvent :=
  [TE_StatusSet SS_running; TE_QueuePausedSet true; TE_StatusSet SS_idle].
Definition at_ (version : Z) : SessionStreamCursor := {| sc_epoch := "e"; sc_version := version |}.
Definition snapshot : SnapshotFrame :=
  {| sf_throughVersion := 1;
     sf_projection := {| cp_projection := server base events "e" 1; cp_runtimeObservation := None;
                         cp_olderMessageSequence := None |};
     sf_cursor := Some (at_ 1); sf_olderMessageSequence := None; sf_totalMessageCount := Some 0;
     sf_background := false |}.
(** A gap, a repetition and an event in time. *)
Definition frames : list SessionTimelineFrame :=
  [F_snapshot snapshot; F_event 3 (TE_StatusSet SS_idle) (Some (at_ 3));
   F_event 2 (TE_QueuePausedSet true) (Some (at_ 2)); F_snapshot snapshot;
   F_event 2 (TE_QueuePausedSet true) (Some (at_ 2));
   F_event 3 (TE_StatusSet SS_idle) (Some (at_ 3))].
Definition replica : SessionTimelineState :=
  foldl reduceSessionTimelineFrame (restoreSessionTimelineState None None) frames.

(** The same stream with two messages: a snapshot that holds the last one, the page with
    the other, and an event; the user asks for the page once more. *)
Definition said (id : string) : Message :=
  {| ms_id := id; ms_sessionId := "s1"; ms_role := MR_user; ms_content := MC_user id (JStr "");
     ms_createdAt := 5 |}.
Definition talk (_ : string) : list SessionTimelineEvent :=
  [TE_MessagePersisted None (said "a"); TE_MessagePersisted None (said "b"); TE_StatusSet SS_idle].
Definition bounded : SnapshotFrame :=
  {| sf_throughVersion := 2;
     sf_projection := {| cp_projection := (server base talk "e" 2) <| tp_messages := [said "b"] |>;
                         cp_runtimeObservation := None; cp_olderMessageSequence := Some 2 |};
     sf_cursor := Some (at_ 2); sf_olderMessageSequence := Some 2; sf_totalMessageCount := Some 2;
     sf_background := false |}.
Definition bounded_frames : list SessionTimelineFrame :=
  [F_snapshot bounded; F_snapshot_chunk 2 [said "a"] None (Some (at_ 2));
   F_event 3 (TE_StatusSet SS_idle) (Some (at_ 3))].
Definition assembled_replica : SessionTimelineState :=
  foldl reduceSessionTimelineFrame (restoreSessionTimelineState None None) bounded_frames.

End client_demo.
