(* ===== verification/SessionStream.v ===== *)
(** * The stream a client subscribes to

    The server's side of [ClientTimeline]: the pages of messages and the bounded
    snapshot of packages/domain/src/queries (sql-session-queries.ts,
    session-timeline-snapshot.ts), [synchronizedEvents] of engine/session-domain.ts
    and the [session.events] handler of apps/server/src/provider/handlers.ts; and the
    subscription that the client's driver opens (session-timeline-driver.ts).

    A stream is the list of its records and whether it is still open: [false] is a
    stream that failed after them. *)
From S2P Require Import Prelude Js JsMap Contracts SessionTypes SessionState Dispatch SessionDomain Timeline ClientTimeline.

Local Open Scope Z_scope.

(** ** Reading the tables *)

(** A row of the messages table; [created_at] is its time value. *)
Record MessageRow := {
  mw_id : string;
  mw_session_id : string;
  mw_role : string;
  mw_content_json : string;
  mw_created_at : Z;
  mw_sequence : Z }.

Definition LATEST_TIMELINE_MESSAGE_LIMIT : nat := 100.
Definition MAX_TIMELINE_SNAPSHOT_PROJECTION_BYTES : Z := 900 * 1024.

(** [ORDER BY sequence DESC]. *)
Definition newer_first (a b : MessageRow) : bool := mw_sequence b <=? mw_sequence a.
Definition session_rows (sessionId : string) (table : list MessageRow) : list MessageRow :=
  filter (λ row, mw_session_id row = sessionId) table.

(** The rows of a page, oldest first, and its [olderSequence]. *)
Definition messagePage (table : list MessageRow) (sessionId : string)
    (beforeSequence : option Z) (limit : nat) : list MessageRow * option Z :=
  let before := default MAX_SAFE_INTEGER beforeSequence in
  let records :=
    take (limit + 1)
      (sort_by newer_first (filter (λ row, mw_sequence row < before) (session_rows sessionId table))) in
  let items := reverse (take limit records) in
  (items, if decide (limit < length records)%nat then mw_sequence <$> head items else None).

Section page.
Context `{ContentCodec}.

Definition decode_message (sessionId : string) (record : MessageRow) : option Message :=
  match decodeMessageContent (mw_content_json record), decodeRole (mw_role record) with
  | Some content, Some role =>
      Some {| ms_id := mw_id record; ms_sessionId := sessionId; ms_role := role;
              ms_content := content; ms_createdAt := mw_created_at record |}
  | _, _ => None
  end.

(** Rows that do not decode are left out. *)
Definition readSessionTimelineMessagePage (table : list MessageRow) (sessionId : string)
    (beforeSequence : option Z) (limit : nat) : list (Message * Z) * option Z :=
  let '(items, older) := messagePage table sessionId beforeSequence limit in
  (omap (λ record, (λ m, (m, mw_sequence record)) <$> decode_message sessionId record) items, older).
End page.

Record SessionTimelineSnapshot := {
  sn_projection : ClientProjection;
  sn_olderMessageSequence : option Z;
  sn_totalMessageCount : Z }.

(** Why a snapshot cannot be read: the session is gone, or the defect. *)
Inductive SnapshotFailure : Type := SnapshotNotFound | SnapshotTooLarge.

Section snapshot.
Context `{ContentCodec}.
(** The bytes of the projection as JSON. *)
Variable projectionBytes : SessionTimelineProjection → Z.

(** The first budget loop: it omits the oldest messages and moves the page cursor. *)
Fixpoint omit_messages (p : SessionTimelineProjection) (messages : list (Message * Z))
    (cursor : option Z) : list (Message * Z) * option Z :=
  match messages with
  | [] => ([], cursor)
  | omitted :: rest =>
      if MAX_TIMELINE_SNAPSHOT_PROJECTION_BYTES
         <? projectionBytes (p <| tp_messages := messages.*1 |>)
      then omit_messages p rest
             (Some match rest with next :: _ => snd next | [] => snd omitted + 1 end)
      else (messages, cursor)
  end.

(** The second one pops execution steps, given in reverse. *)
Fixpoint pop_steps (p : SessionTimelineProjection) (reversed : list SessionExecutionStep)
    (truncated : bool) : SessionTimelineProjection :=
  let p' := p <| tp_executionSteps := reverse reversed |> <| tp_executionStepsTruncated := truncated |> in
  match reversed with
  | [] => p'
  | _ :: rest =>
      if MAX_TIMELINE_SNAPSHOT_PROJECTION_BYTES <? projectionBytes p'
      then pop_steps p rest true else p'
  end.

(** [head] is what the other tables say of the session: its status and modes, its
    active turn, its queue and interactions, and up to 201 rows of its steps. *)
Definition readSessionTimelineSnapshot (head : option SessionTimelineProjection)
    (table : list MessageRow) (sessionId : string) : result SessionTimelineSnapshot SnapshotFailure :=
  match head with
  | None => Failure SnapshotNotFound
  | Some head =>
      let '(items, older) :=
        readSessionTimelineMessagePage table sessionId None LATEST_TIMELINE_MESSAGE_LIMIT in
      let rows := tp_executionSteps head in
      let p := head <| tp_executionSteps := take 200 rows |>
                    <| tp_executionStepsTruncated := bool_decide (200 < length rows)%nat |> in
      let '(messages, cursor) := omit_messages p items older in
      let p := p <| tp_messages := messages.*1 |> in
      let p := pop_steps p (reverse (tp_executionSteps p)) (tp_executionStepsTruncated p) in
      if MAX_TIMELINE_SNAPSHOT_PROJECTION_BYTES <? projectionBytes p then Failure SnapshotTooLarge
      else
        Success
          {| sn_projection := {| cp_projection := p; cp_runtimeObservation := None;
                                 cp_olderMessageSequence := cursor |};
             sn_olderMessageSequence := cursor;
             sn_totalMessageCount := Z.of_nat (length (session_rows sessionId table)) |}
  end.
End snapshot.

(** ** [synchronizedEvents] *)

Inductive SessionSynchronizationRecord : Type :=
| SR_snapshot (streamEpoch : string) (throughVersion : Z) (snapshot : SessionTimelineSnapshot)
    (background : bool)
| SR_snapshot_chunk (streamEpoch : string) (throughVersion : Z) (messages : list Message)
    (olderMessageSequence : option Z)
| SR_event (streamEpoch : string) (record : StoredEvent SessionEvent)
| SR_synchronized (streamEpoch : string) (throughVersion : Z)
| SR_reset_required (streamEpoch : string) (throughVersion : Z).

(** What the client asks for ([session.events]). *)
Record SyncInput := {
  sy_afterVersion : option Z;
  sy_streamEpoch : option string;
  sy_hasProjection : bool;
  sy_background : bool }.

Section synchronize.
Context `{ContentCodec} {S} `{DispatchStorage S SessionEvent}.
Context (projectionBytes : SessionTimelineProjection → Z)
  (** The bytes of an event's record as JSON. *)
  (recordBytes : StoredEvent SessionEvent → Z)
  (streamEpoch : string) (maxDeltaEvents maxDeltaBytes : Z).

(** The tables a read transaction sees. *)
Record SessionTables := {
  tb_store : S;
  tb_head : option SessionTimelineProjection;
  tb_messages : list MessageRow }.

(** [COALESCE(MAX(stream_version), 0)]. *)
Definition currentStreamVersion (streamId : string) (s : S) : Z :=
  foldr Z.max 0 (se_streamVersion <$> ds_events streamId s).

(** The transaction: the records before the history, the version they reach, and
    where the history continues. *)
Definition capture (streamId : string) (input : SyncInput) (t : SessionTables)
  : result (list SessionSynchronizationRecord * Z * option Z) SnapshotFailure :=
  let throughVersion := currentStreamVersion streamId (tb_store t) in
  let retainedVersion := default 0 (sy_afterVersion input) in
  let epochMismatch :=
    match sy_streamEpoch input with Some e => bool_decide (e ≠ streamEpoch) | None => false end in
  let stale := negb (sy_hasProjection input)
    || (match sy_afterVersion input with None => true | Some _ => false end)
    || epochMismatch || (throughVersion <? retainedVersion)
    || (maxDeltaEvents <? throughVersion - retainedVersion) in
  let captured :=
    if stale then []
    else eventsInVersionRange streamId retainedVersion throughVersion (tb_store t) in
  let needsSnapshot :=
    stale || (maxDeltaBytes <? foldr Z.add 0 (recordBytes <$> captured)) in
  let reset :=
    if epochMismatch || (throughVersion <? retainedVersion)
    then [SR_reset_required streamEpoch throughVersion] else [] in
  if needsSnapshot then
    snapshot ←! readSessionTimelineSnapshot projectionBytes (tb_head t) (tb_messages t) streamId;
    Success (reset ++ [SR_snapshot streamEpoch throughVersion snapshot (sy_background input)],
             throughVersion, sn_olderMessageSequence snapshot)
  else
    Success (reset ++ (SR_event streamEpoch <$>
               filter (λ record, retainedVersion < se_streamVersion record) captured),
             throughVersion, None).

(** [Stream.paginate]: page [i] is read from the table [pages i]. *)
Fixpoint history (fuel : nat) (streamId : string) (throughVersion : Z)
    (pages : nat → list MessageRow) (before : Z) : list SessionSynchronizationRecord * bool :=
  match fuel with
  | O => ([], false)
  | Datatypes.S fuel =>
      let '(items, older) :=
        readSessionTimelineMessagePage (pages O) streamId (Some before)
          LATEST_TIMELINE_MESSAGE_LIMIT in
      let record := SR_snapshot_chunk streamEpoch throughVersion (items.*1) older in
      match older with
      | None => ([record], true)
      | Some older =>
          if before <=? older then ([], false)
          else
            let '(records, ok) :=
              history fuel streamId throughVersion (λ i, pages (Datatypes.S i)) older in
            (record :: records, ok)
      end
  end.

(** The live part: the notifications of the durable hub, of every stream. *)
Fixpoint tail_events (streamId : string) (liveVersion : Z)
    (notifications : list (StoredEvent SessionEvent))
  : list SessionSynchronizationRecord * bool :=
  match notifications with
  | [] => ([], true)
  | record :: rest =>
      if decide (se_streamId record ≠ streamId) then tail_events streamId liveVersion rest
      else if se_streamVersion record <=? liveVersion then tail_events streamId liveVersion rest
      else if decide (se_streamVersion record ≠ liveVersion + 1) then ([], false)
      else
        let '(records, ok) := tail_events streamId (se_streamVersion record) rest in
        (SR_event streamEpoch record :: records, ok)
  end.

Definition synchronizedEvents (fuel : nat) (streamId : string) (input : SyncInput)
    (t : SessionTables) (pages : nat → list MessageRow)
    (notifications : list (StoredEvent SessionEvent))
  : list SessionSynchronizationRecord * bool :=
  match capture streamId input t with
  | Failure _ => ([], false)
  | Success (prefix, throughVersion, historyCursor) =>
      let '(chunks, ok) :=
        match historyCursor, sy_background input with
        | Some before, false => history fuel streamId throughVersion pages before
        | _, _ => ([], true)
        end in
      if ok then
        let '(tail, ok) := tail_events streamId throughVersion notifications in
        (prefix ++ chunks ++ SR_synchronized streamEpoch throughVersion :: tail, ok)
      else (prefix ++ chunks, false)
  end.
End synchronize.
Arguments SessionTables : clear implicits.
Arguments Build_SessionTables {S}.
Arguments tb_store {S}.
Arguments tb_head {S}.
Arguments tb_messages {S}.

(** ** The durable hub *)

(** The publisher's cursor, and what one subscriber has received since it subscribed. *)
Record Hub := { hb_cursor : Z; hb_received : list (StoredEvent SessionEvent) }.

Definition publish (h : Hub) (record : StoredEvent SessionEvent) : Hub :=
  {| hb_cursor := se_sequence record; hb_received := hb_received h ++ [record] |}.
(** One pass over the log as it is then; there is a subscriber. *)
Definition reconcileDurableEvents (log : list (StoredEvent SessionEvent)) (h : Hub) : Hub :=
  foldl publish h (filter (λ record, hb_cursor h < se_sequence record) log).

(** The filter of [events] and [allEvents], with its cursor. *)
Section after.
Context (wanted : StoredEvent SessionEvent → Prop) `{∀ record, Decision (wanted record)}.
Fixpoint after_cursor (cursor : Z) (records : list (StoredEvent SessionEvent))
  : list (StoredEvent SessionEvent) :=
  match records with
  | [] => []
  | record :: rest =>
      if decide (¬ wanted record ∨ se_sequence record ≤ cursor) then after_cursor cursor rest
      else record :: after_cursor (se_sequence record) rest
  end.
(** [replayed] is the log when the replay was read. *)
Definition stream_after (afterSequence : Z) (replayed notifications : list (StoredEvent SessionEvent))
  : list (StoredEvent SessionEvent) :=
  after_cursor afterSequence
    (filter (λ record, wanted record ∧ afterSequence < se_sequence record) replayed
     ++ notifications).
End after.
Definition events (streamId : string) : Z → list (StoredEvent SessionEvent) → list (StoredEvent SessionEvent) → list (StoredEvent SessionEvent) :=
  stream_after (λ record, se_streamId record = streamId).
Definition allEvents : Z → list (StoredEvent SessionEvent) → list (StoredEvent SessionEvent) → list (StoredEvent SessionEvent) :=
  stream_after (λ _, True).

(** ** The handler *)

Section handler.
Context `{ContentCodec} `{TimelineCodec}.

Definition timeline_frame (sessionId : string) (frame : SessionSynchronizationRecord)
  : SessionTimelineFrame :=
  match frame with
  | SR_reset_required streamEpoch throughVersion =>
      F_reset_required {| sc_epoch := streamEpoch; sc_version := throughVersion |}
  | SR_snapshot streamEpoch throughVersion snapshot background =>
      F_snapshot
        {| sf_throughVersion := throughVersion;
           sf_projection := sn_projection snapshot;
           sf_cursor := Some {| sc_epoch := streamEpoch; sc_version := throughVersion |};
           sf_olderMessageSequence := sn_olderMessageSequence snapshot;
           sf_totalMessageCount := Some (sn_totalMessageCount snapshot);
           sf_background := background |}
  | SR_snapshot_chunk streamEpoch throughVersion messages olderMessageSequence =>
      F_snapshot_chunk throughVersion messages olderMessageSequence
        (Some {| sc_epoch := streamEpoch; sc_version := throughVersion |})
  | SR_synchronized streamEpoch throughVersion =>
      F_synchronized throughVersion
        (Some {| sc_epoch := streamEpoch; sc_version := throughVersion |})
  | SR_event streamEpoch record =>
      F_event (se_streamVersion record) (timelineEventFromDomain sessionId (se_event record))
        (Some {| sc_epoch := streamEpoch; sc_version := se_streamVersion record |})
  end.
End handler.

(** ** The subscription *)

Definition cachedTurnMayBeStale (background : bool) (state : SessionTimelineState) : bool :=
  negb background &&
  match ts_projection state with
  | Some p =>
      bool_decide (tp_activeTurn (cp_projection p) ≠ None
                   ∨ tp_status (cp_projection p) = SS_running
                   ∨ tp_status (cp_projection p) = SS_booting)
  | None => false
  end.
(** The arguments of [session.events] for a replica that starts in [state]. *)
Definition subscription (background : bool) (state : SessionTimelineState) : SyncInput :=
  {| sy_afterVersion := sc_version <$> ts_cursor state;
     sy_streamEpoch := sc_epoch <$> ts_cursor state;
     sy_hasProjection :=
       match ts_projection state with
       | Some p => match cp_olderMessageSequence p with None => true | Some _ => false end
       | None => false
       end && negb (cachedTurnMayBeStale background state);
     sy_background := background |}.
