(* ===== verification/SessionStreamProps.v ===== *)
(** * A subscription brings its client up to date

    The pages and the bounded snapshot cut the messages of a session without losing
    or repeating one, the client assembles them again, and whatever it held before,
    it ends live with the server's projection at the server's version. *)
From Stdlib Require Import Sorted.
From S2P Require Import Prelude Js JsMap Contracts SessionTypes SessionState Dispatch SessionDomain Timeline ClientTimeline ClientTimelineProps SessionStream.

Local Open Scope Z_scope.

(** ** Pages *)

Section pages.
Implicit Types rows : list MessageRow.
Definition by_sequence rows : Prop := StronglySorted (λ a b, mw_sequence a < mw_sequence b) rows.

Lemma by_sequence_lookup rows i j a b :
  by_sequence rows → rows !! i = Some a → rows !! j = Some b → (i < j)%nat →
  mw_sequence a < mw_sequence b.
Proof.
  intros Hs. revert i j. induction Hs as [|x rows Hs IH Hx]; [done|].
  intros [|i] [|j] Ha Hb Hij; try lia; cbn in *.
  - injection Ha as <-. by eapply Forall_lookup_1 in Hx.
  - eapply IH; [done..|lia].
Qed.
Lemma by_sequence_take rows n : by_sequence rows → by_sequence (take n rows).
Proof.
  intros Hs. revert n. induction Hs as [|x rows Hs IH Hx]; intros [|n]; cbn; try constructor.
  - apply IH.
  - by apply Forall_take.
Qed.

Lemma insert_newest rows x :
  Forall (λ y, mw_sequence x < mw_sequence y) rows → insert_sorted newer_first x rows = rows ++ [x].
Proof.
  induction 1 as [|y rows Hy _ IH]; [done|]. cbn. unfold newer_first at 1.
  destruct (Z.leb_spec (mw_sequence y) (mw_sequence x)); [lia|]. by rewrite IH.
Qed.
Lemma sort_newer_first rows : by_sequence rows → sort_by newer_first rows = reverse rows.
Proof.
  induction 1 as [|x rows Hs IH Hx]; [done|].
  change (insert_sorted newer_first x (sort_by newer_first rows) = reverse (x :: rows)).
  rewrite IH, reverse_cons. apply insert_newest. by apply Forall_reverse.
Qed.

(** The rows before the one at [k], and before what follows it. *)
Lemma rows_before rows k row c :
  by_sequence rows → rows !! k = Some row → c = mw_sequence row →
  filter (λ r, mw_sequence r < c) rows = take k rows.
Proof.
  intros Hs Hk ->. rewrite <-(take_drop k rows) at 1. rewrite filter_app.
  rewrite (list_filter_all_lookup _ (take k rows)), (filter_none _ (drop k rows)).
  - by rewrite app_nil_r.
  - intros r (i & Hi)%list_elem_of_lookup. rewrite lookup_drop in Hi.
    destruct i as [|i]; [rewrite Nat.add_0_r, Hk in Hi; injection Hi as <-; lia|].
    eapply by_sequence_lookup in Hi; [|done|exact Hk|]; lia.
  - intros i r (Hi & Hlt)%lookup_take_Some. by eapply by_sequence_lookup.
Qed.
End pages.

(** [Forall2]-related lists cut alike. *)
Lemma omap_Forall2 {A B} (f : A → option B) l k :
  Forall2 (λ a b, f a = Some b) l k → omap f l = k.
Proof. induction 1 as [|a b l k Hab _ IH]; [done|]. cbn. by rewrite Hab, IH. Qed.

Lemma filter_ext_elem {A} (P Q : A → Prop) `{∀ x, Decision (P x)} `{∀ x, Decision (Q x)} (l : list A) :
  (∀ x, x ∈ l → P x ↔ Q x) → filter P l = filter Q l.
Proof.
  induction l as [|x l IH]; intros Hpq; [done|]. rewrite !filter_cons.
  rewrite IH by (intros y Hy; apply Hpq; by right). specialize (Hpq x (list_elem_of_here _ _)).
  repeat case_decide; tauto.
Qed.

Section session.
Context `{ContentCodec} (sessionId : string) (table : list MessageRow) (msgs : list Message).
Notation rows := (session_rows sessionId table).

(** The rows of the session are in sequence order, and decode to [msgs]. *)
Record rows_show : Prop := {
  rs_sorted : by_sequence rows;
  rs_safe : Forall (λ r, mw_sequence r < MAX_SAFE_INTEGER) rows;
  rs_decode : Forall2 (λ r m, decode_message sessionId r = Some m) rows msgs;
  (** [id] is the primary key. *)
  rs_ids : NoDup (mw_id <$> rows) }.
Context (Hrows : rows_show).

Lemma rows_length : length rows = length msgs.
Proof using Hrows. eapply Forall2_length, rs_decode, Hrows. Qed.
Lemma messages_ids : NoDup (ms_id <$> msgs).
Proof using Hrows.
  destruct Hrows as [_ _ Hd Hn]. enough (ms_id <$> msgs = mw_id <$> rows) as -> by done.
  clear Hn Hrows. induction Hd as [|r m rows' msgs' Hr _ IH]; [done|]. cbn. rewrite IH. f_equal.
  unfold decode_message in Hr. repeat case_match; by simplify_eq.
Qed.

(** A cursor of older messages that has the first [k] messages below it. *)
Definition older_than (k : nat) (cursor : option Z) : Prop :=
  match cursor with
  | None => k = 0%nat
  | Some c => (0 < k)%nat ∧ filter (λ r, mw_sequence r < c) rows = take k rows
  end.
Lemma older_than_lookup k row :
  (0 < k)%nat → rows !! k = Some row → older_than k (Some (mw_sequence row)).
Proof using Hrows. intros Hk Hr. split; [done|]. eapply rows_before; [apply Hrows|done..]. Qed.

(** A page of a table that still has the first [j] rows below the cursor. *)
Lemma page_of_prefix table' before limit j :
  filter (λ r, mw_sequence r < default MAX_SAFE_INTEGER before) (session_rows sessionId table')
    = take j rows →
  (j ≤ length rows)%nat → (0 < limit)%nat →
  let i := (j - limit)%nat in
  ∃ cursor, older_than i cursor
    ∧ (∀ c, cursor = Some c → ∃ row, rows !! i = Some row ∧ c = mw_sequence row)
    ∧ messagePage table' sessionId before limit = (drop i (take j rows), cursor).
Proof using Hrows.
  intros Hp Hj Hl i. unfold messagePage. cbv zeta. rewrite Hp, sort_newer_first
    by apply by_sequence_take, Hrows.
  rewrite take_take, Nat.min_l by lia.
  assert (reverse (take limit (reverse (take j rows))) = drop i (take j rows)) as ->.
  { rewrite take_reverse, reverse_involutive, length_take, Nat.min_l by done. done. }
  assert (length (take (limit + 1) (reverse (take j rows))) = (limit + 1) `min` j)%nat as ->
    by (rewrite length_take, length_reverse, length_take; lia).
  eexists. split; [|split; [|done]].
  - case_decide as Hd; [|subst i; cbn; lia].
    assert (i < j)%nat as Hij by lia.
    destruct (lookup_lt_is_Some_2 rows i ltac:(lia)) as [row Hrow].
    assert (drop i (take j rows) !! 0%nat = Some row) as Hh
      by (rewrite lookup_drop, Nat.add_0_r; by rewrite lookup_take_lt).
    rewrite <-head_lookup in Hh. rewrite Hh. cbn. apply older_than_lookup; [lia|done].
  - intros c. case_decide as Hd; [|done]. rewrite head_lookup, lookup_drop, Nat.add_0_r.
    rewrite lookup_take_lt by lia. intros (row & Hr & ->)%fmap_Some. by exists row.
Qed.

(** The decoded page. *)
Notation items := (zip msgs (mw_sequence <$> rows)).
Lemma read_page_of_prefix table' before limit j :
  filter (λ r, mw_sequence r < default MAX_SAFE_INTEGER before) (session_rows sessionId table')
    = take j rows →
  (j ≤ length rows)%nat → (0 < limit)%nat →
  let i := (j - limit)%nat in
  ∃ cursor, older_than i cursor
    ∧ (∀ c, cursor = Some c → ∃ row, rows !! i = Some row ∧ c = mw_sequence row)
    ∧ readSessionTimelineMessagePage table' sessionId before limit
      = (drop i (take j items), cursor).
Proof using Hrows.
  intros Hp Hj Hl i. destruct (page_of_prefix table' before limit j) as (cursor & Ho & Hc & Hm); [done..|].
  exists cursor. split_and!; [done..|]. unfold readSessionTimelineMessagePage. rewrite Hm. f_equal.
  apply omap_Forall2. subst i. apply Forall2_drop, Forall2_take.
  pose proof (rs_decode Hrows) as Hd. clear -Hd.
  induction Hd as [|r m rows' msgs' Hr _ IH]; cbn; constructor; [by rewrite Hr|done].
Qed.

(** ** The budget *)

Context (projectionBytes : SessionTimelineProjection → Z).
Lemma omit_messages_spec p k cursor :
  (k ≤ length items)%nat → older_than k cursor →
  ∃ k' cursor', (k ≤ k' ≤ length items)%nat ∧ older_than k' cursor'
    ∧ omit_messages projectionBytes p (drop k items) cursor = (drop k' items, cursor')
    ∧ (projectionBytes (p <| tp_messages := drop k' msgs |>) ≤ MAX_TIMELINE_SNAPSHOT_PROJECTION_BYTES
       ∨ drop k' items = []).
Proof using Hrows.
  assert (length items = length rows) as Hlen
    by (rewrite length_zip_with, length_fmap, rows_length; lia).
  assert (∀ k, (drop k items).*1 = drop k msgs) as Hfst.
  { intros n. rewrite fmap_drop, fst_zip; [done|]. rewrite length_fmap, rows_length. done. }
  remember (length items - k)%nat as n eqn:Hn. revert k cursor Hn.
  induction n as [|n IH]; intros k cursor Hn Hk Ho.
  - exists k, cursor. rewrite drop_ge by lia. split_and!; try done. by right.
  - destruct (drop k items) as [|omitted rest] eqn:Ed.
    { apply (f_equal length) in Ed. rewrite length_drop in Ed. cbn in Ed. lia. }
    cbn [omit_messages]. rewrite <-Ed, Hfst.
    destruct (Z.ltb_spec MAX_TIMELINE_SNAPSHOT_PROJECTION_BYTES
                (projectionBytes (p <| tp_messages := drop k msgs |>))) as [Hlt|Hle].
    2: { exists k, cursor. split_and!; try done; [lia..|]. by left. }
    assert (rest = drop (S k) items) as ->.
    { rewrite <-Nat.add_1_r, <-drop_drop, Ed. done. }
    destruct (IH (S k) (Some match drop (S k) items with
                             | next :: _ => snd next | [] => snd omitted + 1 end))
      as (k' & cursor' & Hk' & Ho' & He & Hf); [lia..| |].
    + destruct (lookup_lt_is_Some_2 rows k ltac:(lia)) as [row Hrow].
      assert (snd omitted = mw_sequence row) as Hom.
      { assert (items !! k = Some omitted) as Hi
          by (rewrite <-(Nat.add_0_r k), <-lookup_drop, Ed; done).
        apply (f_equal (fmap snd)) in Hi. rewrite <-list_lookup_fmap, snd_zip in Hi
          by (rewrite length_fmap, rows_length; done).
        rewrite list_lookup_fmap, Hrow in Hi. cbn in Hi. congruence. }
      destruct (drop (S k) items) as [|next rest] eqn:Es.
      * split; [lia|]. rewrite Hom. apply (f_equal length) in Es. rewrite length_drop in Es. cbn in Es.
        rewrite (take_ge rows) by lia. apply list_filter_all_lookup. intros i r Hr.
        destruct (decide (i = k)) as [->|Hne]; [rewrite Hrow in Hr; injection Hr as <-; lia|].
        assert (mw_sequence r < mw_sequence row); [|lia].
        eapply by_sequence_lookup; [apply Hrows|done..|].
        apply lookup_lt_Some in Hr. lia.
      * assert (items !! S k = Some next) as Hi
          by (rewrite <-(Nat.add_0_r (S k)), <-lookup_drop, Es; done).
        assert (S k < length rows)%nat as Hlt' by (apply lookup_lt_Some in Hi; lia).
        apply (f_equal (fmap snd)) in Hi. rewrite <-list_lookup_fmap, snd_zip in Hi
          by (rewrite length_fmap, rows_length; done).
        rewrite list_lookup_fmap in Hi.
        destruct (lookup_lt_is_Some_2 rows (S k) ltac:(lia)) as [row' Hrow'].
        rewrite Hrow' in Hi. cbn in Hi. injection Hi as Hi. rewrite <-Hi.
        apply older_than_lookup; [lia|done].
    + exists k', cursor'. split_and!; [lia..|done|done|done].
Qed.

(** ** The snapshot *)

(** What the other tables say is the rest of [full]. *)
Definition head_shows (head full : SessionTimelineProjection) : Prop :=
  let steps := tp_executionSteps head in
  head <| tp_executionSteps := take 200 steps |>
       <| tp_executionStepsTruncated := bool_decide (200 < length steps)%nat |>
       <| tp_messages := msgs |> = full.

Lemma pop_steps_fits p :
  projectionBytes p ≤ MAX_TIMELINE_SNAPSHOT_PROJECTION_BYTES →
  pop_steps projectionBytes p (reverse (tp_executionSteps p)) (tp_executionStepsTruncated p) = p.
Proof using.
  intros Hf.
  assert (p <| tp_executionSteps := reverse (reverse (tp_executionSteps p)) |>
            <| tp_executionStepsTruncated := tp_executionStepsTruncated p |> = p) as Hp
    by (rewrite reverse_involutive; by destruct p).
  destruct (reverse (tp_executionSteps p)) as [|step rest]; cbn [pop_steps]; rewrite Hp; [done|].
  destruct (Z.ltb_spec MAX_TIMELINE_SNAPSHOT_PROJECTION_BYTES (projectionBytes p)); [lia|done].
Qed.

Lemma snapshot_spec head full :
  head_shows head full →
  projectionBytes (full <| tp_messages := [] |>) ≤ MAX_TIMELINE_SNAPSHOT_PROJECTION_BYTES →
  ∃ k cursor, (k ≤ length msgs)%nat ∧ older_than k cursor
    ∧ readSessionTimelineSnapshot projectionBytes (Some head) table sessionId
      = Success {| sn_projection :=
                     {| cp_projection := full <| tp_messages := drop k msgs |>;
                        cp_runtimeObservation := None; cp_olderMessageSequence := cursor |};
                   sn_olderMessageSequence := cursor;
                   sn_totalMessageCount := Z.of_nat (length msgs) |}.
Proof using Hrows.
  intros Hh Hfit. pose proof rows_length as Hlen.
  assert (length items = length msgs) as Hli by (rewrite length_zip_with, length_fmap; lia).
  destruct (read_page_of_prefix table None LATEST_TIMELINE_MESSAGE_LIMIT (length rows))
    as (older & Ho & _ & Hr).
  { cbn [default]. rewrite (take_ge rows) by lia. apply list_filter_all_lookup. intros i r Hi.
    pose proof (rs_safe Hrows) as Hs. by eapply Forall_lookup_1 in Hs. }
  { done. } { unfold LATEST_TIMELINE_MESSAGE_LIMIT. lia. }
  unfold readSessionTimelineSnapshot. rewrite Hr. cbn [fst snd].
  rewrite (take_ge items) by lia. set (p := head <| tp_executionSteps := _ |> <| tp_executionStepsTruncated := _ |>).
  destruct (omit_messages_spec p (length rows - LATEST_TIMELINE_MESSAGE_LIMIT) older)
    as (k & cursor & Hk & Hc & -> & Hb); [lia|done|].
  assert ((drop k items).*1 = drop k msgs) as ->
    by (rewrite fmap_drop, fst_zip; [done|]; rewrite length_fmap; lia).
  assert (p <| tp_messages := drop k msgs |> = full <| tp_messages := drop k msgs |>) as Hp
    by (by rewrite <-Hh).
  rewrite Hp in *.
  assert (projectionBytes (full <| tp_messages := drop k msgs |>)
          ≤ MAX_TIMELINE_SNAPSHOT_PROJECTION_BYTES) as Hle.
  { destruct Hb as [Hb|Hb]; [done|]. apply (f_equal length) in Hb. rewrite length_drop in Hb.
    cbn in Hb. by rewrite drop_ge by lia. }
  rewrite pop_steps_fits by done.
  destruct (Z.ltb_spec MAX_TIMELINE_SNAPSHOT_PROJECTION_BYTES
    (projectionBytes (full <| tp_messages := drop k msgs |>))) as [?|_]; [lia|].
  exists k, cursor. split_and!; [lia|done|]. by rewrite Hlen.
Qed.
End session.

(** ** Assembling the messages *)

Definition entries (l : list Message) : list (string * Message) := (λ m, (ms_id m, m)) <$> l.
Definition id_in (l : list Message) (m : Message) : Prop := ms_id m ∈ ms_id <$> l.

Lemma jm_set_entry l m :
  (∀ y, y ∈ l → ms_id y = ms_id m → y = m) →
  jm_set (ms_id m) m (entries l)
  = entries (if decide (ms_id m ∈ ms_id <$> l) then l else l ++ [m]).
Proof.
  intros Hu. induction l as [|y l IH]; [done|]. cbn.
  destruct (decide (ms_id y = ms_id m)) as [He|He].
  - assert (y = m) as -> by (apply Hu; [by left|done]). rewrite decide_True by (by left). done.
  - fold (entries l). rewrite IH by (intros z Hz; apply Hu; by right).
    destruct (decide (ms_id m ∈ ms_id <$> l)) as [Hin|Hin].
    + rewrite decide_True by (by right). done.
    + rewrite decide_False; [done|]. by intros [?|?]%elem_of_cons.
Qed.
Lemma set_entries l l' :
  (∀ x y, x ∈ l ++ l' → y ∈ l ++ l' → ms_id x = ms_id y → x = y) →
  NoDup (ms_id <$> l') →
  foldl (λ o m, jm_set (ms_id m) m o) (entries l) l'
  = entries (l ++ filter (λ m, ms_id m ∉ ms_id <$> l) l').
Proof.
  revert l. induction l' as [|m l' IH]; intros l Hu Hn; cbn [foldl].
  { by rewrite filter_nil, app_nil_r. }
  rewrite fmap_cons in Hn. apply NoDup_cons in Hn as [Hm Hn].
  rewrite jm_set_entry by (intros y Hy; apply Hu; set_solver). rewrite filter_cons.
  destruct (decide (ms_id m ∈ ms_id <$> l)) as [Hin|Hin].
  - rewrite decide_False by tauto. apply IH; [|done]. intros x y Hx Hy. apply Hu; set_solver.
  - rewrite decide_True by done. rewrite IH; [|intros x y Hx Hy; apply Hu; set_solver|done].
    rewrite <-app_assoc. cbn. f_equal. f_equal. f_equal. apply filter_ext_elem.
    intros x Hx. rewrite fmap_app, elem_of_app. cbn. rewrite list_elem_of_singleton.
    split; [tauto|]. intros Hx' [?|He]; [done|]. apply Hm. rewrite <-He.
    by apply list_elem_of_fmap_2.
Qed.
Lemma merged_messages page known :
  (∀ x y, x ∈ page ++ known → y ∈ page ++ known → ms_id x = ms_id y → x = y) →
  NoDup (ms_id <$> page) → NoDup (ms_id <$> known) →
  jm_values (foldl (λ m x, jm_set (ms_id x) x m) [] (page ++ known))
  = page ++ filter (λ m, ms_id m ∉ ms_id <$> page) known.
Proof.
  intros Hu Hp Hk. rewrite foldl_app. change (@nil (string * Message)) with (entries []).
  rewrite set_entries; [|set_solver|done]. rewrite app_nil_l.
  rewrite (list_filter_all_lookup _ page) by (intros; apply not_elem_of_nil).
  rewrite set_entries by done. unfold jm_values, entries. rewrite <-list_fmap_compose.
  apply list_fmap_id.
Qed.

(** In a list without repetitions, what a sublist has before an element is before it. *)
Lemma sublist_before {A} (l msgs : list A) i k x :
  l `sublist_of` msgs → NoDup msgs → l !! i = Some x → msgs !! k = Some x →
  take i l `sublist_of` take k msgs.
Proof.
  intros Hl Hn Hi Hk. pose proof (sublist_NoDup _ _ Hn Hl) as Hnl.
  rewrite <-(take_drop_middle msgs k x Hk) in Hl, Hn.
  apply NoDup_app in Hn as (_ & Hout & [Hrest _]%NoDup_cons).
  assert (x ∉ take k msgs) as Hx by (intros Hin; apply (Hout x Hin); by left).
  apply sublist_app_r in Hl as (l1 & l2 & -> & H1 & H2).
  assert (x ∈ l2) as Hx2.
  { apply list_elem_of_lookup_2, elem_of_app in Hi as [Hin|?]; [|done].
    destruct Hx. by eapply elem_of_sublist. }
  apply sublist_cons_r in H2 as [H2|(l2' & -> & _)].
  - destruct Hrest. by eapply elem_of_sublist.
  - assert (i = length l1) as ->; [|by rewrite take_app_length].
    eapply (NoDup_lookup _ i (length l1) x Hnl Hi). by apply list_lookup_middle.
Qed.

Section assembling.
Context (msgs : list Message) (Hids : NoDup (ms_id <$> msgs)).

Lemma same_id x y : x ∈ msgs → y ∈ msgs → ms_id x = ms_id y → x = y.
Proof using Hids.
  intros (i & Hi)%list_elem_of_lookup (j & Hj)%list_elem_of_lookup He.
  assert (i = j) as ->; [|congruence].
  eapply (NoDup_lookup _ i j (ms_id x) Hids); rewrite list_lookup_fmap, ?Hi, ?Hj; cbn; congruence.
Qed.

(** The replica has the messages from [j] on, in order; older ones it may still hold
    from before are somewhere. *)
Definition shows_from (j : nat) (known : list Message) : Prop :=
  filter (λ m, ms_id m ∉ ms_id <$> take j msgs) known = drop j msgs
  ∧ (∀ m, m ∈ known → m ∈ msgs) ∧ NoDup (ms_id <$> known).

Lemma filter_drop_ids j :
  filter (λ m, ms_id m ∉ ms_id <$> take j msgs) (drop j msgs) = drop j msgs.
Proof using Hids.
  apply list_filter_all_lookup. intros i m Hi Hin. rewrite lookup_drop in Hi.
  apply list_elem_of_fmap in Hin as (m' & He & (i' & (Hi' & Hlt)%lookup_take_Some)%list_elem_of_lookup).
  enough (j + i = i')%nat by lia.
  eapply (NoDup_lookup _ _ _ (ms_id m) Hids); rewrite list_lookup_fmap, ?Hi, ?Hi'; cbn; congruence.
Qed.
Lemma shows_from_drop j : shows_from j (drop j msgs).
Proof using Hids.
  split_and!; [apply filter_drop_ids| |].
  - intros m Hm. by eapply elem_of_sublist, sublist_drop.
  - rewrite fmap_drop. eapply sublist_NoDup; [exact Hids|apply sublist_drop].
Qed.
Lemma shows_from_all j : (j ≤ length msgs)%nat → shows_from j msgs.
Proof using Hids.
  intros Hj. split_and!; [|done..].
  enough (filter (λ m, ms_id m ∉ ms_id <$> take j msgs) (take j msgs ++ drop j msgs) = drop j msgs)
    as Hf by (by rewrite take_drop in Hf).
  rewrite filter_app, filter_drop_ids, filter_none; [done|].
  intros m Hm Hn. apply Hn. by apply list_elem_of_fmap_2.
Qed.
(** What a client kept of the messages before the [k]-th, in order. *)
Lemma shows_from_kept k kept :
  kept `sublist_of` take k msgs → shows_from k (kept ++ drop k msgs).
Proof using Hids.
  intros Hkept. assert (kept ++ drop k msgs `sublist_of` msgs) as Hsub.
  { rewrite <-(take_drop k msgs) at 2. by apply sublist_app. }
  split_and!.
  - rewrite filter_app, filter_drop_ids, filter_none; [done|]. intros m Hm Hn. apply Hn.
    apply list_elem_of_fmap_2. by eapply elem_of_sublist.
  - intros m Hm. by eapply elem_of_sublist.
  - eapply sublist_NoDup; [exact Hids|]. by apply fmap_sublist.
Qed.
Lemma shows_from_0 known : shows_from 0 known → known = msgs.
Proof using.
  intros (Hf & _). rewrite take_0, drop_0 in Hf. rewrite <-Hf. symmetry.
  apply list_filter_all_lookup. intros i m _. apply not_elem_of_nil.
Qed.

(** Prepending the page before [j]. *)
Lemma shows_from_page i j known :
  (i ≤ j)%nat → shows_from j known →
  let page := drop i (take j msgs) in
  shows_from i (page ++ filter (λ m, ms_id m ∉ ms_id <$> page) known).
Proof using Hids.
  intros Hij (Hf & Hin & Hn) page.
  assert (∀ m, m ∈ page → m ∈ msgs) as Hpage.
  { intros m Hm. eapply elem_of_sublist; [exact Hm|]. subst page.
    etrans; [apply sublist_drop|apply sublist_take]. }
  assert (take j msgs = take i msgs ++ page) as Hj.
  { subst page. rewrite <-(take_drop i (take j msgs)) at 1. by rewrite take_take, Nat.min_l by done. }
  assert (drop i msgs = page ++ drop j msgs) as Hd.
  { rewrite <-(take_drop j msgs) at 1. rewrite drop_app. subst page. f_equal.
    rewrite length_take. destruct (decide (j ≤ length msgs)%nat).
    - by rewrite Nat.min_l, (proj2 (Nat.sub_0_le i j)) by done.
    - rewrite !(drop_ge msgs) by lia. apply drop_nil. }
  assert (NoDup (ms_id <$> page)) as Hnp.
  { eapply sublist_NoDup; [exact Hids|]. apply fmap_sublist. subst page.
    etrans; [apply sublist_drop|apply sublist_take]. }
  split_and!.
  - rewrite Hd, <-Hf, filter_app, list_filter_filter. f_equal.
    + apply list_filter_all_lookup. intros n m Hm Hi.
      assert (m ∈ filter (λ m, ms_id m ∉ ms_id <$> take i msgs) (drop i msgs)) as Hx.
      { rewrite filter_drop_ids, Hd. apply elem_of_app. left. by eapply list_elem_of_lookup_2. }
      by apply list_elem_of_filter in Hx as [? _].
    + apply list_filter_iff. intros m. rewrite Hj, fmap_app, elem_of_app. tauto.
  - intros m [Hm|Hm]%elem_of_app; [by apply Hpage|]. apply list_elem_of_filter in Hm as [_ ?]. by apply Hin.
  - rewrite fmap_app. apply NoDup_app. split_and!; [done| |].
    + intros id Hid (m & -> & [Hm _]%list_elem_of_filter)%list_elem_of_fmap. by apply Hm.
    + eapply sublist_NoDup; [exact Hn|]. apply fmap_sublist, sublist_filter.
Qed.
Lemma prepend_page i j known :
  (i ≤ j)%nat → shows_from j known →
  let page := drop i (take j msgs) in
  jm_values (foldl (λ m x, jm_set (ms_id x) x m) [] (page ++ known))
  = page ++ filter (λ m, ms_id m ∉ ms_id <$> page) known.
Proof using Hids.
  intros Hij (_ & Hin & Hn) page.
  assert (page `sublist_of` msgs) as Hp
    by (subst page; etrans; [apply sublist_drop|apply sublist_take]).
  apply merged_messages; [|eapply sublist_NoDup; [exact Hids|by apply fmap_sublist]|done].
  assert (∀ m, m ∈ page ++ known → m ∈ msgs) as Hall
    by (intros m [Hm|Hm]%elem_of_app; [by eapply elem_of_sublist|by apply Hin]).
  intros x y Hx Hy. apply same_id; by apply Hall.
Qed.
End assembling.

(** ** The replica along the stream *)

Section following.
Context `{ContentCodec} `{TimelineCodec} `{Collation}.
Context (sessionId epoch : string) (events : list SessionTimelineEvent).
Notation reduce := reduceSessionTimelineFrame.
Notation cursor_at n := {| sc_epoch := epoch; sc_version := Z.of_nat n |}.

(** The projection after the first [n] events. *)
Definition at_version (n : nat) : SessionTimelineProjection :=
  foldl applyTimelineEvent emptyTimelineProjection (take n events).
Lemma at_version_step n event :
  events !! n = Some event → at_version (S n) = applyTimelineEvent (at_version n) event.
Proof. intros He. unfold at_version. by rewrite (take_S_r _ _ event), foldl_snoc. Qed.

(** The replica is up to version [n] of the epoch. *)
Record in_step (n : nat) (state : SessionTimelineState) : Prop := {
  is_optimistic : ts_optimistic state = [];
  is_reset : ts_resetEpoch state = None;
  is_count : ts_snapshotMessageCount state = None;
  is_cursor : ts_cursor state = Some (cursor_at n);
  is_phase : ts_phase state ≠ SP_deleted;
  is_projection : ∃ p, ts_projection state = Some p ∧ cp_projection p = at_version n }.
Definition live (state : SessionTimelineState) : Prop :=
  ts_phase state = SP_live ∧ ts_error state = None.

Definition event_frame (n : nat) (event : SessionTimelineEvent) : SessionTimelineFrame :=
  F_event (Z.of_nat (S n)) event (Some (cursor_at (S n))).
Lemma in_step_event n state event :
  in_step n state → events !! n = Some event →
  let state' := reduce state (event_frame n event) in
  in_step (S n) state' ∧ (live state → live state').
Proof.
  intros [Ho Hr Hm Hc Hp (p & Hpr & Hv)] He. cbv zeta.
  assert (reduce state (event_frame n event) = reduce_event state (Z.of_nat (S n)) event (Some (cursor_at (S n)))) as ->
    by (unfold reduceSessionTimelineFrame; by rewrite decide_False).
  destruct (reduce_event_cases state (Z.of_nat (S n)) event (Some (cursor_at (S n)))) as [Hu|Hacc].
  - exfalso. destruct Hu as (_ & Hu & _). unfold reduce_event in Hu.
    rewrite Hc, Hr, Hpr, cursorForFrame_Some in Hu. cbn [sc_version sc_epoch] in Hu.
    rewrite decide_False in Hu by (intros Hx; by apply Hx).
    rewrite decide_False in Hu by (intros Hx; by apply Hx).
    destruct (Z.leb_spec (Z.of_nat (S n)) (Z.of_nat n)); [lia|].
    cbn [fmap option_fmap option_map sc_version] in Hu.
    change (default 0 (Some (Z.of_nat n))) with (Z.of_nat n) in Hu.
    rewrite decide_False in Hu by lia. cbn in Hu. injection Hu. lia.
  - destruct Hacc as (_ & _ & _ & _ & p' & Hp' & ->). rewrite Hpr in Hp'. injection Hp' as <-.
    split; [constructor; cbn; try done|].
    + rewrite Ho. by destruct (persisted_message event).
    + by case_decide.
    + eexists. split; [done|]. cbn. rewrite Hv. symmetry. by apply at_version_step.
    + intros [Hl _]. split; [|done]. cbn. by rewrite decide_True.
Qed.
(** The events from version [n] on. *)
Lemma in_step_events rest : ∀ n state,
  in_step n state → (∀ i event, rest !! i = Some event → events !! (n + i)%nat = Some event) →
  let state' := foldl reduce state (imap (λ i event, event_frame (n + i) event) rest) in
  in_step (n + length rest) state' ∧ (live state → live state').
Proof.
  induction rest as [|event rest IH]; intros n state Hs He; cbn.
  { by rewrite Nat.add_0_r. }
  destruct (in_step_event n state event Hs) as [Hs' Hl];
    [rewrite <-(Nat.add_0_r n); by apply He|].
  rewrite Nat.add_0_r. specialize (IH (S n) _ Hs').
  rewrite (imap_ext _ (λ i e, event_frame (S n + i) e)) by (intros i e _; cbn; f_equal; lia).
  destruct IH as [IH1 IH2]; [intros i e Hi; rewrite Nat.add_succ_comm; by apply He|].
  rewrite <-Nat.add_succ_comm. split; [done|]. intros Hlive. apply IH2, Hl, Hlive.
Qed.
Lemma in_step_synchronized n state :
  in_step n state →
  let state' := reduce state (F_synchronized (Z.of_nat n) (Some (cursor_at n))) in
  in_step n state' ∧ live state'.
Proof.
  intros [Ho Hr Hm Hc Hp (p & Hpr & Hv)]. cbv zeta.
  unfold reduceSessionTimelineFrame, reduce_synchronized.
  rewrite decide_False, Hr, Hpr, Hc, Hm, cursorForFrame_Some, decide_True by done.
  split; [|done]. constructor; cbn; try done. by exists p.
Qed.

(** ** The replica in the middle of a snapshot *)

Section snapshot.
Context (n : nat).
Notation msgs := (tp_messages (at_version n)).
Context (Hids : NoDup (ms_id <$> msgs)).

Record assembling (j : nat) (state : SessionTimelineState) : Prop := {
  as_optimistic : ts_optimistic state = [];
  as_reset : ts_resetEpoch state = None;
  as_count : ts_snapshotMessageCount state = Some (Z.of_nat (length msgs));
  as_cursor : ts_cursor state = Some (cursor_at n);
  as_phase : ts_phase state = SP_synchronizing;
  as_projection : ∃ p known, ts_projection state = Some p
    ∧ cp_projection p = (at_version n) <| tp_messages := known |> ∧ shows_from msgs j known }.

Lemma assembling_chunk i j state older :
  (i ≤ j ≤ length msgs)%nat → assembling j state →
  assembling i (reduce state
    (F_snapshot_chunk (Z.of_nat n) (drop i (take j msgs)) older (Some (cursor_at n)))).
Proof using Hids.
  intros [Hij Hj] [Ho Hr Hm Hc Hp (p & known & Hpr & Hv & Hk)].
  unfold reduceSessionTimelineFrame, reduce_chunk, prependSessionTimelineMessages.
  rewrite decide_False by (by rewrite Hp). rewrite Hpr, Hc, cursorForFrame_Some, decide_True by done.
  pose proof (shows_from_page msgs Hids i j known Hij Hk) as Hs.
  pose proof (prepend_page msgs Hids i j known Hij Hk) as He. cbv zeta in Hs, He.
  assert (cp_messages p = known) as Hpk by (unfold cp_messages; by rewrite Hv).
  rewrite Hpk.
  destruct (drop i (take j msgs)) as [|m page] eqn:Ed.
  - constructor; cbn; try done. eexists _, known. split_and!; [done|done|].
    by rewrite (list_filter_all_lookup _ known) in Hs by (intros ? ? _; apply not_elem_of_nil).
  - constructor; cbn [ts_optimistic ts_resetEpoch ts_snapshotMessageCount ts_cursor ts_phase]; try done.
    eexists _, _. split_and!; [done| |exact Hs]. unfold with_messages. rewrite He. cbn. by rewrite Hv.
Qed.
Lemma assembled state : 
  assembling 0 state →
  let state' := reduce state (F_synchronized (Z.of_nat n) (Some (cursor_at n))) in
  in_step n state' ∧ live state'.
Proof using Hids.
  intros [Ho Hr Hm Hc Hp (p & known & Hpr & Hv & ->%shows_from_0)]. cbv zeta.
  assert (cp_projection p = at_version n) as Hv' by (rewrite Hv; by destruct (at_version n)).
  unfold reduceSessionTimelineFrame, reduce_synchronized.
  rewrite decide_False by (by rewrite Hp). rewrite Hr, Hpr, Hc, Hm, cursorForFrame_Some.
  rewrite decide_True by done. unfold cp_messages. rewrite Hv', decide_False by (intros Hx; by apply Hx).
  split; [|done]. constructor; cbn; try done. by exists p.
Qed.

Lemma message_index_Some id l i :
  message_index id l = Some i → ∃ m, l !! i = Some m ∧ ms_id m = id.
Proof.
  unfold message_index. intros ([j m] & Hf & ->)%fmap_Some. cbn.
  apply list_find_Some in Hf as (? & ? & _). by exists m.
Qed.

(** A snapshot with the messages from [k] on. *)
Definition partial_snapshot (k : nat) (cursor : option Z) : SnapshotFrame :=
  {| sf_throughVersion := Z.of_nat n;
     sf_projection := {| cp_projection := (at_version n) <| tp_messages := drop k msgs |>;
                         cp_runtimeObservation := None; cp_olderMessageSequence := cursor |};
     sf_cursor := Some (cursor_at n); sf_olderMessageSequence := cursor;
     sf_totalMessageCount := Some (Z.of_nat (length msgs)); sf_background := false |}.
Lemma assembling_snapshot k cursor state :
  ts_optimistic state = [] → ts_phase state ≠ SP_deleted →
  snapshot_allowed state (cursor_at n) →
  (∀ p, ts_resetEpoch state = None → ts_projection state = Some p →
        ts_cursor state = Some (cursor_at n) → tp_messages (cp_projection p) `sublist_of` msgs) →
  (k ≤ length msgs)%nat →
  assembling k (reduce state (F_snapshot (partial_snapshot k cursor))).
Proof using Hids.
  intros Ho Hp Ha Hprev Hk. unfold reduceSessionTimelineFrame. rewrite decide_False by done.
  destruct (reduce_snapshot_cases state (partial_snapshot k cursor)) as [[_ Hx]|(_ & _ & ->)];
    [by destruct (Hx eq_refl)|].
  unfold snapshot_accepted. rewrite Ho. cbn [partial_snapshot sf_cursor sf_throughVersion].
  rewrite cursorForFrame_Some.
  set (next := snapshot_projection (partial_snapshot k cursor)).
  assert (cp_projection next = (at_version n) <| tp_messages := drop k msgs |>) as Hnext by done.
  assert (∃ known, cp_projection (preserveSessionTimelineHistory
      match ts_resetEpoch state with None => ts_projection state | Some _ => None end
      (ts_cursor state) next (cursor_at n)) = (at_version n) <| tp_messages := known |>
      ∧ shows_from msgs k known) as (known & Hknown & Hshows).
  { pose proof (shows_from_drop msgs Hids k) as Hd.
    unfold preserveSessionTimelineHistory.
    destruct (ts_resetEpoch state) eqn:Er; [by eexists|].
    destruct (ts_projection state) as [prev|] eqn:Ep; [|by eexists].
    destruct (ts_cursor state) as [c|] eqn:Ec; [|by eexists].
    destruct (cp_olderMessageSequence next); [|by eexists].
    case_decide as Hcc; [|by eexists]. subst c.
    unfold cp_messages. rewrite Hnext. cbn [tp_messages].
    pose proof (Hprev prev eq_refl eq_refl eq_refl) as Hsub.
    change (tp_messages ((at_version n) <| tp_messages := drop k msgs |>)) with (drop k msgs).
    destruct (drop k msgs) as [|first rest] eqn:Edr; [by eexists|].
    cbn [head].
    assert (msgs !! k = Some first) as Hf by (rewrite <-(Nat.add_0_r k), <-lookup_drop, Edr; done).
    destruct (message_index (ms_id first) (tp_messages (cp_projection prev))) as [[|i]|] eqn:Ei;
      [by eexists| |by eexists].
    apply message_index_Some in Ei as (m & Hm & He).
    assert (m = first) as ->.
    { apply (same_id msgs Hids); [by eapply elem_of_sublist, Hsub; apply list_elem_of_lookup_2 in Hm
                                 |by eapply list_elem_of_lookup_2|done]. }
    eexists. split; [done|]. rewrite <-Edr. apply (shows_from_kept msgs Hids).
    eapply sublist_before; [exact Hsub|by eapply NoDup_fmap_1|exact Hm|done]. }
  unfold reconcileOptimisticMessages. cbn.
  constructor; cbn; try done. exists (preserveSessionTimelineHistory
      match ts_resetEpoch state with None => ts_projection state | Some _ => None end
      (ts_cursor state) next (cursor_at n)), known. by split_and!.
Qed.
End snapshot.
End following.

(** ** The server's records *)

Section records.
Context `{ContentCodec} `{TimelineCodec}.
Context (sessionId epoch : string) (log : list (StoredEvent SessionEvent)).
Context (Hlog : ∀ i e, log !! i = Some e →
  se_streamVersion e = Z.of_nat i + 1 ∧ se_streamId e = sessionId).
Definition timeline_events : list SessionTimelineEvent :=
  (λ e, timelineEventFromDomain sessionId (se_event e)) <$> log.

Lemma event_frames n :
  timeline_frame sessionId <$> (SR_event epoch <$> drop n log)
  = imap (λ i event, event_frame epoch (n + i) event) (drop n timeline_events).
Proof using Hlog.
  unfold timeline_events. apply list_eq. intros i.
  rewrite <-list_fmap_compose, list_lookup_fmap, list_lookup_imap, !lookup_drop, list_lookup_fmap.
  destruct (log !! (n + i)%nat) as [e|] eqn:He; [|done]. destruct (Hlog _ _ He) as [Hv _].
  cbn. unfold event_frame. rewrite Hv. by replace (Z.of_nat (n + i) + 1) with (Z.of_nat (S (n + i))) by lia.
Qed.

Lemma tail_events_spec notifications : ∀ k n,
  filter (λ r, se_streamId r = sessionId) notifications = drop k log →
  (k ≤ n ≤ length log)%nat →
  tail_events epoch sessionId (Z.of_nat n) notifications = (SR_event epoch <$> drop n log, true).
Proof using Hlog.
  induction notifications as [|r rest IH]; intros k n Hf Hk.
  - rewrite filter_nil in Hf. apply (f_equal length) in Hf. rewrite length_drop in Hf. cbn in Hf.
    by rewrite drop_ge by lia.
  - rewrite filter_cons in Hf. cbn [tail_events].
    destruct (decide (se_streamId r = sessionId)) as [Hs|Hs].
    2: { rewrite decide_True by done. by eapply IH. }
    rewrite decide_False by tauto.
    assert (log !! k = Some r) as Hr by (rewrite <-(Nat.add_0_r k), <-lookup_drop, <-Hf; done).
    destruct (Hlog _ _ Hr) as [Hv _]. rewrite Hv.
    assert (filter (λ r, se_streamId r = sessionId) rest = drop (S k) log) as Hrest
      by (rewrite <-Nat.add_1_r, <-drop_drop, <-Hf; done).
    assert (k < length log)%nat as Hlt by (by eapply lookup_lt_Some).
    destruct (Z.leb_spec (Z.of_nat k + 1) (Z.of_nat n)).
    + apply (IH (S k)); [done|lia].
    + assert (n = k) as -> by lia. rewrite decide_False by lia.
      replace (Z.of_nat k + 1) with (Z.of_nat (S k)) by lia.
      rewrite (IH (S k) (S k)) by (done || lia). rewrite (drop_S _ _ _ Hr). done.
Qed.

Lemma version_max : foldr Z.max 0 (se_streamVersion <$> log) = Z.of_nat (length log).
Proof using Hlog.
  enough (∀ n (l : list (StoredEvent SessionEvent)), (∀ i e, l !! i = Some e → se_streamVersion e = Z.of_nat (n + i) + 1) →
            foldr Z.max 0 (se_streamVersion <$> l)
            = match l with [] => 0 | _ => Z.of_nat (n + length l) end) as Hg.
  { rewrite (Hg 0%nat); [by destruct log|]. intros i e Hi. by destruct (Hlog i e Hi). }
  clear. intros n l. revert n. induction l as [|e l IH]; intros n Hl; [done|]. cbn [fmap list_fmap foldr].
  rewrite (IH (S n)); [|intros i e' Hi; specialize (Hl (S i) e' Hi); lia].
  rewrite (Hl 0%nat e eq_refl). destruct l; cbn; lia.
Qed.
Lemma version_range n :
  filter (λ r : StoredEvent SessionEvent,
    Z.of_nat n < se_streamVersion r ∧ se_streamVersion r ≤ Z.of_nat (length log)) log = drop n log.
Proof using Hlog.
  enough (filter (λ r : StoredEvent SessionEvent,
    Z.of_nat n < se_streamVersion r ∧ se_streamVersion r ≤ Z.of_nat (length log))
    (take n log ++ drop n log) = drop n log) as Hf by (by rewrite take_drop in Hf).
  rewrite filter_app, filter_none, list_filter_all_lookup; [done|..].
  - intros i e Hi. rewrite lookup_drop in Hi. destruct (Hlog _ _ Hi) as [-> _].
    apply lookup_lt_Some in Hi. lia.
  - intros e (i & (Hi & Hlt)%lookup_take_Some)%list_elem_of_lookup.
    destruct (Hlog _ _ Hi) as [-> _]. lia.
Qed.
End records.

(** ** The history *)

Section whole.
Context `{ContentCodec} `{TimelineCodec} `{Collation}.
Context (sessionId epoch : string) (events : list SessionTimelineEvent) (n : nat).
Context (table : list MessageRow).
Notation reduce := reduceSessionTimelineFrame.
Notation msgs := (tp_messages (at_version events n)).
Notation rows := (session_rows sessionId table).
Context (Hrows : rows_show sessionId table msgs).

Lemma history_assembles fuel : ∀ j c pages state,
  (j ≤ fuel)%nat → (0 < j ≤ length msgs)%nat →
  (∀ i, filter (λ r, mw_sequence r < c) (session_rows sessionId (pages i)) = take j rows) →
  assembling epoch events n j state →
  ∃ records, history epoch fuel sessionId (Z.of_nat n) pages c = (records, true)
    ∧ assembling epoch events n 0 (foldl reduce state (timeline_frame sessionId <$> records)).
Proof using Hrows.
  pose proof (messages_ids sessionId table msgs Hrows) as Hids.
  pose proof (rows_length sessionId table msgs Hrows) as Hlen.
  induction fuel as [|fuel IH]; intros j c pages state Hfuel Hj Hpages Hs; [lia|].
  cbn [history].
  destruct (read_page_of_prefix sessionId table msgs Hrows (pages 0%nat) (Some c)
              LATEST_TIMELINE_MESSAGE_LIMIT j) as (cursor & Ho & Hc & ->);
    [apply Hpages|lia|unfold LATEST_TIMELINE_MESSAGE_LIMIT; lia|].
  set (i := (j - LATEST_TIMELINE_MESSAGE_LIMIT)%nat) in *.
  assert (i < j)%nat as Hij by (subst i; unfold LATEST_TIMELINE_MESSAGE_LIMIT; lia).
  assert ((drop i (take j (zip msgs (mw_sequence <$> rows)))).*1 = drop i (take j msgs)) as ->.
  { rewrite fmap_drop, fmap_take, fst_zip; [done|]. rewrite length_fmap. lia. }
  pose proof (assembling_chunk epoch events n Hids i j state cursor ltac:(lia) Hs) as Hs'.
  destruct cursor as [c'|]; [|cbn in Ho; eexists; split; [done|]; cbn [fmap list_fmap foldl]; rewrite Ho in Hs' |- *; exact Hs'].
  destruct (Hc c' eq_refl) as (row & Hrow & ->). destruct Ho as [Hi _].
  assert (take j rows !! i = Some row) as Htake by (by rewrite lookup_take_lt).
  assert (mw_sequence row < c) as Hlt.
  { specialize (Hpages 0%nat). rewrite <-Hpages in Htake.
    by apply list_elem_of_lookup_2, list_elem_of_filter in Htake as [? _]. }
  destruct (Z.leb_spec c (mw_sequence row)); [lia|].
  assert (∀ m, filter (λ r, mw_sequence r < mw_sequence row) (session_rows sessionId (pages (S m)))
               = take i rows) as Hpages'.
  { intros m. rewrite <-(Nat.min_l i j) by lia. rewrite <-take_take.
    rewrite <-(rows_before (take j rows) i row (mw_sequence row))
      by first [done|by apply by_sequence_take, Hrows].
    rewrite <-(Hpages (S m)), list_filter_filter. apply list_filter_iff. intros r. lia. }
  destruct (IH i (mw_sequence row) (λ i, pages (S i)) _ ltac:(lia) ltac:(lia) Hpages' Hs')
    as (records & -> & Hr). eexists. by split; [done|].
Qed.
End whole.

(** ** The subscription *)

Section subscribe.
Context `{ContentCodec} `{TimelineCodec} `{Collation}.
Context {S} `{DispatchStorageLaws S SessionEvent valid}.
Context (projectionBytes : SessionTimelineProjection → Z)
  (recordBytes : StoredEvent SessionEvent → Z) (epoch : string)
  (maxDeltaEvents maxDeltaBytes : Z) (sessionId : string).
Notation reduce := reduceSessionTimelineFrame.

Definition log_of (s : S) : list (StoredEvent SessionEvent) := ds_events sessionId s.
(** The projection of the session in a store. *)
Definition projected (s : S) : SessionTimelineProjection :=
  foldl applyTimelineEvent emptyTimelineProjection (timeline_events sessionId (log_of s)).

(** The read models are up to date, and the projection without messages is within
    the limit. *)
Record tables_show (t : SessionTables S) : Prop := {
  ts_valid : valid (tb_store t);
  ts_rows : rows_show sessionId (tb_messages t) (tp_messages (projected (tb_store t)));
  ts_head : ∃ head, tb_head t = Some head
    ∧ head_shows (tp_messages (projected (tb_store t))) head (projected (tb_store t));
  ts_fits : projectionBytes ((projected (tb_store t)) <| tp_messages := [] |>)
            ≤ MAX_TIMELINE_SNAPSHOT_PROJECTION_BYTES }.

(** Pages are read later; the rows of the captured messages are still there. *)
Definition pages_keep (t : SessionTables S) (pages : nat → list MessageRow) : Prop :=
  ∀ c i k, filter (λ r, mw_sequence r < c) (session_rows sessionId (tb_messages t))
             = take k (session_rows sessionId (tb_messages t)) →
    filter (λ r, mw_sequence r < c) (session_rows sessionId (pages i))
    = take k (session_rows sessionId (tb_messages t)).

(** What the client kept of this epoch: some of the messages the server had at its
    cursor, in order. A cache without a page cursor and without a turn that may run is the
    server's projection; of others the rest may be anything, as when the client was left
    between a snapshot and its pages, or the turn it shows has ended since. *)
Definition turn_at_rest (p : SessionTimelineProjection) : Prop :=
  tp_activeTurn p = None ∧ tp_status p ≠ SS_running ∧ tp_status p ≠ SS_booting.
Definition cache_shows (t : SessionTables S) (cached : option ClientProjection)
    (cursor : option SessionStreamCursor) : Prop :=
  ∀ p c, cached = Some p → cursor = Some c → sc_epoch c = epoch →
    0 ≤ sc_version c
    ∧ (sc_version c ≤ Z.of_nat (length (log_of (tb_store t))) →
       let then_ := at_version (timeline_events sessionId (log_of (tb_store t))) (Z.to_nat (sc_version c)) in
       cp_messages p `sublist_of` tp_messages then_
       ∧ (cp_olderMessageSequence p = None → turn_at_rest (cp_projection p) → cp_projection p = then_)).

Lemma log_versions s i e :
  valid s → log_of s !! i = Some e → se_streamVersion e = Z.of_nat i + 1 ∧ se_streamId e = sessionId.
Proof. apply dsl_versions. Qed.

(** After the synchronization, the rest of the log. *)
Lemma tail_follows later n state notifications k :
  valid later → (k ≤ n ≤ length (log_of later))%nat →
  filter (λ r, se_streamId r = sessionId) notifications = drop k (log_of later) →
  in_step epoch (timeline_events sessionId (log_of later)) n state → live state →
  ∃ records, tail_events epoch sessionId (Z.of_nat n) notifications = (records, true)
    ∧ let state' := foldl reduce state (timeline_frame sessionId <$> records) in
      live state' ∧ ts_cursor state' = Some {| sc_epoch := epoch; sc_version := Z.of_nat (length (log_of later)) |}
      ∧ cp_projection <$> ts_projection state' = Some (projected later).
Proof.
  intros Hv Hk Hn Hs Hl. pose proof (λ i e, log_versions later i e Hv) as Hlog.
  exists (SR_event epoch <$> drop n (log_of later)). split; [by eapply tail_events_spec|].
  cbv zeta. rewrite (event_frames sessionId epoch (log_of later) Hlog).
  set (evs := timeline_events sessionId (log_of later)) in *.
  destruct (in_step_events epoch evs (drop n evs) n state Hs) as [Hs' Hl'].
  { intros i e Hi. by rewrite lookup_drop in Hi. }
  assert (n + length (drop n evs) = length (log_of later))%nat as He.
  { rewrite length_drop. subst evs. unfold timeline_events. rewrite length_fmap. lia. }
  rewrite He in Hs'. split_and!; [by apply Hl'|apply Hs'|].
  destruct (is_projection _ _ _ _ Hs') as (p & -> & Hp). cbn. rewrite Hp. f_equal.
  unfold at_version, projected. rewrite take_ge; [done|].
  unfold evs, timeline_events. by rewrite length_fmap.
Qed.

Lemma at_version_prefix s later :
  log_of s `prefix_of` log_of later →
  at_version (timeline_events sessionId (log_of later)) (length (log_of s)) = projected s.
Proof.
  intros [added He]. unfold at_version, projected, timeline_events. rewrite He, fmap_app.
  by rewrite take_app_length' by (by rewrite length_fmap).
Qed.

(** The snapshot, its history and the synchronization. *)
Lemma snapshot_path t later pages fuel state :
  tables_show t → log_of (tb_store t) `prefix_of` log_of later → pages_keep t pages →
  (length (session_rows sessionId (tb_messages t)) ≤ fuel)%nat →
  let n := length (log_of (tb_store t)) in
  let now := {| sc_epoch := epoch; sc_version := Z.of_nat n |} in
  ts_optimistic state = [] → ts_phase state ≠ SP_deleted → snapshot_allowed state now →
  (∀ p, ts_resetEpoch state = None → ts_projection state = Some p → ts_cursor state = Some now →
     tp_messages (cp_projection p) `sublist_of` tp_messages (projected (tb_store t))) →
  ∃ snapshot chunks,
    readSessionTimelineSnapshot projectionBytes (tb_head t) (tb_messages t) sessionId = Success snapshot
    ∧ match sn_olderMessageSequence snapshot with
      | Some before => history epoch fuel sessionId (Z.of_nat n) pages before
      | None => ([], true)
      end = (chunks, true)
    ∧ let state' := foldl reduce state (timeline_frame sessionId <$>
          SR_snapshot epoch (Z.of_nat n) snapshot false :: chunks
          ++ [SR_synchronized epoch (Z.of_nat n)]) in
      in_step epoch (timeline_events sessionId (log_of later)) n state' ∧ live state'.
Proof.
  intros [Hv Hrows (head & Hh & Hshow) Hfit] Hpre Hpages Hfuel n now Ho Hp Ha Hprev.
  set (evs := timeline_events sessionId (log_of later)).
  pose proof (at_version_prefix _ _ Hpre) as Hat. fold n evs in Hat. rewrite <-Hat in *.
  pose proof (messages_ids sessionId _ _ Hrows) as Hids.
  pose proof (rows_length sessionId _ _ Hrows) as Hlen.
  destruct (snapshot_spec sessionId (tb_messages t) _ Hrows projectionBytes head _ Hshow Hfit)
    as (k & cursor & Hk & Hc & Hsnap).
  rewrite Hh, Hsnap. cbn [sn_olderMessageSequence].
  pose proof (assembling_snapshot epoch evs n Hids k cursor state Ho Hp Ha Hprev Hk) as Hs.
  assert (∃ chunks, match cursor with
      | Some before => history epoch fuel sessionId (Z.of_nat n) pages before
      | None => ([], true) end = (chunks, true)
      ∧ assembling epoch evs n 0 (foldl reduce
          (reduce state (F_snapshot (partial_snapshot epoch evs n k cursor)))
          (timeline_frame sessionId <$> chunks))) as (chunks & Hch & Hs').
  { destruct cursor as [c|].
    - destruct Hc as [Hk0 Hc]. apply (history_assembles sessionId epoch evs n _ Hrows fuel k).
      + rewrite <-Hlen in Hk. etrans; [exact Hk|exact Hfuel].
      + done.
      + intros i. by apply Hpages.
      + done.
    - cbn in Hc. subst k. exists []. by split. }
  eexists _, chunks. split; [done|]. split; [done|].
  cbv zeta. rewrite fmap_cons, fmap_app. cbn [foldl]. rewrite foldl_app. cbn [fmap list_fmap foldl].
  by apply assembled.
Qed.

(** The restored replica and its subscription. *)
Lemma restore_cases cached cursor :
  (restoreSessionTimelineState cached cursor = emptySessionTimelineState)
  ∨ ∃ p c, cached = Some p ∧ cursor = Some c
      ∧ restoreSessionTimelineState cached cursor
        = emptySessionTimelineState <| ts_projection := Some (p <| cp_runtimeObservation := None |>) |>
            <| ts_cursor := Some c |> <| ts_phase := SP_cached |>.
Proof. destruct cached as [p|], cursor as [c|]; [right; by exists p, c|by left..]. Qed.

(** The client asks for the missing events only when its cache is whole and at rest. *)
Lemma resumable_spec state p :
  ts_projection state = Some p → sy_hasProjection (subscription false state) = true →
  cp_olderMessageSequence p = None ∧ turn_at_rest (cp_projection p).
Proof.
  intros Hp. unfold subscription, cachedTurnMayBeStale. rewrite Hp. cbn.
  intros [Ho Ht]%andb_true_iff. apply negb_true_iff, bool_decide_eq_false in Ht.
  destruct (cp_olderMessageSequence p); [done|]. split; [done|].
  split_and!; [|naive_solver..]. destruct (tp_activeTurn (cp_projection p)); [|done].
  destruct Ht. by left.
Qed.

(** What the transaction captures: the missing events, or the way to a snapshot. *)
Lemma capture_spec t cached cursor :
  valid (tb_store t) → cache_shows t cached cursor →
  let state := restoreSessionTimelineState cached cursor in
  let n := length (log_of (tb_store t)) in
  let now := {| sc_epoch := epoch; sc_version := Z.of_nat n |} in
  let captured := capture projectionBytes recordBytes epoch maxDeltaEvents maxDeltaBytes sessionId
                    (subscription false state) t in
  (∃ v, (v ≤ n)%nat ∧ captured = Success (SR_event epoch <$> drop v (log_of (tb_store t)), Z.of_nat n, None)
     ∧ ∀ later, log_of (tb_store t) `prefix_of` log_of later →
         in_step epoch (timeline_events sessionId (log_of later)) v state)
  ∨ ∃ reset, let state1 := foldl reduce state (timeline_frame sessionId <$> reset) in
      captured = (snapshot ←! readSessionTimelineSnapshot projectionBytes (tb_head t) (tb_messages t) sessionId;
                  Success (reset ++ [SR_snapshot epoch (Z.of_nat n) snapshot false], Z.of_nat n,
                           sn_olderMessageSequence snapshot))
      ∧ ts_optimistic state1 = [] ∧ ts_phase state1 ≠ SP_deleted ∧ snapshot_allowed state1 now
      ∧ (∀ p, ts_resetEpoch state1 = None → ts_projection state1 = Some p →
           ts_cursor state1 = Some now →
           tp_messages (cp_projection p) `sublist_of` tp_messages (projected (tb_store t))).
Proof.
  intros Hv Hcache state n now. cbv zeta.
  pose proof (λ i e, log_versions (tb_store t) i e Hv) as Hlog.
  assert (currentStreamVersion sessionId (tb_store t) = Z.of_nat n) as Hcur
    by (eapply version_max, Hlog).
  unfold capture. rewrite Hcur. cbv zeta.
  destruct (restore_cases cached cursor) as [He|(p & c & -> & -> & He)]; fold state in He; rewrite He.
  - right. exists []. cbn. destruct (Z.ltb_spec (Z.of_nat n) 0); [lia|]. by split_and!.
  - set (restored := (emptySessionTimelineState <| ts_projection := _ |> <| ts_cursor := _ |>) <| ts_phase := _ |>) in *.
    assert (sy_streamEpoch (subscription false restored) = Some (sc_epoch c)) as -> by done.
    assert (sy_afterVersion (subscription false restored) = Some (sc_version c)) as -> by done.
    assert (sy_background (subscription false restored) = false) as -> by done.
    change (default 0 (Some (sc_version c))) with (sc_version c).
    destruct (decide (sc_epoch c = epoch ∧ sc_version c ≤ Z.of_nat n)) as [[Hep Hle]|Hreset].
    + rewrite (bool_decide_eq_false_2 (sc_epoch c ≠ epoch)) by tauto.
      destruct (Z.ltb_spec (Z.of_nat n) (sc_version c)) as [?|_]; [lia|].
      destruct (Hcache p c eq_refl eq_refl Hep) as [H0v Hshow].
      destruct (Hshow Hle) as [Hsub Hrest]. clear Hshow.
      match goal with |- context [if (?s || _) then _ else _] => set (stale := s) end.
      destruct (stale || _) eqn:Eneeds.
      * right. exists []. split; [done|]. split_and!; try done.
        -- intros old [= <-]. by split.
        -- cbn. intros p' _ [= <-] [= Hc]. cbn. rewrite Hc in Hsub. cbn in Hsub. rewrite Nat2Z.id in Hsub.
           pose proof (at_version_prefix (tb_store t) (tb_store t) ltac:(done)) as Hx. fold n in Hx.
           by rewrite Hx in Hsub.
      * left. exists (Z.to_nat (sc_version c)). split; [lia|]. split.
        -- apply orb_false_elim in Eneeds as [-> _].
           assert (filter (λ r : StoredEvent SessionEvent, sc_version c < se_streamVersion r)
                     (eventsInVersionRange sessionId (sc_version c) (Z.of_nat n) (tb_store t))
                   = drop (Z.to_nat (sc_version c)) (log_of (tb_store t))) as Hrange; [|by rewrite Hrange].
           rewrite <-(version_range sessionId (log_of (tb_store t)) Hlog (Z.to_nat (sc_version c))).
           unfold eventsInVersionRange. rewrite Z2Nat.id by done. rewrite list_filter_filter.
           apply list_filter_iff. intros r. tauto.
        -- assert (cp_projection p = at_version (timeline_events sessionId (log_of (tb_store t)))
                     (Z.to_nat (sc_version c))) as Hshow.
           { apply orb_false_elim in Eneeds as [Hstale _]. subst stale.
             do 4 apply orb_false_elim in Hstale as [Hstale _]. apply negb_false_iff in Hstale.
             destruct (resumable_spec restored _ eq_refl Hstale) as [Ho Hturn]. by apply Hrest. }
           intros later [added Hpre]. constructor; try done.
           { cbn. rewrite Z2Nat.id by done. rewrite <-Hep. by destruct c. }
           eexists. split; [done|]. cbn. rewrite Hshow. unfold at_version, timeline_events.
           rewrite Hpre, fmap_app, take_app_le; [done|]. rewrite length_fmap. lia.
    + right. exists [SR_reset_required epoch (Z.of_nat n)].
      assert (bool_decide (sc_epoch c ≠ epoch) || (Z.of_nat n <? sc_version c) = true) as Hb.
      { destruct (decide (sc_epoch c = epoch)); [|by rewrite bool_decide_eq_true_2].
        apply orb_true_iff. right. apply Z.ltb_lt. destruct (decide (sc_version c ≤ Z.of_nat n)); [tauto|lia]. }
      match goal with |- context [if (?s || _) then _ else _] => assert (s = true) as -> end.
      { rewrite <-!orb_assoc, (orb_assoc (bool_decide _)), Hb. by rewrite orb_true_l, !orb_true_r. }
      rewrite Hb. split; [done|].
      assert (foldl reduce restored (timeline_frame sessionId <$> [SR_reset_required epoch (Z.of_nat n)])
              = restored <| ts_resetEpoch := Some epoch |> <| ts_phase := SP_synchronizing |>
                         <| ts_error := None |>) as -> by done.
      by split_and!.
Qed.

End subscribe.

(** ** The hub and the event streams *)

Section hub.
(** The log in the end; its sequence numbers grow. *)
Context (log : list (StoredEvent SessionEvent)).
Context (Hlog : ∀ i j a b, log !! i = Some a → log !! j = Some b → (i < j)%nat →
  se_sequence a < se_sequence b).
Context (wanted : StoredEvent SessionEvent → Prop) `{∀ record, Decision (wanted record)}.

(** The cursor has passed the first [m] records. *)
Definition passed (P : StoredEvent SessionEvent → Prop) (cursor : Z) (m : nat) : Prop :=
  ∀ i r, log !! i = Some r → P r → (se_sequence r ≤ cursor ↔ (i < m)%nat).

Lemma passed_record P i r : log !! i = Some r → passed P (se_sequence r) (S i).
Proof using Hlog.
  intros Hi j r' Hj _. destruct (Nat.lt_trichotomy i j) as [?|[<-|?]].
  - specialize (Hlog i j r r' Hi Hj). lia.
  - rewrite Hi in Hj. injection Hj as <-. lia.
  - specialize (Hlog j i r' r Hj Hi). lia.
Qed.
Lemma filter_passed P `{∀ r, Decision (P r)} cursor m b :
  passed P cursor m →
  filter (λ r, P r ∧ cursor < se_sequence r) (take b log) = filter P (drop m (take b log)).
Proof using.
  intros Hp.
  enough (filter (λ r, P r ∧ cursor < se_sequence r) (take m (take b log) ++ drop m (take b log))
          = filter P (drop m (take b log))) as Hf by (by rewrite take_drop in Hf).
  rewrite filter_app, filter_none; [cbn; apply filter_ext_elem|].
  - intros r (i & Hi)%list_elem_of_lookup. rewrite lookup_drop in Hi.
    apply lookup_take_Some in Hi as [Hi _]. split; [tauto|]. intros Hr.
    destruct (Hp _ r Hi Hr). split; [done|lia].
  - intros r (i & (Hi & Hlt)%lookup_take_Some)%list_elem_of_lookup [Hr Hc].
    apply lookup_take_Some in Hi as [Hi _]. destruct (Hp _ r Hi Hr). lia.
Qed.

(** One pass of the publisher over the first [b] records. *)
Lemma reconcile_spec b m h :
  passed (λ _, True) (hb_cursor h) m → (b ≤ length log)%nat →
  let h' := reconcileDurableEvents (take b log) h in
  hb_received h' = hb_received h ++ drop m (take b log)
  ∧ passed (λ _, True) (hb_cursor h') (m `max` b).
Proof using Hlog.
  intros Hp Hb. unfold reconcileDurableEvents.
  assert (filter (λ r, hb_cursor h < se_sequence r) (take b log) = drop m (take b log)) as ->.
  { rewrite <-(list_filter_all_lookup (λ _, True) (drop m (take b log))) by done.
    rewrite <-(filter_passed _ (hb_cursor h)) by done. apply list_filter_iff. tauto. }
  clear wanted H. remember (b - m)%nat as n eqn:Hn. revert m h Hp Hn.
  induction n as [|n IH]; intros m h Hp Hn.
  - rewrite drop_ge by (rewrite length_take; lia). cbn. rewrite app_nil_r.
    by replace (m `max` b)%nat with m by lia.
  - destruct (lookup_lt_is_Some_2 log m ltac:(lia)) as [r Hr].
    rewrite (drop_S _ r) by (by rewrite lookup_take_lt by lia). cbn [foldl].
    destruct (IH (S m) (publish h r)) as [E1 E2]; [by eapply passed_record|lia|].
    rewrite E1. cbn. rewrite <-app_assoc. split; [done|].
    by replace (m `max` b)%nat with (S m `max` b)%nat by lia.
Qed.

(** A sequence of passes, over the log as it grows. *)
Lemma reconciles_spec bs : ∀ m h,
  passed (λ _, True) (hb_cursor h) m → Forall (λ b, (b ≤ length log)%nat) bs →
  let h' := foldl (λ h b, reconcileDurableEvents (take b log) h) h bs in
  let b := foldl max m bs in
  hb_received h' = hb_received h ++ drop m (take b log) ∧ passed (λ _, True) (hb_cursor h') b.
Proof using Hlog.
  clear wanted H. induction bs as [|b bs IH]; intros m h Hp Hbs; cbn.
  - rewrite drop_ge by (rewrite length_take; lia). by rewrite app_nil_r.
  - apply Forall_cons in Hbs as [Hb Hbs].
    destruct (reconcile_spec b m h Hp Hb) as [E1 E2].
    destruct (IH _ _ E2 Hbs) as [E3 E4]. split; [|done]. rewrite E3, E1, <-app_assoc. f_equal.
    assert (∀ x, (x ≤ foldl max x bs)%nat) as Hmax.
    { clear. induction bs as [|y bs IH]; intros x; cbn; [lia|]. specialize (IH (x `max` y)%nat). lia. }
    set (t := foldl max (m `max` b)%nat bs). assert (m `max` b ≤ t)%nat as Ht by apply Hmax.
    destruct (decide (m ≤ b)%nat).
    + replace (m `max` b)%nat with b by lia. rewrite <-(take_drop b (take t log)) at 2.
      rewrite take_take, Nat.min_l by lia. rewrite drop_app_le; [done|]. rewrite length_take.
      lia.
    + rewrite (drop_ge (take b log)) by (rewrite length_take; lia).
      by replace (m `max` b)%nat with m by lia.
Qed.

Lemma after_replayed a cursor m rest :
  passed wanted cursor m →
  ∃ cursor', passed wanted cursor' (m `max` (a `min` length log))
    ∧ after_cursor wanted cursor (filter wanted (drop m (take a log)) ++ rest)
      = filter wanted (drop m (take a log)) ++ after_cursor wanted cursor' rest.
Proof using Hlog.
  remember (a `min` length log - m)%nat as n eqn:Hn. revert m cursor Hn.
  induction n as [|n IH]; intros m cursor Hn Hp.
  - exists cursor. rewrite drop_ge by (rewrite length_take; lia).
    by replace (m `max` (a `min` length log))%nat with m by lia.
  - destruct (lookup_lt_is_Some_2 log m ltac:(lia)) as [r Hr].
    rewrite (drop_S _ r) by (by rewrite lookup_take_lt by lia).
    replace (m `max` (a `min` length log))%nat with (S m `max` (a `min` length log))%nat by lia.
    rewrite filter_cons. case_decide as Hw.
    + destruct (IH (S m) (se_sequence r)) as (c' & Hc' & E); [lia|by apply passed_record|].
      exists c'. split; [done|]. cbn. rewrite decide_False, E; [done|].
      intros [?|Hle]; [done|]. apply (Hp m r Hr Hw) in Hle. lia.
    + apply IH; [lia|]. intros i r' Hi Hw'. rewrite (Hp i r' Hi Hw').
      split; [lia|]. intros Hlt. destruct (decide (i = m)) as [->|]; [congruence|lia].
Qed.
Lemma after_notifications k b cursor m :
  passed wanted cursor m → (k ≤ m)%nat →
  after_cursor wanted cursor (drop k (take b log)) = filter wanted (drop m (take b log)).
Proof using Hlog.
  remember (b `min` length log - k)%nat as n eqn:Hn. revert k m cursor Hn.
  induction n as [|n IH]; intros k m cursor Hn Hp Hk.
  - by rewrite !drop_ge by (rewrite length_take; lia).
  - destruct (lookup_lt_is_Some_2 log k ltac:(lia)) as [r Hr].
    assert (take b log !! k = Some r) as Hrb by (by rewrite lookup_take_lt by lia).
    rewrite (drop_S _ r) by done. cbn [after_cursor].
    destruct (decide (k = m)) as [->|Hne].
    + rewrite (drop_S _ r m) by done. rewrite filter_cons. case_decide as Hs; case_decide as Hw.
      * destruct Hs as [?|Hle]; [done|]. apply (Hp m r Hr Hw) in Hle. lia.
      * apply IH; [lia| |lia]. intros i r' Hi Hw'. rewrite (Hp i r' Hi Hw').
        split; [lia|]. intros Hlt. destruct (decide (i = m)) as [->|]; [congruence|lia].
      * f_equal. apply IH; [lia|by apply passed_record|lia].
      * by destruct Hs; left.
    + rewrite decide_True; [apply IH; [lia|done|lia]|].
      destruct (decide (wanted r)) as [Hw|]; [right; apply (Hp k r Hr Hw); lia|by left].
Qed.

Lemma passed_exists P cursor : ∃ m, passed P cursor m.
Proof using Hlog.
  destruct (list_find (λ r, cursor < se_sequence r) log) as [[m r]|] eqn:E.
  - apply list_find_Some in E as (Hm & Hc & Hfirst). exists m. intros i r' Hi _. split; intros Hx.
    + destruct (Nat.lt_trichotomy i m) as [?|[->|?]]; [done| |].
      * rewrite Hm in Hi. injection Hi as <-. lia.
      * specialize (Hlog m i r r' Hm Hi). lia.
    + specialize (Hfirst i r' Hi Hx). lia.
  - apply list_find_None in E. exists (length log). intros i r Hi _.
    pose proof (lookup_lt_Some _ _ _ Hi). rewrite Forall_lookup in E. specialize (E i r Hi). lia.
Qed.
Lemma pieces m a b :
  drop m (take a log) ++ drop (m `max` a) (take b log) = drop m (take (a `max` b) log).
Proof using.
  clear wanted H. destruct (decide (m ≤ a)%nat), (decide (b ≤ a)%nat).
  - rewrite (drop_ge (take b log)) by (rewrite length_take; lia). rewrite app_nil_r.
    by replace (a `max` b)%nat with a by lia.
  - replace (m `max` a)%nat with a by lia. replace (a `max` b)%nat with b by lia.
    destruct (decide (a ≤ length log)%nat).
    + rewrite <-(take_drop a (take b log)) at 2. rewrite take_take, Nat.min_l by lia.
      rewrite drop_app_le; [done|]. rewrite length_take. lia.
    + rewrite !(take_ge log) by lia. rewrite (drop_ge log a) by lia. by rewrite app_nil_r.
  - rewrite !drop_ge by (rewrite length_take; lia). done.
  - rewrite (drop_ge (take a log)) by (rewrite length_take; lia).
    replace (m `max` a)%nat with m by lia. by replace (a `max` b)%nat with b by lia.
Qed.

(** C23: a subscription to the event log misses nothing and repeats nothing. When it
    began the publisher had passed [k] records; the replay was read once [a] of them
    were committed; the publisher then went over the log as it grew ([bs]). The stream
    is exactly the wanted records after the sequence asked for, in order, of all that
    the replay and the passes covered. *)
Theorem event_stream_exact afterSequence c0 k a bs :
  passed (λ _, True) c0 k → (k ≤ a ≤ length log)%nat → Forall (λ b, (b ≤ length log)%nat) bs →
  let hub := foldl (λ h b, reconcileDurableEvents (take b log) h)
               {| hb_cursor := c0; hb_received := [] |} bs in
  stream_after wanted afterSequence (take a log) (hb_received hub)
  = filter (λ r, wanted r ∧ afterSequence < se_sequence r) (take (foldl max a bs) log).
Proof using Hlog.
  intros Hk Ha Hbs hub. subst hub.
  destruct (passed_exists wanted afterSequence) as [m Hm].
  destruct (reconciles_spec bs k {| hb_cursor := c0; hb_received := [] |} Hk Hbs) as [-> _].
  cbn [hb_received app]. unfold stream_after. rewrite !(filter_passed wanted afterSequence m) by done.
  destruct (after_replayed a afterSequence m (drop k (take (foldl max k bs) log)) Hm) as (c' & Hc' & ->).
  assert (∀ x y, foldl max (x `max` y)%nat bs = (x `max` foldl max y bs)%nat) as Hmax.
  { clear. induction bs as [|z bs IH]; intros x y; cbn; [done|]. rewrite <-IH. f_equal. lia. }
  set (b := foldl max k bs). assert (foldl max a bs = a `max` b)%nat as ->.
  { subst b. rewrite <-Hmax. f_equal. lia. }
  rewrite (after_notifications k b c' _ Hc') by lia. rewrite <-filter_app. f_equal.
  replace (a `min` length log)%nat with a by lia. apply pieces.
Qed.
End hub.

(** ** A concrete session *)

Module stream_demo.
#[export] Instance text_content : ContentCodec := λ s,
  if decide (s = "bad") then None else Some (MC_user s (JStr "")).
#[export] Instance text_codec : TimelineCodec :=
  {| decodeComposerInput := λ s, Some (JStr s, None);
     decodePermissionRequest := λ s, Some {| pr_id := s; pr_expired := false; pr_fields := JStr "" |} |}.
#[export] Instance by_length : Collation := λ a b, (String.length a <=? String.length b)%nat.

Definition persisted (id content : string) : SessionEvent :=
  MessagePersisted
    {| mf_inputOwner := None; mf_messageId := id; mf_turnId := None; mf_role := "user";
       mf_kind := "user"; mf_contentJson := content; mf_parentItemId := None;
       mf_checkpointRevision := None; mf_checkpointFinal := None; mf_createdAt := 5 |}.
Definition appending (command : string) (version : Z) (events : list (string * SessionEvent))
  : AppendInput SessionEvent :=
  {| ai_commandId := command; ai_streamId := "s1"; ai_correlationId := command;
     ai_causationEventId := None; ai_expectedVersion := version; ai_events := events;
     ai_result := None; ai_receiptIdentity := None |}.
Definition store : MemoryStore SessionEvent :=
  (memory_append (appending "c1" 0 [("e1", persisted "a" "hello"); ("e2", persisted "b" "hi")])
     emptyStore).2.
Definition store' : MemoryStore SessionEvent :=
  (memory_append (appending "c2" 2 [("e3", persisted "c" "bye")]) store).2.
Lemma store_fine : store_ok store.
Proof. apply store_ok_append; [apply store_ok_empty|done|done]. Qed.
Lemma store'_fine : store_ok store'.
Proof. apply store_ok_append; [apply store_fine|done|by vm_compute]. Qed.

Definition row (id content : string) (sequence : Z) : MessageRow :=
  {| mw_id := id; mw_session_id := "s1"; mw_role := "user"; mw_content_json := content;
     mw_created_at := 5; mw_sequence := sequence |}.
(** A snapshot has room for one message: the other one comes as a chunk. *)
Definition bytes (p : SessionTimelineProjection) : Z := 500000 * Z.of_nat (length (tp_messages p)).
Definition tables (messages : list MessageRow) : SessionTables (MemoryStore SessionEvent) :=
  {| tb_store := store; tb_head := Some emptyTimelineProjection; tb_messages := messages |}.
Definition messages : list MessageRow := [row "a" "hello" 1; row "b" "hi" 2].
Definition synchronized (state : SessionTimelineState) (messages : list MessageRow)
  : list SessionSynchronizationRecord * bool :=
  synchronizedEvents bytes (λ _, 10) "epoch" 512 1000 10 "s1"
    (subscription false state) (tables messages) (λ _, messages) (ms_eventLog store').
Definition replica (state : SessionTimelineState) (messages : list MessageRow) : SessionTimelineState :=
  foldl reduceSessionTimelineFrame state (timeline_frame "s1" <$> (synchronized state messages).1).
(** The client was left between the snapshot of version 2 and its page. *)
Definition kept : ClientProjection :=
  {| cp_projection := emptyTimelineProjection <| tp_messages :=
       [{| ms_id := "b"; ms_sessionId := "s1"; ms_role := MR_user; ms_content := MC_user "hi" (JStr "");
           ms_createdAt := 5 |}] |>;
     cp_runtimeObservation := None; cp_olderMessageSequence := Some 2 |}.
Definition kept_at : SessionStreamCursor := {| sc_epoch := "epoch"; sc_version := 2 |}.
Definition restored : SessionTimelineState := restoreSessionTimelineState (Some kept) (Some kept_at).


(** The publisher passed the first record before the subscription. *)
Definition log : list (StoredEvent SessionEvent) := ms_eventLog store'.
Definition hub : Hub :=
  foldl (λ h b, reconcileDurableEvents (take b log) h) {| hb_cursor := 1; hb_received := [] |} [2%nat; 3%nat].
Lemma event_stream_exact_witness :
  hb_cursor hub = 3
  ∧ se_eventId <$> events "s1" 0 (take 2 log) (hb_received hub) = ["e1"; "e2"; "e3"].
Proof.
  split; [by vm_compute|]. unfold hub, events.
  assert (∀ i j a b, log !! i = Some a → log !! j = Some b → (i < j)%nat →
            se_sequence a < se_sequence b) as Hlog.
  { intros [|[|[|i]]] [|[|[|j]]] a b Ha Hb Hij; try lia; vm_compute in Ha, Hb; simplify_eq; done. }
  rewrite (event_stream_exact log Hlog (λ record, se_streamId record = "s1") 0 1 1 2 [2%nat; 3%nat]).
  - by vm_compute.
  - intros [|[|[|i]]] r Hr _; vm_compute in Hr; simplify_eq; cbn; lia.
  - vm_compute. lia.
  - by repeat constructor.
Defined.

(** A message whose content does not decode is left out of the snapshot and of its
    pages but counted by it, so the client refuses the synchronization. *)
Example unreadable_message_refused :
  let state := foldl reduceSessionTimelineFrame emptySessionTimelineState
    (timeline_frame "s1" <$> take 2 (synchronized emptySessionTimelineState [row "a" "hello" 1; row "b" "bad" 2]).1) in
  ts_phase state = SP_stale
  ∧ ts_error state = Some "Snapshot declared 2 messages but assembled 1".
Proof. by vm_compute. Qed.

(** So does a message the user has just sent: it is kept on top of the snapshot. *)
Definition pending : Message :=
  {| ms_id := "mine"; ms_sessionId := "s1"; ms_role := MR_user; ms_content := MC_user "mine" (JStr "");
     ms_createdAt := 6 |}.
Example optimistic_message_fails_snapshot :
  let state := emptySessionTimelineState <| ts_optimistic := [("mine", pending)] |> in
  let state' := foldl reduceSessionTimelineFrame state
                  (timeline_frame "s1" <$> take 3 (synchronized emptySessionTimelineState messages).1) in
  ts_phase state' = SP_stale
  ∧ ts_error state' = Some "Snapshot declared 2 messages but assembled 3".
Proof. by vm_compute. Qed.
End stream_demo.
