(* ===== verification/SessionTables.v ===== *)
(** * The tables of the session read model

    The rows that packages/domain/src/projectors/sql-session-projector.ts and the
    projections it calls write, as the migrations of apps/server declare them. A table
    is a map by its primary key. Times are the text of [toISOString], except in the
    tables of execution steps, delegations and forks, which keep milliseconds. The
    constraints the statements can run into are those modelled: the primary and unique
    keys, and the references to sessions with their cascade. *)
From S2P Require Import Prelude Js JsMap Contracts SessionTypes SessionState Timeline ChatProjector.

Local Open Scope Z_scope.

Record SessionRow := {
  ses_project_id : string;
  ses_title : string;
  ses_title_provenance : NameProvenance;
  ses_provider_id : string;
  ses_model : string;
  ses_status : SessionStatus;
  ses_archived_at : option string;
  ses_active_provider_thread_id : option string;
  ses_provider_reservation_id : option string;
  ses_runtime_mode : RuntimeMode;
  ses_agents_json : option string;
  ses_worktree_id : option string;
  ses_chat_id : string;
  ses_forked_from_session_id : option string;
  ses_forked_from_message_id : option string;
  ses_permission_mode : PermissionMode;
  ses_tool_search : bool;
  ses_queue_paused : bool;
  ses_created_at : string;
  ses_updated_at : string }.
#[export] Instance SessionRow_eta : Settable SessionRow := λ r,
  Build_SessionRow (ses_project_id r) (ses_title r) (ses_title_provenance r) (ses_provider_id r)
    (ses_model r) (ses_status r) (ses_archived_at r) (ses_active_provider_thread_id r)
    (ses_provider_reservation_id r) (ses_runtime_mode r) (ses_agents_json r) (ses_worktree_id r)
    (ses_chat_id r) (ses_forked_from_session_id r) (ses_forked_from_message_id r)
    (ses_permission_mode r) (ses_tool_search r) (ses_queue_paused r) (ses_created_at r)
    (ses_updated_at r).

Record TurnRow := {
  trn_session_id : string;
  trn_ordinal : Z;
  trn_status : TurnStatus;
  trn_phase : option TurnPhase;
  trn_provider_thread_id : option string;
  trn_active_attempt_id : string;
  trn_attempt_ordinal : Z;
  trn_attempt_reason : AttemptReason;
  trn_requested_at : string;
  trn_completed_at : option string }.
#[export] Instance TurnRow_eta : Settable TurnRow := λ r,
  Build_TurnRow (trn_session_id r) (trn_ordinal r) (trn_status r) (trn_phase r)
    (trn_provider_thread_id r) (trn_active_attempt_id r) (trn_attempt_ordinal r)
    (trn_attempt_reason r) (trn_requested_at r) (trn_completed_at r).

(** [PRIMARY KEY (session_id, id), UNIQUE (session_id, turn_id, ordinal)]. *)
Record AttemptRow := {
  atr_turn_id : string;
  atr_ordinal : Z;
  atr_reason : AttemptReason;
  atr_status : AttemptStatus;
  atr_started_at : string;
  atr_completed_at : option string;
  atr_started_sequence : Z;
  atr_updated_sequence : Z;
  atr_provider_turn : option ProviderTurnReference }.
#[export] Instance AttemptRow_eta : Settable AttemptRow := λ r,
  Build_AttemptRow (atr_turn_id r) (atr_ordinal r) (atr_reason r) (atr_status r)
    (atr_started_at r) (atr_completed_at r) (atr_started_sequence r) (atr_updated_sequence r)
    (atr_provider_turn r).

Record ThreadRow := {
  thr_session_id : string;
  thr_provider : string;
  thr_native_thread_id : string;
  thr_native_head_id : option string;
  thr_status : ProviderThreadStatus;
  thr_first_turn_ordinal : option Z;
  thr_last_turn_ordinal : option Z;
  thr_created_at : string;
  thr_updated_at : string }.
#[export] Instance ThreadRow_eta : Settable ThreadRow := λ r,
  Build_ThreadRow (thr_session_id r) (thr_provider r) (thr_native_thread_id r)
    (thr_native_head_id r) (thr_status r) (thr_first_turn_ordinal r) (thr_last_turn_ordinal r)
    (thr_created_at r) (thr_updated_at r).

(** messages, which refer to sessions. *)
Record StoredMessage := {
  msg_session_id : string;
  msg_turn_id : option string;
  msg_role : string;
  msg_kind : string;
  msg_content_json : string;
  msg_parent_item_id : option string;
  msg_created_at : string;
  msg_sequence : Z;
  msg_checkpoint_revision : option num;
  msg_checkpoint_final : option bool }.
#[export] Instance StoredMessage_eta : Settable StoredMessage := λ r,
  Build_StoredMessage (msg_session_id r) (msg_turn_id r) (msg_role r) (msg_kind r)
    (msg_content_json r) (msg_parent_item_id r) (msg_created_at r) (msg_sequence r)
    (msg_checkpoint_revision r) (msg_checkpoint_final r).

(** queued_messages, which refer to sessions. *)
Record QueuedRow := {
  que_session_id : string;
  que_queue_order : Z;
  que_input_json : string;
  que_created_at : string;
  que_updated_at : string;
  que_ready : bool }.
#[export] Instance QueuedRow_eta : Settable QueuedRow := λ r,
  Build_QueuedRow (que_session_id r) (que_queue_order r) (que_input_json r) (que_created_at r)
    (que_updated_at r) (que_ready r).

(** session_inputs, by session, kind and request; they refer to sessions. *)
Inductive InputKind : Set := IK_question | IK_permission | IK_plan.
Inductive InputStatus : Set := IS_pending | IS_answered | IS_cancelled | IS_expired.
#[export] Instance InputKind_eq_dec : EqDecision InputKind.
Proof. solve_decision. Defined.
#[export] Instance InputKind_countable : Countable InputKind.
Proof.
  refine (inj_countable'
    (λ k, match k with IK_question => 0 | IK_permission => 1 | IK_plan => 2 end)
    (λ n, if decide (n = 0) then IK_question else if decide (n = 1) then IK_permission else IK_plan) _).
  by intros [].
Defined.
#[export] Instance InputStatus_eq_dec : EqDecision InputStatus.
Proof. solve_decision. Defined.
(** [awaiting_dismissal] is 0, 1 or 2. *)
Record InputRow := {
  inp_status : InputStatus;
  inp_request_json : option string;
  inp_awaiting_dismissal : Z;
  inp_owner : option InputRequestOwner;
  inp_turn_id : option string;
  inp_requested_at : option string;
  inp_requested_sequence : option Z;
  inp_updated_sequence : Z }.
#[export] Instance InputRow_eta : Settable InputRow := λ r,
  Build_InputRow (inp_status r) (inp_request_json r) (inp_awaiting_dismissal r) (inp_owner r)
    (inp_turn_id r) (inp_requested_at r) (inp_requested_sequence r) (inp_updated_sequence r).

(** session_execution_steps, by the step's id. *)
Record StepRow := { stp_session_id : string; stp_step : SessionExecutionStep }.
#[export] Instance StepRow_eta : Settable StepRow := λ r,
  Build_StepRow (stp_session_id r) (stp_step r).

Record DelegationRow := {
  del_delegation : SessionDelegation;
  del_created_at : Z }.
(** session_fork_constructions, by session. *)
Record SqlTables := {
  tb_chats : gmap string ChatRow;
  tb_sessions : gmap string SessionRow;
  tb_turns : gmap string TurnRow;
  tb_attempts : gmap (string * string) AttemptRow;
  tb_threads : gmap string ThreadRow;
  tb_stored : gmap string StoredMessage;
  tb_queued : gmap string QueuedRow;
  tb_inputs : gmap (string * InputKind * string) InputRow;
  tb_steps : gmap string StepRow;
  tb_delegations : gmap string DelegationRow;
  tb_forks : gmap string ForkConstruction }.
#[export] Instance SqlTables_eta : Settable SqlTables := λ t,
  Build_SqlTables (tb_chats t) (tb_sessions t) (tb_turns t) (tb_attempts t) (tb_threads t)
    (tb_stored t) (tb_queued t) (tb_inputs t) (tb_steps t) (tb_delegations t) (tb_forks t).
Definition emptyTables : SqlTables := Build_SqlTables ∅ ∅ ∅ ∅ ∅ ∅ ∅ ∅ ∅ ∅ ∅.

(** [UPDATE ... SET f WHERE cond] over a table. *)
Definition update_rows {K R} `{Countable K} (cond : K → R → bool) (f : R → R) (m : gmap K R)
  : gmap K R :=
  map_imap (λ k r, Some (if cond k r then f r else r)) m.
(** [DELETE FROM ... WHERE cond]. *)
Definition delete_rows {K R} `{Countable K} (cond : K → R → bool) (m : gmap K R) : gmap K R :=
  filter (λ kr, cond kr.1 kr.2 = false) m.

Lemma lookup_update_rows {K R} `{Countable K} (cond : K → R → bool) f (m : gmap K R) k :
  update_rows cond f m !! k = (λ r, if cond k r then f r else r) <$> m !! k.
Proof. unfold update_rows. rewrite map_lookup_imap. by destruct (m !! k). Qed.
Lemma lookup_delete_rows {K R} `{Countable K} (cond : K → R → bool) (m : gmap K R) k :
  delete_rows cond m !! k = m !! k ≫= λ r, if cond k r then None else Some r.
Proof.
  unfold delete_rows. rewrite map_lookup_filter. destruct (m !! k) as [r|]; [|done]. cbn.
  destruct (cond k r) eqn:E; cbn; [by rewrite option_guard_False|by rewrite option_guard_True].
Qed.
