(* ===== verification/SessionStatements.v ===== *)
(** * Statements of the session read model

    The statements packages/domain/src/projectors/sql-session-projector.ts shares among
    its events, with chat-last-message-projection.ts: each is an update of [SqlTables].
    An application that fails is rolled back by the projector runner. *)
From Stdlib Require Import Ascii.
From S2P Require Import Prelude Js JsMap Ids Contracts SessionTypes SessionState Dispatch Consumers Timeline ChatProjector SessionTables.

Local Open Scope Z_scope.

(** A time no [Date] can hold, an event that is not complete, or a constraint of the
    schema. *)
Inductive ProjectionFailure : Set := PF_InvalidTime | PF_Decode | PF_Sql.
Definition Projected : Type := result SqlTables ProjectionFailure.

Definition iso (millis : Z) : result string ProjectionFailure :=
  match toISOString millis with Some text => Success text | None => Failure PF_InvalidTime end.

(** ** [Date.parse] of what [toISOString] writes *)

Definition digit_of (c : ascii) : option Z :=
  let n := nat_of_ascii c in
  if (48 <=? n)%nat && (n <=? 57)%nat then Some (Z.of_nat n - 48) else None.
(** [width] digits, and the rest. *)
Fixpoint number_of (width : nat) (acc : Z) (s : string) : option (Z * string) :=
  match width, s with
  | O, _ => Some (acc, s)
  | S width, String c rest => digit_of c ≫= λ d, number_of width (acc * 10 + d) rest
  | S _, EmptyString => None
  end.
Definition skip (c : ascii) (s : string) : option string :=
  match s with String d rest => if decide (c = d) then Some rest else None | EmptyString => None end.
(** The day, counted from 1970-01-01, of a date of the proleptic Gregorian calendar. *)
Definition day_of_civil (year month day : Z) : Z :=
  let y := if month <=? 2 then year - 1 else year in
  let era := y / 400 in
  let yoe := y mod 400 in
  let doy := (153 * (if 2 <? month then month - 3 else month + 9) + 2) / 5 + day - 1 in
  era * 146097 + (yoe * 365 + yoe / 4 - yoe / 100 + doy) - 719468.
Definition year_of (s : string) : option (Z * string) :=
  match s with
  | String "+" rest => number_of 6 0 rest
  | String "-" rest => number_of 6 0 rest ≫= λ '(y, rest), Some (- y, rest)
  | _ => number_of 4 0 s
  end.
Definition parseISOString (s : string) : option Z :=
  '(year, s) ← year_of s; s ← skip "-" s;
  '(month, s) ← number_of 2 0 s; s ← skip "-" s;
  '(day, s) ← number_of 2 0 s; s ← skip "T" s;
  '(hour, s) ← number_of 2 0 s; s ← skip ":" s;
  '(minute, s) ← number_of 2 0 s; s ← skip ":" s;
  '(second, s) ← number_of 2 0 s; s ← skip "." s;
  '(ms, s) ← number_of 3 0 s; s ← skip "Z" s;
  if decide (s = EmptyString)
  then Some ((((day_of_civil year month day * 24 + hour) * 60 + minute) * 60 + second) * 1000 + ms)
  else None.
Example parse_epoch : parseISOString "1970-01-01T00:00:00.000Z" = Some 0.
Proof. reflexivity. Qed.
Example parse_leap : (toISOString 951827696789 ≫= parseISOString) = Some 951827696789.
Proof. reflexivity. Qed.
Example parse_before : (toISOString (-62198755200001) ≫= parseISOString) = Some (-62198755200001).
Proof. reflexivity. Qed.

(** ** Chats *)

Definition update_chat_row (chatId : string) (f : ChatRow → ChatRow) (t : SqlTables) : SqlTables :=
  t <| tb_chats ::= alter f chatId |>.
(** [SELECT chat_id FROM sessions WHERE id = sessionId]. *)
Definition chat_of (sessionId : string) (t : SqlTables) : option string :=
  ses_chat_id <$> tb_sessions t !! sessionId.
Definition in_chat (chatId : string) (t : SqlTables) (sessionId : string) : bool :=
  bool_decide (chat_of sessionId t = Some chatId).
Definition chat_message_times (chatId : string) (role : option string) (t : SqlTables) : list string :=
  msg_created_at <$>
    filter (λ m, in_chat chatId t (msg_session_id m)
                 && match role with None => true | Some role => bool_decide (msg_role m = role) end
                 = true)
      (map_to_list (tb_stored t)).*2.
Definition chat_queued_times (chatId : string) (t : SqlTables) : list string :=
  que_created_at <$>
    filter (λ q, in_chat chatId t (que_session_id q) = true) (map_to_list (tb_queued t)).*2.

(** [updateChatLastMessage] for a chat and for a session; the time is rendered. *)
Definition set_chat_last_message (chatId : string) (value : option string) (t : SqlTables)
  : SqlTables :=
  update_chat_row chatId
    (λ r, (r <| cr_last_message_at := value |>)
            <| cr_last_user_message_at :=
                 max_text (chat_message_times chatId (Some "user") t ++ chat_queued_times chatId t) |>) t.
Definition set_session_last_message (sessionId : string) (value : option string) (t : SqlTables)
  : SqlTables :=
  match chat_of sessionId t with
  | Some chatId => update_chat_row chatId (λ r, r <| cr_last_message_at := value |>) t
  | None => t
  end.
(** [updateChatLastUserMessage]. *)
Definition advance_last_user_message (sessionId value : string) (t : SqlTables) : SqlTables :=
  match chat_of sessionId t with
  | Some chatId =>
      update_chat_row chatId
        (λ r, match cr_last_user_message_at r with
              | Some last => if String.ltb last value
                             then r <| cr_last_user_message_at := Some value |> else r
              | None => r <| cr_last_user_message_at := Some value |>
              end) t
  | None => t
  end.

(** [ORDER BY updated_at DESC, id ASC LIMIT 1] over the sessions of a chat. *)
Definition better_session (a b : string * SessionRow) : bool :=
  if decide (ses_updated_at a.2 = ses_updated_at b.2) then String.leb a.1 b.1
  else String.ltb (ses_updated_at b.2) (ses_updated_at a.2).
Definition replacement (sessionId chatId : string) (t : SqlTables) : option string :=
  fst <$> foldr (λ s best, match best with
                           | None => Some s
                           | Some b => Some (if better_session s b then s else b)
                           end) None
    (filter (λ s, ses_chat_id s.2 = chatId ∧ s.1 ≠ sessionId ∧ ses_archived_at s.2 = None)
       (map_to_list (tb_sessions t))).
Definition replaceUnavailableActiveSession (sessionId updatedAt : string) (t : SqlTables)
  : SqlTables :=
  t <| tb_chats :=
         map_imap (λ chatId r, Some
           (if decide (cr_active_session_id r = Some sessionId)
            then (r <| cr_active_session_id := replacement sessionId chatId t |>)
                   <| cr_updated_at := updatedAt |>
            else r)) (tb_chats t) |>.

(** ** Sessions and provider threads *)

Definition update_session (sessionId : string) (f : SessionRow → SessionRow) (t : SqlTables)
  : SqlTables := t <| tb_sessions ::= alter f sessionId |>.
Definition touch (updatedAt : string) (r : SessionRow) : SessionRow := r <| ses_updated_at := updatedAt |>.

Definition upsertProviderThread (sessionId : string) (thread : ProviderThreadSnapshot) (t : SqlTables)
  : Projected :=
  createdAt ←! iso (pt_createdAt thread);
  updatedAt ←! iso (pt_updatedAt thread);
  Success (t <| tb_threads ::=
    partial_alter (λ row, Some match row with
      | None =>
          {| thr_session_id := sessionId; thr_provider := pt_provider thread;
             thr_native_thread_id := pt_nativeThreadId thread;
             thr_native_head_id := pt_nativeHeadId thread; thr_status := pt_status thread;
             thr_first_turn_ordinal := pt_firstTurnOrdinal thread;
             thr_last_turn_ordinal := pt_lastTurnOrdinal thread;
             thr_created_at := createdAt; thr_updated_at := updatedAt |}
      | Some r =>
          if decide (thr_session_id r = sessionId) then
            r <| thr_native_thread_id := pt_nativeThreadId thread |>
              <| thr_native_head_id := pt_nativeHeadId thread |>
              <| thr_status := pt_status thread |>
              <| thr_first_turn_ordinal := thr_first_turn_ordinal r ?? pt_firstTurnOrdinal thread |>
              <| thr_last_turn_ordinal := pt_lastTurnOrdinal thread |>
              <| thr_updated_at := updatedAt |>
          else r
      end) (scopeProviderThreadId sessionId (pt_id thread)) |>).

Definition setActiveProviderThread (sessionId : string) (providerThreadId : option string)
    (updatedAt : string) : SqlTables → SqlTables :=
  update_session sessionId
    (λ r, touch updatedAt
            (r <| ses_active_provider_thread_id := scopeProviderThreadId sessionId <$> providerThreadId |>)).
Definition active_thread (sessionId : string) (t : SqlTables) : option string :=
  tb_sessions t !! sessionId ≫= ses_active_provider_thread_id.
Definition update_active_thread (sessionId : string) (f : ThreadRow → ThreadRow) (t : SqlTables)
  : SqlTables :=
  match active_thread sessionId t with
  | Some id => t <| tb_threads ::= alter f id |>
  | None => t
  end.
(** [retireActiveProviderThread] of the projector. *)
Definition retire_active_thread (sessionId updatedAt : string) (t : SqlTables) : SqlTables :=
  setActiveProviderThread sessionId None updatedAt
    (update_active_thread sessionId
       (λ r, r <| thr_status := PT_closed |> <| thr_updated_at := updatedAt |>) t).

(** [starting], [running] and [finalizing]. *)
Definition is_active_status (status : TurnStatus) : bool :=
  match status with TS_starting | TS_running | TS_finalizing => true | _ => false end.
Definition max_ordinal (l : list Z) : option Z :=
  foldr (λ n best, match best with None => Some n | Some b => Some (Z.max n b) end) None l.
Definition session_turns (sessionId : string) (t : SqlTables) : list TurnRow :=
  filter (λ r, trn_session_id r = sessionId) (map_to_list (tb_turns t)).*2.

(** [bindLegacyResume] of the projector. *)
Definition bind_legacy_resume (sessionId nativeThreadId : string)
    (nativeHeadId : option (option string)) (at_ : Z) (t : SqlTables) : Projected :=
  match tb_sessions t !! sessionId with
  | None => Success t
  | Some row =>
      let turn_ordinal :=
        max_ordinal (trn_ordinal <$>
          filter (λ r, is_active_status (trn_status r) = true) (session_turns sessionId t)) in
      let head := active_thread sessionId t ≫= λ id, tb_threads t !! id ≫= thr_native_head_id in
      let id := providerThreadIdFor sessionId (ses_provider_id row) nativeThreadId in
      t ←! upsertProviderThread sessionId
             {| pt_id := id; pt_provider := ses_provider_id row;
                pt_nativeThreadId := nativeThreadId;
                pt_nativeHeadId := default head nativeHeadId;
                pt_status := match turn_ordinal with None => PT_idle | Some _ => PT_active end;
                pt_firstTurnOrdinal := turn_ordinal; pt_lastTurnOrdinal := turn_ordinal;
                pt_createdAt := at_; pt_updatedAt := at_ |} t;
      updatedAt ←! iso at_;
      Success (setActiveProviderThread sessionId (Some id) updatedAt t)
  end.
