(* ===== verification/SessionProjections.v ===== *)
(** * Attempts, execution steps and inputs of the session read model

    packages/domain/src/projectors: sql-attempt-projector.ts,
    sql-execution-step-projector.ts and sql-input-projector.ts, which
    sql-session-projector.ts runs for every event. *)
From S2P Require Import Prelude Js JsMap Ids Contracts SessionTypes SessionState Dispatch Timeline ChatProjector SessionTables SessionStatements.

Local Open Scope Z_scope.

(** What SQLite computes that the source only calls: the text [$.itemId] of a valid JSON
    document, and the row [LIMIT 1] keeps of a selection without an order. *)
Class Sqlite := {
  json_itemId : string → option string;
  limit_1 : list SessionExecutionStep → option SessionExecutionStep }.

(** ** Attempts *)

Definition update_attempts (cond : string → AttemptRow → bool) (f : AttemptRow → AttemptRow)
    (sessionId : string) (t : SqlTables) : SqlTables :=
  t <| tb_attempts ::= update_rows (λ k r, bool_decide (k.1 = sessionId) && cond k.2 r) f |>.
Definition attempts_of_turn (sessionId turnId : string) (t : SqlTables) : list (string * AttemptRow) :=
  omap (λ '((sid, id), r),
          if decide (sid = sessionId ∧ atr_turn_id r = turnId) then Some (id, r) else None)
    (map_to_list (tb_attempts t)).
(** [ORDER BY ordinal DESC LIMIT 1] over the attempts of a turn that [sequence] reaches. *)
Definition latest_attempt (sessionId turnId : string) (sequence : Z) (t : SqlTables) : option string :=
  fst <$> foldr (λ a best, match best with
                           | Some b => Some (if atr_ordinal b.2 <? atr_ordinal a.2 then a else b)
                           | None => Some a
                           end) None
    (filter (λ a, atr_started_sequence a.2 <= sequence) (attempts_of_turn sessionId turnId t)).
Definition complete_attempt (status : AttemptStatus) (at_ : string) (sequence : Z) (r : AttemptRow)
  : AttemptRow :=
  r <| atr_status := status |> <| atr_completed_at := Some at_ |> <| atr_updated_sequence := sequence |>.

(** The conflict target is looked up before the other unique key. *)
Definition insert_attempt (sessionId id turnId : string) (ordinal : Z) (reason : AttemptReason)
    (startedAt : string) (sequence : Z) (t : SqlTables) : Projected :=
  if ordinal <=? 0 then Failure PF_Sql
  else match tb_attempts t !! (sessionId, id) with
       | Some _ => Success t
       | None =>
           if existsb (λ a, atr_ordinal a.2 =? ordinal) (attempts_of_turn sessionId turnId t)
           then Failure PF_Sql
           else Success (t <| tb_attempts ::= insert (sessionId, id)
                  {| atr_turn_id := turnId; atr_ordinal := ordinal; atr_reason := reason;
                     atr_status := AS_running; atr_started_at := startedAt;
                     atr_completed_at := None; atr_started_sequence := sequence;
                     atr_updated_sequence := sequence; atr_provider_turn := None |} |>)
       end.

Definition projectSessionAttempt (record : StoredEvent SessionEvent) (t : SqlTables) : Projected :=
  let sessionId := se_streamId record in
  let sequence := se_sequence record in
  match se_event record with
  | SessionDeleted _ =>
      Success (t <| tb_attempts ::= delete_rows (λ k _, bool_decide (k.1 = sessionId)) |>)
  | AttemptProviderTurnBound b =>
      Success (update_attempts
        (λ id r, bool_decide (atr_turn_id r = bt_turnId b) && bool_decide (id = bt_attemptId b)
                 && bool_decide (atr_provider_turn r = None))
        (λ r, r <| atr_provider_turn := Some (bt_reference b) |>) sessionId t)
  | TurnStarted turnId startedAt _ attemptId _ =>
      startedAt ←! iso startedAt;
      insert_attempt sessionId (default (attemptIdFor turnId 1) attemptId) turnId 1 AR_initial
        startedAt sequence t
  | AttemptStarted turnId attemptId ordinal reason startedAt _ _ _ =>
      startedAt ←! iso startedAt;
      match attempts_of_turn sessionId turnId t with
      | [] => Success t
      | _ =>
          insert_attempt sessionId attemptId turnId ordinal reason startedAt sequence
            (update_attempts
               (λ _ r, bool_decide (atr_turn_id r = turnId) && (atr_ordinal r <? ordinal)
                       && bool_decide (atr_status r = AS_running)
                       && (atr_updated_sequence r <? sequence))
               (complete_attempt AS_superseded startedAt sequence) sessionId t)
      end
  | TurnSettled turnId outcome settledAt =>
      settledAt ←! iso settledAt;
      Success (match latest_attempt sessionId turnId sequence t with
               | Some latest =>
                   update_attempts (λ id r, (atr_updated_sequence r <? sequence) && bool_decide (id = latest))
                     (complete_attempt (settled_attempt_status outcome) settledAt sequence) sessionId t
               | None => t
               end)
  | _ => Success t
  end.

(** ** Execution steps *)

Definition update_steps (sessionId : string) (cond : SessionExecutionStep → bool)
    (status : StepStatus) (at_ : Z) (t : SqlTables) : SqlTables :=
  t <| tb_steps ::= update_rows (λ _ r, bool_decide (stp_session_id r = sessionId) && cond (stp_step r))
         (λ r, r <| stp_step ::= λ s, s <| es_status := status |> <| es_updatedAt := at_ |> |>) |>.
(** The row [ON CONFLICT(id) DO UPDATE] leaves; [id] determines the other unique key. *)
Definition upsert_step (sessionId : string) (next : SessionExecutionStep) (t : SqlTables) : SqlTables :=
  t <| tb_steps ::= partial_alter (λ row, Some match row with
         | None => {| stp_session_id := sessionId; stp_step := next |}
         | Some r =>
             r <| stp_step ::= λ s,
                    s <| es_kind := es_kind next |>
                      <| es_childSessionId := es_childSessionId next |>
                      <| es_nativeChildId := es_nativeChildId next |>
                      <| es_status := es_status next |>
                      <| es_rootCompletedAt := es_rootCompletedAt next |>
                      <| es_updatedAt := es_updatedAt next |> |>
         end) (es_id next) |>.
Definition step_kinds : list string :=
  ["tool_use"; "tool_result"; "subagent_summary"; "subagent_progress"].
(** A turn with a larger ordinal than the one rolled back to. *)
Definition turn_after (sessionId : string) (through : num) (t : SqlTables) (turnId : string) : bool :=
  match tb_turns t !! turnId with
  | Some r => bool_decide (trn_session_id r = sessionId) && num_ltb through (num_of_Z (trn_ordinal r))
  | None => false
  end.

Section decoding.
Context `{ContentCodec} `{Sqlite}.

Definition project_message_step (sessionId turnId : string) (m : MessageFields)
    (attemptOverride : option string) (t : SqlTables) : SqlTables :=
  let accepted := match tb_stored t !! mf_messageId m with
                  | Some row => bool_decide (msg_session_id row = sessionId
                                             ∧ msg_content_json row = mf_contentJson m)
                  | None => false
                  end in
  let active := tb_turns t !! turnId ≫= λ r,
    if decide (trn_session_id r = sessionId) then Some (trn_active_attempt_id r) else None in
  if negb (bool_decide (mf_kind m ∈ step_kinds)) || negb accepted then t
  else
    match decodeMessageContent (mf_contentJson m), attemptOverride ?? active with
    | Some content, Some attemptId =>
        if decide (executionStepItem content = None ∧ is_progress content = false) then t
        else
          let identity := {| ei_sessionId := sessionId; ei_turnId := turnId;
                             ei_attemptId := attemptId; ei_at := mf_createdAt m |} in
          let previous := limit_1 (stp_step <$>
            filter (λ r, bool_decide (stp_session_id r = sessionId)
                         && same_step identity content (stp_step r) = true)
              (map_to_list (tb_steps t)).*2) in
          match evolveExecutionStep previous identity content with
          | Some next => upsert_step sessionId next t
          | None => t
          end
    | _, _ => t
    end.

Definition projectExecutionStep (record : StoredEvent SessionEvent) (attemptOverride : option string)
    (t : SqlTables) : SqlTables :=
  let sessionId := se_streamId record in
  match se_event record with
  | AttemptStarted turnId attemptId _ _ startedAt _ _ _ =>
      update_steps sessionId
        (λ s, bool_decide (es_turnId s = turnId ∧ es_attemptId s ≠ attemptId
                           ∧ es_status s = ST_running)) ST_cancelled startedAt t
  | TurnsRolledBack _ through _ _ rolledBackAt =>
      update_steps sessionId (λ s, turn_after sessionId through t (es_turnId s))
        ST_cancelled rolledBackAt t
  | TurnSettled turnId outcome settledAt =>
      update_steps sessionId
        (λ s, bool_decide (es_turnId s = turnId ∧ es_status s = ST_running))
        (match outcome with TSO_error => ST_failed | _ => ST_cancelled end) settledAt t
  | SessionDeleted _ =>
      t <| tb_steps ::= delete_rows (λ _ r, bool_decide (stp_session_id r = sessionId)) |>
  | MessagePersisted m =>
      match mf_turnId m with
      | Some turnId => project_message_step sessionId turnId m attemptOverride t
      | None => t
      end
  | _ => t
  end.

(** ** Inputs *)

Section inputs.
Context (sessionId : string) (sequence : Z).

(** [request]: a time no [Date] can hold is skipped. *)
Definition request_input (kind : InputKind) (id text : string) (at_ : option Z)
    (turnId : option string) (owner : option InputRequestOwner) (t : SqlTables) : Projected :=
  match at_ ≫= toISOString with
  | None => Success t
  | Some requestedAt =>
      let excluded :=
        {| inp_status := IS_pending; inp_request_json := Some text; inp_awaiting_dismissal := 0;
           inp_owner := owner; inp_turn_id := turnId; inp_requested_at := Some requestedAt;
           inp_requested_sequence := Some sequence; inp_updated_sequence := sequence |} in
      match tb_inputs t !! (sessionId, kind, id) with
      | None =>
          if decide (is_Some (tb_sessions t !! sessionId))
          then Success (t <| tb_inputs ::= insert (sessionId, kind, id) excluded |>)
          else Failure PF_Sql
      | Some r =>
          let later := match inp_requested_sequence r with Some s => sequence <? s | None => false end in
          if match inp_requested_sequence r with Some s => sequence <=? s | None => true end
          then Success (t <| tb_inputs ::= insert (sessionId, kind, id)
                 (r <| inp_request_json := inp_request_json excluded |>
                    <| inp_owner := if later then owner else inp_owner r ?? owner |>
                    <| inp_turn_id := turnId |>
                    <| inp_requested_at := inp_requested_at excluded |>
                    <| inp_requested_sequence := Some sequence |>
                    <| inp_updated_sequence := Z.max (inp_updated_sequence r) sequence |>) |>)
          else Success t
      end
  end.

(** [resolve] *)
Definition resolve_input (kind : InputKind) (id : string) (status : InputStatus) (t : SqlTables)
  : Projected :=
  match tb_inputs t !! (sessionId, kind, id) with
  | None =>
      if decide (is_Some (tb_sessions t !! sessionId))
      then Success (t <| tb_inputs ::= insert (sessionId, kind, id)
             {| inp_status := status; inp_request_json := None; inp_awaiting_dismissal := 0;
                inp_owner := None; inp_turn_id := None; inp_requested_at := None;
                inp_requested_sequence := None; inp_updated_sequence := sequence |} |>)
      else Failure PF_Sql
  | Some r =>
      if bool_decide (inp_status r = IS_pending)
         || bool_decide (inp_status r = IS_expired) && (inp_updated_sequence r <? sequence)
      then Success (t <| tb_inputs ::= insert (sessionId, kind, id)
             (r <| inp_status := status |> <| inp_awaiting_dismissal := 0 |>
                <| inp_updated_sequence := Z.max (inp_updated_sequence r) sequence |>) |>)
      else Success t
  end.
Definition update_input (kind : InputKind) (id : string) (f : InputRow → InputRow) (t : SqlTables)
  : SqlTables := t <| tb_inputs ::= alter f (sessionId, kind, id) |>.
Definition await_dismissal (kind : InputKind) (id : string) (mark : Z) : SqlTables → SqlTables :=
  update_input kind id
    (λ r, if decide (inp_status r = IS_expired ∧ inp_updated_sequence r = sequence)
          then r <| inp_awaiting_dismissal := mark |> else r).
Definition answer_input (r : InputRow) : InputRow :=
  r <| inp_status := IS_answered |> <| inp_awaiting_dismissal := 0 |>.

Definition input_kinds : list string := ["user_question"; "user_question_answer"; "tool_use"; "tool_result"].
(** A stored tool result names the item. *)
Definition has_tool_result (itemId : string) (t : SqlTables) : bool :=
  existsb (λ m, bool_decide (msg_session_id m = sessionId ∧ msg_kind m = "tool_result"
                             ∧ json_itemId (msg_content_json m) = Some itemId))
    (map_to_list (tb_stored t)).*2.

(** The [MessagePersisted] case, with the time of the message when it is one. *)
Definition project_message_input (m : MessageFields) (createdAt : option Z) (t : SqlTables) : Projected :=
  if negb (bool_decide (mf_kind m ∈ input_kinds)) then Success t
  else
    match decodeMessageContent (mf_contentJson m) with
    | Some (MC_tool_use c) =>
        if decide (tu_tool c = "ExitPlanMode") then
          t ←! request_input IK_plan (tu_itemId c) (mf_contentJson m) createdAt (mf_turnId m)
                 (mf_inputOwner m) t;
          Success (if has_tool_result (tu_itemId c) t
                   then update_input IK_plan (tu_itemId c) answer_input t else t)
        else Success t
    | Some (MC_tool_result c) =>
        Success (update_input IK_plan (tr_itemId c)
          (λ r, answer_input r <| inp_updated_sequence := Z.max (inp_updated_sequence r) sequence |>) t)
    | Some (MC_user_question itemId _ _) =>
        request_input IK_question itemId (mf_contentJson m) createdAt (mf_turnId m) (mf_inputOwner m) t
    | Some (MC_user_question_answer c) =>
        resolve_input IK_question (qa_itemId c)
          (if decide (qa_resolution c = Some "timed-out") then IS_expired
           else if decide (qa_resolution c = Some "cancelled") then IS_cancelled else IS_answered) t
    | _ => Success t
    end.
End inputs.

Definition projectSessionInput (record : StoredEvent SessionEvent) (t : SqlTables) : Projected :=
  let sessionId := se_streamId record in
  let sequence := se_sequence record in
  match se_event record with
  | SessionDeleted _ =>
      Success (t <| tb_inputs ::= delete_rows (λ k _, bool_decide (k.1.1 = sessionId)) |>)
  | PermissionRequested owner requestId turnId payloadJson requestedAt =>
      request_input sessionId sequence IK_permission requestId payloadJson (Some requestedAt)
        match owner with
        | None => Some turnId
        | Some o => ar_turnId <$> owner_attempt o
        end owner t
  | PermissionExpired requestId _ => resolve_input sessionId sequence IK_permission requestId IS_expired t
  | PermissionResolved requestId _ _ _ =>
      resolve_input sessionId sequence IK_permission requestId IS_answered t
  | PlanExpired itemId reason _ =>
      t ←! resolve_input sessionId sequence IK_plan itemId IS_expired t;
      Success (await_dismissal sessionId sequence IK_plan itemId
                 (match reason with PX_uncertain => 2 | PX_expired => 1 end) t)
  | QuestionExpired itemId _ =>
      t ←! resolve_input sessionId sequence IK_question itemId IS_expired t;
      Success (await_dismissal sessionId sequence IK_question itemId 1 t)
  | QuestionResolved itemId _ => resolve_input sessionId sequence IK_question itemId IS_cancelled t
  | MessagePersisted m => project_message_input sessionId sequence m (Some (mf_createdAt m)) t
  | _ => Success t
  end.

(** The accepted message after its checkpoint conflict was handled. *)
Definition stored_as (row : StoredMessage) (m : MessageFields) : MessageFields :=
  {| mf_inputOwner := mf_inputOwner m; mf_messageId := mf_messageId m; mf_turnId := mf_turnId m;
     mf_role := mf_role m; mf_kind := msg_kind row; mf_contentJson := msg_content_json row;
     mf_parentItemId := mf_parentItemId m; mf_checkpointRevision := mf_checkpointRevision m;
     mf_checkpointFinal := mf_checkpointFinal m; mf_createdAt := mf_createdAt m |}.
(** [projectCommittedMessageInput] *)
Definition projectCommittedMessageInput (record : StoredEvent SessionEvent) (t : SqlTables) : Projected :=
  match se_event record with
  | MessagePersisted m =>
      if negb (bool_decide (mf_kind m ∈ input_kinds)) then Success t
      else
        match tb_stored t !! mf_messageId m with
        | Some row =>
            if decide (msg_session_id row = se_streamId record) then
              project_message_input (se_streamId record) (msg_sequence row)
                (stored_as row m) (parseISOString (msg_created_at row)) t
            else Success t
        | None => Success t
        end
  | _ => Success t
  end.
End decoding.
