(* ===== verification/SessionProjector.v ===== *)
(** * The session read model

    [makeSqlSessionProjector] of packages/domain/src/projectors/sql-session-projector.ts:
    the statements of each event, in their order, and the projector the runner of
    [Consumers] drives. *)
From S2P Require Import Prelude Js JsMap Ids Contracts SessionTypes SessionState Dispatch Consumers Timeline ChatProjector SessionTables SessionStatements SessionProjections.

Local Open Scope Z_scope.

(** ** Sessions *)

(** [decodeCreated]: the configuration must be complete, but for [queuePaused]. *)
Definition created_row (e : SessionCreatedEventFields) (createdAt : string) : option SessionRow :=
  title ← ce_title e; provider ← ce_providerId e; model ← ce_model e; status ← ce_status e;
  mode ← ce_runtimeMode e; agents ← ce_agentsJson e; worktree ← ce_worktreeId e;
  forkedSession ← ce_forkedFromSessionId e; forkedMessage ← ce_forkedFromMessageId e;
  permission ← ce_permissionMode e; toolSearch ← ce_toolSearch e;
  Some {| ses_project_id := id_projectId (ce_identity e); ses_title := title;
          ses_title_provenance := default NP_manual (ce_titleProvenance e);
          ses_provider_id := provider; ses_model := model; ses_status := status;
          ses_archived_at := None; ses_active_provider_thread_id := None;
          ses_provider_reservation_id := None; ses_runtime_mode := mode;
          ses_agents_json := agents; ses_worktree_id := worktree;
          ses_chat_id := id_chatId (ce_identity e);
          ses_forked_from_session_id := forkedSession;
          ses_forked_from_message_id := forkedMessage; ses_permission_mode := permission;
          ses_tool_search := toolSearch; ses_queue_paused := default false (ce_queuePaused e);
          ses_created_at := createdAt; ses_updated_at := createdAt |}.

(** [INSERT OR IGNORE]: the references to the chat and to the forked session are checked. *)
Definition insert_session (id : string) (row : SessionRow) (t : SqlTables) : Projected :=
  match tb_sessions t !! id with
  | Some _ => Success t
  | None =>
      let refers := match ses_forked_from_session_id row with
                    | None => true
                    | Some forked => bool_decide (forked = id ∨ is_Some (tb_sessions t !! forked))
                    end in
      if bool_decide (is_Some (tb_chats t !! ses_chat_id row)) && refers
      then Success (t <| tb_sessions ::= insert id row |>) else Failure PF_Sql
  end.
Definition insert_delegation (id : string) (delegation : SessionDelegation) (createdAt : Z) (t : SqlTables)
  : SqlTables :=
  match tb_delegations t !! id with
  | Some _ => t
  | None => t <| tb_delegations ::= insert id
                   {| del_delegation := delegation; del_created_at := createdAt |} |>
  end.
Definition project_created (e : SessionCreatedEventFields) (t : SqlTables) : Projected :=
  let id := id_sessionId (ce_identity e) in
  let created := id_createdAt (ce_identity e) in
  createdAt ←! iso created;
  match created_row e createdAt with
  | None => Failure PF_Decode
  | Some row =>
      t ←! insert_session id row t;
      let t := update_chat_row (ses_chat_id row)
        (λ r, r <| cr_active_session_id := Some id |> <| cr_updated_at := createdAt |>) t in
      let t := match ce_delegation e with
               | Some delegation => insert_delegation id delegation created t
               | None => t
               end in
      match ce_cursor e with
      | Some (Some cursor) => bind_legacy_resume id cursor (Some None) created t
      | _ => Success t
      end
  end.

(** The columns of the session the event is about, and its time. *)
Definition set_session (sessionId : string) (at_ : Z) (f : SessionRow → SessionRow) (t : SqlTables)
  : Projected :=
  updatedAt ←! iso at_;
  Success (update_session sessionId (λ r, touch updatedAt (f r)) t).

(** The open fork construction of the session; [json_set] rejects a malformed payload. *)
Definition cancel_fork_construction (sessionId : string) (deletedAt : Z) (t : SqlTables) : Projected :=
  match tb_forks t !! sessionId with
  | Some f =>
      match fc_completed_at f, fc_payload f with
      | Some _, _ => Success t
      | None, None => Failure PF_Sql
      | None, Some payload =>
          Success (t <| tb_forks ::= insert sessionId
            {| fc_payload := Some (clear_messages payload); fc_completed_at := Some deletedAt;
               fc_cancelled_at := Some deletedAt; fc_error := None |} |>)
      end
  | None => Success t
  end.
(** [DELETE FROM sessions], with the rows that refer to the session. *)
Definition delete_session (sessionId : string) (t : SqlTables) : SqlTables :=
  let other (id : option string) := if decide (id = Some sessionId) then None else id in
  t <| tb_sessions ::= λ rows, (λ r, r <| ses_forked_from_session_id ::= other |>) <$> delete sessionId rows |>
    <| tb_chats ::= fmap (λ r, r <| cr_active_session_id ::= other |> <| cr_origin_session_id ::= other |>) |>
    <| tb_stored ::= delete_rows (λ _ r, bool_decide (msg_session_id r = sessionId)) |>
    <| tb_queued ::= delete_rows (λ _ r, bool_decide (que_session_id r = sessionId)) |>
    <| tb_inputs ::= delete_rows (λ k _, bool_decide (k.1.1 = sessionId)) |>.
Definition project_deleted (sessionId : string) (deletedAt : Z) (t : SqlTables) : Projected :=
  t ←! cancel_fork_construction sessionId deletedAt t;
  updatedAt ←! iso deletedAt;
  Success (delete_session sessionId
    (replaceUnavailableActiveSession sessionId updatedAt t
       <| tb_turns ::= delete_rows (λ _ r, bool_decide (trn_session_id r = sessionId)) |>
       <| tb_threads ::= delete_rows (λ _ r, bool_decide (thr_session_id r = sessionId)) |>)).

(** ** Turns *)

Definition update_turns (sessionId : string) (cond : string → TurnRow → bool) (f : TurnRow → TurnRow)
    (t : SqlTables) : SqlTables :=
  t <| tb_turns ::= update_rows (λ id r, bool_decide (trn_session_id r = sessionId) && cond id r) f |>.
Definition update_turn (sessionId turnId : string) : (TurnRow → bool) → (TurnRow → TurnRow) → SqlTables → SqlTables :=
  λ cond, update_turns sessionId (λ id r, bool_decide (id = turnId) && cond r).

Definition insert_turn (id : string) (row : TurnRow) (t : SqlTables) : Projected :=
  match tb_turns t !! id with
  | Some _ => Success t
  | None =>
      if existsb (λ r, trn_ordinal r =? trn_ordinal row) (session_turns (trn_session_id row) t)
      then Failure PF_Sql else Success (t <| tb_turns ::= insert id row |>)
  end.
Definition activate_thread (sessionId id : string) (ordinal : Z) (startedAt : string) (t : SqlTables)
  : SqlTables :=
  t <| tb_threads ::= alter (λ r,
         if decide (thr_session_id r = sessionId) then
           r <| thr_status := PT_active |>
             <| thr_first_turn_ordinal := thr_first_turn_ordinal r ?? Some ordinal |>
             <| thr_last_turn_ordinal := Some ordinal |> <| thr_updated_at := startedAt |>
         else r) id |>.
Definition project_turn_started (sessionId turnId : string) (startedAt : Z) (ordinal : option Z)
    (attemptId : option string) (providerThreadId : option (option string)) (t : SqlTables) : Projected :=
  started ←! iso startedAt;
  let next := default 0 (max_ordinal (trn_ordinal <$> session_turns sessionId t)) + 1 in
  let ordinal := default next ordinal in
  let thread := match providerThreadId with
                | None => active_thread sessionId t
                | Some id => scopeProviderThreadId sessionId <$> id
                end in
  t ←! insert_turn turnId
         {| trn_session_id := sessionId; trn_ordinal := ordinal; trn_status := TS_starting;
            trn_phase := Some TP_running; trn_provider_thread_id := thread;
            trn_active_attempt_id := default (attemptIdFor turnId 1) attemptId;
            trn_attempt_ordinal := 1; trn_attempt_reason := AR_initial;
            trn_requested_at := started; trn_completed_at := None |} t;
  let t := match thread with
           | Some id => activate_thread sessionId id ordinal started t
           | None => t
           end in
  set_session sessionId startedAt (λ r, r <| ses_status := SS_running |>) t.

(** A phase reaches a turn that is active. *)
Definition project_phase (sessionId turnId : string) (phase : TurnPhase) (at_ : Z) (t : SqlTables)
  : Projected :=
  set_session sessionId at_ id
    (update_turn sessionId turnId (λ r, is_active_status (trn_status r))
       (λ r, r <| trn_phase := Some phase |>) t).

(** [MAX(m.created_at)] read back with [Date.parse] and written again. *)
Definition recompute_last_message (sessionId : string) (t : SqlTables) : Projected :=
  match chat_of sessionId t with
  | None => Success t
  | Some chatId =>
      match max_text (chat_message_times chatId None t) with
      | None => Success (set_chat_last_message chatId None t)
      | Some last =>
          match parseISOString last with
          | None => Failure PF_InvalidTime
          | Some ms => value ←! iso ms; Success (set_chat_last_message chatId (Some value) t)
          end
      end
  end.
Definition project_rollback (sessionId : string) (through messageSequence : num) (rolledBackAt : Z)
    (t : SqlTables) : Projected :=
  let t := update_turns sessionId (λ _ r, num_ltb through (num_of_Z (trn_ordinal r)))
             (λ r, r <| trn_status := TS_rolled_back |>) t in
  let t := t <| tb_stored ::= delete_rows (λ _ m, bool_decide (msg_session_id m = sessionId)
                                && num_ltb messageSequence (num_of_Z (msg_sequence m))) |> in
  updatedAt ←! iso rolledBackAt;
  let t := t <| tb_threads ::= update_rows (λ _ r, bool_decide (thr_session_id r = sessionId))
                  (λ r, r <| thr_status := PT_closed |> <| thr_updated_at := updatedAt |>) |> in
  t ←! set_session sessionId rolledBackAt (λ r, r <| ses_active_provider_thread_id := None |>) t;
  let later (r : InputRow) := match inp_requested_sequence r with
                              | Some s => num_ltb messageSequence (num_of_Z s)
                              | None => false
                              end in
  let t := t <| tb_inputs ::= delete_rows (λ k r, bool_decide (k.1.1 = sessionId) && later r) |> in
  recompute_last_message sessionId
    (t <| tb_inputs ::= update_rows (λ k r, bool_decide (k.1.1 = sessionId)
                                            && bool_decide (inp_status r = IS_pending))
            (λ r, r <| inp_status := IS_expired |> <| inp_awaiting_dismissal := 0 |>) |>).
Definition project_turn_settled (sessionId turnId : string) (outcome : TurnSettlementOutcome)
    (settledAt : Z) (t : SqlTables) : Projected :=
  settled ←! iso settledAt;
  let t := update_turn sessionId turnId (λ _, true)
    (λ r, r <| trn_status := settled_turn_status outcome |> <| trn_phase := None |>
            <| trn_completed_at := Some settled |>) t in
  let t := update_active_thread sessionId
    (λ r, if decide (thr_status r = PT_active)
          then r <| thr_status := PT_idle |> <| thr_updated_at := settled |> else r) t in
  set_session sessionId settledAt (λ r, r <| ses_status := SS_idle |>) t.

(** ** Queue *)

Definition update_queued (sessionId queueId : string) (f : QueuedRow → QueuedRow) (t : SqlTables)
  : SqlTables :=
  t <| tb_queued ::= alter (λ r, if decide (que_session_id r = sessionId) then f r else r) queueId |>.
Definition project_enqueued (sessionId queueId inputJson : string) (position createdAt : Z) (ready : bool)
    (t : SqlTables) : Projected :=
  created ←! iso createdAt;
  t ←! match tb_queued t !! queueId with
       | Some _ => Success t
       | None =>
           if decide (is_Some (tb_sessions t !! sessionId)) then
             Success (t <| tb_queued ::= insert queueId
               {| que_session_id := sessionId; que_queue_order := position;
                  que_input_json := inputJson; que_created_at := created;
                  que_updated_at := created; que_ready := ready |} |>)
           else Failure PF_Sql
       end;
  Success (advance_last_user_message sessionId created t).
Fixpoint reorder_queued (sessionId updatedAt : string) (position : Z) (queueIds : list string)
    (t : SqlTables) : SqlTables :=
  match queueIds with
  | [] => t
  | queueId :: rest =>
      reorder_queued sessionId updatedAt (position + 1) rest
        (update_queued sessionId queueId
           (λ r, r <| que_queue_order := position |> <| que_updated_at := updatedAt |>) t)
  end.

(** ** Messages *)

(** A number that is not one is stored as NULL. *)
Definition revision_column (revision : option num) : option num :=
  match revision with Some NaN => None | r => r end.
(** The [WHERE] of the upsert: a newer checkpoint of a message that is not final. *)
Definition accepts_checkpoint (row : StoredMessage) (revision : option num) : bool :=
  negb (bool_decide (msg_checkpoint_final row = Some true))
  && match revision, msg_checkpoint_revision row with
     | None, None => true
     | None, Some _ => false
     | Some _, None => true
     | Some new, Some old => num_ltb old new
     end.
Definition store_message (sessionId : string) (sequence : Z) (createdAt : string) (m : MessageFields)
    (t : SqlTables) : Projected :=
  let revision := revision_column (mf_checkpointRevision m) in
  match tb_stored t !! mf_messageId m with
  | None =>
      if decide (is_Some (tb_sessions t !! sessionId)) then
        Success (t <| tb_stored ::= insert (mf_messageId m)
          {| msg_session_id := sessionId; msg_turn_id := mf_turnId m; msg_role := mf_role m;
             msg_kind := mf_kind m; msg_content_json := mf_contentJson m;
             msg_parent_item_id := mf_parentItemId m; msg_created_at := createdAt;
             msg_sequence := sequence; msg_checkpoint_revision := revision;
             msg_checkpoint_final := mf_checkpointFinal m |} |>)
      else Failure PF_Sql
  | Some row =>
      if accepts_checkpoint row revision then
        Success (t <| tb_stored ::= insert (mf_messageId m)
          (row <| msg_turn_id := mf_turnId m |> <| msg_role := mf_role m |>
               <| msg_kind := mf_kind m |> <| msg_content_json := mf_contentJson m |>
               <| msg_parent_item_id := mf_parentItemId m |>
               <| msg_checkpoint_revision := revision |>
               <| msg_checkpoint_final := mf_checkpointFinal m |>) |>)
      else Success t
  end.

Section projector.
Context `{ContentCodec} `{Sqlite}.

Definition project_message (record : StoredEvent SessionEvent) (m : MessageFields) (t : SqlTables)
  : Projected :=
  let sessionId := se_streamId record in
  createdAt ←! iso (mf_createdAt m);
  t ←! store_message sessionId (se_sequence record) createdAt m t;
  t ←! projectCommittedMessageInput record t;
  let t := update_session sessionId (touch createdAt) (projectExecutionStep record None t) in
  let t := set_session_last_message sessionId (Some createdAt) t in
  Success (if decide (mf_role m = "user") then advance_last_user_message sessionId createdAt t else t).

(** ** The statements of an event *)

(** The [switch] of [apply]. *)
Definition session_statement (record : StoredEvent SessionEvent) (t : SqlTables) : Projected :=
  let sessionId := se_streamId record in
  match se_event record with
  | SessionCreated e => project_created e t
  | SessionTitleSet title provenance at_ =>
      set_session sessionId at_
        (λ r, r <| ses_title := title |> <| ses_title_provenance := default NP_manual provenance |>) t
  | SessionModelSet model at_ =>
      set_session sessionId at_
        (λ r, r <| ses_model := model |> <| ses_provider_reservation_id := None |>) t
  | SessionProviderSet providerId model at_ =>
      updatedAt ←! iso at_;
      set_session sessionId at_
        (λ r, r <| ses_provider_id := providerId |> <| ses_model := model |>
                <| ses_provider_reservation_id := None |>)
        (retire_active_thread sessionId updatedAt t)
  | SessionRuntimeModeSet mode at_ => set_session sessionId at_ (λ r, r <| ses_runtime_mode := mode |>) t
  | SessionPermissionModeSet mode at_ =>
      set_session sessionId at_ (λ r, r <| ses_permission_mode := mode |>) t
  | SessionWorktreeSet worktreeId at_ =>
      updatedAt ←! iso at_;
      let t := match tb_sessions t !! sessionId with
               | Some row => if decide (ses_worktree_id row ≠ worktreeId)
                             then retire_active_thread sessionId updatedAt t else t
               | None => t
               end in
      set_session sessionId at_
        (λ r, r <| ses_provider_reservation_id :=
                     if decide (ses_worktree_id r = worktreeId) then ses_provider_reservation_id r
                     else None |>
                <| ses_worktree_id := worktreeId |>) t
  | SessionStatusSet status at_ =>
      t ←! set_session sessionId at_ (λ r, r <| ses_status := status |>) t;
      Success (if decide (status = SS_running)
               then update_turns sessionId (λ _ r, bool_decide (trn_status r = TS_starting))
                      (λ r, r <| trn_status := TS_running |>) t
               else t)
  | SessionQueuePausedSet paused at_ => set_session sessionId at_ (λ r, r <| ses_queue_paused := paused |>) t
  | QueuedTurnEnqueued queueId inputJson position createdAt ready =>
      project_enqueued sessionId queueId inputJson position createdAt ready t
  | QueuedTurnUpdated queueId inputJson at_ ready =>
      updatedAt ←! iso at_;
      Success (update_queued sessionId queueId
        (λ r, r <| que_input_json := inputJson |> <| que_updated_at := updatedAt |>
                <| que_ready := ready |>) t)
  | QueuedTurnRemoved queueId _ | QueuedTurnClaimed queueId _ =>
      Success (t <| tb_queued ::= delete_rows (λ id r, bool_decide (id = queueId)
                                                && bool_decide (que_session_id r = sessionId)) |>)
  | QueuedTurnsReordered queueIds at_ =>
      updatedAt ←! iso at_;
      Success (reorder_queued sessionId updatedAt 0 queueIds t)
  | SessionResumeSet cursor _ providerEventCursor at_ =>
      match cursor with
      | None => Success t
      | Some cursor => bind_legacy_resume sessionId cursor providerEventCursor at_ t
      end
  | ProviderThreadUpdated thread => upsertProviderThread sessionId thread t
  | ActiveProviderThreadSet thread at_ =>
      updatedAt ←! iso at_; Success (setActiveProviderThread sessionId thread updatedAt t)
  | SessionArchived at_ =>
      archivedAt ←! iso at_;
      t ←! set_session sessionId at_
             (λ r, r <| ses_archived_at := Some archivedAt |> <| ses_provider_reservation_id := None |>) t;
      Success (replaceUnavailableActiveSession sessionId archivedAt t)
  | SessionUnarchived at_ =>
      unarchivedAt ←! iso at_;
      t ←! set_session sessionId at_ (λ r, r <| ses_archived_at := None |>) t;
      Success (match chat_of sessionId t with
               | Some chatId =>
                   update_chat_row chatId
                     (λ r, if decide (cr_active_session_id r = None)
                           then r <| cr_active_session_id := Some sessionId |>
                                  <| cr_updated_at := unarchivedAt |>
                           else r) t
               | None => t
               end)
  | SessionDeleted deletedAt => project_deleted sessionId deletedAt t
  | TurnStarted turnId startedAt ordinal attemptId providerThreadId =>
      project_turn_started sessionId turnId startedAt ordinal attemptId providerThreadId t
  | AttemptStarted turnId attemptId ordinal reason startedAt _ _ _ =>
      set_session sessionId startedAt id
        (update_turn sessionId turnId (λ _, true)
           (λ r, r <| trn_status := TS_starting |> <| trn_phase := Some TP_running |>
                   <| trn_active_attempt_id := attemptId |> <| trn_attempt_ordinal := ordinal |>
                   <| trn_attempt_reason := reason |>) t)
  | TurnInterruptRequested turnId _ at_ => project_phase sessionId turnId TP_interrupt_requested at_ t
  | TurnInterruptAcknowledged turnId at_ => project_phase sessionId turnId TP_interrupt_acknowledged at_ t
  | TurnInterruptFailed turnId _ at_ => project_phase sessionId turnId TP_running at_ t
  | TurnsRolledBack _ through messageSequence _ rolledBackAt =>
      project_rollback sessionId through messageSequence rolledBackAt t
  | TurnFinalizationRequested turnId attemptId _ _ =>
      Success (update_turn sessionId turnId
        (λ r, bool_decide (trn_active_attempt_id r = attemptId)
              && bool_decide (trn_status r = TS_starting ∨ trn_status r = TS_running))
        (λ r, r <| trn_status := TS_finalizing |>) t)
  | TurnSettled turnId outcome settledAt => project_turn_settled sessionId turnId outcome settledAt t
  | MessagePersisted m => project_message record m t
  | ProviderSessionReserved _ providerSessionId _ =>
      Success (update_session sessionId
        (λ r, r <| ses_provider_reservation_id := Some providerSessionId |>) t)
  | ProviderAttached _ providerSessionId _ =>
      Success (update_session sessionId
        (λ r, if decide (ses_provider_reservation_id r = providerSessionId) then r
              else r <| ses_provider_reservation_id := None |>) t)
  | ProviderStopRequested _ providerSessionId _ | ProviderDetached _ providerSessionId _ =>
      Success (update_session sessionId
        (λ r, if decide (is_Some providerSessionId ∧ ses_provider_reservation_id r = providerSessionId)
              then r <| ses_provider_reservation_id := None |> else r) t)
  | SegmentOpened _ _ _ _ | SegmentSettled _ _ _ _ | PermissionRequested _ _ _ _ _
  | PermissionExpired _ _ | PermissionResolved _ _ _ _ | PlanExpired _ _ _ | QuestionExpired _ _
  | QuestionResolved _ _ | ProviderTurnRequested _ _ _ _ _ | ProviderRecoveryRequested _ _ _ _ _
  | AttemptProviderTurnBound _ | SuccessorTurnScheduled _ _ _ _ _
  | ScheduledSuccessorReady _ _ _ _ _ => Success t
  end.

Definition is_message (event : SessionEvent) : bool :=
  match event with MessagePersisted _ => true | _ => false end.
Definition session_statements (record : StoredEvent SessionEvent) (t : SqlTables) : Projected :=
  t ←! projectSessionAttempt record t;
  t ←! (if is_message (se_event record) then Success t
        else projectSessionInput record (projectExecutionStep record None t));
  session_statement record t.

(** [makeSqlSessionProjector] *)
Definition session_apply (record : StoredEvent SessionEvent) (t : SqlTables)
  : result () ProjectionFailure * SqlTables :=
  match session_statements record t with
  | Success t => (Success tt, t)
  | Failure failure => (Failure failure, t)
  end.
Definition session_projector : ProjectorDefinition := {|
  pd_name := "session-read-model";
  pd_sequenceOf := se_sequence;
  pd_apply := session_apply |}.
End projector.
