(* ===== verification/SessionShows.v ===== *)
(** * What the session read model shows of a session

    The relation between the state a session's events fold to and the rows of its
    session, turns, attempts and queue, and how the statements of [SessionProjector]
    move the rows of one session and leave those of the others. *)
From S2P Require Import Prelude Js JsMap Ids Contracts SessionTypes SessionState SessionLegal SessionInv SessionInvariants Dispatch Consumers Timeline ChatProjector SessionTables SessionStatements SessionProjections SessionProjector.

Local Open Scope Z_scope.

(** ** The relation *)

(** The rows of a table that belong to a session. *)
Definition own {R} (session_of : R → string) (sessionId : string) (m : gmap string R) (id : string)
  : option R :=
  m !! id ≫= λ r, if decide (session_of r = sessionId) then Some r else None.
(** The attempts of a turn, by id. *)
Definition own_attempt (sessionId turnId : string) (m : gmap (string * string) AttemptRow) (id : string)
  : option AttemptRow :=
  m !! (sessionId, id) ≫= λ r, if decide (atr_turn_id r = turnId) then Some r else None.

Record session_row_shows (s : SessionState) (r : SessionRow) : Prop := {
  sr_project : st_projectId s = Some (ses_project_id r);
  sr_chat : st_chatId s = Some (ses_chat_id r);
  sr_title : st_title s = Some (ses_title r);
  sr_provenance : st_titleProvenance s = ses_title_provenance r;
  sr_provider : st_providerId s = Some (ses_provider_id r);
  sr_model : st_model s = Some (ses_model r);
  sr_runtime : st_runtimeMode s = Some (ses_runtime_mode r);
  sr_permission : st_permissionMode s = Some (ses_permission_mode r);
  sr_worktree : st_worktreeId s = ses_worktree_id r;
  sr_paused : st_queuePaused s = ses_queue_paused r;
  sr_archived : st_archived s = bool_decide (is_Some (ses_archived_at r));
  sr_thread : st_activeProviderThreadId s = ses_active_provider_thread_id r;
  sr_reservation : rs_providerSessionId <$> st_providerReservation s = ses_provider_reservation_id r }.
Record attempt_row_shows (bound : gmap string ProviderTurnReference) (id : string) (a : AttemptState)
    (r : AttemptRow) : Prop := {
  ar_ordinal : at_ordinal a = atr_ordinal r;
  ar_reason : at_reason a = atr_reason r;
  ar_status : at_status a = atr_status r;
  ar_started : toISOString (at_startedAt a) = Some (atr_started_at r);
  ar_completed : at_completedAt a ≫= toISOString = atr_completed_at r;
  ar_provider_turn : bound !! id = atr_provider_turn r }.
Record turn_row_shows (t : TurnState) (r : TurnRow) : Prop := {
  tr_ordinal : tn_ordinal t = trn_ordinal r;
  tr_status : tn_status t = trn_status r;
  tr_phase : tn_phase t = trn_phase r;
  tr_thread : tn_providerThreadId t = trn_provider_thread_id r;
  tr_active : tn_activeAttemptId t = trn_active_attempt_id r;
  tr_attempt : ∃ a, tn_attempts t !! tn_activeAttemptId t = Some a
                    ∧ at_ordinal a = trn_attempt_ordinal r ∧ at_reason a = trn_attempt_reason r;
  tr_requested : toISOString (tn_requestedAt t) = Some (trn_requested_at r);
  tr_completed : tn_completedAt t ≫= toISOString = trn_completed_at r }.
Record queued_row_shows (q : QueuedTurn) (r : QueuedRow) : Prop := {
  qr_input : qt_inputJson q = que_input_json r;
  qr_ready : qt_ready q = que_ready r;
  qr_created : toISOString (qt_createdAt q) = Some (que_created_at r) }.

Definition shows_row (s : SessionState) (row : option SessionRow) : Prop :=
  ∃ r, row = Some r ∧ session_row_shows s r.
Definition shows_turns (turns : list (string * TurnState)) (rows : string → option TurnRow) : Prop :=
  ∀ id, option_Forall2 turn_row_shows (jm_get id turns) (rows id).
Definition shows_attempts (turns : list (string * TurnState)) (bound : gmap string ProviderTurnReference)
    (rows : string → string → option AttemptRow) : Prop :=
  ∀ turnId id, option_Forall2 (attempt_row_shows bound id)
    (jm_get turnId turns ≫= λ t, tn_attempts t !! id) (rows turnId id).
Definition shows_queue (queued : gmap string QueuedTurn) (rows : string → option QueuedRow) : Prop :=
  ∀ id, option_Forall2 queued_row_shows (queued !! id) (rows id).

Record session_shown (sessionId : string) (s : SessionState) (t : SqlTables) : Prop := {
  sn_row : shows_row s (tb_sessions t !! sessionId);
  sn_turns : shows_turns (st_turns s) (own trn_session_id sessionId (tb_turns t));
  sn_attempts : shows_attempts (st_turns s) (st_attemptProviderTurns s)
                  (λ turnId, own_attempt sessionId turnId (tb_attempts t));
  sn_queue : shows_queue (st_queuedTurns s) (own que_session_id sessionId (tb_queued t)) }.
Record session_hidden (sessionId : string) (t : SqlTables) : Prop := {
  sh_row : tb_sessions t !! sessionId = None;
  sh_turns : ∀ id, own trn_session_id sessionId (tb_turns t) id = None;
  sh_attempts : ∀ id, tb_attempts t !! (sessionId, id) = None;
  sh_queue : ∀ id, own que_session_id sessionId (tb_queued t) id = None }.
(** A session that exists and was not deleted is shown; any other has no row. *)
Definition session_shows (sessionId : string) (s : SessionState) (t : SqlTables) : Prop :=
  if st_exists s && negb (st_deleted s) then session_shown sessionId s t
  else session_hidden sessionId t.

(** ** Lookups *)

Lemma bind_Success {A B E} (r : result A E) (f : A → result B E) y :
  result_bind f r = Success y ↔ ∃ x, r = Success x ∧ f x = Success y.
Proof. destruct r; cbn; naive_solver. Qed.
Lemma Success_inj {A E} (x y : A) : Success (E := E) x = Success y → x = y.
Proof. by intros [=]. Qed.
Lemma iso_Success at_ text : iso at_ = Success text ↔ toISOString at_ = Some text.
Proof. unfold iso. destruct (toISOString at_); naive_solver. Qed.

Section own.
Context {R : Type} (session_of : R → string) (m : gmap string R).
Lemma own_Some sid id r : own session_of sid m id = Some r ↔ m !! id = Some r ∧ session_of r = sid.
Proof.
  unfold own. destruct (m !! id) as [r'|]; cbn; [|naive_solver].
  case_decide; naive_solver.
Qed.
Lemma own_ext (m' : gmap string R) sid id : m !! id = m' !! id → own session_of sid m id = own session_of sid m' id.
Proof. unfold own. by intros ->. Qed.
(** Updates of the rows of a session. *)
Lemma own_update_rows stream cond f sid id :
  (∀ r, session_of (f r) = session_of r) →
  own session_of sid (update_rows (λ id r, bool_decide (session_of r = stream) && cond id r) f m) id
  = if decide (stream = sid)
    then (λ r, if cond id r : bool then f r else r) <$> own session_of sid m id
    else own session_of sid m id.
Proof.
  intros Hf. unfold own. rewrite lookup_update_rows. destruct (m !! id) as [r|]; cbn; [|by case_decide].
  case_bool_decide as Hr; cbn.
  - destruct (cond id r) eqn:Hc; rewrite ?Hf; repeat case_decide; simplify_eq; cbn; rewrite ?Hc; done.
  - repeat case_decide; simplify_eq; done.
Qed.
Lemma own_delete_rows stream cond sid id :
  own session_of sid (delete_rows (λ id r, bool_decide (session_of r = stream) && cond id r) m) id
  = if decide (stream = sid)
    then own session_of sid m id ≫= λ r, if cond id r : bool then None else Some r
    else own session_of sid m id.
Proof.
  unfold own. rewrite lookup_delete_rows. destruct (m !! id) as [r|]; cbn; [|by case_decide].
  case_bool_decide as Hr; cbn.
  - destruct (cond id r) eqn:Hc; cbn; repeat case_decide; simplify_eq; cbn; rewrite ?Hc; done.
  - repeat case_decide; simplify_eq; done.
Qed.
Lemma own_alter stream key f sid id :
  (∀ r, session_of (f r) = session_of r) →
  own session_of sid (alter (λ r, if decide (session_of r = stream) then f r else r) key m) id
  = if decide (stream = sid ∧ key = id) then f <$> own session_of sid m id else own session_of sid m id.
Proof.
  intros Hf. unfold own. destruct (decide (key = id)) as [->|Hk].
  - rewrite lookup_alter_eq. destruct (m !! id) as [r|]; cbn; [|by case_decide].
    destruct (decide (session_of r = stream)) as [Hr|Hr]; rewrite ?Hf;
      repeat case_decide; simplify_eq; naive_solver.
  - rewrite lookup_alter_ne by done. rewrite decide_False by naive_solver. done.
Qed.
Lemma own_insert key r sid id :
  m !! key = None →
  own session_of sid (<[key := r]> m) id
  = if decide (key = id) then if decide (session_of r = sid) then Some r else None
    else own session_of sid m id.
Proof. intros Hk. unfold own. rewrite lookup_insert. case_decide; cbn; [by case_decide|done]. Qed.
End own.

(** ** Statements that leave the rows alone *)

Record quiet (t t' : SqlTables) : Prop := {
  qu_turns : tb_turns t' = tb_turns t;
  qu_attempts : tb_attempts t' = tb_attempts t;
  qu_queued : tb_queued t' = tb_queued t }.
Lemma quiet_tables_refl t : quiet t t.
Proof. done. Qed.
Lemma quiet_tables_trans t1 t2 t3 : quiet t1 t2 → quiet t2 t3 → quiet t1 t3.
Proof. intros [] []. split; congruence. Qed.

Lemma update_session_lookup sid f t other :
  tb_sessions (update_session sid f t) !! other
  = if decide (sid = other) then f <$> tb_sessions t !! other else tb_sessions t !! other.
Proof.
  unfold update_session. cbn. case_decide as Hne; [subst; apply lookup_alter_eq|].
  by apply lookup_alter_ne.
Qed.
Lemma set_session_Success sid at_ f t t' :
  set_session sid at_ f t = Success t' →
  ∃ text, toISOString at_ = Some text ∧ t' = update_session sid (λ r, touch text (f r)) t.
Proof.
  unfold set_session. intros (text & ?%iso_Success & [= <-])%bind_Success. by exists text.
Qed.
(** [upsertProviderThread] writes the threads only. *)
Lemma upsertProviderThread_Success sid thread t t' :
  upsertProviderThread sid thread t = Success t' → quiet t t' ∧ tb_sessions t' = tb_sessions t.
Proof.
  unfold upsertProviderThread.
  by intros (created & _ & (updated & _ & [= <-])%bind_Success)%bind_Success.
Qed.
Lemma update_active_thread_same sid f t :
  quiet t (update_active_thread sid f t)
  ∧ tb_sessions (update_active_thread sid f t) = tb_sessions t.
Proof. unfold update_active_thread. by destruct (active_thread sid t). Qed.
Lemma retire_active_thread_same sid at_ t :
  quiet t (retire_active_thread sid at_ t)
  ∧ tb_sessions (retire_active_thread sid at_ t)
    = tb_sessions (setActiveProviderThread sid None at_ t).
Proof.
  unfold retire_active_thread. set (f := λ r, _).
  destruct (update_active_thread_same sid f t) as [[] Hs]. split; [by split|].
  unfold setActiveProviderThread, update_session. cbn [tb_sessions]. cbv [over] in *.
  cbn -[update_active_thread]. by rewrite Hs.
Qed.
(** [bindLegacyResume] makes the scoped thread of the session's provider active. *)
Lemma bind_legacy_resume_Success sid native head at_ t t' :
  bind_legacy_resume sid native head at_ t = Success t' →
  quiet t t' ∧ ∃ text, tb_sessions t' = alter (λ r, touch text
    (r <| ses_active_provider_thread_id :=
            Some (providerThreadIdFor sid (ses_provider_id r) native) |>)) sid (tb_sessions t).
Proof.
  unfold bind_legacy_resume. destruct (tb_sessions t !! sid) as [row|] eqn:Hrow.
  - intros (t1 & [Hq Hs]%upsertProviderThread_Success & (text & _ & [= <-])%bind_Success)%bind_Success.
    split; [by destruct Hq; split|]. exists text. cbn. rewrite Hs. apply map_eq. intros id.
    destruct (decide (sid = id)) as [->|]; [|by rewrite !lookup_alter_ne].
    rewrite !lookup_alter_eq, Hrow. cbn. by rewrite providerThreadIdFor_scoped.
  - intros [= <-]. split; [apply quiet_tables_refl|]. exists "". apply map_eq. intros id.
    destruct (decide (sid = id)) as [->|]; [by rewrite lookup_alter_eq, Hrow|].
    by rewrite lookup_alter_ne.
Qed.
Lemma advance_last_user_message_same sid text t :
  quiet t (advance_last_user_message sid text t)
  ∧ tb_sessions (advance_last_user_message sid text t) = tb_sessions t.
Proof. unfold advance_last_user_message. by destruct (chat_of sid t). Qed.
Lemma set_session_last_message_same sid text t :
  quiet t (set_session_last_message sid text t)
  ∧ tb_sessions (set_session_last_message sid text t) = tb_sessions t.
Proof. unfold set_session_last_message. by destruct (chat_of sid t). Qed.
Lemma recompute_last_message_Success sid t t' :
  recompute_last_message sid t = Success t' → quiet t t' ∧ tb_sessions t' = tb_sessions t.
Proof.
  unfold recompute_last_message. destruct (chat_of sid t) as [chat|]; [|by intros [= <-]].
  destruct (max_text _) as [last|]; [|by intros [= <-]].
  destruct (parseISOString last) as [ms|]; [|done].
  by intros (value & _ & [= <-])%bind_Success.
Qed.
Lemma store_message_Success sid seq text m t t' :
  store_message sid seq text m t = Success t' → quiet t t' ∧ tb_sessions t' = tb_sessions t.
Proof. unfold store_message. intros Ht. repeat case_match; by inv_success. Qed.

Section inputs.
Context (sid : string) (seq : Z).
Lemma request_input_Success kind id text at_ turn owner t t' :
  request_input sid seq kind id text at_ turn owner t = Success t' →
  quiet t t' ∧ tb_sessions t' = tb_sessions t.
Proof. unfold request_input. intros Ht. repeat case_match; by inv_success. Qed.
Lemma resolve_input_Success kind id status t t' :
  resolve_input sid seq kind id status t = Success t' → quiet t t' ∧ tb_sessions t' = tb_sessions t.
Proof. unfold resolve_input. intros Ht. repeat case_match; by inv_success. Qed.
Lemma project_message_input_Success `{ContentCodec} `{Sqlite} m at_ t t' :
  project_message_input sid seq m at_ t = Success t' → quiet t t' ∧ tb_sessions t' = tb_sessions t.
Proof.
  unfold project_message_input. destruct (negb _); [by intros [= <-]|].
  destruct (decodeMessageContent _) as [[]|]; try (by intros [= <-]).
  - case_decide; [|by intros [= <-]].
    intros (t1 & [Hq Hs]%request_input_Success & [= <-])%bind_Success.
    split; [|by destruct (has_tool_result _ _)].
    destruct Hq. by destruct (has_tool_result _ _); split.
  - apply request_input_Success.
  - apply resolve_input_Success.
Qed.
End inputs.

Section statements.
Context `{ContentCodec} `{Sqlite}.
(** Inputs and execution steps have their own tables. *)
Lemma projectSessionInput_Success e t t' :
  projectSessionInput e t = Success t' → quiet t t' ∧ tb_sessions t' = tb_sessions t.
Proof.
  unfold projectSessionInput. destruct (se_event e); try (by intros [= <-]);
    try apply request_input_Success; try apply resolve_input_Success;
    try apply project_message_input_Success.
  all: intros (t1 & [[] Hs]%resolve_input_Success & [= <-])%bind_Success; by split.
Qed.
Lemma projectCommittedMessageInput_Success e t t' :
  projectCommittedMessageInput e t = Success t' → quiet t t' ∧ tb_sessions t' = tb_sessions t.
Proof.
  unfold projectCommittedMessageInput. destruct (se_event e); try (by intros [= <-]).
  destruct (negb _); [by intros [= <-]|]. destruct (tb_stored t !! _); [|by intros [= <-]].
  case_decide; [|by intros [= <-]]. apply project_message_input_Success.
Qed.
Lemma projectExecutionStep_same e over t :
  quiet t (projectExecutionStep e over t)
  ∧ tb_sessions (projectExecutionStep e over t) = tb_sessions t.
Proof.
  unfold projectExecutionStep, project_message_step. destruct (se_event e); try done.
  destruct (mf_turnId message) as [turnId|]; [|done]. destruct (_ || _); [done|].
  destruct (decodeMessageContent _) as [content|]; [|done].
  destruct (over ?? _) as [attempt|]; [|done]. case_decide; [done|].
  by destruct (evolveExecutionStep _ _ _).
Qed.
Lemma project_message_Success e m t t' :
  project_message e m t = Success t' →
  quiet t t' ∧ ∃ text, tb_sessions t' = alter (touch text) (se_streamId e) (tb_sessions t).
Proof.
  unfold project_message. intros (text & _ & Ht)%bind_Success. revert Ht.
  intros (t1 & [Hq1 Hs1]%store_message_Success & Ht)%bind_Success. revert Ht.
  intros (t2 & [Hq2 Hs2]%projectCommittedMessageInput_Success & [= <-])%bind_Success.
  destruct (projectExecutionStep_same e None t2) as [Hq3 Hs3].
  set (t3 := update_session _ _ _).
  assert (quiet t t3) as Hq.
  { apply (quiet_tables_trans _ t1); [done|]. apply (quiet_tables_trans _ t2); [done|]. by destruct Hq3; split. }
  assert (tb_sessions t3 = alter (touch text) (se_streamId e) (tb_sessions t)) as Hs.
  { unfold t3. cbn. by rewrite Hs3, Hs2, Hs1. }
  destruct (set_session_last_message_same (se_streamId e) (Some text) t3) as [Hq4 Hs4].
  destruct (advance_last_user_message_same (se_streamId e) text
              (set_session_last_message (se_streamId e) (Some text) t3)) as [Hq5 Hs5].
  case_decide.
  - split; [|exists text; by rewrite Hs5, Hs4].
    eapply quiet_tables_trans; [exact Hq|]. by eapply quiet_tables_trans.
  - split; [|exists text; by rewrite Hs4]. by eapply quiet_tables_trans.
Qed.
End statements.

(** ** Which events write which rows *)

Definition turn_event (event : SessionEvent) : bool :=
  match event with
  | SessionStatusSet _ _ | SessionDeleted _ | TurnStarted _ _ _ _ _ | AttemptStarted _ _ _ _ _ _ _ _
  | TurnInterruptRequested _ _ _ | TurnInterruptAcknowledged _ _ | TurnInterruptFailed _ _ _
  | TurnsRolledBack _ _ _ _ _ | TurnFinalizationRequested _ _ _ _ | TurnSettled _ _ _ => true
  | _ => false
  end.
Definition queue_event (event : SessionEvent) : bool :=
  match event with
  | SessionDeleted _ | QueuedTurnEnqueued _ _ _ _ _ | QueuedTurnUpdated _ _ _ _
  | QueuedTurnRemoved _ _ | QueuedTurnClaimed _ _ | QueuedTurnsReordered _ _ => true
  | _ => false
  end.
Definition attempt_event (event : SessionEvent) : bool :=
  match event with
  | SessionDeleted _ | AttemptProviderTurnBound _ | TurnStarted _ _ _ _ _
  | AttemptStarted _ _ _ _ _ _ _ _ | TurnSettled _ _ _ => true
  | _ => false
  end.
(** Events about the columns [session_row_shows] names. *)
Definition config_event (event : SessionEvent) : bool :=
  match event with
  | SessionCreated _ | SessionTitleSet _ _ _ | SessionModelSet _ _ | SessionProviderSet _ _ _
  | SessionRuntimeModeSet _ _ | SessionPermissionModeSet _ _ | SessionWorktreeSet _ _
  | SessionQueuePausedSet _ _ | SessionResumeSet _ _ _ _ | ActiveProviderThreadSet _ _
  | SessionArchived _ | SessionUnarchived _ | SessionDeleted _ | TurnsRolledBack _ _ _ _ _
  | ProviderSessionReserved _ _ _ | ProviderAttached _ _ _ | ProviderStopRequested _ _ _
  | ProviderDetached _ _ _ => true
  | _ => false
  end.

Definition state_config (s : SessionState) :=
  (st_projectId s, st_chatId s, st_title s, st_titleProvenance s, st_providerId s, st_model s,
   st_runtimeMode s, st_permissionMode s, st_worktreeId s, st_queuePaused s, st_archived s,
   st_activeProviderThreadId s, st_providerReservation s).
Definition row_config (r : SessionRow) :=
  (ses_project_id r, ses_chat_id r, ses_title r, ses_title_provenance r, ses_provider_id r,
   ses_model r, ses_runtime_mode r, ses_permission_mode r, ses_worktree_id r, ses_queue_paused r,
   ses_archived_at r, ses_active_provider_thread_id r, ses_provider_reservation_id r).
Lemma session_row_shows_same s s' r r' :
  state_config s' = state_config s → row_config r' = row_config r →
  session_row_shows s r → session_row_shows s' r'.
Proof.
  unfold state_config, row_config. intros Hs Hr [].
  injection Hs as S1 S2 S3 S4 S5 S6 S7 S8 S9 S10 S11 S12 S13.
  injection Hr as R1 R2 R3 R4 R5 R6 R7 R8 R9 R10 R11 R12 R13.
  split; rewrite ?S1, ?S2, ?S3, ?S4, ?S5, ?S6, ?S7, ?S8, ?S9, ?S10, ?S11, ?S12, ?S13,
    ?R1, ?R2, ?R3, ?R4, ?R5, ?R6, ?R7, ?R8, ?R9, ?R10, ?R11, ?R12, ?R13; done.
Qed.

Section evolved.
Context `{ContentCodec}.
Lemma evolve_same_turns s e : turn_event e = false → st_turns (evolve s e) = st_turns s.
Proof. destruct e; try done; intros _; evolve_cases; done. Qed.
Lemma evolve_queued_same s e : queue_event e = false → st_queuedTurns (evolve s e) = st_queuedTurns s.
Proof. destruct e; try done; intros _; evolve_cases; done. Qed.
Lemma evolve_bound_same s e :
  attempt_event e = false → st_attemptProviderTurns (evolve s e) = st_attemptProviderTurns s.
Proof. destruct e; try done; intros _; evolve_cases; done. Qed.
Lemma evolve_config_same s e : config_event e = false → state_config (evolve s e) = state_config s.
Proof. destruct e; try done; intros _; evolve_cases; done. Qed.
Lemma evolve_existence s e :
  st_exists (evolve s e) = (match e with SessionCreated _ => true | _ => st_exists s end)
  ∧ st_deleted (evolve s e) = (match e with SessionDeleted _ => true | _ => st_deleted s end)
  ∧ st_sessionId (evolve s e) = match e with
                                | SessionCreated f => Some (id_sessionId (ce_identity f))
                                | _ => st_sessionId s end.
Proof. destruct e; evolve_cases; done. Qed.
End evolved.

(** Takes a statement that succeeded apart, down to the tables it leaves. *)
Ltac statement_cases Ht :=
  repeat match type of Ht with
  | Failure _ = Success _ => discriminate Ht
  | result_bind _ _ = Success _ =>
      let x := fresh "x" in let Hx := fresh "Hx" in
      apply bind_Success in Ht as (x & Hx & Ht); statement_cases Hx
  | set_session _ _ _ _ = Success _ =>
      let x := fresh "text" in let Hx := fresh "Hx" in
      apply set_session_Success in Ht as (x & Hx & ->)
  | context [match ?x with _ => _ end] => destruct x eqn:?
  | Success _ = Success _ => injection Ht as <-
  end.

Section effects.
Context `{ContentCodec} `{Sqlite}.

Lemma projectSessionAttempt_Success e t t' :
  projectSessionAttempt e t = Success t' →
  tb_sessions t' = tb_sessions t ∧ tb_turns t' = tb_turns t ∧ tb_queued t' = tb_queued t
  ∧ tb_threads t' = tb_threads t
  ∧ (attempt_event (se_event e) = false → tb_attempts t' = tb_attempts t).
Proof.
  unfold projectSessionAttempt, insert_attempt. intros Ht.
  destruct (se_event e); cbn; statement_cases Ht; try discriminate; done.
Qed.

(** The parts of an application: attempts, then tables of their own, then the statement. *)
Lemma session_statements_parts e t t' :
  session_statements e t = Success t' →
  ∃ t1 t2, projectSessionAttempt e t = Success t1 ∧ quiet t1 t2 ∧ tb_sessions t2 = tb_sessions t
           ∧ tb_turns t2 = tb_turns t ∧ tb_queued t2 = tb_queued t
           ∧ session_statement e t2 = Success t'.
Proof.
  unfold session_statements. intros (t1 & H1 & (t2 & H2 & H3)%bind_Success)%bind_Success.
  destruct (projectSessionAttempt_Success e t t1 H1) as (Es & Et & Eq & _).
  exists t1, t2. split; [done|].
  assert (quiet t1 t2 ∧ tb_sessions t2 = tb_sessions t1) as [[Q1 Q2 Q3] Hs].
  { destruct (is_message (se_event e)); [by injection H2 as <-|].
    apply projectSessionInput_Success in H2 as [[Q1 Q2 Q3] Hs].
    destruct (projectExecutionStep_same e None t1) as [[P1 P2 P3] Ps].
    split; [split; congruence|congruence]. }
  split_and!; [done| | | |done]; congruence.
Qed.
End effects.
