(* ===== verification/SessionSteps.v ===== *)
(** * One event of the session read model

    What the statements of an event write in each table, and how a legal event moves the
    rows of its session - the session's own row, its turns, attempts and queued turns -
    as it moves the session's state, leaving the rows of the other sessions alone. *)
From S2P Require Import Prelude Js JsMap Ids Contracts SessionTypes SessionState SessionLegal SessionInv SessionInvariants Dispatch DispatchEngine Consumers ConsumersProps Timeline ChatProjector SessionTables SessionStatements SessionProjections SessionProjector SessionShows.

Local Open Scope Z_scope.

Section statements.
Context `{ContentCodec} `{Sqlite}.

(** ** What a statement writes *)

Lemma project_rollback_Success sid through seq at_ t t' :
  project_rollback sid through seq at_ t = Success t' →
  ∃ text, tb_turns t' = tb_turns (update_turns sid (λ _ r, num_ltb through (num_of_Z (trn_ordinal r)))
                                    (λ r, r <| trn_status := TS_rolled_back |>) t)
  ∧ tb_attempts t' = tb_attempts t ∧ tb_queued t' = tb_queued t
  ∧ tb_sessions t' = alter (λ r, touch text (r <| ses_active_provider_thread_id := None |>)) sid (tb_sessions t).
Proof.
  unfold project_rollback. intros (text & _ & (t1 & (text1 & _ & ->)%set_session_Success & Ht)%bind_Success)%bind_Success.
  apply recompute_last_message_Success in Ht as [[Q1 Q2 Q3] Hs]. exists text1.
  rewrite Q1, Q2, Q3, Hs. done.
Qed.
Lemma project_deleted_Success sid at_ t t' :
  project_deleted sid at_ t = Success t' →
  tb_turns t' = delete_rows (λ _ r, bool_decide (trn_session_id r = sid)) (tb_turns t)
  ∧ tb_attempts t' = tb_attempts t
  ∧ tb_queued t' = delete_rows (λ _ r, bool_decide (que_session_id r = sid)) (tb_queued t)
  ∧ tb_sessions t'
    = (λ r, r <| ses_forked_from_session_id ::= λ id, if decide (id = Some sid) then None else id |>)
        <$> delete sid (tb_sessions t).
Proof.
  unfold project_deleted, cancel_fork_construction. intros Ht. statement_cases Ht; done.
Qed.
Lemma reorder_queued_same sid text n ids t :
  tb_sessions (reorder_queued sid text n ids t) = tb_sessions t
  ∧ tb_turns (reorder_queued sid text n ids t) = tb_turns t
  ∧ tb_attempts (reorder_queued sid text n ids t) = tb_attempts t.
Proof. revert n t. induction ids as [|id ids IH]; intros n t; [done|]. cbn [reorder_queued]. by edestruct IH as (-> & -> & ->). Qed.
Lemma project_enqueued_Success sid id input position at_ ready t t' :
  project_enqueued sid id input position at_ ready t = Success t' →
  ∃ text, toISOString at_ = Some text ∧ tb_sessions t' = tb_sessions t ∧ tb_turns t' = tb_turns t
  ∧ tb_attempts t' = tb_attempts t
  ∧ tb_queued t' = match tb_queued t !! id with
                   | Some _ => tb_queued t
                   | None => <[id := {| que_session_id := sid; que_queue_order := position;
                                        que_input_json := input; que_created_at := text;
                                        que_updated_at := text; que_ready := ready |}]> (tb_queued t)
                   end.
Proof.
  unfold project_enqueued. intros Ht. apply bind_Success in Ht as (text & Hiso%iso_Success & Ht).
  apply bind_Success in Ht as (t1 & H1 & [= <-]).
  destruct (advance_last_user_message_same sid text t1) as [[Q1 Q2 Q3] Hs]. rewrite Q1, Q2, Q3, Hs.
  exists text. statement_cases H1; cbn; rewrite ?Heqo; done.
Qed.
(** A creation writes the session's row, unless there is one, and may make a thread active. *)
Lemma project_created_Success e t t' :
  project_created e t = Success t' →
  let id := id_sessionId (ce_identity e) in
  quiet t t' ∧ ∃ row created text rows,
    created_row e created = Some row
    ∧ rows = (match tb_sessions t !! id with Some _ => tb_sessions t | None => <[id := row]> (tb_sessions t) end)
    ∧ tb_sessions t' = match ce_cursor e with
                       | Some (Some cursor) =>
                           alter (λ r, touch text
                             (r <| ses_active_provider_thread_id :=
                                     Some (providerThreadIdFor id (ses_provider_id r) cursor) |>)) id rows
                       | _ => rows
                       end.
Proof.
  unfold project_created. intros (created & _ & Ht)%bind_Success. cbn zeta.
  destruct (created_row e created) as [row|] eqn:Hrow; [|done].
  apply bind_Success in Ht as (t1 & H1 & Ht).
  assert (quiet t t1 ∧ tb_sessions t1 = match tb_sessions t !! id_sessionId (ce_identity e) with
      | Some _ => tb_sessions t | None => <[id_sessionId (ce_identity e) := row]> (tb_sessions t) end)
    as [Q1 Hs1].
  { unfold insert_session in H1. statement_cases H1; done. }
  set (t2 := update_chat_row _ _ t1) in Ht.
  assert (quiet t t2 ∧ tb_sessions t2 = tb_sessions t1) as [Q2 Hs2] by (by destruct Q1; split).
  set (t3 := match ce_delegation e with Some _ => _ | None => _ end) in Ht.
  assert (quiet t t3 ∧ tb_sessions t3 = tb_sessions t1) as [Q3 Hs3].
  { unfold t3. destruct (ce_delegation e); [|done]. unfold insert_delegation.
    destruct (tb_delegations t2 !! _); [done|]. by destruct Q2; split. }
  destruct (ce_cursor e) as [[cursor|]|].
  - apply bind_legacy_resume_Success in Ht as [Q4 [text Hs4]].
    split; [by eapply quiet_tables_trans|]. eexists row, created, text, _. split_and!; [done|done|].
    by rewrite Hs4, Hs3, Hs1.
  - injection Ht as <-. split; [done|]. eexists row, created, "", _. split_and!; [done|done|congruence].
  - injection Ht as <-. split; [done|]. eexists row, created, "", _. split_and!; [done|done|congruence].
Qed.

(** Attempts are written before the statement, turns and queued turns by their events. *)
Lemma session_statement_tables e t t' :
  session_statement e t = Success t' →
  tb_attempts t' = tb_attempts t
  ∧ (turn_event (se_event e) = false → tb_turns t' = tb_turns t)
  ∧ (queue_event (se_event e) = false → tb_queued t' = tb_queued t).
Proof.
  intros Ht. unfold session_statement in Ht.
  destruct (se_event e) eqn:Ee; cbn.
  all: try (apply project_created_Success in Ht as [[] _]; done).
  all: try (apply project_rollback_Success in Ht as (? & ? & ? & ? & ?); done).
  all: try (apply project_deleted_Success in Ht as (? & ? & ? & ?); done).
  all: try (apply project_enqueued_Success in Ht as (? & ? & ? & ? & ? & ?); done).
  all: try (apply project_message_Success in Ht as [[] _]; done).
  all: try (apply upsertProviderThread_Success in Ht as [[] _]; done).
  all: unfold project_turn_started, project_turn_settled, project_phase, insert_turn in Ht; statement_cases Ht;
    try apply bind_legacy_resume_Success in Ht as [[] _]; try done.
  all: unfold retire_active_thread, update_active_thread; repeat case_match; try done.
  destruct (reorder_queued_same (se_streamId e) x 0 queueIds t) as (_ & ? & ?). done.
Qed.

(** What an event does to the columns of its session's row. *)
Definition row_update (sid : string) (event : SessionEvent) (text : string) (r : SessionRow) : SessionRow :=
  match event with
  | SessionTitleSet title provenance _ =>
      r <| ses_title := title |> <| ses_title_provenance := default NP_manual provenance |>
  | SessionModelSet model _ => r <| ses_model := model |> <| ses_provider_reservation_id := None |>
  | SessionProviderSet providerId model _ =>
      r <| ses_provider_id := providerId |> <| ses_model := model |>
        <| ses_provider_reservation_id := None |> <| ses_active_provider_thread_id := None |>
  | SessionRuntimeModeSet mode _ => r <| ses_runtime_mode := mode |>
  | SessionPermissionModeSet mode _ => r <| ses_permission_mode := mode |>
  | SessionWorktreeSet worktreeId _ =>
      if decide (ses_worktree_id r = worktreeId) then r
      else r <| ses_worktree_id := worktreeId |> <| ses_provider_reservation_id := None |>
             <| ses_active_provider_thread_id := None |>
  | SessionQueuePausedSet paused _ => r <| ses_queue_paused := paused |>
  | SessionResumeSet (Some cursor) _ _ _ =>
      r <| ses_active_provider_thread_id := Some (providerThreadIdFor sid (ses_provider_id r) cursor) |>
  | ActiveProviderThreadSet thread _ =>
      r <| ses_active_provider_thread_id := scopeProviderThreadId sid <$> thread |>
  | SessionArchived _ => r <| ses_archived_at := Some text |> <| ses_provider_reservation_id := None |>
  | SessionUnarchived _ => r <| ses_archived_at := None |>
  | TurnsRolledBack _ _ _ _ _ => r <| ses_active_provider_thread_id := None |>
  | ProviderSessionReserved _ id _ => r <| ses_provider_reservation_id := Some id |>
  | ProviderAttached _ id _ =>
      if decide (ses_provider_reservation_id r = id) then r else r <| ses_provider_reservation_id := None |>
  | ProviderStopRequested _ id _ | ProviderDetached _ id _ =>
      if decide (ses_provider_reservation_id r = id) then r <| ses_provider_reservation_id := None |> else r
  | _ => r
  end.
Definition lives_on (event : SessionEvent) : bool :=
  match event with SessionCreated _ | SessionDeleted _ => false | _ => true end.

Lemma alter_config sid f g (m : gmap string SessionRow) id :
  (∀ r, row_config (f r) = row_config (g r)) →
  row_config <$> alter f sid m !! id = row_config <$> alter g sid m !! id.
Proof.
  intros Hfg. destruct (decide (sid = id)) as [->|]; [|by rewrite !lookup_alter_ne].
  rewrite !lookup_alter_eq. destruct (m !! id); cbn; [|done]. by rewrite Hfg.
Qed.
Lemma release_config (id : option string) r :
  row_config (if decide (is_Some id ∧ ses_provider_reservation_id r = id)
              then r <| ses_provider_reservation_id := None |> else r)
  = row_config (if decide (ses_provider_reservation_id r = id)
                then r <| ses_provider_reservation_id := None |> else r).
Proof.
  destruct id as [id|]; repeat case_decide; try done; try naive_solver.
  unfold row_config. cbn. congruence.
Qed.
Lemma session_statement_rows e t t' :
  session_statement e t = Success t' → lives_on (se_event e) = true →
  ∃ text, ∀ id, row_config <$> tb_sessions t' !! id
    = row_config <$> alter (row_update (se_streamId e) (se_event e) text) (se_streamId e) (tb_sessions t) !! id.
Proof.
  intros Ht Hlive. unfold session_statement in Ht.
  assert (∀ (m : gmap string SessionRow) id, row_config <$> m !! id
    = row_config <$> alter (λ r : SessionRow, r) (se_streamId e) m !! id) as Hid.
  { intros m id. destruct (decide (se_streamId e = id)) as [->|]; [|by rewrite lookup_alter_ne].
    rewrite lookup_alter_eq. by destruct (m !! id). }
  destruct (se_event e) eqn:Ee; try discriminate Hlive; cbn [row_update].
  all: try (apply project_rollback_Success in Ht as (text & _ & _ & _ & ->); exists text; intros id; by apply alter_config).
  all: try (apply project_enqueued_Success in Ht as (? & _ & -> & _); exists ""; intros id; apply Hid).
  all: try (apply project_message_Success in Ht as [_ [text ->]]; exists text; intros id; by apply alter_config).
  all: try (apply upsertProviderThread_Success in Ht as [_ ->]; exists ""; intros id; apply Hid).
  all: unfold project_turn_started, project_turn_settled, project_phase, insert_turn in Ht; statement_cases Ht;
    try (apply bind_legacy_resume_Success in Ht as [_ [text ->]]; exists text; intros id; by apply alter_config);
    try (exists ""; intros id; apply Hid).
  all: try (exists ""; intros id'; unfold update_session; cbn [tb_sessions];
            repeat case_match; apply alter_config; intros r; done).
  all: try (eexists; intros id'; unfold update_session; cbn [tb_sessions];
            repeat case_match; apply alter_config; intros r; done).
  - (* the provider changes *)
    exists text. intros id. unfold update_session. cbn [tb_sessions].
    destruct (retire_active_thread_same (se_streamId e) x t) as [_ Hs]. cbn -[retire_active_thread].
    rewrite Hs. cbn. rewrite alter_alter_eq. by apply alter_config.
  - (* the worktree changes *)
    exists text. intros id. rewrite update_session_lookup.
    destruct (decide (se_streamId e = id)) as [<-|Hne].
    + rewrite lookup_alter_eq. destruct (tb_sessions t !! se_streamId e) as [row|] eqn:Hrow.
      2: { by rewrite Hrow. }
      destruct (decide (ses_worktree_id row = worktreeId)) as [Hw|Hw].
      * rewrite decide_False by naive_solver. rewrite Hrow. cbn. subst worktreeId.
        by rewrite !decide_True.
      * rewrite decide_True by done. destruct (retire_active_thread_same (se_streamId e) x t) as [_ ->].
        cbn. rewrite lookup_alter_eq, Hrow. cbn. by rewrite !decide_False.
    + rewrite lookup_alter_ne by done. destruct (tb_sessions t !! se_streamId e) as [row|]; [|done].
      case_decide; [|done]. destruct (retire_active_thread_same (se_streamId e) x t) as [_ ->].
      cbn. by rewrite lookup_alter_ne.
  - (* the turn settles *)
    exists text. intros id. unfold update_session. cbn [tb_sessions].
    edestruct update_active_thread_same as [_ Hs]. cbn -[update_active_thread update_turn].
    rewrite Hs. by apply alter_config.
  - exists "". intros id. destruct (reorder_queued_same (se_streamId e) x 0 queueIds t) as [-> _]. apply Hid.
  - exists "". intros id. apply alter_config. apply release_config.
  - exists "". intros id. apply alter_config. apply release_config.
Qed.

(** ** One event *)

(** The session's row. *)
Lemma row_update_shows s event text r sid :
  session_row_shows s r → legal_live s event → lives_on event = true → st_sessionId s = Some sid →
  session_row_shows (evolve s event) (row_update sid event text r).
Proof.
  intros Hs Hl Hlive Hid. destruct (config_event event) eqn:Hc.
  2: { apply (session_row_shows_same s _ r); [by apply evolve_config_same| |done].
       by destruct event; try discriminate. }
  destruct Hs as [S1 S2 S3 S4 S5 S6 S7 S8 S9 S10 S11 S12 S13].
  destruct event; try discriminate; try done; cbn [row_update];
    unfold evolve, evolve_SessionTitleSet, evolve_SessionModelSet, evolve_SessionProviderSet,
      evolve_SessionWorktreeSet, evolve_ActiveProviderThreadSet, evolve_TurnsRolledBack,
      evolve_ProviderAttached, release_reservation, retireActiveProviderThread; rewrite ?Hid, ?S9, ?S13;
    repeat case_decide; repeat (case_match; try done); split; cbn; try done; rewrite ?S13; try done.
Qed.
Lemma created_row_shows e text row :
  created_row e text = Some row → session_row_shows (evolve initialSessionState (SessionCreated e))
    (match ce_cursor e with
     | Some (Some cursor) =>
         row <| ses_active_provider_thread_id :=
                  Some (providerThreadIdFor (id_sessionId (ce_identity e)) (ses_provider_id row) cursor) |>
     | _ => row
     end).
Proof.
  unfold created_row. intros Hrow. repeat (apply bind_Some in Hrow as (? & ? & Hrow)).
  injection Hrow as <-. cbn [evolve]. unfold evolve_SessionCreated. destruct (ce_cursor e) as [[cursor|]|]; cbn.
  all: split; cbn; try done;
    repeat match goal with H : _ = Some _ |- _ => rewrite H; clear H end; done.
Qed.

(** Turns *)

Lemma shows_turns_set turns rows rows' k t t' :
  shows_turns turns rows → jm_get k turns = Some t → (∀ id, id ≠ k → rows' id = rows id) →
  (∀ r, rows k = Some r → turn_row_shows t r → ∃ r', rows' k = Some r' ∧ turn_row_shows t' r') →
  shows_turns (jm_set k t' turns) rows'.
Proof.
  intros Hs Ht Hother Hk id. rewrite jm_get_set. case_decide as Hid.
  - subst id. specialize (Hs k). rewrite Ht in Hs. inversion Hs as [? r Hr Hr'|].
    destruct (Hk r) as (r' & -> & Hr2); [done|done|]. by constructor.
  - rewrite Hother by congruence. apply Hs.
Qed.
Lemma shows_turns_same turns rows rows' :
  shows_turns turns rows → (∀ id, rows' id = rows id) → shows_turns turns rows'.
Proof. intros Hs Heq id. rewrite Heq. apply Hs. Qed.

(** The rows of the event's session after an update of its turn. *)
Lemma own_update_turn sid turnId cond f t id :
  (∀ r, trn_session_id (f r) = trn_session_id r) →
  own trn_session_id sid (tb_turns (update_turn sid turnId cond f t)) id
  = (λ r, if bool_decide (id = turnId) && cond r then f r else r) <$> own trn_session_id sid (tb_turns t) id.
Proof.
  intros Hf. unfold update_turn, update_turns. cbn. rewrite own_update_rows by done. by rewrite decide_True.
Qed.
Lemma shows_turns_update sid turns turnId cond f t turn turn' :
  shows_turns turns (own trn_session_id sid (tb_turns t)) → jm_get turnId turns = Some turn →
  (∀ r, trn_session_id (f r) = trn_session_id r) →
  (∀ r, turn_row_shows turn r → turn_row_shows turn' (if cond r : bool then f r else r)) →
  shows_turns (jm_set turnId turn' turns) (own trn_session_id sid (tb_turns (update_turn sid turnId cond f t))).
Proof.
  intros Hs Ht Hf Hstep. eapply shows_turns_set; [exact Hs|exact Ht|..].
  - intros id Hid. rewrite own_update_turn by done. rewrite bool_decide_false by done. cbn.
    by rewrite option_fmap_id.
  - intros r Hr Hrow. rewrite own_update_turn, Hr by done. rewrite bool_decide_true by done. cbn.
    eexists. split; [done|]. by apply Hstep.
Qed.

Lemma is_active_terminal status : is_active_status status = negb (is_terminal status).
Proof. by destruct status. Qed.

Section turns.
Context (sid : string) (s : SessionState) (t : SqlTables).
Context (Hinv : turns_inv s) (Hshows : shows_turns (st_turns s) (own trn_session_id sid (tb_turns t))).

Lemma phase_shows turnId phase version at_ t' :
  is_current s turnId → project_phase sid turnId phase at_ t = Success t' →
  shows_turns (st_turns (evolve_TurnPhaseEvent s turnId phase version)) (own trn_session_id sid (tb_turns t')).
Proof.
  intros Hc (text & _ & ->)%set_session_Success.
  destruct (turns_inv_current s turnId Hinv Hc) as (turn & p & Ht & _ & _ & _ & Hterm & _).
  unfold evolve_TurnPhaseEvent, withTurnPhase. rewrite Ht. rewrite decide_True by done. cbn.
  eapply shows_turns_update; [exact Hshows|exact Ht|done|].
  intros r [T1 T2 T3 T4 T5 T6 T7 T8]. rewrite is_active_terminal, <-T2, Hterm. by split.
Qed.
Lemma starting_current id turn :
  jm_get id (st_turns s) = Some turn → is_terminal (tn_status turn) = false → st_currentTurnId s = Some id.
Proof. intros Ht Hf. by apply (ti_turn _ _ _ _ Hinv id turn Ht). Qed.
Lemma status_shows status version t' :
  t' = (if decide (status = SS_running)
        then update_turns sid (λ _ r, bool_decide (trn_status r = TS_starting))
               (λ r, r <| trn_status := TS_running |>) t
        else t) →
  shows_turns (st_turns (evolve_SessionStatusSet s status version)) (own trn_session_id sid (tb_turns t')).
Proof.
  intros ->. unfold evolve_SessionStatusSet, current_turn.
  assert (∀ cond f, (∀ r, trn_session_id (f r) = trn_session_id r) →
    (∀ id turn r, jm_get id (st_turns s) = Some turn → turn_row_shows turn r → cond id r = false) →
    shows_turns (st_turns s) (own trn_session_id sid (tb_turns (update_turns sid cond f t)))) as Hsame.
  { intros cond f Hf Hno id. unfold update_turns. cbn. rewrite own_update_rows by done.
    rewrite decide_True by done. specialize (Hshows id).
    inversion Hshows as [turn r Hrow Hturn|Hturn Hn]; cbn; constructor.
    by rewrite (Hno id turn r). }
  destruct (decide (status = SS_running)) as [->|Hst].
  2: { destruct (st_currentTurnId s ≫= _); [rewrite decide_False by naive_solver|]; exact Hshows. }
  assert (∀ id turn r, jm_get id (st_turns s) = Some turn → turn_row_shows turn r →
            trn_status r = TS_starting → st_currentTurnId s = Some id ∧ tn_status turn = TS_starting) as Hcur.
  { intros id turn r Ht [_ T2 _ _ _ _ _ _] Hr. rewrite <-T2 in Hr. split; [|done].
    eapply starting_current; [exact Ht|by rewrite Hr]. }
  destruct (st_currentTurnId s) as [k|] eqn:Hk; cbn.
  2: { apply Hsame; [done|]. intros id turn r Ht Hr. apply bool_decide_false. intros Hf.
       by destruct (Hcur id turn r Ht Hr Hf). }
  destruct (turns_inv_current s k Hinv Hk) as (turn & p & Ht & Hid & _ & _ & Hterm & _). rewrite Ht.
  case_decide as Hstart.
  - destruct Hstart as [_ Hstart]. cbn. rewrite Hid.
    eapply shows_turns_set; [exact Hshows|exact Ht|..].
    + intros id Hne. unfold update_turns. cbn. rewrite own_update_rows by done.
      rewrite decide_True by done. specialize (Hshows id).
      inversion Hshows as [u r Hrow Hu Hr|Hu Hr]; [|done]. cbn. f_equal.
      rewrite bool_decide_false; [done|]. intros Hf. destruct (Hcur id u r) as [[= ->] _]; done.
    + intros r Hr Hrow. unfold update_turns. cbn. rewrite own_update_rows by done.
      rewrite decide_True, Hr by done. cbn. eexists. split; [done|].
      destruct Hrow as [T1 T2 T3 T4 T5 T6 T7 T8]. rewrite bool_decide_true by congruence. by split.
  - apply Hsame; [done|]. intros id u r Hu Hrow. apply bool_decide_false. intros Hf.
    destruct (Hcur id u r Hu Hrow Hf) as [[= ->] Hs]. rewrite Ht in Hu. injection Hu as ->. naive_solver.
Qed.

Lemma project_turn_started_Success turnId startedAt ordinal attemptId thread t' :
  project_turn_started sid turnId startedAt (Some ordinal) (Some attemptId) thread t = Success t' →
  tb_turns t !! turnId = None →
  ∃ text, toISOString startedAt = Some text
  ∧ tb_turns t' = <[turnId :=
      {| trn_session_id := sid; trn_ordinal := ordinal; trn_status := TS_starting;
         trn_phase := Some TP_running;
         trn_provider_thread_id := match thread with
                                   | None => active_thread sid t
                                   | Some id => scopeProviderThreadId sid <$> id
                                   end;
         trn_active_attempt_id := attemptId; trn_attempt_ordinal := 1;
         trn_attempt_reason := AR_initial; trn_requested_at := text; trn_completed_at := None |}]>
      (tb_turns t).
Proof.
  unfold project_turn_started, insert_turn. intros Ht Hfresh.
  apply bind_Success in Ht as (text & Hiso%iso_Success & Ht). cbn [from_option id] in Ht. rewrite Hfresh in Ht.
  apply bind_Success in Ht as (t1 & H1 & (text1 & _ & ->)%set_session_Success).
  exists text. split; [done|]. destruct (existsb _ _); [done|]. injection H1 as <-. cbn.
  by destruct (match thread with None => active_thread sid t | Some id => scopeProviderThreadId sid <$> id end).
Qed.
Lemma turn_started_shows turnId startedAt ordinal attemptId thread version t' row :
  st_sessionId s = Some sid → tb_sessions t !! sid = Some row → session_row_shows s row →
  jm_get turnId (st_turns s) = None → tb_turns t !! turnId = None →
  project_turn_started sid turnId startedAt (Some ordinal) (Some attemptId) thread t = Success t' →
  shows_turns (st_turns (evolve_TurnStarted s turnId startedAt (Some ordinal) (Some attemptId) thread version))
    (own trn_session_id sid (tb_turns t')).
Proof.
  intros Hid Hrow Hs Hnew Hfresh Ht.
  apply project_turn_started_Success in Ht as (text & Hiso & ->); [|done].
  assert (active_thread sid t = st_activeProviderThreadId s) as Hact.
  { unfold active_thread. rewrite Hrow. cbn. by destruct Hs. }
  intros id. rewrite own_insert by done. cbn [trn_session_id]. rewrite (decide_True (P := sid = sid)) by done.
  unfold evolve_TurnStarted. cbn [default]. rewrite Hid. cbn [default]. rewrite Hact.
  set (thr := match thread with None => _ | Some _ => _ end).
  match goal with |- option_Forall2 _ (jm_get id (st_turns ?e)) _ => set (e' := e) end.
  assert (∃ turn, st_turns e' = jm_set turnId turn (st_turns s) ∧ tn_ordinal turn = ordinal
    ∧ tn_status turn = TS_starting ∧ tn_phase turn = Some TP_running ∧ tn_providerThreadId turn = thr
    ∧ tn_activeAttemptId turn = attemptId
    ∧ tn_attempts turn !! attemptId = Some (initial_attempt attemptId startedAt)
    ∧ tn_requestedAt turn = startedAt ∧ tn_completedAt turn = None)
    as (turn & Hturns & Hturn).
  { unfold e'. eexists. split; [by destruct (thr ≫= _)|].
    split_and!; try reflexivity. apply lookup_singleton_eq. }
  clearbody e'. rewrite Hturns, jm_get_set. case_decide as Hd; [|apply Hshows].
  destruct Hturn as (? & ? & ? & ? & ? & Ha & ? & Hc). constructor. split; cbn; try congruence.
  - eexists. split; [|split]; [by rewrite <-Ha; f_equal|done|done].
  - by rewrite Hc.
Qed.
Lemma finalization_shows turnId attemptId version t' :
  is_current s turnId → active_attempt s turnId = Some attemptId →
  tn_status <$> jm_get turnId (st_turns s) ≠ Some TS_finalizing →
  t' = update_turn sid turnId
    (λ r, bool_decide (trn_active_attempt_id r = attemptId)
          && bool_decide (trn_status r = TS_starting ∨ trn_status r = TS_running))
    (λ r, r <| trn_status := TS_finalizing |>) t →
  shows_turns (st_turns (evolve_TurnFinalizationRequested s turnId version)) (own trn_session_id sid (tb_turns t')).
Proof.
  intros Hc Ha Hst ->.
  destruct (turns_inv_current s turnId Hinv Hc) as (turn & p & Ht & Hid & _ & _ & Hterm & _).
  unfold evolve_TurnFinalizationRequested, active_attempt in *. rewrite Ht in *. cbn in *. rewrite Hid.
  injection Ha as Ha.
  eapply shows_turns_update; [exact Hshows|exact Ht|done|].
  intros r [T1 T2 T3 T4 T5 T6 T7 T8]. rewrite !bool_decide_true; cbn; [by split| |congruence].
  rewrite <-T2. destruct (tn_status turn); naive_solver.
Qed.
Lemma rolled_back_shows through ids at_ version t' :
  tb_turns t' = tb_turns (update_turns sid (λ _ r, num_ltb through (num_of_Z (trn_ordinal r)))
                            (λ r, r <| trn_status := TS_rolled_back |>) t) →
  shows_turns (st_turns (evolve_TurnsRolledBack s through ids at_ version)) (own trn_session_id sid (tb_turns t')).
Proof.
  intros -> id. unfold update_turns. cbn. rewrite own_update_rows by done. rewrite decide_True by done.
  rewrite jm_get_update_all. specialize (Hshows id). inversion Hshows as [turn r Hrow|]; cbn; constructor.
  destruct Hrow as [T1 T2 T3 T4 T5 T6 T7 T8]. unfold roll_back_turn. rewrite <-T1.
  destruct (num_ltb through _); by split.
Qed.
Lemma attempt_started_shows turnId attemptId ordinal reason startedAt version t' :
  is_current s turnId →
  tb_turns t' = tb_turns (update_turn sid turnId (λ _, true)
    (λ r, r <| trn_status := TS_starting |> <| trn_phase := Some TP_running |>
            <| trn_active_attempt_id := attemptId |> <| trn_attempt_ordinal := ordinal |>
            <| trn_attempt_reason := reason |>) t) →
  shows_turns (st_turns (evolve_AttemptStarted s turnId attemptId ordinal reason startedAt version))
    (own trn_session_id sid (tb_turns t')).
Proof.
  intros Hc ->. destruct (turns_inv_current s turnId Hinv Hc) as (turn & p & Ht & Hid & _ & _ & _).
  unfold evolve_AttemptStarted. rewrite Ht. cbn [st_turns]. cbn. rewrite Hid.
  eapply shows_turns_update; [exact Hshows|exact Ht|done|].
  intros r [T1 T2 T3 T4 T5 T6 T7 T8]. split; cbn; try done.
  eexists. split; [apply lookup_insert_eq|done].
Qed.
Lemma settled_shows turnId outcome settledAt version t' :
  is_current s turnId → project_turn_settled sid turnId outcome settledAt t = Success t' →
  shows_turns (st_turns (evolve_TurnSettled s turnId outcome settledAt version))
    (own trn_session_id sid (tb_turns t')).
Proof.
  intros Hc. destruct (turns_inv_current s turnId Hinv Hc) as (turn & p & Ht & Hid & _ & Hao & _).
  unfold project_turn_settled. intros (text & Hiso%iso_Success & (text' & _ & ->)%set_session_Success)%bind_Success.
  assert (st_turns (evolve_TurnSettled s turnId outcome settledAt version)
          = jm_set turnId (settle_turn outcome settledAt turn) (st_turns s)) as ->.
  { unfold evolve_TurnSettled. rewrite Ht. cbn. rewrite Hid.
    destruct (st_activeProviderThreadId s ≫= _); [case_decide|]; done. }
  edestruct update_active_thread_same as [[Q _ _] _]. cbn -[update_active_thread update_turn]. rewrite Q.
  eapply shows_turns_update; [exact Hshows|exact Ht|done|].
  intros r [T1 T2 T3 T4 T5 (a & Ha & To & Tr) T7 T8]. split; cbn; try done.
  destruct (tn_attempts turn !! tn_activeAttemptId turn) as [active|] eqn:Hactive; [|done].
  injection Ha as ->. destruct (ao_each _ Hao _ _ Hactive) as (-> & _).
  eexists. split; [apply lookup_insert_eq|done].
Qed.
End turns.

(** Attempts *)

Lemma own_attempt_update cond f sid turnId t id :
  (∀ r, atr_turn_id (f r) = atr_turn_id r) →
  own_attempt sid turnId (tb_attempts (update_attempts cond f sid t)) id
  = (λ r, if cond id r : bool then f r else r) <$> own_attempt sid turnId (tb_attempts t) id.
Proof.
  intros Hf. unfold own_attempt, update_attempts. cbn. rewrite lookup_update_rows. cbn.
  destruct (tb_attempts t !! (sid, id)) as [r|]; cbn; [|done].
  rewrite bool_decide_true by done. cbn. destruct (cond id r) eqn:Hc; rewrite ?Hf;
    case_decide; cbn; rewrite ?Hc; done.
Qed.
Lemma elem_attempts_of_turn sid turnId t id r :
  (id, r) ∈ attempts_of_turn sid turnId t ↔ own_attempt sid turnId (tb_attempts t) id = Some r.
Proof.
  unfold attempts_of_turn, own_attempt. rewrite list_elem_of_omap. split.
  - intros ([[sid' id'] r'] & Hin%elem_of_map_to_list & Hd). case_decide as Hc; [|done].
    destruct Hc as [-> Hturn]. injection Hd as -> ->. rewrite Hin. cbn. by rewrite decide_True.
  - destruct (tb_attempts t !! (sid, id)) as [r'|] eqn:Hr; [|done]. cbn. case_decide as Hc; [|done].
    intros [= ->]. exists ((sid, id), r). split; [by apply elem_of_map_to_list|]. by rewrite decide_True.
Qed.
Lemma own_attempt_insert (m : gmap (string * string) AttemptRow) sid turnId key r id :
  m !! (sid, key) = None →
  own_attempt sid turnId (<[(sid, key) := r]> m) id
  = if decide (key = id) then if decide (atr_turn_id r = turnId) then Some r else None
    else own_attempt sid turnId m id.
Proof.
  intros Hk. unfold own_attempt. destruct (decide (key = id)) as [->|].
  - rewrite lookup_insert_eq. done.
  - by rewrite lookup_insert_ne by congruence.
Qed.
Lemma own_attempt_turn sid turnId m id r : own_attempt sid turnId m id = Some r → atr_turn_id r = turnId.
Proof. unfold own_attempt. intros (r' & _ & Hr)%bind_Some. case_decide; [by simplify_eq|done]. Qed.
(** The attempt whose ordinal is larger than every other's is the latest. *)
Definition later_attempt (a : string * AttemptRow) (best : option (string * AttemptRow)) :=
  match best with
  | Some b => Some (if atr_ordinal b.2 <? atr_ordinal a.2 then a else b)
  | None => Some a
  end.
Lemma foldr_later_elem l b : foldr later_attempt None l = Some b → b ∈ l.
Proof.
  revert b. induction l as [|a l IH]; intros b; cbn; [done|].
  destruct (foldr later_attempt None l) as [c|]; cbn.
  - intros [= <-]. case_match; [by left|right; by apply IH].
  - intros [= <-]. by left.
Qed.
Lemma foldr_later l x :
  x ∈ l → (∀ y, y ∈ l → y = x ∨ atr_ordinal y.2 < atr_ordinal x.2) → foldr later_attempt None l = Some x.
Proof.
  induction l as [|a l IH]; intros Hx Hall; [by apply elem_of_nil in Hx|]. cbn.
  assert (∀ y, y ∈ l → y = x ∨ atr_ordinal y.2 < atr_ordinal x.2) as Hl by (intros y Hy; apply Hall; by right).
  destruct (Hall a) as [-> |Ha]; [by left|..].
  - destruct (foldr later_attempt None l) as [b|] eqn:Hb; cbn; [|done].
    destruct (Hl b) as [-> |Hlt]; [by apply foldr_later_elem|by case_match|].
    by rewrite (proj2 (Z.ltb_lt _ _)).
  - apply elem_of_cons in Hx as [-> |Hx]; [lia|]. rewrite (IH Hx Hl). cbn.
    by rewrite (proj2 (Z.ltb_ge _ _)) by lia.
Qed.

Section attempts.
Context (sid : string) (s : SessionState) (t : SqlTables) (sequence : Z).
Context (Hinv : turns_inv s)
  (Hbound : ∀ id, is_Some (st_attemptProviderTurns s !! id) →
     ∃ k turn, jm_get k (st_turns s) = Some turn ∧ is_Some (tn_attempts turn !! id))
  (Hshows : shows_attempts (st_turns s) (st_attemptProviderTurns s)
     (λ turnId, own_attempt sid turnId (tb_attempts t)))
  (Hseq : ∀ k r, tb_attempts t !! k = Some r →
     atr_started_sequence r < sequence ∧ atr_updated_sequence r < sequence).

Lemma attempt_names_turn k turn id a :
  jm_get k (st_turns s) = Some turn → tn_attempts turn !! id = Some a → id = attemptIdFor k (at_ordinal a).
Proof.
  intros Ht Ha. destruct (ti_turn _ _ _ _ Hinv k turn Ht) as (<- & _ & Hao & _).
  by destruct (ao_each _ Hao id a Ha) as (_ & ? & _).
Qed.
Lemma attempt_row_of_state turnId id r :
  own_attempt sid turnId (tb_attempts t) id = Some r →
  ∃ turn a, jm_get turnId (st_turns s) = Some turn ∧ tn_attempts turn !! id = Some a
            ∧ attempt_row_shows (st_attemptProviderTurns s) id a r.
Proof.
  intros Hr. pose proof (Hshows turnId id) as Hsh. cbv beta in Hsh. rewrite Hr in Hsh.
  inversion Hsh as [a r' Hrow Ha Hr'|]; subst. symmetry in Ha. apply bind_Some in Ha as (turn & Ht & Ha).
  by exists turn, a.
Qed.
Lemma fresh_attempt_row turnId n :
  (∀ turn, jm_get turnId (st_turns s) = Some turn → tn_attempts turn !! attemptIdFor turnId n = None) →
  tb_attempts t !! (sid, attemptIdFor turnId n) = None.
Proof.
  intros Hnone. apply eq_None_not_Some. intros [r Hr].
  destruct (attempt_row_of_state (atr_turn_id r) (attemptIdFor turnId n) r) as (turn & a & Ht & Ha & _).
  { unfold own_attempt. rewrite Hr. cbn. by rewrite decide_True. }
  pose proof (attempt_names_turn _ _ _ _ Ht Ha) as [Hk _]%attemptIdFor_inj. rewrite <-Hk in Ht.
  rewrite (Hnone turn Ht) in Ha. discriminate.
Qed.
Lemma fresh_attempt_unbound turnId n :
  (∀ turn, jm_get turnId (st_turns s) = Some turn → tn_attempts turn !! attemptIdFor turnId n = None) →
  st_attemptProviderTurns s !! attemptIdFor turnId n = None.
Proof.
  intros Hnone. apply eq_None_not_Some. intros Hb.
  destruct (Hbound _ Hb) as (k & turn & Ht & [a Ha]).
  pose proof (attempt_names_turn _ _ _ _ Ht Ha) as [Hk _]%attemptIdFor_inj. rewrite <-Hk in Ht.
  rewrite (Hnone turn Ht) in Ha. discriminate.
Qed.
Lemma shows_attempts_set turns bound rows rows' k attempts turn' :
  shows_attempts turns bound rows →
  attempts = tn_attempts turn' →
  (∀ turnId id, turnId ≠ k → rows' turnId id = rows turnId id) →
  (∀ id, option_Forall2 (attempt_row_shows bound id) (attempts !! id) (rows' k id)) →
  shows_attempts (jm_set k turn' turns) bound rows'.
Proof using.
  intros Hs -> Hother Hk turnId id. rewrite jm_get_set. case_decide as Hd; [subst turnId; apply Hk|].
  rewrite Hother by congruence. apply Hs.
Qed.

(** The first attempt of a new turn. *)
Lemma turn_started_attempts turnId startedAt ordinal thread version e t1 :
  jm_get turnId (st_turns s) = None →
  se_streamId e = sid → se_sequence e = sequence →
  se_event e = TurnStarted turnId startedAt (Some ordinal) (Some (attemptIdFor turnId 1)) thread →
  projectSessionAttempt e t = Success t1 →
  shows_attempts
    (st_turns (evolve_TurnStarted s turnId startedAt (Some ordinal) (Some (attemptIdFor turnId 1)) thread version))
    (st_attemptProviderTurns s) (λ turnId, own_attempt sid turnId (tb_attempts t1)).
Proof.
  intros Hnew Hsid Hsq Ee Ht. unfold projectSessionAttempt in Ht. rewrite Ee, Hsid, Hsq in Ht.
  apply bind_Success in Ht as (text & Hiso%iso_Success & Ht). cbn [from_option id] in Ht.
  assert (tb_attempts t !! (sid, attemptIdFor turnId 1) = None) as Hfree.
  { apply fresh_attempt_row. intros turn. by rewrite Hnew. }
  assert (st_attemptProviderTurns s !! attemptIdFor turnId 1 = None) as Hunbound.
  { apply fresh_attempt_unbound. intros turn. by rewrite Hnew. }
  unfold insert_attempt in Ht. change (1 <=? 0) with false in Ht. cbv iota in Ht. rewrite Hfree in Ht.
  destruct (existsb _ _); [done|]. injection Ht as <-. cbn [tb_attempts].
  match goal with |- shows_attempts (st_turns ?x) _ _ => set (e' := x) end.
  assert (∃ turn, st_turns e' = jm_set turnId turn (st_turns s)
    ∧ tn_attempts turn = {[ attemptIdFor turnId 1 := initial_attempt (attemptIdFor turnId 1) startedAt ]})
    as (turn & -> & Hattempts).
  { unfold e', evolve_TurnStarted. eexists.
    split; [by destruct (match thread with None => _ | Some _ => _ end ≫= _)|done]. }
  eapply shows_attempts_set; [exact Hshows|done|..]; intros id; [intros id2 Hne|]; cbv beta;
    rewrite own_attempt_insert by done; cbn [atr_turn_id].
  - case_decide; [|done]. subst id2. rewrite decide_False by done.
    symmetry. unfold own_attempt. by rewrite Hfree.
  - rewrite lookup_singleton. case_decide as Hd.
    + subst id. rewrite decide_True by done. constructor. by split; cbn; try done; rewrite Hunbound.
    + specialize (Hshows turnId id). rewrite Hnew in Hshows. exact Hshows.
Qed.

(** The current turn's active attempt is its running one, and its row. *)
Lemma active_row k turn :
  st_currentTurnId s = Some k → jm_get k (st_turns s) = Some turn →
  ∃ a r, tn_attempts turn !! tn_activeAttemptId turn = Some a ∧ at_status a = AS_running
    ∧ at_ordinal a = Z.of_nat (size (tn_attempts turn)) ∧ at_id a = tn_activeAttemptId turn
    ∧ own_attempt sid k (tb_attempts t) (tn_activeAttemptId turn) = Some r
    ∧ attempt_row_shows (st_attemptProviderTurns s) (tn_activeAttemptId turn) a r
    ∧ ∀ id b, tn_attempts turn !! id = Some b → id ≠ tn_activeAttemptId turn →
              at_status b ≠ AS_running ∧ at_ordinal b < Z.of_nat (size (tn_attempts turn)).
Proof.
  intros Hc Ht. destruct (turns_inv_current s k Hinv Hc) as (u & p & Hu & Hid & _ & Hao & Hterm & _).
  rewrite Ht in Hu. injection Hu as <-.
  destruct (ao_all _ Hao (Z.of_nat (size (tn_attempts turn)))) as [a Ha].
  { pose proof (ao_size _ Hao). lia. }
  rewrite <-(ao_active _ Hao) in Ha. destruct (ao_each _ Hao _ _ Ha) as (Haid & Hord & _ & Hrun).
  pose proof (Hshows k (tn_activeAttemptId turn)) as Hsh. cbv beta in Hsh. rewrite Ht in Hsh. cbn in Hsh.
  rewrite Ha in Hsh. inversion Hsh as [a0 r Hrow Ha0 Hr|]; subst. exists a, r. split_and!; try done.
  - by apply Hrun.
  - rewrite (ao_active _ Hao) in Hord. apply attemptIdFor_inj in Hord as [_ Hord]. done.
  - intros id b Hb Hne. destruct (ao_each _ Hao _ _ Hb) as (_ & Hbo & Hbound' & Hbrun). split.
    + intros Hr'. by apply Hbrun in Hr' as [? _].
    + assert (at_ordinal b ≠ Z.of_nat (size (tn_attempts turn))); [|lia].
      intros He. apply Hne. by rewrite (ao_active _ Hao), Hbo, He.
Qed.
Lemma attempt_started_attempts turnId attemptId ordinal reason startedAt a5 a6 a7 version turn e t1 :
  is_current s turnId → jm_get turnId (st_turns s) = Some turn →
  ordinal = Z.of_nat (size (tn_attempts turn)) + 1 → attemptId = attemptIdFor turnId ordinal →
  se_streamId e = sid → se_sequence e = sequence →
  se_event e = AttemptStarted turnId attemptId ordinal reason startedAt a5 a6 a7 →
  projectSessionAttempt e t = Success t1 →
  shows_attempts (st_turns (evolve_AttemptStarted s turnId attemptId ordinal reason startedAt version))
    (st_attemptProviderTurns s) (λ turnId, own_attempt sid turnId (tb_attempts t1)).
Proof.
  intros Hc Ht Hord Haid Hsid Hsq Ee Hp. unfold projectSessionAttempt in Hp. rewrite Ee, Hsid, Hsq in Hp.
  apply bind_Success in Hp as (text & Hiso%iso_Success & Hp).
  destruct (active_row turnId turn Hc Ht) as (a & r & Ha & Hrun & Hlast & Hat & Hr & Hrow & Hothers).
  destruct (turns_inv_current s turnId Hinv Hc) as (u & p & Hu & Hid & _ & Hao & Hterm & _).
  rewrite Ht in Hu. injection Hu as <-.
  assert (∀ turn', jm_get turnId (st_turns s) = Some turn' → tn_attempts turn' !! attemptId = None) as Hnone.
  { intros turn' Hu. rewrite Ht in Hu. injection Hu as <-.
    rewrite Haid, Hord, <-Hid. by apply attempts_ok_fresh. }
  assert (tb_attempts t !! (sid, attemptId) = None) as Hfree by (subst attemptId; by apply fresh_attempt_row).
  assert (st_attemptProviderTurns s !! attemptId = None) as Hunbound
    by (subst attemptId; by apply fresh_attempt_unbound).
  destruct (attempts_of_turn sid turnId t) as [|x l] eqn:Hl.
  { apply elem_attempts_of_turn in Hr. rewrite Hl in Hr. by apply elem_of_nil in Hr. }
  clear Hl x l. set (t2 := update_attempts _ _ sid t) in Hp.
  assert (tb_attempts t2 !! (sid, attemptId) = None) as Hfree2.
  { unfold t2, update_attempts. cbn. by rewrite lookup_update_rows, Hfree. }
  pose proof (λ turnId id, own_attempt_update _ (complete_attempt AS_superseded text sequence) sid turnId t id
                             (λ _, eq_refl) : own_attempt _ _ (tb_attempts t2) _ = _) as H2.
  clearbody t2. unfold insert_attempt in Hp. rewrite (proj2 (Z.leb_gt _ _)), Hfree2 in Hp by lia.
  destruct (existsb _ _); [done|]. injection Hp as <-. cbn [tb_attempts].
  unfold evolve_AttemptStarted. rewrite Ht, Ha, decide_True by done. cbn [st_turns]. cbn. rewrite Hid, Hat.
  eapply shows_attempts_set; [exact Hshows|done|..]; [intros turnId' id Hne|intros id]; cbv beta;
    rewrite own_attempt_insert by done; cbn [atr_turn_id].
  - rewrite (decide_False (P := turnId = turnId')) by congruence.
    rewrite H2. case_decide as Hd.
    + subst id. unfold own_attempt. by rewrite Hfree.
    + destruct (own_attempt sid turnId' (tb_attempts t) id) as [r'|] eqn:Hr'; cbn; [|done].
      apply own_attempt_turn in Hr'. by rewrite bool_decide_false by congruence.
  - cbn [tn_attempts]. rewrite lookup_insert. case_decide as Hd.
    { subst id. rewrite decide_True by done. constructor. by split; cbn. }
    rewrite lookup_insert, H2. case_decide as Hactive.
    + subst id. rewrite Hr. cbn. destruct (own_attempt_turn _ _ _ _ _ Hr).
      constructor. pose proof Hrow as [A1 A2 A3 A4 A5 A6].
      assert (atr_updated_sequence r < sequence) as Hsq'.
      { unfold own_attempt in Hr. apply bind_Some in Hr as (r0 & Hr0 & Hd'). case_decide; [|done].
        injection Hd' as ->. by apply (Hseq _ _ Hr0). }
      rewrite bool_decide_true, (proj2 (Z.ltb_lt _ _)), bool_decide_true, (proj2 (Z.ltb_lt _ _))
        by (try lia; congruence). cbn. by split; cbn.
    + pose proof (Hshows turnId id) as Hsh. cbv beta in Hsh. rewrite Ht in Hsh. cbn in Hsh.
      inversion Hsh as [b r' Hrow' Hb Hr'|Hb Hr']; [|by constructor]. cbn. constructor.
      destruct (Hothers id b) as [Hstopped _]; [done|congruence|].
      destruct Hrow' as [A1 A2 A3 A4 A5 A6].
      rewrite (bool_decide_false (atr_status r' = AS_running)) by congruence.
      rewrite andb_false_r. by split.
Qed.

Lemma bound_attempts b version e t1 :
  legal_live s (AttemptProviderTurnBound b) → se_streamId e = sid →
  se_event e = AttemptProviderTurnBound b → projectSessionAttempt e t = Success t1 →
  let s' := evolve_AttemptProviderTurnBound s b version in
  shows_attempts (st_turns s') (st_attemptProviderTurns s')
    (λ turnId, own_attempt sid turnId (tb_attempts t1)).
Proof.
  intros (Hc & Hactive & _ & _ & Hfree & _) Hsid Ee Hp. unfold projectSessionAttempt in Hp. rewrite Ee, Hsid in Hp.
  injection Hp as <-. unfold active_attempt in Hactive.
  destruct (jm_get (bt_turnId b) (st_turns s)) as [turn|] eqn:Ht; [|done]. injection Hactive as Hactive.
  destruct (active_row _ turn Hc Ht) as (a & r & Ha & _ & _ & _ & Hr & Hrow & _).
  rewrite Hactive in Ha, Hr, Hrow. unfold evolve_AttemptProviderTurnBound. rewrite Ht. cbn [mbind option_bind].
  rewrite Ha, Hfree. cbn zeta. intros turnId id. cbn [st_turns st_attemptProviderTurns]. cbv beta.
  rewrite own_attempt_update by done. cbn.
  pose proof (Hshows turnId id) as Hsh. cbv beta in Hsh.
  inversion Hsh as [a' r' Hrow' Ha' Hr'|Ha' Hr']; cbn; constructor.
  symmetry in Ha', Hr'. apply bind_Some in Ha' as (turn' & Ht' & Ha').
  destruct (own_attempt_turn _ _ _ _ _ Hr').
  destruct (decide (id = bt_attemptId b)) as [->|Hne].
  - pose proof (attempt_names_turn _ _ _ _ Ht Ha) as H1. pose proof (attempt_names_turn _ _ _ _ Ht' Ha') as H2.
    rewrite H1 in H2. apply attemptIdFor_inj in H2 as [Hk _]. rewrite <-Hk in *.
    destruct Hrow' as [A1 A2 A3 A4 A5 A6].
    rewrite !bool_decide_true by congruence. split; cbn; try done. by rewrite lookup_insert_eq.
  - rewrite (bool_decide_false (id = _)) by done. rewrite andb_false_r. cbn.
    destruct Hrow' as [A1 A2 A3 A4 A5 A6]. split; try done. by rewrite lookup_insert_ne.
Qed.
Lemma settled_attempts turnId outcome settledAt version e t1 :
  is_current s turnId → se_streamId e = sid → se_sequence e = sequence →
  se_event e = TurnSettled turnId outcome settledAt → projectSessionAttempt e t = Success t1 →
  shows_attempts (st_turns (evolve_TurnSettled s turnId outcome settledAt version))
    (st_attemptProviderTurns s) (λ turnId, own_attempt sid turnId (tb_attempts t1)).
Proof.
  intros Hc Hsid Hsq Ee Hp. unfold projectSessionAttempt in Hp. rewrite Ee, Hsid, Hsq in Hp.
  apply bind_Success in Hp as (text & Hiso%iso_Success & Hp).
  destruct (turns_inv_current s turnId Hinv Hc) as (turn & p & Ht & Hid & _ & Hao & Hterm & _).
  destruct (active_row turnId turn Hc Ht) as (a & r & Ha & Hrun & Hlast & Hat & Hr & Hrow & Hothers).
  assert (∀ id r, own_attempt sid turnId (tb_attempts t) id = Some r →
            atr_started_sequence r < sequence ∧ atr_updated_sequence r < sequence) as Hseq'.
  { intros id r' Hr'. unfold own_attempt in Hr'. apply bind_Some in Hr' as (r0 & Hr0 & Hd').
    case_decide; [|done]. injection Hd' as ->. by apply (Hseq _ _ Hr0). }
  assert (latest_attempt sid turnId sequence t = Some (tn_activeAttemptId turn)) as Hlatest.
  { unfold latest_attempt. fold later_attempt.
    change (foldr _ None ?l) with (foldr later_attempt None l).
    rewrite (foldr_later _ (tn_activeAttemptId turn, r)); [done|..].
    - apply list_elem_of_filter. split; [cbn; by destruct (Hseq' _ _ Hr); lia|by apply elem_attempts_of_turn].
    - intros [id r'] [_ Hin%elem_attempts_of_turn]%list_elem_of_filter.
      destruct (decide (id = tn_activeAttemptId turn)) as [->|Hne]; [left; congruence|right].
      destruct (attempt_row_of_state _ _ _ Hin) as (u & b & Hu & Hb & Hrow').
      rewrite Ht in Hu. injection Hu as <-. destruct (Hothers id b Hb Hne) as [_ Hlt].
      cbn. destruct Hrow as [<- _ _ _ _ _], Hrow' as [<- _ _ _ _ _]. by rewrite Hlast. }
  rewrite Hlatest in Hp. injection Hp as <-.
  assert (st_turns (evolve_TurnSettled s turnId outcome settledAt version)
          = jm_set turnId (settle_turn outcome settledAt turn) (st_turns s)) as ->.
  { unfold evolve_TurnSettled. rewrite Ht. cbn. rewrite Hid.
    destruct (st_activeProviderThreadId s ≫= _); [case_decide|]; done. }
  eapply shows_attempts_set; [exact Hshows|done|..]; [intros turnId' id Hne|intros id]; cbv beta;
    rewrite own_attempt_update by done.
  - destruct (own_attempt sid turnId' (tb_attempts t) id) as [r'|] eqn:Hr'; cbn; [|done].
    rewrite (bool_decide_false (id = _)); [by rewrite andb_false_r|]. intros ->.
    unfold own_attempt in Hr, Hr'. apply bind_Some in Hr as (r0 & Hr0 & Hd), Hr' as (r1 & Hr1 & Hd').
    repeat case_decide; simplify_eq.
  - cbn [settle_turn tn_attempts]. unfold settle_turn. cbn. rewrite Ha, Hat, lookup_insert. case_decide as Hd.
    + subst id. rewrite Hr. cbn. destruct (Hseq' _ _ Hr) as [_ Hlt].
      rewrite (proj2 (Z.ltb_lt _ _)), bool_decide_true by done. cbn. constructor.
      destruct Hrow as [A1 A2 A3 A4 A5 A6]. by split; cbn.
    + pose proof (Hshows turnId id) as Hsh. cbv beta in Hsh. rewrite Ht in Hsh. cbn in Hsh.
      inversion Hsh as [b r' Hrow' Hb Hr'|Hb Hr']; cbn; constructor.
      rewrite (bool_decide_false (id = _)) by done. by rewrite andb_false_r.
Qed.
End attempts.

(** The other events keep the attempts of every turn. *)
Lemma evolve_attempts_same s event :
  turns_inv s → attempt_event event = false →
  ∀ k, tn_attempts <$> jm_get k (st_turns (evolve s event)) = tn_attempts <$> jm_get k (st_turns s).
Proof.
  intros Hinv Ha k. destruct (turn_event event) eqn:He.
  2: { by rewrite evolve_same_turns. }
  assert (∀ k' turn turn', jm_get k' (st_turns s) = Some turn → tn_attempts turn' = tn_attempts turn →
    tn_attempts <$> jm_get k (jm_set (tn_id turn) turn' (st_turns s))
    = tn_attempts <$> jm_get k (st_turns s)) as Hset.
  { intros k' turn turn' Ht Hsame. destruct (ti_turn _ _ _ _ Hinv k' turn Ht) as (-> & _).
    rewrite jm_get_set. case_decide as Hk; [|done]. subst k'. rewrite Ht. cbn. by rewrite Hsame. }
  destruct event; try discriminate; cbn [evolve].
  - unfold evolve_SessionStatusSet, current_turn.
    destruct (st_currentTurnId s) as [c|]; [|done]. cbn. destruct (jm_get c (st_turns s)) as [turn|] eqn:Ht; [|done].
    case_decide; [|done]. by apply (Hset c turn).
  - cbn. rewrite jm_get_update_all. destruct (jm_get k (st_turns s)) as [turn|]; [|done]. cbn.
    unfold roll_back_turn. by destruct (num_ltb _ _).
  - unfold evolve_TurnFinalizationRequested. destruct (jm_get turnId (st_turns s)) as [turn|] eqn:Ht; [|done].
    by apply (Hset turnId turn).
  - unfold evolve_TurnPhaseEvent, withTurnPhase. destruct (jm_get turnId (st_turns s)) as [turn|] eqn:Ht; [|done].
    case_decide; [|done]. destruct (ti_turn _ _ _ _ Hinv turnId turn Ht) as (Hid & _).
    rewrite <-Hid at 1. by apply (Hset turnId turn).
  - unfold evolve_TurnPhaseEvent, withTurnPhase. destruct (jm_get turnId (st_turns s)) as [turn|] eqn:Ht; [|done].
    case_decide; [|done]. destruct (ti_turn _ _ _ _ Hinv turnId turn Ht) as (Hid & _).
    rewrite <-Hid at 1. by apply (Hset turnId turn).
  - unfold evolve_TurnPhaseEvent, withTurnPhase. destruct (jm_get turnId (st_turns s)) as [turn|] eqn:Ht; [|done].
    case_decide; [|done]. destruct (ti_turn _ _ _ _ Hinv turnId turn Ht) as (Hid & _).
    rewrite <-Hid at 1. by apply (Hset turnId turn).
Qed.

(** Queued turns *)

Lemma shows_queue_set queued rows rows' key q :
  shows_queue queued rows → (∀ id, id ≠ key → rows' id = rows id) →
  option_Forall2 queued_row_shows q (rows' key) →
  shows_queue (partial_alter (λ _, q) key queued) rows'.
Proof.
  intros Hs Hother Hkey id. rewrite lookup_partial_alter. case_decide as Hd; [by subst id|].
  rewrite Hother by congruence. apply Hs.
Qed.
Lemma update_queued_own sid key f t id :
  (∀ r, que_session_id (f r) = que_session_id r) →
  own que_session_id sid (tb_queued (update_queued sid key f t)) id
  = if decide (key = id) then f <$> own que_session_id sid (tb_queued t) id
    else own que_session_id sid (tb_queued t) id.
Proof.
  intros Hf. unfold update_queued. cbn. rewrite own_alter by done. repeat case_decide; naive_solver.
Qed.
Lemma reorder_queued_own sid text n ids t id :
  ∃ f, own que_session_id sid (tb_queued (reorder_queued sid text n ids t)) id
       = f <$> own que_session_id sid (tb_queued t) id
  ∧ ∀ q r, queued_row_shows q r → queued_row_shows q (f r).
Proof.
  revert n t. induction ids as [|key ids IH]; intros n t.
  - exists (λ r, r). split; [by rewrite option_fmap_id|done].
  - cbn [reorder_queued]. edestruct IH as (f & Hf & Hshow). rewrite Hf, update_queued_own by done.
    case_decide.
    + rewrite <-option_fmap_compose. eexists. split; [done|]. intros q r Hr. apply Hshow. cbn.
      destruct Hr. by split.
    + by exists f.
Qed.
Lemma queue_taken_shows sid queueId s t version :
  shows_queue (st_queuedTurns s) (own que_session_id sid (tb_queued t)) →
  shows_queue (st_queuedTurns (evolve_QueuedTurnTaken s queueId version))
    (own que_session_id sid (delete_rows (λ id r, bool_decide (id = queueId)
                                             && bool_decide (que_session_id r = sid)) (tb_queued t))).
Proof.
  intros Hs. cbn. apply (shows_queue_set _ (own que_session_id sid (tb_queued t)) _ queueId None); [done|..].
  - intros id Hne. unfold own. rewrite lookup_delete_rows. destruct (tb_queued t !! id); cbn; [|done].
    by rewrite bool_decide_false.
  - unfold own. rewrite lookup_delete_rows. destruct (tb_queued t !! queueId); cbn; [|constructor].
    rewrite bool_decide_true by done. case_bool_decide; cbn; [constructor|].
    rewrite decide_False by done. constructor.
Qed.
(** The queue after an event of it: an enqueued id belongs to this session only. *)
Lemma queue_step sid s t t' e :
  se_streamId e = sid → queue_event (se_event e) = true → lives_on (se_event e) = true →
  legal_live s (se_event e) →
  (∀ queueId a b c d r, se_event e = QueuedTurnEnqueued queueId a b c d →
     tb_queued t !! queueId = Some r → que_session_id r = sid) →
  shows_queue (st_queuedTurns s) (own que_session_id sid (tb_queued t)) →
  session_statement e t = Success t' →
  shows_queue (st_queuedTurns (evolve s (se_event e))) (own que_session_id sid (tb_queued t')).
Proof.
  intros Hsid Hq Hlive Hl Hmine Hs Ht. unfold session_statement in Ht. rewrite Hsid in Ht.
  destruct (se_event e) eqn:Ee; try discriminate; cbn [evolve].
  - (* enqueued *)
    apply project_enqueued_Success in Ht as (text & Hiso & _ & _ & _ & Hrows).
    assert (tb_queued t !! queueId = None) as Hnone.
    { apply eq_None_not_Some. intros [r Hr]. specialize (Hmine _ _ _ _ _ r eq_refl Hr).
      specialize (Hs queueId). cbn in Hl. rewrite Hl in Hs. unfold own in Hs. rewrite Hr in Hs. cbn in Hs.
      rewrite decide_True in Hs by done. inversion Hs. }
    rewrite Hnone in Hrows. rewrite Hrows. cbn [st_queuedTurns evolve_QueuedTurnEnqueued]. cbn.
    apply (shows_queue_set _ (own que_session_id sid (tb_queued t))); [done|..].
    + intros id Hne. rewrite own_insert by done. by rewrite decide_False by congruence.
    + rewrite own_insert by done. rewrite !decide_True by done. constructor. by split.
  - (* updated *)
    apply bind_Success in Ht as (text & _ & <-%Success_inj).
    cbn in Hl. destruct Hl as [q Hl]. unfold evolve_QueuedTurnUpdated. rewrite Hl. cbn [st_queuedTurns]. cbn -[update_queued].
    apply (shows_queue_set _ (own que_session_id sid (tb_queued t))); [done|..].
    + intros id Hne. rewrite update_queued_own by done. by rewrite decide_False by congruence.
    + rewrite update_queued_own by done. rewrite decide_True by done.
      specialize (Hs queueId). rewrite Hl in Hs. inversion Hs as [q' r Hr Hq' Hr'|]; subst. constructor.
      destruct Hr. by split.
  - (* removed *) apply Success_inj in Ht as <-. by apply queue_taken_shows.
  - (* reordered *)
    apply bind_Success in Ht as (text & _ & <-%Success_inj). intros id.
    destruct (reorder_queued_own sid text 0 queueIds t id) as (f & -> & Hf). cbn.
    specialize (Hs id). inversion Hs; cbn; constructor. by apply Hf.
  - (* claimed *) apply Success_inj in Ht as <-. by apply queue_taken_shows.
Qed.

(** ** The other sessions *)

Lemma own_delete_session {R} (session_of : R → string) (m : gmap string R) stream sid id :
  own session_of sid (delete_rows (λ _ r, bool_decide (session_of r = stream)) m) id
  = if decide (stream = sid) then None else own session_of sid m id.
Proof.
  unfold own. rewrite lookup_delete_rows. destruct (m !! id) as [r|]; cbn; [|by case_decide].
  case_bool_decide as Hr; cbn; repeat case_decide; simplify_eq; done.
Qed.
Lemma reorder_queued_other stream sid text n ids t id :
  sid ≠ stream →
  own que_session_id sid (tb_queued (reorder_queued stream text n ids t)) id
  = own que_session_id sid (tb_queued t) id.
Proof.
  intros Hne. revert n t. induction ids as [|key ids IH]; intros n t; [done|]. cbn [reorder_queued].
  rewrite IH. unfold update_queued. cbn. rewrite own_alter by done. by rewrite decide_False by naive_solver.
Qed.
Section other.
Context (e : StoredEvent SessionEvent) (t t' : SqlTables) (sid : string).
Context (Hother : sid ≠ se_streamId e).

Lemma other_attempts id :
  projectSessionAttempt e t = Success t' → tb_attempts t' !! (sid, id) = tb_attempts t !! (sid, id).
Proof.
  assert (∀ cond f t, tb_attempts (update_attempts cond f (se_streamId e) t) !! (sid, id)
                      = tb_attempts t !! (sid, id)) as Hup.
  { intros cond f u. unfold update_attempts. cbn. rewrite lookup_update_rows. cbn.
    rewrite bool_decide_false by done. by destruct (tb_attempts u !! (sid, id)). }
  assert (∀ a b c d f n u u', insert_attempt (se_streamId e) a b c d f n u = Success u' →
            tb_attempts u' !! (sid, id) = tb_attempts u !! (sid, id)) as Hins.
  { intros a b c d f n u u'. unfold insert_attempt. intros Hi. statement_cases Hi; [done|].
    cbn. apply lookup_insert_ne. congruence. }
  unfold projectSessionAttempt. intros Ht.
  destruct (se_event e); try (apply Success_inj in Ht as <-; first [done|apply Hup]).
  - apply Success_inj in Ht as <-. cbn. rewrite lookup_delete_rows. cbn.
    rewrite bool_decide_false by done. by destruct (tb_attempts t !! (sid, id)).
  - apply bind_Success in Ht as (x & _ & Ht). by eapply Hins.
  - apply bind_Success in Ht as (x & _ & Ht). destruct (attempts_of_turn _ _ _); [by apply Success_inj in Ht as <-|].
    apply Hins in Ht. by rewrite Ht, Hup.
  - apply bind_Success in Ht as (x & _ & <-%Success_inj). destruct (latest_attempt _ _ _ _); [apply Hup|done].
Qed.
Lemma other_turns id :
  session_statement e t = Success t' →
  own trn_session_id sid (tb_turns t') id = own trn_session_id sid (tb_turns t) id.
Proof.
  intros Ht. destruct (turn_event (se_event e)) eqn:He.
  2: { apply session_statement_tables in Ht as (_ & -> & _); done. }
  assert (∀ cond f u, (∀ r, trn_session_id (f r) = trn_session_id r) →
            own trn_session_id sid (tb_turns (update_turns (se_streamId e) cond f u)) id
            = own trn_session_id sid (tb_turns u) id) as Hup.
  { intros cond f u Hf. unfold update_turns. cbn. rewrite own_update_rows by done. by rewrite decide_False. }
  unfold session_statement in Ht. destruct (se_event e) eqn:Ee; try discriminate.
  - apply bind_Success in Ht as (t1 & (x & _ & ->)%set_session_Success & <-%Success_inj).
    case_decide; [by rewrite Hup|done].
  - apply project_deleted_Success in Ht as (-> & _). rewrite own_delete_session. by rewrite decide_False.
  - unfold project_turn_started, insert_turn in Ht. apply bind_Success in Ht as (x & _ & Ht).
    apply bind_Success in Ht as (t1 & H1 & (y & _ & ->)%set_session_Success).
    assert (own trn_session_id sid (tb_turns t1) id = own trn_session_id sid (tb_turns t) id) as <-.
    { destruct (tb_turns t !! turnId) as [r|] eqn:Hr; [by apply Success_inj in H1 as <-|].
      destruct (existsb _ _); [done|]. apply Success_inj in H1 as <-. cbn. rewrite own_insert by done. cbn.
      case_decide; [|done]. subst id. rewrite decide_False by done. unfold own. by rewrite Hr. }
    by repeat case_match.
  - apply set_session_Success in Ht as (x & _ & ->). by apply Hup.
  - apply project_rollback_Success in Ht as (x & -> & _). by apply Hup.
  - apply Success_inj in Ht as <-. by apply Hup.
  - unfold project_turn_settled in Ht. apply bind_Success in Ht as (x & _ & (y & _ & ->)%set_session_Success).
    edestruct update_active_thread_same as [[Q _ _] _]. cbn -[update_active_thread update_turn]. rewrite Q.
    by apply Hup.
  - apply set_session_Success in Ht as (x & _ & ->). by apply Hup.
  - apply set_session_Success in Ht as (x & _ & ->). by apply Hup.
  - apply set_session_Success in Ht as (x & _ & ->). by apply Hup.
Qed.
Lemma other_queue id :
  session_statement e t = Success t' →
  own que_session_id sid (tb_queued t') id = own que_session_id sid (tb_queued t) id.
Proof.
  intros Ht. destruct (queue_event (se_event e)) eqn:He.
  2: { apply session_statement_tables in Ht as (_ & _ & ->); done. }
  assert (∀ key f u, (∀ r, que_session_id (f r) = que_session_id r) →
            own que_session_id sid (tb_queued (update_queued (se_streamId e) key f u)) id
            = own que_session_id sid (tb_queued u) id) as Hup.
  { intros key f u Hf. unfold update_queued. cbn. rewrite own_alter by done.
    by rewrite decide_False by naive_solver. }
  assert (∀ key, own que_session_id sid (delete_rows (λ id r, bool_decide (id = key)
            && bool_decide (que_session_id r = se_streamId e)) (tb_queued t)) id
          = own que_session_id sid (tb_queued t) id) as Hdel.
  { intros key. unfold own. rewrite lookup_delete_rows. destruct (tb_queued t !! id) as [r|]; cbn; [|done].
    destruct (bool_decide (id = key)) eqn:Hk; cbn; [|done].
    destruct (bool_decide (que_session_id r = _)) eqn:Hr; cbn; [|done].
    apply bool_decide_eq_true in Hr. by rewrite decide_False by congruence. }
  unfold session_statement in Ht. destruct (se_event e) eqn:Ee; try discriminate.
  - apply project_deleted_Success in Ht as (_ & _ & -> & _). rewrite own_delete_session. by rewrite decide_False.
  - apply project_enqueued_Success in Ht as (x & _ & _ & _ & _ & ->).
    destruct (tb_queued t !! queueId) eqn:Hr; [done|]. rewrite own_insert by done. cbn.
    case_decide; [|done]. subst id. rewrite decide_False by done. unfold own. by rewrite Hr.
  - apply bind_Success in Ht as (x & _ & <-%Success_inj). by apply Hup.
  - apply Success_inj in Ht as <-. apply Hdel.
  - apply bind_Success in Ht as (x & _ & <-%Success_inj).
    by apply reorder_queued_other.
  - apply Success_inj in Ht as <-. apply Hdel.
Qed.
End other.

Definition named (e : StoredEvent SessionEvent) : Prop :=
  match se_event e with
  | SessionCreated f => id_sessionId (ce_identity f) = se_streamId e
  | _ => True
  end.
Lemma other_row e t t' sid :
  session_statement e t = Success t' → named e → sid ≠ se_streamId e →
  row_config <$> tb_sessions t' !! sid = row_config <$> tb_sessions t !! sid.
Proof.
  intros Ht Hnamed Hne. destruct (lives_on (se_event e)) eqn:Hlive.
  { destruct (session_statement_rows e t t' Ht Hlive) as [text ->]. by rewrite lookup_alter_ne. }
  unfold named in Hnamed. unfold session_statement in Ht. destruct (se_event e) eqn:Ee; try discriminate.
  - apply project_created_Success in Ht as (_ & row & c & text & rows & _ & Hr & ->).
    rewrite Hnamed in Hr |- *. assert (rows !! sid = tb_sessions t !! sid) as <-.
    { rewrite Hr. destruct (tb_sessions t !! _); [done|]. by apply lookup_insert_ne. }
    destruct (ce_cursor fields) as [[]|]; [|done..]. by rewrite lookup_alter_ne.
  - apply project_deleted_Success in Ht as (_ & _ & _ & ->).
    rewrite lookup_fmap, lookup_delete_ne by done. by destruct (tb_sessions t !! sid).
Qed.
Lemma shows_row_same s (o o' : option SessionRow) :
  row_config <$> o' = row_config <$> o → shows_row s o → shows_row s o'.
Proof.
  intros Ho (r & -> & Hr). destruct o' as [r'|]; [|done]. apply (inj Some) in Ho.
  exists r'. split; [done|]. by eapply session_row_shows_same.
Qed.
Lemma other_step sid s e t t' :
  session_statements e t = Success t' → named e → sid ≠ se_streamId e →
  session_shows sid s t → session_shows sid s t'.
Proof.
  intros Ht Hnamed Hne. apply session_statements_parts in Ht as (t1 & t2 & H1 & [Q1 Q2 Q3] & Es & Et & Eq & H3).
  pose proof (other_row e t2 t' sid H3 Hnamed Hne) as Hrow. rewrite Es in Hrow.
  assert (∀ id, own trn_session_id sid (tb_turns t') id = own trn_session_id sid (tb_turns t) id) as Hturns.
  { intros id. rewrite (other_turns e t2 t' sid Hne id H3). by rewrite Et. }
  assert (∀ id, own que_session_id sid (tb_queued t') id = own que_session_id sid (tb_queued t) id) as Hqueue.
  { intros id. rewrite (other_queue e t2 t' sid Hne id H3). by rewrite Eq. }
  assert (∀ id, tb_attempts t' !! (sid, id) = tb_attempts t !! (sid, id)) as Hattempts.
  { intros id. destruct (session_statement_tables e t2 t' H3) as (-> & _). rewrite Q2.
    by apply (other_attempts e t t1 sid). }
  unfold session_shows. destruct (st_exists s && negb (st_deleted s)).
  - intros [R T A Q]. split.
    + by eapply shows_row_same.
    + by eapply shows_turns_same.
    + intros turnId id. unfold own_attempt. rewrite Hattempts. apply A.
    + intros id. rewrite Hqueue. apply Q.
  - intros [R T A Q]. split.
    + rewrite R in Hrow. by destruct (tb_sessions t' !! sid).
    + intros id. by rewrite Hturns.
    + intros id. by rewrite Hattempts.
    + intros id. by rewrite Hqueue.
Qed.

(** ** The event's own session *)

(** Bound attempts are attempts of turns. *)
Definition bound_ok (s : SessionState) : Prop :=
  ∀ id, is_Some (st_attemptProviderTurns s !! id) →
        ∃ k turn, jm_get k (st_turns s) = Some turn ∧ is_Some (tn_attempts turn !! id).
(** Ids a session starts a turn or enqueues under are free. *)
Definition free_ids (s : SessionState) (sid : string) (t : SqlTables) (event : SessionEvent) : Prop :=
  match event with
  | TurnStarted turnId _ _ _ _ => tb_turns t !! turnId = None ∧ jm_get turnId (st_turns s) = None
  | QueuedTurnEnqueued queueId _ _ _ _ => ∀ r, tb_queued t !! queueId = Some r → que_session_id r = sid
  | _ => True
  end.
Definition older_attempts (sequence : Z) (t : SqlTables) : Prop :=
  ∀ k r, tb_attempts t !! k = Some r →
    atr_started_sequence r < sequence ∧ atr_updated_sequence r < sequence.

Lemma turns_step sid s e t t' :
  se_streamId e = sid → SessionInvariant s → st_sessionId s = Some sid → legal_live s (se_event e) →
  lives_on (se_event e) = true → free_ids s sid t (se_event e) →
  shows_row s (tb_sessions t !! sid) → shows_turns (st_turns s) (own trn_session_id sid (tb_turns t)) →
  session_statement e t = Success t' →
  shows_turns (st_turns (evolve s (se_event e))) (own trn_session_id sid (tb_turns t')).
Proof.
  intros Hsid Hinv Hid Hl Hlive Hfree Hrow Hs Ht. pose proof (si_turns _ Hinv) as Hti.
  destruct (turn_event (se_event e)) eqn:He.
  2: { apply session_statement_tables in Ht as (_ & -> & _); [|done]. by rewrite evolve_same_turns. }
  unfold session_statement in Ht. rewrite Hsid in Ht.
  destruct (se_event e) eqn:Ee; try discriminate; cbn [evolve]; cbn in Hl.
  - apply bind_Success in Ht as (t1 & (x & _ & ->)%set_session_Success & <-%Success_inj).
    refine (status_shows sid s _ Hti _ status _ _ eq_refl). exact Hs.
  - destruct Hl as (_ & _ & -> & -> & _), Hfree as [Hfree Hnew], Hrow as (row & Hrow & Hr).
    by eapply turn_started_shows.
  - destruct Hl as (Hc & _). apply set_session_Success in Ht as (x & _ & ->).
    by eapply attempt_started_shows.
  - apply project_rollback_Success in Ht as (x & Ht & _). by eapply rolled_back_shows.
  - destruct Hl as (Hc & Ha & Hst). apply Success_inj in Ht. by eapply finalization_shows.
  - destruct Hl as [Hc _]. by eapply settled_shows.
  - destruct Hl as [Hc _]. by eapply phase_shows.
  - destruct Hl as [Hc _]. by eapply phase_shows.
  - by eapply phase_shows.
Qed.
Lemma attempts_step sid s e t t1 :
  se_streamId e = sid → SessionInvariant s → bound_ok s → legal_live s (se_event e) →
  lives_on (se_event e) = true → free_ids s sid t (se_event e) → older_attempts (se_sequence e) t →
  shows_attempts (st_turns s) (st_attemptProviderTurns s) (λ turnId, own_attempt sid turnId (tb_attempts t)) →
  projectSessionAttempt e t = Success t1 →
  shows_attempts (st_turns (evolve s (se_event e))) (st_attemptProviderTurns (evolve s (se_event e)))
    (λ turnId, own_attempt sid turnId (tb_attempts t1)).
Proof.
  intros Hsid Hinv Hbound Hl Hlive Hfree Hold Hs Ht. pose proof (si_turns _ Hinv) as Hti.
  destruct (attempt_event (se_event e)) eqn:He.
  2: { apply projectSessionAttempt_Success in Ht as (_ & _ & _ & _ & ->); [|done].
       rewrite evolve_bound_same by done. intros turnId id. specialize (Hs turnId id).
       pose proof (evolve_attempts_same s (se_event e) Hti He turnId) as Hsame.
       assert ((jm_get turnId (st_turns (evolve s (se_event e))) ≫= λ t, tn_attempts t !! id)
               = jm_get turnId (st_turns s) ≫= λ t, tn_attempts t !! id) as ->; [|done].
       by destruct (jm_get turnId (st_turns (evolve s (se_event e)))), (jm_get turnId (st_turns s));
         cbn in Hsame |- *; simplify_eq; rewrite ?Hsame. }
  destruct (se_event e) eqn:Ee; try discriminate; cbn [evolve].
  - destruct Hl as (_ & _ & -> & -> & _), Hfree as [Hfree Hnew].
    assert (st_attemptProviderTurns (evolve_TurnStarted s turnId startedAt (Some (st_turnCount s + 1))
              (Some (attemptIdFor turnId 1)) providerThreadId (st_version s + 1))
            = st_attemptProviderTurns s) as -> by (unfold evolve_TurnStarted; by case_match).
    by eapply turn_started_attempts.
  - by eapply bound_attempts.
  - destruct Hl as (Hc & turn & Hturn & _ & Hord & Haid & _).
    assert (st_attemptProviderTurns (evolve_AttemptStarted s turnId attemptId ordinal reason startedAt
              (st_version s + 1)) = st_attemptProviderTurns s) as ->
      by (unfold evolve_AttemptStarted; by case_match).
    by eapply attempt_started_attempts.
  - destruct Hl as [Hc _].
    assert (st_attemptProviderTurns (evolve_TurnSettled s turnId outcome settledAt (st_version s + 1))
            = st_attemptProviderTurns s) as -> by (unfold evolve_TurnSettled; by repeat case_match).
    by eapply settled_attempts.
Qed.

Lemma deleted_step sid e t t' at_ :
  se_streamId e = sid → se_event e = SessionDeleted at_ → session_statements e t = Success t' →
  session_hidden sid t'.
Proof.
  intros Hsid Ee Ht. apply session_statements_parts in Ht as (t1 & t2 & H1 & [_ Q2 _] & _ & _ & _ & H3).
  unfold session_statement in H3. rewrite Ee, Hsid in H3.
  apply project_deleted_Success in H3 as (E1 & E2 & E3 & E4). split.
  - rewrite E4, lookup_fmap. by rewrite lookup_delete_eq.
  - intros id. rewrite E1, own_delete_session. by rewrite decide_True.
  - intros id. rewrite E2, Q2. unfold projectSessionAttempt in H1. rewrite Ee, Hsid in H1.
    apply Success_inj in H1 as <-. cbn. rewrite lookup_delete_rows. cbn.
    destruct (tb_attempts t !! (sid, id)); [|done]. cbn. by rewrite bool_decide_true.
  - intros id. rewrite E3, own_delete_session. by rewrite decide_True.
Qed.
Lemma created_step sid e f t t' :
  se_streamId e = sid → se_event e = SessionCreated f → id_sessionId (ce_identity f) = sid →
  session_hidden sid t → session_statements e t = Success t' →
  session_shown sid (evolve initialSessionState (SessionCreated f)) t'.
Proof.
  intros Hsid Ee Hid [R T A Q] Ht.
  apply session_statements_parts in Ht as (t1 & t2 & H1 & [_ Q2 _] & Es & Et & Eq & H3).
  destruct (session_statement_tables e t2 t' H3) as (Ea & Ht' & Hq'). rewrite Ee in Ht', Hq'.
  assert (tb_attempts t' = tb_attempts t) as Hat.
  { rewrite Ea, Q2. apply (projectSessionAttempt_Success e t t1 H1). by rewrite Ee. }
  assert (st_turns (evolve initialSessionState (SessionCreated f)) = []
    ∧ st_queuedTurns (evolve initialSessionState (SessionCreated f)) = ∅) as [Hturns Hqueue].
  { cbn [evolve]. unfold evolve_SessionCreated. by case_match. }
  unfold session_statement in H3. rewrite Ee in H3.
  apply project_created_Success in H3 as (_ & row & c & text & rows & Hrow & Hrows & Hses).
  rewrite Hid in Hrows, Hses. rewrite Es, R in Hrows. split.
  - apply created_row_shows in Hrow. rewrite Hid in Hrow. unfold shows_row. rewrite Hses.
    destruct (ce_cursor f) as [[cursor|]|]; subst rows; rewrite ?lookup_alter_eq, lookup_insert_eq;
      eexists; (split; [done|]); try done.
    eapply session_row_shows_same; [done| |exact Hrow]. done.
  - rewrite Hturns. intros id. rewrite Ht' by done. rewrite Et, T. constructor.
  - rewrite Hturns. intros turnId id. unfold own_attempt. rewrite Hat, A. constructor.
  - rewrite Hqueue. intros id. rewrite Hq' by done. rewrite Eq, Q, lookup_empty. constructor.
Qed.
(** A legal event moves the rows of its session as it moves its state. *)
Lemma own_step sid s e t t' :
  se_streamId e = sid → SessionInvariant s → bound_ok s → (st_exists s = true → st_sessionId s = Some sid) →
  legal s (se_event e) → named e → free_ids s sid t (se_event e) → older_attempts (se_sequence e) t →
  session_statements e t = Success t' →
  session_shows sid s t → session_shows sid (evolve s (se_event e)) t'.
Proof.
  intros Hsid Hinv Hbound Hid Hlegal Hnamed Hfree Hold Ht Hshows.
  destruct (evolve_existence s (se_event e)) as (Hx & Hd & _).
  destruct (lives_on (se_event e)) eqn:Hlive.
  - assert (live s ∧ legal_live s (se_event e)) as [[Hex Hdel] Hl] by (by destruct (se_event e)).
    assert (st_exists (evolve s (se_event e)) = true ∧ st_deleted (evolve s (se_event e)) = false) as [Hx' Hd']
      by (rewrite Hx, Hd; by destruct (se_event e)).
    unfold session_shows in *. rewrite Hx', Hd'. rewrite Hex, Hdel in Hshows. specialize (Hid Hex).
    destruct Hshows as [R T A Q]. cbn.
    apply session_statements_parts in Ht as (t1 & t2 & H1 & [Q1 Q2 Q3] & Es & Et & Eq & H3).
    rewrite <-Es in R. rewrite <-Et in T. rewrite <-Eq in Q.
    assert (free_ids s sid t2 (se_event e)) as Hfree2.
    { unfold free_ids in *. by destruct (se_event e); rewrite ?Et, ?Eq. }
    split.
    + destruct (session_statement_rows e t2 t' H3 Hlive) as [text Hrow]. destruct R as (r & Hr & Hshow).
      specialize (Hrow sid). rewrite Hsid, lookup_alter_eq, Hr in Hrow.
      apply (shows_row_same _ (Some (row_update sid (se_event e) text r))); [exact Hrow|].
      eexists. split; [done|]. by apply row_update_shows.
    + by eapply (turns_step sid s e t2 t').
    + destruct (session_statement_tables e t2 t' H3) as (-> & _). rewrite Q2.
      by eapply (attempts_step sid s e t t1).
    + destruct (queue_event (se_event e)) eqn:He.
      * eapply (queue_step sid s t2 t'); try done. intros queueId a b c d r Ee Hr.
        unfold free_ids in Hfree2. rewrite Ee in Hfree2. by apply Hfree2.
      * destruct (session_statement_tables e t2 t' H3) as (_ & _ & ->); [|done]. by rewrite evolve_queued_same.
  - destruct (se_event e) eqn:Ee; try discriminate.
    + destruct Hlegal as [Hex _]. destruct (si_config _ Hinv) as [Hinit _]. rewrite (Hinit Hex) in *.
      unfold session_shows in *. rewrite Hx, Hd. cbn in Hshows |- *. unfold named in Hnamed. rewrite Ee in Hnamed.
      eapply created_step; try done. congruence.
    + unfold session_shows. rewrite Hx, Hd, andb_false_r. by eapply deleted_step.
Qed.

(** An event drops no attempt of any turn. *)
Lemma attempts_kept s event k turn id :
  turns_inv s →
  (∀ turnId a b c d, event = TurnStarted turnId a b c d → jm_get turnId (st_turns s) = None) →
  jm_get k (st_turns s) = Some turn → is_Some (tn_attempts turn !! id) →
  ∃ k' turn', jm_get k' (st_turns (evolve s event)) = Some turn' ∧ is_Some (tn_attempts turn' !! id).
Proof.
  intros Hinv Hnew Ht Ha. destruct (attempt_event event) eqn:He.
  2: { pose proof (evolve_attempts_same s event Hinv He k) as Hsame. rewrite Ht in Hsame.
       apply fmap_Some in Hsame as (turn' & Ht' & Heq). exists k, turn'. by rewrite <-Heq. }
  destruct event; try discriminate; cbn [evolve].
  - by exists k, turn.
  - specialize (Hnew _ _ _ _ _ eq_refl). exists k, turn. split; [|done]. unfold evolve_TurnStarted.
    assert (k ≠ turnId) as Hne by congruence.
    case_match; cbn; by rewrite jm_get_set_ne by congruence.
  - exists k, turn. split; [|done]. unfold evolve_AttemptProviderTurnBound. by repeat case_match.
  - unfold evolve_AttemptStarted. destruct (jm_get turnId (st_turns s)) as [u|] eqn:Hu; [|by exists k, turn].
    destruct (ti_turn _ _ _ _ Hinv turnId u Hu) as (Hid & _). cbn. rewrite Hid.
    destruct (decide (turnId = k)) as [->|Hne].
    + rewrite Hu in Ht. injection Ht as ->. eexists k, _. rewrite jm_get_set_eq. split; [done|]. cbn.
      rewrite lookup_insert_is_Some. destruct (decide (attemptId = id)) as [|Hne]; [by left|right; split; [done|]].
      destruct (tn_attempts turn !! tn_activeAttemptId turn); [|done]. case_decide; [|done].
      rewrite lookup_insert_is_Some. destruct (decide (at_id a = id)); [by left|by right].
    + exists k, turn. split; [|done]. by rewrite jm_get_set_ne.
  - unfold evolve_TurnSettled. exists (if decide (turnId = k) then turnId else k).
    destruct (jm_get turnId (st_turns s)) as [u|] eqn:Hu.
    2: { exists turn. split; [|done]. rewrite decide_False by congruence. by repeat case_match. }
    destruct (ti_turn _ _ _ _ Hinv turnId u Hu) as (Hid & _).
    assert (st_turns (evolve_TurnSettled s turnId outcome settledAt (st_version s + 1))
            = jm_set turnId (settle_turn outcome settledAt u) (st_turns s)) as Hturns.
    { unfold evolve_TurnSettled. rewrite Hu. cbn. rewrite Hid. by repeat case_match. }
    unfold evolve_TurnSettled in Hturns. rewrite Hu in Hturns. rewrite Hturns.
    case_decide as Hd.
    + subst k. rewrite Hu in Ht. injection Ht as ->. eexists. rewrite jm_get_set_eq. split; [done|]. cbn.
      destruct (tn_attempts turn !! tn_activeAttemptId turn); [|done].
      rewrite lookup_insert_is_Some. destruct (decide (at_id a = id)); [by left|by right].
    + exists turn. split; [|done]. by rewrite jm_get_set_ne.
Qed.
Lemma bound_ok_evolve s event :
  turns_inv s → bound_ok s → legal s event →
  (∀ turnId a b c d, event = TurnStarted turnId a b c d → jm_get turnId (st_turns s) = None) →
  bound_ok (evolve s event).
Proof.
  intros Hinv Hb Hl Hnew.
  intros id Hs. destruct (attempt_event event) eqn:He.
  2: { rewrite evolve_bound_same in Hs by done. destruct (Hb id Hs) as (k & turn & Ht & Ha). by eapply attempts_kept. }
  destruct event; try discriminate.
  - destruct (Hb id Hs) as (k & turn & Ht & Ha). by eapply attempts_kept.
  - assert (is_Some (st_attemptProviderTurns s !! id)) as Hs'.
    { cbn [evolve] in Hs. unfold evolve_TurnStarted in Hs. by case_match. }
    destruct (Hb id Hs') as (k & turn & Ht & Ha). by eapply attempts_kept.
  - assert (is_Some (st_attemptProviderTurns s !! id)
            ∨ ∃ turn, jm_get (bt_turnId fields) (st_turns s) = Some turn ∧ is_Some (tn_attempts turn !! id))
      as [Hs'|(turn & Ht & Ha)]; [|by destruct (Hb id Hs') as (k & turn & Ht & Ha); eapply attempts_kept|by eapply attempts_kept].
    cbn [evolve] in Hs. unfold evolve_AttemptProviderTurnBound in Hs.
    destruct (jm_get (bt_turnId fields) (st_turns s)) as [turn|] eqn:Ht; cbn in Hs; [|by left].
    destruct (tn_attempts turn !! bt_attemptId fields) as [a|] eqn:Ha; [|by left].
    destruct (st_attemptProviderTurns s !! bt_attemptId fields); [by left|]. cbn in Hs.
    rewrite lookup_insert_is_Some in Hs. destruct Hs as [<-|[_ Hs]]; [right|by left].
    exists turn. split; [done|by eexists].
  - assert (is_Some (st_attemptProviderTurns s !! id)) as Hs'.
    { cbn [evolve] in Hs. unfold evolve_AttemptStarted in Hs. by case_match. }
    destruct (Hb id Hs') as (k & turn & Ht & Ha). by eapply attempts_kept.
  - assert (is_Some (st_attemptProviderTurns s !! id)) as Hs'.
    { cbn [evolve] in Hs. unfold evolve_TurnSettled in Hs. by repeat case_match. }
    destruct (Hb id Hs') as (k & turn & Ht & Ha). by eapply attempts_kept.
Qed.
End statements.
