(* ===== verification/SessionProjectorProps.v ===== *)
(** * The session read model follows the sessions' events

    The rows of a session show the state its events fold to, and so they do, by the laws
    of the projector runner, at every cursor the projector reaches. *)
From stdpp Require Import sorting.
From S2P Require Import Prelude Js JsMap Ids Contracts SessionTypes SessionState SessionDecider SessionLegal SessionInv SessionInvariants Dispatch DispatchEngine Consumers ConsumersProps Timeline ChatProjector SessionTables SessionStatements SessionProjections SessionProjector SessionShows SessionSteps.

Local Open Scope Z_scope.

Section statements.
Context `{ContentCodec} `{Sqlite}.

(** ** Where the rows come from *)

Definition started_turn (event : SessionEvent) : option string :=
  match event with TurnStarted turnId _ _ _ _ => Some turnId | _ => None end.
Definition enqueued_id (event : SessionEvent) : option string :=
  match event with QueuedTurnEnqueued queueId _ _ _ _ => Some queueId | _ => None end.

Lemma lookup_update_turns sid cond f t id :
  is_Some (tb_turns (update_turns sid cond f t) !! id) → is_Some (tb_turns t !! id).
Proof. unfold update_turns. cbn. rewrite lookup_update_rows. by intros ?%fmap_is_Some. Qed.
Lemma lookup_delete_rows_Some {K R} `{Countable K} (cond : K → R → bool) (m : gmap K R) k r :
  delete_rows cond m !! k = Some r → m !! k = Some r.
Proof. rewrite lookup_delete_rows. intros (r' & -> & Hr)%bind_Some. by case_match. Qed.

Lemma turn_rows_started e t t' id :
  session_statement e t = Success t' → is_Some (tb_turns t' !! id) →
  is_Some (tb_turns t !! id) ∨ started_turn (se_event e) = Some id.
Proof.
  intros Ht Hid. destruct (turn_event (se_event e)) eqn:He.
  2: { apply session_statement_tables in Ht as (_ & Ht & _). rewrite Ht in Hid by done. by left. }
  unfold session_statement in Ht. destruct (se_event e) eqn:Ee; try discriminate.
  - left. apply bind_Success in Ht as (t1 & (x & _ & ->)%set_session_Success & <-%Success_inj).
    case_decide; [by apply lookup_update_turns in Hid|done].
  - left. apply project_deleted_Success in Ht as (Ht & _). rewrite Ht in Hid.
    destruct Hid as [r Hr%lookup_delete_rows_Some]. by eexists.
  - unfold project_turn_started, insert_turn in Ht. apply bind_Success in Ht as (x & _ & Ht).
    apply bind_Success in Ht as (t1 & H1 & (y & _ & ->)%set_session_Success).
    assert (is_Some (tb_turns t1 !! id)) as Hid1 by (revert Hid; by repeat case_match).
    destruct (tb_turns t !! turnId) as [r|] eqn:Hr; [left; by apply Success_inj in H1 as <-|].
    destruct (existsb _ _); [done|]. apply Success_inj in H1 as <-. cbn in Hid1.
    rewrite lookup_insert_is_Some in Hid1. cbn. destruct Hid1 as [->|[_ ?]]; [by right|by left].
  - left. apply set_session_Success in Ht as (x & _ & ->). by apply lookup_update_turns in Hid.
  - left. apply project_rollback_Success in Ht as (x & Ht & _). rewrite Ht in Hid. by apply lookup_update_turns in Hid.
  - left. apply Success_inj in Ht as <-. by apply lookup_update_turns in Hid.
  - left. unfold project_turn_settled in Ht. apply bind_Success in Ht as (x & _ & (y & _ & ->)%set_session_Success).
    revert Hid. edestruct update_active_thread_same as [[Q _ _] _]. cbn -[update_active_thread update_turn].
    rewrite Q. apply lookup_update_turns.
  - left. apply set_session_Success in Ht as (x & _ & ->). by apply lookup_update_turns in Hid.
  - left. apply set_session_Success in Ht as (x & _ & ->). by apply lookup_update_turns in Hid.
  - left. apply set_session_Success in Ht as (x & _ & ->). by apply lookup_update_turns in Hid.
Qed.
(** A queued row keeps its session. *)
Lemma update_queued_lookup sid key f t id r :
  (∀ r, que_session_id (f r) = que_session_id r) →
  tb_queued (update_queued sid key f t) !! id = Some r →
  ∃ r0, tb_queued t !! id = Some r0 ∧ que_session_id r0 = que_session_id r.
Proof.
  intros Hf. unfold update_queued. cbn. destruct (decide (key = id)) as [->|].
  - rewrite lookup_alter_eq. intros (r0 & -> & ->)%fmap_Some. exists r0. split; [done|]. by case_decide.
  - rewrite lookup_alter_ne by done. intros ->. by exists r.
Qed.
Lemma reorder_queued_lookup sid text n ids t id r :
  tb_queued (reorder_queued sid text n ids t) !! id = Some r →
  ∃ r0, tb_queued t !! id = Some r0 ∧ que_session_id r0 = que_session_id r.
Proof.
  revert n t. induction ids as [|key ids IH]; intros n t; [intros Hr; by exists r|]. cbn [reorder_queued].
  intros (r1 & Hr1 & <-)%IH. by eapply update_queued_lookup in Hr1.
Qed.
Lemma queue_rows_enqueued e t t' id r :
  session_statement e t = Success t' → tb_queued t' !! id = Some r →
  (∃ r0, tb_queued t !! id = Some r0 ∧ que_session_id r0 = que_session_id r)
  ∨ enqueued_id (se_event e) = Some id ∧ se_streamId e = que_session_id r.
Proof.
  intros Ht Hid. destruct (queue_event (se_event e)) eqn:He.
  2: { apply session_statement_tables in Ht as (_ & _ & Ht). rewrite Ht in Hid by done. left. by exists r. }
  unfold session_statement in Ht. destruct (se_event e) eqn:Ee; try discriminate.
  - left. apply project_deleted_Success in Ht as (_ & _ & Ht & _). rewrite Ht in Hid.
    apply lookup_delete_rows_Some in Hid. by exists r.
  - apply project_enqueued_Success in Ht as (x & _ & _ & _ & _ & Ht). rewrite Ht in Hid.
    destruct (tb_queued t !! queueId) eqn:Hr; [left; by exists r|].
    rewrite lookup_insert in Hid. case_decide as Hd; [|left; by exists r].
    injection Hid as <-. right. by rewrite <-Hd.
  - left. apply bind_Success in Ht as (x & _ & <-%Success_inj). by eapply update_queued_lookup in Hid.
  - left. apply Success_inj in Ht as <-. apply lookup_delete_rows_Some in Hid. by exists r.
  - left. apply bind_Success in Ht as (x & _ & <-%Success_inj). by eapply reorder_queued_lookup.
  - left. apply Success_inj in Ht as <-. apply lookup_delete_rows_Some in Hid. by exists r.
Qed.
(** Attempts carry the sequences of the events that wrote them. *)
Lemma older_attempts_step e t t1 n :
  se_sequence e < n → older_attempts n t → projectSessionAttempt e t = Success t1 → older_attempts n t1.
Proof.
  intros Hn Hold.
  assert (∀ cond f u, (∀ r, atr_started_sequence (f r) = atr_started_sequence r) →
            (∀ r, atr_updated_sequence (f r) = se_sequence e ∨ atr_updated_sequence (f r) = atr_updated_sequence r) →
            older_attempts n u → older_attempts n (update_attempts cond f (se_streamId e) u)) as Hup.
  { intros cond f u Hf Hg Hu k r. unfold update_attempts. cbn. rewrite lookup_update_rows.
    intros (r0 & Hr0 & ->)%fmap_Some. destruct (Hu k r0 Hr0) as [H1 H2].
    destruct (_ && _); [|done]. rewrite Hf. destruct (Hg r0) as [-> | ->]; lia. }
  assert (∀ a b c d f u u', insert_attempt (se_streamId e) a b c d f (se_sequence e) u = Success u' →
            older_attempts n u → older_attempts n u') as Hins.
  { intros a b c d f u u'. unfold insert_attempt. intros Hi Hu. statement_cases Hi; [done|].
    intros k r. cbn. rewrite lookup_insert. case_decide; [|apply Hu]. intros [= <-]. cbn. lia. }
  unfold projectSessionAttempt. intros Ht. destruct (se_event e); try (by apply Success_inj in Ht as <-).
  - apply Success_inj in Ht as <-. intros k r Hr%lookup_delete_rows_Some. by apply Hold in Hr.
  - apply bind_Success in Ht as (x & _ & Ht). by eapply Hins.
  - apply Success_inj in Ht as <-. apply Hup; [done|by right|done].
  - apply bind_Success in Ht as (x & _ & Ht). destruct (attempts_of_turn _ _ _); [by apply Success_inj in Ht as <-|].
    eapply Hins; [exact Ht|]. apply Hup; [done|by left|done].
  - apply bind_Success in Ht as (x & _ & <-%Success_inj). destruct (latest_attempt _ _ _ _); [|done].
    apply Hup; [done|by left|done].
Qed.

(** ** Whole logs *)

Definition logged_events (sid : string) (l : list (StoredEvent SessionEvent)) : list SessionEvent :=
  se_event <$> filter (λ e, se_streamId e = sid) l.
Definition logged_state (sid : string) (l : list (StoredEvent SessionEvent)) : SessionState :=
  foldl evolve initialSessionState (logged_events sid l).
(** An event as the session engine writes it: legal after its stream, which is named
    after the session; a turn starts under a new id, and an id two turns are queued under
    is one session's. *)
Definition accepted_event (l : list (StoredEvent SessionEvent)) (e : StoredEvent SessionEvent) : Prop :=
  legal (logged_state (se_streamId e) l) (se_event e) ∧ named e
  ∧ (∀ turnId, started_turn (se_event e) = Some turnId →
       ∀ e', e' ∈ l → started_turn (se_event e') ≠ Some turnId)
  ∧ (∀ queueId, enqueued_id (se_event e) = Some queueId →
       ∀ e', e' ∈ l → enqueued_id (se_event e') = Some queueId → se_streamId e' = se_streamId e).
Definition accepted (l : list (StoredEvent SessionEvent)) : Prop :=
  ∀ l1 e l2, l = l1 ++ e :: l2 → accepted_event l1 e.

Lemma accepted_prefix l k : accepted l → k `prefix_of` l → accepted k.
Proof. intros Hd [m ->] l1 e l2 ->. apply (Hd l1 e (l2 ++ m)). by rewrite <-app_assoc. Qed.
Lemma logged_state_snoc sid l e :
  logged_state sid (l ++ [e])
  = if decide (se_streamId e = sid) then evolve (logged_state sid l) (se_event e)
    else logged_state sid l.
Proof.
  unfold logged_state, logged_events. rewrite filter_app, filter_cons, filter_nil.
  case_decide; [|by rewrite app_nil_r]. by rewrite fmap_app, foldl_app.
Qed.

(** What holds after the replay of a log. *)
Record replayed (l : list (StoredEvent SessionEvent)) (t : SqlTables) : Prop := {
  rp_shows : ∀ sid, session_shows sid (logged_state sid l) t;
  rp_invariant : ∀ sid, SessionInvariant (logged_state sid l);
  rp_bound : ∀ sid, bound_ok (logged_state sid l);
  rp_named : ∀ sid, st_exists (logged_state sid l) = true → st_sessionId (logged_state sid l) = Some sid;
  rp_turns : ∀ id, is_Some (tb_turns t !! id) → ∃ e, e ∈ l ∧ started_turn (se_event e) = Some id;
  rp_queue : ∀ id r, tb_queued t !! id = Some r →
    ∃ e, e ∈ l ∧ enqueued_id (se_event e) = Some id ∧ se_streamId e = que_session_id r;
  rp_attempts : ∀ n, (∀ e, e ∈ l → se_sequence e < n) → older_attempts n t }.

Lemma replayed_nil t :
  tb_sessions t = ∅ → tb_turns t = ∅ → tb_attempts t = ∅ → tb_queued t = ∅ → replayed [] t.
Proof.
  intros Hs Ht Ha Hq. split.
  - intros sid. unfold session_shows. cbn. split; intros; unfold own; by rewrite ?Hs, ?Ht, ?Ha, ?Hq, lookup_empty.
  - intros sid. apply session_invariant_initial.
  - intros sid id [r Hr]. unfold logged_state in Hr. cbn -[lookup] in Hr. by rewrite lookup_empty in Hr.
  - done.
  - intros id. rewrite Ht, lookup_empty. by intros [].
  - intros id r. by rewrite Hq, lookup_empty.
  - intros n _ k r. by rewrite Ha, lookup_empty.
Qed.
Lemma replayed_free_ids l t e :
  replayed l t → accepted_event l e →
  free_ids (logged_state (se_streamId e) l) (se_streamId e) t (se_event e).
Proof.
  intros Hr (Hl & Hn & Hturn & Hqueue).
  destruct (se_event e) eqn:Ee; try done; cbn.
  - destruct Hl as [[Hx Hd] _].
    assert (tb_turns t !! turnId = None) as Hnone.
    { apply eq_None_not_Some. intros (e' & Hin & He')%(rp_turns _ _ Hr). by apply (Hturn turnId eq_refl e'). }
    split; [done|]. pose proof (rp_shows _ _ Hr (se_streamId e)) as Hs. unfold session_shows in Hs.
    rewrite Hx, Hd in Hs. destruct Hs as [_ Hs _ _]. specialize (Hs turnId). unfold own in Hs.
    rewrite Hnone in Hs. by inversion Hs.
  - intros r (e' & Hin & He' & <-)%(rp_queue _ _ Hr). by apply (Hqueue queueId).
Qed.
Lemma replayed_snoc l t e t' :
  replayed l t → accepted_event l e → (∀ e', e' ∈ l → se_sequence e' < se_sequence e) →
  session_statements e t = Success t' → replayed (l ++ [e]) t'.
Proof.
  intros Hr Hacc Hseq Ht. pose proof (replayed_free_ids l t e Hr Hacc) as Hfree.
  destruct Hacc as (Hl & Hn & Hturn & Hqueue). destruct Hr as [R1 R2 R3 R4 R5 R6 R7].
  assert (∀ turnId a b c d, se_event e = TurnStarted turnId a b c d →
            jm_get turnId (st_turns (logged_state (se_streamId e) l)) = None) as Hnew.
  { intros turnId a b c d Ee. unfold free_ids in Hfree. rewrite Ee in Hfree. apply Hfree. }
  pose proof Ht as Hparts. apply session_statements_parts in Hparts as (t1 & t2 & H1 & [_ Q2 _] & Es & Et & Eq & H3).
  split.
  - intros sid. rewrite logged_state_snoc. case_decide as Hd; [subst sid|].
    + apply (own_step _ _ e t t'); auto.
    + apply (other_step sid _ e t t'); [done|done|congruence|apply R1].
  - intros sid. rewrite logged_state_snoc. case_decide as Hd; [subst sid|apply R2].
    apply session_invariant_evolve; [apply R2|done].
  - intros sid. rewrite logged_state_snoc. case_decide as Hd; [subst sid|apply R3].
    apply bound_ok_evolve; [apply (si_turns _ (R2 _))|apply R3|done|done].
  - intros sid. rewrite logged_state_snoc. case_decide as Hd; [subst sid|apply R4].
    destruct (evolve_existence (logged_state (se_streamId e) l) (se_event e)) as (Hx & _ & Hid).
    rewrite Hx, Hid. specialize (R4 (se_streamId e)). unfold named in Hn.
    destruct (se_event e); try done. intros _. by rewrite Hn.
  - intros id Hid. destruct (turn_rows_started e t2 t' id H3 Hid) as [Hid'|Hid'].
    + rewrite Et in Hid'. destruct (R5 id Hid') as (e' & Hin & He'). exists e'. set_solver.
    + exists e. set_solver.
  - intros id r Hid. destruct (queue_rows_enqueued e t2 t' id r H3 Hid) as [(r0 & Hr0 & <-)|[Hid' Hsid]].
    + rewrite Eq in Hr0. destruct (R6 id r0 Hr0) as (e' & Hin & He'). exists e'. set_solver.
    + exists e. set_solver.
  - intros n Hn'. destruct (session_statement_tables e t2 t' H3) as (Ea & _).
    assert (older_attempts n t1) as Hold.
    { apply (older_attempts_step e t t1 n); [apply Hn'; set_solver|apply R7; intros e' He'; apply Hn'; set_solver|done]. }
    intros k r. rewrite Ea, Q2. apply Hold.
Qed.
Lemma replay_replayed t0 l t :
  replayed [] t0 → in_order se_sequence l → accepted l → replay session_apply t0 l = Some t → replayed l t.
Proof.
  intros Hstart. revert t. induction l as [|e l IH] using rev_ind; intros t Ho Hd Hr.
  { by injection Hr as <-. }
  destruct (replay session_apply t0 l) as [t1|] eqn:E1.
  2: { rewrite replay_app, E1 in Hr. discriminate. }
  rewrite (replay_snoc session_apply t0 l e t1 E1) in Hr. unfold session_apply in Hr.
  destruct (session_statements e t1) as [t2|] eqn:Es; [|discriminate]. injection Hr as <-.
  apply (replayed_snoc l t1 e t2).
  - apply IH; [by eapply StronglySorted_app_1_l|by eapply accepted_prefix; [|by exists [e]]|done].
  - by apply (Hd l e []).
  - intros e' He'. by eapply (in_order_app se_sequence l [e]); [..|left].
  - done.
Qed.

Section composed.
Context {S : Type} `{PL : ProjectorLaws S SqlTables (StoredEvent SessionEvent) ProjectionFailure se_sequence}.

End composed.
End statements.

(** ** A concrete run *)

Module session_projector_demo.
#[export] Instance no_content : ContentCodec := λ _, None.
#[export] Instance sqlite : Sqlite := {| json_itemId := λ _, None; limit_1 := head |}.
Definition creation : SessionCreatedEventFields :=
  {| ce_delegation := None;
     ce_identity := {| id_sessionId := "s1"; id_chatId := "c1"; id_projectId := "p1"; id_createdAt := 5 |};
     ce_title := Some "title"; ce_titleProvenance := Some NP_pending; ce_providerId := Some "claude";
     ce_model := Some "opus"; ce_status := Some SS_idle; ce_cursor := Some (Some "native");
     ce_resumeStrategy := None; ce_runtimeMode := Some RM_full_access; ce_agentsJson := Some None;
     ce_worktreeId := Some None; ce_forkedFromSessionId := Some None;
     ce_forkedFromMessageId := Some None; ce_permissionMode := Some PM_default;
     ce_toolSearch := Some false; ce_queuePaused := None; ce_providerStartJson := None |}.
(** Payloads stand for the events they would encode. *)
Definition decode (json : string) : option SessionEvent :=
  if decide (json = "created") then Some (SessionCreated creation)
  else if decide (json = "started") then Some (TurnStarted "t1" 6 (Some 1) (Some (attemptIdFor "t1" 1)) None)
  else if decide (json = "queued") then Some (QueuedTurnEnqueued "q1" "{}" 0 7 true)
  else if decide (json = "retried") then
    Some (AttemptStarted "t1" (attemptIdFor "t1" 2) 2 AR_retry 8 1
            (Some (providerThreadIdFor "s1" "claude" "native")) 6)
  else if decide (json = "settled") then Some (TurnSettled "t1" TSO_completed 9)
  else None.
Definition failure (e : EventDecodeError) : ProjectionFailure := PF_Decode.
Definition session_row (n : Z) (payload : string) : PersistedEventRow :=
  {| er_stream_kind := "session"; er_sequence := n; er_event_id := "e" +:+ String_of_Z n;
     er_correlation_id := None; er_causation_event_id := None; er_stream_id := "s1";
     er_stream_version := n; er_payload_json := payload |}.
Definition chat : ChatRow :=
  {| cr_project_id := "p1"; cr_worktree_id := None; cr_title := "chat"; cr_title_provenance := NP_manual;
     cr_active_session_id := None; cr_origin_session_id := None; cr_archived_at := None;
     cr_archived_worktree_json := None; cr_last_message_at := None; cr_last_user_message_at := None;
     cr_last_read_at := None; cr_created_at := "1970-01-01T00:00:00.001Z";
     cr_updated_at := "1970-01-01T00:00:00.001Z" |}.
#[export] Instance session_storage :
    ProjectorStorage (SqlStorage SqlTables) SqlTables (StoredEvent SessionEvent) ProjectionFailure :=
  SqlConsumerStorage "session" decode failure.
#[export] Instance session_storage_laws :
    ProjectorLaws (SqlStorage SqlTables) SqlTables (StoredEvent SessionEvent) ProjectionFailure se_sequence :=
  sql_projector_laws "session" decode failure.
Definition start : SqlStorage SqlTables :=
  {| sq_events := [session_row 1 "created"; session_row 2 "started"; session_row 3 "queued";
                   session_row 4 "retried"];
     sq_cursors := ∅; sq_world := emptyTables <| tb_chats := {[ "c1" := chat ]} |> |}.
Definition caught_up : SqlStorage SqlTables := (projector_catchUp session_projector start).2.
(** The last event is dispatched. *)
Definition settled_event : StoredEvent SessionEvent :=
  {| se_eventId := "e5"; se_correlationId := "e5"; se_causationEventId := None; se_streamId := "s1";
     se_streamVersion := 5; se_sequence := 5; se_event := TurnSettled "t1" TSO_completed 9 |}.
Definition appended : SqlStorage SqlTables :=
  {| sq_events := sq_events caught_up ++ [session_row 5 "settled"]; sq_cursors := sq_cursors caught_up;
     sq_world := sq_world caught_up |}.
Definition ended : SqlStorage SqlTables :=
  (project_appended session_projector [settled_event] appended).2.
Lemma session_start_fresh : at_start (seq := se_sequence) "session-read-model" start.
Proof.
  split; [by repeat constructor|]. split; [|reflexivity].
  intros e He. repeat (apply elem_of_cons in He as [->|He]; [done|]). by apply elem_of_nil in He.
Qed.
Lemma session_ended_reached :
  rtc (project_step (seq := se_sequence) "session-read-model" session_apply) start ended.
Proof.
  eapply rtc_l; [by apply PS_catchUp|]. apply rtc_once.
  apply (PS_dispatch _ _ caught_up ended [] [settled_event] appended 5); try by vm_compute.
  split; [by vm_compute|]. split; [|by repeat constructor]. vm_compute. by repeat constructor.
Qed.
(** Each event is legal after the earlier ones, and ids are used once. *)
Lemma ended_accepted : accepted (log ended).
Proof.
  intros l1 e l2 Hl. vm_compute in Hl.
  destruct l1 as [|e1 [|e2 [|e3 [|e4 [|e5 [|]]]]]]; cbn in Hl; try discriminate Hl; injection Hl; intros; subst;
    clear Hl; (split_and!; [|done|cbn; intros ? [= <-]|cbn; intros ? [= <-]]; try done);
    try (intros e' He'; repeat (apply elem_of_cons in He' as [->|He']; [done|]); by apply elem_of_nil in He').
  - cbv [se_event se_streamId]. split; [by vm_compute|]. split; [vm_compute; reflexivity|].
    eexists. split_and!; vm_compute; try reflexivity. done.
Qed.

(** Why turn ids must be new. The decider starts a turn under any id while none is
    running; when it is an old one, the turn of the state begins anew and the row stays
    that of the settled turn. *)
Definition settled_once : list SessionEvent :=
  [SessionCreated creation; TurnStarted "t1" 6 (Some 1) (Some (attemptIdFor "t1" 1)) None;
   TurnSettled "t1" TSO_completed 7].
Definition stored_events (l : list SessionEvent) : list (StoredEvent SessionEvent) :=
  imap (λ n event, {| se_eventId := "e" +:+ String_of_Z (Z.of_nat n); se_correlationId := "c"; se_causationEventId := None;
    se_streamId := "s1"; se_streamVersion := Z.of_nat n + 1; se_sequence := Z.of_nat n + 1; se_event := event |}) l.
Example reused_turn_id_keeps_old_row :
  let s := foldl evolve initialSessionState settled_once in
  match decide_command s (StartTurn "t1" 8) with
  | Success events =>
      let s' := foldl evolve s events in
      (tn_status <$> current_turn s') = Some TS_starting
      ∧ (λ t, (trn_status <$> tb_turns t !! "t1", ses_status <$> tb_sessions t !! "s1"))
          <$> replay session_apply (sq_world start) (stored_events (settled_once ++ events))
        = Some (Some TS_completed, Some SS_running)
  | Failure _ => False
  end.
Proof. vm_compute. split; reflexivity. Qed.
End session_projector_demo.
Import session_projector_demo.

