(* ===== verification/Mailbox.v ===== *)
(** * The workspace mailbox

    infra/api/src/workspace-mailbox.ts: the durable object that queues the commands
    clients send to the runtime of a cloud workspace, hands them to the runtime under
    leases and keeps their outcomes. Its tables and its alarm are durable; the watchers
    that wait for a change and an alarm handler that waits for an answer are in memory.

    One definition is one method. A method runs synchronously between its waits for the
    alarm storage, so each reads the clock once per stage ([Times]); what it reads, the
    random tokens and the answer of the wake are arguments. [changed] appends the
    revision to the history that watchers read. A row's envelope is the value its text
    holds, [None] for the empty text that retention leaves. Requests are those of the
    coordinator, which the routes have decoded against the schemas of
    packages/contracts/src/cloud-commands.ts. *)
From S2P Require Import Prelude Js.

Local Open Scope Z_scope.

(** ** Commands: packages/contracts/src/cloud-commands.ts *)

Definition CLOUD_COMMAND_MAX_ENVELOPE_BYTES : Z := 256 * 1024.
Definition CLOUD_COMMAND_MAX_NONTERMINAL : Z := 256.
Definition CLOUD_COMMAND_MAX_MAILBOX_BYTES : Z := 8 * 1024 * 1024.
Definition CLOUD_COMMAND_WATCH_MAX_CHANGES : nat := 100.
Definition CLOUD_COMMAND_LEASE_TTL_MS : Z := 30000.
Definition RESERVATION_TTL_MS : Z := 60000.
Definition RESULT_RETENTION_MS : Z := 30 * 24 * 60 * 60000.
Definition CHANGE_HISTORY_LIMIT : Z := 10000.

Inductive CloudCommandState :=
| CS_reserved | CS_accepted | CS_waiting_for_runtime | CS_leased
| CS_lease_expired_awaiting_fence | CS_blocked
| CS_applied | CS_rejected | CS_expired | CS_cancelled | CS_outcome_unknown.
#[export] Instance CloudCommandState_eq : EqDecision CloudCommandState.
Proof. solve_decision. Defined.

Definition isCloudCommandTerminalState (s : CloudCommandState) : bool :=
  match s with
  | CS_applied | CS_rejected | CS_expired | CS_cancelled | CS_outcome_unknown => true
  | _ => false
  end.

Record WorkspaceActor := { wa_subject : string; wa_membershipId : string }.
Record CloudCommandDependency := {
  dep_blobId : string;
  dep_ciphertextBytes : Z;
  dep_ciphertextSha256 : string;
  dep_keyVersion : Z;
  dep_expiresAt : Z }.
Record CloudCommandEnvelope := {
  env_protocolVersion : Z;
  env_workspaceId : string;
  env_sessionId : string;
  env_commandId : string;
  env_kind : string;
  env_fingerprint : string;
  env_schemaVersion : Z;
  env_keyVersion : Z;
  env_destructionFence : num;
  env_createdAt : Z;
  env_iv : string;
  env_ciphertext : string;
  env_dependencies : list CloudCommandDependency;
  env_actor : option WorkspaceActor }.

(** The outcomes a runtime may acknowledge. *)
Inductive AckState := Ack_applied | Ack_rejected | Ack_expired | Ack_outcome_unknown.
Definition ack_command_state (s : AckState) : CloudCommandState :=
  match s with
  | Ack_applied => CS_applied | Ack_rejected => CS_rejected
  | Ack_expired => CS_expired | Ack_outcome_unknown => CS_outcome_unknown
  end.
Record RuntimeAcknowledgment := {
  ack_commandId : string;
  ack_leaseToken : string;
  ack_fingerprint : string;
  ack_state : AckState;
  ack_category : option string;
  ack_resultIv : option string;
  ack_resultCiphertext : option string }.

(** The size of an envelope's JSON text, and whether the object was built with a
    [dispatchWake]. *)
Class MailboxEnv := {
  envelopeBytes : CloudCommandEnvelope → N;
  dispatchWake : bool }.

(** *** packages/cloud-commands: the registry has one kind, without dependencies, whose
    lane is its session's. *)
Definition cloudCommandEnvelopeEligibility (kind : string) (schemaVersion : Z)
    (dependencies : list CloudCommandDependency) : bool :=
  bool_decide (kind = "messages.send") && (schemaVersion =? 1)
  && bool_decide (length dependencies = 0%nat).
Definition cloudCommandLane (e : CloudCommandEnvelope) : option string :=
  if cloudCommandEnvelopeEligibility (env_kind e) (env_schemaVersion e) (env_dependencies e)
  then Some ("session:" +:+ env_sessionId e)
  else None.

(** ** State *)

(** A row of mailbox_commands. *)
Record CommandRow := {
  cr_command_id : string;
  cr_workspace_sequence : Z;
  cr_lane : string;
  cr_kind : string;
  cr_fingerprint : string;
  cr_schema_version : Z;
  cr_envelope : option CloudCommandEnvelope;
  cr_envelope_bytes : Z;
  cr_state : CloudCommandState;
  cr_ever_leased : bool;
  cr_lease_token : option string;
  cr_lease_deadline : option Z;
  cr_runtime_generation : option Z;
  cr_provider_sandbox_id : option string;
  cr_storage_incarnation_id : option string;
  cr_category : option string;
  cr_blocked_until : option string;
  cr_result_iv : option string;
  cr_result_ciphertext : option string;
  cr_created_at : Z;
  cr_accepted_at : option Z;
  cr_updated_at : Z;
  cr_terminal_at : option Z }.
#[export] Instance CommandRow_eta : Settable CommandRow := λ r,
  Build_CommandRow (cr_command_id r) (cr_workspace_sequence r) (cr_lane r) (cr_kind r)
    (cr_fingerprint r) (cr_schema_version r) (cr_envelope r) (cr_envelope_bytes r) (cr_state r)
    (cr_ever_leased r) (cr_lease_token r) (cr_lease_deadline r) (cr_runtime_generation r)
    (cr_provider_sandbox_id r) (cr_storage_incarnation_id r) (cr_category r) (cr_blocked_until r)
    (cr_result_iv r) (cr_result_ciphertext r) (cr_created_at r) (cr_accepted_at r)
    (cr_updated_at r) (cr_terminal_at r).

(** The handler of the alarm set for [run_at], which waits for the wake of [run_revision]
    to be answered. *)
Record AlarmRun := { run_at : Z; run_revision : Z }.

(** mailbox_commands in the order of insertion, mailbox_meta key by key, mailbox_changes
    in the order of its key, the alarm, and the object's memory. A counter that is absent
    counts from 0. *)
Record Mailbox := {
  mb_commands : list CommandRow;
  mb_sequence : Z;
  mb_revision : Z;
  mb_wake_sequence : Z;
  mb_runtime_generation : option Z;
  mb_destruction_fence : option Z;
  mb_lifecycle_fence : option Z;
  mb_storage_incarnation : option string;
  mb_wake_workspace_id : option string;
  mb_wake_account_id : option string;
  mb_wake_revision : option Z;
  mb_wake_delivered_revision : option Z;
  mb_wake_next_at : option Z;
  mb_command_revision : gmap string Z;
  mb_command_identity : gmap string string;
  mb_changes : list (Z * string);
  mb_alarm : option Z;
  mb_waiters : list (N * Z);
  mb_woken : list (N * Z);
  mb_running : option AlarmRun }.
#[export] Instance Mailbox_eta : Settable Mailbox := λ m,
  Build_Mailbox (mb_commands m) (mb_sequence m) (mb_revision m) (mb_wake_sequence m)
    (mb_runtime_generation m) (mb_destruction_fence m) (mb_lifecycle_fence m)
    (mb_storage_incarnation m) (mb_wake_workspace_id m) (mb_wake_account_id m)
    (mb_wake_revision m) (mb_wake_delivered_revision m) (mb_wake_next_at m)
    (mb_command_revision m) (mb_command_identity m) (mb_changes m) (mb_alarm m)
    (mb_waiters m) (mb_woken m) (mb_running m).
Definition empty_mailbox : Mailbox :=
  {| mb_commands := []; mb_sequence := 0; mb_revision := 0; mb_wake_sequence := 0;
     mb_runtime_generation := None; mb_destruction_fence := None; mb_lifecycle_fence := None;
     mb_storage_incarnation := None; mb_wake_workspace_id := None; mb_wake_account_id := None;
     mb_wake_revision := None; mb_wake_delivered_revision := None; mb_wake_next_at := None;
     mb_command_revision := ∅; mb_command_identity := ∅; mb_changes := []; mb_alarm := None;
     mb_waiters := []; mb_woken := []; mb_running := None |}.

(** ** Statements *)

Definition terminal (r : CommandRow) : bool := isCloudCommandTerminalState (cr_state r).
Definition nonterminal (r : CommandRow) : bool := negb (terminal r).
Definition has_id (commandId : string) (r : CommandRow) : bool := bool_decide (cr_command_id r = commandId).
Definition in_states (states : list CloudCommandState) (r : CommandRow) : bool :=
  bool_decide (cr_state r ∈ states).

(** [SELECT ... WHERE] and [UPDATE ... WHERE] on mailbox_commands. *)
Definition select (cond : CommandRow → bool) (m : Mailbox) : list CommandRow :=
  filter (λ r, cond r = true) (mb_commands m).
Definition update_commands (cond : CommandRow → bool) (f : CommandRow → CommandRow) (m : Mailbox)
  : Mailbox :=
  m <| mb_commands ::= map (λ r, if cond r then f r else r) |>.
Definition find_command (commandId : string) (m : Mailbox) : option CommandRow :=
  head (select (has_id commandId) m).

(** [next("revision")] and the wake of every waiting watcher. *)
Definition wake_waiters (m : Mailbox) : Mailbox :=
  m <| mb_woken := mb_woken m ++ mb_waiters m |> <| mb_waiters := [] |>.
Definition changed (commandId : string) (m : Mailbox) : Mailbox :=
  let revision := mb_revision m + 1 in
  wake_waiters
    (m <| mb_revision := revision |>
       <| mb_changes := filter (λ c, ¬ c.1 <= revision - CHANGE_HISTORY_LIMIT)
                          (mb_changes m ++ [(revision, commandId)]) |>
       <| mb_command_revision ::= insert commandId revision |>).
Definition changed_all (commandIds : list string) (m : Mailbox) : Mailbox :=
  foldl (λ m id, changed id m) m commandIds.

(** ** Status *)

Record CommandStatus := {
  cst_commandId : string;
  cst_workspaceSequence : Z;
  cst_revision : Z;
  cst_fingerprint : string;
  cst_state : CloudCommandState;
  cst_everLeased : bool;
  cst_updatedAt : Z;
  cst_acceptedAt : option Z;
  cst_category : option string;
  cst_blockedUntil : option string;
  cst_resultIv : option string;
  cst_resultCiphertext : option string }.

Definition last_change (commandId : string) (m : Mailbox) : Z :=
  default 0 (fst <$> last (filter (λ c, c.2 = commandId) (mb_changes m))).
Definition status_revision (commandId : string) (m : Mailbox) : Z :=
  default (last_change commandId m) (mb_command_revision m !! commandId).
Definition row_status (r : CommandRow) (revision : Z) : CommandStatus :=
  {| cst_commandId := cr_command_id r; cst_workspaceSequence := cr_workspace_sequence r;
     cst_revision := revision; cst_fingerprint := cr_fingerprint r; cst_state := cr_state r;
     cst_everLeased := cr_ever_leased r; cst_updatedAt := cr_updated_at r;
     cst_acceptedAt := cr_accepted_at r; cst_category := cr_category r;
     cst_blockedUntil := cr_blocked_until r; cst_resultIv := cr_result_iv r;
     cst_resultCiphertext := cr_result_ciphertext r |}.
Definition status (commandId : string) (m : Mailbox) : option CommandStatus :=
  (λ r, row_status r (status_revision commandId m)) <$> find_command commandId m.

(** ** Replies *)

Record RuntimeLease := {
  rl_command : CloudCommandEnvelope;
  rl_workspaceSequence : Z;
  rl_leaseToken : string;
  rl_leaseDeadline : Z;
  rl_runtimeGeneration : Z;
  rl_providerSandboxId : string;
  rl_storageIncarnationId : string }.
Record LeasePage := {
  lp_leases : list RuntimeLease;
  lp_fenced : bool;
  lp_nonterminalCount : Z;
  lp_mailboxRevision : Z;
  lp_fenceRequired : bool }.
Record CommandChangePage := {
  pg_changes : list CommandStatus;
  pg_nextRevision : Z;
  pg_resetRequired : bool }.
Record CommandAcceptance := {
  ca_commandId : string;
  ca_workspaceSequence : Z;
  ca_revision : Z;
  ca_acceptedAt : Z;
  ca_state : CloudCommandState }.

(** [Refused code http status]: an error with the status it shows, if any. [Thrown]: the
    promise of the handler is rejected; [Pending]: a watcher waits. *)
Inductive Reply :=
| Pending
| Thrown
| Refused (code : string) (http : Z) (shown : option CommandStatus)
| ReservedAnew (workspaceSequence : Z)
| ReservedAlready (shown : option CommandStatus)
| Accepted (a : CommandAcceptance)
| StatusReply (http : Z) (shown : option CommandStatus)
| NotAcknowledged (shown : option CommandStatus)
| BlockedCount (n : nat)
| UnblockedCount (n : nat)
| Leases (page : LeasePage)
| LifecycleDone (duplicate stale : bool)
| Changes (page : CommandChangePage).
(** [Response.ok]. *)
Definition reply_ok (r : Reply) : bool :=
  match r with
  | Refused _ http _ | StatusReply http _ => (200 <=? http) && (http <? 300)
  | Pending | Thrown => false
  | _ => true
  end.
Definition refuse (code : string) (http : Z) (m : Mailbox) : Mailbox * Reply :=
  (m, Refused code http None).

(** ** Fences and leases *)

Definition envelopeFence (r : CommandRow) : option Z :=
  e ← cr_envelope r;
  if isSafeInteger (env_destructionFence e) && num_leb (num_of_Z 0) (env_destructionFence e)
  then Some (num_Z (env_destructionFence e)) else None.

Definition dependency_json (d : CloudCommandDependency) : json :=
  JObj [("blobId", JStr (dep_blobId d)); ("ciphertextBytes", JNum (dep_ciphertextBytes d));
        ("ciphertextSha256", JStr (dep_ciphertextSha256 d)); ("keyVersion", JNum (dep_keyVersion d));
        ("expiresAt", JNum (dep_expiresAt d))].
(** Computed after the fence was found to be an integer. *)
Definition commandIdentity (e : CloudCommandEnvelope) : string :=
  stringify (JArr
    ([JNum (env_protocolVersion e); JStr (env_workspaceId e); JStr (env_sessionId e);
      JStr (env_commandId e); JStr (env_kind e); JStr (env_fingerprint e);
      JNum (env_schemaVersion e); JNum (env_keyVersion e); JNum (num_Z (env_destructionFence e));
      JNum (env_createdAt e); JArr (map dependency_json (env_dependencies e))]
     ++ match env_actor e with
        | None => []
        | Some a => [JStr (wa_subject a); JStr (wa_membershipId a)]
        end)).

Record Categories := { neverLeased : string; everLeased : string }.
Definition DESTRUCTIVE_LEASE_CATEGORIES : list string :=
  ["workspace-destruction-fence-advanced-after-lease"; "workspace-archived-after-lease";
   "workspace-deleted-after-lease"].
Definition destructive (r : CommandRow) : bool :=
  match cr_category r with
  | Some c => bool_decide (c ∈ DESTRUCTIVE_LEASE_CATEGORIES)
  | None => false
  end.

Definition canStillReceiveOriginalReceipt (now : Z) (r : CommandRow) : bool :=
  cr_ever_leased r && bool_decide (cr_state r = CS_leased)
  && match cr_lease_token r with Some token => negb (bool_decide (token = "")) | None => false end
  && match cr_lease_deadline r with Some deadline => now <? deadline | None => false end
  && bool_decide (is_Some (cr_runtime_generation r))
  && bool_decide (is_Some (cr_storage_incarnation_id r)).
(** The terminal row of a command whose lease is over. *)
Definition end_command (state : CloudCommandState) (category : option string) (now : Z)
    (r : CommandRow) : CommandRow :=
  r <| cr_state := state |> <| cr_category := category |> <| cr_updated_at := now |>
    <| cr_terminal_at := Some now |> <| cr_lease_token := None |> <| cr_lease_deadline := None |>.
Definition terminalize_row (categories : Categories) (now : Z) (m : Mailbox) (row : CommandRow)
  : Mailbox :=
  let commandId := cr_command_id row in
  changed commandId
    (if canStillReceiveOriginalReceipt now row
     then update_commands (λ r, has_id commandId r && bool_decide (cr_state r = CS_leased))
            (λ r, r <| cr_category := Some (everLeased categories) |> <| cr_updated_at := now |>) m
     else update_commands (λ r, has_id commandId r && nonterminal r)
            (end_command (if cr_ever_leased row then CS_outcome_unknown else CS_cancelled)
               (Some (if cr_ever_leased row then everLeased categories else neverLeased categories))
               now) m).
Definition terminalizeUnsafe (rows : list CommandRow) (categories : Categories) (now : Z)
    (m : Mailbox) : Mailbox :=
  foldl (terminalize_row categories now) m rows.
Definition below_fence (destructionFence : Z) (r : CommandRow) : bool :=
  match envelopeFence r with
  | None => true
  | Some commandFence => commandFence <? destructionFence
  end.
Definition terminalizeBelowFenceUnsafe (destructionFence : Z) (categories : Categories) (now : Z)
    (m : Mailbox) : Mailbox :=
  terminalizeUnsafe (filter (λ r, below_fence destructionFence r = true) (select nonterminal m))
    categories now m.

Definition nonterminalCountUnsafe (m : Mailbox) : Z := Z.of_nat (length (select nonterminal m)).

Definition lease_expired (now : Z) (r : CommandRow) : bool :=
  bool_decide (cr_state r = CS_leased)
  && match cr_lease_deadline r with Some deadline => deadline <=? now | None => false end.
Definition await_fence (now : Z) (r : CommandRow) : CommandRow :=
  r <| cr_state := CS_lease_expired_awaiting_fence |>
    <| cr_category := Some "runtime-fence-required" |> <| cr_updated_at := now |>.
Definition expireLeasesUnsafe (now : Z) (m : Mailbox) : Mailbox :=
  let expiredLeases := select (lease_expired now) m in
  changed_all (cr_command_id <$> expiredLeases)
    (update_commands (λ r, lease_expired now r && negb (destructive r)) (await_fence now)
       (update_commands (λ r, lease_expired now r && destructive r)
          (λ r, end_command CS_outcome_unknown (cr_category r) now r) m)).

Definition awaits_fence_of (runtimeGeneration : Z) (storageIncarnationId : string) (r : CommandRow)
  : bool :=
  bool_decide (cr_state r = CS_lease_expired_awaiting_fence)
  && bool_decide (cr_runtime_generation r = Some runtimeGeneration)
  && bool_decide (cr_storage_incarnation_id r = Some storageIncarnationId).
Definition runtimeFenceRequiredUnsafe (runtimeGeneration : Z) (storageIncarnationId : string)
    (m : Mailbox) : bool :=
  negb (bool_decide (select (awaits_fence_of runtimeGeneration storageIncarnationId) m = [])).

Definition observeDestructionFenceUnsafe (destructionFence now : Z) (m : Mailbox) : Mailbox :=
  if match mb_destruction_fence m with Some current => destructionFence <=? current | None => false end
  then m
  else
    terminalizeBelowFenceUnsafe destructionFence
      {| neverLeased := "workspace-destruction-fence-advanced";
         everLeased := "workspace-destruction-fence-advanced-after-lease" |} now
      (m <| mb_destruction_fence := Some destructionFence |>).

(** A safe integer of at least [least]. *)
Definition safe_from (least : Z) (a : num) : bool :=
  isSafeInteger a && negb (num_ltb a (num_of_Z least)).

(** ** Reservation *)

Section mailbox.
Context `{MailboxEnv}.

Definition nonterminal_bytes (m : Mailbox) : Z :=
  foldr (λ r total, cr_envelope_bytes r + total) 0 (select nonterminal m).
Definition reserved_row (e : CloudCommandEnvelope) (sequence : Z) (lane : string) (now : Z)
  : CommandRow :=
  {| cr_command_id := env_commandId e; cr_workspace_sequence := sequence; cr_lane := lane;
     cr_kind := env_kind e; cr_fingerprint := env_fingerprint e;
     cr_schema_version := env_schemaVersion e; cr_envelope := Some e;
     cr_envelope_bytes := Z.of_N (envelopeBytes e); cr_state := CS_reserved;
     cr_ever_leased := false; cr_lease_token := None; cr_lease_deadline := None;
     cr_runtime_generation := None; cr_provider_sandbox_id := None;
     cr_storage_incarnation_id := None; cr_category := None; cr_blocked_until := None;
     cr_result_iv := None; cr_result_ciphertext := None; cr_created_at := now;
     cr_accepted_at := None; cr_updated_at := now; cr_terminal_at := None |}.
Definition insert_reserved (e : CloudCommandEnvelope) (lane : string) (now : Z) (m : Mailbox)
  : Mailbox :=
  let sequence := mb_sequence m + 1 in
  changed (env_commandId e)
    (m <| mb_sequence := sequence |>
       <| mb_commands := mb_commands m ++ [reserved_row e sequence lane now] |>
       <| mb_command_identity ::= insert (env_commandId e) (commandIdentity e) |>).

Definition reserve_fenced (e : CloudCommandEnvelope) (lane : string) (now : Z) (m : Mailbox)
  : Mailbox * Reply :=
  let identity := commandIdentity e in
  match find_command (env_commandId e) m with
  | Some existing =>
      let storedIdentity := mb_command_identity m !! env_commandId e in
      if decide ((storedIdentity ?? (commandIdentity <$> cr_envelope existing)) ≠ Some identity)
      then refuse "command-identity-collision" 409 m
      else
        let m := match storedIdentity with
                 | None => m <| mb_command_identity ::= insert (env_commandId e) identity |>
                 | Some _ => m
                 end in
        (m, ReservedAlready (status (env_commandId e) m))
  | None =>
      if (CLOUD_COMMAND_MAX_NONTERMINAL <=? nonterminalCountUnsafe m)
         || (CLOUD_COMMAND_MAX_MAILBOX_BYTES <? nonterminal_bytes m + Z.of_N (envelopeBytes e))
      then refuse "mailbox-capacity" 429 m
      else (insert_reserved e lane now m, ReservedAnew (mb_sequence m + 1))
  end.
Definition reserveUnsafe (e : CloudCommandEnvelope) (now : Z) (m : Mailbox) : Mailbox * Reply :=
  match cloudCommandLane e with
  | None => refuse "cloud-command-not-eligible" 400 m
  | Some lane =>
      if CLOUD_COMMAND_MAX_ENVELOPE_BYTES <? Z.of_N (envelopeBytes e)
      then refuse "command-envelope-too-large" 413 m
      else if negb (safe_from 0 (env_destructionFence e))
      then refuse "command-destruction-fence-invalid" 400 m
      else
        let fence := num_Z (env_destructionFence e) in
        if match mb_destruction_fence m with Some current => fence <? current | None => false end
        then refuse "command-destruction-fence-stale" 409 m
        else reserve_fenced e lane now (observeDestructionFenceUnsafe fence now m)
  end.

(** ** Acceptance *)

Record MailboxWakeDelivery := { mwd_workspaceId : string; mwd_accountId : string }.

Definition binding_mismatch (row : CommandRow) (delivery : MailboxWakeDelivery) (m : Mailbox) : bool :=
  negb (bool_decide ((match cr_envelope row with
                      | Some e => Some (env_workspaceId e)
                      | None => mb_wake_workspace_id m
                      end) = Some (mwd_workspaceId delivery)))
  || match mb_wake_account_id m with
     | Some expected => negb (bool_decide (expected = mwd_accountId delivery))
     | None => false
     end.
(** A new revision of the wake, which is due. *)
Definition request_wake (now : Z) (m : Mailbox) : Mailbox :=
  m <| mb_wake_sequence := mb_wake_sequence m + 1 |>
    <| mb_wake_revision := Some (mb_wake_sequence m + 1) |>
    <| mb_wake_next_at := Some (now + 1) |>.
Definition accept_row (blockedUntil : option string) (now : Z) (r : CommandRow) : CommandRow :=
  r <| cr_state := match blockedUntil with None => CS_accepted | Some _ => CS_blocked end |>
    <| cr_accepted_at := Some now |> <| cr_updated_at := now |> <| cr_blocked_until := blockedUntil |>.
Definition accepted_reply (before : CommandRow) (m : Mailbox) : Reply :=
  match status (cr_command_id before) m with
  | None => Thrown
  | Some current =>
      match cst_acceptedAt current ?? cr_accepted_at before with
      | None => Refused "command-not-accepted" 409 (Some current)
      | Some acceptedAt =>
          Accepted {| ca_commandId := cr_command_id before;
                      ca_workspaceSequence := cst_workspaceSequence current;
                      ca_revision := cst_revision current; ca_acceptedAt := acceptedAt;
                      ca_state := match cst_state current with
                                  | CS_waiting_for_runtime => CS_waiting_for_runtime
                                  | CS_blocked => CS_blocked
                                  | _ => CS_accepted
                                  end |}
      end
  end.
Definition commitUnsafe (commandId : string) (blockedUntil : option string)
    (delivery : option MailboxWakeDelivery) (now : Z) (m : Mailbox) : Mailbox * Reply :=
  match find_command commandId m with
  | None => refuse "command-not-found" 404 m
  | Some before =>
      let reserved := bool_decide (cr_state before = CS_reserved) in
      if reserved && dispatchWake && bool_decide (delivery = None)
      then refuse "wake-delivery-required" 400 m
      else if match delivery with Some d => binding_mismatch before d m | None => false end
      then refuse "wake-delivery-binding-mismatch" 409 m
      else
        let m1 := update_commands (λ r, has_id commandId r && bool_decide (cr_state r = CS_reserved))
                    (accept_row blockedUntil now) m in
        let m2 := if reserved then changed commandId m1 else m1 in
        let m3 := match delivery with
                  | Some d =>
                      if reserved
                         || (bool_decide (mb_wake_revision m2 = None)
                             && in_states [CS_accepted; CS_waiting_for_runtime; CS_blocked] before)
                      then request_wake now
                             (m2 <| mb_wake_workspace_id := Some (mwd_workspaceId d) |>
                                 <| mb_wake_account_id := Some (mwd_accountId d) |>)
                      else m2
                  | None => m2
                  end in
        (m3, accepted_reply before m3)
  end.

(** ** Blocking *)

Definition blockable (r : CommandRow) : bool :=
  in_states [CS_accepted; CS_waiting_for_runtime; CS_blocked] r.
Definition block_row (blockedUntil : string) (now : Z) (r : CommandRow) : CommandRow :=
  r <| cr_state := CS_blocked |> <| cr_blocked_until := Some blockedUntil |> <| cr_updated_at := now |>.
Definition blocked_on (blockedUntil : string) (r : CommandRow) : bool :=
  bool_decide (cr_state r = CS_blocked) && bool_decide (cr_blocked_until r = Some blockedUntil).
Definition blockAll (blockedUntil : string) (now : Z) (m : Mailbox) : Mailbox * Reply :=
  let candidates := filter (λ r, blocked_on blockedUntil r = false)
                      (select (λ r, negb (cr_ever_leased r) && blockable r) m) in
  (foldl (λ m candidate,
            changed (cr_command_id candidate)
              (update_commands
                 (λ r, has_id (cr_command_id candidate) r && negb (cr_ever_leased r) && blockable r)
                 (block_row blockedUntil now) m)) m candidates,
   BlockedCount (length candidates)).
Definition blockUnsafe (commandId : option string) (blockedUntil : string) (now : Z) (m : Mailbox)
  : Mailbox * Reply :=
  match commandId with
  | None => blockAll blockedUntil now m
  | Some commandId =>
      match status commandId m with
      | None => refuse "command-not-found" 404 m
      | Some before =>
          if isCloudCommandTerminalState (cst_state before) then (m, StatusReply 200 (Some before))
          else if decide (cst_state before = CS_reserved)
          then (m, Refused "command-not-accepted" 409 (Some before))
          else if decide (cst_state before = CS_leased ∨ cst_everLeased before = true)
          then (m, Refused "command-already-leased" 409 (Some before))
          else
            let m1 := update_commands (λ r, has_id commandId r && blockable r)
                        (block_row blockedUntil now) m in
            let m2 := if decide (cst_state before ≠ CS_blocked
                                 ∨ cst_blockedUntil before ≠ Some blockedUntil)
                      then changed commandId m1 else m1 in
            (m2, StatusReply 202 (status commandId m2))
      end
  end.

Definition unblock_row (now : Z) (r : CommandRow) : CommandRow :=
  r <| cr_state := CS_waiting_for_runtime |> <| cr_blocked_until := None |> <| cr_updated_at := now |>.
Definition unblock_command (now : Z) (m : Mailbox) (commandId : string) : Mailbox :=
  changed commandId
    (update_commands (λ r, has_id commandId r && bool_decide (cr_state r = CS_blocked))
       (unblock_row now) m).
Definition rearmWakeUnsafe (now : Z) (m : Mailbox) : Mailbox :=
  match mb_wake_revision m with None => m | Some _ => request_wake now m end.
Definition unblockUnsafe (commandId blockedUntil : option string) (now : Z) (m : Mailbox)
  : Mailbox * Reply :=
  match commandId with
  | None =>
      let blocked := select (λ r, bool_decide (cr_state r = CS_blocked)
                                  && match blockedUntil with
                                     | None => true
                                     | Some reason => bool_decide (cr_blocked_until r = Some reason)
                                     end) m in
      let m1 := foldl (unblock_command now) m (cr_command_id <$> blocked) in
      (if decide (blocked = []) then m1 else rearmWakeUnsafe now m1, UnblockedCount (length blocked))
  | Some commandId =>
      match status commandId m with
      | None => refuse "command-not-found" 404 m
      | Some before =>
          if decide (cst_state before ≠ CS_blocked) then (m, StatusReply 200 (Some before))
          else if match blockedUntil with
                  | Some reason => negb (bool_decide (cst_blockedUntil before = Some reason))
                  | None => false
                  end
          then (m, Refused "command-block-reason-mismatch" 409 (Some before))
          else
            let m1 := rearmWakeUnsafe now (unblock_command now m commandId) in
            (m1, StatusReply 200 (status commandId m1))
      end
  end.

(** ** Cancellation *)

Definition cancelable (r : CommandRow) : bool :=
  negb (cr_ever_leased r)
  && in_states [CS_reserved; CS_accepted; CS_waiting_for_runtime; CS_blocked] r.
Definition cancel_row (category : string) (now : Z) (r : CommandRow) : CommandRow :=
  r <| cr_state := CS_cancelled |> <| cr_category := Some category |> <| cr_updated_at := now |>
    <| cr_terminal_at := Some now |>.
Definition cancelUnsafe (commandId category : string) (now : Z) (m : Mailbox) : Mailbox * Reply :=
  match status commandId m with
  | None => refuse "command-not-found" 404 m
  | Some before =>
      let m1 := update_commands (λ r, has_id commandId r && cancelable r)
                  (cancel_row category now) m in
      match status commandId m1 with
      | None => (m1, Thrown)
      | Some after =>
          let m2 := if decide (cst_state before ≠ CS_cancelled ∧ cst_state after = CS_cancelled)
                    then changed commandId m1 else m1 in
          (m2, if isCloudCommandTerminalState (cst_state after)
               then StatusReply 200 (status commandId m2)
               else Refused "command-already-leased" 409 (Some after))
      end
  end.

(** ** Leases *)

Record LeaseInput := {
  li_runtimeGeneration : num;
  li_providerSandboxId : string;
  li_storageIncarnationId : string;
  li_destructionFence : num }.

Definition leases_reply (leases : list RuntimeLease) (fenced fenceRequired : bool) (m : Mailbox) : Reply :=
  Leases {| lp_leases := leases; lp_fenced := fenced;
            lp_nonterminalCount := nonterminalCountUnsafe m;
            lp_mailboxRevision := mb_revision m; lp_fenceRequired := fenceRequired |}.

(** Commands a runtime on another storage had leased are lost with it. *)
Definition replace_storage (storageIncarnationId : string) (now : Z) (m : Mailbox) : Mailbox :=
  let leased := λ r, cr_ever_leased r && nonterminal r in
  let m1 :=
    if match mb_storage_incarnation m with
       | Some previous => negb (bool_decide (previous = storageIncarnationId))
       | None => false
       end
    then changed_all (cr_command_id <$> select leased m)
           (update_commands leased (end_command CS_outcome_unknown (Some "runtime-storage-replaced") now) m)
    else m in
  m1 <| mb_storage_incarnation := Some storageIncarnationId |>.
(** Commands whose lease expired become available once a newer generation runs. *)
Definition fenced_by (runtimeGeneration : Z) (storageIncarnationId : string) (r : CommandRow) : bool :=
  bool_decide (cr_state r = CS_lease_expired_awaiting_fence)
  && bool_decide (cr_storage_incarnation_id r = Some storageIncarnationId)
  && match cr_runtime_generation r with Some g => g <? runtimeGeneration | None => false end.
Definition release_row (now : Z) (r : CommandRow) : CommandRow :=
  r <| cr_state := CS_waiting_for_runtime |> <| cr_category := Some "runtime-generation-fenced" |>
    <| cr_lease_token := None |> <| cr_lease_deadline := None |> <| cr_updated_at := now |>.
Definition release_fenced (runtimeGeneration : Z) (storageIncarnationId : string) (now : Z)
    (m : Mailbox) : Mailbox :=
  let fenced := fenced_by runtimeGeneration storageIncarnationId in
  changed_all (cr_command_id <$> select fenced m) (update_commands fenced (release_row now) m).

Definition available (r : CommandRow) : bool := in_states [CS_accepted; CS_waiting_for_runtime] r.
(** Another command of the lane, reserved before, is not over. *)
Definition blocked_by_prior (m : Mailbox) (c : CommandRow) : bool :=
  existsb (λ prior, bool_decide (cr_lane prior = cr_lane c)
                    && (cr_workspace_sequence prior <? cr_workspace_sequence c)
                    && nonterminal prior) (mb_commands m).
Definition lease_candidates (m : Mailbox) : list CommandRow :=
  take 16 (select (λ c, available c && negb (blocked_by_prior m c)) m).
Definition lease_row (runtimeGeneration : Z) (input : LeaseInput) (token : string) (now : Z)
    (r : CommandRow) : CommandRow :=
  r <| cr_state := CS_leased |> <| cr_ever_leased := true |> <| cr_lease_token := Some token |>
    <| cr_lease_deadline := Some (now + CLOUD_COMMAND_LEASE_TTL_MS) |>
    <| cr_runtime_generation := Some runtimeGeneration |>
    <| cr_provider_sandbox_id := Some (li_providerSandboxId input) |>
    <| cr_storage_incarnation_id := Some (li_storageIncarnationId input) |>
    <| cr_updated_at := now |>.
(** [None]: the text of an envelope does not parse. *)
Fixpoint lease_loop (runtimeGeneration : Z) (input : LeaseInput) (now : Z) (token : nat → string)
    (i : nat) (candidates : list CommandRow) (m : Mailbox) : Mailbox * option (list RuntimeLease) :=
  match candidates with
  | [] => (m, Some [])
  | candidate :: rest =>
      let commandId := cr_command_id candidate in
      let m1 := update_commands (λ r, has_id commandId r && available r)
                  (lease_row runtimeGeneration input (token i) now) m in
      match head (select (λ r, has_id commandId r && bool_decide (cr_lease_token r = Some (token i))) m1) with
      | None => lease_loop runtimeGeneration input now token (S i) rest m1
      | Some row =>
          let m2 := changed commandId m1 in
          match cr_envelope row with
          | None => (m2, None)
          | Some e =>
              let '(m3, leases) := lease_loop runtimeGeneration input now token (S i) rest m2 in
              (m3, (λ leases,
                 {| rl_command := e; rl_workspaceSequence := cr_workspace_sequence row;
                    rl_leaseToken := token i;
                    rl_leaseDeadline := now + CLOUD_COMMAND_LEASE_TTL_MS;
                    rl_runtimeGeneration := runtimeGeneration;
                    rl_providerSandboxId := li_providerSandboxId input;
                    rl_storageIncarnationId := li_storageIncarnationId input |} :: leases) <$> leases)
          end
      end
  end.

(** The part of a lease that follows the fences. *)
Definition lease_fenced (runtimeGeneration : Z) (input : LeaseInput) (now : Z) (token : nat → string)
    (m : Mailbox) : Mailbox * Reply :=
  let m1 := release_fenced runtimeGeneration (li_storageIncarnationId input) now
              (replace_storage (li_storageIncarnationId input) now m) in
  if runtimeFenceRequiredUnsafe runtimeGeneration (li_storageIncarnationId input) m1
  then (m1, leases_reply [] false true m1)
  else
    let '(m2, leases) := lease_loop runtimeGeneration input now token 0 (lease_candidates m1) m1 in
    (m2, match leases with Some leases => leases_reply leases false false m2 | None => Thrown end).
Definition leaseUnsafe (input : LeaseInput) (token : nat → string) (now : Z) (m : Mailbox)
  : Mailbox * Reply :=
  if negb (safe_from 1 (li_runtimeGeneration input)) || negb (safe_from 0 (li_destructionFence input))
  then refuse "runtime-fence-invalid" 400 m
  else
    let runtimeGeneration := num_Z (li_runtimeGeneration input) in
    let destructionFence := num_Z (li_destructionFence input) in
    let m1 := expireLeasesUnsafe now m in
    if match mb_runtime_generation m1 with Some known => runtimeGeneration <? known | None => false end
    then (m1, leases_reply [] true false m1)
    else
      let m2 := m1 <| mb_runtime_generation := Some runtimeGeneration |> in
      if match mb_destruction_fence m2 with Some known => destructionFence <? known | None => false end
      then (m2, leases_reply [] true false m2)
      else lease_fenced runtimeGeneration input now token
             (observeDestructionFenceUnsafe destructionFence now m2).

(** ** Acknowledgment *)

(** [String.prototype.length] of a text given by its UTF-8 bytes: a continuation byte adds
    nothing, the first of four bytes stands for a surrogate pair. *)
Fixpoint js_length (s : string) : Z :=
  match s with
  | EmptyString => 0
  | String c s =>
      (let n := Ascii.nat_of_ascii c in
       if Nat.ltb n 128 then 1 else if Nat.ltb n 192 then 0 else if Nat.ltb n 240 then 1 else 2)
      + js_length s
  end.
Definition option_length (s : option string) : Z :=
  match s with Some s => js_length s | None => 0 end.
Definition acknowledge_row (ack : RuntimeAcknowledgment) (now : Z) (r : CommandRow) : CommandRow :=
  (end_command (ack_command_state (ack_state ack)) (ack_category ack) now r)
    <| cr_result_iv := ack_resultIv ack |> <| cr_result_ciphertext := ack_resultCiphertext ack |>.
Definition acknowledgeUnsafe (ack : RuntimeAcknowledgment) (now : Z) (m : Mailbox) : Mailbox * Reply :=
  let m1 := expireLeasesUnsafe now m in
  let commandId := ack_commandId ack in
  if CLOUD_COMMAND_MAX_ENVELOPE_BYTES
     <? option_length (ack_resultIv ack) + option_length (ack_resultCiphertext ack)
  then refuse "command-result-too-large" 413 m1
  else
    match find_command commandId m1 with
    | None => refuse "command-not-found" 404 m1
    | Some row =>
        if decide (cr_fingerprint row ≠ ack_fingerprint ack)
        then refuse "command-fingerprint-mismatch" 409 m1
        else if terminal row then (m1, StatusReply 200 (status commandId m1))
        else if negb (in_states [CS_leased; CS_lease_expired_awaiting_fence] row)
                || negb (bool_decide (cr_lease_token row = Some (ack_leaseToken ack)))
        then (m1, NotAcknowledged (status commandId m1))
        else
          let m2 := changed commandId
                      (update_commands (has_id commandId) (acknowledge_row ack now) m1) in
          (m2, StatusReply 200 (status commandId m2))
    end.

(** ** Lifecycle *)

Inductive LifecycleAction := Archive | Delete.
Definition action_text (a : LifecycleAction) : string :=
  match a with Archive => "archive" | Delete => "delete" end.
Definition lifecycle_categories (a : LifecycleAction) : Categories :=
  {| neverLeased := "workspace-" +:+ action_text a +:+ "d-before-lease";
     everLeased := "workspace-" +:+ action_text a +:+ "d-after-lease" |}.
Definition lifecycleUnsafe (action : LifecycleAction) (destructionFence : option num) (now : Z)
    (m : Mailbox) : Mailbox * Reply :=
  match destructionFence with
  | None => (terminalizeUnsafe (select nonterminal m) (lifecycle_categories action) now m,
             LifecycleDone false false)
  | Some fence =>
      if negb (safe_from 0 fence) then refuse "workspace-destruction-fence-invalid" 400 m
      else
        let fence := num_Z fence in
        if match mb_lifecycle_fence m with Some processed => fence <=? processed | None => false end
        then (m, LifecycleDone true false)
        else if match mb_destruction_fence m with Some known => fence <? known | None => false end
        then (m, LifecycleDone false true)
        else (terminalizeBelowFenceUnsafe fence (lifecycle_categories action) now
                (m <| mb_destruction_fence := Some fence |> <| mb_lifecycle_fence := Some fence |>),
              LifecycleDone false false)
  end.

(** ** Watching *)

(** The last change of each command after a revision, in the order of these changes:
    [GROUP BY command_id ORDER BY MAX(revision)]. *)
Definition latest_changes (afterRevision : Z) (m : Mailbox) : list (Z * string) :=
  let after := filter (λ c, afterRevision < c.1) (mb_changes m) in
  filter (λ c, ¬ Exists (λ d, d.2 = c.2 ∧ c.1 < d.1) after) after.
Definition read_changes (afterRevision : Z) (m : Mailbox) : CommandChangePage :=
  let oldest := match mb_changes m with [] => 0 | c :: _ => c.1 end in
  if (0 <? oldest) && (afterRevision <? oldest - 1)
  then {| pg_changes := []; pg_nextRevision := mb_revision m; pg_resetRequired := true |}
  else
    let ids := take CLOUD_COMMAND_WATCH_MAX_CHANGES (latest_changes afterRevision m) in
    {| pg_changes := omap (λ c, status c.2 m) ids;
       pg_nextRevision := match last ids with Some c => c.1 | None => mb_revision m end;
       pg_resetRequired := false |}.
(** A watcher with nothing to read waits. *)
Definition watch (watcher : N) (afterRevision : Z) (m : Mailbox) : Mailbox * Reply :=
  let page := read_changes afterRevision m in
  if negb (pg_resetRequired page) && bool_decide (pg_changes page = [])
     && (pg_nextRevision page <=? afterRevision)
  then (m <| mb_waiters ::= λ l, l ++ [(watcher, afterRevision)] |>, Pending)
  else (m, Changes page).

(** ** The alarm *)

Definition schedule (at_ now : Z) (m : Mailbox) : Mailbox :=
  if match mb_alarm m with
     | None => true
     | Some current => (current <=? now) || (at_ <? current)
     end
  then m <| mb_alarm := Some at_ |> else m.

Definition min_deadline (a b : option Z) : option Z :=
  match a, b with Some a, Some b => Some (Z.min a b) | Some a, None => Some a | None, b => b end.
Definition keeps_payload (r : CommandRow) : bool :=
  bool_decide (is_Some (cr_envelope r)) || bool_decide (is_Some (cr_result_iv r))
  || bool_decide (is_Some (cr_result_ciphertext r)).
Definition row_deadline (r : CommandRow) : option Z :=
  min_deadline
    (if decide (cr_state r = CS_reserved) then Some (cr_updated_at r + RESERVATION_TTL_MS) else None)
    (min_deadline
       (if decide (cr_state r = CS_leased) then cr_lease_deadline r else None)
       (t ← cr_terminal_at r; if keeps_payload r then Some (t + RESULT_RETENTION_MS) else None)).
Definition wake_pending (m : Mailbox) : bool :=
  negb (bool_decide (mb_wake_revision m = mb_wake_delivered_revision m)).
Definition nextAlarmDeadline (m : Mailbox) : option Z :=
  min_deadline (foldr (λ r d, min_deadline (row_deadline r) d) None (mb_commands m))
    (if wake_pending m then mb_wake_next_at m else None).
Definition scheduleNext (now : Z) (m : Mailbox) : Mailbox :=
  match nextAlarmDeadline m with
  | None => m <| mb_alarm := None |>
  | Some deadline => schedule (Z.max (now + 1) deadline) now m
  end.

Definition reservation_expired (now : Z) (r : CommandRow) : bool :=
  bool_decide (cr_state r = CS_reserved) && (cr_updated_at r <=? now - RESERVATION_TTL_MS).
Definition expire_reservation (now : Z) (r : CommandRow) : CommandRow :=
  r <| cr_state := CS_cancelled |> <| cr_category := Some "reservation-expired" |>
    <| cr_updated_at := now |> <| cr_terminal_at := Some now |>.
Definition past_retention (now : Z) (r : CommandRow) : bool :=
  match cr_terminal_at r with Some t => t <=? now - RESULT_RETENTION_MS | None => false end.
Definition drop_payload (r : CommandRow) : CommandRow :=
  r <| cr_result_iv := None |> <| cr_result_ciphertext := None |> <| cr_envelope := None |>
    <| cr_envelope_bytes := 0 |>
    <| cr_category := match cr_category r with None => Some "result-expired" | c => c end |>.
(** The transaction an alarm begins with. *)
Definition expire (now : Z) (m : Mailbox) : Mailbox :=
  let m1 := changed_all (cr_command_id <$> select (reservation_expired now) m)
              (update_commands (reservation_expired now) (expire_reservation now) m) in
  update_commands (past_retention now) drop_payload (expireLeasesUnsafe now m1).
(** What becomes of the wake of a revision, delivered or failed. *)
Definition wake_delivered (revision : Z) (m : Mailbox) : Mailbox :=
  wake_waiters (m <| mb_wake_delivered_revision := Some revision |>
                  <| mb_revision := mb_revision m + 1 |>).
Definition wake_failed (revision now : Z) (m : Mailbox) : Mailbox :=
  if decide (mb_wake_revision m = Some revision)
  then m <| mb_wake_next_at := Some (now + 5000) |> else m.
(** The handler up to its wait for the wake. While it runs, [getAlarm] sees only what was
    set since it began. *)
Definition alarm_fires (now : Z) (m : Mailbox) : Mailbox :=
  match mb_alarm m, mb_running m with
  | Some at_, None =>
      if now <? at_ then m
      else
        let m1 := expire now (m <| mb_alarm := None |>) in
        match mb_wake_revision m1 with
        | Some revision =>
            if dispatchWake && wake_pending m1
            then match mb_wake_workspace_id m1, mb_wake_account_id m1 with
                 | Some _, Some _ => m1 <| mb_running := Some {| run_at := at_; run_revision := revision |} |>
                 | _, _ => scheduleNext now (wake_failed revision now m1)
                 end
            else scheduleNext now m1
        | None => scheduleNext now m1
        end
  | _, _ => m
  end.
(** The rest of it. *)
Definition wake_answered (now : Z) (delivered : bool) (m : Mailbox) : Mailbox :=
  match mb_running m with
  | None => m
  | Some run =>
      scheduleNext now
        ((if delivered then wake_delivered (run_revision run) m else wake_failed (run_revision run) now m)
           <| mb_running := None |>)
  end.

(** ** Handlers *)

Inductive Request :=
| Reserve (envelope : CloudCommandEnvelope)
| Commit (commandId : string) (blockedUntil workspaceId accountId : option string)
| Block (commandId blockedUntil : option string)
| Unblock (commandId blockedUntil : option string)
| Cancel (commandId : string) (category : option string)
| Lease (input : LeaseInput)
| Acknowledge (ack : RuntimeAcknowledgment)
| Lifecycle (action : option LifecycleAction) (destructionFence : option num)
| Status (commandId : string)
| Watch (afterRevision : Z).

(** A handler waits for the alarm storage twice: it arms the alarm for what its
    transaction may leave behind, runs the transaction, and sets the alarm to the next
    deadline. *)
Record Times := { t_schedule : Z; t_transaction : Z; t_next : Z }.
Record Handler := {
  h_arm : Mailbox → Mailbox;
  h_transaction : Mailbox → Mailbox * Reply;
  h_next : Reply → bool }.
Definition always (_ : Reply) : bool := true.
Definition answer (reply : Reply) : Handler :=
  {| h_arm := id; h_transaction := λ m, (m, reply); h_next := λ _, false |}.

Definition wake_delivery (workspaceId accountId : option string) : option MailboxWakeDelivery :=
  match workspaceId, accountId with
  | Some w, Some a => Some {| mwd_workspaceId := w; mwd_accountId := a |}
  | _, _ => None
  end.
Definition handler (t : Times) (token : nat → string) (watcher : N) (request : Request) : Handler :=
  let arm after := schedule (t_schedule t + after) (t_schedule t) in
  let now := t_transaction t in
  match request with
  | Reserve e =>
      {| h_arm := arm RESERVATION_TTL_MS; h_transaction := reserveUnsafe e now; h_next := reply_ok |}
  | Commit commandId blockedUntil workspaceId accountId =>
      let delivery := wake_delivery workspaceId accountId in
      {| h_arm := match delivery with Some _ => arm 1 | None => id end;
         h_transaction := commitUnsafe commandId blockedUntil delivery now; h_next := always |}
  | Block commandId blockedUntil =>
      match blockedUntil with
      | None | Some "" => answer (Refused "command-block-reason-invalid" 400 None)
      | Some reason =>
          {| h_arm := id; h_transaction := blockUnsafe commandId reason now; h_next := always |}
      end
  | Unblock commandId blockedUntil =>
      {| h_arm := λ m, match mb_wake_revision m with Some _ => arm 1 m | None => m end;
         h_transaction := unblockUnsafe commandId blockedUntil now; h_next := always |}
  | Cancel commandId category =>
      {| h_arm := arm RESULT_RETENTION_MS;
         h_transaction := cancelUnsafe commandId (default "cancelled-by-user" category) now;
         h_next := always |}
  | Lease input =>
      {| h_arm := arm CLOUD_COMMAND_LEASE_TTL_MS; h_transaction := leaseUnsafe input token now;
         h_next := always |}
  | Acknowledge ack =>
      {| h_arm := arm RESULT_RETENTION_MS; h_transaction := acknowledgeUnsafe ack now; h_next := always |}
  | Lifecycle None _ => answer (Refused "invalid-lifecycle-action" 400 None)
  | Lifecycle (Some action) fence =>
      {| h_arm := arm RESULT_RETENTION_MS; h_transaction := lifecycleUnsafe action fence now;
         h_next := always |}
  | Status commandId =>
      {| h_arm := id;
         h_transaction := λ m, (m, match status commandId m with
                                   | Some st => StatusReply 200 (Some st)
                                   | None => Refused "command-not-found" 404 None
                                   end);
         h_next := λ _, false |}
  | Watch afterRevision =>
      {| h_arm := id; h_transaction := watch watcher afterRevision; h_next := λ _, false |}
  end.

(** [transactionSync]: an exception undoes the writes, not the wakes. *)
Definition transactionSync (f : Mailbox → Mailbox * Reply) (m : Mailbox) : Mailbox * Reply :=
  match f m with
  | (m', Thrown) => (m <| mb_waiters := mb_waiters m' |> <| mb_woken := mb_woken m' |>, Thrown)
  | x => x
  end.
Definition finish (h : Handler) (now : Z) (x : Mailbox * Reply) : Mailbox * Reply :=
  match x.2 with
  | Thrown => x
  | reply => if h_next h reply then (scheduleNext now x.1, reply) else x
  end.
Definition fetch (t : Times) (token : nat → string) (watcher : N) (request : Request) (m : Mailbox)
  : Mailbox * Reply :=
  let h := handler t token watcher request in
  finish h (t_next t) (transactionSync (h_transaction h) (h_arm h m)).

(** ** Runs *)

(** The object is lost with its memory; the platform retries an alarm whose handler did
    not end. *)
Definition lost (m : Mailbox) : Mailbox :=
  m <| mb_waiters := [] |> <| mb_woken := [] |> <| mb_running := None |>
    <| mb_alarm := min_deadline (run_at <$> mb_running m) (mb_alarm m) |>.

(** What happens to the object: a request served, or lost after some of its stages; the
    alarm, or its loss after its transaction; the answer to a wake; a watcher that is
    woken or whose time is over; the loss of the object. *)
Inductive Event :=
| Fetch (t : Times) (token : nat → string) (watcher : N) (request : Request)
| FetchLost (t : Times) (token : nat → string) (request : Request) (committed : bool)
| AlarmFires (now : Z)
| AlarmLost (now : Z)
| WakeAnswered (now : Z) (delivered : bool)
| WatcherWoken
| WatchTimeout (watcher : N)
| Lost.

Definition deliver (event : Event) (m : Mailbox) : Mailbox * Reply :=
  match event with
  | Fetch t token watcher request => fetch t token watcher request m
  | FetchLost t token request committed =>
      let h := handler t token 0 request in
      (lost (if committed then (transactionSync (h_transaction h) (h_arm h m)).1 else h_arm h m), Pending)
  | AlarmFires now => (alarm_fires now m, Pending)
  | AlarmLost now =>
      match mb_running m, mb_alarm m with
      | None, Some at_ =>
          if now <? at_ then (m, Pending)
          else (lost ((expire now (m <| mb_alarm := None |>)) <| mb_alarm := Some at_ |>), Pending)
      | _, _ => (m, Pending)
      end
  | WakeAnswered now delivered => (wake_answered now delivered m, Pending)
  | WatcherWoken =>
      match mb_woken m with
      | (_, afterRevision) :: rest => (m <| mb_woken := rest |>, Changes (read_changes afterRevision m))
      | [] => (m, Pending)
      end
  | WatchTimeout watcher =>
      match filter (λ w, w.1 = watcher) (mb_waiters m) with
      | (_, afterRevision) :: _ =>
          (m <| mb_waiters ::= filter (λ w, w.1 ≠ watcher) |>, Changes (read_changes afterRevision m))
      | [] => (m, Pending)
      end
  | Lost => (lost m, Pending)
  end.
Definition run (events : list Event) (m : Mailbox) : Mailbox :=
  foldl (λ m event, (deliver event m).1) m events.
Definition reachable (m : Mailbox) : Prop := ∃ events, m = run events empty_mailbox.
End mailbox.
