(* ===== verification/MailboxInv.v ===== *)
(** * Invariants of the workspace mailbox

    What every row satisfies ([row_ok]), what the tables satisfy together ([MailboxInv]),
    and what a step may change ([moves]): rows stay at their place and follow the life of
    a command ([life_step]), and a change that watchers are not told of is invisible to
    them ([quiet]). Every operation is a composition of insertions and of [touch]: rows
    rewritten in place, then announced. *)
From stdpp Require Import sorting.
From S2P Require Import Prelude Js Mailbox.

Local Open Scope Z_scope.

(** ** The life of a command *)

Definition phase (r : CommandRow) : CloudCommandState * bool := (cr_state r, cr_ever_leased r).
Inductive life_step : CloudCommandState * bool → CloudCommandState * bool → Prop :=
| life_accept : life_step (CS_reserved, false) (CS_accepted, false)
| life_accept_blocked : life_step (CS_reserved, false) (CS_blocked, false)
| life_block s : s ∈ [CS_accepted; CS_waiting_for_runtime] → life_step (s, false) (CS_blocked, false)
| life_unblock : life_step (CS_blocked, false) (CS_waiting_for_runtime, false)
| life_cancel s : s ∈ [CS_reserved; CS_accepted; CS_waiting_for_runtime; CS_blocked] →
    life_step (s, false) (CS_cancelled, false)
| life_lease s b : s ∈ [CS_accepted; CS_waiting_for_runtime] → life_step (s, b) (CS_leased, true)
| life_lease_expires : life_step (CS_leased, true) (CS_lease_expired_awaiting_fence, true)
| life_fenced : life_step (CS_lease_expired_awaiting_fence, true) (CS_waiting_for_runtime, true)
| life_acknowledge s k : s ∈ [CS_leased; CS_lease_expired_awaiting_fence] →
    life_step (s, true) (ack_command_state k, true)
| life_lose s : s ∈ [CS_waiting_for_runtime; CS_leased; CS_lease_expired_awaiting_fence] →
    life_step (s, true) (CS_outcome_unknown, true).

(** A terminal state has no step. *)
Ltac split_states :=
  repeat match goal with
  | Hin : _ ∈ _ :: _ |- _ => apply elem_of_cons in Hin as [->|Hin]
  | Hin : _ ∈ [] |- _ => by apply elem_of_nil in Hin
  end.
Lemma life_step_nonterminal p q : life_step p q → isCloudCommandTerminalState p.1 = false.
Proof. intros []; cbn; split_states; done. Qed.
Lemma life_steps_terminal p q :
  rtc life_step p q → isCloudCommandTerminalState p.1 = true → q = p.
Proof. intros [|p' q' r Hs _] Ht; [done|]. apply life_step_nonterminal in Hs. congruence. Qed.
Lemma life_step_leased p q : life_step p q → p.2 = true → q.2 = true.
Proof. by intros []. Qed.
Lemma life_steps_leased p q : rtc life_step p q → p.2 = true → q.2 = true.
Proof. induction 1; eauto using life_step_leased. Qed.

(** ** Rows *)

Section inv.
Context `{MailboxEnv}.

(** What the columns hold in each state. *)
Definition shape (r : CommandRow) : Prop :=
  match cr_state r with
  | CS_reserved => cr_ever_leased r = false ∧ cr_accepted_at r = None
  | CS_accepted => cr_ever_leased r = false ∧ is_Some (cr_accepted_at r)
  | CS_blocked => cr_ever_leased r = false ∧ is_Some (cr_accepted_at r) ∧ is_Some (cr_blocked_until r)
  | CS_waiting_for_runtime => is_Some (cr_accepted_at r)
  | CS_leased | CS_lease_expired_awaiting_fence =>
      cr_ever_leased r = true ∧ is_Some (cr_accepted_at r)
      ∧ is_Some (cr_lease_token r) ∧ is_Some (cr_lease_deadline r)
  | CS_cancelled => cr_ever_leased r = false
  | _ => cr_ever_leased r = true
  end.
Definition holds_lease (r : CommandRow) : bool := in_states [CS_leased; CS_lease_expired_awaiting_fence] r.
(** The envelope a row was made for. *)
Definition content (r : CommandRow) (e : CloudCommandEnvelope) : Prop :=
  env_commandId e = cr_command_id r ∧ env_kind e = cr_kind r
  ∧ env_fingerprint e = cr_fingerprint r ∧ cloudCommandLane e = Some (cr_lane r)
  ∧ safe_from 0 (env_destructionFence e) = true ∧ cr_envelope_bytes r = Z.of_N (envelopeBytes e).
(** A leased command belongs to the storage of the current runtime and to a generation
    that was current; it waits again only for a newer one. *)
Definition lease_ok (generation : option Z) (storage : option string) (r : CommandRow) : Prop :=
  if cr_ever_leased r
  then ∃ g s, cr_runtime_generation r = Some g ∧ cr_storage_incarnation_id r = Some s
       ∧ (nonterminal r = true →
          storage = Some s
          ∧ ∃ known, generation = Some known ∧ g <= known
              ∧ (cr_state r = CS_waiting_for_runtime → g < known))
  else cr_runtime_generation r = None ∧ cr_storage_incarnation_id r = None.
(** A live command is not behind the destruction fence, unless it is leased and will end
    with its lease. *)
Definition fence_ok (fence : option Z) (r : CommandRow) : Prop :=
  ∀ f, fence = Some f → nonterminal r = true →
    below_fence f r = false ∨ (cr_state r = CS_leased ∧ destructive r = true).

Record row_ok (generation fence : option Z) (storage : option string) (r : CommandRow) : Prop := {
  rok_shape : shape r;
  rok_live : nonterminal r = true →
    is_Some (cr_envelope r) ∧ cr_terminal_at r = None ∧ cr_result_iv r = None
    ∧ cr_result_ciphertext r = None ∧ (cr_state r ≠ CS_blocked → cr_blocked_until r = None);
  rok_over : terminal r = true → is_Some (cr_terminal_at r);
  rok_unheld : holds_lease r = false → cr_lease_token r = None ∧ cr_lease_deadline r = None;
  rok_content : ∀ e, cr_envelope r = Some e → content r e;
  rok_bytes : 0 <= cr_envelope_bytes r <= CLOUD_COMMAND_MAX_ENVELOPE_BYTES;
  rok_lease : lease_ok generation storage r;
  rok_fence : fence_ok fence r }.
Definition row_ok_in (m : Mailbox) : CommandRow → Prop :=
  row_ok (mb_runtime_generation m) (mb_destruction_fence m) (mb_storage_incarnation m).

(** What the command came to. *)
Definition outcome (r : CommandRow) :=
  (cr_category r, cr_result_iv r, cr_result_ciphertext r).
(** What a step does to a row. *)
Record row_move (r r' : CommandRow) : Prop := {
  rm_id : cr_command_id r' = cr_command_id r;
  rm_sequence : cr_workspace_sequence r' = cr_workspace_sequence r;
  rm_lane : cr_lane r' = cr_lane r;
  rm_fingerprint : cr_fingerprint r' = cr_fingerprint r;
  rm_life : rtc life_step (phase r) (phase r');
  rm_envelope : cr_envelope r' = cr_envelope r ∨ (terminal r' = true ∧ cr_envelope r' = None);
  rm_bytes : 0 <= cr_envelope_bytes r → 0 <= cr_envelope_bytes r' <= cr_envelope_bytes r;
  rm_generation : ∀ g, cr_runtime_generation r = Some g →
    ∃ g', cr_runtime_generation r' = Some g' ∧ g <= g';
  rm_storage : ∀ s, cr_storage_incarnation_id r = Some s → cr_storage_incarnation_id r' = Some s;
  rm_final : terminal r = true → outcome r' = outcome r ∨ cr_envelope r' = None }.

(** What a watcher sees of a command that it is not told of. *)
Definition view (r : CommandRow) :=
  (cr_state r, cr_ever_leased r, cr_accepted_at r, cr_blocked_until r).
Definition quiet (r r' : CommandRow) : Prop :=
  view r' = view r ∧ (outcome r' = outcome r ∨ cr_envelope r' = None).

#[export] Instance row_move_refl : Reflexive row_move.
Proof. intros r. split; [done..|apply rtc_refl|by left|done|eauto with lia|done|by left]. Qed.

Lemma row_move_terminal r r' : row_move r r' → terminal r = true → phase r' = phase r.
Proof. intros Hm Ht. by apply life_steps_terminal; [apply rm_life|]. Qed.
Lemma row_move_keeps_terminal r r' : row_move r r' → terminal r = true → terminal r' = true.
Proof. intros Hm Ht. unfold terminal. by injection (row_move_terminal _ _ Hm Ht) as -> _. Qed.
Lemma row_move_nonterminal r r' : row_move r r' → nonterminal r' = true → nonterminal r = true.
Proof.
  unfold nonterminal. intros Hm. destruct (terminal r) eqn:Ht; [|done].
  by rewrite (row_move_keeps_terminal _ _ Hm Ht).
Qed.
Lemma row_move_leased r r' : row_move r r' → cr_ever_leased r = true → cr_ever_leased r' = true.
Proof. intros Hm. apply (life_steps_leased _ _ (rm_life _ _ Hm)). Qed.
Lemma row_move_dropped r r' : row_move r r' → cr_envelope r = None → cr_envelope r' = None.
Proof. intros Hm Hn. by destruct (rm_envelope _ _ Hm) as [->|[_ ?]]. Qed.
#[export] Instance row_move_trans : Transitive row_move.
Proof.
  intros r1 r2 r3 H1 H2. split; try (destruct H1, H2; congruence).
  - etrans; by apply rm_life.
  - destruct (rm_envelope _ _ H2) as [->|?]; [|by right].
    destruct (rm_envelope _ _ H1) as [->|[? ?]]; [by left|].
    right. eauto using row_move_keeps_terminal.
  - intros Hb. pose proof (rm_bytes _ _ H1 Hb). pose proof (rm_bytes _ _ H2). lia.
  - intros g Hg. destruct (rm_generation _ _ H1 g Hg) as (g' & Hg' & ?).
    destruct (rm_generation _ _ H2 g' Hg') as (g'' & ? & ?). exists g''. split; [done|lia].
  - intros s Hs. by apply (rm_storage _ _ H2), (rm_storage _ _ H1).
  - intros Ht. destruct (rm_final _ _ H2) as [->|?]; [by eapply row_move_keeps_terminal| |by right].
    destruct (rm_final _ _ H1 Ht) as [->|?]; [by left|right]. by eapply row_move_dropped.
Qed.

(** ** Tables *)

Definition ids (m : Mailbox) : list string := cr_command_id <$> mb_commands m.
Definition opt_le (a b : option Z) : Prop := ∀ x, a = Some x → ∃ y, b = Some y ∧ x <= y.

Record TableInv (m : Mailbox) : Prop := {
  ti_rows : ∀ r, r ∈ mb_commands m → row_ok_in m r;
  ti_ids : NoDup (ids m);
  ti_sequences : StronglySorted Z.lt (cr_workspace_sequence <$> mb_commands m);
  ti_counter : 0 <= mb_sequence m;
  ti_sequence : ∀ r, r ∈ mb_commands m → 1 <= cr_workspace_sequence r <= mb_sequence m;
  ti_lanes : ∀ r p, r ∈ mb_commands m → p ∈ mb_commands m → cr_ever_leased r = true →
    cr_lane p = cr_lane r → cr_workspace_sequence p < cr_workspace_sequence r → terminal p = true;
  ti_identity : ∀ r, r ∈ mb_commands m → is_Some (mb_command_identity m !! cr_command_id r);
  ti_count : nonterminalCountUnsafe m <= CLOUD_COMMAND_MAX_NONTERMINAL;
  ti_bytes : nonterminal_bytes m <= CLOUD_COMMAND_MAX_MAILBOX_BYTES;
  ti_lifecycle : opt_le (mb_lifecycle_fence m) (mb_destruction_fence m);
  ti_wake : is_Some (mb_wake_revision m) →
    is_Some (mb_wake_workspace_id m) ∧ is_Some (mb_wake_account_id m) ∧ is_Some (mb_wake_next_at m) }.

(** The history: it holds the last change of every command, but for those older than all
    it holds. *)
Record LogCore (m : Mailbox) : Prop := {
  gi_sorted : StronglySorted (λ c d : Z * string, c.1 < d.1) (mb_changes m);
  gi_change : ∀ c, c ∈ mb_changes m → 0 < c.1 <= mb_revision m
    ∧ ∃ n, mb_command_revision m !! c.2 = Some n ∧ c.1 <= n;
  gi_revision : ∀ id n, mb_command_revision m !! id = Some n → 0 < n <= mb_revision m ∧ id ∈ ids m
    ∧ ((n, id) ∈ mb_changes m ∨ mb_changes m ≠ [] ∧ ∀ c, c ∈ mb_changes m → n < c.1);
  gi_positive : 0 <= mb_revision m;
  gi_waiters : ∀ w, w ∈ mb_waiters m → mb_revision m <= w.2 }.
Record LogInv (m : Mailbox) : Prop := {
  gi_core :> LogCore m;
  gi_announced : ∀ id, id ∈ ids m → is_Some (mb_command_revision m !! id) }.
Definition MailboxInv (m : Mailbox) : Prop := TableInv m ∧ LogInv m.

(** ** Steps *)

(** [id] was announced in [m'] since [m]. *)
Definition told (m : Mailbox) (id : string) (m' : Mailbox) : Prop :=
  ∃ n, mb_command_revision m' !! id = Some n ∧ mb_revision m < n.
Record moves (m m' : Mailbox) : Prop := {
  mv_rows : ∀ i r, mb_commands m !! i = Some r → ∃ r', mb_commands m' !! i = Some r'
    ∧ row_move r r' ∧ (quiet r r' ∨ told m (cr_command_id r) m');
  mv_new : ∀ i r', mb_commands m' !! i = Some r' →
    is_Some (mb_commands m !! i)
    ∨ told m (cr_command_id r') m' ∧ rtc life_step (CS_reserved, false) (phase r');
  mv_revision : mb_revision m <= mb_revision m';
  mv_revisions : ∀ id, opt_le (mb_command_revision m !! id) (mb_command_revision m' !! id);
  mv_generation : opt_le (mb_runtime_generation m) (mb_runtime_generation m');
  mv_fence : opt_le (mb_destruction_fence m) (mb_destruction_fence m') }.
Definition step (m m' : Mailbox) : Prop := MailboxInv m → MailboxInv m' ∧ moves m m'.

#[export] Instance opt_le_refl : Reflexive opt_le.
Proof. intros a x ->. exists x. split; [done|lia]. Qed.
#[export] Instance opt_le_trans : Transitive opt_le.
Proof. intros a b c Hab Hbc x Hx. destruct (Hab x Hx) as (y & Hy & ?). destruct (Hbc y Hy) as (z & ? & ?).
  exists z. split; [done|lia]. Qed.
Lemma told_later m m' m'' id : moves m m' → moves m' m'' → told m id m' → told m id m''.
Proof.
  intros _ H2 (n & Hn & ?). destruct (mv_revisions _ _ H2 id n Hn) as (n' & ? & ?).
  exists n'. split; [done|lia].
Qed.
Lemma told_earlier m m' m'' id : moves m m' → told m' id m'' → told m id m''.
Proof. intros H1 (n & Hn & ?). pose proof (mv_revision _ _ H1). exists n. split; [done|lia]. Qed.
Lemma quiet_trans r1 r2 r3 : row_move r2 r3 → quiet r1 r2 → quiet r2 r3 → quiet r1 r3.
Proof.
  intros Hm [Hv1 Ho1] [Hv2 Ho2]. split; [congruence|].
  destruct Ho1 as [Ho1|Hd]; [|right; by eapply row_move_dropped].
  destruct Ho2; [left; congruence|by right].
Qed.
#[export] Instance moves_refl : Reflexive moves.
Proof. intros m. split; try done; eauto 10; intros i r Hr; exists r; split_and!; try done. left. split; auto. Qed.
#[export] Instance moves_trans : Transitive moves.
Proof.
  intros m1 m2 m3 H1 H2. split.
  - intros i r Hr. destruct (mv_rows _ _ H1 i r Hr) as (r' & Hr' & Hm & Hq).
    destruct (mv_rows _ _ H2 i r' Hr') as (r'' & Hr'' & Hm' & Hq').
    exists r''. split_and!; [done|by etrans|].
    destruct Hq as [Hq|Ht]; [|right; by eapply told_later].
    destruct Hq' as [Hq'|Ht]; [left; by eapply quiet_trans|right].
    rewrite <-(rm_id _ _ Hm). by eapply told_earlier.
  - intros i r'' Hr''.
    destruct (mv_new _ _ H2 i r'' Hr'') as [[r' Hr']|[Ht ?]];
      [|right; split; [by eapply told_earlier|done]].
    destruct (mv_new _ _ H1 i r' Hr') as [?|[Ht ?]]; [by left|right].
    destruct (mv_rows _ _ H2 i r' Hr') as (r2 & Hr2 & Hm & _). simplify_eq.
    rewrite (rm_id _ _ Hm). split; [by eapply told_later|]. etrans; [done|apply Hm].
  - etrans; by apply mv_revision.
  - intros id. etrans; by apply mv_revisions.
  - etrans; by apply mv_generation.
  - etrans; by apply mv_fence.
Qed.
Lemma step_refl m : step m m.
Proof. by intros. Qed.
Lemma step_trans m1 m2 m3 : step m1 m2 → (MailboxInv m2 → step m2 m3) → step m1 m3.
Proof. intros H1 H2 Hi. destruct (H1 Hi) as [Hi2 ?]. destruct (H2 Hi2 Hi2) as [? ?]. split; [done|by etrans]. Qed.

(** ** Announcements *)

Lemma changed_all_same {A} (f : Mailbox → A) idl m :
  (∀ id m, f (changed id m) = f m) → f (changed_all idl m) = f m.
Proof. intros Hf. revert m. induction idl as [|id idl IH]; intros m; [done|].
  etrans; [apply (IH (changed id m))|apply Hf]. Qed.
Lemma changed_all_table idl m : TableInv m → TableInv (changed_all idl m).
Proof.
  revert m. induction idl as [|id idl IH]; intros m Hi; [done|]. apply (IH (changed id m)).
  destruct Hi. by split.
Qed.

Lemma StronglySorted_filter {A} (R : relation A) (P : A → Prop) `{∀ x, Decision (P x)} l :
  StronglySorted R l → StronglySorted R (filter P l).
Proof.
  induction 1 as [|x l _ IH Hx]; [constructor|]. rewrite filter_cons. case_decide; [|done].
  constructor; [done|]. rewrite Forall_forall in Hx |- *.
  intros y [_ Hy]%list_elem_of_filter. by apply Hx.
Qed.
Lemma elem_of_changes id m c :
  c ∈ mb_changes (changed id m) ↔
  (c ∈ mb_changes m ∨ c = (mb_revision m + 1, id)) ∧ mb_revision m + 1 - CHANGE_HISTORY_LIMIT < c.1.
Proof.
  cbn. rewrite list_elem_of_filter, elem_of_app, list_elem_of_singleton. rewrite Z.nle_gt. tauto.
Qed.
Lemma changed_log_core id m :
  LogCore m → id ∈ ids m →
  (∀ id', id' ∈ ids m → id' ≠ id → is_Some (mb_command_revision m !! id')) → LogInv (changed id m).
Proof.
  intros [Hs Hc Hr Hp Hw] Hid Ha.
  assert (Hnew : (mb_revision m + 1, id) ∈ mb_changes (changed id m)).
  { apply elem_of_changes. split; [by right|cbn; unfold CHANGE_HISTORY_LIMIT; lia]. }
  assert (Hne : mb_changes (changed id m) ≠ []) by (intros Hnil; rewrite Hnil in Hnew; by apply elem_of_nil in Hnew).
  split; [split|].
  - cbn. apply StronglySorted_filter, StronglySorted_app. split_and!; [|done|by repeat constructor].
    intros c d Hcin ->%list_elem_of_singleton. cbn. pose proof (proj1 (Hc c Hcin)). lia.
  - intros c [[Hin| ->] _]%elem_of_changes; cbn [mb_revision changed wake_waiters].
    + destruct (Hc c Hin) as [? (n & Hn & ?)]. split; [cbn; lia|]. cbn.
      destruct (decide (c.2 = id)) as [->|].
      * exists (mb_revision m + 1). rewrite lookup_insert_eq. split; [done|lia].
      * exists n. by rewrite lookup_insert_ne.
    + cbn. split; [lia|]. exists (mb_revision m + 1). by rewrite lookup_insert_eq.
  - intros id' n Hn. cbn in Hn. destruct (decide (id' = id)) as [->|Hid'].
    + rewrite lookup_insert_eq in Hn. injection Hn as <-. cbn. split; [lia|split; [done|by left]].
    + rewrite lookup_insert_ne in Hn by done. destruct (Hr id' n Hn) as (? & ? & Hcase).
      cbn. split; [lia|split; [done|]].
      destruct (decide (mb_revision m + 1 - CHANGE_HISTORY_LIMIT < n)) as [Hk|Hk].
      * destruct Hcase as [Hin|[_ Hlt]].
        -- left. apply elem_of_changes. split; [by left|done].
        -- right. split; [exact Hne|].
           intros c [[Hin| ->] _]%elem_of_changes; [by apply Hlt|cbn; lia].
      * right. split; [exact Hne|].
        intros c [_ ?]%elem_of_changes. lia.
  - cbn. lia.
  - cbn. intros w Hin. by apply elem_of_nil in Hin.
  - intros id' Hin. cbn. destruct (decide (id' = id)) as [->|]; [by rewrite lookup_insert_eq|].
    rewrite lookup_insert_ne by done. by apply Ha.
Qed.
Lemma changed_log id m : LogInv m → id ∈ ids m → LogInv (changed id m).
Proof. intros [? Ha] ?. apply changed_log_core; auto. Qed.
Lemma changed_all_log idl m :
  LogInv m → (∀ id, id ∈ idl → id ∈ ids m) →
  LogInv (changed_all idl m) ∧ mb_revision m <= mb_revision (changed_all idl m)
  ∧ (∀ id, opt_le (mb_command_revision m !! id) (mb_command_revision (changed_all idl m) !! id))
  ∧ (∀ id, id ∈ idl → told m id (changed_all idl m)).
Proof.
  revert m. induction idl as [|id idl IH]; intros m Hi Hin.
  { split_and!; [done|done|done|by intros ? ?%elem_of_nil]. }
  assert (Hi1 : LogInv (changed id m)) by (apply changed_log; [done|apply Hin; left]).
  assert (H1 : ∀ id', opt_le (mb_command_revision m !! id') (mb_command_revision (changed id m) !! id')).
  { intros id' n Hn. cbn. destruct (decide (id' = id)) as [->|].
    - exists (mb_revision m + 1). rewrite lookup_insert_eq. split; [done|].
      pose proof (proj1 (gi_revision _ Hi id n Hn)). lia.
    - exists n. by rewrite lookup_insert_ne. }
  destruct (IH (changed id m) Hi1) as (H2 & H3 & H4 & H5); [intros; apply Hin; by right|].
  cbn [changed_all foldl]. fold (changed_all idl (changed id m)).
  cbn in H3. split_and!; [done|lia|intros; etrans; eauto|].
  intros id' [->|Hin']%elem_of_cons.
  - destruct (H4 id (mb_revision m + 1)) as (n & Hn & ?); [cbn; by rewrite lookup_insert_eq|].
    exists n. split; [done|lia].
  - destruct (H5 id' Hin') as (n & Hn & Hlt). cbn in Hlt. exists n. split; [done|lia].
Qed.

(** ** Rows rewritten in place *)

Definition map_rows (g : CommandRow → CommandRow) (m : Mailbox) : Mailbox :=
  m <| mb_commands ::= map g |>.
Definition touch (g : CommandRow → CommandRow) (idl : list string) (m : Mailbox) : Mailbox :=
  changed_all idl (map_rows g m).
Record row_touch (m : Mailbox) (idl : list string) (r r' : CommandRow) : Prop := {
  rt_ok : row_ok_in m r';
  rt_move : row_move r r';
  rt_lease : cr_ever_leased r' = true → cr_ever_leased r = true ∨ blocked_by_prior m r = false;
  rt_told : cr_command_id r ∈ idl ∨ quiet r r' }.

Lemma quiet_refl r : quiet r r.
Proof. split; auto. Qed.
Lemma row_touch_same m idl r : row_ok_in m r → row_touch m idl r r.
Proof. intros ?. split; [done|done|by left|right; apply quiet_refl]. Qed.

Lemma blocked_by_prior_false m r p :
  blocked_by_prior m r = false → p ∈ mb_commands m → cr_lane p = cr_lane r →
  cr_workspace_sequence p < cr_workspace_sequence r → terminal p = true.
Proof.
  unfold blocked_by_prior, nonterminal. intros Hb Hp Hl Hs. destruct (terminal p) eqn:Ht; [done|].
  assert (existsb (λ prior, bool_decide (cr_lane prior = cr_lane r)
            && (cr_workspace_sequence prior <? cr_workspace_sequence r)
            && negb (terminal prior)) (mb_commands m) = true); [|congruence].
  apply existsb_exists. exists p. split; [by apply list_elem_of_In|].
  rewrite bool_decide_true by done. rewrite Ht. by apply Z.ltb_lt in Hs as ->.
Qed.

(** Nothing that counts against the capacity grows. *)
Lemma nonterminal_map g l :
  (∀ r, r ∈ l → 0 <= cr_envelope_bytes r ∧ row_move r (g r)) →
  (length (filter (λ r, nonterminal r = true) (map g l)) ≤ length (filter (λ r, nonterminal r = true) l))%nat
  ∧ foldr (λ r total, cr_envelope_bytes r + total) 0 (filter (λ r, nonterminal r = true) (map g l))
    <= foldr (λ r total, cr_envelope_bytes r + total) 0 (filter (λ r, nonterminal r = true) l).
Proof.
  induction l as [|r l IH]; intros Hl; [done|].
  destruct (IH) as [IH1 IH2]; [intros; apply Hl; by right|]. clear IH.
  destruct (Hl r) as [Hb Hm]; [by left|]. pose proof (rm_bytes _ _ Hm Hb).
  pose proof (row_move_nonterminal _ _ Hm) as Hn.
  cbn [map]. rewrite !filter_cons. destruct (decide (nonterminal (g r) = true)) as [Ht|Ht].
  - rewrite decide_True by auto. cbn. lia.
  - case_decide; cbn; lia.
Qed.

Section touch.
Context (m : Mailbox) (idl : list string) (g : CommandRow → CommandRow).
Context (Htouch : ∀ r, r ∈ mb_commands m → row_ok_in m r → row_touch m idl r (g r)).

Lemma map_rows_sequences :
  TableInv m → cr_workspace_sequence <$> mb_commands (map_rows g m) = cr_workspace_sequence <$> mb_commands m
  ∧ ids (map_rows g m) = ids m.
Proof using Htouch.
  intros Hi. unfold ids. cbn. rewrite <-!list_fmap_compose.
  split; apply list_fmap_ext; intros i r Hr%list_elem_of_lookup_2; cbn.
  - apply rm_sequence, (rt_move m idl), Htouch; [done|by apply ti_rows].
  - apply rm_id, (rt_move m idl), Htouch; [done|by apply ti_rows].
Qed.
Lemma touch_table : TableInv m → TableInv (map_rows g m).
Proof using Htouch.
  intros Hi. destruct (map_rows_sequences Hi) as [Hseq Hids].
  assert (Hg : ∀ r, r ∈ mb_commands (map_rows g m) → ∃ r0, r0 ∈ mb_commands m ∧ r = g r0
               ∧ row_touch m idl r0 r).
  { intros r (r0 & -> & Hr0)%list_elem_of_fmap. exists r0. split_and!; [done..|].
    apply Htouch; [done|by apply ti_rows]. }
  assert (Hcap := nonterminal_map g (mb_commands m)).
  destruct Hcap as [Hcount Hbytes].
  { intros r Hr. pose proof (ti_rows _ Hi r Hr) as Hok. split; [apply Hok|].
    by apply (rt_move m idl), Htouch. }
  split; try (by destruct Hi).
  - intros r (r0 & _ & _ & Ht)%Hg. apply Ht.
  - rewrite Hids. apply Hi.
  - rewrite Hseq. apply Hi.
  - intros r (r0 & Hr0 & _ & Ht)%Hg. rewrite (rm_sequence _ _ (rt_move _ _ _ _ Ht)).
    by apply (ti_sequence _ Hi).
  - intros r p (r0 & Hr0 & _ & Htr)%Hg (p0 & Hp0 & _ & Htp)%Hg Hl.
    rewrite (rm_lane _ _ (rt_move _ _ _ _ Htr)), (rm_lane _ _ (rt_move _ _ _ _ Htp)),
      (rm_sequence _ _ (rt_move _ _ _ _ Htr)), (rm_sequence _ _ (rt_move _ _ _ _ Htp)).
    intros Hlane Hs. apply (row_move_keeps_terminal p0); [apply Htp|].
    destruct (rt_lease _ _ _ _ Htr Hl) as [Hl0|Hb].
    + by apply (ti_lanes _ Hi r0 p0).
    + by apply (blocked_by_prior_false m r0).
  - intros r (r0 & Hr0 & _ & Ht)%Hg. rewrite (rm_id _ _ (rt_move _ _ _ _ Ht)). by apply (ti_identity _ Hi).
  - pose proof (ti_count _ Hi). unfold nonterminalCountUnsafe, select in *. cbn. lia.
  - pose proof (ti_bytes _ Hi). unfold nonterminal_bytes, select in *. cbn. lia.
Qed.
Lemma touch_log : TableInv m → LogInv m → LogInv (map_rows g m).
Proof using Htouch.
  intros Hi Hl. destruct (map_rows_sequences Hi) as [_ Hids]. destruct Hl as [Hcore Ha].
  split; [|by rewrite Hids]. destruct Hcore. split; try done. by rewrite Hids.
Qed.
Lemma touch_step : (∀ id, id ∈ idl → id ∈ ids m) → step m (touch g idl m).
Proof using Htouch.
  intros Hin [Hi Hl].
  assert (Hids := proj2 (map_rows_sequences Hi)).
  destruct (changed_all_log idl (map_rows g m)) as (Hlog & Hrev & Hrevs & Htold).
  { by apply touch_log. } { by rewrite Hids. }
  split; [split; [by apply changed_all_table, touch_table|done]|].
  assert (Hc : mb_commands (touch g idl m) = map g (mb_commands m))
    by (unfold touch; by rewrite (changed_all_same mb_commands)).
  split; [| |done|done| |].
  - intros i r Hr. exists (g r). rewrite Hc, list_lookup_fmap, Hr. split; [done|].
    destruct (Htouch r) as [_ ? _ Ht]; [by eapply list_elem_of_lookup_2|by eapply ti_rows, list_elem_of_lookup_2|].
    split; [done|]. destruct Ht as [Ht|Ht]; [right|by left]. by apply Htold.
  - intros i r'. rewrite Hc, list_lookup_fmap. destruct (mb_commands m !! i); [by left|done].
  - unfold touch. rewrite (changed_all_same mb_runtime_generation) by done. reflexivity.
  - unfold touch. rewrite (changed_all_same mb_destruction_fence) by done. reflexivity.
Qed.
End touch.

End inv.
