(* ===== verification/MailboxRows.v ===== *)
(** * What the mailbox writes into a row

    Every assignment of infra/api/src/workspace-mailbox.ts to the columns of a row keeps
    the row well formed and is a step of the command's life, under the condition of its
    statement. *)
From S2P Require Import Prelude Js Mailbox MailboxInv.

Local Open Scope Z_scope.

Section rows.
Context `{MailboxEnv}.

Definition row_good (generation fence : option Z) (storage : option string) (r r' : CommandRow) : Prop :=
  row_ok generation fence storage r' ∧ row_move r r'.

(** [r'] differs from [r] in the columns of its state only. *)
Definition same_payload (r r' : CommandRow) : Prop :=
  cr_command_id r' = cr_command_id r ∧ cr_workspace_sequence r' = cr_workspace_sequence r
  ∧ cr_lane r' = cr_lane r ∧ cr_kind r' = cr_kind r ∧ cr_fingerprint r' = cr_fingerprint r
  ∧ cr_envelope r' = cr_envelope r ∧ cr_envelope_bytes r' = cr_envelope_bytes r.
Lemma content_same_payload r r' e : same_payload r r' → content r e → content r' e.
Proof. unfold same_payload, content. intros (-> & _ & -> & -> & -> & _ & ->). done. Qed.
Lemma below_fence_same_payload r r' f : same_payload r r' → below_fence f r' = below_fence f r.
Proof. unfold same_payload, below_fence, envelopeFence. by intros (_ & _ & _ & _ & _ & -> & _). Qed.

(** What is left to show for such a row. *)
Lemma row_good_intro generation fence storage r r' :
  row_ok generation fence storage r → nonterminal r = true → same_payload r r' →
  shape r' → rtc life_step (phase r) (phase r') →
  (nonterminal r' = true →
     cr_terminal_at r' = None ∧ cr_result_iv r' = None
     ∧ cr_result_ciphertext r' = None ∧ (cr_state r' ≠ CS_blocked → cr_blocked_until r' = None)) →
  (terminal r' = true → is_Some (cr_terminal_at r')) →
  (holds_lease r' = false → cr_lease_token r' = None ∧ cr_lease_deadline r' = None) →
  lease_ok generation storage r' →
  (∀ g, cr_runtime_generation r = Some g → ∃ g', cr_runtime_generation r' = Some g' ∧ g <= g') →
  (∀ s, cr_storage_incarnation_id r = Some s → cr_storage_incarnation_id r' = Some s) →
  (nonterminal r' = true → cr_state r ≠ CS_leased ∨ destructive r = false ∨ (cr_state r' = CS_leased ∧ destructive r' = true)) →
  row_good generation fence storage r r'.
Proof.
  intros Hok Hn Hp Hs Hlife Hlive Hover Hunheld Hlease Hg Hsto Hfence.
  pose proof Hp as (Hi1 & Hi2 & Hi3 & Hi4 & Hi5 & Hi6 & Hi7).
  split; split; try done.
  - intros Hn'. rewrite Hi6. destruct (Hlive Hn') as (? & ? & ? & ?).
    split_and!; try done. by apply (rok_live _ _ _ _ Hok).
  - intros e. rewrite Hi6. intros He. by apply (content_same_payload r), (rok_content _ _ _ _ Hok).
  - rewrite Hi7. apply Hok.
  - intros f Hf Hn'. rewrite (below_fence_same_payload r) by done.
    destruct (rok_fence _ _ _ _ Hok f Hf Hn) as [|[Hst Hd]]; [by left|].
    destruct (Hfence Hn') as [?|[?|?]]; [congruence|congruence|by right].
  - by left.
  - rewrite Hi7. lia.
  - unfold nonterminal in Hn. destruct (terminal r); [done|]. done.
Qed.

(** Computes with the columns of [r] in each of its states. *)
Ltac row_fields r Hok Hcond :=
  pose proof (rok_shape _ _ _ _ Hok) as Hshape; pose proof (rok_live _ _ _ _ Hok) as Hlive;
  pose proof (rok_unheld _ _ _ _ Hok) as Hunheld; pose proof (rok_lease _ _ _ _ Hok) as Hlease;
  clear Hok;
  unfold shape, holds_lease, lease_ok, phase, cancelable, blockable, available, nonterminal, terminal,
    in_states in *;
  cbn in *; destruct (cr_state r) eqn:Hstate; cbn in *; try done;
  destruct (cr_ever_leased r) eqn:Hever; cbn in *; try done;
  try specialize (Hlive eq_refl); try specialize (Hunheld eq_refl); destruct_and?;
  try (destruct Hlease as (g0 & s0 & ? & ? & Hcurrent);
       try (specialize (Hcurrent eq_refl) as (? & known & ? & ? & ?)));
  simplify_eq.

Ltac life :=
  lazymatch goal with
  | |- rtc life_step _ _ =>
      first [reflexivity | apply rtc_once];
      first [apply (life_acknowledge _ Ack_applied); set_solver
             | apply (life_acknowledge _ Ack_rejected); set_solver
             | apply (life_acknowledge _ Ack_expired); set_solver
             | apply life_accept | apply life_accept_blocked | constructor; set_solver]
  end.
Ltac row_good Hok Hcond r :=
  apply row_good_intro; [done| |by repeat split|..]; row_fields r Hok Hcond; try life; intros; split_and?; try done;
  try (eexists _, _; split_and!; [done..|]; intros; split_and?; try done; eexists;
       split_and!; [done|lia|intros; first [done|lia]]);
  try (repeat simplify_eq; eexists; split; [done|lia]); try congruence; eauto with lia.

Lemma good_cancel generation fence storage category now r :
  row_ok generation fence storage r → cancelable r = true →
  row_good generation fence storage r (cancel_row category now r).
Proof. intros Hok Hcond. row_good Hok Hcond r. Qed.
Lemma good_accept generation fence storage reason now r :
  row_ok generation fence storage r → cr_state r = CS_reserved →
  row_good generation fence storage r (accept_row reason now r).
Proof. intros Hok Hcond. destruct reason; row_good Hok Hcond r. Qed.
Lemma good_block generation fence storage reason now r :
  row_ok generation fence storage r → cr_ever_leased r = false → blockable r = true →
  row_good generation fence storage r (block_row reason now r).
Proof. intros Hok Hcond Hcond2. row_good Hok Hcond r. Qed.
Lemma good_unblock generation fence storage now r :
  row_ok generation fence storage r → cr_state r = CS_blocked →
  row_good generation fence storage r (unblock_row now r).
Proof. intros Hok Hcond. row_good Hok Hcond r. Qed.
Lemma good_await generation fence storage now r :
  row_ok generation fence storage r → cr_state r = CS_leased → destructive r = false →
  row_good generation fence storage r (await_fence now r).
Proof. intros Hok Hcond Hd. row_good Hok Hcond r. Qed.
Lemma good_lose generation fence storage category now r :
  row_ok generation fence storage r → nonterminal r = true → cr_ever_leased r = true →
  row_good generation fence storage r (end_command CS_outcome_unknown category now r).
Proof. intros Hok Hcond Hd. row_good Hok Hcond r. Qed.
Lemma good_cancel_terminal generation fence storage category now r :
  row_ok generation fence storage r → nonterminal r = true → cr_ever_leased r = false →
  row_good generation fence storage r (end_command CS_cancelled category now r).
Proof. intros Hok Hcond Hd. row_good Hok Hcond r. Qed.
Lemma good_release g g' s fence now r :
  row_ok (Some g) fence (Some s) r → cr_state r = CS_lease_expired_awaiting_fence →
  cr_runtime_generation r = Some g' → g' < g →
  row_good (Some g) fence (Some s) r (release_row now r).
Proof. intros Hok Hcond Hg Hlt. row_good Hok Hcond r. Qed.
Lemma good_lease g fence input token now r :
  row_ok (Some g) fence (Some (li_storageIncarnationId input)) r → available r = true →
  row_good (Some g) fence (Some (li_storageIncarnationId input)) r (lease_row g input token now r).
Proof. intros Hok Hcond. row_good Hok Hcond r. Qed.
Lemma good_acknowledge generation fence storage ack now r :
  row_ok generation fence storage r → holds_lease r = true →
  row_good generation fence storage r (acknowledge_row ack now r).
Proof. intros Hok Hcond. destruct ack as [? ? ? [] ? ? ?]; row_good Hok Hcond r. Qed.
Lemma good_keep generation fence storage category now r :
  row_ok generation fence storage r → cr_state r = CS_leased →
  category ∈ DESTRUCTIVE_LEASE_CATEGORIES →
  row_good generation fence storage r (r <| cr_category := Some category |> <| cr_updated_at := now |>).
Proof.
  intros Hok Hcond Hc. assert (destructive (r <| cr_category := Some category |> <| cr_updated_at := now |>) = true).
  { cbn. by apply bool_decide_eq_true. }
  row_good Hok Hcond r.
Qed.
(** Only rows of commands that are over lose their payload. *)
Lemma good_drop generation fence storage r :
  row_ok generation fence storage r → is_Some (cr_terminal_at r) →
  row_good generation fence storage r (drop_payload r).
Proof.
  intros Hok [t Ht].
  assert (Hover : terminal r = true).
  { destruct (terminal r) eqn:Hn; [done|]. destruct (rok_live _ _ _ _ Hok) as (_ & ? & _); [|congruence].
    unfold nonterminal. by rewrite Hn. }
  assert (Hlive : nonterminal (drop_payload r) = true → False).
  { unfold nonterminal. change (terminal (drop_payload r)) with (terminal r). by rewrite Hover. }
  split; split; try done.
  - apply Hok.
  - apply (rok_unheld _ _ _ _ Hok).
  - pose proof (rok_lease _ _ _ _ Hok) as Hl. unfold lease_ok in *. cbn.
    destruct (cr_ever_leased r); [|done]. destruct Hl as (g & s & ? & ? & _).
    exists g, s. split_and!; [done..|]. intros Hn. by exfalso; apply Hlive.
  - intros f Hf Hn. by exfalso; apply Hlive.
  - by right.
  - intros g Hg. exists g. split; [done|lia].
  - by right.
Qed.
End rows.
