(* ===== verification/MailboxSteps.v ===== *)
(** * Every operation of the mailbox is a step

    Operations keep the invariant and move rows along the life of a command: the
    transactions of infra/api/src/workspace-mailbox.ts one by one, then requests, alarms
    and whole runs ([run_step]). *)
From stdpp Require Import sorting.
From S2P Require Import Prelude Js Mailbox MailboxInv MailboxRows.

Local Open Scope Z_scope.

Section steps.
Context `{MailboxEnv}.

(** ** Steps that leave the commands alone *)

Lemma same_step m m' :
  mb_commands m' = mb_commands m → mb_sequence m' = mb_sequence m →
  mb_revision m' = mb_revision m → mb_changes m' = mb_changes m →
  mb_command_revision m' = mb_command_revision m →
  mb_destruction_fence m' = mb_destruction_fence m →
  mb_storage_incarnation m' = mb_storage_incarnation m →
  mb_lifecycle_fence m' = mb_lifecycle_fence m →
  mb_runtime_generation m' = mb_runtime_generation m →
  (∀ id, is_Some (mb_command_identity m !! id) → is_Some (mb_command_identity m' !! id)) →
  (∀ w, w ∈ mb_waiters m' → w ∈ mb_waiters m ∨ mb_revision m <= w.2) →
  (TableInv m → is_Some (mb_wake_revision m') →
   is_Some (mb_wake_workspace_id m') ∧ is_Some (mb_wake_account_id m') ∧ is_Some (mb_wake_next_at m')) →
  step m m'.
Proof.
  intros Hc Hs Hr Hch Hcr Hf Hst Hl Hg Hid Hw Hwake [Ht Hlog].
  assert (Hids : ids m' = ids m) by (unfold ids; by rewrite Hc).
  split; [split; [split|split; [split|]]|split].
  - unfold row_ok_in. rewrite Hc, Hg, Hf, Hst. apply Ht.
  - rewrite Hids. apply Ht.
  - rewrite Hc. apply Ht.
  - rewrite Hs. apply Ht.
  - rewrite Hc, Hs. apply Ht.
  - rewrite Hc. apply Ht.
  - rewrite Hc. intros. by apply Hid, Ht.
  - unfold nonterminalCountUnsafe, select. rewrite Hc. apply Ht.
  - unfold nonterminal_bytes, select. rewrite Hc. apply Ht.
  - rewrite Hl, Hf. apply Ht.
  - by apply Hwake.
  - rewrite Hch. apply Hlog.
  - rewrite Hch, Hr, Hcr. apply Hlog.
  - rewrite Hch, Hr, Hcr, Hids. apply Hlog.
  - rewrite Hr. apply Hlog.
  - intros w Hin. rewrite Hr. destruct (Hw w Hin); [by apply Hlog|done].
  - rewrite Hids, Hcr. apply Hlog.
  - intros i r Hi. exists r. rewrite Hc. split_and!; [done|reflexivity|left; apply quiet_refl].
  - rewrite Hc. eauto.
  - by rewrite Hr.
  - by rewrite Hcr.
  - by rewrite Hg.
  - by rewrite Hf.
Qed.
Ltac same := apply same_step; try done; try (by intros; left); try (by intros []).

Lemma set_alarm_step a m : step m (m <| mb_alarm := a |>).
Proof. same. Qed.
Lemma set_running_step r m : step m (m <| mb_running := r |>).
Proof. same. Qed.
Lemma schedule_step at_ now m : step m (schedule at_ now m).
Proof. unfold schedule. destruct (match mb_alarm m with Some _ => _ | None => _ end); [apply set_alarm_step|apply step_refl]. Qed.
Lemma scheduleNext_step now m : step m (scheduleNext now m).
Proof. unfold scheduleNext. destruct (nextAlarmDeadline m); [apply schedule_step|apply set_alarm_step]. Qed.
Lemma request_wake_step now m w a :
  step m (request_wake now (m <| mb_wake_workspace_id := Some w |> <| mb_wake_account_id := Some a |>)).
Proof. same. Qed.
Lemma rearm_step now m : step m (rearmWakeUnsafe now m).
Proof.
  unfold rearmWakeUnsafe. destruct (mb_wake_revision m) as [w|] eqn:Hw; [|apply step_refl].
  same. intros Ht _. destruct (ti_wake _ Ht) as (? & ? & _); [by rewrite Hw|]. cbn. eauto.
Qed.
Lemma wake_failed_step revision now m : step m (wake_failed revision now m).
Proof.
  unfold wake_failed. case_decide as Hw; [|apply step_refl].
  same. intros Ht _. destruct (ti_wake _ Ht) as (? & ? & _); [by rewrite Hw|]. cbn. eauto.
Qed.
Lemma lost_step m : step m (lost m).
Proof. same. by intros w ?%elem_of_nil. Qed.

(** ** Updates of rows *)

Lemma row_touch_good m idl r r' :
  row_good (mb_runtime_generation m) (mb_destruction_fence m) (mb_storage_incarnation m) r r' →
  cr_ever_leased r' = cr_ever_leased r ∨ blocked_by_prior m r = false →
  cr_command_id r ∈ idl ∨ quiet r r' → row_touch m idl r r'.
Proof. intros [Hok Hm] Hl Ht. split; [done|done| |done]. destruct Hl as [->|?]; auto. Qed.

Definition update_with (cond : CommandRow → bool) (f : CommandRow → CommandRow) (r : CommandRow) : CommandRow :=
  if cond r then f r else r.
Lemma update_commands_map cond f m : update_commands cond f m = map_rows (update_with cond f) m.
Proof. done. Qed.
Lemma elem_of_ids m r : r ∈ mb_commands m → cr_command_id r ∈ ids m.
Proof. intros Hr. apply list_elem_of_fmap. eauto. Qed.
Lemma equal_ids m r r' : TableInv m → r ∈ mb_commands m → r' ∈ mb_commands m →
  cr_command_id r = cr_command_id r' → r = r'.
Proof.
  intros Ht (i & Hi)%list_elem_of_lookup (j & Hj)%list_elem_of_lookup Hid.
  assert (i = j); [|congruence]. eapply (NoDup_lookup (ids m)); [apply Ht| |]; unfold ids.
  - by rewrite list_lookup_fmap, Hi.
  - by rewrite list_lookup_fmap, Hj, Hid.
Qed.
Lemma find_command_spec id m r : find_command id m = Some r → r ∈ mb_commands m ∧ cr_command_id r = id.
Proof.
  unfold find_command, select. intros Hh.
  assert (Hin : r ∈ filter (λ r, has_id id r = true) (mb_commands m)) by (destruct (filter _ _); by simplify_eq/=; left).
  apply list_elem_of_filter in Hin as [Hid Hin]. split; [done|]. by apply bool_decide_eq_true in Hid.
Qed.

(** A statement on the row of one command, which is then announced. *)
Lemma update_changed_step id cond f m :
  id ∈ ids m →
  (∀ r, r ∈ mb_commands m → row_ok_in m r → cond r = true →
     cr_command_id r = id
     ∧ row_good (mb_runtime_generation m) (mb_destruction_fence m) (mb_storage_incarnation m) r (f r)
     ∧ (cr_ever_leased (f r) = cr_ever_leased r ∨ blocked_by_prior m r = false)) →
  step m (changed id (update_commands cond f m)).
Proof.
  intros Hid Hf. rewrite update_commands_map. change (step m (touch (update_with cond f) [id] m)).
  apply touch_step; [|by intros id' ->%list_elem_of_singleton].
  intros r Hr Hok. unfold update_with. destruct (cond r) eqn:Hc; [|by apply row_touch_same].
  destruct (Hf r Hr Hok Hc) as (<- & Hg & Hl). apply row_touch_good; [done..|left; by apply list_elem_of_singleton].
Qed.
(** A statement watchers are not told of. *)
Lemma update_quiet_step cond f m :
  (∀ r, r ∈ mb_commands m → row_ok_in m r → cond r = true →
     row_good (mb_runtime_generation m) (mb_destruction_fence m) (mb_storage_incarnation m) r (f r)
     ∧ cr_ever_leased (f r) = cr_ever_leased r ∧ quiet r (f r)) →
  step m (update_commands cond f m).
Proof.
  intros Hf. rewrite update_commands_map. change (step m (touch (update_with cond f) [] m)).
  apply touch_step; [|by intros id' ?%elem_of_nil].
  intros r Hr Hok. unfold update_with. destruct (cond r) eqn:Hc; [|by apply row_touch_same].
  destruct (Hf r Hr Hok Hc) as (Hg & Hl & Hq). by apply row_touch_good; auto.
Qed.
(** A statement on the rows of a selection, which are then announced. *)
Lemma update_all_step cond f m :
  (∀ r, r ∈ mb_commands m → row_ok_in m r → cond r = true →
     row_good (mb_runtime_generation m) (mb_destruction_fence m) (mb_storage_incarnation m) r (f r)
     ∧ cr_ever_leased (f r) = cr_ever_leased r) →
  step m (changed_all (cr_command_id <$> select cond m) (update_commands cond f m)).
Proof.
  intros Hf. rewrite update_commands_map. apply touch_step.
  - intros r Hr Hok. unfold update_with. destruct (cond r) eqn:Hc; [|by apply row_touch_same].
    destruct (Hf r Hr Hok Hc) as (Hg & Hl). apply row_touch_good; [done|by left|left].
    apply list_elem_of_fmap. exists r. split; [done|]. by apply list_elem_of_filter.
  - intros id (r & -> & [_ Hr]%list_elem_of_filter)%list_elem_of_fmap. by apply elem_of_ids.
Qed.

(** A loop over rows whose statements each concern the row of one command. *)
Lemma changed_update_other id cond f m r :
  r ∈ mb_commands m → (∀ r, cond r = true → cr_command_id r = id) → cr_command_id r ≠ id →
  r ∈ mb_commands (changed id (update_commands cond f m)).
Proof.
  intros Hr Hc Hne. cbn. apply list_elem_of_fmap. exists r. split; [|done].
  destruct (cond r) eqn:Hcr; [|done]. by apply Hc in Hcr.
Qed.
Lemma fold_rows_step (body : Mailbox → CommandRow → Mailbox) rows m :
  NoDup (cr_command_id <$> rows) → (∀ row, row ∈ rows → row ∈ mb_commands m) →
  (∀ m row, row ∈ rows → row ∈ mb_commands m → MailboxInv m → step m (body m row)) →
  (∀ m row r, r ∈ mb_commands m → cr_command_id r ≠ cr_command_id row → r ∈ mb_commands (body m row)) →
  step m (foldl body m rows).
Proof.
  revert m. induction rows as [|row rows IH]; intros m Hnd Hin Hstep Hother; [apply step_refl|].
  apply NoDup_cons in Hnd as [Hnew Hnd]. intros Hi.
  apply (step_trans _ (body m row)); [apply Hstep; [left|apply Hin; left|done]| |done].
  intros _. apply IH; [done| |intros; apply Hstep; [by right|done..]|done].
  intros r Hr. apply Hother; [apply Hin; by right|]. intros Heq. apply Hnew. rewrite <-Heq.
  apply list_elem_of_fmap. eauto.
Qed.
Lemma filter_ids (P : CommandRow → Prop) `{∀ r, Decision (P r)} m :
  TableInv m → NoDup (cr_command_id <$> filter P (mb_commands m)).
Proof.
  intros Ht. apply NoDup_fmap_2_strong.
  - intros r r' [_ Hr]%list_elem_of_filter [_ Hr']%list_elem_of_filter. by apply (equal_ids m).
  - apply NoDup_filter. eapply NoDup_fmap_1. apply Ht.
Qed.

(** ** Fences *)

Ltac bools :=
  cbv beta in *;
  repeat match goal with
  | Hb : _ && _ = true |- _ => apply andb_true_iff in Hb as [? ?]
  | Hb : negb _ = true |- _ => apply negb_true_iff in Hb
  | Hb : negb _ = false |- _ => apply negb_false_iff in Hb
  | Hb : bool_decide _ = true |- _ => apply bool_decide_eq_true in Hb
  | Hb : bool_decide _ = false |- _ => apply bool_decide_eq_false in Hb
  | Hb : has_id _ _ = true |- _ => unfold has_id in Hb
  | Hb : _ <=? _ = true |- _ => apply Z.leb_le in Hb
  | Hb : _ <=? _ = false |- _ => apply Z.leb_gt in Hb
  | Hb : _ <? _ = true |- _ => apply Z.ltb_lt in Hb
  | Hb : _ <? _ = false |- _ => apply Z.ltb_ge in Hb
  | Hb : _ || _ = false |- _ => apply orb_false_iff in Hb as [? ?]
  end.

Section terminalize.
Context (categories : Categories) (now : Z).
Context (Hcat : everLeased categories ∈ DESTRUCTIVE_LEASE_CATEGORIES).

Lemma terminalize_row_step m row :
  row ∈ mb_commands m → nonterminal row = true → MailboxInv m →
  step m (terminalize_row categories now m row).
Proof using Hcat.
  intros Hrow Hn [Ht _]. unfold terminalize_row. cbv zeta.
  destruct (canStillReceiveOriginalReceipt now row);
    (apply update_changed_step; [by apply elem_of_ids|]); intros r Hr Hok Hc; bools.
  - split_and!; [done| |by left]. by apply good_keep.
  - assert (r = row) as -> by (by apply (equal_ids m)).
    split_and!; [done| |by left].
    destruct (cr_ever_leased row) eqn:He; [by apply good_lose|by apply good_cancel_terminal].
Qed.
Lemma terminalize_row_other m row r :
  r ∈ mb_commands m → cr_command_id r ≠ cr_command_id row →
  r ∈ mb_commands (terminalize_row categories now m row).
Proof.
  intros Hr Hne. unfold terminalize_row. cbv zeta.
  destruct (canStillReceiveOriginalReceipt now row); apply changed_update_other; try done;
    intros; by bools.
Qed.
Lemma terminalizeUnsafe_step (P : CommandRow → Prop) `{∀ r, Decision (P r)} m :
  TableInv m → (∀ r, P r → nonterminal r = true) →
  step m (terminalizeUnsafe (filter P (mb_commands m)) categories now m).
Proof using Hcat.
  intros Ht HP. apply fold_rows_step.
  - by apply filter_ids.
  - by intros r [_ Hr]%list_elem_of_filter.
  - intros m' row [Hp _]%list_elem_of_filter Hin Hi. apply terminalize_row_step; auto.
  - intros. by apply terminalize_row_other.
Qed.

(** What such a loop leaves of the rows it was given. *)
Definition settled (r : CommandRow) : Prop :=
  terminal r = true ∨ cr_state r = CS_leased ∧ destructive r = true.
Lemma terminalize_settles rows m r' :
  NoDup (cr_command_id <$> rows) → (∀ row, row ∈ rows → row ∈ mb_commands m ∧ nonterminal row = true) →
  MailboxInv m → r' ∈ mb_commands (terminalizeUnsafe rows categories now m) →
  r' ∈ mb_commands m ∧ cr_command_id r' ∉ (cr_command_id <$> rows) ∨ settled r'.
Proof using Hcat.
  revert m. induction rows as [|row rows IH]; intros m Hnd Hin Hi Hr'; [left; split; [done|by intros ?%elem_of_nil]|].
  apply NoDup_cons in Hnd as [Hnew Hnd]. destruct (Hin row) as [Hrow Hn]; [by left|].
  destruct (terminalize_row_step m row Hrow Hn Hi Hi) as [Hi1 _].
  destruct (IH (terminalize_row categories now m row) Hnd) as [[Hr Hni]|]; [|done|done| |by right].
  { intros r Hr. destruct (Hin r) as [? ?]; [by right|]. split; [|done].
    apply terminalize_row_other; [done|]. intros Heq. apply Hnew. rewrite <-Heq. apply list_elem_of_fmap. eauto. }
  clear IH Hr' Hi1. unfold terminalize_row in Hr. cbv zeta in Hr.
  destruct (canStillReceiveOriginalReceipt now row) eqn:Hcan; cbn in Hr;
    apply list_elem_of_fmap in Hr as (r0 & Hr & Hr0);
    match type of Hr with _ = if ?c then _ else _ => destruct c eqn:Hc end.
  - right. right. subst. bools. split; [done|]. cbn. by apply bool_decide_eq_true.
  - left. subst. split; [done|]. rewrite fmap_cons. intros [Heq|?]%elem_of_cons; [|done].
    apply (equal_ids m) in Heq; [subst|by apply Hi|done..].
    unfold has_id in Hc. rewrite bool_decide_true in Hc by done. cbn in Hc.
    unfold canStillReceiveOriginalReceipt in Hcan. bools. done.
  - right. left. subst. by destruct (cr_ever_leased row).
  - left. subst. split; [done|]. rewrite fmap_cons. intros [Heq|?]%elem_of_cons; [|done].
    apply (equal_ids m) in Heq; [subst|by apply Hi|done..].
    unfold has_id in Hc. rewrite bool_decide_true in Hc by done. cbn in Hc. congruence.
Qed.
End terminalize.

(** The loop and what it does not touch. *)
Lemma terminalize_commute (h : Mailbox → Mailbox) categories now rows m :
  (∀ m row, terminalize_row categories now (h m) row = h (terminalize_row categories now m row)) →
  terminalizeUnsafe rows categories now (h m) = h (terminalizeUnsafe rows categories now m).
Proof.
  intros Hh. revert m. induction rows as [|row rows IH]; intros m; [done|].
  unfold terminalizeUnsafe in *. cbn [foldl]. by rewrite <-IH, Hh.
Qed.
Lemma terminalize_same {A} (f : Mailbox → A) categories now rows m :
  (∀ m row, f (terminalize_row categories now m row) = f m) →
  f (terminalizeUnsafe rows categories now m) = f m.
Proof.
  intros Hf. revert m. induction rows as [|row rows IH]; intros m; [done|].
  unfold terminalizeUnsafe in *. cbn [foldl]. by rewrite IH.
Qed.
Ltac terminalize_row_cases := intros ? ?; unfold terminalize_row; by destruct (canStillReceiveOriginalReceipt _ _).
Lemma set_fence_step f m :
  opt_le (mb_destruction_fence m) (Some f) → opt_le (mb_lifecycle_fence m) (Some f) →
  (∀ r, r ∈ mb_commands m → fence_ok (Some f) r) →
  step m (m <| mb_destruction_fence := Some f |>).
Proof.
  intros Hle Hl Hrows [Ht Hlog]. split; [split|].
  - destruct Ht as [Hr]. split; try done. intros r Hin. specialize (Hr r Hin). destruct Hr. split; try done.
    by apply Hrows.
  - destruct Hlog as [[] ?]. split; [by split|done].
  - split; try done; eauto. intros i r Hi. exists r. split_and!; [done|reflexivity|left; apply quiet_refl].
Qed.
Lemma settled_fence_ok f r : settled r → fence_ok (Some f) r.
Proof.
  intros [Ht|[? ?]] f' Hf Hn; [|by right]. unfold nonterminal in Hn. by rewrite Ht in Hn.
Qed.
(** The fence and what it ends. *)
Lemma terminalizeBelow_step f categories now m :
  everLeased categories ∈ DESTRUCTIVE_LEASE_CATEGORIES →
  opt_le (mb_destruction_fence m) (Some f) → opt_le (mb_lifecycle_fence m) (Some f) →
  step m (terminalizeBelowFenceUnsafe f categories now (m <| mb_destruction_fence := Some f |>)).
Proof.
  intros Hcat Hle Hlife Hi. unfold terminalizeBelowFenceUnsafe.
  change (select nonterminal (m <| mb_destruction_fence := Some f |>)) with (select nonterminal m).
  rewrite (terminalize_commute (λ m, m <| mb_destruction_fence := Some f |>)) by terminalize_row_cases.
  unfold select. rewrite list_filter_filter.
  set (P := λ r : CommandRow, below_fence f r = true ∧ nonterminal r = true).
  set (rows := filter P (mb_commands m)).
  assert (Hstep : step m (terminalizeUnsafe rows categories now m)).
  { apply terminalizeUnsafe_step; [done|apply Hi|]. by intros r [_ ?]. }
  assert (Hrows : ∀ r, r ∈ mb_commands (terminalizeUnsafe rows categories now m) → fence_ok (Some f) r).
  { intros r Hr. destruct (terminalize_settles categories now Hcat rows m r) as [[Hin Hni]|];
      [by apply filter_ids, Hi| |done|done| |by apply settled_fence_ok].
    - by intros row [[_ ?] ?]%list_elem_of_filter.
    - intros f' [= <-] Hn. left. destruct (below_fence f r) eqn:Hb; [|done]. exfalso. apply Hni.
      apply list_elem_of_fmap. exists r. split; [done|]. by apply list_elem_of_filter. }
  refine (step_trans _ _ _ Hstep _ Hi). intros _. apply set_fence_step; [..|done].
  - rewrite (terminalize_same mb_destruction_fence) by terminalize_row_cases. done.
  - rewrite (terminalize_same mb_lifecycle_fence) by terminalize_row_cases. done.
Qed.
Lemma observe_step f now m : step m (observeDestructionFenceUnsafe f now m).
Proof.
  unfold observeDestructionFenceUnsafe. intros Hi.
  destruct (match mb_destruction_fence m with Some _ => _ | None => _ end) eqn:Hc; [by apply step_refl|].
  assert (Hle : opt_le (mb_destruction_fence m) (Some f)).
  { intros x Hx. rewrite Hx in Hc. bools. exists f. split; [done|lia]. }
  apply terminalizeBelow_step; [by cbn; left|done| |done].
  etrans; [apply (ti_lifecycle _ (proj1 Hi))|done].
Qed.

Lemma expire_leases_map now m :
  expireLeasesUnsafe now m
  = touch (λ r, update_with (λ r, lease_expired now r && negb (destructive r)) (await_fence now)
                  (update_with (λ r, lease_expired now r && destructive r)
                     (λ r, end_command CS_outcome_unknown (cr_category r) now r) r))
      (cr_command_id <$> select (lease_expired now) m) m.
Proof.
  unfold expireLeasesUnsafe, touch. rewrite !update_commands_map. unfold map_rows. cbn.
  by rewrite map_map.
Qed.
Lemma expireLeases_step now m : step m (expireLeasesUnsafe now m).
Proof.
  rewrite expire_leases_map. apply touch_step.
  - intros r Hr Hok. unfold update_with.
    destruct (lease_expired now r) eqn:Hexp; cbn [andb]; [|rewrite Hexp; by apply row_touch_same].
    assert (Hid : cr_command_id r ∈ (cr_command_id <$> select (lease_expired now) m)).
    { apply list_elem_of_fmap. exists r. split; [done|]. by apply list_elem_of_filter. }
    pose proof Hexp as Hl. unfold lease_expired in Hl. bools.
    assert (Hever : cr_ever_leased r = true).
    { pose proof (rok_shape _ _ _ _ Hok) as Hs. unfold shape in Hs. by destruct (cr_state r), Hs. }
    destruct (destructive r) eqn:Hd.
    + cbn. apply row_touch_good; [|by left|by left].
      apply good_lose; [done| |done]. unfold nonterminal, terminal. by destruct (cr_state r).
    + rewrite Hexp, Hd. cbn [andb negb]. apply row_touch_good; [by apply good_await|by left|by left].
  - intros id (r & -> & [_ Hr]%list_elem_of_filter)%list_elem_of_fmap. by apply elem_of_ids.
Qed.

(** ** Reservation *)

Lemma find_command_none id m : find_command id m = None → id ∉ ids m.
Proof.
  unfold find_command, select. intros Hh (r & -> & Hr)%list_elem_of_fmap.
  assert (Hin : r ∈ filter (λ r', has_id (cr_command_id r) r' = true) (mb_commands m)).
  { apply list_elem_of_filter. split; [|done]. by apply bool_decide_eq_true. }
  destruct (filter _ (mb_commands m)); [by apply elem_of_nil in Hin|done].
Qed.
Lemma nonterminal_snoc r m :
  nonterminal r = true →
  select nonterminal (m <| mb_commands ::= λ l, l ++ [r] |>) = select nonterminal m ++ [r].
Proof. intros Hn. unfold select. cbn. rewrite filter_app. f_equal. by rewrite filter_cons_True. Qed.

Lemma sum_snoc (f : CommandRow → Z) l r :
  foldr (λ r total, f r + total) 0 (l ++ [r]) = foldr (λ r total, f r + total) 0 l + f r.
Proof. induction l as [|x l IH]; cbn in *; lia. Qed.
Lemma num_Z_of_Z z : num_Z (num_of_Z z) = z.
Proof. cbn. apply Z.div_1_r. Qed.
Lemma isInteger_of_Z z : isInteger (num_of_Z z) = true.
Proof. unfold isInteger, num_of_Z. cbn [QArith_base.Qnum QArith_base.Qden]. by rewrite Z.mod_1_r. Qed.
Lemma safe_from_num least a : safe_from least a = true → isInteger a = true ∧ least <= num_Z a.
Proof.
  unfold safe_from. intros Hs. bools. split; [by apply isSafeInteger_isInteger|].
  match goal with Hb : num_ltb _ _ = false |- _ => rename Hb into Hl end; rewrite num_ltb_int in Hl;
    [rewrite num_Z_of_Z in Hl; by bools|by apply isSafeInteger_isInteger|apply isInteger_of_Z].
Qed.
Lemma envelopeFence_safe r e :
  cr_envelope r = Some e → safe_from 0 (env_destructionFence e) = true →
  envelopeFence r = Some (num_Z (env_destructionFence e)).
Proof.
  intros He Hs. destruct (safe_from_num _ _ Hs) as [Hint Hle]. unfold envelopeFence. rewrite He. cbn.
  unfold safe_from in Hs. bools.
  rewrite num_leb_int, num_Z_of_Z by done.
  match goal with Hi : isSafeInteger _ = true |- _ => rewrite Hi end. cbn. by apply Z.leb_le in Hle as ->.
Qed.

Lemma insert_step e lane now m :
  cloudCommandLane e = Some lane → Z.of_N (envelopeBytes e) <= CLOUD_COMMAND_MAX_ENVELOPE_BYTES →
  safe_from 0 (env_destructionFence e) = true →
  opt_le (mb_destruction_fence m) (Some (num_Z (env_destructionFence e))) →
  find_command (env_commandId e) m = None →
  nonterminalCountUnsafe m < CLOUD_COMMAND_MAX_NONTERMINAL →
  nonterminal_bytes m + Z.of_N (envelopeBytes e) <= CLOUD_COMMAND_MAX_MAILBOX_BYTES →
  step m (insert_reserved e lane now m).
Proof.
  intros Hlane Hsize Hsafe Hfence Hnew Hcount Hbytes [Ht Hlog].
  pose proof (find_command_none _ _ Hnew) as Hid.
  set (r := reserved_row e (mb_sequence m + 1) lane now).
  assert (Hok : row_ok_in m r).
  { split; try done.
    - by intros e' [= <-].
    - cbn. lia.
    - intros f Hf _. left. unfold below_fence. rewrite (envelopeFence_safe r e) by done.
      destruct (Hfence f Hf) as (y & [= <-] & ?). by apply Z.ltb_ge. }
  assert (Hcap : select nonterminal (m <| mb_commands ::= λ l, l ++ [r] |>) = select nonterminal m ++ [r])
    by by apply nonterminal_snoc.
  unfold insert_reserved. cbv zeta. fold r.
  set (m1 := m <| mb_sequence := mb_sequence m + 1 |> <| mb_commands := mb_commands m ++ [r] |>
               <| mb_command_identity ::= insert (env_commandId e) (commandIdentity e) |>).
  assert (Hids : ids m1 = ids m ++ [env_commandId e]) by (unfold ids; cbn; by rewrite fmap_app).
  assert (Hl : LogInv (changed (env_commandId e) m1)).
  { destruct Hlog as [[Hs Hc Hr Hp Hw] Ha]. apply changed_log_core.
    - split; try done. intros id n Hn. rewrite Hids. destruct (Hr id n Hn) as (? & ? & ?). split; [done|split; [apply elem_of_app; by left|done]].
    - rewrite Hids. apply elem_of_app. right. by left.
    - intros id. rewrite Hids. intros [Hin| ->%list_elem_of_singleton]%elem_of_app; [|done]. intros _. by apply Ha. }
  split; [split; [|done]|].
  - split; try (by destruct Ht).
    + intros r' [Hr'| ->%list_elem_of_singleton]%elem_of_app; [by apply Ht|done].
    + change (NoDup (ids m1)). rewrite Hids. apply NoDup_app. split_and!; [apply Ht| |by apply NoDup_singleton].
      by intros id Hin ->%list_elem_of_singleton.
    + cbn. rewrite fmap_app. apply StronglySorted_app. split_and!; [|apply Ht|by repeat constructor].
      intros s s' (r' & -> & Hr')%list_elem_of_fmap ->%list_elem_of_singleton. cbn.
      pose proof (ti_sequence _ Ht r' Hr'). lia.
    + cbn. pose proof (ti_counter _ Ht). lia.
    + cbn. intros r' [Hr'| ->%list_elem_of_singleton]%elem_of_app;
        [pose proof (ti_sequence _ Ht r' Hr'); lia|cbn].
      pose proof (ti_counter _ Ht). lia.
    + cbn. intros r' p [Hr'| ->%list_elem_of_singleton]%elem_of_app; [|done].
      intros [Hp| ->%list_elem_of_singleton]%elem_of_app; [by apply (ti_lanes _ Ht)|].
      intros _ _ Hs. cbn in Hs. pose proof (ti_sequence _ Ht r' Hr'). lia.
    + cbn. intros r' [Hr'| ->%list_elem_of_singleton]%elem_of_app; [|by rewrite lookup_insert_eq].
      apply lookup_insert_is_Some'. right. by apply Ht.
    + unfold nonterminalCountUnsafe in *. change (select nonterminal (changed (env_commandId e) m1))
        with (select nonterminal (m <| mb_commands ::= λ l, l ++ [r] |>)).
      rewrite Hcap, length_app. cbn. lia.
    + unfold nonterminal_bytes in *. change (select nonterminal (changed (env_commandId e) m1))
        with (select nonterminal (m <| mb_commands ::= λ l, l ++ [r] |>)).
      rewrite Hcap, sum_snoc. cbn. lia.
  - split; try done.
    + intros i r' Hr'. exists r'. cbn. rewrite lookup_app_l by by eapply lookup_lt_Some.
      split_and!; [done|reflexivity|left; apply quiet_refl].
    + intros i r' Hr'. cbn in Hr'. apply lookup_app_Some in Hr' as [?|[_ Hr']]; [by left|right].
      apply list_lookup_singleton_Some in Hr' as [_ <-]. split; [|done]. exists (mb_revision m + 1).
      cbn. rewrite lookup_insert_eq. split; [done|lia].
    + cbn. lia.
    + intros id n Hn. cbn. destruct (decide (id = env_commandId e)) as [->|].
      * exists (mb_revision m + 1). rewrite lookup_insert_eq. split; [done|].
        pose proof (proj1 (gi_revision _ Hlog _ n Hn)). lia.
      * exists n. by rewrite lookup_insert_ne.
Qed.
Lemma observe_fence f now m : ∃ f', mb_destruction_fence (observeDestructionFenceUnsafe f now m) = Some f'
  ∧ (f' = f ∨ mb_destruction_fence m = Some f' ∧ f <= f').
Proof.
  unfold observeDestructionFenceUnsafe. destruct (mb_destruction_fence m) as [current|] eqn:Hm.
  - destruct (f <=? current) eqn:Hc; [bools; eauto|].
    exists f. unfold terminalizeBelowFenceUnsafe. rewrite (terminalize_same mb_destruction_fence) by terminalize_row_cases.
    auto.
  - exists f. unfold terminalizeBelowFenceUnsafe. rewrite (terminalize_same mb_destruction_fence) by terminalize_row_cases.
    auto.
Qed.
Lemma reserve_step e now m : step m (reserveUnsafe e now m).1.
Proof.
  unfold reserveUnsafe. destruct (cloudCommandLane e) as [lane|] eqn:Hlane; [|apply step_refl].
  destruct (CLOUD_COMMAND_MAX_ENVELOPE_BYTES <? Z.of_N (envelopeBytes e)) eqn:Hsize; [apply step_refl|].
  destruct (negb (safe_from 0 (env_destructionFence e))) eqn:Hsafe; [apply step_refl|].
  destruct (match mb_destruction_fence m with Some _ => _ | None => _ end) eqn:Hstale; [apply step_refl|].
  refine (step_trans _ _ _ (observe_step (num_Z (env_destructionFence e)) now m) (λ _, _)).
  destruct (observe_fence (num_Z (env_destructionFence e)) now m) as (f & Hf & Hcase).
  assert (f = num_Z (env_destructionFence e)) as ->.
  { destruct Hcase as [|[Hm ?]]; [done|]. rewrite Hm in Hstale. bools. lia. }
  clear Hcase Hstale. set (m1 := observeDestructionFenceUnsafe (num_Z (env_destructionFence e)) now m) in *. clearbody m1.
  apply negb_false_iff in Hsafe. bools.
  unfold reserve_fenced. destruct (find_command (env_commandId e) m1) eqn:Hfind.
  - case_decide; [apply step_refl|]. cbn.
    destruct (mb_command_identity m1 !! env_commandId e); [apply step_refl|].
    same. intros id ?. cbn. apply lookup_insert_is_Some'. auto.
  - destruct (_ || _) eqn:Hcap; [apply step_refl|]. bools. apply insert_step; try done. by rewrite Hf.
Qed.

(** ** Acceptance, blocking, cancellation *)

Lemma status_spec id m st : status id m = Some st →
  ∃ r, find_command id m = Some r ∧ st = row_status r (status_revision id m).
Proof. unfold status. destruct (find_command id m) as [r|]; [|done]. intros [= <-]. eauto. Qed.

Lemma commit_step id reason delivery now m : step m (commitUnsafe id reason delivery now m).1.
Proof.
  unfold commitUnsafe. destruct (find_command id m) as [before|] eqn:Hfind; [|apply step_refl].
  apply find_command_spec in Hfind as [Hin Hid]. cbv zeta.
  destruct (_ && dispatchWake && _); [apply step_refl|].
  destruct (match delivery with Some _ => _ | None => false end); [apply step_refl|]. cbn [fst].
  set (m1 := update_commands _ _ m).
  assert (H2 : step m (if bool_decide (cr_state before = CS_reserved) then changed id m1 else m1)).
  { intros Hi. destruct (bool_decide (cr_state before = CS_reserved)) eqn:Hres.
    - revert Hi. apply update_changed_step; [subst id; by apply elem_of_ids|].
      intros r Hr Hok Hc. bools. split_and!; [done|by apply good_accept|by left].
    - apply update_quiet_step; [|done].
      intros r Hr Hok Hc. bools. subst id. by assert (r = before) as -> by (by apply (equal_ids m); [apply Hi|..]). }
  destruct delivery as [d|]; [|done]. destruct (_ || _); [|done].
  refine (step_trans _ _ _ H2 (λ _, _)). apply request_wake_step.
Qed.

Lemma block_step id reason now m : step m (blockUnsafe id reason now m).1.
Proof.
  intros Hi. destruct id as [id|]; cbn [blockUnsafe].
  - destruct (status id m) as [before|] eqn:Hst; [|by apply step_refl].
    apply status_spec in Hst as (r0 & [Hr0 Hid]%find_command_spec & ->). cbn [cst_state cst_everLeased cst_blockedUntil row_status].
    destruct (isCloudCommandTerminalState _) eqn:Hterm; [by apply step_refl|].
    case_decide as Hres; [by apply step_refl|]. case_decide as Hlea; [by apply step_refl|]. cbv zeta. cbn [fst].
    assert (Hever : cr_ever_leased r0 = false) by (destruct (cr_ever_leased r0); [by destruct Hlea; right|done]).
    case_decide as Hch.
    + apply update_changed_step; [subst id; by apply elem_of_ids| |done].
      intros r Hr Hok Hc. bools. subst id. assert (r = r0) as -> by (by apply (equal_ids m); [apply Hi|..]).
      split_and!; [done|by apply good_block|by left].
    + apply update_quiet_step; [|done]. intros r Hr Hok Hc. bools. subst id.
      assert (r = r0) as -> by (by apply (equal_ids m); [apply Hi|..]).
      split_and!; [by apply good_block|done|].
      assert (cr_state r0 = CS_blocked) as Hb by (destruct (decide (cr_state r0 = CS_blocked)); [done|by destruct Hch; left]).
      assert (cr_blocked_until r0 = Some reason) as Hu
        by (destruct (decide (cr_blocked_until r0 = Some reason)); [done|by destruct Hch; right]).
      split; [unfold view; cbn; by rewrite Hb, Hu|by left].
  - unfold blockAll. cbn [fst]. unfold select. rewrite list_filter_filter.
    apply fold_rows_step; [by apply filter_ids, Hi|by intros r [_ Hr]%list_elem_of_filter| | |done].
    + intros m' row [[_ Hc] _]%list_elem_of_filter Hin Hi'. bools.
      apply update_changed_step; [by apply elem_of_ids|].
      intros r Hr Hok Hcr. bools. split_and!; [done|by apply good_block|by left].
    + intros m' row r Hr Hne. apply changed_update_other; [done| |done]. intros r' Hc. by bools.
Qed.

Lemma unblock_command_step now m id : id ∈ ids m → step m (unblock_command now m id).
Proof.
  intros Hid. apply update_changed_step; [done|]. intros r Hr Hok Hc. bools.
  split_and!; [done|by apply good_unblock|by left].
Qed.
Lemma foldl_fmap {A B C} (f : C → B → C) (g : A → B) l c :
  foldl f c (g <$> l) = foldl (λ c a, f c (g a)) c l.
Proof. revert c. induction l as [|a l IH]; intros c; [done|]. cbn. apply IH. Qed.
Lemma unblock_step id reason now m : step m (unblockUnsafe id reason now m).1.
Proof.
  intros Hi. destruct id as [id|]; cbn [unblockUnsafe].
  - destruct (status id m) as [before|] eqn:Hst; [|by apply step_refl].
    apply status_spec in Hst as (r0 & [Hr0 Hid]%find_command_spec & ->). cbn [cst_state cst_blockedUntil row_status].
    case_decide; [by apply step_refl|]. destruct (match reason with Some _ => _ | None => false end); [by apply step_refl|].
    cbv zeta. cbn [fst]. refine (step_trans _ _ _ _ (λ _, rearm_step _ _) Hi).
    apply unblock_command_step. subst id. by apply elem_of_ids.
  - cbv zeta. cbn [fst].
    set (blocked := select _ m). assert (Hfold : step m (foldl (unblock_command now) m (cr_command_id <$> blocked))).
    { rewrite foldl_fmap. apply fold_rows_step.
      - by apply filter_ids, Hi.
      - by intros r [_ Hr]%list_elem_of_filter.
      - intros m' row _ Hin _. by apply unblock_command_step, elem_of_ids.
      - intros m' row r Hr Hne. apply changed_update_other; [done| |done]. intros r' Hc. by bools. }
    case_decide; [by apply Hfold|]. by refine (step_trans _ _ _ Hfold (λ _, rearm_step _ _) Hi).
Qed.

Lemma find_map_rows g id m :
  (∀ r, cr_command_id (g r) = cr_command_id r) →
  find_command id (map_rows g m) = g <$> find_command id m.
Proof.
  intros Hg. unfold find_command, select, map_rows. cbn.
  induction (mb_commands m) as [|r l IH]; [done|]. cbn [map]. rewrite !filter_cons.
  assert (Heq : has_id id (g r) = has_id id r) by (unfold has_id; by rewrite Hg).
  rewrite Heq. by case_decide.
Qed.
Lemma cancel_step id category now m : step m (cancelUnsafe id category now m).1.
Proof.
  intros Hi. unfold cancelUnsafe. destruct (status id m) as [before|] eqn:Hst; [|by apply step_refl].
  apply status_spec in Hst as (r0 & Hfind & ->). cbv zeta.
  pose proof (find_command_spec _ _ _ Hfind) as [Hr0 Hid].
  set (m1 := update_commands _ _ m).
  assert (Hafter : status id m1 = Some (row_status (update_with (λ r, has_id id r && cancelable r)
                     (cancel_row category now) r0) (status_revision id m))).
  { unfold status. change m1 with (map_rows (update_with (λ r, has_id id r && cancelable r) (cancel_row category now)) m).
    rewrite find_map_rows, Hfind; [done|]. intros r. unfold update_with. by destruct (_ && _). }
  rewrite Hafter. cbn [fst].
  assert (Hsame : ∀ r, r ∈ mb_commands m → has_id id r && cancelable r = true → r = r0).
  { intros r Hr Hc. bools. apply (equal_ids m); [apply Hi|done..|congruence]. }
  case_decide as Hch.
  - apply update_changed_step; [subst id; by apply elem_of_ids| |done].
    intros r Hr Hok Hc. bools. split_and!; [done|by apply good_cancel|by left].
  - apply update_quiet_step; [|done]. intros r Hr Hok Hc. pose proof (Hsame r Hr Hc) as ->. exfalso. apply Hch.
    unfold update_with. rewrite Hc. split; [|done]. cbn. intros Hs. unfold cancelable, in_states in Hc.
    rewrite Hs in Hc. by destruct (has_id id r0), (cr_ever_leased r0).
Qed.

(** ** Leases *)

Lemma row_ok_generation g g' fence storage r :
  opt_le g g' → row_ok g fence storage r → row_ok g' fence storage r.
Proof.
  intros Hle [? ? ? ? ? ? Hl ?]. split; try done. unfold lease_ok in *.
  destruct (cr_ever_leased r); [|done]. destruct Hl as (x & s & ? & ? & Hc). exists x, s. split_and!; [done..|].
  intros Hn. destruct (Hc Hn) as (? & known & Hk & ? & Hw). split; [done|].
  destruct (Hle known Hk) as (y & ? & ?). exists y. split_and!; [done|lia|]. intros Hs. specialize (Hw Hs). lia.
Qed.
Lemma row_ok_storage g fence storage storage' r :
  (nonterminal r = true → cr_ever_leased r = true → storage' = cr_storage_incarnation_id r) →
  row_ok g fence storage r → row_ok g fence storage' r.
Proof.
  intros Hst [? ? ? ? ? ? Hl ?]. split; try done. unfold lease_ok in *.
  destruct (cr_ever_leased r); [|done]. destruct Hl as (x & s & ? & Hs & Hc). exists x, s. split_and!; [done..|].
  intros Hn. destruct (Hc Hn) as (? & Hk). split; [|done]. rewrite Hst by done. done.
Qed.
(** A change of the generation or of the storage that suits every row. *)
Lemma set_context_step m m' :
  mb_commands m' = mb_commands m → mb_sequence m' = mb_sequence m →
  mb_command_identity m' = mb_command_identity m → mb_destruction_fence m' = mb_destruction_fence m →
  mb_lifecycle_fence m' = mb_lifecycle_fence m → mb_wake_revision m' = mb_wake_revision m →
  mb_wake_workspace_id m' = mb_wake_workspace_id m → mb_wake_account_id m' = mb_wake_account_id m →
  mb_wake_next_at m' = mb_wake_next_at m → mb_revision m' = mb_revision m →
  mb_changes m' = mb_changes m → mb_command_revision m' = mb_command_revision m →
  mb_waiters m' = mb_waiters m →
  opt_le (mb_runtime_generation m) (mb_runtime_generation m') →
  (∀ r, r ∈ mb_commands m → row_ok_in m r → row_ok_in m' r) → step m m'.
Proof.
  intros Hc Hs Hid Hf Hl Hw1 Hw2 Hw3 Hw4 Hr Hch Hcr Hw Hg Hrows [Ht [Hcore Ha]].
  assert (Hids : ids m' = ids m) by (unfold ids; by rewrite Hc).
  split; [split; [|split]|].
  - split; rewrite ?Hids, ?Hc, ?Hs, ?Hid, ?Hl, ?Hf, ?Hw1, ?Hw2, ?Hw3, ?Hw4; try apply Ht.
    + intros r Hin. by apply Hrows, Ht.
    + unfold nonterminalCountUnsafe, select. rewrite Hc. apply Ht.
    + unfold nonterminal_bytes, select. rewrite Hc. apply Ht.
  - split; rewrite ?Hch, ?Hr, ?Hcr, ?Hw, ?Hids; apply Hcore.
  - by rewrite Hids, Hcr.
  - split; rewrite ?Hr, ?Hcr, ?Hf; try done.
    + intros i r Hi. exists r. rewrite Hc. split_and!; [done|reflexivity|left; apply quiet_refl].
    + rewrite Hc. eauto.
Qed.
Lemma set_generation_step g m :
  opt_le (mb_runtime_generation m) (Some g) → step m (m <| mb_runtime_generation := Some g |>).
Proof.
  intros Hle. apply set_context_step; try done. intros r _. by apply row_ok_generation.
Qed.

Lemma terminalizeBelow_same {A} (f : Mailbox → A) fence categories now m :
  (∀ m row, f (terminalize_row categories now m row) = f m) →
  f (terminalizeBelowFenceUnsafe fence categories now m) = f m.
Proof. intros Hf. apply terminalize_same, Hf. Qed.
Lemma observe_same {A} (f : Mailbox → A) fence now m :
  (∀ categories m row, f (terminalize_row categories now m row) = f m) →
  (∀ m, f (m <| mb_destruction_fence := Some fence |>) = f m) →
  f (observeDestructionFenceUnsafe fence now m) = f m.
Proof.
  intros Hf Hm. unfold observeDestructionFenceUnsafe. destruct (match mb_destruction_fence m with Some _ => _ | None => _ end); [done|].
  by rewrite terminalizeBelow_same.
Qed.

Lemma replace_storage_spec s now m :
  step m (replace_storage s now m)
  ∧ mb_storage_incarnation (replace_storage s now m) = Some s
  ∧ mb_runtime_generation (replace_storage s now m) = mb_runtime_generation m.
Proof.
  split_and!; [| |unfold replace_storage; cbv zeta].
  - unfold replace_storage. cbv zeta. set (leased := λ r, cr_ever_leased r && nonterminal r).
    destruct (match mb_storage_incarnation m with Some _ => _ | None => false end) eqn:Hdiff.
    + set (m1 := changed_all _ _).
      assert (H1 : step m m1).
      { apply update_all_step. intros r Hr Hok Hl. unfold leased in Hl. bools. split; [by apply good_lose|done]. }
      refine (step_trans _ _ _ H1 (λ _, _)). apply set_context_step; try done. intros r Hr Hok.
      refine (row_ok_storage _ _ _ _ r _ Hok). intros Hn Hever. exfalso.
      unfold m1 in Hr. rewrite (changed_all_same mb_commands) in Hr by done. cbn in Hr.
      apply list_elem_of_fmap in Hr as (r0 & -> & _). destruct (leased r0) eqn:Hl; [done|].
      unfold leased in Hl. by rewrite Hever, Hn in Hl.
    + apply set_context_step; try done. intros r Hr Hok.
      refine (row_ok_storage _ _ _ _ r _ Hok). intros Hn Hever.
      pose proof (rok_lease _ _ _ _ Hok) as Hl. unfold lease_ok in Hl. rewrite Hever in Hl.
      destruct Hl as (g & s' & _ & -> & Hc). destruct (Hc Hn) as [Hst _]. rewrite Hst in Hdiff. cbn.
      by bools; subst.
  - done.
  - cbn. destruct (match mb_storage_incarnation m with Some _ => _ | None => false end); [|done].
    by rewrite (changed_all_same mb_runtime_generation).
Qed.
Lemma release_fenced_spec g s now m :
  mb_runtime_generation m = Some g → mb_storage_incarnation m = Some s →
  step m (release_fenced g s now m)
  ∧ mb_storage_incarnation (release_fenced g s now m) = Some s
  ∧ mb_runtime_generation (release_fenced g s now m) = Some g.
Proof.
  intros Hg Hs. unfold release_fenced. cbv zeta. split_and!.
  - apply update_all_step. intros r Hr Hok Hl. unfold fenced_by in Hl. bools.
    split; [|done]. unfold row_ok_in in Hok. rewrite Hg, Hs in Hok |- *.
    destruct (cr_runtime_generation r) as [g'|] eqn:Hg'; [|done]. bools. by eapply good_release.
  - by rewrite (changed_all_same mb_storage_incarnation).
  - by rewrite (changed_all_same mb_runtime_generation).
Qed.

Section lease_loop.
Context (g : Z) (input : LeaseInput) (now : Z) (token : nat → string).

Definition lease_update (i : nat) (c : CommandRow) : CommandRow → CommandRow :=
  update_with (λ r, has_id (cr_command_id c) r && available r) (lease_row g input (token i) now).
Definition granted (i : nat) (c : CommandRow) (l : RuntimeLease) : Prop :=
  cr_envelope c = Some (rl_command l) ∧ rl_workspaceSequence l = cr_workspace_sequence c
  ∧ rl_leaseToken l = token i ∧ rl_leaseDeadline l = now + CLOUD_COMMAND_LEASE_TTL_MS
  ∧ rl_runtimeGeneration l = g ∧ rl_storageIncarnationId l = li_storageIncarnationId input.
Definition grantable (m : Mailbox) (c : CommandRow) : Prop :=
  c ∈ mb_commands m ∧ available c = true ∧ blocked_by_prior m c = false.

Lemma lease_update_id i c r : cr_command_id (lease_update i c r) = cr_command_id r.
Proof. unfold lease_update, update_with. by destruct (_ && _). Qed.
Lemma lease_finds i c m :
  TableInv m → c ∈ mb_commands m → available c = true →
  head (select (λ r, has_id (cr_command_id c) r && bool_decide (cr_lease_token r = Some (token i)))
          (map_rows (lease_update i c) m)) = Some (lease_row g input (token i) now c).
Proof.
  intros Ht Hc Ha. unfold select.
  assert (Hu : lease_update i c c = lease_row g input (token i) now c).
  { unfold lease_update, update_with, has_id. by rewrite bool_decide_true, Ha by done. }
  assert (Hin : lease_row g input (token i) now c ∈ filter (λ r, has_id (cr_command_id c) r
            && bool_decide (cr_lease_token r = Some (token i)) = true) (mb_commands (map_rows (lease_update i c) m))).
  { apply list_elem_of_filter. split; [unfold has_id; by rewrite !bool_decide_true by done|].
    rewrite <-Hu. apply list_elem_of_fmap. eauto. }
  destruct (filter _ _) as [|x l] eqn:Hf; [by apply elem_of_nil in Hin|]. cbn. f_equal.
  assert (Hx : x ∈ x :: l) by left. rewrite <-Hf in Hx. apply list_elem_of_filter in Hx as [Hid Hx].
  bools. apply list_elem_of_fmap in Hx as (r & -> & Hr).
  assert (r = c) as ->; [|done]. apply (equal_ids m); [done..|].
  by rewrite lease_update_id in *.
Qed.
Lemma available_nonterminal r : available r = true → nonterminal r = true.
Proof. unfold available, in_states, nonterminal, terminal. by destruct (cr_state r). Qed.
Lemma lease_touch i c m :
  mb_runtime_generation m = Some g → mb_storage_incarnation m = Some (li_storageIncarnationId input) →
  TableInv m → grantable m c →
  step m (changed (cr_command_id c) (map_rows (lease_update i c) m)).
Proof.
  intros Hg Hs Ht (Hc & Ha & Hb). apply update_changed_step; [by apply elem_of_ids|].
  intros r Hr Hok Hcond. bools. assert (r = c) as -> by by apply (equal_ids m).
  unfold row_ok_in in Hok. rewrite Hg, Hs in *. split_and!; [done|by apply good_lease|by right].
Qed.
Lemma blocked_by_prior_moves m m' c :
  moves m m' → length (mb_commands m') = length (mb_commands m) →
  blocked_by_prior m c = false → blocked_by_prior m' c = false.
Proof.
  intros Hm Hlen Hb. destruct (blocked_by_prior m' c) eqn:Hb'; [|done]. exfalso.
  apply existsb_exists in Hb' as (p' & Hp'%list_elem_of_In & Hcond). bools.
  apply list_elem_of_lookup in Hp' as (i & Hp').
  destruct (lookup_lt_is_Some_2 (mb_commands m) i) as [p Hp]; [rewrite <-Hlen; by eapply lookup_lt_Some|].
  destruct (mv_rows _ _ Hm i p Hp) as (p2 & Hp2 & Hmove & _). simplify_eq.
  assert (terminal p = true); [|].
  - apply (blocked_by_prior_false m c); [done|by eapply list_elem_of_lookup_2| |].
    + by rewrite <-(rm_lane _ _ Hmove).
    + by rewrite <-(rm_sequence _ _ Hmove).
  - pose proof (row_move_keeps_terminal _ _ Hmove). unfold nonterminal in *. by destruct (terminal p'); intuition.
Qed.

Definition lease_of (i : nat) (c : CommandRow) (e : CloudCommandEnvelope) : RuntimeLease :=
  {| rl_command := e; rl_workspaceSequence := cr_workspace_sequence c; rl_leaseToken := token i;
     rl_leaseDeadline := now + CLOUD_COMMAND_LEASE_TTL_MS; rl_runtimeGeneration := g;
     rl_providerSandboxId := li_providerSandboxId input;
     rl_storageIncarnationId := li_storageIncarnationId input |}.
Lemma lease_loop_cons i c cands m e :
  TableInv m → c ∈ mb_commands m → available c = true → cr_envelope c = Some e →
  lease_loop g input now token i (c :: cands) m
  = (let '(m3, leases) := lease_loop g input now token (S i) cands
                            (changed (cr_command_id c) (map_rows (lease_update i c) m)) in
     (m3, (λ l, lease_of i c e :: l) <$> leases)).
Proof.
  intros Ht Hc Ha He. pose proof (lease_finds i c m Ht Hc Ha) as Hf.
  assert (Heq : map_rows (lease_update i c) m
                = update_commands (λ r, has_id (cr_command_id c) r && available r)
                    (lease_row g input (token i) now) m) by done.
  rewrite Heq in *. cbn [lease_loop]. rewrite Hf.
  replace (cr_envelope (lease_row g input (token i) now c)) with (Some e) by (rewrite <-He; done).
  done.
Qed.

Lemma lease_loop_spec i cands m :
  MailboxInv m → mb_runtime_generation m = Some g →
  mb_storage_incarnation m = Some (li_storageIncarnationId input) →
  NoDup (cr_command_id <$> cands) → (∀ c, c ∈ cands → grantable m c) →
  ∃ m' leases, lease_loop g input now token i cands m = (m', Some leases)
    ∧ MailboxInv m' ∧ moves m m'
    ∧ (∀ j c, cands !! j = Some c → ∃ l, leases !! j = Some l ∧ granted (i + j) c l
         ∧ lease_row g input (token (i + j)) now c ∈ mb_commands m')
    ∧ length leases = length cands
    ∧ (∀ r, r ∈ mb_commands m → cr_command_id r ∉ (cr_command_id <$> cands) → r ∈ mb_commands m').
Proof.
  revert i m. induction cands as [|c cands IH]; intros i m Hi Hg Hs Hnd Hin.
  { exists m, []. split_and!; done. }
  apply NoDup_cons in Hnd as [Hnew Hnd].
  pose proof (Hin c (list_elem_of_here _ _)) as Hc. pose proof Hc as (Hc1 & Hc2 & Hc3).
  destruct (lease_touch i c m Hg Hs (proj1 Hi) Hc Hi) as [Hi1 Hm1].
  destruct (rok_live _ _ _ _ (ti_rows _ (proj1 Hi) c Hc1) (available_nonterminal _ Hc2)) as ([e He] & _).
  rewrite (lease_loop_cons i c cands m e (proj1 Hi) Hc1 Hc2 He).
  assert (Hlen1 : length (mb_commands (changed (cr_command_id c) (map_rows (lease_update i c) m)))
                  = length (mb_commands m)) by apply length_map.
  assert (Hother : ∀ r, r ∈ mb_commands m → cr_command_id r ≠ cr_command_id c →
            r ∈ mb_commands (changed (cr_command_id c) (map_rows (lease_update i c) m))).
  { intros r Hr Hne. apply changed_update_other; [done| |done]. intros r' Hcond. by bools. }
  assert (Hnow : lease_row g input (token i) now c
            ∈ mb_commands (changed (cr_command_id c) (map_rows (lease_update i c) m))).
  { apply list_elem_of_fmap. exists c. split; [|done].
    unfold lease_update, update_with, has_id. by rewrite bool_decide_true, Hc2 by done. }
  assert (Hg1 : mb_runtime_generation (changed (cr_command_id c) (map_rows (lease_update i c) m)) = Some g) by done.
  assert (Hs1 : mb_storage_incarnation (changed (cr_command_id c) (map_rows (lease_update i c) m))
                = Some (li_storageIncarnationId input)) by done.
  set (m1 := changed (cr_command_id c) (map_rows (lease_update i c) m)) in *. clearbody m1.
  destruct (IH (S i) m1) as (m' & leases & Hloop & Hi' & Hm' & Hgranted & Hlen & Hrest); [done..| |].
  { intros d Hd. destruct (Hin d) as (? & ? & ?); [by right|]. split_and!; [|done|].
    - apply Hother; [done|]. intros Heq. apply Hnew. rewrite <-Heq. apply list_elem_of_fmap. eauto.
    - by eapply blocked_by_prior_moves. }
  rewrite Hloop. exists m', (lease_of i c e :: leases).
  split_and!; [done|done|by etrans| |by cbn; f_equal|].
  - intros [|j] d Hd; cbn in Hd.
    + injection Hd as <-. rewrite Nat.add_0_r. exists (lease_of i c e). split_and!; [done|by split_and!|].
      by apply Hrest.
    + replace (i + S j)%nat with (S i + j)%nat by lia. by apply Hgranted.
  - intros r Hr Hni. rewrite fmap_cons in Hni. apply not_elem_of_cons in Hni as [? ?].
    apply Hrest; [by apply Hother|done].
Qed.
End lease_loop.

Lemma lease_candidates_spec m c :
  c ∈ lease_candidates m → grantable m c.
Proof.
  unfold lease_candidates, select. intros Hc%elem_of_take. destruct Hc as (i & Hi & _).
  apply list_elem_of_lookup_2, list_elem_of_filter in Hi as [Hcond Hc]. bools. done.
Qed.
Lemma lease_candidates_NoDup m : TableInv m → NoDup (cr_command_id <$> lease_candidates m).
Proof.
  intros Ht. unfold lease_candidates, select.
  eapply sublist_NoDup; [exact (filter_ids (λ c, available c && negb (blocked_by_prior m c) = true) m Ht)|].
  rewrite fmap_take. apply sublist_take.
Qed.
(** What [lease_fenced] grants. *)
Lemma lease_fenced_spec g input now token m :
  MailboxInv m → mb_runtime_generation m = Some g →
  ∃ m1, MailboxInv m1 ∧ moves m m1 ∧ mb_runtime_generation m1 = Some g
    ∧ mb_storage_incarnation m1 = Some (li_storageIncarnationId input)
    ∧ (lease_fenced g input now token m = (m1, leases_reply [] false true m1)
       ∨ ∃ m2 leases, lease_fenced g input now token m = (m2, leases_reply leases false false m2)
           ∧ MailboxInv m2 ∧ moves m1 m2 ∧ length leases = length (lease_candidates m1)
           ∧ ∀ j c, lease_candidates m1 !! j = Some c → ∃ l, leases !! j = Some l
               ∧ granted g input now token j c l
               ∧ lease_row g input (token j) now c ∈ mb_commands m2).
Proof.
  intros Hi Hg. destruct (replace_storage_spec (li_storageIncarnationId input) now m) as (Hstep & Hs & Hgen).
  destruct (Hstep Hi) as [Hi1 Hm1]. rewrite Hg in Hgen.
  destruct (release_fenced_spec g _ now _ Hgen Hs) as (Hstep2 & Hs2 & Hg2).
  destruct (Hstep2 Hi1) as [Hi2 Hm2]. unfold lease_fenced. cbv zeta.
  set (m1 := release_fenced _ _ _ _) in *.
  exists m1. split_and!; [done|by etrans|done..|].
  destruct (runtimeFenceRequiredUnsafe g (li_storageIncarnationId input) m1); [by left|right].
  destruct (lease_loop_spec g input now token 0 (lease_candidates m1) m1 Hi2 Hg2 Hs2)
    as (m2 & leases & -> & Hi3 & Hm3 & Hgr & Hlen & _).
  - apply lease_candidates_NoDup, Hi2.
  - intros c. apply lease_candidates_spec.
  - eauto 10.
Qed.
Lemma lease_fenced_step g input now token m :
  mb_runtime_generation m = Some g → step m (lease_fenced g input now token m).1.
Proof.
  intros Hg Hi. destruct (lease_fenced_spec g input now token m Hi Hg)
    as (m1 & Hi1 & Hm1 & _ & _ & [->|(m2 & leases & -> & Hi2 & Hm2 & _)]); [done|].
  split; [done|by etrans].
Qed.
Lemma lease_step input token now m : step m (leaseUnsafe input token now m).1.
Proof.
  unfold leaseUnsafe. destruct (_ || _); [apply step_refl|]. cbv zeta.
  refine (step_trans _ _ _ (expireLeases_step now m) (λ _, _)). set (m1 := expireLeasesUnsafe now m). clearbody m1.
  destruct (match mb_runtime_generation m1 with Some _ => _ | None => _ end) eqn:Hg; [apply step_refl|].
  set (g := num_Z (li_runtimeGeneration input)) in *. set (m2 := m1 <| mb_runtime_generation := Some g |>).
  assert (H2 : step m1 m2).
  { apply set_generation_step. intros x Hx. rewrite Hx in Hg. bools. eauto. }
  destruct (match mb_destruction_fence m2 with Some _ => _ | None => _ end); [done|].
  refine (step_trans _ _ _ H2 (λ _, _)).
  refine (step_trans _ _ _ (observe_step (num_Z (li_destructionFence input)) now m2) (λ _, _)).
  apply lease_fenced_step. rewrite (observe_same mb_runtime_generation); [done|intros ?; terminalize_row_cases|done].
Qed.

(** ** Acknowledgment and lifecycle *)

Lemma acknowledge_step ack now m : step m (acknowledgeUnsafe ack now m).1.
Proof.
  unfold acknowledgeUnsafe. cbv zeta. refine (step_trans _ _ _ (expireLeases_step now m) (λ Hi, _)).
  set (m1 := expireLeasesUnsafe now m) in *. clearbody m1.
  destruct (CLOUD_COMMAND_MAX_ENVELOPE_BYTES <? _); [apply step_refl|].
  destruct (find_command (ack_commandId ack) m1) as [row|] eqn:Hfind; [|apply step_refl].
  apply find_command_spec in Hfind as [Hrow Hid].
  case_decide; [apply step_refl|]. destruct (terminal row); [apply step_refl|].
  destruct (negb (in_states _ row) || _) eqn:Hheld; [apply step_refl|]. bools. cbn [fst].
  apply update_changed_step; [rewrite <-Hid; by apply elem_of_ids|].
  intros r Hr Hok Hc. bools. assert (r = row) as -> by (apply (equal_ids m1); [apply Hi|done..|congruence]).
  split_and!; [done|by apply good_acknowledge|by left].
Qed.
Lemma set_lifecycle_step f m :
  mb_destruction_fence m = Some f → step m (m <| mb_lifecycle_fence := Some f |>).
Proof.
  intros Hf [Ht [Hcore Ha]]. split; [split; [|split; [|done]]|].
  - destruct Ht. split; try done. cbn. by rewrite Hf.
  - by destruct Hcore.
  - split; try done; eauto. intros i r Hi. exists r. split_and!; [done|reflexivity|left; apply quiet_refl].
Qed.
Lemma lifecycle_step action fence now m : step m (lifecycleUnsafe action fence now m).1.
Proof.
  assert (Hcat : everLeased (lifecycle_categories action) ∈ DESTRUCTIVE_LEASE_CATEGORIES).
  { destruct action; cbn; [right; left|right; right; left]. }
  unfold lifecycleUnsafe. destruct fence as [fence|].
  - destruct (negb _); [apply step_refl|]. cbv zeta. set (f := num_Z fence).
    destruct (match mb_lifecycle_fence m with Some _ => _ | None => _ end) eqn:Hl; [apply step_refl|].
    destruct (match mb_destruction_fence m with Some _ => _ | None => _ end) eqn:Hf; [apply step_refl|]. cbn [fst].
    set (m1 := m <| mb_destruction_fence := Some f |>).
    assert (Heq : terminalizeBelowFenceUnsafe f (lifecycle_categories action) now
                    (m1 <| mb_lifecycle_fence := Some f |>)
                  = (terminalizeBelowFenceUnsafe f (lifecycle_categories action) now m1)
                      <| mb_lifecycle_fence := Some f |>).
    { apply (terminalize_commute (λ m, m <| mb_lifecycle_fence := Some f |>)). terminalize_row_cases. }
    rewrite Heq.
    assert (Hfence : mb_destruction_fence (terminalizeBelowFenceUnsafe f (lifecycle_categories action) now m1)
                     = Some f) by (rewrite terminalizeBelow_same; [done|terminalize_row_cases]).
    assert (H1 : step m (terminalizeBelowFenceUnsafe f (lifecycle_categories action) now m1)).
    { apply terminalizeBelow_step; [done|intros x Hx; rewrite Hx in Hf|intros x Hx; rewrite Hx in Hl];
        bools; exists f; (split; [done|lia]). }
    refine (step_trans _ _ _ H1 (λ Hi, _)). by apply set_lifecycle_step.
  - cbn [fst]. intros Hi. apply terminalizeUnsafe_step; [done|apply Hi|by intros r|done].
Qed.

(** ** Watching and the alarm *)

Lemma find_command_some id m : id ∈ ids m → is_Some (find_command id m).
Proof. intros Hid. destruct (find_command id m) eqn:Hf; [done|]. by apply find_command_none in Hf. Qed.
Lemma status_some id m : id ∈ ids m → is_Some (status id m).
Proof. intros [r Hr]%find_command_some. unfold status. rewrite Hr. by eexists. Qed.
Lemma latest_elem after m c : c ∈ latest_changes after m → c ∈ mb_changes m ∧ after < c.1.
Proof. unfold latest_changes. intros [_ Hc]%list_elem_of_filter. by apply list_elem_of_filter in Hc as [? ?]. Qed.
Lemma change_id m c : LogCore m → c ∈ mb_changes m → c.2 ∈ ids m.
Proof. intros Hl Hc. destruct (gi_change _ Hl c Hc) as (_ & n & Hn & _). by apply (gi_revision _ Hl c.2 n). Qed.
Lemma watch_step w after m : step m (watch w after m).1.
Proof.
  intros Hi. unfold watch. cbv zeta. destruct (_ && _ && _) eqn:Hc; [|by apply step_refl]. bools. cbn [fst].
  apply same_step; try done; [|by destruct Hi as [[] _]]. cbn.
  intros x [Hx| ->%list_elem_of_singleton]%elem_of_app; [by left|right; cbn].
  unfold read_changes in *. cbv zeta in *.
  destruct (_ && _) eqn:Hreset; [done|]. cbn [pg_changes pg_nextRevision] in *.
  destruct (latest_changes after m) as [|c l] eqn:Hl; [done|]. exfalso.
  destruct (latest_elem after m c) as [Hin _]; [rewrite Hl; left|].
  destruct (status_some c.2 m) as [st Hst]; [apply change_id; [apply Hi|done]|].
  cbn in *. by rewrite Hst in *.
Qed.
Lemma wake_delivered_step revision m : step m (wake_delivered revision m).
Proof.
  intros [Ht [[Hs Hc Hr Hp Hw] Ha]]. split; [split; [by destruct Ht|split; [split|done]]|].
  - done.
  - intros c Hin. destruct (Hc c Hin) as [? ?]. split; [cbn; lia|done].
  - intros id n Hn. destruct (Hr id n Hn) as (? & ? & ?). cbn. split; [lia|done].
  - cbn. lia.
  - cbn. by intros w ?%elem_of_nil.
  - split; try done; eauto; [|cbn; lia]. intros i r Hi. exists r. split_and!; [done|reflexivity|left; apply quiet_refl].
Qed.
Lemma expire_step now m : step m (expire now m).
Proof.
  unfold expire. cbv zeta. set (m1 := changed_all _ _).
  assert (H1 : step m m1).
  { apply update_all_step. intros r Hr Hok Hc. unfold reservation_expired in Hc. bools. split; [|done].
    apply (good_cancel _ _ _ "reservation-expired"); [done|].
    pose proof (rok_shape _ _ _ _ Hok) as Hs. unfold shape in Hs. unfold cancelable, in_states.
    destruct (cr_state r); try done. by destruct Hs as [-> _]. }
  refine (step_trans _ _ _ H1 (λ _, _)). refine (step_trans _ _ _ (expireLeases_step now m1) (λ _, _)).
  apply update_quiet_step. intros r Hr Hok Hc. unfold past_retention in Hc.
  destruct (cr_terminal_at r) eqn:Ht; [|done]. split_and!; [apply good_drop; [done|by rewrite Ht]|done|].
  split; [done|by right].
Qed.
Lemma alarm_fires_step now m : step m (alarm_fires now m).
Proof.
  unfold alarm_fires. destruct (mb_alarm m); [|apply step_refl]. destruct (mb_running m); [apply step_refl|].
  destruct (_ <? _); [apply step_refl|]. cbv zeta.
  refine (step_trans _ _ _ (set_alarm_step None m) (λ _, _)).
  refine (step_trans _ _ _ (expire_step now _) (λ _, _)). generalize (expire now (m <| mb_alarm := None |>)). intros m2.
  destruct (mb_wake_revision m2); [|apply scheduleNext_step].
  destruct (dispatchWake && wake_pending m2); [|apply scheduleNext_step].
  destruct (mb_wake_workspace_id m2), (mb_wake_account_id m2);
    try (by refine (step_trans _ _ _ (wake_failed_step _ now m2) (λ _, scheduleNext_step _ _))).
  apply set_running_step.
Qed.
Lemma wake_answered_step now delivered m : step m (wake_answered now delivered m).
Proof.
  unfold wake_answered. destruct (mb_running m) as [r|]; [|apply step_refl].
  assert (H1 : step m (if delivered then wake_delivered (run_revision r) m else wake_failed (run_revision r) now m)).
  { destruct delivered; [apply wake_delivered_step|apply wake_failed_step]. }
  refine (step_trans _ _ _ H1 (λ _, _)). refine (step_trans _ _ _ (set_running_step None _) (λ _, scheduleNext_step _ _)).
Qed.

(** ** Requests and runs *)

Lemma arm_step t token w request m : step m (h_arm (handler t token w request) m).
Proof.
  destruct request; cbn; try apply step_refl; try apply schedule_step.
  - destruct (wake_delivery _ _); [apply schedule_step|apply step_refl].
  - destruct blockedUntil as [[]|]; apply step_refl.
  - destruct (mb_wake_revision m); [apply schedule_step|apply step_refl].
  - destruct action; [apply schedule_step|apply step_refl].
Qed.
Lemma transaction_step t token w request m : step m (h_transaction (handler t token w request) m).1.
Proof.
  destruct request; cbn; try apply step_refl.
  - apply reserve_step.
  - apply commit_step.
  - destruct blockedUntil as [[]|]; [apply step_refl|apply block_step|apply step_refl].
  - apply unblock_step.
  - apply cancel_step.
  - apply lease_step.
  - apply acknowledge_step.
  - destruct action; [apply lifecycle_step|apply step_refl].
  - apply watch_step.
Qed.
Lemma transactionSync_step (f : Mailbox → Mailbox * Reply) m : step m (f m).1 → step m (transactionSync f m).1.
Proof.
  intros Hf. unfold transactionSync. destruct (f m) as [m' r] eqn:Heq. cbn [fst] in Hf.
  destruct r; try done. intros Hi. destruct (Hf Hi) as [Hi' Hm].
  apply same_step; try done; [|by destruct Hi as [[] _]]. cbn. intros w Hw. right.
  pose proof (gi_waiters _ (proj2 Hi') w Hw). pose proof (mv_revision _ _ Hm). lia.
Qed.
Lemma finish_step h now x : step x.1 (finish h now x).1.
Proof.
  unfold finish. destruct x as [m r]. cbn. destruct r; try apply step_refl;
    (destruct (h_next h _); [apply scheduleNext_step|apply step_refl]).
Qed.
Lemma fetch_transaction_step t token w request m :
  step m (transactionSync (h_transaction (handler t token w request)) (h_arm (handler t token w request) m)).1.
Proof.
  refine (step_trans _ _ _ (arm_step t token w request m) (λ _, _)).
  apply transactionSync_step, transaction_step.
Qed.
Lemma deliver_step event m : step m (deliver event m).1.
Proof.
  destruct event; cbn [deliver fst].
  - refine (step_trans _ _ _ (fetch_transaction_step t token watcher request m) (λ _, finish_step _ _ _)).
  - refine (step_trans _ _ _ _ (λ _, lost_step _)).
    destruct committed; [apply fetch_transaction_step|apply arm_step].
  - apply alarm_fires_step.
  - destruct (mb_running m); [apply step_refl|]. destruct (mb_alarm m) as [a|]; [|apply step_refl].
    destruct (_ <? _); [apply step_refl|]. cbn [fst].
    refine (step_trans _ _ _ (set_alarm_step None m) (λ _, _)).
    refine (step_trans _ _ _ (expire_step now _) (λ _, _)).
    refine (step_trans _ _ _ (set_alarm_step (Some a) _) (λ _, lost_step _)).
  - apply wake_answered_step.
  - destruct (mb_woken m) as [|[? ?] ?]; [apply step_refl|same].
  - destruct (filter _ _) as [|[? ?] ?]; [apply step_refl|same].
    cbn. intros w [_ ?]%list_elem_of_filter. by left.
  - apply lost_step.
Qed.
Lemma run_step events m : step m (run events m).
Proof.
  revert m. induction events as [|e events IH]; intros m; [apply step_refl|].
  exact (step_trans _ _ _ (deliver_step e m) (λ _, IH _)).
Qed.
Lemma empty_inv : MailboxInv empty_mailbox.
Proof.
  split; [split|split; [split|]]; try done.
  all: try (by intros ? ?%elem_of_nil).
  all: try (by intros ? ? ?%elem_of_nil).
  all: try (by intros [? ?]).
  all: constructor.
Qed.
Lemma reachable_inv m : reachable m → MailboxInv m.
Proof. intros [events ->]. apply run_step, empty_inv. Qed.
Lemma reachable_run events m : reachable m → reachable (run events m).
Proof. intros [before ->]. exists (before ++ events). unfold run. by rewrite foldl_app. Qed.
End steps.
