(* ===== verification/MailboxProps.v ===== *)
(** * What the workspace mailbox guarantees

    Theorems about every run of the mailbox: requests in any order, with any clock,
    alarms, losses of the object and answers of the wake in between. *)
From stdpp Require Import sorting.
From S2P Require Import Prelude Js Mailbox MailboxInv MailboxRows MailboxSteps.

Local Open Scope Z_scope.

Section props.
Context `{MailboxEnv}.

(** C17: every state the mailbox reaches, whatever requests, alarms and losses came before,
    is well formed: each row has the columns of its state, sequences and ids are unique,
    a command that was ever leased has only settled commands before it in its lane,
    leases belong to the current storage and to generations that were current, live
    commands are not behind the destruction fence, the capacity is kept, and the change
    history covers every command. *)
Theorem mailbox_invariant_reachable m : reachable m → MailboxInv m.
Proof. apply reachable_inv. Qed.

(** C13: along any run no command is lost or forgotten: it keeps its identity, place and
    lane and only moves along the life of a command, from reserved on; once it is settled
    its state never changes and its outcome stays until retention drops it with the
    envelope. *)
Theorem commands_follow_life m events :
  reachable m →
  (∀ i r, mb_commands m !! i = Some r → ∃ r', mb_commands (run events m) !! i = Some r'
     ∧ cr_command_id r' = cr_command_id r ∧ cr_lane r' = cr_lane r
     ∧ cr_workspace_sequence r' = cr_workspace_sequence r ∧ cr_fingerprint r' = cr_fingerprint r
     ∧ rtc life_step (phase r) (phase r')
     ∧ (terminal r = true →
        phase r' = phase r ∧ (outcome r' = outcome r ∨ cr_envelope r' = None)))
  ∧ (∀ i r', mb_commands (run events m) !! i = Some r' → mb_commands m !! i = None →
       rtc life_step (CS_reserved, false) (phase r')).
Proof.
  intros Hr. destruct (run_step events m (reachable_inv m Hr)) as [_ Hm]. split.
  - intros i r Hi. destruct (mv_rows _ _ Hm i r Hi) as (r' & Hi' & Hmove & _).
    exists r'. destruct Hmove. split_and!; try done. intros Ht. split; [|by auto].
    by apply life_steps_terminal.
  - intros i r' Hi' Hi. destruct (mv_new _ _ Hm i r' Hi') as [[r Hr']|[_ ?]]; [congruence|done].
Qed.

(** ** Leases *)

Lemma transaction_leases f m m' page :
  (transactionSync f m) = (m', Leases page) → f m = (m', Leases page).
Proof. unfold transactionSync. destruct (f m) as [m1 []]; congruence. Qed.
Lemma scheduleNext_commands now m : mb_commands (scheduleNext now m) = mb_commands m.
Proof.
  unfold scheduleNext, schedule. destruct (nextAlarmDeadline m); [|done].
  by destruct (match mb_alarm m with Some _ => _ | None => true end).
Qed.
Lemma finish_spec h now x : (finish h now x).2 = x.2 ∧ mb_commands (finish h now x).1 = mb_commands x.1.
Proof.
  unfold finish. destruct x as [m r]. cbn. destruct r; try done;
    (destruct (h_next h _); cbn; [by rewrite scheduleNext_commands|done]).
Qed.
(** A page with leases comes from [lease_fenced], and the mailbox moved there. *)
Lemma leaseUnsafe_spec input token now m m' page :
  MailboxInv m → leaseUnsafe input token now m = (m', Leases page) → lp_leases page ≠ [] →
  ∃ m3, MailboxInv m3 ∧ moves m m3
    ∧ mb_runtime_generation m3 = Some (num_Z (li_runtimeGeneration input))
    ∧ lease_fenced (num_Z (li_runtimeGeneration input)) input now token m3 = (m', Leases page).
Proof.
  intros Hi. unfold leaseUnsafe. destruct (_ || _); [by intros [= _ _]|]. cbv zeta.
  destruct (expireLeases_step now m Hi) as [Hi1 Hm1].
  set (m1 := expireLeasesUnsafe now m) in *. clearbody m1.
  set (g := num_Z (li_runtimeGeneration input)).
  destruct (match mb_runtime_generation m1 with Some _ => _ | None => _ end) eqn:Hg.
  { unfold leases_reply. intros [= _ <-]. by cbn. }
  set (m2 := m1 <| mb_runtime_generation := Some g |>).
  destruct (set_generation_step g m1) as [Hi2 Hm2]; [|done|].
  { intros x Hx. rewrite Hx in Hg. exists g. split; [done|]. by apply Z.ltb_ge. }
  destruct (match mb_destruction_fence m2 with Some _ => _ | None => _ end).
  { unfold leases_reply. intros [= _ <-]. by cbn. }
  intros Hl _. destruct (observe_step (num_Z (li_destructionFence input)) now m2 Hi2) as [Hi3 Hm3].
  exists (observeDestructionFenceUnsafe (num_Z (li_destructionFence input)) now m2).
  split_and!; [done|by repeat (etrans; [done|])| |done].
  rewrite (observe_same mb_runtime_generation); [done| |done].
  intros ? ? ?. unfold terminalize_row. by destruct (canStillReceiveOriginalReceipt _ _).
Qed.
(** What is known of a granted lease when it is granted. *)
Lemma lease_granted_spec input token now m m' page l :
  MailboxInv m → leaseUnsafe input token now m = (m', Leases page) → l ∈ lp_leases page →
  MailboxInv m' ∧ ∃ m1 i c, MailboxInv m1 ∧ moves m m1 ∧ c ∈ mb_commands m1 ∧ available c = true
    ∧ mb_runtime_generation m1 = Some (rl_runtimeGeneration l)
    ∧ mb_storage_incarnation m1 = Some (rl_storageIncarnationId l)
    ∧ cr_envelope c = Some (rl_command l)
    ∧ lease_row (rl_runtimeGeneration l) input (token i) now c ∈ mb_commands m'
    ∧ rl_leaseToken l = token i.
Proof.
  intros Hi Hlease Hl.
  destruct (leaseUnsafe_spec _ _ _ _ _ _ Hi Hlease) as (m3 & Hi3 & Hm3 & Hg3 & Hf);
    [by intros Hnil; rewrite Hnil in Hl; apply elem_of_nil in Hl|].
  set (g := num_Z (li_runtimeGeneration input)) in *.
  destruct (lease_fenced_spec g input now token m3 Hi3 Hg3)
    as (m1 & Hi1 & Hm1 & Hg1 & Hs1 & [Heq|(m2 & leases & Heq & Hi2 & Hm2 & Hlen & Hgr)]);
    rewrite Heq in Hf; injection Hf as Hm' Hpage; subst m' page; cbn [lp_leases] in Hl;
    [by apply elem_of_nil in Hl|].
  split; [done|]. apply list_elem_of_lookup in Hl as [j Hj].
  destruct (lookup_lt_is_Some_2 (lease_candidates m1) j) as [c Hc]; [rewrite <-Hlen; by eapply lookup_lt_Some|].
  destruct (Hgr j c Hc) as (l' & Hl' & (He & _ & Htok & _ & Hgen & Hst) & Hin). simplify_eq.
  destruct (lease_candidates_spec m1 c) as (Hc1 & Ha & _); [by eapply list_elem_of_lookup_2|].
  exists m1, j, c. rewrite Hgen, Hst. split_and!; try done. by etrans.
Qed.
Lemma row_of_moves m m' r :
  moves m m' → r ∈ mb_commands m → ∃ r', r' ∈ mb_commands m' ∧ row_move r r'.
Proof.
  intros Hm (i & Hi)%list_elem_of_lookup. destruct (mv_rows _ _ Hm i r Hi) as (r' & Hi' & Hmove & _).
  exists r'. split; [by eapply list_elem_of_lookup_2|done].
Qed.

(** A command available to the current generation was leased before only by older ones. *)
Lemma available_generation g fence storage c gc :
  row_ok (Some g) fence storage c → available c = true → cr_runtime_generation c = Some gc →
  gc < g ∧ cr_storage_incarnation_id c = storage.
Proof.
  intros Hok Ha Hgc. pose proof (rok_lease _ _ _ _ Hok) as Hlease. pose proof (rok_shape _ _ _ _ Hok) as Hshape.
  unfold lease_ok in Hlease. destruct (cr_ever_leased c) eqn:Hever; [|by destruct Hlease; congruence].
  destruct Hlease as (g' & s & Hg' & Hs & Hcur).
  destruct (Hcur (available_nonterminal _ Ha)) as (Hst & known & Hk & _ & Hlt).
  assert (cr_state c = CS_waiting_for_runtime) as Hwait.
  { unfold available, in_states, shape in *. destruct (cr_state c); try done. by destruct Hshape; congruence. }
  specialize (Hlt Hwait). simplify_eq. split; [lia|congruence].
Qed.

(** C10: whatever happened since any earlier moment, a lease the mailbox grants is for a
    command that is alive, whose earlier commands of the lane are all settled; a command
    that had been leased before comes only to a strictly newer generation of the runtime
    on the same storage; and the command is not behind any destruction fence, nor the
    runtime behind any generation, the mailbox had seen. *)
Theorem leases_are_exclusive m0 events t token watcher input m' page l :
  reachable m0 →
  fetch t token watcher (Lease input) (run events m0) = (m', Leases page) → l ∈ lp_leases page →
  ∃ r, r ∈ mb_commands m' ∧ cr_command_id r = env_commandId (rl_command l)
    ∧ cr_state r = CS_leased ∧ cr_lease_token r = Some (rl_leaseToken l)
    ∧ cr_runtime_generation r = Some (rl_runtimeGeneration l)
    ∧ (∀ p, p ∈ mb_commands m' → cr_lane p = cr_lane r →
         cr_workspace_sequence p < cr_workspace_sequence r → terminal p = true)
    ∧ (∀ r0 g, r0 ∈ mb_commands m0 → cr_command_id r0 = cr_command_id r →
         cr_runtime_generation r0 = Some g →
         g < rl_runtimeGeneration l ∧ cr_storage_incarnation_id r0 = Some (rl_storageIncarnationId l))
    ∧ (∀ f, mb_destruction_fence m0 = Some f → f <= num_Z (env_destructionFence (rl_command l)))
    ∧ (∀ g, mb_runtime_generation m0 = Some g → g <= rl_runtimeGeneration l).
Proof.
  intros Hr0 Hfetch Hl.
  destruct (run_step events m0 (reachable_inv m0 Hr0)) as [Hi Hm].
  set (m := run events m0) in *. clearbody m.
  destruct (arm_step t token watcher (Lease input) m Hi) as [Hia Hma].
  unfold fetch in Hfetch. set (h := handler t token watcher (Lease input)) in *.
  pose proof (finish_spec h (t_next t) (transactionSync (h_transaction h) (h_arm h m))) as [Hrep Hcmd].
  rewrite Hfetch in Hrep, Hcmd. cbn [fst snd] in Hrep, Hcmd.
  destruct (transactionSync (h_transaction h) (h_arm h m)) as [m2 rep] eqn:Htx. cbn [fst snd] in Hrep, Hcmd. subst rep.
  apply transaction_leases in Htx. change (h_transaction h) with (leaseUnsafe input token (t_transaction t)) in Htx.
  destruct (lease_granted_spec _ _ _ _ _ _ l Hia Htx Hl) as ([Ht2 _] & m1 & i & c & Hi1 & Hm1 & Hc & Ha & Hg1 & Hs1 & He & Hin & Htok).
  assert (Hm01 : moves m0 m1) by (repeat (etrans; [done|]); done).
  pose proof (ti_rows _ (proj1 Hi1) c Hc) as Hok. unfold row_ok_in in Hok.
  destruct (rok_content _ _ _ _ Hok _ He) as (Hid & _ & _ & _ & Hsafe & _).
  exists (lease_row (rl_runtimeGeneration l) input (token i) (t_transaction t) c).
  rewrite Hcmd, Htok. split_and!; try done.
  - intros p Hp Hlane Hseq. by apply (ti_lanes _ Ht2 _ p Hin Hp).
  - intros r0 g Hr Hrid Hgen. destruct (row_of_moves _ _ _ Hm01 Hr) as (r1 & Hr1 & Hmove).
    assert (r1 = c) as -> by (apply (equal_ids m1); [apply Hi1|done..|by rewrite (rm_id _ _ Hmove)]).
    destruct (rm_generation _ _ Hmove g Hgen) as (g' & Hg' & Hle). rewrite Hg1, Hs1 in Hok.
    destruct (available_generation _ _ _ _ _ Hok Ha Hg') as [Hlt Hst]. split; [lia|].
    pose proof (rok_lease _ _ _ _ (ti_rows _ (proj1 (reachable_inv m0 Hr0)) r0 Hr)) as Hl0. unfold lease_ok in Hl0.
    destruct (cr_ever_leased r0); [|by destruct Hl0; congruence].
    destruct Hl0 as (g0 & s0 & _ & Hs0 & _). pose proof (rm_storage _ _ Hmove _ Hs0). congruence.
  - intros f Hf. destruct (mv_fence _ _ Hm01 f Hf) as (f' & Hf' & ?).
    destruct (rok_fence _ _ _ _ Hok f' Hf' (available_nonterminal _ Ha)) as [Hb|[Hl' _]].
    + unfold below_fence in Hb. rewrite (envelopeFence_safe c _ He Hsafe) in Hb. apply Z.ltb_ge in Hb. lia.
    + unfold available, in_states in Ha. by rewrite Hl' in Ha.
  - intros g Hg. destruct (mv_generation _ _ Hm01 g Hg) as (g' & Hg' & ?). simplify_eq. lia.
Qed.

(** ** Acknowledgments *)

(** The row after the expiry of leases that a request begins with. *)
Definition expired_row (now : Z) (r : CommandRow) : CommandRow :=
  if lease_expired now r
  then if destructive r then end_command CS_outcome_unknown (cr_category r) now r else await_fence now r
  else r.
Lemma expireLeases_rows now m : mb_commands (expireLeasesUnsafe now m) = expired_row now <$> mb_commands m.
Proof.
  rewrite expire_leases_map. unfold touch. rewrite (changed_all_same mb_commands) by done.
  apply list_fmap_ext. intros _ r _. unfold update_with, expired_row.
  destruct (lease_expired now r) eqn:He; cbn [andb]; [|by rewrite He].
  destruct (destructive r) eqn:Hd; cbn [andb negb]; [done|by rewrite He, Hd].
Qed.
Lemma expireLeases_row now m i r :
  mb_commands m !! i = Some r → ∃ r', mb_commands (expireLeasesUnsafe now m) !! i = Some r'
    ∧ cr_command_id r' = cr_command_id r
    ∧ (r' = r ∧ lease_expired now r = false ∨ lease_expired now r = true
        ∧ (r' = await_fence now r ∨ r' = end_command CS_outcome_unknown (cr_category r) now r)).
Proof.
  intros Hi. rewrite expireLeases_rows, list_lookup_fmap, Hi. eexists. split; [done|].
  unfold expired_row. destruct (lease_expired now r); [destruct (destructive r)|];
    (split; [done|]); naive_solver.
Qed.
(** The rows an acknowledgment leaves. *)
Definition settles (ack : RuntimeAcknowledgment) (r : CommandRow) : Prop :=
  option_length (ack_resultIv ack) + option_length (ack_resultCiphertext ack) <= CLOUD_COMMAND_MAX_ENVELOPE_BYTES
  ∧ cr_command_id r = ack_commandId ack ∧ cr_fingerprint r = ack_fingerprint ack
  ∧ holds_lease r = true ∧ cr_lease_token r = Some (ack_leaseToken ack).
#[local] Instance settles_dec ack r : Decision (settles ack r).
Proof. unfold settles. apply _. Defined.
Lemma holds_lease_live r : holds_lease r = true → terminal r = false.
Proof. unfold holds_lease, in_states, terminal. by destruct (cr_state r). Qed.
Lemma acknowledge_rows ack now m :
  MailboxInv m → let m1 := expireLeasesUnsafe now m in
  mb_commands (acknowledgeUnsafe ack now m).1
  = (λ r, if decide (settles ack r) then acknowledge_row ack now r else r) <$> mb_commands m1.
Proof.
  intros Hi m1. destruct (expireLeases_step now m Hi) as [[Ht _] _]. fold m1 in Ht.
  assert (Hsame : (∀ r, r ∈ mb_commands m1 → ¬ settles ack r) →
    mb_commands m1 = (λ r, if decide (settles ack r) then acknowledge_row ack now r else r) <$> mb_commands m1).
  { intros Hno. rewrite <-(list_fmap_id (mb_commands m1)) at 1. apply list_fmap_ext.
    intros i r Hr%list_elem_of_lookup_2. by rewrite decide_False by (by apply Hno). }
  unfold acknowledgeUnsafe, refuse. cbv zeta. fold m1.
  destruct (Z.ltb_spec CLOUD_COMMAND_MAX_ENVELOPE_BYTES (option_length (ack_resultIv ack) + option_length (ack_resultCiphertext ack))).
  { apply Hsame. intros r _ [? _]. lia. }
  destruct (find_command (ack_commandId ack) m1) as [row|] eqn:Hfind.
  2: { apply Hsame. intros r Hr (_ & Hid & _). apply find_command_none in Hfind. apply Hfind.
       rewrite <-Hid. by apply elem_of_ids. }
  apply find_command_spec in Hfind as [Hrow Hid].
  assert (Hmine : ∀ r, r ∈ mb_commands m1 → settles ack r → r = row).
  { intros r Hr (_ & Hrid & _). apply (equal_ids m1); [done..|congruence]. }
  case_decide as Hfp; [apply Hsame; intros r Hr Hs; destruct (Hmine r Hr Hs), Hs; tauto|].
  destruct (terminal row) eqn:Hterm.
  { apply Hsame. intros r Hr Hs. destruct (Hmine r Hr Hs), Hs as (_ & _ & _ & Hl & _).
    apply holds_lease_live in Hl. congruence. }
  destruct (negb (in_states _ row) || _) eqn:Hheld; cbn [fst].
  { apply Hsame. intros r Hr Hs. destruct (Hmine r Hr Hs), Hs as (_ & _ & _ & Hl & Htok).
    unfold holds_lease in Hl. by rewrite Hl, bool_decide_eq_true_2 in Hheld. }
  apply orb_false_iff in Hheld as [Hl%negb_false_iff Htok%negb_false_iff%bool_decide_eq_true].
  cbn. apply list_fmap_ext. intros i r Hr%list_elem_of_lookup_2. unfold has_id.
  destruct (decide (settles ack r)) as [Hs|Hs]; [by rewrite bool_decide_eq_true_2 by apply Hs|].
  rewrite bool_decide_eq_false_2; [done|]. intros Hrid. apply Hs.
  assert (r = row) as -> by (apply (equal_ids m1); [done..|congruence]).
  by split_and!.
Qed.
Lemma changed_commands id m : mb_commands (changed id m) = mb_commands m.
Proof. exact (changed_all_same mb_commands [id] m (λ _ _, eq_refl)). Qed.
Lemma find_command_changed id id' m : find_command id (changed id' m) = find_command id m.
Proof. unfold find_command, select. by rewrite changed_commands. Qed.
Lemma find_command_update id f m r :
  find_command id m = Some r → (∀ r, cr_command_id (f r) = cr_command_id r) →
  find_command id (update_commands (has_id id) f m) = Some (f r).
Proof.
  intros Hf Hid. rewrite update_commands_map, find_map_rows, Hf by (intros r'; unfold update_with; by case_match).
  apply find_command_spec in Hf as [_ Hr]. cbn. unfold update_with, has_id. by rewrite bool_decide_eq_true_2.
Qed.
(** An answer of success tells of a settled command. *)
Lemma acknowledge_reply ack now m st :
  MailboxInv m → (acknowledgeUnsafe ack now m).2 = StatusReply 200 st →
  ∃ r, find_command (ack_commandId ack) (acknowledgeUnsafe ack now m).1 = Some r
    ∧ cr_fingerprint r = ack_fingerprint ack ∧ terminal r = true ∧ cst_state <$> st = Some (cr_state r).
Proof.
  intros Hi. unfold acknowledgeUnsafe, refuse. cbv zeta.
  generalize (expireLeasesUnsafe now m). intros m1.
  destruct (CLOUD_COMMAND_MAX_ENVELOPE_BYTES <? _); [discriminate|].
  destruct (find_command (ack_commandId ack) m1) as [row|] eqn:Hfind; [|discriminate].
  case_decide as Hfp; [discriminate|].
  destruct (terminal row) eqn:Hterm.
  { cbn [fst snd]. intros [= <-]. exists row. split_and!; try done. unfold status. by rewrite Hfind. }
  destruct (negb (in_states _ row) || _); [discriminate|]. cbn [fst snd]. intros [= <-].
  pose proof (find_command_update _ (acknowledge_row ack now) _ _ Hfind (λ _, eq_refl)) as Hup.
  exists (acknowledge_row ack now row). unfold status. rewrite find_command_changed, Hup. split_and!; try done.
  unfold terminal. cbn. by destruct (ack_state ack).
Qed.

(** The runtime that acknowledges holds the command's lease, as it is when the request is
    handled: one that expired, but is neither fenced nor the command's last. *)
Definition holds_its_lease (ack : RuntimeAcknowledgment) (now : Z) (r : CommandRow) : Prop :=
  settles ack r ∧ ¬ (lease_expired now r = true ∧ destructive r = true).
Lemma settles_expired ack now r : settles ack (expired_row now r) ↔ holds_its_lease ack now r.
Proof.
  unfold holds_its_lease, settles, expired_row.
  destruct (lease_expired now r) eqn:He; [|naive_solver].
  destruct (destructive r); [split; [by intros (_ & _ & _ & ? & _)|naive_solver]|].
  assert (holds_lease r = true) as ->; [|naive_solver].
  unfold lease_expired in He. apply andb_true_iff in He as [Hl%bool_decide_eq_true _].
  unfold holds_lease, in_states. by rewrite Hl.
Qed.


(** ** The alarm *)

Definition alarm_of (m : Mailbox) : option Z * option AlarmRun := (mb_alarm m, mb_running m).
Definition armed (m : Mailbox) : Prop := is_Some (mb_alarm m) ∨ is_Some (mb_running m).

Lemma schedule_alarm at_ now m : is_Some (mb_alarm (schedule at_ now m)).
Proof. unfold schedule. destruct (mb_alarm m) as [a|] eqn:Ha; [destruct (_ || _)|]; cbn; rewrite ?Ha; eauto. Qed.
Lemma schedule_bound at_ now m : ∀ a, mb_alarm (schedule at_ now m) = Some a → a <= at_.
Proof.
  unfold schedule. intros a. destruct (mb_alarm m) as [b|] eqn:Hb; [|by intros [= <-]].
  destruct (_ || _) eqn:Hc; cbn; [by intros [= <-]|].
  apply orb_false_iff in Hc as [_ Hc%Z.ltb_ge]. rewrite Hb. intros [= <-]. done.
Qed.
Lemma scheduleNext_alarm now m d :
  nextAlarmDeadline m = Some d →
  ∃ a, mb_alarm (scheduleNext now m) = Some a ∧ a <= Z.max (now + 1) d.
Proof.
  intros Hd. unfold scheduleNext. rewrite Hd. destruct (schedule_alarm (Z.max (now + 1) d) now m) as [a Ha].
  exists a. split; [done|by eapply schedule_bound].
Qed.
Lemma scheduleNext_deadline now m : nextAlarmDeadline (scheduleNext now m) = nextAlarmDeadline m.
Proof.
  unfold scheduleNext. destruct (nextAlarmDeadline m) as [d|] eqn:Hd; [|done].
  unfold schedule. by destruct (match mb_alarm m with Some _ => _ | None => true end).
Qed.
Lemma scheduleNext_armed now m : is_Some (nextAlarmDeadline (scheduleNext now m)) → armed (scheduleNext now m).
Proof.
  rewrite scheduleNext_deadline. intros [d Hd]. left.
  destruct (scheduleNext_alarm now m d Hd) as (a & -> & _). by eexists.
Qed.

(** Transactions leave the alarm alone. *)
Lemma terminalize_alarm rows categories now m :
  alarm_of (terminalizeUnsafe rows categories now m) = alarm_of m.
Proof.
  apply terminalize_same. intros m' row. unfold terminalize_row.
  by destruct (canStillReceiveOriginalReceipt now row).
Qed.
Lemma observe_alarm f now m : alarm_of (observeDestructionFenceUnsafe f now m) = alarm_of m.
Proof.
  unfold observeDestructionFenceUnsafe. destruct (match mb_destruction_fence m with Some _ => _ | None => _ end); [done|].
  etrans; [apply terminalize_alarm|done].
Qed.
Lemma expireLeases_alarm now m : alarm_of (expireLeasesUnsafe now m) = alarm_of m.
Proof. unfold expireLeasesUnsafe. cbv zeta. by rewrite (changed_all_same alarm_of). Qed.
Lemma lease_loop_alarm g input now token i cands m :
  alarm_of (lease_loop g input now token i cands m).1 = alarm_of m.
Proof.
  revert i m. induction cands as [|c cands IH]; intros i m; [done|]. cbn [lease_loop]. cbv zeta.
  destruct (head _) as [row|]; [|by rewrite IH].
  destruct (cr_envelope row); [|done].
  specialize (IH (S i) (changed (cr_command_id c) (update_commands
    (λ r, has_id (cr_command_id c) r && available r) (lease_row g input (token i) now) m))).
  destruct (lease_loop _ _ _ _ _ _ _). exact IH.
Qed.
Lemma lease_alarm input token now m : alarm_of (leaseUnsafe input token now m).1 = alarm_of m.
Proof.
  unfold leaseUnsafe. destruct (_ || _); [done|]. cbv zeta.
  rewrite <-(expireLeases_alarm now m). set (m1 := expireLeasesUnsafe now m). clearbody m1.
  destruct (match mb_runtime_generation m1 with Some _ => _ | None => _ end); [done|].
  destruct (match mb_destruction_fence _ with Some _ => _ | None => _ end); [done|].
  change (alarm_of m1) with (alarm_of (m1 <| mb_runtime_generation := Some (num_Z (li_runtimeGeneration input)) |>)).
  rewrite <-(observe_alarm (num_Z (li_destructionFence input)) now
              (m1 <| mb_runtime_generation := Some (num_Z (li_runtimeGeneration input)) |>)).
  set (m2 := observeDestructionFenceUnsafe _ _ _). clearbody m2. unfold lease_fenced. cbv zeta.
  set (m3 := release_fenced _ _ _ _).
  assert (H3 : alarm_of m3 = alarm_of m2).
  { unfold m3, release_fenced, replace_storage. cbv zeta. rewrite (changed_all_same alarm_of) by done. cbn.
    destruct (match mb_storage_incarnation m2 with Some _ => _ | None => false end); [|done].
    unfold alarm_of. cbn.
    by rewrite (changed_all_same mb_alarm), (changed_all_same mb_running). }
  rewrite <-H3. destruct (runtimeFenceRequiredUnsafe _ _ m3); [done|].
  pose proof (lease_loop_alarm (num_Z (li_runtimeGeneration input)) input now token 0 (lease_candidates m3) m3) as Hl.
  destruct (lease_loop _ _ _ _ _ _ _). exact Hl.
Qed.
Lemma fold_alarm {A} (f : Mailbox → A → Mailbox) l m :
  (∀ m a, alarm_of (f m a) = alarm_of m) → alarm_of (foldl f m l) = alarm_of m.
Proof. intros Hf. revert m. induction l as [|a l IH]; intros m; [done|]. cbn. by rewrite IH. Qed.
Lemma reserve_alarm e now m : alarm_of (reserveUnsafe e now m).1 = alarm_of m.
Proof.
  unfold reserveUnsafe. destruct (cloudCommandLane e); [|done].
  destruct (_ <? _); [done|]. destruct (negb _); [done|].
  destruct (match mb_destruction_fence m with Some _ => _ | None => _ end); [done|]. cbv zeta.
  rewrite <-(observe_alarm (num_Z (env_destructionFence e)) now m).
  unfold reserve_fenced. destruct (find_command _ _); [|by destruct (_ || _)].
  case_decide; [done|]. by destruct (mb_command_identity _ !! _).
Qed.
Lemma commit_alarm id reason delivery now m : alarm_of (commitUnsafe id reason delivery now m).1 = alarm_of m.
Proof.
  unfold commitUnsafe. destruct (find_command id m); [|done]. cbv zeta.
  destruct (_ && _ && _); [done|]. destruct (match delivery with Some _ => _ | None => false end); [done|]. cbn [fst].
  destruct delivery; [|by destruct (bool_decide _)].
  destruct (_ || _); by destruct (bool_decide (cr_state _ = CS_reserved)).
Qed.
Lemma block_alarm id reason now m : alarm_of (blockUnsafe id reason now m).1 = alarm_of m.
Proof.
  destruct id as [id|]; cbn [blockUnsafe]; [|by apply fold_alarm].
  destruct (status id m); [|done]. destruct (isCloudCommandTerminalState _); [done|].
  by repeat (case_decide; [done|]).
Qed.
Lemma unblock_alarm id reason now m : alarm_of (unblockUnsafe id reason now m).1 = alarm_of m.
Proof.
  assert (Hrearm : ∀ m, alarm_of (rearmWakeUnsafe now m) = alarm_of m).
  { intros m'. unfold rearmWakeUnsafe. by destruct (mb_wake_revision m'). }
  destruct id as [id|]; cbn [unblockUnsafe].
  - destruct (status id m); [|done]. case_decide; [done|].
    destruct (match reason with Some _ => _ | None => false end); [done|]. cbn. by rewrite Hrearm.
  - cbv zeta. cbn [fst]. case_decide; rewrite ?Hrearm; by apply fold_alarm.
Qed.
Lemma cancel_alarm id category now m : alarm_of (cancelUnsafe id category now m).1 = alarm_of m.
Proof.
  unfold cancelUnsafe. destruct (status id m); [|done]. cbv zeta.
  destruct (status id (update_commands _ _ m)); [|done]. cbn [fst]. by case_decide.
Qed.
Lemma acknowledge_alarm ack now m : alarm_of (acknowledgeUnsafe ack now m).1 = alarm_of m.
Proof.
  unfold acknowledgeUnsafe. cbv zeta. rewrite <-(expireLeases_alarm now m).
  destruct (_ <? _); [done|]. destruct (find_command _ _); [|done]. case_decide; [done|].
  destruct (terminal _); [done|]. by destruct (negb _ || _).
Qed.
Lemma lifecycle_alarm action fence now m : alarm_of (lifecycleUnsafe action fence now m).1 = alarm_of m.
Proof.
  unfold lifecycleUnsafe. destruct fence; [|apply terminalize_alarm].
  destruct (negb _); [done|]. cbv zeta. destruct (match mb_lifecycle_fence m with Some _ => _ | None => _ end); [done|].
  destruct (match mb_destruction_fence m with Some _ => _ | None => _ end); [done|].
  etrans; [apply terminalize_alarm|done].
Qed.
Lemma transaction_alarm t token watcher request m :
  alarm_of (h_transaction (handler t token watcher request) m).1 = alarm_of m.
Proof.
  destruct request; cbn [handler h_transaction answer fst]; try done.
  - apply reserve_alarm.
  - apply commit_alarm.
  - destruct blockedUntil as [[]|]; [done|apply block_alarm|done].
  - apply unblock_alarm.
  - apply cancel_alarm.
  - apply lease_alarm.
  - apply acknowledge_alarm.
  - destruct action; [apply lifecycle_alarm|done].
  - unfold watch. by destruct (_ && _ && _).
Qed.
Lemma transactionSync_alarm f m : alarm_of (f m).1 = alarm_of m → alarm_of (transactionSync f m).1 = alarm_of m.
Proof. unfold transactionSync. by destruct (f m) as [m' []]. Qed.

(** Requests that do not arm the alarm first add no deadline. *)
Definition no_new_deadline (m m' : Mailbox) : Prop :=
  is_Some (nextAlarmDeadline m') → is_Some (nextAlarmDeadline m).
#[local] Instance no_new_deadline_refl : Reflexive no_new_deadline.
Proof. intros m Hm. exact Hm. Qed.
#[local] Instance no_new_deadline_trans : Transitive no_new_deadline.
Proof. unfold no_new_deadline. intros m1 m2 m3. tauto. Qed.
Lemma min_deadline_some a b : is_Some (min_deadline a b) ↔ is_Some a ∨ is_Some b.
Proof. unfold is_Some. destruct a, b; cbn; naive_solver. Qed.
Lemma rows_deadline_some l :
  is_Some (foldr (λ r d, min_deadline (row_deadline r) d) None l) ↔ ∃ r, r ∈ l ∧ is_Some (row_deadline r).
Proof.
  induction l as [|r l IH]; cbn.
  - split; [by intros [? ?]|by intros (? & ?%elem_of_nil & _)].
  - rewrite min_deadline_some, IH. split.
    + intros [?|(r' & ? & ?)]; [exists r; split; [left|done]|exists r'; split; [by right|done]].
    + intros (r' & [->|?]%elem_of_cons & ?); eauto.
Qed.
Lemma update_no_new_deadline cond f m :
  (∀ r, is_Some (row_deadline (f r)) → is_Some (row_deadline r)) →
  no_new_deadline m (update_commands cond f m).
Proof.
  intros Hf. unfold no_new_deadline, nextAlarmDeadline. rewrite !min_deadline_some, !rows_deadline_some.
  intros [(r & (r0 & -> & Hr0)%list_elem_of_fmap & Hd)|Hw]; [left|by right].
  exists r0. split; [done|]. destruct (cond r0); auto.
Qed.
Lemma block_no_deadline reason now r : is_Some (row_deadline (block_row reason now r)) → is_Some (row_deadline r).
Proof.
  unfold row_deadline. rewrite !min_deadline_some. cbn. rewrite !decide_False by done.
  intros [[? ?]|[[? ?]|?]]; [done|done|]. auto.
Qed.
Lemma unblock_no_deadline now r : is_Some (row_deadline (unblock_row now r)) → is_Some (row_deadline r).
Proof.
  unfold row_deadline. rewrite !min_deadline_some. cbn. rewrite !decide_False by done.
  intros [[? ?]|[[? ?]|?]]; [done|done|]. auto.
Qed.
Lemma accept_no_deadline reason now r : is_Some (row_deadline (accept_row reason now r)) → is_Some (row_deadline r).
Proof.
  unfold row_deadline. rewrite !min_deadline_some. cbn. rewrite !decide_False by (by destruct reason).
  intros [[? ?]|[[? ?]|?]]; [done|done|]. auto.
Qed.
Lemma fold_no_deadline {A} (f : Mailbox → A → Mailbox) l m :
  (∀ m a, no_new_deadline m (f m a)) → no_new_deadline m (foldl f m l).
Proof.
  intros Hf. revert m. induction l as [|a l IH]; intros m; [done|]. cbn. etrans; [apply Hf|apply IH].
Qed.
(** A request that does not arm the alarm before its transaction. *)
Lemma unarmed_no_deadline t token watcher request m :
  is_Some (mb_alarm (h_arm (handler t token watcher request) m))
  ∨ no_new_deadline m (h_transaction (handler t token watcher request) (h_arm (handler t token watcher request) m)).1.
Proof.
  assert (Hb : ∀ cond reason now m, no_new_deadline m (update_commands cond (block_row reason now) m)).
  { intros. apply update_no_new_deadline, block_no_deadline. }
  assert (Hu : ∀ now m id, no_new_deadline m (unblock_command now m id)).
  { intros now m' id. exact (update_no_new_deadline _ _ _ (unblock_no_deadline now)). }
  destruct request; cbn [handler h_arm h_transaction answer]; try (left; apply schedule_alarm); try (by right).
  - destruct (wake_delivery workspaceId accountId); [left; apply schedule_alarm|right].
    unfold id, commitUnsafe. destruct (find_command _ _); [|done]. cbv zeta.
    destruct (_ && _ && _); [done|]. cbn [fst].
    destruct (bool_decide _); exact (update_no_new_deadline _ _ _ (accept_no_deadline _ _)).
  - right. destruct blockedUntil as [[|c s]|]; [done| |done]. cbn [h_arm h_transaction].
    unfold id. destruct commandId as [id'|]; cbn [blockUnsafe].
    + destruct (status _ m); [|done]. destruct (isCloudCommandTerminalState _); [done|].
      repeat (case_decide; [done|]). cbn [fst]. cbv zeta. case_decide; apply Hb.
    + apply fold_no_deadline. intros m' c'. apply Hb.
  - destruct (mb_wake_revision m) as [w|] eqn:Hw; [left; apply schedule_alarm|right].
    assert (Hrearm : ∀ m', mb_wake_revision m' = None → rearmWakeUnsafe (t_transaction t) m' = m').
    { intros m' Hm'. unfold rearmWakeUnsafe. by rewrite Hm'. }
    destruct commandId as [id'|]; cbn [unblockUnsafe].
    + destruct (status _ m); [|done]. case_decide; [done|].
      destruct (match blockedUntil with Some _ => _ | None => false end); [done|]. cbn [fst]. cbv zeta.
      rewrite Hrearm by done. apply Hu.
    + cbv zeta. cbn [fst]. case_decide; [by apply fold_no_deadline|].
      rewrite Hrearm; [by apply fold_no_deadline|].
      rewrite <-Hw. generalize (cr_command_id <$> select (λ r, bool_decide (cr_state r = CS_blocked)
        && match blockedUntil with None => true | Some reason => bool_decide (cr_blocked_until r = Some reason) end) m).
      clear. intros l. revert m. induction l as [|x l IH]; intros m; [done|]. cbn [foldl]. by rewrite IH.
  - destruct action; [left; apply schedule_alarm|by right].
  - right. unfold watch. by destruct (_ && _ && _); intros Hd.
Qed.

(** No command is overdue after an alarm. *)
Lemma min_deadline_Some a b d : min_deadline a b = Some d → a = Some d ∨ b = Some d.
Proof. destruct a as [a|], b as [b|]; cbn; [|by left|by right|done]. intros [= <-]. destruct (Z.min_spec a b) as [[_ ->]|[_ ->]]; auto. Qed.
Lemma expire_deadlines now m r d :
  r ∈ mb_commands (expire now m) → row_deadline r = Some d → now < d.
Proof.
  unfold expire. cbv zeta. set (m1 := changed_all _ _).
  intros (r2 & -> & Hr2)%list_elem_of_fmap.
  apply list_elem_of_lookup in Hr2 as [i Hi2].
  assert (∃ r1, mb_commands m1 !! i = Some r1 ∧ reservation_expired now r1 = false) as (r1 & Hi1 & Hres).
  { destruct (lookup_lt_is_Some_2 (mb_commands m1) i) as [r1 Hi1].
    { apply lookup_lt_Some in Hi2. rewrite expire_leases_map in Hi2. unfold touch in Hi2.
      rewrite (changed_all_same mb_commands) in Hi2 by done. cbn in Hi2. by rewrite length_map in Hi2. }
    exists r1. split; [done|]. unfold m1 in Hi1. rewrite (changed_all_same mb_commands) in Hi1 by done.
    cbn in Hi1. rewrite list_lookup_fmap in Hi1. apply fmap_Some in Hi1 as (r0 & _ & ->).
    by destruct (reservation_expired now r0) eqn:He. }
  destruct (expireLeases_row now m1 i r1 Hi1) as (r2' & Hi2' & _ & Hcase). simplify_eq.
  intros Hd. unfold row_deadline in Hd.
  assert (Hstate : ∀ (b : bool) (f : CommandRow → CommandRow) r, (∀ r, cr_state (f r) = cr_state r) →
            cr_state (if b then f r else r) = cr_state r) by (by intros []).
  apply min_deadline_Some in Hd as [Hd|[Hd|Hd]%min_deadline_Some].
  - case_decide as Hs; [|done]. rewrite Hstate in Hs by done.
    destruct Hcase as [[-> _]|[_ [->| ->]]]; [|done|done].
    injection Hd as <-. unfold reservation_expired in Hres. rewrite Hs in Hres. cbn in Hres.
    apply Z.leb_gt in Hres. unfold RESERVATION_TTL_MS in *. destruct (past_retention now r1); cbn; lia.
  - case_decide as Hs; [|done]. rewrite Hstate in Hs by done.
    destruct Hcase as [[-> He]|[_ [->| ->]]]; [|done|done].
    unfold lease_expired in He. rewrite Hs in He. cbn in He.
    destruct (past_retention now r1); cbn in Hd; rewrite Hd in He; by apply Z.leb_gt in He.
  - destruct (past_retention now r2) eqn:Hp; [cbn in Hd; by destruct (cr_terminal_at r2)|].
    unfold past_retention in Hp. destruct (cr_terminal_at r2) as [x|]; [|done]. cbn in Hd.
    destruct (keeps_payload r2); [|done]. injection Hd as <-. apply Z.leb_gt in Hp. unfold RESULT_RETENTION_MS in *. lia.
Qed.
Lemma fires_deadlines now at_ m r d :
  mb_alarm m = Some at_ → at_ <= now → mb_running m = None →
  r ∈ mb_commands (alarm_fires now m) → row_deadline r = Some d → now < d.
Proof.
  intros Ha Hle Hrun. unfold alarm_fires. rewrite Ha, Hrun. rewrite (proj2 (Z.ltb_ge _ _)) by done. cbv zeta.
  intros Hr. apply (expire_deadlines now (m <| mb_alarm := None |>)).
  set (m1 := expire now (m <| mb_alarm := None |>)) in *. clearbody m1.
  assert (Hnext : ∀ m', mb_commands m' = mb_commands m1 → r ∈ mb_commands (scheduleNext now m') → r ∈ mb_commands m1)
    by (intros m' <-; by rewrite scheduleNext_commands).
  destruct (mb_wake_revision m1); [|by apply (Hnext m1)].
  destruct (dispatchWake && wake_pending m1); [|by apply (Hnext m1)].
  assert (Hf : ∀ w, mb_commands (wake_failed w now m1) = mb_commands m1) by (intros w; unfold wake_failed; by case_decide).
  destruct (mb_wake_workspace_id m1), (mb_wake_account_id m1);
    first [exact (Hnext _ (Hf _) Hr) | exact Hr].
Qed.

(** The alarm is set, or its handler is at work, whenever something is due at some time. *)
Definition watched (m : Mailbox) : Prop := is_Some (nextAlarmDeadline m) → armed m.
Lemma armed_alarm_of m m' : alarm_of m' = alarm_of m → armed m → armed m'.
Proof. unfold alarm_of, armed. by intros [= -> ->]. Qed.
Lemma arm_armed t token watcher request m : armed m → armed (h_arm (handler t token watcher request) m).
Proof.
  assert (Hs : ∀ at_ now, armed m → armed (schedule at_ now m)) by (intros; left; apply schedule_alarm).
  destruct request; cbn; try done; auto.
  - destruct (wake_delivery _ _); auto.
  - by destruct blockedUntil as [[]|].
  - destruct (mb_wake_revision m); auto.
  - destruct action; cbn; auto.
Qed.
Lemma arm_watched t token watcher request m : watched m → watched (h_arm (handler t token watcher request) m).
Proof.
  assert (Hs : ∀ at_ now, watched m → watched (schedule at_ now m)) by (intros a b Hw Hd; left; apply schedule_alarm).
  destruct request; cbn; try done; auto.
  - destruct (wake_delivery _ _); auto.
  - by destruct blockedUntil as [[]|].
  - destruct (mb_wake_revision m); auto.
  - destruct action; cbn; auto.
Qed.
Lemma transaction_watched t token watcher request m :
  watched m →
  watched (transactionSync (h_transaction (handler t token watcher request)) (h_arm (handler t token watcher request) m)).1.
Proof.
  intros Hm Hd.
  apply (armed_alarm_of (h_arm (handler t token watcher request) m));
    [by apply transactionSync_alarm, transaction_alarm|].
  destruct (unarmed_no_deadline t token watcher request m) as [Hset|Hno]; [by left|].
  pose proof (arm_watched t token watcher request m Hm) as Harm.
  set (h := handler t token watcher request) in *.
  assert (Hback : is_Some (nextAlarmDeadline (h_transaction h (h_arm h m)).1) ∨ is_Some (nextAlarmDeadline (h_arm h m))).
  { revert Hd. unfold transactionSync. destruct (h_transaction h (h_arm h m)) as [m' []]; cbn; auto. }
  destruct Hback as [Hback|Hback]; [|by apply Harm]. by apply arm_armed, Hm, Hno.
Qed.
Lemma lost_watched m : watched m → watched (lost m).
Proof.
  intros Hm Hd. assert (Ha : armed m) by exact (Hm Hd). left. unfold lost. cbn.
  destruct Ha as [[a Ha]|[run Hr]]; rewrite ?Ha, ?Hr; cbn.
  - destruct (mb_running m); cbn; eauto.
  - destruct (mb_alarm m); cbn; eauto.
Qed.
Lemma deliver_watched event m : watched m → watched (deliver event m).1.
Proof.
  intros Hm. destruct event; cbn [deliver fst].
  - unfold fetch. set (h := handler t token watcher request).
    pose proof (transaction_watched t token watcher request m Hm) as Ht. fold h in Ht.
    destruct (transactionSync _ _) as [m' r]. unfold finish. cbn [fst snd] in *.
    destruct r; try done; (destruct (h_next h _); [|done]); intros Hd; by apply scheduleNext_armed.
  - apply lost_watched. destruct committed; [by apply transaction_watched|by apply arm_watched].
  - unfold alarm_fires. destruct (mb_alarm m) as [a|] eqn:Ha; [|done]. destruct (mb_running m) eqn:Hrun; [done|].
    destruct (now <? a); [done|]. cbv zeta. set (m1 := expire now _). clearbody m1.
    assert (Hn : ∀ m', watched (scheduleNext now m')) by (intros m' Hd; by apply scheduleNext_armed).
    destruct (mb_wake_revision m1); [|done]. destruct (dispatchWake && wake_pending m1); [|done].
    destruct (mb_wake_workspace_id m1), (mb_wake_account_id m1); try done.
    intros _. right. cbn. by eexists.
  - destruct (mb_running m) eqn:Hrun; [done|]. destruct (mb_alarm m) as [a|] eqn:Ha; [|done].
    destruct (now <? a); [done|]. cbn [fst]. apply lost_watched. intros _. left. cbn. by eexists.
  - unfold wake_answered. destruct (mb_running m); [|done]. intros Hd. by apply scheduleNext_armed.
  - by destruct (mb_woken m) as [|[? ?] ?].
  - by destruct (filter _ _) as [|[? ?] ?].
  - by apply lost_watched.
Qed.
Lemma run_watched events m : watched m → watched (run events m).
Proof.
  revert m. induction events as [|e events IH]; intros m Hm; [done|].
  apply (IH (deliver e m).1). by apply deliver_watched.
Qed.

Lemma finish_next h now x :
  h_next h x.2 = true → x.2 ≠ Thrown → (finish h now x).1 = scheduleNext now x.1.
Proof. unfold finish. destruct x as [m []]; cbn; try done; by intros ->. Qed.
(** What [scheduleNext] leaves alone. *)
Lemma scheduleNext_same {A} (f : Mailbox → A) now m :
  (∀ m a, f (m <| mb_alarm := a |>) = f m) → f (scheduleNext now m) = f m.
Proof.
  intros Hf. unfold scheduleNext, schedule. destruct (nextAlarmDeadline m); [|done].
  by destruct (match mb_alarm m with Some _ => _ | None => true end).
Qed.
Lemma fires_wake now at_ m :
  MailboxInv m → dispatchWake = true → mb_alarm m = Some at_ → at_ <= now → mb_running m = None →
  is_Some (mb_wake_revision m) → wake_pending (alarm_fires now m) = true →
  is_Some (mb_running (alarm_fires now m)).
Proof.
  intros Hi Hd Ha Hle Hrun [w Hw]. unfold alarm_fires. rewrite Ha, Hrun.
  rewrite (proj2 (Z.ltb_ge _ _)) by done. cbv zeta. rewrite Hd. cbn [andb].
  assert (Hw1 : mb_wake_revision (expire now (m <| mb_alarm := None |>)) = Some w).
  { etrans; [exact (changed_all_same mb_wake_revision _ _ (λ _ _, eq_refl))|].
    etrans; [exact (changed_all_same mb_wake_revision _ _ (λ _ _, eq_refl))|done]. }
  destruct (expire_step now _ (proj1 (set_alarm_step None m Hi))) as [Hi1 _].
  set (m1 := expire now (m <| mb_alarm := None |>)) in *. clearbody m1. rewrite Hw1.
  destruct (ti_wake _ (proj1 Hi1)) as ([x Hx] & [y Hy] & _); [by rewrite Hw1|].
  rewrite Hx, Hy. destruct (wake_pending m1) eqn:Hp; [cbn; eauto|].
  rewrite (scheduleNext_same wake_pending); [by rewrite Hp|done].
Qed.
Lemma answered_wake now delivery m :
  MailboxInv m → mb_running m = Some delivery → mb_wake_revision m ≠ Some (run_revision delivery) →
  is_Some (mb_wake_revision m) →
  wake_pending (wake_answered now true m) = true
  ∧ is_Some (mb_wake_next_at (wake_answered now true m))
  ∧ is_Some (mb_alarm (wake_answered now true m)).
Proof.
  intros Hi Hrun Hne Hw. unfold wake_answered. rewrite Hrun.
  set (m1 := (wake_delivered (run_revision delivery) m) <| mb_running := None |>).
  destruct (ti_wake _ (proj1 Hi) Hw) as (_ & _ & [at_ Hat]).
  assert (Hp : wake_pending m1 = true).
  { unfold wake_pending. cbn. by rewrite bool_decide_false. }
  assert (Hd : is_Some (nextAlarmDeadline m1)).
  { unfold nextAlarmDeadline. rewrite Hp, min_deadline_some. right. cbn. rewrite Hat. by eexists. }
  destruct Hd as [d Hd]. destruct (scheduleNext_alarm now m1 d Hd) as (a & Ha & _).
  rewrite (scheduleNext_same wake_pending), (scheduleNext_same mb_wake_next_at), Ha, Hp by done.
  split_and!; [done| |by eexists]. cbn. rewrite Hat. by eexists.
Qed.

(** The alarm after a request that does not set it to the next deadline. *)
Lemma schedule_cases at_ now m :
  mb_alarm (schedule at_ now m) = mb_alarm m ∨ mb_alarm (schedule at_ now m) = Some at_.
Proof. unfold schedule. destruct (match mb_alarm m with Some _ => _ | None => true end); auto. Qed.
Lemma unset_alarm t token watcher request m :
  let x := fetch t token watcher request m in
  h_next (handler t token watcher request) x.2 = false → x.2 ≠ Thrown →
  mb_alarm x.1 = mb_alarm m
  ∨ (∃ e, request = Reserve e) ∧ mb_alarm x.1 = Some (t_schedule t + RESERVATION_TTL_MS).
Proof.
  intros x. subst x. unfold fetch. set (h := handler t token watcher request).
  set (y := transactionSync (h_transaction h) (h_arm h m)). rewrite (proj1 (finish_spec _ _ _)).
  intros Hn Ht. assert ((finish h (t_next t) y).1 = y.1) as ->.
  { unfold finish. destruct y as [m' r]. cbn [fst snd] in *. destruct r; try done; by rewrite Hn. }
  assert (mb_alarm y.1 = mb_alarm (h_arm h m)) as ->.
  { pose proof (transactionSync_alarm _ _ (transaction_alarm t token watcher request (h_arm h m))) as Ha.
    unfold alarm_of in Ha. by injection Ha. }
  subst y. clear Ht. subst h. destruct request; cbn in *; try done; try (by left).
  - destruct (schedule_cases (t_schedule t + RESERVATION_TTL_MS) (t_schedule t) m) as [?|?]; [by left|right; eauto].
  - destruct blockedUntil as [[]|]; try done; by left.
  - destruct action; [done|by left].
Qed.

(** C14: the alarm is never lost: whenever anything is due at some time the alarm is set or
    its handler at work, even if the object was lost in the middle of a request; a request
    that is answered and sets it at its end - every one that may change a deadline, but a
    refused reservation - sets it no later than the next deadline, any other leaves it as it
    was, or, when it is a refused reservation, may move it to the end of the minute that a
    reservation lasts ([refused_reserve_delays_alarm] shows that an overdue one is); after
    it fires no reservation, lease or result is overdue, and the wake is on its way or due
    later; and an answer to a wake settles only the wake it was asked for, so that one
    requested meanwhile is still delivered. *)
Theorem alarm_never_lost m :
  reachable m →
  (is_Some (nextAlarmDeadline m) → is_Some (mb_alarm m) ∨ is_Some (mb_running m))
  ∧ (∀ t token watcher request d, let x := fetch t token watcher request m in
       h_next (handler t token watcher request) x.2 = true → x.2 ≠ Thrown →
       nextAlarmDeadline x.1 = Some d → ∃ a, mb_alarm x.1 = Some a ∧ a <= Z.max (t_next t + 1) d)
  ∧ (∀ t token watcher request, let x := fetch t token watcher request m in
       h_next (handler t token watcher request) x.2 = false → x.2 ≠ Thrown →
       mb_alarm x.1 = mb_alarm m
       ∨ (∃ e, request = Reserve e) ∧ mb_alarm x.1 = Some (t_schedule t + RESERVATION_TTL_MS))
  ∧ (∀ now at_, mb_alarm m = Some at_ → at_ <= now → mb_running m = None →
       (∀ r d, r ∈ mb_commands (alarm_fires now m) → row_deadline r = Some d → now < d)
       ∧ (dispatchWake = true → is_Some (mb_wake_revision m) →
          wake_pending (alarm_fires now m) = true → is_Some (mb_running (alarm_fires now m))))
  ∧ (∀ now delivery, mb_running m = Some delivery → mb_wake_revision m ≠ Some (run_revision delivery) →
       is_Some (mb_wake_revision m) →
       wake_pending (wake_answered now true m) = true
       ∧ is_Some (mb_wake_next_at (wake_answered now true m))
       ∧ is_Some (mb_alarm (wake_answered now true m))).
Proof.
  intros Hr. pose proof (reachable_inv m Hr) as Hi. split_and!.
  - destruct Hr as [events ->]. apply run_watched. by intros [? ?].
  - intros t token watcher request d x. unfold x, fetch.
    rewrite (proj1 (finish_spec _ _ _)). intros Hn Ht. rewrite finish_next, scheduleNext_deadline by done.
    apply scheduleNext_alarm.
  - intros t token watcher request. apply unset_alarm.
  - intros now at_ Ha Hle Hrun. split; [intros r d; by apply (fires_deadlines now at_)|].
    intros Hd Hw. by apply (fires_wake now at_).
  - intros now delivery. by apply answered_wake.
Qed.
End props.

(** ** A concrete run *)
Module mailbox_demo.

#[export] Instance demo_env : MailboxEnv := {| envelopeBytes := λ _, 200%N; dispatchWake := true |}.
Definition at_ (t : Z) : Times := {| t_schedule := t; t_transaction := t; t_next := t |}.
Definition envelope (id : string) : CloudCommandEnvelope :=
  {| env_protocolVersion := 3; env_workspaceId := "w"; env_sessionId := "s"; env_commandId := id;
     env_kind := "messages.send"; env_fingerprint := "f"; env_schemaVersion := 1;
     env_keyVersion := 1; env_destructionFence := num_of_Z 0; env_createdAt := 0; env_iv := "";
     env_ciphertext := ""; env_dependencies := []; env_actor := None |}.
Definition lease_input (generation : Z) : LeaseInput :=
  {| li_runtimeGeneration := num_of_Z generation; li_providerSandboxId := "box";
           li_storageIncarnationId := "disk"; li_destructionFence := num_of_Z 0 |}.
Definition request (t : Z) (token : string) (r : Request) : Event := Fetch (at_ t) (λ _, token) 0 r.

(** A command is reserved, accepted and leased by the first generation, which is lost. *)
Definition history : list Event :=
  [request 1000 "" (Reserve (envelope "c1")); request 1050 "" (Reserve (envelope "c2"));
   request 1100 "" (Commit "c1" None (Some "w") (Some "a")); AlarmFires 1200; WakeAnswered 1300 true;
   request 2000 "t1" (Lease (lease_input 1)); AlarmFires 40000].
Definition demo : Mailbox := run history empty_mailbox.
Lemma demo_reachable : reachable demo.
Proof. by exists history. Qed.

Example demo_states :
  (λ r, (cr_command_id r, cr_state r)) <$> mb_commands demo
  = [("c1", CS_lease_expired_awaiting_fence); ("c2", CS_reserved)].
Proof. vm_compute. reflexivity. Qed.
Lemma mailbox_invariant_reachable_witness : reachable demo ∧ MailboxInv demo.
Proof. split; [apply demo_reachable|]. apply (mailbox_invariant_reachable demo), demo_reachable. Defined.

(** The second generation gets the command and applies it. *)
Definition regranted : RuntimeLease :=
  {| rl_command := envelope "c1"; rl_workspaceSequence := 1; rl_leaseToken := "t2";
     rl_leaseDeadline := 71000; rl_runtimeGeneration := 2; rl_providerSandboxId := "box";
     rl_storageIncarnationId := "disk" |}.
Definition regrant : Mailbox * Reply := fetch (at_ 41000) (λ _, "t2") 0 (Lease (lease_input 2)) demo.
Definition page : LeasePage :=
  {| lp_leases := [regranted]; lp_fenced := false; lp_nonterminalCount := 2;
     lp_mailboxRevision := 8; lp_fenceRequired := false |}.
Lemma leases_are_exclusive_witness :
  reachable demo
  ∧ fetch (at_ 41000) (λ _, "t2") 0 (Lease (lease_input 2)) (run [] demo) = (regrant.1, Leases page)
  ∧ regranted ∈ lp_leases page
  ∧ ∃ r, r ∈ mb_commands regrant.1 ∧ cr_command_id r = "c1" ∧ cr_runtime_generation r = Some 2.
Proof.
  assert (Hreply : fetch (at_ 41000) (λ _, "t2") 0 (Lease (lease_input 2)) (run [] demo)
                   = (regrant.1, Leases page)) by (vm_compute; reflexivity).
  split; [apply demo_reachable|]. split; [exact Hreply|]. split; [left|].
  destruct (leases_are_exclusive demo [] (at_ 41000) (λ _, "t2") 0 (lease_input 2) regrant.1 page regranted)
    as (r & ? & ? & _ & _ & ? & _); [apply demo_reachable|exact Hreply|left|].
  exists r. repeat split; assumption.
Defined.

Definition applied (token : string) : RuntimeAcknowledgment :=
  {| ack_commandId := "c1"; ack_leaseToken := token; ack_fingerprint := "f"; ack_state := Ack_applied;
     ack_category := None; ack_resultIv := Some "iv"; ack_resultCiphertext := Some "done" |}.
Lemma commands_follow_life_witness :
  reachable demo ∧ ∃ r, mb_commands (run [request 50000 "t2" (Lease (lease_input 2));
      request 51000 "" (Acknowledge (applied "t2"))] demo) !! 0%nat = Some r
    ∧ rtc life_step (CS_lease_expired_awaiting_fence, true) (phase r) ∧ phase r = (CS_applied, true).
Proof.
  split; [apply demo_reachable|].
  destruct (commands_follow_life demo [request 50000 "t2" (Lease (lease_input 2));
      request 51000 "" (Acknowledge (applied "t2"))] demo_reachable) as [Hrows _].
  destruct (mb_commands demo !! 0%nat) as [r0|] eqn:Hr0; [|vm_compute in Hr0; discriminate].
  destruct (Hrows 0%nat r0 Hr0) as (r & Hr & _ & _ & _ & _ & Hlife & _).
  exists r. split; [exact Hr|]. vm_compute in Hr0. injection Hr0 as <-. split; [exact Hlife|].
  vm_compute in Hr. injection Hr as <-. reflexivity.
Defined.

Definition later : Mailbox := run [request 41000 "t2" (Lease (lease_input 2))] demo.

Lemma alarm_never_lost_witness :
  reachable demo ∧ (is_Some (mb_alarm demo) ∨ is_Some (mb_running demo))
  ∧ ∃ at_, mb_alarm demo = Some at_
    ∧ ∀ r d, r ∈ mb_commands (alarm_fires 61100 demo) → row_deadline r = Some d → 61100 < d.
Proof.
  destruct (alarm_never_lost demo demo_reachable) as (H1 & _ & _ & H3 & _).
  split; [apply demo_reachable|]. split; [apply H1; vm_compute; eauto|].
  exists 61050. split; [vm_compute; reflexivity|].
  apply (H3 61100 61050); [vm_compute; reflexivity|lia|vm_compute; reflexivity].
Defined.

(** A reservation that is refused arms the alarm for its own sake, in place of one that is
    overdue, and does not set it to the next deadline again. *)
Definition crowded : Mailbox :=
  run [request 1000 "" (Reserve (envelope "c1")); request 1100 "" (Commit "c1" None (Some "w") (Some "a"));
       AlarmFires 1200; WakeAnswered 1300 true; request 2000 "t1" (Lease (lease_input 1))] empty_mailbox.
Definition stale_envelope : CloudCommandEnvelope :=
  {| env_protocolVersion := 3; env_workspaceId := "w"; env_sessionId := "s"; env_commandId := "c1";
     env_kind := "messages.send"; env_fingerprint := "other"; env_schemaVersion := 1;
     env_keyVersion := 1; env_destructionFence := num_of_Z 0; env_createdAt := 0; env_iv := "";
     env_ciphertext := ""; env_dependencies := []; env_actor := None |}.
Example refused_reserve_delays_alarm :
  mb_alarm crowded = Some 32000 ∧ nextAlarmDeadline crowded = Some 32000
  ∧ mb_alarm (fetch (at_ 32001) (λ _, "") 0 (Reserve stale_envelope) crowded).1 = Some 92001
  ∧ nextAlarmDeadline (fetch (at_ 32001) (λ _, "") 0 (Reserve stale_envelope) crowded).1 = Some 32000.
Proof. vm_compute. auto. Qed.
End mailbox_demo.
