(* ===== verification/MailboxClient.v ===== *)
(** * A client that waits for a command of the mailbox

    packages/client-runtime/src/cloud-command-transport.ts: all commands a client waits for
    in a workspace share one watch of the mailbox ([WorkspaceStatusFanout]); an observer
    per command turns the statuses it is shown into the command's result. The answers of
    the control plane are those of [Mailbox]; a request that fails has a cause, which the
    client classifies with what it then learns of the workspace. Decryption of a result is
    left to its caller, and every status carries the fingerprint that this version of the
    mailbox puts there. *)
From stdpp Require Import sorting.
From S2P Require Import Prelude Js Mailbox MailboxInv MailboxSteps.

Local Open Scope Z_scope.

(** ** Observers *)

(** What a terminal status comes to: an error, a result that retention dropped, or the
    encrypted result. *)
Inductive Resolution :=
| TerminalError (state : CloudCommandState) (category : option string)
| ResultExpired (state : CloudCommandState)
| Encrypted (iv ciphertext : string).
Definition resolveTerminal (st : CommandStatus) : Resolution :=
  if decide (cst_state st ≠ CS_applied) then TerminalError (cst_state st) (cst_category st)
  else match cst_resultIv st, cst_resultCiphertext st with
       | Some iv, Some ciphertext => Encrypted iv ciphertext
       | _, _ => ResultExpired (cst_state st)
       end.

Inductive Settlement :=
| Resolved (r : Resolution)
| IdentityCollision
| Failed (state : CloudCommandState) (category : option string).

(** ** Failures of requests *)

Inductive ControlPlaneFailure :=
| Transient
| BlockedFailure (blockedUntil category : string)
| TerminalFailure (state : CloudCommandState) (category : option string).

(** The kinds of cloud-failure-presentation.ts. *)
Inductive CloudFailureKind : Set :=
| github_auth_required | sign_in_required | billing_blocked | update_required
| cloud_access_required | cloud_access_unavailable | credentials_required | workspace_deleted
| workspace_storage_unavailable | interaction_expired | session_unavailable
| outcome_unknown | cancelled | rejected | network.
(** Why a request failed: an error of the transport's own, or anything else with its code
    and the kind that [cloudFailurePresentation] reads off it. *)
Inductive RequestCause :=
| CloudCommandTerminalError (state : CloudCommandState) (category : option string)
| CloudCommandTransportUnavailableError
| OtherCause (code : option string) (kind : option CloudFailureKind).
Definition errorCode (cause : RequestCause) : option string :=
  match cause with OtherCause code _ => code | _ => None end.

Definition staticControlPlaneFailure (cause : RequestCause) : option ControlPlaneFailure :=
  match cause with
  | CloudCommandTerminalError state category => Some (TerminalFailure state category)
  | CloudCommandTransportUnavailableError => Some (BlockedFailure "runtime-compatible" "update-required")
  | OtherCause _ (Some sign_in_required) => Some (BlockedFailure "auth-restored" "sign-in-required")
  | OtherCause _ (Some billing_blocked) => Some (BlockedFailure "billing-restored" "billing-blocked")
  | OtherCause _ (Some update_required) => Some (BlockedFailure "runtime-compatible" "update-required")
  | OtherCause _ (Some credentials_required) => Some (BlockedFailure "manual-retry" "credential-required")
  | OtherCause _ (Some cloud_access_required) => Some (BlockedFailure "manual-retry" "beta-access-required")
  | OtherCause _ (Some cloud_access_unavailable) => Some (BlockedFailure "manual-retry" "beta-access-unavailable")
  | OtherCause _ _ => None
  end.

Record WorkspaceLifecycle := { wl_state : string; wl_desiredState : string }.
Definition destructiveWorkspaceLifecycle (workspace : WorkspaceLifecycle) : bool :=
  bool_decide (wl_state workspace ∈ ["archiving"; "archived"; "deleting"; "deleted"])
  || bool_decide (wl_desiredState workspace ∈ ["archived"; "deleted"]).
Definition workspaceUnavailable : ControlPlaneFailure :=
  TerminalFailure CS_cancelled (Some "workspace-deleted").

(** [workspace] is what the request for the workspace came to, had it to be made. *)
Definition classifyControlPlaneFailure (cause : RequestCause)
    (workspace : WorkspaceLifecycle + RequestCause) : ControlPlaneFailure :=
  match staticControlPlaneFailure cause with
  | Some classified => classified
  | None =>
      if negb (bool_decide (errorCode cause = Some "not-found"))
         && negb (bool_decide (errorCode cause = Some "conflict")) then Transient
      else match workspace with
           | inl workspace =>
               if destructiveWorkspaceLifecycle workspace then workspaceUnavailable
               else BlockedFailure "runtime-compatible" "update-required"
           | inr workspaceCause =>
               match staticControlPlaneFailure workspaceCause with
               | Some workspaceFailure => workspaceFailure
               | None => if decide (errorCode workspaceCause = Some "not-found")
                         then workspaceUnavailable else Transient
               end
           end
  end.

(** An observer: the command it waits for, its acceptance, what it saw last, whether its own
    request for the status was answered, and how it ended. *)
Record Observer := {
  ob_commandId : string;
  ob_fingerprint : string;
  ob_acceptedSequence : Z;
  ob_acceptedRevision : Z;
  ob_latestRevision : Z;
  ob_latestStatus : option CommandStatus;
  ob_asked : bool;
  ob_settled : option Settlement }.
#[export] Instance Observer_eta : Settable Observer := λ o,
  Build_Observer (ob_commandId o) (ob_fingerprint o) (ob_acceptedSequence o) (ob_acceptedRevision o)
    (ob_latestRevision o) (ob_latestStatus o) (ob_asked o) (ob_settled o).

Definition assertStatusEnvelopeIdentity (st : CommandStatus) (o : Observer) : bool :=
  bool_decide (cst_commandId st = ob_commandId o) && bool_decide (cst_fingerprint st = ob_fingerprint o).
Definition observe (st : CommandStatus) (o : Observer) : Observer :=
  if bool_decide (is_Some (ob_settled o)) || (cst_revision st <? ob_latestRevision o) then o
  else if negb (assertStatusEnvelopeIdentity st o) then o <| ob_settled := Some IdentityCollision |>
  else
    let seen := o <| ob_latestRevision := cst_revision st |> <| ob_latestStatus := Some st |> in
    if isCloudCommandTerminalState (cst_state st)
    then seen <| ob_settled := Some (Resolved (resolveTerminal st)) |>
    else seen.
Definition blocked_status (now : Z) (blockedUntil category : string) (o : Observer) : CommandStatus :=
  {| cst_commandId := ob_commandId o;
     cst_workspaceSequence := default (ob_acceptedSequence o) (cst_workspaceSequence <$> ob_latestStatus o);
     cst_revision := Z.max (default 0 (cst_revision <$> ob_latestStatus o)) (ob_acceptedRevision o);
     cst_fingerprint := ob_fingerprint o; cst_state := CS_blocked;
     cst_everLeased := default false (cst_everLeased <$> ob_latestStatus o);
     cst_updatedAt := now; cst_acceptedAt := None; cst_category := Some category;
     cst_blockedUntil := Some blockedUntil; cst_resultIv := None; cst_resultCiphertext := None |}.
Definition observeFailure (failure : ControlPlaneFailure) (now : Z) (o : Observer) : Observer :=
  if bool_decide (is_Some (ob_settled o)) then o
  else match failure with
       | Transient => o
       | TerminalFailure state category => o <| ob_settled := Some (Failed state category) |>
       | BlockedFailure blockedUntil category => observe (blocked_status now blockedUntil category o) o
       end.

(** ** The watch they share *)

(** Settled observers have unsubscribed; they stay in the list with their result. The
    failures are a record of the requests that failed so far, for the theorems. *)
Record Fanout := {
  fo_observers : list Observer;
  fo_revision : option Z;
  fo_failures : list (RequestCause * (WorkspaceLifecycle + RequestCause)) }.
#[export] Instance Fanout_eta : Settable Fanout := λ f,
  Build_Fanout (fo_observers f) (fo_revision f) (fo_failures f).
Definition empty_fanout : Fanout := {| fo_observers := []; fo_revision := None; fo_failures := [] |}.

Definition subscribe (o : Observer) (afterRevision : Z) (f : Fanout) : Fanout :=
  f <| fo_observers := fo_observers f ++ [o] |>
    <| fo_revision := fo_revision f ?? Some (Z.max 0 afterRevision) |>.
Definition publish (f : Fanout) (st : CommandStatus) : Fanout :=
  f <| fo_observers ::= map (λ o, if decide (ob_commandId o = cst_commandId st) then observe st o else o) |>.
Definition watched_ids (f : Fanout) : list string :=
  remove_dups (ob_commandId <$> filter (λ o, ob_settled o = None) (fo_observers f)).
(** A page of changes, with the statuses that [refreshAll] asked for after a reset. *)
Definition receive (page : CommandChangePage) (refreshed : list CommandStatus) (f : Fanout) : Fanout :=
  let published := foldl publish f (if pg_resetRequired page then refreshed else pg_changes page) in
  published <| fo_revision := Some (Z.max (default 0 (fo_revision f)) (pg_nextRevision page)) |>.
Definition watch_failed (cause : RequestCause) (workspace : WorkspaceLifecycle + RequestCause)
    (now : Z) (f : Fanout) : Fanout :=
  f <| fo_observers ::= map (observeFailure (classifyControlPlaneFailure cause workspace) now) |>
    <| fo_failures ::= cons (cause, workspace) |>.
(** An observer's own request for the status of its command, answered or failed. *)
Definition asked (i : nat) (st : CommandStatus) (f : Fanout) : Fanout :=
  f <| fo_observers ::= alter (λ o, (observe st o) <| ob_asked := true |>) i |>.
Definition ask_failed (i : nat) (cause : RequestCause) (workspace : WorkspaceLifecycle + RequestCause)
    (now : Z) (f : Fanout) : Fanout :=
  f <| fo_observers ::= alter (observeFailure (classifyControlPlaneFailure cause workspace) now) i |>
    <| fo_failures ::= cons (cause, workspace) |>.

(** ** Client and mailbox together *)

Section system.
Context `{MailboxEnv}.

(** The statuses [refreshAll] gets, each read some events later. *)
Fixpoint refreshAll (late : list (list Event)) (commandIds : list string) (m : Mailbox)
  : Mailbox * option (list CommandStatus) :=
  match commandIds with
  | [] => (m, Some [])
  | id :: rest =>
      let m1 := run (default [] (head late)) m in
      match status id m1 with
      | None => (m1, None)
      | Some st =>
          let '(m2, sts) := refreshAll (tail late) rest m1 in (m2, cons st <$> sts)
      end
  end.
(** A watch that is answered from [m]: the loop of [run]. *)
Definition poll (late : list (list Event)) (m : Mailbox) (f : Fanout) : Mailbox * Fanout :=
  let page := read_changes (default 0 (fo_revision f)) m in
  if pg_resetRequired page
  then match refreshAll late (watched_ids f) m with
       | (m', Some refreshed) => (m', receive page refreshed f)
       | (m', None) => (m', f)
       end
  else (m, receive page [] f).

(** What may happen: anything to the mailbox, a new observer of an accepted command, an
    answer to an observer's own request, an answer to the watch, failures of requests. *)
Inductive client_step : Mailbox * Fanout → Mailbox * Fanout → Prop :=
| step_mailbox event m f : client_step (m, f) ((deliver event m).1, f)
| step_subscribe o afterRevision m f :
    afterRevision <= mb_revision m → is_Some (find_command (ob_commandId o) m) →
    ob_acceptedRevision o <= status_revision (ob_commandId o) m →
    ob_latestRevision o = -1 → ob_latestStatus o = None → ob_asked o = false → ob_settled o = None →
    client_step (m, f) (m, subscribe o afterRevision f)
| step_asked i o st m f :
    fo_observers f !! i = Some o → status (ob_commandId o) m = Some st →
    client_step (m, f) (m, asked i st f)
| step_ask_failed i cause workspace now m f :
    client_step (m, f) (m, ask_failed i cause workspace now f)
| step_poll late m f : client_step (m, f) (poll late m f)
| step_watch_failed cause workspace now m f :
    client_step (m, f) (m, watch_failed cause workspace now f).
(** Answers to the watch with nothing in between. *)
Fixpoint polls (n : nat) (m : Mailbox) (f : Fanout) : Fanout :=
  match n with
  | O => f
  | S n => polls n m (poll [] m f).2
  end.
End system.
