(* ===== verification/MailboxClientProps.v ===== *)
(** * A client learns what its commands came to

    The invariant of client and mailbox together, and what follows: a client reports only
    what the mailbox settled, and the watch brings every outcome. *)
From stdpp Require Import sorting.
From S2P Require Import Prelude Js Mailbox MailboxInv MailboxRows MailboxSteps MailboxProps MailboxClient.

Local Open Scope Z_scope.

Section client.
Context `{MailboxEnv}.

(** ** What a status says of its row *)

(** The outcome a resolution reports is the row's, until retention drops the outcome. *)
Definition agrees (res : Resolution) (r : CommandRow) : Prop :=
  match res with
  | TerminalError state category =>
      cr_state r = state ∧ state ≠ CS_applied ∧ (cr_category r = category ∨ cr_envelope r = None)
  | ResultExpired state => cr_state r = state ∧ state = CS_applied
  | Encrypted iv ciphertext =>
      cr_state r = CS_applied
      ∧ (cr_result_iv r = Some iv ∧ cr_result_ciphertext r = Some ciphertext ∨ cr_envelope r = None)
  end.
(** A status the mailbox gave at some time. *)
Definition genuine (m : Mailbox) (st : CommandStatus) : Prop :=
  ∃ r, r ∈ mb_commands m ∧ cr_command_id r = cst_commandId st ∧ cr_fingerprint r = cst_fingerprint st
    ∧ cst_revision st <= status_revision (cst_commandId st) m
    ∧ (isCloudCommandTerminalState (cst_state st) = true → terminal r = true ∧ agrees (resolveTerminal st) r).

Lemma agrees_status r n : agrees (resolveTerminal (row_status r n)) r.
Proof.
  unfold resolveTerminal. cbn. case_decide as Ha; cbn; [auto|].
  assert (cr_state r = CS_applied) by (by destruct (decide (cr_state r = CS_applied))).
  destruct (cr_result_iv r) eqn:?, (cr_result_ciphertext r) eqn:?; cbn; auto.
Qed.
Lemma agrees_move res r r' : row_move r r' → terminal r = true → agrees res r → agrees res r'.
Proof.
  intros Hm Ht. pose proof (row_move_terminal _ _ Hm Ht) as Hp. injection Hp as Hs _.
  pose proof (rm_final _ _ Hm Ht) as Hf. pose proof (row_move_dropped _ _ Hm) as Hd. unfold outcome in Hf.
  destruct res; cbn; rewrite Hs; [|done|].
  - intros (? & ? & Hc). split_and!; [done..|]. destruct Hc; [|auto]. destruct Hf as [Hf|]; [left; congruence|auto].
  - intros (? & Hc). split; [done|]. destruct Hc as [[? ?]|]; [|auto].
    destruct Hf as [Hf|]; [left; split; congruence|auto].
Qed.

Lemma status_revision_of m id n : mb_command_revision m !! id = Some n → status_revision id m = n.
Proof. unfold status_revision. by intros ->. Qed.
Lemma status_revision_none m id : LogInv m → mb_command_revision m !! id = None → status_revision id m = 0.
Proof.
  intros Hl Hn. unfold status_revision, last_change. rewrite Hn. cbn.
  rewrite filter_none; [done|]. intros c Hc <-. destruct (gi_change _ Hl c Hc) as (_ & n & ? & _). congruence.
Qed.
Lemma status_revision_bounds m id : LogInv m → 0 <= status_revision id m <= mb_revision m.
Proof.
  intros Hl. destruct (mb_command_revision m !! id) as [n|] eqn:Hn.
  - rewrite (status_revision_of _ _ _ Hn). pose proof (gi_revision _ Hl id n Hn). lia.
  - rewrite (status_revision_none _ _ Hl Hn). pose proof (gi_positive _ Hl). lia.
Qed.
Lemma status_revision_moves m m' id :
  LogInv m → LogInv m' → moves m m' → status_revision id m <= status_revision id m'.
Proof.
  intros Hl Hl' Hm. destruct (mb_command_revision m !! id) as [n|] eqn:Hn.
  - destruct (mv_revisions _ _ Hm id n Hn) as (n' & Hn' & ?).
    by rewrite (status_revision_of _ _ _ Hn), (status_revision_of _ _ _ Hn').
  - rewrite (status_revision_none _ _ Hl Hn). by apply status_revision_bounds.
Qed.
Lemma told_revision m id m' : told m id m' → mb_revision m < status_revision id m'.
Proof. intros (n & Hn & ?). by rewrite (status_revision_of _ _ _ Hn). Qed.

Lemma status_genuine m id st : MailboxInv m → status id m = Some st → cst_commandId st = id ∧ genuine m st.
Proof.
  intros [Ht Hl] (r & [Hr Hid]%find_command_spec & ->)%status_spec. split; [done|].
  exists r. cbn. rewrite Hid. split_and!; [done..|]. intros Hterm. split; [done|]. apply agrees_status.
Qed.
Lemma genuine_moves m m' st : MailboxInv m → MailboxInv m' → moves m m' → genuine m st → genuine m' st.
Proof.
  intros [_ Hl] [_ Hl'] Hm (r & Hr & Hid & Hfp & Hrev & Hterm).
  apply list_elem_of_lookup in Hr as [i Hi]. destruct (mv_rows _ _ Hm i r Hi) as (r' & Hi' & Hmove & _).
  exists r'. rewrite (rm_id _ _ Hmove), (rm_fingerprint _ _ Hmove). split_and!; [by eapply list_elem_of_lookup_2|done..| |].
  - etrans; [done|]. by apply status_revision_moves.
  - intros Ht. destruct (Hterm Ht) as [? ?]. split; [by eapply row_move_keeps_terminal|by eapply agrees_move].
Qed.

Lemma ids_moves m m' id : moves m m' → id ∈ ids m → id ∈ ids m'.
Proof.
  intros Hm (r & -> & (i & Hi)%list_elem_of_lookup)%list_elem_of_fmap.
  destruct (mv_rows _ _ Hm i r Hi) as (r' & Hi' & Hmove & _). rewrite <-(rm_id _ _ Hmove).
  by eapply elem_of_ids, list_elem_of_lookup_2.
Qed.

(** ** Observers *)

Record ob_ok (m : Mailbox) (o : Observer) : Prop := {
  oo_known : ob_commandId o ∈ ids m;
  oo_latest : ob_latestRevision o <= status_revision (ob_commandId o) m;
  oo_accepted : ob_acceptedRevision o <= status_revision (ob_commandId o) m;
  oo_status : ∀ st, ob_latestStatus o = Some st → cst_revision st = ob_latestRevision o;
  oo_settled : ∀ res, ob_settled o = Some (Resolved res) →
    ∃ r, r ∈ mb_commands m ∧ cr_command_id r = ob_commandId o ∧ terminal r = true ∧ agrees res r;
  oo_collision : ob_settled o = Some IdentityCollision →
    ∃ r, r ∈ mb_commands m ∧ cr_command_id r = ob_commandId o ∧ cr_fingerprint r ≠ ob_fingerprint o }.

Lemma observe_ok m st o :
  cst_commandId st = ob_commandId o → genuine m st → ob_ok m o → ob_ok m (observe st o).
Proof.
  intros Hid (r & Hr & Hrid & Hfp & Hrev & Hterm) [Hk Hl Ha Hs Hset Hcol]. unfold observe.
  destruct (_ || _); [done|]. destruct (negb _) eqn:Hne; cbv zeta.
  { split; cbn; try done. intros _. exists r. split_and!; [done|congruence|]. intros Heq.
    unfold assertStatusEnvelopeIdentity in Hne. rewrite !bool_decide_true in Hne by congruence. done. }
  destruct (isCloudCommandTerminalState (cst_state st)) eqn:Ht.
  - split; cbn; [done|by rewrite <-Hid|done|by intros ? [= <-]| |done].
    intros res [= <-]. destruct (Hterm eq_refl) as [? ?]. exists r. rewrite <-Hid. done.
  - split; cbn; [done|by rewrite <-Hid|done|by intros ? [= <-]|done|done].
Qed.
Lemma observe_failure_ok m failure now o : LogInv m → ob_ok m o → ob_ok m (observeFailure failure now o).
Proof.
  intros Hlog [Hk Hl Ha Hs Hset Hcol]. unfold observeFailure. destruct (bool_decide _); [done|].
  destruct failure as [|reason category|state category]; [done| |by split].
  unfold observe. destruct (_ || _); [done|].
  assert (assertStatusEnvelopeIdentity (blocked_status now reason category o) o = true) as ->
    by (unfold assertStatusEnvelopeIdentity; by rewrite !bool_decide_true).
  cbv zeta. cbn. split; cbn; [done| |done|by intros ? [= <-]|done|done].
  pose proof (status_revision_bounds m (ob_commandId o) Hlog).
  destruct (ob_latestStatus o) as [st|] eqn:Hst; cbn; [rewrite (Hs st eq_refl); lia|lia].
Qed.
Lemma ob_ok_moves m m' o : MailboxInv m → MailboxInv m' → moves m m' → ob_ok m o → ob_ok m' o.
Proof.
  intros [_ Hlog] [_ Hlog'] Hm [Hk Hl Ha Hs Hset Hcol].
  pose proof (status_revision_moves m m' (ob_commandId o) Hlog Hlog' Hm).
  split; [by eapply ids_moves|lia|lia|done| |].
  - intros res Hres. destruct (Hset res Hres) as (r & Hr & Hid & Ht & Hag).
    apply list_elem_of_lookup in Hr as [i Hi]. destruct (mv_rows _ _ Hm i r Hi) as (r' & Hi' & Hmove & _).
    exists r'. rewrite (rm_id _ _ Hmove). split_and!; [by eapply list_elem_of_lookup_2|done|..].
    + by eapply row_move_keeps_terminal.
    + by eapply agrees_move.
  - intros Hc. destruct (Hcol Hc) as (r & Hr & Hid & Hne).
    apply list_elem_of_lookup in Hr as [i Hi]. destruct (mv_rows _ _ Hm i r Hi) as (r' & Hi' & Hmove & _).
    exists r'. rewrite (rm_id _ _ Hmove), (rm_fingerprint _ _ Hmove). by split_and!; [eapply list_elem_of_lookup_2|..].
Qed.

Lemma observe_id st o : ob_commandId (observe st o) = ob_commandId o.
Proof. unfold observe. destruct (_ || _); [done|]. destruct (negb _); [done|]. cbv zeta. by destruct (isCloudCommandTerminalState _). Qed.
Lemma observe_asked st o : ob_asked (observe st o) = ob_asked o.
Proof. unfold observe. destruct (_ || _); [done|]. destruct (negb _); [done|]. cbv zeta. by destruct (isCloudCommandTerminalState _). Qed.
Lemma observe_fingerprint st o : ob_fingerprint (observe st o) = ob_fingerprint o.
Proof. unfold observe. destruct (_ || _); [done|]. destruct (negb _); [done|]. cbv zeta. by destruct (isCloudCommandTerminalState _). Qed.
Lemma observe_settled st o : is_Some (ob_settled o) → observe st o = o.
Proof. intros Hs. unfold observe. by rewrite bool_decide_true. Qed.
Lemma observe_settles st o :
  ob_latestRevision o <= cst_revision st → isCloudCommandTerminalState (cst_state st) = true →
  is_Some (ob_settled (observe st o)).
Proof.
  intros Hle Ht. unfold observe. destruct (bool_decide (is_Some (ob_settled o))) eqn:Hb; cbn [orb].
  { by apply bool_decide_eq_true in Hb. }
  rewrite (proj2 (Z.ltb_ge _ _)) by done. destruct (negb _); [by eexists|]. cbv zeta. rewrite Ht. by eexists.
Qed.
Lemma observe_resolves st o :
  ob_settled o = None → cst_commandId st = ob_commandId o → cst_fingerprint st = ob_fingerprint o →
  ob_latestRevision o <= cst_revision st → isCloudCommandTerminalState (cst_state st) = true →
  ob_settled (observe st o) = Some (Resolved (resolveTerminal st)).
Proof.
  intros Hn Hid Hfp Hle Ht. unfold observe. rewrite Hn.
  rewrite (bool_decide_false (is_Some None)) by (by intros [? ?]).
  rewrite (proj2 (Z.ltb_ge _ _)) by done. unfold assertStatusEnvelopeIdentity.
  rewrite !bool_decide_true by done. cbn. by rewrite Ht.
Qed.

(** What a sequence of published statuses makes of one observer. *)
Definition observe_all (sts : list CommandStatus) (o : Observer) : Observer :=
  foldl (λ o st, if decide (ob_commandId o = cst_commandId st) then observe st o else o) o sts.
Lemma publish_all sts f :
  foldl publish f sts = f <| fo_observers := map (observe_all sts) (fo_observers f) |>.
Proof.
  revert f. induction sts as [|st sts IH]; intros f; cbn [foldl].
  - destruct f as [obs rev]. cbn. f_equal. symmetry. apply map_id.
  - rewrite IH. unfold publish. destruct f as [obs rev]. cbn. by rewrite map_map.
Qed.
Lemma observe_all_keeps sts o :
  ob_commandId (observe_all sts o) = ob_commandId o ∧ ob_asked (observe_all sts o) = ob_asked o
  ∧ ob_fingerprint (observe_all sts o) = ob_fingerprint o.
Proof.
  revert o. induction sts as [|st sts IH]; intros o; [done|]. unfold observe_all in *. cbn [foldl].
  destruct (IH (if decide (ob_commandId o = cst_commandId st) then observe st o else o)) as (-> & -> & ->).
  case_decide; [|done]. by rewrite observe_id, observe_asked, observe_fingerprint.
Qed.
Lemma observe_all_other sts o :
  (∀ st, st ∈ sts → cst_commandId st ≠ ob_commandId o) → observe_all sts o = o.
Proof.
  unfold observe_all. induction sts as [|st sts IH]; intros Hne; [done|]. cbn [foldl].
  rewrite decide_False; [apply IH; intros; apply Hne; by right|]. intros Heq. apply (Hne st); [left|done].
Qed.
Lemma observe_all_settled sts o : is_Some (ob_settled o) → observe_all sts o = o.
Proof.
  intros Hs. unfold observe_all. induction sts as [|st sts IH]; [done|]. cbn [foldl].
  case_decide; [by rewrite observe_settled|done].
Qed.
Lemma observe_all_ok m sts o :
  (∀ st, st ∈ sts → genuine m st) → ob_ok m o → ob_ok m (observe_all sts o).
Proof.
  revert o. induction sts as [|st sts IH]; intros o Hg Ho; [done|]. unfold observe_all. cbn [foldl].
  apply IH; [intros; apply Hg; by right|]. case_decide; [|done]. apply observe_ok; [done|apply Hg; left|done].
Qed.
(** A terminal status among them settles it. *)
Lemma observe_all_settles sts st o :
  st ∈ sts → cst_commandId st = ob_commandId o →
  (∀ st', st' ∈ sts → cst_commandId st' = ob_commandId o → st' = st) →
  ob_latestRevision o <= cst_revision st → isCloudCommandTerminalState (cst_state st) = true →
  ob_settled (observe_all sts o) = ob_settled (observe st o) ∧ is_Some (ob_settled (observe st o)).
Proof.
  intros Hin Hid Huniq Hle Ht. split; [|by apply observe_settles].
  induction sts as [|st' sts IH]; [by apply elem_of_nil in Hin|]. unfold observe_all. cbn [foldl].
  case_decide as Hd.
  - rewrite (Huniq st') by (by try left). fold (observe_all sts (observe st o)).
    by rewrite observe_all_settled by by apply observe_settles.
  - apply elem_of_cons in Hin as [->|Hin]; [by destruct Hd|]. apply IH; [done|].
    intros; apply Huniq; [by right|done].
Qed.

(** ** Pages *)

Lemma sorted_take (l : list (Z * string)) k x y :
  StronglySorted (λ c d, c.1 < d.1) l → x ∈ l → last (take k l) = Some y → x.1 <= y.1 → x ∈ take k l.
Proof.
  intros Hs Hx Hy Hle. rewrite <-(take_drop k l) in Hx. apply elem_of_app in Hx as [|Hx]; [done|].
  rewrite <-(take_drop k l) in Hs.
  assert (y.1 < x.1); [|lia]. eapply (StronglySorted_app_1_elem_of (λ c d : Z * string, c.1 < d.1)); [done| |done].
  by apply last_Some_elem_of.
Qed.
Lemma latest_sorted after m : LogCore m → StronglySorted (λ c d : Z * string, c.1 < d.1) (latest_changes after m).
Proof. intros Hl. unfold latest_changes. apply StronglySorted_filter, StronglySorted_filter, Hl. Qed.
Lemma page_next_le after m : LogCore m → pg_nextRevision (read_changes after m) <= mb_revision m.
Proof.
  intros Hl. unfold read_changes. cbv zeta. destruct (_ && _); [done|]. cbn [pg_nextRevision].
  destruct (last _) as [c|] eqn:Hlast; [|done]. apply last_Some_elem_of, elem_of_take in Hlast as (i & Hi & _).
  apply list_elem_of_lookup_2, latest_elem in Hi as [Hc _]. by apply (gi_change _ Hl c).
Qed.
Lemma page_genuine after m st :
  MailboxInv m → pg_resetRequired (read_changes after m) = false → st ∈ pg_changes (read_changes after m) →
  status (cst_commandId st) m = Some st.
Proof.
  intros Hi. unfold read_changes. cbv zeta. destruct (_ && _); [done|]. cbn [pg_changes]. intros _.
  intros (c & _ & Hst)%list_elem_of_omap. by destruct (status_genuine m _ st Hi Hst) as [-> _].
Qed.
(** A page without a reset has every command that changed after the given revision and
    last up to the page's. *)
Lemma page_complete after m id n :
  MailboxInv m → pg_resetRequired (read_changes after m) = false →
  mb_command_revision m !! id = Some n → after < n →
  after < pg_nextRevision (read_changes after m)
  ∧ (n <= pg_nextRevision (read_changes after m) →
     ∃ st, status id m = Some st ∧ st ∈ pg_changes (read_changes after m)).
Proof.
  intros [Ht Hl] Hreset Hn Hlt. destruct (gi_revision _ Hl id n Hn) as (_ & Hid & Hcase).
  unfold read_changes in *. cbv zeta in *. destruct (_ && _) eqn:Hr; [done|]. clear Hreset. cbn [pg_nextRevision pg_changes].
  assert (Hin : (n, id) ∈ mb_changes m).
  { destruct Hcase as [|[Hne Hold]]; [done|]. destruct (mb_changes m) as [|c l]; [done|]. exfalso.
    pose proof (Hold c (list_elem_of_here _ _)). pose proof (gi_positive _ Hl).
    pose proof (proj1 (gi_revision _ Hl id n Hn)).
    apply andb_false_iff in Hr as [Hr|Hr]; [apply Z.ltb_ge in Hr|apply Z.ltb_ge in Hr]; lia. }
  assert (Hlatest : (n, id) ∈ latest_changes after m).
  { unfold latest_changes. apply list_elem_of_filter. split; [|by apply list_elem_of_filter].
    rewrite Exists_exists. intros (d & [_ Hd]%list_elem_of_filter & Hd2 & Hlt2). cbn in Hd2, Hlt2.
    destruct (gi_change _ Hl d Hd) as (_ & n' & Hn' & ?). rewrite Hd2, Hn in Hn'. injection Hn' as <-. lia. }
  set (l := latest_changes after m) in *.
  assert (Hlast : is_Some (last (take CLOUD_COMMAND_WATCH_MAX_CHANGES l))).
  { destruct l as [|c l']; [by apply elem_of_nil in Hlatest|]. apply last_is_Some. done. }
  destruct Hlast as [y Hy]. rewrite Hy. cbn. split.
  - apply last_Some_elem_of, elem_of_take in Hy as (i & Hi & _).
    by apply list_elem_of_lookup_2, latest_elem in Hi as [_ ?].
  - intros Hle. destruct (status_some id m Hid) as [st Hst]. exists st. split; [done|].
    apply list_elem_of_omap. exists (n, id). split; [|done].
    exact (sorted_take l CLOUD_COMMAND_WATCH_MAX_CHANGES (n, id) y (latest_sorted after m Hl) Hlatest Hy Hle).
Qed.

(** ** Refreshes *)

Definition read_between (m m' : Mailbox) (id : string) (st : CommandStatus) : Prop :=
  cst_commandId st = id ∧ ∃ mk, MailboxInv mk ∧ moves m mk ∧ moves mk m' ∧ status id mk = Some st.
Lemma refreshAll_spec late ids m m' sts :
  MailboxInv m → refreshAll late ids m = (m', sts) →
  MailboxInv m' ∧ moves m m' ∧ ∀ l, sts = Some l → Forall2 (read_between m m') ids l.
Proof.
  revert late m m' sts. induction ids as [|id ids IH]; intros late m m' sts Hi; cbn [refreshAll].
  { intros [= <- <-]. split_and!; [done|done|]. intros l [= <-]. constructor. }
  cbv zeta. destruct (run_step (default [] (head late)) m Hi) as [Hi1 Hm1].
  set (m1 := run (default [] (head late)) m) in *. clearbody m1.
  destruct (status id m1) as [st|] eqn:Hst; [|by intros [= <- <-]].
  destruct (refreshAll (tail late) ids m1) as [m2 sts2] eqn:Hrest. intros [= <- <-].
  destruct (IH _ _ _ _ Hi1 Hrest) as (Hi2 & Hm2 & Hall).
  split_and!; [done|by etrans|]. intros l Hl. destruct sts2 as [l2|]; [|done]. injection Hl as <-.
  constructor.
  - split; [by apply (status_genuine m1)|]. by exists m1.
  - eapply Forall2_impl; [by apply Hall|]. intros id' st' (? & mk & ? & ? & ? & ?).
    split; [done|]. exists mk. split_and!; [done|by etrans|done|done].
Qed.
Lemma read_between_genuine m m' id st : MailboxInv m' → read_between m m' id st → genuine m' st.
Proof.
  intros Hi (Hid & mk & Hik & _ & Hm & Hst). destruct (status_genuine mk id st Hik Hst) as [_ Hg].
  by eapply genuine_moves.
Qed.

(** ** Client and mailbox *)

Definition rev (f : Fanout) : Z := default 0 (fo_revision f).
(** An observer that asked once is still to be told of an outcome it has not seen. *)
Definition untold (m : Mailbox) (revision : Z) (o : Observer) : Prop :=
  ob_settled o = None → ∀ r, r ∈ mb_commands m →
  cr_command_id r = ob_commandId o → terminal r = true → revision < status_revision (ob_commandId o) m.
Definition pending (m : Mailbox) (revision : Z) (o : Observer) : Prop :=
  ob_asked o = true → untold m revision o.
Record client_inv (m : Mailbox) (f : Fanout) : Prop := {
  ci_mailbox : MailboxInv m;
  ci_rev : 0 <= rev f <= mb_revision m;
  ci_started : fo_observers f ≠ [] → is_Some (fo_revision f);
  ci_observer : ∀ o, o ∈ fo_observers f → ob_ok m o ∧ pending m (rev f) o }.

Lemma pending_moves m m' R o :
  MailboxInv m → MailboxInv m' → moves m m' → R <= mb_revision m → pending m R o → pending m' R o.
Proof.
  intros Hi Hi' Hm HR Hp Hasked Hset r' Hr' Hid Ht.
  apply list_elem_of_lookup in Hr' as [i Hi'2]. destruct (mv_new _ _ Hm i r' Hi'2) as [[r Hr]|[Htold _]].
  - destruct (mv_rows _ _ Hm i r Hr) as (r2 & Hr2 & Hmove & Hq). simplify_eq.
    rewrite (rm_id _ _ Hmove) in Hid. destruct Hq as [[Hv _]|Htold].
    + assert (terminal r = true) as Htr.
      { unfold terminal, view in *. by injection Hv as <- _ _ _. }
      pose proof (Hp Hasked Hset r (list_elem_of_lookup_2 _ _ _ Hr) Hid Htr).
      pose proof (status_revision_moves m m' (ob_commandId o) (proj2 Hi) (proj2 Hi') Hm). lia.
    + apply told_revision in Htold. rewrite Hid in Htold. lia.
  - apply told_revision in Htold. rewrite Hid in Htold. lia.
Qed.
Lemma client_inv_mailbox m m' f : step m m' → client_inv m f → client_inv m' f.
Proof.
  intros Hs [Hi Hrev Hst Ho]. destruct (Hs Hi) as [Hi' Hm]. split; [done| |done|].
  - pose proof (mv_revision _ _ Hm). lia.
  - intros o Hin. destruct (Ho o Hin) as [Hok Hp]. split; [exact (ob_ok_moves m m' o Hi Hi' Hm Hok)|exact (pending_moves m m' (rev f) o Hi Hi' Hm (proj2 Hrev) Hp)].
Qed.
(** An observer that is shown the current status of its command. *)
Lemma pending_shown m R sts st o :
  MailboxInv m → ob_ok m o → status (ob_commandId o) m = Some st → st ∈ sts →
  (∀ st', st' ∈ sts → cst_commandId st' = ob_commandId o → st' = st) →
  untold m R (observe_all sts o).
Proof.
  intros Hi Hok Hst Hin Huniq Hset r Hr Hid Ht.
  destruct (observe_all_keeps sts o) as [Hk _]. rewrite Hk in Hid |- *.
  destruct (status_spec _ _ _ Hst) as (r0 & [Hr0 Hid0]%find_command_spec & ->).
  assert (r0 = r) as -> by (apply (equal_ids m); [apply Hi|done..|congruence]).
  destruct (observe_all_settles sts (row_status r (status_revision (ob_commandId o) m)) o) as [Heq Hs]; [done..|apply Hok|done|].
  rewrite Hset in Heq. rewrite <-Heq in Hs. by destruct Hs.
Qed.
(** A page received, or the statuses of a refresh, where [m'] is the mailbox that the last
    of them was read from. *)
Lemma receive_inv m m' f page refreshed :
  client_inv m f → MailboxInv m' → moves m m' →
  (∀ st, st ∈ (if pg_resetRequired page then refreshed else pg_changes page) → genuine m' st) →
  pg_nextRevision page <= mb_revision m →
  (∀ o, o ∈ fo_observers f → ob_ok m o → pending m (rev f) o →
     pending m' (Z.max (rev f) (pg_nextRevision page))
       (observe_all (if pg_resetRequired page then refreshed else pg_changes page) o)) →
  client_inv m' (receive page refreshed f).
Proof.
  intros [Hi Hrev Hst Ho] Hi' Hm Hg Hnext Hp. unfold receive. cbv zeta. rewrite publish_all.
  pose proof (mv_revision _ _ Hm).
  split; [done| | |]; cbn.
  - unfold rev. cbn. unfold rev in Hrev. lia.
  - intros _. by eexists.
  - intros o' (o & -> & Hin)%list_elem_of_fmap. destruct (Ho o Hin) as [Hok Hpo].
    split; [|by apply Hp]. apply observe_all_ok; [done|]. exact (ob_ok_moves m m' o Hi Hi' Hm Hok).
Qed.
Lemma page_inv m f :
  client_inv m f → pg_resetRequired (read_changes (rev f) m) = false →
  client_inv m (receive (read_changes (rev f) m) [] f).
Proof.
  intros Hci Hreset. pose proof (ci_mailbox _ _ Hci) as Hi. apply (receive_inv m); try done.
  - rewrite Hreset. intros st Hst. by apply (status_genuine m (cst_commandId st)), page_genuine with (rev f).
  - apply page_next_le, Hi.
  - intros o Hin Hok Hp. rewrite Hreset. set (page := read_changes (rev f) m) in *.
    intros Hasked Hset r Hr Hid Ht. destruct (observe_all_keeps (pg_changes page) o) as (Hk & Ha & _).
    rewrite Hk in *. rewrite Ha in Hasked.
    assert (Hn : ob_settled o = None).
    { destruct (ob_settled o) eqn:Hs; [|done]. rewrite observe_all_settled in Hset; [congruence|by rewrite Hs]. }
    pose proof (Hp Hasked Hn r Hr Hid Ht) as Hlt.
    destruct (gi_announced _ (proj2 Hi) (ob_commandId o) (oo_known _ _ Hok)) as [n Hcr].
    rewrite (status_revision_of _ _ _ Hcr) in Hlt |- *.
    destruct (page_complete (rev f) m (ob_commandId o) n Hi Hreset Hcr Hlt) as [_ Hpage].
    destruct (decide (n <= pg_nextRevision page)) as [Hle|]; [|lia]. exfalso.
    destruct (Hpage Hle) as (st & Hst & Hin2).
    pose proof (pending_shown m n (pg_changes page) st o Hi Hok Hst Hin2) as Hshown.
    assert (n < n); [|lia]. rewrite <-(status_revision_of _ _ _ Hcr) at 2.
    rewrite <-Hk. apply Hshown with r; [|done|done|by rewrite Hk|done].
    intros st' Hst' Hid'. pose proof (page_genuine (rev f) m st' Hi Hreset Hst') as Heq. rewrite Hid' in Heq. congruence.
Qed.
Lemma reset_inv m m' f late refreshed :
  client_inv m f → pg_resetRequired (read_changes (rev f) m) = true →
  refreshAll late (watched_ids f) m = (m', Some refreshed) →
  client_inv m' (receive (read_changes (rev f) m) refreshed f).
Proof.
  intros Hci Hreset Href. pose proof (ci_mailbox _ _ Hci) as Hi.
  destruct (refreshAll_spec _ _ _ _ _ Hi Href) as (Hi' & Hm & Hall). specialize (Hall _ eq_refl).
  apply (receive_inv m); try done.
  - rewrite Hreset. intros st (j & Hj)%list_elem_of_lookup.
    destruct (Forall2_lookup_r _ _ _ _ _ Hall Hj) as (id & _ & Hb). by eapply read_between_genuine.
  - apply page_next_le, Hi.
  - intros o Hin Hok Hp. rewrite Hreset. intros Hasked Hset.
    assert (Hw : ob_commandId o ∈ watched_ids f).
    { unfold watched_ids. apply elem_of_remove_dups, list_elem_of_fmap. exists o. split; [done|].
      apply list_elem_of_filter. split; [|done].
      destruct (ob_settled o) eqn:Hs; [|done]. rewrite observe_all_settled in Hset; [congruence|by rewrite Hs]. }
    apply list_elem_of_lookup in Hw as [j Hj].
    destruct (Forall2_lookup_l _ _ _ _ _ Hall Hj) as (st & Hst & Hsid & mk & Hik & Hmk & Hmk' & Hread).
    assert (Hshown : pending mk (mb_revision m) (observe_all refreshed o)).
    { intros _. apply (pending_shown mk _ refreshed st); [done|exact (ob_ok_moves m mk o Hi Hik Hmk Hok)|done|by eapply list_elem_of_lookup_2|].
      intros st' (j' & Hj')%list_elem_of_lookup Hid'.
      destruct (Forall2_lookup_r _ _ _ _ _ Hall Hj') as (id' & Hj2 & Hsid' & _).
      assert (j' = j) as ->; [|congruence]. eapply (NoDup_lookup (watched_ids f)); [apply NoDup_remove_dups|done|congruence]. }
    intros r Hr Hid Ht.
    pose proof (pending_moves mk m' (mb_revision m) _ Hik Hi' Hmk' (mv_revision _ _ Hmk) Hshown Hasked Hset r Hr Hid Ht).
    pose proof (page_next_le (rev f) m (proj2 Hi)). pose proof (ci_rev _ _ Hci). lia.
Qed.
Lemma poll_inv late m f : client_inv m f → client_inv (poll late m f).1 (poll late m f).2.
Proof.
  intros Hci. unfold poll. cbv zeta. fold (rev f). destruct (pg_resetRequired _) eqn:Hreset; [|by apply page_inv].
  destruct (refreshAll late (watched_ids f) m) as [m' [refreshed|]] eqn:Href; cbn [fst snd].
  - by eapply reset_inv.
  - destruct (refreshAll_spec _ _ _ _ _ (ci_mailbox _ _ Hci) Href) as (Hi' & Hm & _).
    apply (client_inv_mailbox m); [by intros _|done].
Qed.
(** Failures tell an observer nothing of its command. *)
Lemma observe_failure_inv m R failure now o :
  MailboxInv m → ob_ok m o ∧ pending m R o →
  ob_ok m (observeFailure failure now o) ∧ pending m R (observeFailure failure now o).
Proof.
  intros Hi [Hok Hp]. split; [apply observe_failure_ok; [apply Hi|done]|].
  intros Hasked Hset. unfold observeFailure in *.
  destruct (bool_decide (is_Some (ob_settled o))) eqn:Hb; [by apply Hp|].
  destruct failure; [by apply Hp| |done]. rewrite observe_asked in Hasked. rewrite observe_id.
  apply Hp; [done|]. destruct (ob_settled o) eqn:Hs; [|done].
  rewrite observe_settled in Hset by (rewrite Hs; by eexists). congruence.
Qed.
Lemma subscribe_inv m f o afterRevision :
  client_inv m f → afterRevision <= mb_revision m → is_Some (find_command (ob_commandId o) m) →
  ob_acceptedRevision o <= status_revision (ob_commandId o) m → ob_latestRevision o = -1 →
  ob_latestStatus o = None → ob_asked o = false → ob_settled o = None →
  client_inv m (subscribe o afterRevision f).
Proof.
  intros [Hi Hrev Hst Ho] Hafter [r Hfind] Hacc Hl Hls Ha Hset.
  pose proof (gi_positive _ (proj2 Hi)).
  apply find_command_spec in Hfind as [Hr Hid].
  assert (Hrevs : (0 <= rev (subscribe o afterRevision f) <= mb_revision m)
    ∧ (fo_observers f ≠ [] → rev (subscribe o afterRevision f) = rev f)).
  { unfold rev, subscribe. cbn. unfold rev in Hrev. destruct (fo_revision f) eqn:Hf; cbn in *; [done|].
    split; [lia|]. intros Hne. by destruct (Hst Hne). }
  split; [done|apply Hrevs|intros _; unfold subscribe; cbn; destruct (fo_revision f); by eexists|].
  intros o' Hin'. change (fo_observers (subscribe o afterRevision f)) with (fo_observers f ++ [o]) in Hin'.
  apply elem_of_app in Hin' as [Hin| ->%list_elem_of_singleton].
  - rewrite (proj2 Hrevs); [by apply Ho|]. intros Hnil. rewrite Hnil in Hin. by apply elem_of_nil in Hin.
  - split; [|by intros Hask; rewrite Ha in Hask]. pose proof (status_revision_bounds m (ob_commandId o) (proj2 Hi)).
    split; [rewrite <-Hid; by apply elem_of_ids|lia|done|by rewrite Hls|by rewrite Hset|by rewrite Hset].
Qed.
Lemma alter_inv m f i g :
  client_inv m f → (∀ o, fo_observers f !! i = Some o → ob_ok m (g o) ∧ pending m (rev f) (g o)) →
  client_inv m (f <| fo_observers ::= alter g i |>).
Proof.
  intros [Hi Hrev Hst Ho] Hg. split; [done|done| |].
  - cbn. intros Hne. apply Hst. intros Hnil. by rewrite Hnil in Hne.
  - cbn. intros o (j & Hj)%list_elem_of_lookup. destruct (decide (j = i)) as [->|Hne].
    + rewrite list_lookup_alter_eq in Hj. destruct (fo_observers f !! i) as [o0|] eqn:Ho0; [|done].
      injection Hj as <-. by apply Hg.
    + rewrite list_lookup_alter_ne in Hj by done. by eapply Ho, list_elem_of_lookup_2.
Qed.
Lemma asked_inv m f i o st :
  client_inv m f → fo_observers f !! i = Some o → status (ob_commandId o) m = Some st →
  client_inv m (asked i st f).
Proof.
  intros Hci Hio Hst. pose proof (ci_mailbox _ _ Hci) as Hi.
  destruct (ci_observer _ _ Hci o) as [Hok _]; [by eapply list_elem_of_lookup_2|].
  destruct (status_genuine m _ st Hi Hst) as [Hid Hg].
  apply alter_inv; [done|]. intros o' Ho'. simplify_eq.
  pose proof (observe_ok m st o Hid Hg Hok) as [Hk Hl Ha Hs Hset Hcol]. split; [by split|].
  pose proof (pending_shown m (rev f) [st] st o Hi Hok Hst) as Hshown.
  cbn in Hshown. rewrite decide_True in Hshown by done.
  intros _. apply Hshown; [left|]. by intros st' ->%list_elem_of_singleton.
Qed.
Lemma client_inv_recorded m f g : client_inv m f → client_inv m (f <| fo_failures ::= g |>).
Proof. by intros []; split. Qed.
Lemma client_step_inv x y : client_step x y → client_inv x.1 x.2 → client_inv y.1 y.2.
Proof.
  intros Hstep Hci. pose proof (ci_mailbox _ _ Hci) as Hi.
  destruct Hstep as [event m f|o after m f ? ? ? ? ? ? ?|i o st m f Ho Hst|i cause workspace now m f|late m f|cause workspace now m f];
    cbn [fst snd] in *.
  - eapply client_inv_mailbox; [apply deliver_step|done].
  - by apply subscribe_inv.
  - by eapply asked_inv.
  - apply client_inv_recorded, alter_inv; [done|]. intros o Ho. apply observe_failure_inv; [done|].
    by eapply Hci, list_elem_of_lookup_2.
  - by apply poll_inv.
  - apply client_inv_recorded. destruct Hci as [_ Hrev Hst Ho]. split; [done|done| |].
    + cbn. intros Hne. apply Hst. intros Hnil. by rewrite Hnil in Hne.
    + cbn. intros o' (o & -> & Hin)%list_elem_of_fmap. by apply observe_failure_inv, Ho.
Qed.
Definition client_reachable (m : Mailbox) (f : Fanout) : Prop :=
  rtc client_step (empty_mailbox, empty_fanout) (m, f).
Lemma client_reachable_inv m f : client_reachable m f → client_inv m f.
Proof.
  intros Hr. assert (H0 : client_inv (empty_mailbox, empty_fanout).1 (empty_mailbox, empty_fanout).2).
  { split; [apply empty_inv|done|done|by intros ? ?%elem_of_nil]. }
  change (client_inv (m, f).1 (m, f).2). revert H0. unfold client_reachable in Hr.
  induction Hr as [|x y z Hs _ IH]; [done|]. intros H0. by apply IH, (client_step_inv x).
Qed.

(** ** Failures that settle *)

(** An observer that failed was told so by a request that failed. *)
Definition failed_request (f : Fanout) (o : Observer) : Prop :=
  ∀ state category, ob_settled o = Some (Failed state category) →
    ∃ cause workspace, (cause, workspace) ∈ fo_failures f
      ∧ classifyControlPlaneFailure cause workspace = TerminalFailure state category.
Lemma observe_failed st o state category :
  ob_settled (observe st o) = Some (Failed state category) → ob_settled o = Some (Failed state category).
Proof. unfold observe. destruct (_ || _); [done|]. destruct (negb _); [done|]. cbv zeta. by destruct (isCloudCommandTerminalState _). Qed.
Lemma observe_all_failed sts o state category :
  ob_settled (observe_all sts o) = Some (Failed state category) → ob_settled o = Some (Failed state category).
Proof.
  revert o. unfold observe_all. induction sts as [|st sts IH]; intros o; [done|]. cbn [foldl].
  intros Hs%IH. case_decide; [by eapply observe_failed|done].
Qed.
Lemma observe_failure_failed f cause workspace now o :
  failed_request f o →
  failed_request (f <| fo_failures ::= cons (cause, workspace) |>)
    (observeFailure (classifyControlPlaneFailure cause workspace) now o).
Proof.
  intros Ho state category Hs.
  assert (ob_settled o = Some (Failed state category)
          ∨ classifyControlPlaneFailure cause workspace = TerminalFailure state category) as [Hold|Hnew].
  { unfold observeFailure in Hs. destruct (bool_decide _); [by left|].
    destruct (classifyControlPlaneFailure cause workspace); [by left|left; by eapply observe_failed|right].
    by injection Hs as -> ->. }
  - destruct (Ho state category Hold) as (c & w & Hin & Hc). exists c, w. split; [by right|done].
  - exists cause, workspace. split; [by left|done].
Qed.
Lemma recorded_failed f x o : failed_request f o → failed_request (f <| fo_failures ::= cons x |>) o.
Proof. intros Ho s c Hs. destruct (Ho s c Hs) as (ca & w & Hin & Hc). exists ca, w. split; [by right|done]. Qed.
Definition failures_ok (f : Fanout) : Prop := ∀ o, o ∈ fo_observers f → failed_request f o.
Lemma receive_failures page sts f : failures_ok f → failures_ok (receive page sts f).
Proof.
  intros Hf o Ho. unfold receive in *. cbv zeta in *. rewrite publish_all in *. cbn in Ho.
  apply list_elem_of_fmap in Ho as (o' & -> & Hin). intros s c Hs%observe_all_failed. by apply (Hf o' Hin).
Qed.
Lemma alter_elem {A} (g : A → A) (i : nat) (l : list A) x : x ∈ alter g i l → x ∈ l ∨ ∃ y, y ∈ l ∧ x = g y.
Proof.
  intros (j & Hj)%list_elem_of_lookup. destruct (decide (j = i)) as [->|Hne].
  - rewrite list_lookup_alter_eq in Hj. destruct (l !! i) as [y|] eqn:Hy; [|done]. injection Hj as <-.
    right. exists y. by split; [eapply list_elem_of_lookup_2|].
  - rewrite list_lookup_alter_ne in Hj by done. left. by eapply list_elem_of_lookup_2.
Qed.
Lemma client_step_failures x y : client_step x y → failures_ok x.2 → failures_ok y.2.
Proof.
  intros Hstep Hf.
  destruct Hstep as [event m f|o after m f _ _ _ _ _ _ Hset|i o st m f Ho Hst|i cause workspace now m f|late m f|cause workspace now m f];
    cbn [fst snd] in *.
  - done.
  - intros o' [Hin| ->%list_elem_of_singleton]%elem_of_app; [by apply Hf|]. intros s c Hs. congruence.
  - intros o' [Hin|(o1 & Hin & ->)]%alter_elem; [by apply Hf|]. intros s c Hs. cbn in Hs.
    apply observe_failed in Hs. by apply (Hf o1 Hin).
  - intros o' [Hin|(o1 & Hin & ->)]%alter_elem; [by apply recorded_failed, Hf|].
    by apply observe_failure_failed, Hf.
  - unfold poll. cbv zeta. destruct (pg_resetRequired _); [|by apply receive_failures].
    destruct (refreshAll _ _ _) as [m' [refreshed|]]; [by apply receive_failures|done].
  - intros o' (o1 & -> & Hin)%list_elem_of_fmap. by apply observe_failure_failed, Hf.
Qed.
Lemma client_reachable_failures m f : client_reachable m f → failures_ok f.
Proof.
  intros Hr. assert (H0 : failures_ok (empty_mailbox, empty_fanout).2) by (by intros ? ?%elem_of_nil).
  change (failures_ok (m, f).2). revert H0. unfold client_reachable in Hr.
  induction Hr as [|x y z Hs _ IH]; [done|]. intros H0. by apply IH, (client_step_failures x).
Qed.

(** What the classification calls final: an error the request's cause, or that of the
    request for the workspace, was; or a workspace that is gone or on its way out. *)
Definition final_failure (cause : RequestCause) (workspace : WorkspaceLifecycle + RequestCause)
    (state : CloudCommandState) (category : option string) : Prop :=
  cause = CloudCommandTerminalError state category
  ∨ (errorCode cause = Some "not-found" ∨ errorCode cause = Some "conflict")
    ∧ match workspace with
      | inl lifecycle =>
          (state, category) = (CS_cancelled, Some "workspace-deleted")
          ∧ (wl_state lifecycle ∈ ["archiving"; "archived"; "deleting"; "deleted"]
             ∨ wl_desiredState lifecycle ∈ ["archived"; "deleted"])
      | inr cause' =>
          cause' = CloudCommandTerminalError state category
          ∨ (state, category) = (CS_cancelled, Some "workspace-deleted")
            ∧ errorCode cause' = Some "not-found"
      end.
Lemma static_final cause state category :
  staticControlPlaneFailure cause = Some (TerminalFailure state category) →
  cause = CloudCommandTerminalError state category.
Proof. destruct cause as [| |code [[]|]]; cbn; congruence. Qed.
Lemma classify_final cause workspace state category :
  classifyControlPlaneFailure cause workspace = TerminalFailure state category →
  final_failure cause workspace state category.
Proof.
  unfold classifyControlPlaneFailure, final_failure.
  destruct (staticControlPlaneFailure cause) as [fl|] eqn:Hs.
  { intros ->. left. by apply static_final. }
  destruct (_ && _) eqn:Hcode; [done|].
  apply andb_false_iff in Hcode as [Hcode|Hcode]; apply negb_false_iff, bool_decide_eq_true in Hcode;
    (destruct workspace as [lifecycle|cause'];
     [unfold destructiveWorkspaceLifecycle;
      destruct (bool_decide (wl_state lifecycle ∈ _)) eqn:E1; [|destruct (bool_decide (wl_desiredState lifecycle ∈ _)) eqn:E2];
      rewrite ?bool_decide_eq_true in *; cbn; try done; intros [= <- <-]; right; naive_solver
     |destruct (staticControlPlaneFailure cause') as [fl|] eqn:Hs';
      [intros ->; right; split; [naive_solver|left; by apply static_final]
      |case_decide; [intros [= <- <-]; right; naive_solver|done]]]).
Qed.

(** ** What the client learns *)

Lemma refreshAll_now idl m :
  (∀ id, id ∈ idl → is_Some (status id m)) →
  ∃ l, refreshAll [] idl m = (m, Some l) ∧ Forall2 (λ id st, status id m = Some st) idl l.
Proof.
  induction idl as [|id idl IH]; intros Hall; [by exists []|].
  destruct (Hall id (list_elem_of_here _ _)) as [st Hst].
  destruct IH as (l & Hl & Hf); [intros; apply Hall; by right|].
  exists (st :: l). cbn. rewrite Hst. change (tail []) with (@nil (list Event)) in *. rewrite Hl. by auto.
Qed.
(** What one answer to the watch does for an observer of a settled command. *)
Definition shown_by (m : Mailbox) (sts : list CommandStatus) (o : Observer) : Prop :=
  ∀ st', st' ∈ sts → cst_commandId st' = ob_commandId o → status (ob_commandId o) m = Some st'.
Lemma observe_all_resolves m sts st o :
  ob_ok m o → ob_settled o = None → status (ob_commandId o) m = Some st →
  isCloudCommandTerminalState (cst_state st) = true → cst_fingerprint st = ob_fingerprint o →
  shown_by m sts o →
  st ∈ sts ∧ ob_settled (observe_all sts o) = Some (Resolved (resolveTerminal st))
  ∨ (∀ st', st' ∈ sts → cst_commandId st' ≠ ob_commandId o) ∧ observe_all sts o = o.
Proof.
  intros Hok Hn Hst Ht Hfp Hshown.
  destruct (decide (Exists (λ st', cst_commandId st' = ob_commandId o) sts)) as [He|He].
  - left. apply Exists_exists in He as (st' & Hin & Hid). pose proof (Hshown st' Hin Hid) as Heq. simplify_eq.
    split; [done|]. destruct (status_spec _ _ _ Hst) as (r & _ & ->).
    destruct (observe_all_settles sts (row_status r (status_revision (ob_commandId o) m)) o) as [-> _];
      [done|done| |apply Hok|done|].
    + intros st2 Hin2 Hid2. pose proof (Hshown st2 Hin2 Hid2). congruence.
    + apply observe_resolves; [done..|apply Hok|done].
  - right. assert (Hno : ∀ st', st' ∈ sts → cst_commandId st' ≠ ob_commandId o).
    { intros st' Hin Hid. apply He, Exists_exists. eauto. }
    split; [done|by apply observe_all_other].
Qed.
Lemma poll_shows m f o :
  client_inv m f → o ∈ fo_observers f → ob_settled o = None →
  ∃ sts, poll [] m f = (m, receive (read_changes (rev f) m) sts f)
    ∧ shown_by m (if pg_resetRequired (read_changes (rev f) m) then sts
                  else pg_changes (read_changes (rev f) m)) o
    ∧ (pg_resetRequired (read_changes (rev f) m) = true →
       ∃ st, st ∈ sts ∧ cst_commandId st = ob_commandId o).
Proof.
  intros Hci Hin Hn. pose proof (ci_mailbox _ _ Hci) as Hi.
  unfold poll. cbv zeta. fold (rev f). set (page := read_changes (rev f) m) in *.
  destruct (pg_resetRequired page) eqn:Hreset.
  - destruct (refreshAll_now (watched_ids f) m) as (l & -> & Hf).
    { intros id (o' & -> & [_ Ho']%list_elem_of_filter)%elem_of_remove_dups%list_elem_of_fmap.
      apply status_some, (ci_observer _ _ Hci o' Ho'). }
    exists l. split; [done|]. split.
    + intros st' (j & Hj)%list_elem_of_lookup Hid. destruct (Forall2_lookup_r _ _ _ _ _ Hf Hj) as (id & _ & Hs).
      destruct (status_genuine m id st' Hi Hs) as [Heq _]. congruence.
    + intros _. assert (Hw : ob_commandId o ∈ watched_ids f).
      { apply elem_of_remove_dups, list_elem_of_fmap. exists o. split; [done|]. by apply list_elem_of_filter. }
      apply list_elem_of_lookup in Hw as [j Hj]. destruct (Forall2_lookup_l _ _ _ _ _ Hf Hj) as (st' & Hst' & Hs).
      exists st'. split; [by eapply list_elem_of_lookup_2|]. by apply (status_genuine m _ st' Hi).
  - exists []. split; [done|]. split; [|done]. intros st' Hst' Hid. rewrite <-Hid. by eapply page_genuine.
Qed.
Lemma poll_progress m f i o st :
  client_inv m f → fo_observers f !! i = Some o → ob_asked o = true → ob_settled o = None →
  status (ob_commandId o) m = Some st → isCloudCommandTerminalState (cst_state st) = true →
  cst_fingerprint st = ob_fingerprint o →
  ∃ f' o', poll [] m f = (m, f') ∧ fo_observers f' !! i = Some o'
    ∧ (ob_settled o' = Some (Resolved (resolveTerminal st)) ∨ o' = o ∧ rev f < rev f').
Proof.
  intros Hci Hio Ha Hn Hst Ht Hfp. pose proof (ci_mailbox _ _ Hci) as Hi.
  assert (Hin : o ∈ fo_observers f) by by eapply list_elem_of_lookup_2.
  destruct (ci_observer _ _ Hci o Hin) as [Hok Hp].
  destruct (poll_shows m f o Hci Hin Hn) as (sts & -> & Hshown & Hreset).
  set (page := read_changes (rev f) m) in *.
  set (shown := if pg_resetRequired page then sts else pg_changes page) in *.
  exists (receive page sts f), (observe_all shown o). split; [done|]. split.
  { unfold receive. cbv zeta. rewrite publish_all. cbn. by rewrite list_lookup_fmap, Hio. }
  destruct (observe_all_resolves m shown st o Hok Hn Hst Ht Hfp Hshown) as [[_ ?]|[Hno Heq]]; [by left|right].
  split; [done|]. unfold receive, rev. cbv zeta. rewrite publish_all. cbn. fold (rev f).
  destruct (status_spec _ _ _ Hst) as (r & [Hr Hid]%find_command_spec & ->).
  destruct (gi_announced _ (proj2 Hi) (ob_commandId o) (oo_known _ _ Hok)) as [n Hcr].
  pose proof (Hp Ha Hn r Hr Hid Ht) as Hlt. rewrite (status_revision_of _ _ _ Hcr) in Hlt.
  unfold shown in Hno. destruct (pg_resetRequired page) eqn:Hres.
  - destruct (Hreset eq_refl) as (st' & Hin' & Hid'). by destruct (Hno st' Hin').
  - destruct (page_complete (rev f) m (ob_commandId o) n Hi Hres Hcr Hlt) as [Hnext _]. fold page in Hnext. lia.
Qed.
Lemma polls_resolve n m f i o st :
  client_inv m f → fo_observers f !! i = Some o → ob_asked o = true → ob_settled o = None →
  status (ob_commandId o) m = Some st → isCloudCommandTerminalState (cst_state st) = true →
  cst_fingerprint st = ob_fingerprint o → mb_revision m - rev f <= Z.of_nat n →
  ∃ k o', (k ≤ S n)%nat ∧ fo_observers (polls k m f) !! i = Some o'
    ∧ ob_settled o' = Some (Resolved (resolveTerminal st)).
Proof.
  revert f. induction n as [|n IH]; intros f Hci Hio Ha Hn Hst Ht Hfp Hle;
    destruct (poll_progress m f i o st Hci Hio Ha Hn Hst Ht Hfp) as (f' & o' & Hpoll & Hio' & [Hset|[-> Hlt]]);
    pose proof (poll_inv [] m f Hci) as Hci'; rewrite Hpoll in Hci'; cbn [fst snd] in Hci'.
  1,3: exists 1%nat, o'; cbn; rewrite Hpoll; by split_and!; [lia|..].
  - pose proof (ci_rev _ _ Hci'). lia.
  - destruct (IH f' Hci' Hio' Ha Hn Hst Ht Hfp) as (k & o2 & Hk & Ho2 & Hs2); [lia|].
    exists (S k), o2. cbn. rewrite Hpoll. cbn. split_and!; [lia|done..].
Qed.

(** C16: whatever happened to the mailbox, the watch and the requests in between, an
    outcome the client decoded is one its command really has: the command is settled with
    the state, and with the category or result, that the client decoded, until retention
    drops them. A collision is reported only of a command whose id the mailbox has bound
    to another content. Any other failure is reported only after a request that failed for
    good: with an error of the transport's own, or as not found or in conflict while the
    workspace is being archived or deleted or is not found. That failure, "cancelled", says
    nothing of the command: see [cancelled_though_applied]. And the client learns of
    outcomes: an observer that got one answer to its own request is resolved, with the
    mailbox's status, after a bounded number of answers to the watch. *)
Theorem client_learns_outcome m f i o :
  client_reachable m f → fo_observers f !! i = Some o →
  (∀ res, ob_settled o = Some (Resolved res) →
     ∃ r, r ∈ mb_commands m ∧ cr_command_id r = ob_commandId o ∧ terminal r = true ∧ agrees res r)
  ∧ (ob_settled o = Some IdentityCollision →
     ∃ r, r ∈ mb_commands m ∧ cr_command_id r = ob_commandId o ∧ cr_fingerprint r ≠ ob_fingerprint o)
  ∧ (∀ state category, ob_settled o = Some (Failed state category) →
     ∃ cause workspace, (cause, workspace) ∈ fo_failures f ∧ final_failure cause workspace state category)
  ∧ (∀ st, ob_asked o = true → ob_settled o = None → status (ob_commandId o) m = Some st →
       isCloudCommandTerminalState (cst_state st) = true → cst_fingerprint st = ob_fingerprint o →
       ∃ n o', (n ≤ S (Z.to_nat (mb_revision m)))%nat ∧ fo_observers (polls n m f) !! i = Some o'
         ∧ ob_settled o' = Some (Resolved (resolveTerminal st))).
Proof.
  intros Hr Hio. pose proof (client_reachable_inv m f Hr) as Hci.
  assert (Hin : o ∈ fo_observers f) by by eapply list_elem_of_lookup_2.
  destruct (ci_observer _ _ Hci o Hin) as [Hok _].
  split_and!; [apply Hok|apply Hok| |].
  - intros state category Hs. destruct (client_reachable_failures m f Hr o Hin state category Hs)
      as (cause & workspace & Hf & Hc). exists cause, workspace. split; [done|by apply classify_final].
  - intros st Ha Hn Hst Ht Hfp.
    apply (polls_resolve (Z.to_nat (mb_revision m)) m f i o st); try done.
    pose proof (ci_rev _ _ Hci). pose proof (gi_positive _ (proj2 (ci_mailbox _ _ Hci))). lia.
Qed.
End client.

(** A client waits for a command, asks for its status once, and the runtime applies the
    command afterwards. *)
Module client_demo.
Import mailbox_demo.

Definition waiting : Observer :=
  {| ob_commandId := "c1"; ob_fingerprint := "f"; ob_acceptedSequence := 1; ob_acceptedRevision := 1;
     ob_latestRevision := -1; ob_latestStatus := None; ob_asked := false; ob_settled := None |}.
Definition accepted : list Event :=
  [request 1000 "" (Reserve (envelope "c1")); request 1100 "" (Commit "c1" None (Some "w") (Some "a"))].
Definition accepted_mailbox : Mailbox := run accepted empty_mailbox.
Definition accepted_status : CommandStatus :=
  default (blocked_status 0 "" "" waiting) (status "c1" accepted_mailbox).
Definition applied_events : list Event :=
  [AlarmFires 1200; WakeAnswered 1300 true; request 2000 "t1" (Lease (lease_input 1));
   request 2100 "" (Acknowledge (applied "t1"))].
Definition applied_mailbox : Mailbox := run applied_events accepted_mailbox.
Definition client : Fanout := asked 0 accepted_status (subscribe waiting 0 empty_fanout).
Definition applied_status : CommandStatus :=
  default accepted_status (status "c1" applied_mailbox).

Lemma mailbox_steps events m f : rtc client_step (m, f) (run events m, f).
Proof.
  revert m. induction events as [|e events IH]; intros m; [apply rtc_refl|].
  eapply rtc_l; [apply step_mailbox|]. apply IH.
Qed.
Lemma waiting_subscribes :
  client_step (accepted_mailbox, empty_fanout) (accepted_mailbox, subscribe waiting 0 empty_fanout).
Proof. apply step_subscribe; try reflexivity; vm_compute; [discriminate|eauto|discriminate]. Qed.
Lemma waiting_asks :
  client_step (accepted_mailbox, subscribe waiting 0 empty_fanout) (accepted_mailbox, client).
Proof. apply (step_asked 0 waiting accepted_status); vm_compute; reflexivity. Qed.
Lemma demo_client_reachable : client_reachable applied_mailbox client.
Proof.
  unfold client_reachable.
  transitivity (accepted_mailbox, empty_fanout); [exact (mailbox_steps accepted empty_mailbox empty_fanout)|].
  apply (rtc_l _ _ _ _ waiting_subscribes), (rtc_l _ _ _ _ waiting_asks).
  exact (mailbox_steps applied_events accepted_mailbox client).
Qed.
(** The runtime has applied the command when the workspace is archived; the client's watch
    fails before it hears of it, and the client reports the command as cancelled. *)
Example cancelled_though_applied :
  let f := watch_failed (OtherCause (Some "conflict") None)
             (inl {| wl_state := "archiving"; wl_desiredState := "archived" |}) 3000 client in
  ob_settled <$> fo_observers f !! 0%nat = Some (Some (Failed CS_cancelled (Some "workspace-deleted")))
  ∧ cst_state <$> status "c1" applied_mailbox = Some CS_applied.
Proof. vm_compute. split; reflexivity. Qed.
Lemma client_learns_outcome_witness :
  client_reachable applied_mailbox client
  ∧ ∃ o n o', fo_observers client !! 0%nat = Some o ∧ ob_settled o = None
    ∧ fo_observers (polls n applied_mailbox client) !! 0%nat = Some o'
    ∧ ob_settled o' = Some (Resolved (Encrypted "iv" "done")).
Proof.
  split; [apply demo_client_reachable|].
  destruct (fo_observers client !! 0%nat) as [o|] eqn:Ho; [|vm_compute in Ho; discriminate].
  destruct (client_learns_outcome applied_mailbox client 0 o demo_client_reachable Ho) as (_ & _ & _ & Hlearn).
  assert (Hw : o = (waiting <| ob_latestRevision := 2 |> <| ob_latestStatus := Some accepted_status |>)
                     <| ob_asked := true |>) by (vm_compute in Ho; vm_compute; congruence).
  assert (Hst : status (ob_commandId o) applied_mailbox = Some applied_status) by (rewrite Hw; vm_compute; reflexivity).
  assert (Ht : isCloudCommandTerminalState (cst_state applied_status) = true) by (vm_compute; reflexivity).
  assert (Hf : cst_fingerprint applied_status = ob_fingerprint o) by (rewrite Hw; vm_compute; reflexivity).
  assert (Hres : resolveTerminal applied_status = Encrypted "iv" "done") by (vm_compute; reflexivity).
  assert (Hn : ob_settled o = None) by (rewrite Hw; reflexivity).
  destruct (Hlearn applied_status ltac:(rewrite Hw; reflexivity) Hn Hst Ht Hf) as (n & o' & _ & Ho' & Hset).
  exists o, n, o'. rewrite Hres in Hset. repeat split; assumption.
Defined.
End client_demo.
