(* ===== verification/ClientContracts.v ===== *)
(** * What clients keep of resources and commands

    packages/client-runtime: resource-ref.ts, resource-state.ts, client-command-target.ts
    and the data of client-persistence.ts with the identity of a command,
    [canonicalClientCommandJson] and [commandFingerprint]. *)
From Stdlib Require Import Ascii.
From stdpp Require Import sorting.
From S2P Require Import Prelude Js Ids Mailbox.

Local Open Scope Z_scope.

(** ** Resources *)

Inductive VideoFormat := Avcc | Mjpeg.
Definition format_text (f : VideoFormat) : string := match f with Avcc => "avcc" | Mjpeg => "mjpeg" end.
Inductive ResourceRef :=
| SimulatorRef (environmentId chatId deviceId : string) (format : VideoFormat)
| MasterRef (environmentId masterId : string)
| EnvironmentRef (environmentId : string)
| ProjectRef (environmentId projectId : string)
| ChatRef (environmentId chatId : string)
| SessionRef (environmentId sessionId : string)
| ExecutionRef (environmentId folderId : string) (worktreeId : option string) (rootPath : string)
| TerminalRef (environmentId terminalId : string)
| WorktreeRef (environmentId projectId worktreeId : string).
#[export] Instance VideoFormat_eq_dec : EqDecision VideoFormat.
Proof. solve_decision. Defined.
#[export] Instance ResourceRef_eq_dec : EqDecision ResourceRef.
Proof. solve_decision. Defined.

Definition ref_environmentId (ref : ResourceRef) : string :=
  match ref with
  | SimulatorRef e _ _ _ | MasterRef e _ | EnvironmentRef e | ProjectRef e _ | ChatRef e _
  | SessionRef e _ | ExecutionRef e _ _ _ | TerminalRef e _ | WorktreeRef e _ _ => e
  end.

Definition part (value : string) : string := encodeURIComponent value.
Definition worktree_part (worktreeId : option string) : string :=
  match worktreeId with None => "none" | Some id => "some-" +:+ part id end.
Definition resourceRefKey (ref : ResourceRef) : string :=
  str_join ":"
    match ref with
    | SimulatorRef e chatId deviceId format =>
        ["simulator"; part e; part chatId; part deviceId; format_text format]
    | MasterRef e masterId => ["master"; part e; part masterId]
    | SessionRef e sessionId => ["session"; part e; part sessionId]
    | ChatRef e chatId => ["chat"; part e; part chatId]
    | WorktreeRef e projectId worktreeId => ["worktree"; part e; part projectId; part worktreeId]
    | ProjectRef e projectId => ["project"; part e; part projectId]
    | TerminalRef e terminalId => ["terminal"; part e; part terminalId]
    | ExecutionRef e folderId worktreeId rootPath =>
        ["execution"; part e; part folderId; worktree_part worktreeId; part rootPath]
    | EnvironmentRef e => ["environment"; part e]
    end.

Inductive ResourceKind :=
| RK_environment_simulators | RK_simulator_video | RK_master_summary | RK_masters_directory
| RK_environment_shell | RK_environment_permissions | RK_environment_question_attachments
| RK_environment_browser_commands | RK_environment_auth | RK_environment_keybindings
| RK_environment_settings | RK_workspace_settings | RK_worktree_setup | RK_session_timeline
| RK_session_goal | RK_session_skills | RK_file_tree | RK_git_workspace | RK_review_guide
| RK_machine_resources | RK_model_catalog | RK_terminal.
#[export] Instance ResourceKind_eq_dec : EqDecision ResourceKind.
Proof. solve_decision. Defined.
Definition kind_text (k : ResourceKind) : string :=
  match k with
  | RK_environment_simulators => "environment-simulators" | RK_simulator_video => "simulator-video"
  | RK_master_summary => "master-summary" | RK_masters_directory => "masters-directory"
  | RK_environment_shell => "environment-shell"
  | RK_environment_permissions => "environment-permissions"
  | RK_environment_question_attachments => "environment-question-attachments"
  | RK_environment_browser_commands => "environment-browser-commands"
  | RK_environment_auth => "environment-auth" | RK_environment_keybindings => "environment-keybindings"
  | RK_environment_settings => "environment-settings"
  | RK_workspace_settings => "workspace-settings" | RK_worktree_setup => "worktree-setup"
  | RK_session_timeline => "session-timeline" | RK_session_goal => "session-goal"
  | RK_session_skills => "session-skills" | RK_file_tree => "file-tree"
  | RK_git_workspace => "git-workspace" | RK_review_guide => "review-guide"
  | RK_machine_resources => "machine-resources" | RK_model_catalog => "model-catalog"
  | RK_terminal => "terminal"
  end.
Record ResourceKey := { rk_kind : ResourceKind; rk_ref : ResourceRef }.
#[export] Instance ResourceKey_eq_dec : EqDecision ResourceKey.
Proof. solve_decision. Defined.
(** A git workspace is shared by the root paths of an execution. *)
Definition resourceKeyId (key : ResourceKey) : string :=
  match rk_kind key, rk_ref key with
  | RK_git_workspace, ExecutionRef e folderId worktreeId _ =>
      str_join ":" [kind_text RK_git_workspace; "execution"; part e; part folderId;
                    worktree_part worktreeId]
  | kind, ref => kind_text kind +:+ ":" +:+ resourceRefKey ref
  end.

(** ** The state of a resource *)

Inductive ConnectionPhase :=
| CP_dormant | CP_offline | CP_waking | CP_connecting | CP_reconnecting | CP_connected
| CP_blocked_auth | CP_update_required | CP_revoked | CP_failed.
#[export] Instance ConnectionPhase_eq_dec : EqDecision ConnectionPhase.
Proof. solve_decision. Defined.
Inductive SyncPhase :=
| SY_empty | SY_hydrating_cache | SY_cached | SY_synchronizing | SY_live | SY_stale | SY_failed.
#[export] Instance SyncPhase_eq_dec : EqDecision SyncPhase.
Proof. solve_decision. Defined.
Inductive SurfacePhase :=
| SF_initial_loading | SF_cached | SF_waking | SF_connecting | SF_synchronizing | SF_live
| SF_offline_stale | SF_blocked_auth | SF_update_required | SF_error.
Inductive ResourceOrigin := RO_none | RO_cache | RO_checkpoint | RO_runtime.
#[export] Instance ResourceOrigin_eq_dec : EqDecision ResourceOrigin.
Proof. solve_decision. Defined.
Record ResourceCursor := { rc_epoch : string; rc_version : Z }.
#[export] Instance ResourceCursor_eq_dec : EqDecision ResourceCursor.
Proof. solve_decision. Defined.

(** How far the delivery of a command is, as its view says. *)
Inductive DeliveryPhase := DP_persisting | DP_state (s : CloudCommandState).
Record PendingCommand := {
  pc_commandId : string;
  pc_kind : string;
  pc_targetId : option string;
  pc_submittedAt : Z;
  pc_deliveryPhase : option DeliveryPhase;
  pc_category : option string;
  pc_blockedUntil : option string;
  pc_cancellable : option bool }.
#[export] Instance PendingCommand_eta : Settable PendingCommand := λ p,
  Build_PendingCommand (pc_commandId p) (pc_kind p) (pc_targetId p) (pc_submittedAt p)
    (pc_deliveryPhase p) (pc_category p) (pc_blockedUntil p) (pc_cancellable p).
Record FailedCommand := {
  fc_commandId : string;
  fc_kind : string;
  fc_targetId : option string;
  fc_failedAt : Z;
  fc_error : string;
  fc_retryable : bool;
  fc_terminal : option (CloudCommandState * option string) }.

(** A view over data of type [D]. *)
Record ResourceView {D : Type} := {
  rv_data : option D;
  rv_origin : ResourceOrigin;
  rv_connection : ConnectionPhase;
  rv_sync : SyncPhase;
  rv_generation : Z;
  rv_cursor : option ResourceCursor;
  rv_pendingCommands : list PendingCommand;
  rv_failedCommands : list FailedCommand }.
Arguments ResourceView : clear implicits.
#[export] Instance ResourceView_eta D : Settable (ResourceView D) := λ v,
  Build_ResourceView _ (rv_data v) (rv_origin v) (rv_connection v) (rv_sync v) (rv_generation v)
    (rv_cursor v) (rv_pendingCommands v) (rv_failedCommands v).
Definition emptyResourceView {D} : ResourceView D :=
  {| rv_data := None; rv_origin := RO_none; rv_connection := CP_dormant; rv_sync := SY_empty;
     rv_generation := 0; rv_cursor := None; rv_pendingCommands := []; rv_failedCommands := [] |}.

Definition deriveSurfacePhase {D} (v : ResourceView D) : SurfacePhase :=
  match rv_connection v with
  | CP_blocked_auth => SF_blocked_auth
  | CP_update_required => SF_update_required
  | connection =>
      match rv_data v with
      | Some _ =>
          if bool_decide (connection ∈ [CP_offline; CP_reconnecting; CP_revoked; CP_failed])
             || bool_decide (rv_sync v ∈ [SY_stale; SY_failed])
          then SF_offline_stale
          else if decide (connection = CP_waking) then SF_waking
          else if decide (connection = CP_connecting) then SF_connecting
          else if decide (rv_sync v = SY_synchronizing) then SF_synchronizing
          else if decide (rv_sync v = SY_live) then SF_live
          else SF_cached
      | None =>
          if decide (connection = CP_waking) then SF_waking
          else if decide (connection ∈ [CP_connecting; CP_reconnecting]) then SF_connecting
          else if decide (rv_sync v = SY_synchronizing) then SF_synchronizing
          else if bool_decide (connection ∈ [CP_offline; CP_revoked; CP_failed])
                  || bool_decide (rv_sync v ∈ [SY_failed; SY_stale])
          then SF_error
          else SF_initial_loading
      end
  end.

(** ** Canonical JSON *)

(** A JavaScript value without cycles: its numbers are integers or not finite, an object
    is its own enumerable properties in order, a buffer its bytes, and an object with a
    [toJSON] method the value the method returns. *)
Inductive value : Type :=
| VUndefined
| VFunction
| VNull
| VBool (b : bool)
| VNum (n : Z)
| VNonFinite
| VBigint (n : Z)
| VStr (s : string)
| VBytes (bytes : string)
| VToJson (json : value)
| VArr (l : list value)
| VObj (l : list (string * value)).

(** The order of JavaScript strings, by UTF-16 code units: that of the UTF-8 bytes, but
    for the characters from U+E000 on, which come after the surrogate pairs. *)
Definition utf16_rank (c : ascii) : nat :=
  let n := nat_of_ascii c in if Nat.eqb n 238 || Nat.eqb n 239 then n + 16 else n.
Fixpoint key_leb (s t : string) : bool :=
  match s, t with
  | "", _ => true
  | _, "" => false
  | String a s, String b t =>
      if Nat.ltb (utf16_rank a) (utf16_rank b) then true
      else if Nat.eqb (utf16_rank a) (utf16_rank b) then key_leb s t else false
  end.
(** [Array.prototype.sort], which is stable, by a comparison that tells when its first
    argument may come first. *)
Fixpoint insert_by {A} (leb : A → A → bool) (x : A) (l : list A) : list A :=
  match l with
  | [] => [x]
  | y :: rest => if leb x y then x :: l else y :: insert_by leb x rest
  end.
Definition sort_by {A} (leb : A → A → bool) (l : list A) : list A := foldr (insert_by leb) [] l.
(** [Object.keys(input).sort()], with the properties' values. *)
Definition sort_properties {A} (l : list (string * A)) : list (string * A) :=
  sort_by (λ p q, key_leb p.1 q.1) l.

(** The digest of a text's bytes, in hexadecimal. *)
Class Sha256 := sha256 : string → string.

Section canonical.
Context `{Sha256}.

(** [encode]: an error for a bigint; nothing for a value that JSON leaves out. *)
Fixpoint canonical_encode (input : value) (arrayElement : bool) : result (option string) string :=
  match input with
  | VNull | VNonFinite => Success (Some "null")
  | VStr s => Success (Some (json_quote s))
  | VBool b => Success (Some (if b then "true" else "false"))
  | VNum n => Success (Some (String_of_Z n))
  | VUndefined | VFunction => Success (if arrayElement then Some "null" else None)
  | VBigint _ => Failure "Client command payloads cannot contain bigint values"
  | VBytes bytes => Success (Some ("Uint8Array(sha256:" +:+ sha256 bytes +:+ ")"))
  | VToJson json => canonical_encode json arrayElement
  | VArr l =>
      elements ←! (fix go l :=
                     match l with
                     | [] => Success []
                     | v :: l =>
                         e ←! canonical_encode v true;
                         es ←! go l;
                         Success (default "null" e :: es)
                     end) l;
      Success (Some ("[" +:+ str_join "," elements +:+ "]"))
  | VObj l =>
      encoded ←! (fix go l :=
                    match l with
                    | [] => Success []
                    | (k, v) :: l =>
                        e ←! canonical_encode v false;
                        es ←! go l;
                        Success ((k, e) :: es)
                    end) l;
      let properties := omap (λ kv, (λ e, json_quote kv.1 +:+ ":" +:+ e) <$> kv.2) (sort_properties encoded) in
      Success (Some ("{" +:+ str_join "," properties +:+ "}"))
  end.
Definition canonicalClientCommandJson (v : value) : result string string :=
  result_map (default "null") (canonical_encode v false).

(** ** Commands *)

Inductive CommandRetryPolicy := Safe | Never.
#[export] Instance CommandRetryPolicy_eq_dec : EqDecision CommandRetryPolicy.
Proof. solve_decision. Defined.
Inductive ClientCommandOwner := AccountOwner (subject : string) | DeviceOwner.
Record ClientCommand := {
  cc_kind : string;
  cc_commandId : string;
  cc_environmentId : string;
  cc_resource : option ResourceKey;
  cc_payload : value;
  cc_retry : CommandRetryPolicy;
  cc_createdAt : Z;
  cc_owner : option ClientCommandOwner;
  cc_awaitResourceReflection : bool;
  cc_resourceReflection : option (option ResourceCursor) }.
#[export] Instance ClientCommand_eta : Settable ClientCommand := λ c,
  Build_ClientCommand (cc_kind c) (cc_commandId c) (cc_environmentId c) (cc_resource c) (cc_payload c)
    (cc_retry c) (cc_createdAt c) (cc_owner c) (cc_awaitResourceReflection c) (cc_resourceReflection c).

Definition owner_value (o : ClientCommandOwner) : value :=
  match o with
  | AccountOwner subject => VObj [("kind", VStr "account"); ("subject", VStr subject)]
  | DeviceOwner => VObj [("kind", VStr "device")]
  end.
Definition retry_text (r : CommandRetryPolicy) : string := match r with Safe => "safe" | Never => "never" end.
Definition command_identity (c : ClientCommand) : value :=
  let fields :=
    [VStr (cc_kind c); VStr (cc_environmentId c);
     match cc_resource c with None => VNull | Some key => VStr (resourceKeyId key) end;
     VStr (retry_text (cc_retry c)); cc_payload c] in
  VArr match cc_owner c with
       | None => VStr "zuse-client-command-v1" :: fields
       | Some owner => VStr "zuse-client-command-v2" :: owner_value owner :: fields
       end.
Definition commandFingerprint (c : ClientCommand) : result string string :=
  result_map (λ identity, "sha256:" +:+ sha256 identity) (canonicalClientCommandJson (command_identity c)).

Definition stringField (v : value) (key : string) : option string :=
  match v with
  | VObj l => match list_find (λ kv, kv.1 = key) l with Some (_, (_, VStr s)) => Some s | _ => None end
  | _ => None
  end.
Definition clientCommandTargetId (c : ClientCommand) : option string :=
  match list_find (λ k, k.1 = cc_kind c)
          [("messages.background.stop", "taskId"); ("messages.interrupt", "expectedTurnId");
           ("messages.queue.add", "queueId"); ("messages.queue.runNext", "queueId");
           ("session.answerQuestion", "itemId"); ("session.cancelQuestion", "itemId");
           ("permission.decide", "requestId")] with
  | Some (_, (_, field)) => stringField (cc_payload c) field
  | None => None
  end.

End canonical.

(** ** Outcomes and receipts *)

(** [CloudCommandTerminalError]. *)
Record TerminalFailure := {
  tf_state : CloudCommandState;
  tf_category : option string;
  tf_message : string;
  tf_occurredAt : option Z }.
Record CommandReceipt {R : Type} := {
  rt_commandId : string;
  rt_fingerprint : string;
  rt_receivedAt : Z;
  rt_result : option R;
  rt_terminalError : option (CloudCommandState * option string * string) }.
Arguments CommandReceipt : clear implicits.
(** A delivery to the mailbox that was prepared: its envelope, the mailbox's acceptance
    and the last status. *)
Record OutboxEntry := {
  oe_command : ClientCommand;
  oe_fingerprint : string;
  oe_encryptedEnvelope : option CloudCommandEnvelope;
  oe_acceptance : option CommandAcceptance;
  oe_deliveryStatus : option CommandStatus;
  oe_attempts : Z;
  oe_lastAttemptAt : option Z }.
#[export] Instance OutboxEntry_eta : Settable OutboxEntry := λ e,
  Build_OutboxEntry (oe_command e) (oe_fingerprint e) (oe_encryptedEnvelope e) (oe_acceptance e)
    (oe_deliveryStatus e) (oe_attempts e) (oe_lastAttemptAt e).

Definition terminalCommandReceipt {R} (commandId fingerprint : string) (error : TerminalFailure) (now : Z)
  : CommandReceipt R :=
  {| rt_commandId := commandId; rt_fingerprint := fingerprint;
     rt_receivedAt := default now (tf_occurredAt error); rt_result := None;
     rt_terminalError := Some (tf_state error, tf_category error, tf_message error) |}.
Definition terminalErrorFromReceipt {R} (receipt : CommandReceipt R) : option TerminalFailure :=
  (λ '(state, category, message),
     {| tf_state := state; tf_category := category; tf_message := message;
        tf_occurredAt := Some (rt_receivedAt receipt) |}) <$> rt_terminalError receipt.

Lemma insert_by_perm {A} leb (x : A) l : insert_by leb x l ≡ₚ x :: l.
Proof. induction l as [|y l IH]; simpl; [done|]. destruct (leb x y); [done|]. rewrite IH. by constructor. Qed.
Lemma sort_by_perm {A} leb (l : list A) : sort_by leb l ≡ₚ l.
Proof. induction l as [|x l IH]; simpl; [done|]. rewrite insert_by_perm. by f_equiv. Qed.
Lemma sort_by_elem {A} leb (l : list A) x : x ∈ sort_by leb l ↔ x ∈ l.
Proof. by rewrite sort_by_perm. Qed.
Lemma sort_by_length {A} leb (l : list A) : length (sort_by leb l) = length l.
Proof. by rewrite sort_by_perm. Qed.
Lemma insert_by_ordered {A} leb (x : A) l :
  (∀ x y, leb x y = true ∨ leb y x = true) → (∀ x y z, leb x y = true → leb y z = true → leb x z = true) →
  StronglySorted (λ x y, leb x y = true) l → StronglySorted (λ x y, leb x y = true) (insert_by leb x l).
Proof.
  intros Htotal Htrans. induction 1 as [|y l Hl IH Hy]; simpl; [by repeat constructor|].
  destruct (leb x y) eqn:Hxy; constructor.
  - by constructor.
  - constructor; [done|]. eapply Forall_impl; [exact Hy|]. intros z Hz. by eapply Htrans.
  - done.
  - rewrite insert_by_perm. constructor; [|done]. destruct (Htotal x y); congruence.
Qed.
Lemma sort_by_ordered {A} leb (l : list A) :
  (∀ x y, leb x y = true ∨ leb y x = true) → (∀ x y z, leb x y = true → leb y z = true → leb x z = true) →
  StronglySorted (λ x y, leb x y = true) (sort_by leb l).
Proof. intros Htotal Htrans. induction l as [|x l IH]; [constructor|]. by apply insert_by_ordered. Qed.
