(* ===== verification/ClientContractsProps.v ===== *)
(** * Resource keys

    The id under which a client keeps a resource, its view and the lane of its commands. *)
From Stdlib Require Import Ascii.
From S2P Require Import Prelude Js ClientContracts.

Definition plain (s : string) : Prop := str_forall not_colon s = true.
Lemma plain_part s : plain (part s).
Proof. apply encodeURIComponent_no_colon. Qed.
Lemma plain_worktree w : plain (worktree_part w).
Proof.
  destruct w as [id|]; [|done]. unfold plain, worktree_part. rewrite str_forall_app. apply encodeURIComponent_no_colon.
Qed.
Lemma plain_colon a r : ¬ plain (a +:+ String colon r).
Proof. unfold plain. rewrite str_forall_app. cbn. by rewrite andb_false_r. Qed.
Lemma worktree_part_inj w w' : worktree_part w = worktree_part w' → w = w'.
Proof.
  destruct w as [id|], w' as [id'|]; try done. intros H. f_equal. apply (inj encodeURIComponent).
  exact (inj (String.app "some-") _ _ H).
Qed.

(** Colon-free parts are read back from their join. *)
Lemma str_join_inj (l l' : list string) :
  l ≠ [] → l' ≠ [] → Forall plain l → Forall plain l' → str_join ":" l = str_join ":" l' → l = l'.
Proof.
  revert l'. induction l as [|x l IH]; intros l' Hne Hne' Hl Hl' Heq; [done|].
  destruct l' as [|x' l']; [done|]. apply Forall_cons in Hl as [Hx Hl]. apply Forall_cons in Hl' as [Hx' Hl'].
  destruct l as [|y l], l' as [|y' l'].
  - cbn in Heq. by subst.
  - exfalso. apply (plain_colon x' (str_join ":" (y' :: l'))).
    change (plain (str_join ":" (x' :: y' :: l'))). by rewrite <-Heq.
  - exfalso. apply (plain_colon x (str_join ":" (y :: l))).
    change (plain (str_join ":" (x :: y :: l))). by rewrite Heq.
  - change (x +:+ String colon (str_join ":" (y :: l)) = x' +:+ String colon (str_join ":" (y' :: l'))) in Heq.
    apply colon_split_inj in Heq as [-> Heq]; [|done..]. f_equal. by apply IH.
Qed.

Definition ref_parts (ref : ResourceRef) : list string :=
  match ref with
  | SimulatorRef e chatId deviceId format => ["simulator"; part e; part chatId; part deviceId; format_text format]
  | MasterRef e masterId => ["master"; part e; part masterId]
  | SessionRef e sessionId => ["session"; part e; part sessionId]
  | ChatRef e chatId => ["chat"; part e; part chatId]
  | WorktreeRef e projectId worktreeId => ["worktree"; part e; part projectId; part worktreeId]
  | ProjectRef e projectId => ["project"; part e; part projectId]
  | TerminalRef e terminalId => ["terminal"; part e; part terminalId]
  | ExecutionRef e folderId worktreeId rootPath =>
      ["execution"; part e; part folderId; worktree_part worktreeId; part rootPath]
  | EnvironmentRef e => ["environment"; part e]
  end.
Lemma ref_parts_plain ref : Forall plain (ref_parts ref).
Proof.
  destruct ref; repeat constructor; try apply plain_part; try apply plain_worktree; try done. by destruct format.
Qed.
Lemma ref_parts_inj ref ref' : ref_parts ref = ref_parts ref' → ref = ref'.
Proof.
  destruct ref, ref'; try discriminate; intros [= H]; repeat match goal with
    | H : part _ = part _ |- _ => apply (inj encodeURIComponent) in H
    | H : worktree_part _ = worktree_part _ |- _ => apply worktree_part_inj in H
    end; subst; try done.
  by destruct format, format0.
Qed.
(** The keys that share the id of a git workspace. *)
Definition same_workspace (k k' : ResourceKey) : Prop :=
  ∃ e folderId worktreeId rootPath rootPath',
    k = {| rk_kind := RK_git_workspace; rk_ref := ExecutionRef e folderId worktreeId rootPath |}
    ∧ k' = {| rk_kind := RK_git_workspace; rk_ref := ExecutionRef e folderId worktreeId rootPath' |}.
Definition key_parts (k : ResourceKey) : list string :=
  match rk_kind k, rk_ref k with
  | RK_git_workspace, ExecutionRef e folderId worktreeId _ =>
      [kind_text RK_git_workspace; "execution"; part e; part folderId; worktree_part worktreeId]
  | kind, ref => kind_text kind :: ref_parts ref
  end.
Lemma key_parts_join k : resourceKeyId k = str_join ":" (key_parts k).
Proof. by destruct k as [[] []]. Qed.
Lemma kind_text_inj k k' : kind_text k = kind_text k' → k = k'.
Proof. destruct k, k'; done. Qed.
Lemma key_parts_plain k : Forall plain (key_parts k).
Proof.
  assert (Hk : ∀ kind, plain (kind_text kind)) by (by intros []).
  pose proof (ref_parts_plain (rk_ref k)) as Hp. unfold key_parts.
  destruct (rk_kind k), (rk_ref k); try (by constructor).
  inversion Hp as [|? ? ? Hp1]; inversion Hp1 as [|? ? ? Hp2]; inversion Hp2 as [|? ? ? Hp3]; inversion Hp3.
  by repeat constructor.
Qed.

Lemma key_parts_head k : head (key_parts k) = Some (kind_text (rk_kind k)).
Proof. unfold key_parts. destruct k as [[] ref]; try done. by destruct ref. Qed.
Lemma key_parts_ne k : key_parts k ≠ [].
Proof. intros H. pose proof (key_parts_head k) as Hh. by rewrite H in Hh. Qed.

(** C40: two resource keys have the same id only when they are the same key, or two root
    paths of one execution's git workspace, whatever their parts hold. *)
Theorem resource_keys_distinct k k' :
  resourceKeyId k = resourceKeyId k' ↔ k = k' ∨ same_workspace k k'.
Proof.
  split.
  - rewrite !key_parts_join. intros H. apply str_join_inj in H; auto using key_parts_ne, key_parts_plain.
    assert (Hkind : rk_kind k = rk_kind k').
    { apply kind_text_inj. apply (inj Some). by rewrite <-!key_parts_head, H. }
    destruct k as [kind ref], k' as [kind' ref']. cbn in Hkind. subst kind'.
    destruct (decide (kind = RK_git_workspace)) as [->|Hne].
    + destruct ref, ref'; try (left; f_equal; apply ref_parts_inj; exact (f_equal tail H)); try discriminate H.
      injection H as He Hf Hw. apply (inj encodeURIComponent) in He, Hf. apply worktree_part_inj in Hw. subst.
      right. by repeat eexists.
    + left. f_equal. apply ref_parts_inj. destruct kind; try done; exact (f_equal tail H).
  - intros [->|(e & f & w & p & p' & -> & ->)]; done.
Qed.
