(* ===== verification/ClientOutbox.v ===== *)
(** * The outbox of a client's commands

    [CommandOutbox] of packages/client-runtime/src/client-persistence.ts, as a class with
    what the bus relies on, and its two implementations in
    apps/renderer/src/lib/client-command-outbox.ts: the IndexedDB store, one definition
    per transaction, and the memory store. *)
From stdpp Require Import sorting.
From S2P Require Import Prelude Js JsMap Timeline Mailbox ClientContracts.

Local Open Scope Z_scope.

Section outbox.
Context {R : Type}.

(** A command id that is bound to another command. *)
Record CommandIdentityCollision := {
  cic_commandId : string; cic_stored : string; cic_requested : string }.
Definition assertCommandFingerprint (commandId stored requested : string)
  : result unit CommandIdentityCollision :=
  if decide (stored = requested) then Success tt
  else Failure {| cic_commandId := commandId; cic_stored := stored; cic_requested := requested |}.
Definition assert_matching {A} (commandId : string) (stored : option A) (fingerprint : A → string)
    (requested : string) : result unit CommandIdentityCollision :=
  match stored with
  | None => Success tt
  | Some x => assertCommandFingerprint commandId (fingerprint x) requested
  end.

Definition entry_id (e : OutboxEntry) : string := cc_commandId (oe_command e).

(** ** The interface *)

(** A request leaves the store as it is now, or reports a collision. *)
Class CommandOutbox (Store : Type) := {
  putOutbox : OutboxEntry → Store → Store * result unit CommandIdentityCollision;
  removeOutbox : string → string → Store → Store * result unit CommandIdentityCollision;
  completeOutbox : CommandReceipt R → Store → Store * result unit CommandIdentityCollision;
  findReceipt : string → Store → option (CommandReceipt R);
  listOutbox : option string → Store → list OutboxEntry }.

(** The row of a command, as the list has it. *)
Definition outbox_row {Store} `{CommandOutbox Store} (commandId : string) (s : Store) : option OutboxEntry :=
  head (filter (λ e, entry_id e = commandId) (listOutbox None s)).
End outbox.
Arguments CommandOutbox : clear implicits.

Definition MAX_RECEIPTS : nat := 512.
(** There are as many receipts as a store keeps, each of them chosen by [P]. *)
Definition receipts_full {R Store} `{CommandOutbox R Store} (P : CommandReceipt R → Prop) (s : Store) : Prop :=
  ∃ ids, NoDup ids ∧ length ids = MAX_RECEIPTS
    ∧ ∀ id, id ∈ ids → ∃ x, findReceipt id s = Some x ∧ P x.

(** What the bus relies on: rows are kept by command id and only replaced or removed under
    their own fingerprint; a receipt is stored, under its own fingerprint too, with the
    removal of its row, and given up only for as many others as a store keeps, which are no
    older when it is the receipt that was just stored. *)
Class CommandOutboxLaws {R Store : Type} `{CommandOutbox R Store} (wf : Store → Prop) := {
  wf_put e s : wf s → wf (putOutbox e s).1;
  wf_remove id fp s : wf s → wf (removeOutbox id fp s).1;
  wf_complete r s : wf s → wf (completeOutbox r s).1;
  list_environment env s :
    listOutbox (Some env) s ≡ₚ filter (λ e, cc_environmentId (oe_command e) = env) (listOutbox None s);
  list_ids s : wf s → NoDup (entry_id <$> listOutbox None s);
  put_row e s id : wf s →
    outbox_row id (putOutbox e s).1
    = if decide (id = entry_id e ∧ is_success (assert_matching id (outbox_row id s) oe_fingerprint (oe_fingerprint e)) = true)
      then Some e else outbox_row id s;
  put_result e s : wf s →
    (putOutbox e s).2 = assert_matching (entry_id e) (outbox_row (entry_id e) s) oe_fingerprint (oe_fingerprint e);
  put_receipts e s id : wf s → findReceipt id (putOutbox e s).1 = findReceipt id s;
  remove_row id' fp s id : wf s →
    outbox_row id (removeOutbox id' fp s).1
    = if decide (id = id' ∧ is_success (assert_matching id (outbox_row id s) oe_fingerprint fp) = true)
      then None else outbox_row id s;
  remove_result id fp s : wf s → (removeOutbox id fp s).2 = assert_matching id (outbox_row id s) oe_fingerprint fp;
  remove_receipts id' fp s id : wf s → findReceipt id (removeOutbox id' fp s).1 = findReceipt id s;
  complete_rows r s id : wf s →
    outbox_row id (completeOutbox r s).1 = outbox_row id s
    ∨ id = rt_commandId r
      ∧ is_success (assert_matching id (outbox_row id s) oe_fingerprint (rt_fingerprint r)) = true
      ∧ outbox_row id (completeOutbox r s).1 = None;
  complete_result r s : wf s →
    (completeOutbox r s).2
    = (_ ←! assert_matching (rt_commandId r) (outbox_row (rt_commandId r) s) oe_fingerprint (rt_fingerprint r);
       assert_matching (rt_commandId r) (findReceipt (rt_commandId r) s) rt_fingerprint (rt_fingerprint r));
  complete_success r s : wf s → is_success (completeOutbox r s).2 = true →
    outbox_row (rt_commandId r) (completeOutbox r s).1 = None;
  complete_failure r s id : wf s → findReceipt (rt_commandId r) s = None →
    is_success (completeOutbox r s).2 = false → outbox_row id (completeOutbox r s).1 = outbox_row id s;
  complete_receipts r s id r' : wf s → findReceipt id (completeOutbox r s).1 = Some r' →
    findReceipt id s = Some r' ∨ r' = r ∧ id = rt_commandId r ∧ is_success (completeOutbox r s).2 = true;
  complete_written r s : wf s → is_success (completeOutbox r s).2 = true →
    findReceipt (rt_commandId r) (completeOutbox r s).1 = Some r
    ∨ receipts_full (λ x, rt_receivedAt r <= rt_receivedAt x) (completeOutbox r s).1;
  complete_keeps r s id x : wf s → findReceipt id s = Some x →
    (is_success (completeOutbox r s).2 = true → id ≠ rt_commandId r) →
    findReceipt id (completeOutbox r s).1 = Some x ∨ receipts_full (λ _, True) (completeOutbox r s).1 }.

(** ** The stores *)

Section stores.
Context {R : Type} `{Collation}.

(** The object stores command-outbox and command-receipts, by their key path. *)
Record IndexedDb := {
  db_outbox : gmap string OutboxEntry;
  db_receipts : gmap string (CommandReceipt R) }.
#[export] Instance IndexedDb_eta : Settable IndexedDb := λ s,
  Build_IndexedDb (db_outbox s) (db_receipts s).

(** [getAll], in the order of the keys; [getAllKeys] of the index receivedAt. *)
Definition getAll {A} (m : gmap string A) : list A := (sort_properties (map_to_list m)).*2.
Definition receivedAt_keys (m : gmap string (CommandReceipt R)) : list string :=
  (sort_by (λ p q, rt_receivedAt p.2 <=? rt_receivedAt q.2) (sort_properties (map_to_list m))).*1.
Definition entry_leb (left right : OutboxEntry) : bool :=
  if cc_createdAt (oe_command left) =? cc_createdAt (oe_command right)
  then locale_le (entry_id left) (entry_id right)
  else cc_createdAt (oe_command left) <? cc_createdAt (oe_command right).

Definition db_putOutbox (e : OutboxEntry) (s : IndexedDb) : IndexedDb * result unit CommandIdentityCollision :=
  match assert_matching (entry_id e) (db_outbox s !! entry_id e) oe_fingerprint (oe_fingerprint e) with
  | Failure c => (s, Failure c)
  | Success _ => (s <| db_outbox ::= <[entry_id e := e]> |>, Success tt)
  end.
Definition db_removeOutbox (commandId fingerprint : string) (s : IndexedDb)
  : IndexedDb * result unit CommandIdentityCollision :=
  match assert_matching commandId (db_outbox s !! commandId) oe_fingerprint fingerprint with
  | Failure c => (s, Failure c)
  | Success _ => (s <| db_outbox ::= delete commandId |>, Success tt)
  end.
Definition writeReceipt (receipt : CommandReceipt R) (m : gmap string (CommandReceipt R))
  : result (gmap string (CommandReceipt R)) CommandIdentityCollision :=
  match assert_matching (rt_commandId receipt) (m !! rt_commandId receipt) rt_fingerprint (rt_fingerprint receipt) with
  | Failure c => Failure c
  | Success _ =>
      let m := <[rt_commandId receipt := receipt]> m in
      let keys := receivedAt_keys m in
      Success (foldl (λ m key, delete key m) m (take (length keys - MAX_RECEIPTS) keys))
  end.
(** The row is deleted by a request of the transaction before the receipt's, which commits
    also when the code throws at the receipt. *)
Definition db_completeOutbox (receipt : CommandReceipt R) (s : IndexedDb)
  : IndexedDb * result unit CommandIdentityCollision :=
  match assert_matching (rt_commandId receipt) (db_outbox s !! rt_commandId receipt) oe_fingerprint
          (rt_fingerprint receipt) with
  | Failure c => (s, Failure c)
  | Success _ =>
      let s := s <| db_outbox ::= delete (rt_commandId receipt) |> in
      match writeReceipt receipt (db_receipts s) with
      | Failure c => (s, Failure c)
      | Success receipts => (s <| db_receipts := receipts |>, Success tt)
      end
  end.
Definition db_listOutbox (environmentId : option string) (s : IndexedDb) : list OutboxEntry :=
  sort_by entry_leb
    match environmentId with
    | None => getAll (db_outbox s)
    | Some env => filter (λ e, cc_environmentId (oe_command e) = env) (getAll (db_outbox s))
    end.
#[export] Instance IndexedDbCommandOutbox : CommandOutbox R IndexedDb :=
  {| putOutbox := db_putOutbox; removeOutbox := db_removeOutbox; completeOutbox := db_completeOutbox;
     findReceipt id s := db_receipts s !! id; listOutbox := db_listOutbox |}.

(** The maps of the memory store, in the order of insertion. *)
Record Memory := {
  me_entries : list (string * OutboxEntry);
  me_receipts : list (string * CommandReceipt R) }.
#[export] Instance Memory_eta : Settable Memory := λ s, Build_Memory (me_entries s) (me_receipts s).

Definition me_putOutbox (e : OutboxEntry) (s : Memory) : Memory * result unit CommandIdentityCollision :=
  match assert_matching (entry_id e) (jm_get (entry_id e) (me_entries s)) oe_fingerprint (oe_fingerprint e) with
  | Failure c => (s, Failure c)
  | Success _ => (s <| me_entries ::= jm_set (entry_id e) e |>, Success tt)
  end.
Definition me_removeOutbox (commandId fingerprint : string) (s : Memory)
  : Memory * result unit CommandIdentityCollision :=
  match assert_matching commandId (jm_get commandId (me_entries s)) oe_fingerprint fingerprint with
  | Failure c => (s, Failure c)
  | Success _ => (s <| me_entries ::= jm_delete commandId |>, Success tt)
  end.
Definition me_putReceipt (receipt : CommandReceipt R) (s : Memory)
  : Memory * result unit CommandIdentityCollision :=
  match assert_matching (rt_commandId receipt) (jm_get (rt_commandId receipt) (me_receipts s)) rt_fingerprint
          (rt_fingerprint receipt) with
  | Failure c => (s, Failure c)
  | Success _ =>
      (s <| me_receipts ::= λ m, let m := jm_set (rt_commandId receipt) receipt m in
                                 drop (length m - MAX_RECEIPTS) m |>, Success tt)
  end.
Definition me_completeOutbox (receipt : CommandReceipt R) (s : Memory)
  : Memory * result unit CommandIdentityCollision :=
  match assert_matching (rt_commandId receipt) (jm_get (rt_commandId receipt) (me_entries s)) oe_fingerprint
          (rt_fingerprint receipt) with
  | Failure c => (s, Failure c)
  | Success _ =>
      match me_putReceipt receipt s with
      | (s, Failure c) => (s, Failure c)
      | (s, Success _) => (s <| me_entries ::= jm_delete (rt_commandId receipt) |>, Success tt)
      end
  end.
Definition me_listOutbox (environmentId : option string) (s : Memory) : list OutboxEntry :=
  sort_by entry_leb
    match environmentId with
    | None => jm_values (me_entries s)
    | Some env => filter (λ e, cc_environmentId (oe_command e) = env) (jm_values (me_entries s))
    end.
#[export] Instance MemoryCommandOutbox : CommandOutbox R Memory :=
  {| putOutbox := me_putOutbox; removeOutbox := me_removeOutbox; completeOutbox := me_completeOutbox;
     findReceipt id s := jm_get id (me_receipts s); listOutbox := me_listOutbox |}.
End stores.
