(* ===== verification/ClientOutboxProps.v ===== *)
(** * Both outboxes keep what the bus relies on *)
From stdpp Require Import sorting.
From S2P Require Import Prelude Js JsMap Timeline Mailbox ClientContracts ClientOutbox.

Local Open Scope Z_scope.

(** A list without repeated ids that holds the rows a function tells. *)
Lemma head_filter_row (l : list OutboxEntry) (row : string → option OutboxEntry) id :
  (∀ e, e ∈ l ↔ row (entry_id e) = Some e) → (∀ e, row id = Some e → entry_id e = id) →
  head (filter (λ e, entry_id e = id) l) = row id.
Proof.
  intros Hl Hid. destruct (filter (λ e, entry_id e = id) l) as [|e f] eqn:Hf; cbn.
  - destruct (row id) as [e|] eqn:Hr; [|done]. pose proof (Hid e eq_refl).
    assert (e ∈ filter (λ e, entry_id e = id) l) as Hin; [|by rewrite Hf in Hin; apply elem_of_nil in Hin].
    apply list_elem_of_filter. split; [done|]. apply Hl. congruence.
  - assert (e ∈ filter (λ e, entry_id e = id) l) as [He Hin]%list_elem_of_filter by (rewrite Hf; by left).
    apply Hl in Hin. congruence.
Qed.

Section stores.
Context {R : Type} `{Collation}.

Definition db_wf (s : @IndexedDb R) : Prop := ∀ id e, db_outbox s !! id = Some e → entry_id e = id.
Lemma getAll_elem {A} (m : gmap string A) x : x ∈ getAll m ↔ ∃ k, m !! k = Some x.
Proof.
  unfold getAll, sort_properties. rewrite sort_by_perm. rewrite list_elem_of_fmap. split.
  - intros ([k v] & -> & Hin%elem_of_map_to_list). by exists k.
  - intros [k Hk%elem_of_map_to_list]. by exists (k, x).
Qed.
Lemma db_list_elem (s : @IndexedDb R) e : db_wf s →
  e ∈ listOutbox None s ↔ db_outbox s !! entry_id e = Some e.
Proof.
  intros Hwf. change (listOutbox None s) with (sort_by entry_leb (getAll (db_outbox s))).
  rewrite sort_by_elem, getAll_elem. split; [|eauto].
  intros [k Hk]. by rewrite (Hwf _ _ Hk).
Qed.
Lemma db_row (s : @IndexedDb R) id : db_wf s → outbox_row id s = db_outbox s !! id.
Proof. intros Hwf. apply (head_filter_row (listOutbox None s) (λ id, db_outbox s !! id)); [intros e; by apply db_list_elem|apply Hwf]. Qed.
Lemma db_wf_outbox (s s' : @IndexedDb R) :
  db_wf s → (∀ id e, db_outbox s' !! id = Some e → db_outbox s !! id = Some e ∨ entry_id e = id) → db_wf s'.
Proof. intros Hwf Hs id e He. destruct (Hs _ _ He) as [Hold|]; [by apply Hwf|done]. Qed.
Lemma db_put_wf e (s : @IndexedDb R) : db_wf s → db_wf (putOutbox e s).1.
Proof.
  intros Hwf. apply (db_wf_outbox s); [done|]. cbn. unfold db_putOutbox. intros id e0. case_match; [|auto].
  cbn. rewrite lookup_insert_Some. naive_solver.
Qed.
Lemma db_remove_wf id fp (s : @IndexedDb R) : db_wf s → db_wf (removeOutbox id fp s).1.
Proof.
  intros Hwf. apply (db_wf_outbox s); [done|]. cbn. unfold db_removeOutbox. intros k e0. case_match; [|auto].
  cbn. rewrite lookup_delete_Some. naive_solver.
Qed.
Lemma db_complete_outbox r (s : @IndexedDb R) :
  db_outbox (completeOutbox r s).1 = db_outbox s
  ∨ is_success (assert_matching (rt_commandId r) (db_outbox s !! rt_commandId r) oe_fingerprint (rt_fingerprint r)) = true
    ∧ db_outbox (completeOutbox r s).1 = delete (rt_commandId r) (db_outbox s).
Proof.
  cbn. unfold db_completeOutbox. destruct (assert_matching _ _ _ _) eqn:?; [right|by left].
  split; [done|]. by case_match.
Qed.
Lemma db_complete_wf r (s : @IndexedDb R) : db_wf s → db_wf (completeOutbox r s).1.
Proof.
  intros Hwf. apply (db_wf_outbox s); [done|]. intros k e0.
  destruct (db_complete_outbox r s) as [->|[_ ->]]; [auto|]. rewrite lookup_delete_Some. naive_solver.
Qed.
Lemma foldl_delete {A} (keys : list string) (m : gmap string A) id x :
  foldl (λ m key, delete key m) m keys !! id = Some x → m !! id = Some x.
Proof.
  revert m. induction keys as [|k keys IH]; intros m; [done|]. cbn. intros Hx%IH.
  by apply lookup_delete_Some in Hx as [_ ?].
Qed.
Lemma db_writeReceipt_spec (r : CommandReceipt R) m m' id x :
  writeReceipt r m = Success m' → m' !! id = Some x → m !! id = Some x ∨ x = r ∧ id = rt_commandId r.
Proof.
  unfold writeReceipt. case_match; [|done]. intros [= <-] Hx%foldl_delete.
  apply lookup_insert_Some in Hx as [[<- <-]|[_ ?]]; [by right|by left].
Qed.

(** The oldest receipts are given up, down to the limit. *)
Lemma foldl_delete_outside {A} (keys : list string) (m : gmap string A) id :
  id ∉ keys → foldl (λ m key, delete key m) m keys !! id = m !! id.
Proof.
  revert m. induction keys as [|k keys IH]; intros m Hid; [done|]. apply not_elem_of_cons in Hid as [? ?].
  cbn. rewrite IH by done. by rewrite lookup_delete_ne.
Qed.
Lemma evicted_receipts (m : gmap string (CommandReceipt R)) id x :
  let keys := receivedAt_keys m in
  let m' := foldl (λ m key, delete key m) m (take (length keys - MAX_RECEIPTS) keys) in
  m !! id = Some x →
  m' !! id = Some x
  ∨ ∃ ids, NoDup ids ∧ length ids = MAX_RECEIPTS
      ∧ ∀ id', id' ∈ ids → ∃ y, m' !! id' = Some y ∧ rt_receivedAt x <= rt_receivedAt y.
Proof.
  intros keys m' Hid. subst m'. set (n := (length keys - MAX_RECEIPTS)%nat).
  set (leb := λ p q : string * CommandReceipt R, rt_receivedAt p.2 <=? rt_receivedAt q.2).
  set (l := sort_by leb (sort_properties (map_to_list m))).
  assert (Hl : l ≡ₚ map_to_list m) by (subst l; unfold sort_properties; by rewrite !sort_by_perm).
  assert (Hkeys : keys = l.*1) by done. assert (Hnd : NoDup keys) by (rewrite Hkeys, Hl; apply NoDup_fst_map_to_list).
  assert (Hsorted : StronglySorted (λ p q, leb p q = true) (take n l ++ drop n l)).
  { rewrite take_drop. apply sort_by_ordered; unfold leb; intros *; rewrite ?Z.leb_le; lia. }
  destruct (decide (id ∈ take n keys)) as [Hin|Hin]; [right|left; by rewrite foldl_delete_outside].
  rewrite Hkeys, <-fmap_take in Hin. apply list_elem_of_fmap in Hin as ([id0 x0] & -> & Hin).
  assert (x0 = x) as ->.
  { assert ((id0, x0) ∈ map_to_list m) as Hx%elem_of_map_to_list
      by (rewrite <-Hl; by eapply elem_of_sublist, sublist_take). cbn in Hid. congruence. }
  assert (MAX_RECEIPTS < length keys)%nat as Hlt.
  { destruct (decide (MAX_RECEIPTS < length keys)%nat); [done|]. replace n with 0%nat in Hin by (unfold n; lia).
    by apply elem_of_nil in Hin. }
  exists (drop n keys). split_and!.
  - eapply sublist_NoDup; [exact Hnd|apply sublist_drop].
  - rewrite length_drop. unfold n. lia.
  - intros id' Hid'. rewrite Hkeys, <-fmap_drop in Hid'. apply list_elem_of_fmap in Hid' as ([id1 y] & -> & Hy).
    exists y. cbn. split.
    + rewrite foldl_delete_outside.
      * apply elem_of_map_to_list. rewrite <-Hl. by eapply elem_of_sublist, sublist_drop.
      * rewrite <-(take_drop n keys) in Hnd. apply NoDup_app in Hnd as (_ & Hnd & _). intros Ht.
        apply (Hnd _ Ht). rewrite Hkeys, <-fmap_drop. apply list_elem_of_fmap. by exists (id1, y).
    + pose proof (StronglySorted_app_1_elem_of _ _ _ _ _ Hsorted Hin Hy) as Hle. by apply Z.leb_le in Hle.
Qed.
Lemma writeReceipt_keeps (r : CommandReceipt R) m m' id x :
  writeReceipt r m = Success m' → <[rt_commandId r := r]> m !! id = Some x →
  m' !! id = Some x
  ∨ ∃ ids, NoDup ids ∧ length ids = MAX_RECEIPTS
      ∧ ∀ id', id' ∈ ids → ∃ y, m' !! id' = Some y ∧ rt_receivedAt x <= rt_receivedAt y.
Proof. unfold writeReceipt. case_match; [|done]. intros [= <-]. apply evicted_receipts. Qed.

#[export] Instance IndexedDb_laws : CommandOutboxLaws db_wf.
Proof.
  split.
  - apply db_put_wf.
  - apply db_remove_wf.
  - apply db_complete_wf.
  - intros env s. change (sort_by entry_leb (filter (λ e, cc_environmentId (oe_command e) = env) (getAll (db_outbox s)))
      ≡ₚ filter (λ e, cc_environmentId (oe_command e) = env) (sort_by entry_leb (getAll (db_outbox s)))).
    by rewrite !sort_by_perm.
  - intros s Hwf. change (NoDup (entry_id <$> sort_by entry_leb (getAll (db_outbox s)))).
    unfold getAll, sort_properties. rewrite !sort_by_perm.
    rewrite <-list_fmap_compose.
    assert ((entry_id ∘ snd <$> map_to_list (db_outbox s)) = (map_to_list (db_outbox s)).*1) as ->.
    { apply list_fmap_ext. intros i [k e] Hi. cbn. apply Hwf, elem_of_map_to_list. by eapply list_elem_of_lookup_2. }
    apply NoDup_fst_map_to_list.
  - intros e s id Hwf. rewrite !db_row by (try apply db_put_wf; done). cbn. unfold db_putOutbox.
    destruct (decide (id = entry_id e)) as [->|Hne].
    + destruct (assert_matching _ _ _ _); cbn.
      * rewrite decide_True by done. by rewrite lookup_insert_eq.
      * by rewrite decide_False by naive_solver.
    + rewrite decide_False by naive_solver. case_match; [|done]. cbn. by rewrite lookup_insert_ne.
  - intros e s Hwf. rewrite db_row by done. cbn. unfold db_putOutbox.
    destruct (assert_matching _ _ _ _) as [[]|] eqn:?; done.
  - intros e s id _. cbn. unfold db_putOutbox. by case_match.
  - intros id' fp s id Hwf. rewrite !db_row by (try apply db_remove_wf; done). cbn. unfold db_removeOutbox.
    destruct (decide (id = id')) as [->|Hne].
    + destruct (assert_matching _ _ _ _); cbn.
      * rewrite decide_True by done. by rewrite lookup_delete_eq.
      * by rewrite decide_False by naive_solver.
    + rewrite decide_False by naive_solver. case_match; [|done]. cbn. by rewrite lookup_delete_ne.
  - intros id fp s Hwf. rewrite db_row by done. cbn. unfold db_removeOutbox.
    destruct (assert_matching _ _ _ _) as [[]|] eqn:?; done.
  - intros id' fp s id _. cbn. unfold db_removeOutbox. by case_match.
  - intros r s id Hwf. rewrite !db_row by (try apply db_complete_wf; done).
    destruct (db_complete_outbox r s) as [->|[Ha ->]]; [by left|].
    destruct (decide (id = rt_commandId r)) as [->|]; [right|left].
    + by rewrite lookup_delete_eq.
    + by rewrite lookup_delete_ne.
  - intros r s Hwf. rewrite db_row by done. cbn. unfold db_completeOutbox.
    destruct (assert_matching _ _ oe_fingerprint _); [|done]. cbn. unfold writeReceipt.
    by destruct (assert_matching _ (db_receipts s !! _) _ _) as [[]|].
  - intros r s Hwf. rewrite !db_row by (by apply db_complete_wf). cbn. unfold db_completeOutbox.
    destruct (assert_matching _ _ oe_fingerprint _); [|done]. case_match; [|done]. cbn. by rewrite lookup_delete_eq.
  - intros r s id Hwf Hnone. rewrite !db_row by (try apply db_complete_wf; done). cbn in *.
    unfold db_completeOutbox. destruct (assert_matching _ _ oe_fingerprint _) as [[]|] eqn:Ha; cbn; [|done].
    unfold writeReceipt. by rewrite Hnone.
  - intros r s id r' Hwf. cbn. unfold db_completeOutbox.
    destruct (assert_matching _ _ _ _); cbn; [|by left].
    destruct (writeReceipt _ _) eqn:Hw; cbn; [|by left].
    intros Hr. destruct (db_writeReceipt_spec _ _ _ _ _ Hw Hr) as [?|[-> ->]]; [by left|by right].
  - intros r s _. cbn. unfold db_completeOutbox. destruct (assert_matching _ _ _ _); [|done].
    destruct (writeReceipt _ _) as [m'|] eqn:Hw; [|done]. intros _. unfold receipts_full. cbn.
    eapply writeReceipt_keeps; [exact Hw|]. by rewrite lookup_insert_eq.
  - intros r s id x _. cbn. unfold db_completeOutbox. destruct (assert_matching _ _ _ _); [|by left].
    destruct (writeReceipt _ _) as [m'|] eqn:Hw; [|by left]. intros Hx Hne. unfold receipts_full. cbn in *.
    destruct (writeReceipt_keeps r _ m' id x Hw) as [?|(ids & Hnd & Hlen & Hids)]; [|by left|right].
    + rewrite lookup_insert_ne; [done|]. intros <-. by apply Hne.
    + exists ids. split_and!; [done..|]. intros id' (y & Hy & _)%Hids. by exists y.
Qed.

Definition entries_wf (m : list (string * OutboxEntry)) : Prop :=
  jm_wf m ∧ ∀ id e, jm_get id m = Some e → entry_id e = id.
Definition receipts_wf (m : list (string * CommandReceipt R)) : Prop := jm_wf m ∧ (length m ≤ MAX_RECEIPTS)%nat.
Definition me_wf (s : @Memory R) : Prop := entries_wf (me_entries s) ∧ receipts_wf (me_receipts s).
Lemma jm_values_elem m e : entries_wf m → e ∈ jm_values m ↔ jm_get (entry_id e) m = Some e.
Proof.
  intros [Hwf Hid]. unfold jm_values. rewrite list_elem_of_fmap. split.
  - intros ([k x] & -> & Hin). pose proof (jm_elem_get k x m Hwf Hin) as Hk. cbn. by rewrite (Hid _ _ Hk).
  - intros Hk. exists (entry_id e, e). split; [done|]. by apply jm_get_elem.
Qed.
Lemma entries_wf_set e m : entries_wf m → entries_wf (jm_set (entry_id e) e m).
Proof.
  intros [Hwf Hid]. split; [by apply jm_wf_set|].
  intros id e0. rewrite jm_get_set. case_decide; [congruence|apply Hid].
Qed.
Lemma entries_wf_delete id m : entries_wf m → entries_wf (jm_delete id m).
Proof.
  intros [Hwf Hid]. split; [by apply jm_wf_delete|].
  intros k e0. rewrite jm_get_delete. case_decide; [done|apply Hid].
Qed.
Lemma me_row (s : @Memory R) id : me_wf s → outbox_row id s = jm_get id (me_entries s).
Proof.
  intros [[Hwf Hid] _]. apply (head_filter_row (listOutbox None s) (λ id, jm_get id (me_entries s))); [|apply Hid].
  intros e. change (listOutbox None s) with (sort_by entry_leb (jm_values (me_entries s))).
  rewrite sort_by_elem. by apply jm_values_elem.
Qed.
Lemma me_put_wf e (s : @Memory R) : me_wf s → me_wf (putOutbox e s).1.
Proof.
  intros [Hwf Hr]. cbn. unfold me_putOutbox. case_match; [|done]. split; cbn; [by apply entries_wf_set|done].
Qed.
Lemma me_remove_wf id fp (s : @Memory R) : me_wf s → me_wf (removeOutbox id fp s).1.
Proof.
  intros [Hwf Hr]. cbn. unfold me_removeOutbox. case_match; [|done]. split; cbn; [by apply entries_wf_delete|done].
Qed.
Lemma jm_wf_drop {A} n (m : list (string * A)) : jm_wf m → jm_wf (drop n m).
Proof. unfold jm_wf, jm_keys. rewrite fmap_drop. intros Hm. eapply sublist_NoDup; [exact Hm|apply sublist_drop]. Qed.
Lemma jm_get_drop {A} n (m : list (string * A)) id x :
  jm_wf m → jm_get id (drop n m) = Some x → jm_get id m = Some x.
Proof.
  intros Hwf Hx%jm_get_elem. apply jm_elem_get; [done|]. eapply elem_of_sublist; [exact Hx|apply sublist_drop].
Qed.
Lemma jm_set_snoc {A} (k : string) (v : A) m :
  length (jm_set k v m) = length m ∨ jm_set k v m = m ++ [(k, v)].
Proof.
  induction m as [|[k' v'] m IH]; [by right|]. cbn. case_decide; [by left|]. cbn.
  destruct IH as [-> | ->]; auto.
Qed.
Lemma me_putReceipt_spec (r : CommandReceipt R) s s' :
  receipts_wf (me_receipts s) → me_putReceipt r s = (s', Success tt) →
  me_entries s' = me_entries s ∧ receipts_wf (me_receipts s')
  ∧ (∀ id x, jm_get id (me_receipts s') = Some x →
      jm_get id (me_receipts s) = Some x ∨ x = r ∧ id = rt_commandId r)
  ∧ jm_get (rt_commandId r) (me_receipts s') = Some r
  ∧ ∀ id x, id ≠ rt_commandId r → jm_get id (me_receipts s) = Some x →
      jm_get id (me_receipts s') = Some x ∨ length (me_receipts s') = MAX_RECEIPTS.
Proof.
  intros [Hwf Hlen]. unfold me_putReceipt. case_match; [|done]. intros [= <-]. cbn.
  pose proof (jm_wf_set (rt_commandId r) r _ Hwf) as Hwf'.
  set (m := jm_set (rt_commandId r) r (me_receipts s)) in *. split_and!; [done| | | |].
  - split; [by apply jm_wf_drop|]. rewrite length_drop. lia.
  - intros id x Hx%jm_get_drop; [|done]. unfold m in Hx. rewrite jm_get_set in Hx. case_decide; [|by left].
    right. by simplify_eq.
  - destruct (decide (length m ≤ MAX_RECEIPTS)%nat) as [Hle|Hgt].
    { replace (length m - MAX_RECEIPTS)%nat with 0%nat by lia. apply jm_get_set_eq. }
    apply jm_elem_get; [by apply jm_wf_drop|]. destruct (jm_set_snoc (rt_commandId r) r (me_receipts s)) as [Hs|Hs].
    { exfalso. apply Hgt. unfold m. rewrite Hs. exact Hlen. }
    fold m in Hs. rewrite Hs, drop_app_le, elem_of_app; [right; by left|].
    rewrite length_app. change (length [(rt_commandId r, r)]) with 1%nat. unfold MAX_RECEIPTS. lia.
  - intros id x Hne Hx. destruct (decide (length m ≤ MAX_RECEIPTS)%nat) as [Hle|Hgt]; [left|right].
    + replace (length m - MAX_RECEIPTS)%nat with 0%nat by lia. rewrite drop_0. unfold m. by rewrite jm_get_set_ne.
    + rewrite length_drop. lia.
Qed.
(** What completing a row comes to. *)
Lemma me_complete_cases r (s : @Memory R) : receipts_wf (me_receipts s) →
  (completeOutbox r s).1 = s ∧ is_success (completeOutbox r s).2 = false
  ∨ ∃ s', me_putReceipt r s = (s', Success tt)
      ∧ is_success (assert_matching (rt_commandId r) (jm_get (rt_commandId r) (me_entries s)) oe_fingerprint (rt_fingerprint r)) = true
      ∧ completeOutbox r s = (s' <| me_entries ::= jm_delete (rt_commandId r) |>, Success tt).
Proof.
  intros Hwf. cbn. unfold me_completeOutbox. destruct (assert_matching _ _ oe_fingerprint _); [|by left].
  destruct (me_putReceipt r s) as [s' [[]|c]] eqn:Hp; [right; eauto|left].
  split; [|done]. cbn. unfold me_putReceipt in Hp. by case_match; simplify_eq.
Qed.
Lemma me_complete_wf r (s : @Memory R) : me_wf s → me_wf (completeOutbox r s).1.
Proof.
  intros [Hwf Hr]. destruct (me_complete_cases r s Hr) as [[-> _]|(s' & Hp & _ & ->)]; [done|].
  destruct (me_putReceipt_spec _ _ _ Hr Hp) as (He & Hr' & _ & _). split; cbn; [|done].
  rewrite He. by apply entries_wf_delete.
Qed.

#[export] Instance Memory_laws : CommandOutboxLaws me_wf.
Proof.
  split.
  - apply me_put_wf.
  - apply me_remove_wf.
  - apply me_complete_wf.
  - intros env s. change (sort_by entry_leb (filter (λ e, cc_environmentId (oe_command e) = env) (jm_values (me_entries s)))
      ≡ₚ filter (λ e, cc_environmentId (oe_command e) = env) (sort_by entry_leb (jm_values (me_entries s)))).
    by rewrite !sort_by_perm.
  - intros s [[Hwf Hid] _]. change (NoDup (entry_id <$> sort_by entry_leb (jm_values (me_entries s)))).
    rewrite sort_by_perm. unfold jm_values. rewrite <-list_fmap_compose.
    assert ((entry_id ∘ snd <$> me_entries s) = (me_entries s).*1) as ->; [|apply Hwf].
    apply list_fmap_ext. intros i [k e] Hi. cbn. apply Hid, jm_elem_get; [done|]. by eapply list_elem_of_lookup_2.
  - intros e s id Hwf. rewrite !me_row by (try apply me_put_wf; done). cbn. unfold me_putOutbox.
    destruct (decide (id = entry_id e)) as [->|Hne].
    + destruct (assert_matching _ _ _ _); cbn.
      * rewrite decide_True by done. by rewrite jm_get_set_eq.
      * by rewrite decide_False by naive_solver.
    + rewrite decide_False by naive_solver. case_match; [|done]. cbn. by rewrite jm_get_set_ne.
  - intros e s Hwf. rewrite me_row by done. cbn. unfold me_putOutbox.
    destruct (assert_matching _ _ _ _) as [[]|] eqn:?; done.
  - intros e s id _. cbn. unfold me_putOutbox. by case_match.
  - intros id' fp s id Hwf. rewrite !me_row by (try apply me_remove_wf; done). cbn. unfold me_removeOutbox.
    destruct (decide (id = id')) as [->|Hne].
    + destruct (assert_matching _ _ _ _); cbn.
      * rewrite decide_True by done. by rewrite jm_get_delete, decide_True.
      * by rewrite decide_False by naive_solver.
    + rewrite decide_False by naive_solver. case_match; [|done]. cbn. by rewrite jm_get_delete, decide_False.
  - intros id fp s Hwf. rewrite me_row by done. cbn. unfold me_removeOutbox.
    destruct (assert_matching _ _ _ _) as [[]|] eqn:?; done.
  - intros id' fp s id _. cbn. unfold me_removeOutbox. by case_match.
  - intros r s id Hwf. rewrite !me_row by (try apply me_complete_wf; done).
    destruct Hwf as [_ Hr]. destruct (me_complete_cases r s Hr) as [[-> _]|(s' & Hp & Ha & ->)]; [by left|].
    cbn. fold (jm_delete (rt_commandId r) (me_entries s')). rewrite jm_get_delete.
    destruct (me_putReceipt_spec _ _ _ Hr Hp) as (-> & _). case_decide; [right; by subst|by left].
  - intros r s Hwf. rewrite me_row by done. cbn. unfold me_completeOutbox, me_putReceipt.
    destruct (assert_matching _ _ oe_fingerprint _); [|done]. cbn.
    by destruct (assert_matching _ (jm_get _ (me_receipts s)) _ _) as [[]|].
  - intros r s Hwf. rewrite !me_row by (by apply me_complete_wf). destruct Hwf as [_ Hr].
    destruct (me_complete_cases r s Hr) as [[-> ->]|(s' & _ & _ & ->)]; [done|].
    intros _. cbn. fold (jm_delete (rt_commandId r) (me_entries s')). by rewrite jm_get_delete, decide_True.
  - intros r s id Hwf Hnone. rewrite !me_row by (try apply me_complete_wf; done). destruct Hwf as [_ Hr].
    by destruct (me_complete_cases r s Hr) as [[-> _]|(s' & _ & _ & ->)].
  - intros r s id r' [_ Hr]. destruct (me_complete_cases r s Hr) as [[-> _]|(s' & Hp & _ & ->)]; [by left|].
    cbn. destruct (me_putReceipt_spec _ _ _ Hr Hp) as (_ & _ & Hx & _). intros Hg. destruct (Hx _ _ Hg) as [?|[-> ->]]; auto.
  - intros r s [_ Hr]. destruct (me_complete_cases r s Hr) as [[_ ->]|(s' & Hp & _ & ->)]; [done|]. intros _. left.
    apply (me_putReceipt_spec _ _ _ Hr Hp).
  - intros r s id x [_ Hr]. destruct (me_complete_cases r s Hr) as [[-> _]|(s' & Hp & _ & ->)]; [by left|].
    destruct (me_putReceipt_spec _ _ _ Hr Hp) as (_ & [Hwf' _] & _ & _ & Hkeep). cbn. intros Hx Hne.
    destruct (Hkeep id x (Hne eq_refl) Hx) as [?|Hfull]; [by left|right].
    exists (jm_keys (me_receipts s')). split_and!; [done|by unfold jm_keys; rewrite length_fmap|].
    intros id' (p & -> & Hp')%list_elem_of_fmap. destruct p as [k v]. exists v. split; [|done]. cbn.
    by apply jm_elem_get.
Qed.
End stores.

(** C39: the IndexedDB store and the memory store both keep what the bus relies on: rows by
    command id, replaced, removed and completed only under their own fingerprint; a command
    that completes has its receipt stored with the removal of its row, unless it collides
    with a receipt under another fingerprint, and no other receipt appears; a receipt is
    given up only when there are 512 others, and the one just stored only when these are no
    older. *)
Theorem stores_implement_outbox `{Collation} {R : Type} :
  CommandOutboxLaws (R:=R) db_wf ∧ CommandOutboxLaws (R:=R) me_wf.
Proof. split; apply _. Qed.
