(* ===== verification/ClientBus.v ===== *)
(** * The delivery of a client's commands

    The command side of [ClientBus], packages/client-runtime/src/client-bus.ts. An async
    function is a [prog]: a tree of actions, each a synchronous effect on the bus or the
    wait for a promise, whose branches are the answers. A dispatched command is a fiber
    that runs [dispatchWithPersistedReceipt]; fibers interleave at their waits, and
    [Crash] loses all of them and everything but the outbox. The bus is configured with an
    outbox and an executor. Commands are values here: their fingerprint, which the source
    computes again before it uses a command that a caller may have changed, is computed
    once. *)
From stdpp Require Import sorting.
From S2P Require Import Prelude Js JsMap Mailbox ClientContracts ClientOutbox.

Local Open Scope Z_scope.

(** ** Programs *)

Section prog.
Context {action : Type} {answer : action → Type}.
Inductive prog (A : Type) : Type :=
| Ret (a : A)
| Act (a : action) (k : answer a → prog A).
End prog.
Arguments prog {action} answer A.
Arguments Ret {action answer A} a.
Arguments Act {action answer A} a k.

Fixpoint prog_bind {action} {answer : action → Type} {A B} (p : prog answer A) (f : A → prog answer B)
  : prog answer B :=
  match p with
  | Ret a => f a
  | Act a k => Act a (λ r, prog_bind (k r) f)
  end.
Definition do {action} {answer : action → Type} (a : action) : prog answer (answer a) := Act a Ret.

Declare Scope prog_scope.
Delimit Scope prog_scope with prog.
Notation "x ⇐ p ; q" := (prog_bind p (λ x, q))
  (at level 100, p at next level, q at level 200, right associativity) : prog_scope.
Notation "p ;; q" := (prog_bind p (λ _, q))
  (at level 100, q at level 200, right associativity) : prog_scope.
Local Open Scope prog_scope.

(** ** Causes *)

(** Why a promise is rejected: [Cause_error] is any other error, with the text that
    [messageOf] finds in it. *)
Inductive Cause :=
| Cause_disposed
| Cause_authority
| Cause_collision (c : CommandIdentityCollision)
| Cause_terminal (e : TerminalFailure)
| Cause_unavailable (message : string)
| Cause_error (message : string).
Definition messageOf (c : Cause) : string :=
  match c with
  | Cause_disposed => "ClientBus disposed"
  | Cause_authority => "Command delivery paused because its authority changed."
  | Cause_collision c => "Command ID " +:+ cic_commandId c +:+ " was reused for a different command"
  | Cause_terminal e => tf_message e
  | Cause_unavailable message | Cause_error message => message
  end.
Definition of_collision {A} (r : result A CommandIdentityCollision) : result A Cause :=
  match r with Success a => Success a | Failure c => Failure (Cause_collision c) end.

(** ** Views *)

(** [pendingCommandWithDeliveryStatus]. *)
Definition pendingCommandWithDeliveryStatus (p : PendingCommand) (st : CommandStatus) : PendingCommand :=
  p <| pc_deliveryPhase := Some (DP_state (if decide (cst_state st = CS_accepted)
                                           then CS_waiting_for_runtime else cst_state st)) |>
    <| pc_category := cst_category st |>
    <| pc_blockedUntil := cst_blockedUntil st |>
    <| pc_cancellable := Some (negb (cst_everLeased st)
         && bool_decide (cst_state st ∈ [CS_accepted; CS_waiting_for_runtime; CS_blocked])) |>.

Section views.
Context {D : Type}.
Implicit Types v : ResourceView D.

Definition on_pending (commandId : string) (f : PendingCommand → PendingCommand) v : ResourceView D :=
  v <| rv_pendingCommands ::= map (λ p, if decide (pc_commandId p = commandId) then f p else p) |>.
Definition drop_pending (commandId : string) v : ResourceView D :=
  v <| rv_pendingCommands ::= filter (λ p, pc_commandId p ≠ commandId) |>.
Definition show_pending (pending : PendingCommand) v : ResourceView D :=
  v <| rv_pendingCommands ::= λ l,
        filter (λ p, pc_commandId p ≠ pc_commandId pending) l
        ++ [default pending (snd <$> list_find (λ p, pc_commandId p = pc_commandId pending) l)] |>
    <| rv_failedCommands ::= filter (λ f, fc_commandId f ≠ pc_commandId pending) |>.
Definition show_failed (failed : FailedCommand) v : ResourceView D :=
  (drop_pending (fc_commandId failed) v)
    <| rv_failedCommands ::= λ l, filter (λ f, fc_commandId f ≠ fc_commandId failed) l ++ [failed] |>.
Definition show_applied (commandId : string) v : ResourceView D :=
  on_pending commandId
    (λ p, p <| pc_deliveryPhase := Some (DP_state CS_applied) |> <| pc_category := None |>
            <| pc_blockedUntil := None |> <| pc_cancellable := Some false |>) v.
Definition show_status (commandId : string) (st : CommandStatus) v : ResourceView D :=
  on_pending commandId (λ p, pendingCommandWithDeliveryStatus p st) v.
End views.

(** ** Actions *)

Section bus.
Context {D R Store : Type} `{Sha256} `{CommandOutbox R Store}.

(** What the executor answers: the id of its receipt, its time and result. *)
Record ExecutionReceipt := { xr_commandId : string; xr_receivedAt : Z; xr_result : R }.

(** The options of the bus that are functions of the platform. *)
Class BusOptions := {
  commandOwnerFor : option (ClientCommand → ClientCommandOwner);
  commandReflected : option (ClientCommand → ResourceView D → bool);
  commandFaultFor : Cause → string → bool }.

(** Synchronous actions up to [CallExecutor]; the others wait. *)
Inductive action :=
| IsDisposed
| IsAuthorized
| Transport
| Now
| View (f : ResourceView D → ResourceView D)
| IsReflected
| AddWaiter
| DeleteWaiter
| OwnAttempt
| ReleaseAttempt
| Start (envelope : CloudCommandEnvelope)
| ResolveAccepted (a : CommandAcceptance)
| OfferCancel
| Remember (r : CommandReceipt R)
| SetCompleted (r : CommandReceipt R)
| RetainWake
| ReleaseWake
| ReportFault
| Subscribe
| Unsubscribe
| CallExecutor
| FindReceipt
| ListOutbox (environmentId : option string)
| PutOutbox (e : OutboxEntry)
| RemoveOutbox
| CompleteOutbox (r : CommandReceipt R)
| Prepare (resume : option OutboxEntry)
| Acceptance
| Outcome
| StatusPersistence
| Turn
| LaneTurn
| Connect
| Execute
| Reflection
| RetryDelay.
Definition answer (a : action) : Type :=
  match a with
  | IsDisposed | IsAuthorized | IsReflected => bool
  | Transport => option bool
  | Now => Z
  | View _ | AddWaiter | DeleteWaiter | OwnAttempt | ReleaseAttempt | Start _ | ResolveAccepted _ | OfferCancel
  | Remember _ | SetCompleted _ | RetainWake | ReleaseWake | ReportFault | Subscribe | Unsubscribe | CallExecutor => unit
  | FindReceipt => result (option (CommandReceipt R)) Cause
  | ListOutbox _ => result (list OutboxEntry) Cause
  | PutOutbox _ | RemoveOutbox | CompleteOutbox _ => result unit Cause
  | Prepare _ => result (CloudCommandEnvelope * string) Cause
  | Acceptance => result CommandAcceptance Cause
  | Outcome => result (CommandReceipt R) Cause
  | StatusPersistence | LaneTurn => unit
  | Turn | Reflection | RetryDelay => result unit Cause
  | Connect => result bool Cause
  | Execute => result ExecutionReceipt Cause
  end.
Definition waits (a : action) : bool :=
  match a with
  | FindReceipt | ListOutbox _ | PutOutbox _ | RemoveOutbox | CompleteOutbox _ | Prepare _ | Acceptance
  | Outcome | StatusPersistence | Turn | LaneTurn | Connect | Execute | Reflection | RetryDelay => true
  | _ => false
  end.

(** ** [prepareAndExecute] *)

Context `{BusOptions}.

(** The local variables that the handler of a failure reads: [retainForRetry] and
    [durableDeliveryPending]. *)
Record Flags := { fl_retain : bool; fl_durable : bool }.
Definition body (A : Type) : Type := prog answer (result A (Cause * Flags)).
Definition throw {A} (c : Cause) (fl : Flags) : body A := Ret (Failure (c, fl)).
(** Waits for a promise that may be rejected. *)
Definition await {A B} (p : prog answer (result A Cause)) (fl : Flags) (k : A → body B) : body B :=
  r ⇐ p; match r with Success a => k a | Failure c => throw c fl end.
Definition try_bind {A B} (p : body A) (k : A → body B) : body B :=
  r ⇐ p; match r with Success a => k a | Failure e => Ret (Failure e) end.
Definition assertActive {A} (fl : Flags) (k : body A) : body A :=
  d ⇐ do IsDisposed; if d : bool then throw Cause_disposed fl else k.
Definition assertAuthority {A} (fl : Flags) (k : body A) : body A :=
  b ⇐ do IsAuthorized; if b : bool then k else throw Cause_authority fl.
Definition find_entry (commandId : string) (l : list OutboxEntry) : option OutboxEntry :=
  head (filter (λ e, entry_id e = commandId) l).

Section command.
Variable c : ClientCommand.
Variable fingerprint : string.

(** The row is written before anything is sent. *)
Definition persist_command : body (option OutboxEntry) :=
  let fl := {| fl_retain := false; fl_durable := false |} in
  if decide (cc_retry c = Safe) then
    await (do (ListOutbox None)) fl (λ queued,
    let previous := find_entry (cc_commandId c) queued in
    match assert_matching (cc_commandId c) previous oe_fingerprint fingerprint with
    | Failure e => throw (Cause_collision e) fl
    | Success _ =>
        now ⇐ do Now;
        await (do (PutOutbox
          {| oe_command := c; oe_fingerprint := fingerprint;
             oe_encryptedEnvelope := previous ≫= oe_encryptedEnvelope;
             oe_acceptance := previous ≫= oe_acceptance;
             oe_deliveryStatus := previous ≫= oe_deliveryStatus;
             oe_attempts := default 0 (oe_attempts <$> previous) + 1; oe_lastAttemptAt := Some now |})) fl (λ _,
        Ret (Success previous))
    end)
  else Ret (Success None).

Definition retain : bool := bool_decide (cc_retry c = Safe).

(** [waitForResourceReflection]. *)
Definition waitForResourceReflection (fl : Flags) : body unit :=
  assertAuthority fl
    (match commandReflected with
     | Some _ =>
         if cc_awaitResourceReflection c && bool_decide (is_Some (cc_resource c)) then
           reflected ⇐ do IsReflected;
           if reflected : bool then Ret (Success tt)
           else
             do AddWaiter;;
             do (View (show_applied (cc_commandId c)));;
             r ⇐ do Reflection;
             do DeleteWaiter;;
             match r with Success _ => Ret (Success tt) | Failure e => throw e fl end
         else Ret (Success tt)
     | None => Ret (Success tt)
     end).
(** The end that both ways of delivery share. *)
Definition finish_delivery (receipt : CommandReceipt R) (complete : bool) (fl : Flags) : body (CommandReceipt R) :=
  try_bind (waitForResourceReflection fl) (λ _,
  let done :=
    assertAuthority fl (do (View (drop_pending (cc_commandId c)));; Ret (Success receipt)) in
  if complete then await (do (CompleteOutbox receipt)) fl (λ _, done) else done).

(** What became of a delivery to the mailbox: accepted, or left to the live runtime. *)
Inductive Delivery :=
| Accepted_by_mailbox (a : CommandAcceptance) (fingerprint : string)
| Left_to_runtime.

(** The [catch] of the delivery to the mailbox: only a command of which no envelope is
    stored is left to the live runtime. *)
Definition not_delivered (identity : bool) (cause : Cause) (persisted : bool) : body Delivery :=
  let fl := {| fl_retain := retain; fl_durable := true |} in
  match cause with
  | Cause_terminal _ => throw cause {| fl_retain := false; fl_durable := true |}
  | Cause_unavailable _ =>
      if identity || persisted then throw cause fl
      else do ReleaseAttempt;; Ret (Success Left_to_runtime)
  | _ => throw cause fl
  end.
(** The envelope is stored before the request that sends it. *)
Definition offer_to_mailbox (previous : option OutboxEntry) (identity : bool) : body Delivery :=
  let fl := {| fl_retain := retain; fl_durable := true |} in
  do OwnAttempt;;
  prepared ⇐ do (Prepare (if identity then previous else None));
  match prepared with
  | Failure cause => not_delivered identity cause (bool_decide (is_Some (previous ≫= oe_encryptedEnvelope)))
  | Success (envelope, deliveryFingerprint) =>
      await (do (ListOutbox (Some (cc_environmentId c)))) fl (λ queued,
      let current := find_entry (cc_commandId c) queued in
      if retain && negb (bool_decide (is_Some current))
      then throw (Cause_error "Durable command disappeared before its envelope was persisted") fl
      else
        let send : body Delivery :=
          assertActive fl (assertAuthority fl (
            do (Start envelope);;
            accepted ⇐ do Acceptance;
            match accepted with
            | Failure cause => not_delivered identity cause (bool_decide (is_Some current))
            | Success a => Ret (Success (Accepted_by_mailbox a deliveryFingerprint))
            end)) in
        match current with
        | None => send
        | Some entry => await (do (PutOutbox (entry <| oe_encryptedEnvelope := Some envelope |>))) fl (λ _, send)
        end)
  end.

Definition accepted_status (previous : option OutboxEntry) (a : CommandAcceptance) (fp : string) : CommandStatus :=
  let fresh :=
    {| cst_commandId := ca_commandId a; cst_workspaceSequence := ca_workspaceSequence a;
       cst_revision := ca_revision a; cst_fingerprint := fp; cst_state := ca_state a;
       cst_everLeased := false; cst_updatedAt := ca_acceptedAt a; cst_acceptedAt := None;
       cst_category := None; cst_blockedUntil := None; cst_resultIv := None; cst_resultCiphertext := None |} in
  match previous ≫= oe_deliveryStatus with
  | Some st => if ca_revision a <=? cst_revision st then st else fresh
  | None => fresh
  end.
(** The wait for the mailbox's outcome. *)
Definition follow_mailbox (previous : option OutboxEntry) (a : CommandAcceptance) (fp : string)
  : body (CommandReceipt R) :=
  let fl := {| fl_retain := retain; fl_durable := true |} in
  let st := accepted_status previous a fp in
  await (do (ListOutbox (Some (cc_environmentId c)))) fl (λ queued,
  let accepted : body (CommandReceipt R) :=
    assertAuthority fl (
      do (ResolveAccepted a);;
      disposed ⇐ do IsDisposed;
      (if disposed : bool then Ret tt else do OfferCancel);;
      do (View (show_status (cc_commandId c) st));;
      do Subscribe;;
      outcome ⇐ do Outcome;
      do Unsubscribe;;
      do StatusPersistence;;
      match outcome with
      | Failure (Cause_terminal e) => throw (Cause_terminal e) {| fl_retain := false; fl_durable := true |}
      | Failure cause => throw cause fl
      | Success receipt => finish_delivery receipt true fl
      end) in
  match find_entry (cc_commandId c) queued with
  | None => accepted
  | Some entry =>
      await (do (PutOutbox (entry <| oe_acceptance := Some a |> <| oe_deliveryStatus := Some st |>))) fl (λ _, accepted)
  end).

(** The live runtime, after the commands of the lane before this one. *)
Definition execute_live (serialize : bool) : body (CommandReceipt R) :=
  let fl := {| fl_retain := retain; fl_durable := false |} in
  let execution : body (CommandReceipt R) :=
    assertAuthority fl (assertActive fl (
      do RetainWake;;
      executed ⇐
        await (do Connect) fl (λ connected,
        if connected then
          assertAuthority fl (assertActive fl (
            do CallExecutor;;
            r ⇐ do Execute;
            match r with
            | Success x => Ret (Success x)
            | Failure cause =>
                assertAuthority fl (assertActive fl (
                  if commandFaultFor cause (cc_environmentId c)
                  then do ReportFault;; throw cause fl
                  else throw cause {| fl_retain := false; fl_durable := false |}))
            end))
        else throw (Cause_error "environment did not connect") fl);
      do ReleaseWake;;
      match executed with
      | Failure e => Ret (Failure e)
      | Success x =>
          if decide (xr_commandId x = cc_commandId c) then
            let receipt :=
              {| rt_commandId := xr_commandId x; rt_fingerprint := fingerprint;
                 rt_receivedAt := xr_receivedAt x; rt_result := Some (xr_result x);
                 rt_terminalError := None |} in
            do (ResolveAccepted
                  {| ca_commandId := xr_commandId x; ca_workspaceSequence := 0; ca_revision := 0;
                     ca_acceptedAt := xr_receivedAt x; ca_state := CS_accepted |});;
            finish_delivery receipt retain fl
          else throw (Cause_error "Command receipt ID does not match its request") fl
      end)) in
  if serialize then await (do Turn) fl (λ _, execution) else execution.

(** The body of the [try]. *)
Definition deliver_command (durable : bool) : body (CommandReceipt R) :=
  try_bind persist_command (λ previous,
  let fl := {| fl_retain := retain; fl_durable := false |} in
  assertAuthority fl (
  let identity := bool_decide (is_Some (previous ≫= oe_encryptedEnvelope))
                  || bool_decide (is_Some (previous ≫= oe_acceptance)) in
  transport ⇐ do Transport;
  let usable := match transport with Some supports => identity || supports | None => false end in
  if identity && negb usable
  then throw (Cause_error "Durable cloud command transport is not available yet")
         {| fl_retain := retain; fl_durable := true |}
  else if usable then
    try_bind (offer_to_mailbox previous identity) (λ d,
    match d with
    | Accepted_by_mailbox a fp => follow_mailbox previous a fp
    | Left_to_runtime => execute_live durable
    end)
  else execute_live durable)).

(** How an attempt ends: with a receipt, for good, or to be tried again. *)
Inductive Attempt :=
| Attempt_done (r : result (CommandReceipt R) Cause)
| Attempt_again.

(** The rest of the [catch]: what is not to be kept leaves the outbox, and the failure is
    shown unless the command is tried again. *)
Definition fail_attempt (cause : Cause) (fl : Flags) (terminalPersisted : bool) : prog answer Attempt :=
  (if retain && negb (fl_retain fl) && negb terminalPersisted
   then do RemoveOutbox;; Ret tt else Ret tt);;
  if retain && fl_retain fl && fl_durable fl then Ret Attempt_again
  else
    now ⇐ do Now;
    do (View (show_failed
      {| fc_commandId := cc_commandId c; fc_kind := cc_kind c; fc_targetId := clientCommandTargetId c;
         fc_failedAt := now; fc_error := messageOf cause; fc_retryable := retain && fl_retain fl;
         fc_terminal := match cause with
                        | Cause_terminal e => Some (tf_state e, tf_category e)
                        | _ => None
                        end |}));;
    Ret (Attempt_done (Failure cause)).
(** The [catch]: a terminal outcome is kept as the receipt of the command. *)
Definition settle_failure (cause : Cause) (fl : Flags) : prog answer Attempt :=
  disposed ⇐ do IsDisposed;
  if disposed || match cause with Cause_authority => true | _ => false end then
    do (View (drop_pending (cc_commandId c)));; Ret (Attempt_done (Failure cause))
  else
    match cause with
    | Cause_terminal e =>
        if retain then
          now ⇐ do Now;
          let receipt := terminalCommandReceipt (cc_commandId c) fingerprint e now in
          completed ⇐ do (CompleteOutbox receipt);
          match completed with
          | Success _ =>
              disposed ⇐ do IsDisposed;
              (if disposed : bool then Ret tt else do (SetCompleted receipt));;
              fail_attempt cause {| fl_retain := false; fl_durable := fl_durable fl |} true
          | Failure _ => fail_attempt cause {| fl_retain := true; fl_durable := true |} false
          end
        else fail_attempt cause fl false
    | _ => fail_attempt cause fl false
    end.
Definition prepareAndExecute (durable : bool) : prog answer Attempt :=
  authorized ⇐ do IsAuthorized;
  if negb authorized then Ret (Attempt_done (Failure Cause_authority))
  else
    now ⇐ do Now;
    do (View (show_pending
      {| pc_commandId := cc_commandId c; pc_kind := cc_kind c; pc_targetId := clientCommandTargetId c;
         pc_submittedAt := now; pc_deliveryPhase := None; pc_category := None; pc_blockedUntil := None;
         pc_cancellable := None |}));;
    r ⇐ deliver_command durable;
    attempt ⇐ match r with
              | Success receipt => Ret (Attempt_done (Success receipt))
              | Failure (cause, fl) => settle_failure cause fl
              end;
    do ReleaseAttempt;;
    Ret attempt.

(** One round of [dispatchWithPersistedReceipt]. *)
Definition dispatchWithPersistedReceipt (durable : bool) : prog answer Attempt :=
  let done r := Ret (Attempt_done r) in
  let guard (k : prog answer Attempt) : prog answer Attempt :=
    disposed ⇐ do IsDisposed;
    if disposed : bool then done (Failure Cause_disposed)
    else authorized ⇐ do IsAuthorized; if authorized : bool then k else done (Failure Cause_authority) in
  guard (
    persisted ⇐ match cc_retry c with Safe => do FindReceipt | Never => Ret (Success None) end;
    match persisted with
    | Failure cause => done (Failure cause)
    | Success persisted =>
        guard (
          match persisted with
          | Some receipt =>
              match assertCommandFingerprint (cc_commandId c) (rt_fingerprint receipt) fingerprint with
              | Failure e => done (Failure (Cause_collision e))
              | Success _ =>
                  do (Remember receipt);;
                  done match terminalErrorFromReceipt receipt with
                       | Some e => Failure (Cause_terminal e)
                       | None => Success receipt
                       end
              end
          | None => prepareAndExecute durable
          end)
    end).
(** A round that is to be tried again waits before the next. *)
Definition retry_round (durable : bool) : prog answer Attempt :=
  r ⇐ do RetryDelay;
  match r with
  | Failure cause => Ret (Attempt_done (Failure cause))
  | Success _ => dispatchWithPersistedReceipt durable
  end.
(** A command without a durable transport waits for its lane first. *)
Definition first_round (durable : bool) : prog answer Attempt :=
  if durable then dispatchWithPersistedReceipt durable
  else do LaneTurn;; dispatchWithPersistedReceipt durable.
End command.

(** ** The bus *)

(** The place of a dispatched command in its lane: it waits for the one before. *)
Record Reservation := { rs_lane : string; rs_previous : option nat; rs_durable : bool; rs_released : bool }.
#[export] Instance Reservation_eta : Settable Reservation := λ r,
  Build_Reservation (rs_lane r) (rs_previous r) (rs_durable r) (rs_released r).

(** A command on its way. [fb_outcome] is what its callers got; a fiber of a disposed bus
    goes on after that. *)
Record Fiber := {
  fb_command : ClientCommand;
  fb_fingerprint : string;
  fb_prog : prog answer Attempt;
  fb_authorized : bool;
  fb_outcome : option (result (CommandReceipt R) Cause);
  fb_attempt : bool;
  fb_wake : bool;
  fb_subscribed : bool;
  fb_statuses : list CommandStatus;
  fb_waiting : bool;
  fb_reflected : bool }.
#[export] Instance Fiber_eta : Settable Fiber := λ f,
  Build_Fiber (fb_command f) (fb_fingerprint f) (fb_prog f) (fb_authorized f) (fb_outcome f)
    (fb_attempt f) (fb_wake f) (fb_subscribed f) (fb_statuses f) (fb_waiting f) (fb_reflected f).

(** What left the client or was settled, in order. An execution is [refused] by an error
    that is no fault of the connection. *)
Inductive LogEntry :=
| Log_stored (commandId : string)
| Log_enqueued (commandId : string) (envelope : CloudCommandEnvelope)
| Log_accepted (commandId : string) (a : CommandAcceptance)
| Log_executing (commandId : string)
| Log_executed (commandId : string) (answered : result ExecutionReceipt Cause) (refused : bool)
| Log_completed (receipt : CommandReceipt R).

(** [bs_transport] is the cloud transport configured for an environment and a kind, with
    what it supports. The fiber and the reservation of a dispatch have the same index. *)
Record Bus := {
  bs_store : Store;
  bs_fibers : list Fiber;
  bs_reservations : list Reservation;
  bs_lanes : gmap string nat;
  bs_commands : gmap string nat;
  bs_completed : list (string * CommandReceipt R);
  bs_cancels : gset string;
  bs_entries : gmap string (ResourceView D);
  bs_transport : string → string → option (ClientCommand → bool);
  bs_disposed : bool;
  bs_log : list LogEntry }.
#[export] Instance Bus_eta : Settable Bus := λ b,
  Build_Bus (bs_store b) (bs_fibers b) (bs_reservations b) (bs_lanes b) (bs_commands b)
    (bs_completed b) (bs_cancels b) (bs_entries b) (bs_transport b) (bs_disposed b) (bs_log b).
Definition start_bus (store : Store) (log : list LogEntry) : Bus :=
  {| bs_store := store; bs_fibers := []; bs_reservations := []; bs_lanes := ∅; bs_commands := ∅;
     bs_completed := []; bs_cancels := ∅; bs_entries := ∅; bs_transport := λ _ _, None;
     bs_disposed := false; bs_log := log |}.

Definition update_fiber (i : nat) (f : Fiber → Fiber) (b : Bus) : Bus := b <| bs_fibers ::= alter f i |>.

Definition CLIENT_BUS_COMPLETED_RECEIPT_LIMIT : nat := 512.
Definition rememberCompletedReceipt (r : CommandReceipt R) (b : Bus) : Bus :=
  b <| bs_completed ::= λ m,
        let m := jm_delete (rt_commandId r) m ++ [(rt_commandId r, r)] in
        drop (length m - CLIENT_BUS_COMPLETED_RECEIPT_LIMIT) m |>.

(** [setView]: the commands that a view with data reflects are pending no more. *)
Definition reflects (v : ResourceView D) (f : Fiber) : bool :=
  fb_waiting f && match commandReflected with Some reflected => reflected (fb_command f) v | None => false end.
Definition reflected_pending (fibers : list Fiber) (v : ResourceView D) (p : PendingCommand) : bool :=
  existsb (λ f, bool_decide (cc_commandId (fb_command f) = pc_commandId p) && reflects v f) fibers.
Definition setView (key : string) (v : ResourceView D) (b : Bus) : Bus :=
  match rv_data v with
  | None => b <| bs_entries ::= <[key := v]> |>
  | Some _ =>
      let reflected := reflected_pending (bs_fibers b) v in
      let shown := filter (λ p, reflected p) (rv_pendingCommands v) in
      b <| bs_entries ::= <[key := v <| rv_pendingCommands ::= filter (λ p, reflected p = false) |>]> |>
        <| bs_fibers ::= map (λ f,
             if existsb (λ p, bool_decide (cc_commandId (fb_command f) = pc_commandId p)) shown && reflects v f
             then f <| fb_waiting := false |> <| fb_reflected := true |> else f) |>
  end.
Definition entry_view (key : string) (b : Bus) : ResourceView D := default emptyResourceView (bs_entries b !! key).
Definition updateCommandResource (c : ClientCommand) (f : ResourceView D → ResourceView D) (b : Bus) : Bus :=
  match cc_resource c with
  | Some key =>
      if bs_disposed b then b else setView (resourceKeyId key) (f (entry_view (resourceKeyId key) b)) b
  | None => b
  end.
Definition commandIsReflected (c : ClientCommand) (b : Bus) : bool :=
  match commandReflected, cc_resource c with
  | Some reflected, Some key => reflected c (entry_view (resourceKeyId key) b)
  | _, _ => false
  end.

(** A synchronous action of a fiber at a time. *)
Definition perform (now : Z) (i : nat) (f : Fiber) (a : action) (b : Bus) : Bus * option (answer a) :=
  let c := fb_command f in
  match a with
  | IsDisposed => (b, Some (bs_disposed b))
  | IsAuthorized => (b, Some (fb_authorized f))
  | Transport => (b, Some ((λ supports, supports c) <$> bs_transport b (cc_environmentId c) (cc_kind c)))
  | Now => (b, Some now)
  | View g => (updateCommandResource c g b, Some tt)
  | IsReflected => (b, Some (commandIsReflected c b))
  | AddWaiter => (update_fiber i (λ f, f <| fb_waiting := true |> <| fb_reflected := false |>) b, Some tt)
  | DeleteWaiter => (update_fiber i (λ f, f <| fb_waiting := false |>) b, Some tt)
  | OwnAttempt => (update_fiber i (λ f, f <| fb_attempt := true |>) b, Some tt)
  | ReleaseAttempt => (update_fiber i (λ f, f <| fb_attempt := false |>) b, Some tt)
  | Start envelope => (b <| bs_log ::= λ l, l ++ [Log_enqueued (cc_commandId c) envelope] |>, Some tt)
  | ResolveAccepted accepted => (b <| bs_log ::= λ l, l ++ [Log_accepted (cc_commandId c) accepted] |>, Some tt)
  | OfferCancel => (b <| bs_cancels ::= λ l, l ∪ {[cc_commandId c]} |>, Some tt)
  | Remember r => (rememberCompletedReceipt r b, Some tt)
  | SetCompleted r => (b <| bs_completed ::= jm_set (rt_commandId r) r |>, Some tt)
  | RetainWake => (update_fiber i (λ f, f <| fb_wake := true |>) b, Some tt)
  | ReleaseWake => (update_fiber i (λ f, f <| fb_wake := false |>) b, Some tt)
  | ReportFault => (b, Some tt)
  | Subscribe => (update_fiber i (λ f, f <| fb_subscribed := true |>) b, Some tt)
  | Unsubscribe => (update_fiber i (λ f, f <| fb_subscribed := false |>) b, Some tt)
  | CallExecutor => (b <| bs_log ::= λ l, l ++ [Log_executing (cc_commandId c)] |>, Some tt)
  | _ => (b, None)
  end.
(** Up to the next wait. *)
Fixpoint run_sync (now : Z) (i : nat) (p : prog answer Attempt) (b : Bus) : prog answer Attempt * Bus :=
  match p with
  | Ret r => (p, b)
  | Act a k =>
      match bs_fibers b !! i with
      | None => (p, b)
      | Some f =>
          match perform now i f a b with
          | (b', Some r) => run_sync now i (k r) b'
          | (_, None) => (p, b)
          end
      end
  end.

(** ** Steps *)

(** A fiber continues with the answer it waited for; a round to be tried again is followed
    by the next. *)
Definition resume_fiber (now : Z) (i : nat) (p : prog answer Attempt) (b : Bus) : Bus :=
  match bs_fibers b !! i, bs_reservations b !! i with
  | Some f, Some r =>
      let '(p', b') := run_sync now i p b in
      update_fiber i (λ f', f' <| fb_prog :=
        match p' with
        | Ret Attempt_again => retry_round (fb_command f) (fb_fingerprint f) (rs_durable r)
        | _ => p'
        end |>) b'
  | _, _ => b
  end.

(** *** Dispatch *)

Definition withCommandOwner (c : ClientCommand) : ClientCommand :=
  match cc_owner c, commandOwnerFor with
  | None, Some owner => c <| cc_owner := Some (owner c) |>
  | _, _ => c
  end.
Definition withResourceReflectionFence (c : ClientCommand) (b : Bus) : ClientCommand :=
  match cc_awaitResourceReflection c, cc_resource c, cc_resourceReflection c with
  | true, Some key, None =>
      c <| cc_resourceReflection := Some (rv_cursor (entry_view (resourceKeyId key) b)) |>
  | _, _, _ => c
  end.
(** The cell that reading the fence creates. *)
Definition ensure_entry (c : ClientCommand) (b : Bus) : Bus :=
  match cc_awaitResourceReflection c, cc_resource c, cc_resourceReflection c with
  | true, Some key, None =>
      b <| bs_entries ::= <[resourceKeyId key := entry_view (resourceKeyId key) b]> |>
  | _, _, _ => b
  end.
Definition command_lane (c : ClientCommand) : string :=
  match cc_resource c with
  | None => "environment:" +:+ cc_environmentId c +:+ ":command:" +:+ cc_kind c
  | Some key =>
      let resourceLane := resourceKeyId key in
      if decide (rk_kind key = RK_session_timeline) then
        if startsWith (cc_kind c) "messages.queue." then resourceLane +:+ ":queue"
        else if bool_decide (cc_kind c ∈ ["messages.interrupt"; "messages.background.stop"])
        then resourceLane +:+ ":interrupt:" +:+ cc_commandId c
        else resourceLane
      else resourceLane
  end.
Definition reserveCommandLane (c : ClientCommand) (durable : bool) (b : Bus) : Bus :=
  let lane := command_lane c in
  b <| bs_reservations ::= λ l, l ++ [{| rs_lane := lane; rs_previous := bs_lanes b !! lane;
                                        rs_durable := durable; rs_released := false |}] |>
    <| bs_lanes ::= <[lane := length (bs_reservations b)]> |>.
Definition release_lane (i : nat) (b : Bus) : Bus :=
  match bs_reservations b !! i with
  | None => b
  | Some r =>
      b <| bs_reservations ::= alter (λ r, r <| rs_released := true |>) i |>
        <| bs_lanes ::= if decide (bs_lanes b !! rs_lane r = Some i) then delete (rs_lane r) else id |>
  end.
Definition turn_ready (i : nat) (b : Bus) : bool :=
  match bs_reservations b !! i ≫= rs_previous with
  | None => true
  | Some p => match bs_reservations b !! p with Some r => rs_released r | None => true end
  end.

Inductive DispatchReply :=
| Dispatch_rejected (c : Cause)
| Dispatch_joined (fiber : nat)
| Dispatch_received (r : CommandReceipt R)
| Dispatch_started (fiber : nat).
Definition start_fiber (now : Z) (c : ClientCommand) (fp : string) (b : Bus) : Bus * DispatchReply :=
  let i := length (bs_fibers b) in
  let durable := match bs_transport b (cc_environmentId c) (cc_kind c) with
                 | Some supports => supports c
                 | None => false
                 end in
  let b := reserveCommandLane c durable b in
  let b := b <| bs_fibers ::= λ l, l ++ [
    {| fb_command := c; fb_fingerprint := fp; fb_prog := first_round c fp durable;
       fb_authorized := true; fb_outcome := None; fb_attempt := false; fb_wake := false;
       fb_subscribed := false; fb_statuses := []; fb_waiting := false; fb_reflected := false |}] |>
    <| bs_commands ::= <[cc_commandId c := i]> |> in
  (resume_fiber now i (first_round c fp durable) b, Dispatch_started i).
Definition dispatchCommand (now : Z) (allowed : bool) (c : ClientCommand) (b : Bus) : Bus * DispatchReply :=
  if bs_disposed b then (b, Dispatch_rejected Cause_disposed)
  else if negb allowed then (b, Dispatch_rejected Cause_authority)
  else
    let fenced := withResourceReflectionFence c b in
    let b := ensure_entry c b in
    let c := fenced in
    if match cc_resource c with
       | Some key => negb (bool_decide (ref_environmentId (rk_ref key) = cc_environmentId c))
       | None => false
       end
    then (b, Dispatch_rejected (Cause_error "Command resource belongs to another environment"))
    else match commandFingerprint c with
    | Failure message => (b, Dispatch_rejected (Cause_error message))
    | Success fp =>
        match bs_commands b !! cc_commandId c with
        | Some i =>
            match bs_fibers b !! i with
            | None => (b, Dispatch_joined i)
            | Some f =>
                match assertCommandFingerprint (cc_commandId c) (fb_fingerprint f) fp with
                | Failure e => (b, Dispatch_rejected (Cause_collision e))
                | Success _ => (b, Dispatch_joined i)
                end
            end
        | None =>
            match jm_get (cc_commandId c) (bs_completed b) with
            | Some completed =>
                match assertCommandFingerprint (cc_commandId c) (rt_fingerprint completed) fp with
                | Failure e => (b, Dispatch_rejected (Cause_collision e))
                | Success _ =>
                    (b, match terminalErrorFromReceipt completed with
                        | Some e => Dispatch_rejected (Cause_terminal e)
                        | None => Dispatch_received completed
                        end)
                end
            | None => start_fiber now c fp b
            end
        end
    end.

(** [flushOutbox] and [flushDurableOutboxEntries], once the outbox has answered. *)
Definition flushOutbox (now : Z) (allowed : ClientCommand → bool) (env : option string) (b : Bus) : Bus :=
  foldl (λ b e, (dispatchCommand now (allowed (oe_command e)) (oe_command e) b).1) b (listOutbox env (bs_store b)).
Definition cloudTransportForOutboxEntry (e : OutboxEntry) (b : Bus) : bool :=
  match bs_transport b (cc_environmentId (oe_command e)) (cc_kind (oe_command e)) with
  | None => false
  | Some supports =>
      bool_decide (is_Some (oe_encryptedEnvelope e)) || bool_decide (is_Some (oe_acceptance e))
      || supports (oe_command e)
  end.
Definition flushDurableOutboxEntries (now : Z) (allowed : ClientCommand → bool) (env : option string) (b : Bus) : Bus :=
  if bs_disposed b then b
  else
    let eligible := filter (λ e, bs_commands b !! entry_id e = None ∧ cloudTransportForOutboxEntry e b = true)
                      (listOutbox env (bs_store b)) in
    foldl (λ b e, (dispatchCommand now (allowed (oe_command e)) (oe_command e) b).1) b eligible.

(** *** Answers *)

Definition sessionIdOf (c : ClientCommand) : option string :=
  match stringField (cc_payload c) "sessionId", rk_ref <$> cc_resource c with
  | Some id, _ => Some id
  | None, Some (SessionRef _ id) => Some id
  | _, _ => None
  end.
Definition envelope_matches (e : CloudCommandEnvelope) (c : ClientCommand) : bool :=
  bool_decide (env_workspaceId e = cc_environmentId c) && bool_decide (Some (env_sessionId e) = sessionIdOf c)
  && bool_decide (env_commandId e = cc_commandId c) && bool_decide (env_kind e = cc_kind c).
Definition invalid_envelope (message : string) : Cause :=
  Cause_terminal {| tf_state := CS_outcome_unknown; tf_category := Some "invalid-local-envelope";
                    tf_message := message; tf_occurredAt := None |}.
(** What the cloud transport checks of an envelope it is given back. *)
Definition decodePersistedEnvelope (stored : option CloudCommandEnvelope) (c : ClientCommand)
  : result CloudCommandEnvelope Cause :=
  match stored with
  | None => Failure (invalid_envelope "The accepted command's encrypted local recovery record is invalid.")
  | Some e =>
      if bool_decide (env_workspaceId e = cc_environmentId c) && bool_decide (sessionIdOf c = None)
      then Failure (Cause_error "Durable cloud commands require an explicit session")
      else if envelope_matches e c then Success e
      else Failure (invalid_envelope
             "The accepted command's encrypted local recovery record does not match the command.")
  end.
(** A delivery that is resumed has the envelope it is given; a new one gets one with the
    metadata of its command. *)
Definition prepared (c : ClientCommand) (resume : option OutboxEntry)
    (r : result (CloudCommandEnvelope * string) Cause) : option (result (CloudCommandEnvelope * string) Cause) :=
  match resume, r with
  | _, Failure cause => Some (Failure cause)
  | Some e, Success _ =>
      Some (result_map (λ env, (env, env_fingerprint env)) (decodePersistedEnvelope (oe_encryptedEnvelope e) c))
  | None, Success (env, _) =>
      if envelope_matches env c then Some (Success (env, env_fingerprint env)) else None
  end.
(** The receipt of a delivery carries the identity of its command. *)
Definition delivered (c : ClientCommand) (fp : string) (r : CommandReceipt R) : CommandReceipt R :=
  {| rt_commandId := cc_commandId c; rt_fingerprint := fp; rt_receivedAt := rt_receivedAt r;
     rt_result := rt_result r; rt_terminalError := None |}.

(** [untilDisposed]: when the bus is disposed or the authority is lost, the promise is
    rejected, and what it waited for no longer counts. *)
Definition interrupted_by (f : Fiber) (b : Bus) : option Cause :=
  if bs_disposed b then Some Cause_disposed
  else if fb_authorized f then None else Some Cause_authority.
Definition untilDisposed {A} (f : Fiber) (b : Bus) (x : A) : option A :=
  match interrupted_by f b with Some _ => None | None => Some x end.

(** The outbox's answer to a request, with its effect. *)
Definition outbox_answer (f : Fiber) (a : action) (s : Store) : option (Store * answer a) :=
  let id := cc_commandId (fb_command f) in
  match a with
  | FindReceipt => Some (s, Success (findReceipt id s))
  | ListOutbox env => Some (s, Success (listOutbox env s))
  | PutOutbox e => let '(s, r) := putOutbox e s in Some (s, of_collision r)
  | RemoveOutbox => let '(s, r) := removeOutbox id (fb_fingerprint f) s in Some (s, of_collision r)
  | CompleteOutbox receipt => let '(s, r) := completeOutbox receipt s in Some (s, of_collision r)
  | _ => None
  end.
(** A request to the outbox that fails has no effect. *)
Definition outbox_failure (a : action) (message : string) : option (answer a) :=
  match a with
  | FindReceipt | ListOutbox _ | PutOutbox _ | RemoveOutbox | CompleteOutbox _ => Some (Failure (Cause_error message))
  | _ => None
  end.
(** What an answer of the outbox records. *)
Definition outbox_log (f : Fiber) (a : action) : answer a → list LogEntry :=
  match a with
  | PutOutbox e => λ r, match r with Success _ => [Log_stored (entry_id e)] | Failure _ => [] end
  | CompleteOutbox receipt => λ r, match r with Success _ => [Log_completed receipt] | Failure _ => [] end
  | _ => λ _, []
  end.

(** The answers of the transport, the runtime and the timer. *)
Definition outside_answer (f : Fiber) (b : Bus) (a : action) : answer a → option (answer a) :=
  match a with
  | Prepare resume => λ r, prepared (fb_command f) resume r
  | Acceptance | Connect | Execute => λ r, untilDisposed f b r
  | Outcome => λ r, untilDisposed f b (result_map (delivered (fb_command f) (fb_fingerprint f)) r)
  | RetryDelay => λ _, untilDisposed f b (Success tt)
  | _ => λ _, None
  end.
Definition outside_log (f : Fiber) (a : action) : answer a → list LogEntry :=
  match a with
  | Execute => λ r,
      [Log_executed (cc_commandId (fb_command f)) r
         match r with
         | Failure cause => negb (commandFaultFor cause (cc_environmentId (fb_command f)))
         | Success _ => false
         end]
  | _ => λ _, []
  end.
(** Waits inside the bus, once what they wait for has come. *)
Definition inside_answer (i : nat) (f : Fiber) (b : Bus) (a : action) : option (answer a) :=
  match a with
  | LaneTurn => if turn_ready i b then Some tt else None
  | Turn => if turn_ready i b then untilDisposed f b (Success tt) else None
  | Reflection => if fb_reflected f then untilDisposed f b (Success tt) else None
  | StatusPersistence => if decide (fb_statuses f = []) then Some tt else None
  | _ => None
  end.
(** The waits that the disposal of the bus and a lost authority interrupt. *)
Definition interruption (f : Fiber) (b : Bus) (a : action) : option (answer a) :=
  match interrupted_by f b with
  | None => None
  | Some cause =>
      match a with
      | Acceptance | Outcome | Turn | Connect | Execute | Reflection | RetryDelay => Some (Failure cause)
      | _ => None
      end
  end.

(** *** Events *)

Inductive BusEvent :=
| Dispatch (now : Z) (allowed : bool) (c : ClientCommand)
| Flush (now : Z) (allowed : ClientCommand → bool) (env : option string)
| FlushDurable (now : Z) (allowed : ClientCommand → bool) (env : option string)
| OutboxAnswers (now : Z) (i : nat)
| OutboxFails (now : Z) (i : nat) (message : string)
| OutsideAnswers (now : Z) (i : nat) (respond : ∀ a, option (answer a))
| InsideAnswers (now : Z) (i : nat)
| Interrupted (now : Z) (i : nat)
| Settles (i : nat)
| AuthorityChanges (i : nat) (authorized : bool)
| TransportChanges (transport : string → string → option (ClientCommand → bool))
| StatusArrives (i : nat) (st : CommandStatus)
| StatusPersists (i : nat) (fails : bool)
| ViewChanges (key : string) (v : ResourceView D) (reset : bool)
| DismissFailures (key : string) (commandId : option string)
| Forget (key : string)
| Dispose
| Crash (applied : list nat).

(** Fiber [i], when it waits. *)
Definition waiting (i : nat) (b : Bus) : option (Fiber * { a : action & answer a → prog answer Attempt }) :=
  f ← bs_fibers b !! i;
  match fb_prog f with
  | Act a k => Some (f, existT a k)
  | Ret _ => None
  end.
Definition outbox_answers (now : Z) (i : nat) (b : Bus) : Bus :=
  match waiting i b with
  | Some (f, existT a k) =>
      match outbox_answer f a (bs_store b) with
      | Some (s, r) =>
          resume_fiber now i (k r) (b <| bs_store := s |> <| bs_log ::= λ l, l ++ outbox_log f a r |>)
      | None => b
      end
  | None => b
  end.
Definition answers (now : Z) (i : nat) (respond : Fiber → ∀ a, option (answer a * list LogEntry)) (b : Bus) : Bus :=
  match waiting i b with
  | Some (f, existT a k) =>
      match respond f a with
      | Some (r, log) => resume_fiber now i (k r) (b <| bs_log ::= λ l, l ++ log |>)
      | None => b
      end
  | None => b
  end.
(** The continuation of a dispatch's promise. *)
Definition settles (i : nat) (b : Bus) : Bus :=
  match bs_fibers b !! i with
  | Some f =>
      match fb_prog f, fb_outcome f with
      | Ret (Attempt_done r), None =>
          let b := release_lane i (update_fiber i (λ f, f <| fb_outcome := Some r |>) b) in
          let b := match r with Success receipt => rememberCompletedReceipt receipt b | Failure _ => b end in
          b <| bs_commands ::= delete (cc_commandId (fb_command f)) |>
      | Ret (Attempt_done r), Some _ => release_lane i b
      | _, _ => b
      end
  | None => b
  end.
Definition status_arrives (i : nat) (st : CommandStatus) (b : Bus) : Bus :=
  match bs_fibers b !! i with
  | Some f =>
      if negb (fb_subscribed f) || bs_disposed b || negb (fb_authorized f) then b
      else
        let b := if cst_everLeased st then b <| bs_cancels ::= λ l, l ∖ {[cc_commandId (fb_command f)]} |> else b in
        update_fiber i (λ f, f <| fb_statuses ::= λ l, l ++ [st] |>)
          (updateCommandResource (fb_command f) (show_status (cc_commandId (fb_command f)) st) b)
  | None => b
  end.
Definition status_persists (i : nat) (fails : bool) (b : Bus) : Bus :=
  match bs_fibers b !! i with
  | Some f =>
      match fb_statuses f with
      | [] => b
      | st :: rest =>
          let b := update_fiber i (λ f, f <| fb_statuses := rest |>) b in
          match find_entry (cc_commandId (fb_command f)) (listOutbox (Some (cc_environmentId (fb_command f))) (bs_store b)) with
          | Some entry =>
              if fails || (cst_revision st <=? default (-1) (cst_revision <$> oe_deliveryStatus entry)) then b
              else b <| bs_store ::= λ s, (putOutbox (entry <| oe_deliveryStatus := Some st |>) s).1 |>
          | None => b
          end
      end
  | None => b
  end.
(** Everything in memory is gone, and the promises of the callers are rejected. *)
Definition dispose (b : Bus) : Bus :=
  if bs_disposed b then b
  else
    b <| bs_disposed := true |> <| bs_commands := ∅ |> <| bs_completed := [] |> <| bs_cancels := ∅ |>
      <| bs_entries := ∅ |>
      <| bs_reservations ::= map (λ r, if rs_durable r then r <| rs_released := true |> else r) |>
      <| bs_lanes := ∅ |>
      <| bs_fibers ::= map (λ f,
           f <| fb_outcome := Some (default (Failure Cause_disposed) (fb_outcome f)) |> <| fb_attempt := false |>) |>.
(** A request that was under way may have reached the store. *)
Definition apply_pending (b : Bus) (i : nat) : Bus :=
  match waiting i b with
  | Some (f, existT a k) =>
      match outbox_answer f a (bs_store b) with
      | Some (s, r) =>
          update_fiber i (λ f, f <| fb_prog := Ret (Attempt_done (Failure Cause_disposed)) |>)
            (b <| bs_store := s |> <| bs_log ::= λ l, l ++ outbox_log f a r |>)
      | None => b
      end
  | None => b
  end.
Definition crash (applied : list nat) (b : Bus) : Bus :=
  let b := foldl apply_pending b applied in start_bus (bs_store b) (bs_log b).

Definition bus_step (event : BusEvent) (b : Bus) : Bus :=
  match event with
  | Dispatch now allowed c => (dispatchCommand now allowed (withCommandOwner c) b).1
  | Flush now allowed env => flushOutbox now allowed env b
  | FlushDurable now allowed env => flushDurableOutboxEntries now allowed env b
  | OutboxAnswers now i => outbox_answers now i b
  | OutboxFails now i message => answers now i (λ _ a, (λ r, (r, [])) <$> outbox_failure a message) b
  | OutsideAnswers now i respond =>
      answers now i (λ f a, r ← respond a; r' ← outside_answer f b a r; Some (r', outside_log f a r')) b
  | InsideAnswers now i => answers now i (λ f a, (λ r, (r, [])) <$> inside_answer i f b a) b
  | Interrupted now i => answers now i (λ f a, (λ r, (r, [])) <$> interruption f b a) b
  | Settles i => settles i b
  | AuthorityChanges i authorized => update_fiber i (λ f, f <| fb_authorized := authorized |>) b
  | TransportChanges transport => b <| bs_transport := transport |>
  | StatusArrives i st => status_arrives i st b
  | StatusPersists i fails => status_persists i fails b
  | ViewChanges key v reset =>
      match bs_entries b !! key with
      | Some old =>
          setView key (v <| rv_pendingCommands := if reset then [] else rv_pendingCommands old |>
                         <| rv_failedCommands := if reset then [] else rv_failedCommands old |>) b
      | None => b
      end
  | DismissFailures key commandId =>
      match bs_entries b !! key with
      | Some v => setView key (v <| rv_failedCommands ::= filter (λ f,
                         match commandId with
                         | Some id => negb (bool_decide (fc_commandId f = id))
                         | None => false
                         end = true) |>) b
      | None => b
      end
  | Forget key => b <| bs_entries ::= delete key |>
  | Dispose => dispose b
  | Crash applied => crash applied b
  end.
Definition bus_run (events : list BusEvent) (b : Bus) : Bus := foldl (λ b e, bus_step e b) b events.
End bus.
