(* ===== verification/ClientBusLogic.v ===== *)
(** * What a command's delivery may do

    The specification of a delivery as seen from outside - an automaton over what leaves
    the client - the part of the bus's state a delivery depends on, and a weakest
    precondition for programs over it, with an invariant that holds at every wait, so that
    the loss of the client at any of them is covered. *)
From Stdlib Require Import QArith.QArith_base.
From S2P Require Import Prelude Js JsMap Mailbox ClientContracts ClientOutbox ClientBus.

Local Open Scope Z_scope.

#[export] Instance Q_eq_dec : EqDecision QArith_base.Q.
Proof. solve_decision. Defined.
#[export] Instance num_eq_dec : EqDecision num.
Proof. solve_decision. Defined.
#[export] Instance WorkspaceActor_eq_dec : EqDecision WorkspaceActor.
Proof. solve_decision. Defined.
#[export] Instance CloudCommandDependency_eq_dec : EqDecision CloudCommandDependency.
Proof. solve_decision. Defined.
#[export] Instance CloudCommandEnvelope_eq_dec : EqDecision CloudCommandEnvelope.
Proof. solve_decision. Defined.

(** ** The life of a delivery *)

(** Nothing sent, a call to the live runtime, one that was answered, or the envelope that
    the mailbox may have. *)
Inductive Phase :=
| Idle
| Calling
| Executed
| InMailbox (envelope : CloudCommandEnvelope).
(** [dl_stored]: the outbox has the command's row. *)
Record Delivering := { dl_phase : Phase; dl_stored : bool }.

Section life.
Context {R : Type}.
Definition entry_of (e : LogEntry (R:=R)) : string :=
  match e with
  | Log_stored id | Log_enqueued id _ | Log_accepted id _ | Log_executing id | Log_executed id _ _ => id
  | Log_completed r => rt_commandId r
  end.
Definition life_of (d : Delivering) (e : LogEntry (R:=R)) : option Delivering :=
  match e, dl_phase d with
  | Log_stored _, phase => Some {| dl_phase := phase; dl_stored := true |}
  | Log_enqueued _ envelope, InMailbox known =>
      if decide (envelope = known) then Some d else None
  | Log_enqueued _ envelope, _ => Some {| dl_phase := InMailbox envelope; dl_stored := dl_stored d |}
  | Log_executing _, InMailbox _ => None
  | Log_executing _, _ => Some {| dl_phase := Calling; dl_stored := dl_stored d |}
  | Log_executed _ answered refused, Calling =>
      Some {| dl_phase := match answered with Success _ => Executed | Failure _ => Calling end;
              dl_stored := dl_stored d && negb refused |}
  | Log_executed _ _ _, _ => None
  | Log_accepted _ _, (InMailbox _ | Executed) => Some d
  | Log_accepted _ _, _ => None
  | Log_completed r, phase =>
      match rt_terminalError r, phase with
      | Some _, _ | None, (InMailbox _ | Executed) => Some {| dl_phase := Idle; dl_stored := false |}
      | None, _ => None
      end
  end.
(** Where a delivery is after the entries of its command, when all of them were allowed. *)
Definition delivery (log : list (LogEntry (R:=R))) : option Delivering :=
  foldl (λ d e, d ≫= λ d, life_of d e) (Some {| dl_phase := Idle; dl_stored := false |}) log.
Definition log_of (id : string) (log : list (LogEntry (R:=R))) : list (LogEntry (R:=R)) :=
  filter (λ e, entry_of e = id) log.

Lemma delivery_snoc log e : delivery (log ++ [e]) = delivery log ≫= λ d, life_of d e.
Proof. unfold delivery. by rewrite foldl_app. Qed.
Lemma log_of_app id log log' : log_of id (log ++ log') = log_of id log ++ log_of id log'.
Proof. apply filter_app. Qed.
Lemma log_of_own id e : entry_of e = id → log_of id [e] = [e].
Proof. intros He. unfold log_of. by rewrite filter_cons_True. Qed.
Lemma log_of_other id e : entry_of e ≠ id → log_of id [e] = [].
Proof. intros He. unfold log_of. by rewrite filter_cons_False. Qed.
Lemma log_of_others id log log' :
  Forall (λ e, entry_of e ≠ id) log' → log_of id (log ++ log') = log_of id log.
Proof.
  intros Hall. rewrite log_of_app. rewrite <-(app_nil_r (log_of id log)) at 2. f_equal.
  induction Hall as [|e log' He _ IH]; [done|]. change (e :: log') with ([e] ++ log').
  by rewrite log_of_app, IH, log_of_other.
Qed.
End life.

Section logic.
Context {D R Store : Type} `{!Sha256} `{!CommandOutbox R Store} `{!BusOptions (D:=D)}.
Context (policy : string → CommandRetryPolicy).
Notation action := (action (D:=D) (R:=R)).
Notation answer := (answer (D:=D) (R:=R)).

(** What a delivery depends on: its row, its receipt and its part of the log, and whether
    it may go on. *)
Record Local := {
  lc_row : option OutboxEntry;
  lc_receipt : option (CommandReceipt R);
  lc_log : list (LogEntry (R:=R));
  lc_disposed : bool;
  lc_authorized : bool }.
#[export] Instance Local_eta : Settable Local := λ l,
  Build_Local (lc_row l) (lc_receipt l) (lc_log l) (lc_disposed l) (lc_authorized l).
Definition local (id : string) (authorized : bool) (b : Bus (D:=D) (R:=R) (Store:=Store)) : Local :=
  {| lc_row := outbox_row id (bs_store b); lc_receipt := findReceipt id (bs_store b);
     lc_log := log_of id (bs_log b); lc_disposed := bs_disposed b; lc_authorized := authorized |}.
Definition record (e : LogEntry (R:=R)) (l : Local) : Local := l <| lc_log ::= λ log, log ++ [e] |>.
Definition active (l : Local) : Prop := lc_disposed l = false ∧ lc_authorized l = true.

(** What holds whenever the client may be lost: the row belongs to a command that is safe
    to retry; its log is a life of a delivery; a row that was stored is still there, and
    the mailbox has only the envelope of the row. *)
Record settled (id : string) (l : Local) : Prop := {
  sl_row e : lc_row l = Some e → entry_id e = id ∧ cc_retry (oe_command e) = Safe ∧ policy id = Safe;
  sl_life : policy id = Safe → ∃ d, delivery (lc_log l) = Some d
    ∧ (dl_stored d = true → is_Some (lc_row l))
    ∧ (∀ env, dl_phase d = InMailbox env →
         dl_stored d = true ∧ ∃ e, lc_row l = Some e ∧ oe_encryptedEnvelope e = Some env) }.

(** While a delivery waits, its receipt may be given up, the status of its row written,
    and its authority or the bus change. *)
Record meanwhile (l l' : Local) : Prop := {
  mw_log : lc_log l' = lc_log l;
  mw_receipt : lc_receipt l' = lc_receipt l ∨ lc_receipt l' = None;
  mw_row : lc_row l' = lc_row l
    ∨ ∃ e st, lc_row l = Some e ∧ lc_row l' = Some (e <| oe_deliveryStatus := Some st |>) }.
Lemma meanwhile_refl l : meanwhile l l.
Proof. split; auto. Qed.
Lemma meanwhile_trans l1 l2 l3 : meanwhile l1 l2 → meanwhile l2 l3 → meanwhile l1 l3.
Proof.
  intros [L1 R1 W1] [L2 R2 W2]. split; [congruence|destruct R1, R2; [left|right..]; congruence|].
  destruct W1 as [W1|(e & st & He & He')], W2 as [W2|(e2 & st2 & He2 & He2')].
  - left. congruence.
  - right. exists e2, st2. split; congruence.
  - right. exists e, st. split; congruence.
  - right. rewrite He' in He2. injection He2 as <-. exists e, st2. by split.
Qed.
Lemma settled_meanwhile id l l' : settled id l → meanwhile l l' → settled id l'.
Proof.
  intros [Hrow Hlife] [Hlog _ Hw]. split.
  - intros e He. destruct Hw as [Hw|(e0 & st & He0 & He')].
    + apply Hrow. congruence.
    + rewrite He' in He. injection He as <-. apply (Hrow e0 He0).
  - intros Hp. destruct (Hlife Hp) as (d & Hd & Hs & Hm). exists d. rewrite Hlog. split; [done|]. split.
    + intros Hst. destruct (Hs Hst) as [e He]. destruct Hw as [->|(e0 & st & _ & ->)]; eauto.
    + intros env Hph. destruct (Hm env Hph) as (Hst & e & He & Henv). split; [done|].
      destruct Hw as [->|(e0 & st & He0 & ->)]; [by exists e|].
      rewrite He in He0. injection He0 as <-. eexists. by split.
Qed.

(** ** The weakest precondition of an action *)

Section command.
Variable c : ClientCommand.
Variable fingerprint : string.
Notation id := (cc_commandId c).

(** A step outside is allowed by the life of the delivery, and none is taken while the
    command has a receipt. *)
Definition allowed (e : LogEntry (R:=R)) (l : Local) : Prop :=
  policy id = Safe → lc_receipt l = None
    ∧ ∃ d d', delivery (lc_log l) = Some d ∧ life_of d e = Some d'.
(** A request leaves the client only while it may go on. *)
Definition sends (e : LogEntry (R:=R)) (l : Local) : Prop := active l ∧ allowed e l.
Definition list_answers (env : option string) (l : Local) (queued : list OutboxEntry) : Prop :=
  find_entry id queued
  = match env, lc_row l with
    | Some env, Some e => if decide (cc_environmentId (oe_command e) = env) then Some e else None
    | _, row => row
    end.
(** The outbox does not have the command's row for good. *)
Definition unstored (l : Local) : Prop :=
  policy id = Safe → ∀ d, delivery (lc_log l) = Some d → dl_stored d = false.
Definition waits_for (l : Local) (P : Local → Prop) : Prop :=
  settled id l ∧ ∀ l', meanwhile l l' → P l'.

Definition act_wp (a : action) : (answer a → Local → Prop) → Local → Prop :=
  match a with
  | IsDisposed => λ Q l, Q (lc_disposed l) l
  | IsAuthorized => λ Q l, Q (lc_authorized l) l
  | IsReflected => λ Q l, ∀ r : bool, Q r l
  | Transport => λ Q l, ∀ r, Q r l
  | Now => λ Q l, ∀ r, Q r l
  | View _ | AddWaiter | DeleteWaiter | OwnAttempt | ReleaseAttempt | OfferCancel
  | Remember _ | SetCompleted _ | RetainWake | ReleaseWake | ReportFault | Subscribe | Unsubscribe =>
      λ Q l, Q tt l
  | Start env => λ Q l, sends (Log_enqueued id env) l ∧ Q tt (record (Log_enqueued id env) l)
  | CallExecutor => λ Q l, sends (Log_executing id) l ∧ Q tt (record (Log_executing id) l)
  | ResolveAccepted a => λ Q l, allowed (Log_accepted id a) l ∧ Q tt (record (Log_accepted id a) l)
  | FindReceipt => λ Q l, waits_for l (λ l', (∀ e, Q (Failure e) l') ∧ Q (Success (lc_receipt l')) l')
  | ListOutbox env => λ Q l, waits_for l (λ l',
      (∀ e, (env = None → unstored l') → Q (Failure e) l')
      ∧ ∀ queued, list_answers env l' queued → Q (Success queued) l')
  | PutOutbox e => λ Q l,
      entry_id e = id ∧
      waits_for l (λ l',
        (∀ cause, unstored l' → Q (Failure cause) l') ∧
        match assert_matching id (lc_row l') oe_fingerprint (oe_fingerprint e) with
        | Success _ =>
            let l'' := record (Log_stored id) (l' <| lc_row := Some e |>) in
            settled id l'' ∧ Q (Success tt) l''
        | Failure e => Q (Failure (Cause_collision e)) l'
        end)
  | RemoveOutbox => λ Q l,
      waits_for l (λ l', (∀ e, Q (Failure e) l')
        ∧ (is_success (assert_matching id (lc_row l') oe_fingerprint fingerprint) = true →
           settled id (l' <| lc_row := None |>) ∧ Q (Success tt) (l' <| lc_row := None |>)))
  | CompleteOutbox r => λ Q l,
      rt_commandId r = id ∧
      waits_for l (λ l', (policy id = Safe → lc_receipt l' = None) ∧ (∀ e, Q (Failure e) l')
        ∧ ∀ receipt, let l'' := record (Log_completed r) (l' <| lc_row := None |> <| lc_receipt := receipt |>) in
            settled id l'' ∧ Q (Success tt) l'')
  | Prepare resume => λ Q l,
      waits_for l (λ l', (∀ e, Q (Failure e) l')
        ∧ ∀ env, (∀ e, resume = Some e → oe_encryptedEnvelope e = Some env) →
            Q (Success (env, env_fingerprint env)) l')
  | Acceptance => λ Q l, waits_for l (λ l', ∀ r, Q r l')
  | Connect => λ Q l, waits_for l (λ l', ∀ r, Q r l')
  | Turn | Reflection | RetryDelay => λ Q l, waits_for l (λ l', ∀ r, Q r l')
  | Outcome => λ Q l, waits_for l (λ l', (∀ e, Q (Failure e) l') ∧ ∀ r, Q (Success (delivered c fingerprint r)) l')
  | StatusPersistence | LaneTurn => λ Q l, waits_for l (λ l', Q tt l')
  | Execute => λ Q l, waits_for l (λ l',
      (∀ cause, ¬ active l' → Q (Failure cause) l')
      ∧ ∀ r, let e := Log_executed id r match r with
                                         | Failure cause => negb (commandFaultFor cause (cc_environmentId c))
                                         | Success _ => false
                                         end in
          settled id (record e l') ∧ Q r (record e l'))
  end.

Fixpoint wp {A} (p : prog answer A) (Q : A → Local → Prop) (l : Local) : Prop :=
  match p with
  | Ret a => Q a l
  | Act a k => act_wp a (λ r, wp (k r) Q) l
  end.

Lemma waits_for_mono l (P P' : Local → Prop) : (∀ l', P l' → P' l') → waits_for l P → waits_for l P'.
Proof. intros HP [Hs Hw]. split; auto. Qed.
Lemma act_wp_mono a (Q Q' : answer a → Local → Prop) l :
  (∀ r l', Q r l' → Q' r l') → act_wp a Q l → act_wp a Q' l.
Proof.
  intros HQ. destruct a; cbn; auto; try by (intros Hw; eapply waits_for_mono; [|exact Hw]; naive_solver).
  - intros [? ?]; auto.
  - intros [? ?]; auto.
  - intros [? ?]; auto.
  - intros [? Hw]. split; [done|]. eapply waits_for_mono; [|exact Hw]. cbn. intros l'. case_match; naive_solver.
  - intros [? Hw]. split; [done|]. eapply waits_for_mono; [|exact Hw]. naive_solver.
Qed.
Lemma wp_mono {A} (p : prog answer A) (Q Q' : A → Local → Prop) l :
  (∀ a l', Q a l' → Q' a l') → wp p Q l → wp p Q' l.
Proof.
  intros HQ. revert l. induction p as [a|a k IH]; intros l; cbn; [apply HQ|].
  apply act_wp_mono. intros r l'. apply IH.
Qed.
Lemma wp_bind {A B} (p : prog answer A) (f : A → prog answer B) (Q : B → Local → Prop) l :
  wp p (λ a, wp (f a) Q) l → wp (prog_bind p f) Q l.
Proof.
  revert l. induction p as [a|a k IH]; intros l; cbn; [done|].
  apply act_wp_mono. intros r l'. apply IH.
Qed.

(** *** Waits *)

Lemma waits_for_meanwhile l l' P : waits_for l P → meanwhile l l' → waits_for l' P.
Proof.
  intros [Hs Hw] Hm. split; [by eapply settled_meanwhile|]. intros l2 Hm2. apply Hw.
  by eapply meanwhile_trans.
Qed.
Lemma act_wp_settled a Q l : waits a = true → act_wp a Q l → settled id l.
Proof. destruct a; try done; intros _; cbn; try by intros [? _]. all: by intros [_ [? _]]. Qed.
Lemma act_wp_meanwhile a Q l l' : waits a = true → act_wp a Q l → meanwhile l l' → act_wp a Q l'.
Proof.
  destruct a; try done; intros _; cbn; try apply waits_for_meanwhile.
  all: intros [? Hw] Hm; split; [done|]; by eapply waits_for_meanwhile.
Qed.
End command.
End logic.
