(* ===== verification/ClientDelivery.v ===== *)
(** * The program of a delivery

    [dispatchWithPersistedReceipt] and what it calls satisfy the weakest precondition of
    [ClientBusLogic]: each part with what it needs and leaves of the command's row, its
    receipt and its part of the log. *)
From S2P Require Import Prelude Js JsMap Mailbox ClientContracts ClientOutbox ClientBus ClientBusLogic.

Local Open Scope Z_scope.

#[local] Arguments await : simpl never.
#[local] Arguments try_bind : simpl never.
#[local] Arguments assertActive : simpl never.
#[local] Arguments assertAuthority : simpl never.
#[local] Arguments finish_delivery : simpl never.
#[local] Arguments not_delivered : simpl never.
#[local] Arguments persist_command : simpl never.
#[local] Arguments offer_to_mailbox : simpl never.
#[local] Arguments follow_mailbox : simpl never.
#[local] Arguments execute_live : simpl never.
#[local] Arguments deliver_command : simpl never.
#[local] Arguments settle_failure : simpl never.
#[local] Arguments fail_attempt : simpl never.
#[local] Arguments prepareAndExecute : simpl never.

Section delivery.
Context {D R Store : Type} `{!Sha256} `{!CommandOutbox R Store} `{!BusOptions (D:=D)}.
Context (policy : string → CommandRetryPolicy).
Variable c : ClientCommand.
Variable fingerprint : string.
Notation id := (cc_commandId c).
Notation Local := (Local (R:=R)).
Implicit Types l : Local.
Notation settled := (settled (R:=R) policy id).
Notation wp := (wp (D:=D) policy c fingerprint).
Notation prog := (prog (answer (D:=D) (R:=R))).
Notation body := (body (D:=D) (R:=R)).
Hypothesis policy_retry : policy id = cc_retry c.

(** ** What a delivery knows on its way *)

(** Settled, and without a receipt. *)
Definition ready (l : Local) : Prop := settled l ∧ (policy id = Safe → lc_receipt l = None).
(** What [removeOutbox] would remove is not stored for good. *)
Definition removable (l : Local) : Prop :=
  policy id = Safe → ∀ e d, lc_row l = Some e → oe_fingerprint e = fingerprint →
    delivery (lc_log l) = Some d → dl_stored d = false.
(** A failure drops the row only if it is terminal or the row may be removed. *)
Definition fails (cause : Cause) (fl : Flags) (l : Local) : Prop :=
  settled l ∧ (cause ≠ Cause_authority →
    ready l ∧ (fl_retain fl = false → (∃ e, cause = Cause_terminal e) ∨ removable l)).
Definition ends {A} (S : A → Local → Prop) (r : result A (Cause * Flags)) (l : Local) : Prop :=
  match r with Success a => S a l | Failure (cause, fl) => fails cause fl l end.
Definition in_phase (P : Phase → Prop) (l : Local) : Prop :=
  policy id = Safe → ∃ d, delivery (lc_log l) = Some d ∧ P (dl_phase d).
(** The delivery reached the mailbox, or the runtime answered. *)
Definition reached : Local → Prop :=
  in_phase (λ p, match p with InMailbox _ | Executed => True | _ => False end).
(** The mailbox has no envelope of the command. *)
Definition unsent : Local → Prop := in_phase (λ p, match p with InMailbox _ => False | _ => True end).
(** The row that [persist_command] leaves, with the envelope of the row before. *)
Definition stored (envelope : option CloudCommandEnvelope) (l : Local) : Prop :=
  policy id = Safe → ∃ e, lc_row l = Some e ∧ oe_command e = c ∧ oe_fingerprint e = fingerprint
    ∧ oe_encryptedEnvelope e = envelope ∧ ∃ d, delivery (lc_log l) = Some d ∧ dl_stored d = true.

Lemma ready_meanwhile l l' : ready l → meanwhile l l' → ready l'.
Proof.
  intros [Hs Hr] Hm. split; [by eapply settled_meanwhile|]. intros Hp.
  destruct (mw_receipt _ _ Hm) as [->|]; auto.
Qed.
Lemma in_phase_meanwhile P l l' : in_phase P l → meanwhile l l' → in_phase P l'.
Proof. intros Hr Hm Hp. rewrite (mw_log _ _ Hm). by apply Hr. Qed.
Lemma stored_meanwhile env l l' : stored env l → meanwhile l l' → stored env l'.
Proof.
  intros Hst Hm Hp. destruct (Hst Hp) as (e & He & Hc & Hfp & Henv & Hd). rewrite (mw_log _ _ Hm).
  destruct (mw_row _ _ Hm) as [->|(e' & st & He' & ->)]; [by exists e|].
  rewrite He in He'. injection He' as <-. exists (e <| oe_deliveryStatus := Some st |>). by repeat split.
Qed.
Lemma removable_meanwhile l l' : removable l → meanwhile l l' → removable l'.
Proof.
  intros Hr Hm Hp e d. rewrite (mw_log _ _ Hm).
  destruct (mw_row _ _ Hm) as [->|(e' & st & He' & ->)]; [by apply Hr|].
  intros [= <-]. by apply (Hr Hp e').
Qed.
Lemma ready_wait l (P : Local → Prop) :
  ready l → (∀ l', meanwhile l l' → ready l' → P l') → waits_for policy c l P.
Proof. intros Hr HP. split; [apply Hr|]. intros l' Hm. apply HP; [done|]. by eapply ready_meanwhile. Qed.

Lemma fails_retained cause fl l : ready l → fl_retain fl = retain c → fails cause fl l.
Proof.
  intros Hr Hf. split; [apply Hr|]. intros _. split; [done|]. rewrite Hf. unfold retain.
  intros Hs%bool_decide_eq_false. right. intros Hp. by rewrite policy_retry in Hp.
Qed.
Lemma fails_removable cause fl l : ready l → removable l → fails cause fl l.
Proof. intros Hr Hm. split; [apply Hr|]. intros _. auto. Qed.
Lemma unstored_removable l : unstored policy c l → removable l.
Proof. intros Hu Hp e d _ _. by apply Hu. Qed.
Lemma fails_terminal e fl l : ready l → fails (Cause_terminal e) fl l.
Proof. intros Hr. split; [apply Hr|]. intros _. eauto. Qed.
Lemma fails_authority fl l : settled l → fails Cause_authority fl l.
Proof. by split. Qed.

(** A request that is refused. *)
Lemma collides (l : Local) e e' fp :
  assert_matching id (lc_row l) oe_fingerprint fp = Failure e → lc_row l = Some e' → oe_fingerprint e' ≠ fp.
Proof. intros Ha He. rewrite He in Ha. cbn in Ha. unfold assertCommandFingerprint in Ha. by case_decide. Qed.
Lemma matches (l : Local) e fp u :
  assert_matching id (lc_row l) oe_fingerprint fp = Success u → lc_row l = Some e → oe_fingerprint e = fp.
Proof. intros Ha He. rewrite He in Ha. cbn in Ha. unfold assertCommandFingerprint in Ha. by case_decide. Qed.

(** *** Steps of the log *)

Lemma settled_record l e d' :
  (∀ r, lc_row l = Some r → entry_id r = id ∧ cc_retry (oe_command r) = Safe ∧ policy id = Safe) →
  (policy id = Safe → ∃ d, delivery (lc_log l) = Some d ∧ life_of d e = Some (d' d)
    ∧ (dl_stored (d' d) = true → is_Some (lc_row l))
    ∧ (∀ env, dl_phase (d' d) = InMailbox env →
         dl_stored (d' d) = true ∧ ∃ r, lc_row l = Some r ∧ oe_encryptedEnvelope r = Some env)) →
  settled (record e l).
Proof.
  intros Hrow Hlife. split; [done|]. intros Hp. destruct (Hlife Hp) as (d & Hd & Hl & Hs & Hm).
  exists (d' d). split; [|by split]. change (delivery (lc_log l ++ [e]) = Some (d' d)).
  by rewrite delivery_snoc, Hd.
Qed.
Lemma record_delivery (l : Local) e d d' :
  delivery (lc_log l) = Some d → life_of d e = Some d' → delivery (lc_log (record e l)) = Some d'.
Proof. intros Hd Hl. change (delivery (lc_log l ++ [e]) = Some d'). by rewrite delivery_snoc, Hd. Qed.
Lemma settled_completed l r receipt :
  settled l → (rt_terminalError r = None → reached l) →
  settled (record (Log_completed r) (l <| lc_row := None |> <| lc_receipt := receipt |>)).
Proof.
  intros Hs Hr. apply settled_record with (d' := λ _, {| dl_phase := Idle; dl_stored := false |}); [done|].
  intros Hp. destruct (sl_life _ _ _ Hs Hp) as (d & Hd & _). exists d. split; [done|]. split; [|done]. cbn.
  destruct (rt_terminalError r); [done|]. destruct (Hr eq_refl Hp) as (d' & Hd' & Hph). simplify_eq.
  by destruct (dl_phase d).
Qed.
Lemma settled_row l e :
  settled l → entry_id e = id → cc_retry (oe_command e) = Safe →
  (policy id = Safe → ∀ e' env, lc_row l = Some e' → oe_encryptedEnvelope e' = Some env →
     in_phase (eq (InMailbox env)) l → oe_encryptedEnvelope e = Some env) →
  policy id = Safe →
  settled (record (Log_stored id) (l <| lc_row := Some e |>)).
Proof.
  intros Hs Hid Hsafe Henv Hpol.
  apply settled_record with (d' := λ d, {| dl_phase := dl_phase d; dl_stored := true |}).
  - by intros r [= <-].
  - intros Hp. destruct (sl_life _ _ _ Hs Hp) as (d & Hd & Hst & Hm). exists d. split; [done|]. split; [done|].
    cbn. split; [eauto|]. intros env Hph. split; [done|]. destruct (Hm env Hph) as (_ & r & Hr & Hre).
    exists e. split; [done|]. apply (Henv Hp r); [done..|]. intros _. eauto.
Qed.

(** ** The combinators *)

Lemma wp_await {A B} (p : prog (result A Cause)) fl (k : A → body B) S l :
  wp p (λ r l', match r with Success a => wp (k a) (ends S) l' | Failure cause => fails cause fl l' end) l →
  wp (await p fl k) (ends S) l.
Proof. intros Hp. apply wp_bind. eapply wp_mono; [|exact Hp]. by intros [a|cause] l'. Qed.
Lemma wp_try_bind {A B} (p : body A) (k : A → body B) S l :
  wp p (ends (λ a, wp (k a) (ends S))) l → wp (try_bind p k) (ends S) l.
Proof. intros Hp. apply wp_bind. eapply wp_mono; [|exact Hp]. by intros [a|[cause fl]] l'. Qed.
Lemma wp_assertActive {A} fl (k : body A) S l :
  fails Cause_disposed fl l → (lc_disposed l = false → wp k (ends S) l) → wp (assertActive fl k) (ends S) l.
Proof. intros Hf Hk. unfold assertActive. cbn. destruct (lc_disposed l); [done|]. by apply Hk. Qed.
Lemma wp_assertAuthority {A} fl (k : body A) S l :
  settled l → (lc_authorized l = true → wp k (ends S) l) → wp (assertAuthority fl k) (ends S) l.
Proof. intros Hf Hk. unfold assertAuthority. cbn. destruct (lc_authorized l); [by apply Hk|]. by apply fails_authority. Qed.

(** ** The parts of a delivery *)

Lemma wp_waitForResourceReflection fl S l :
  ready l → fl_retain fl = retain c → (∀ l', meanwhile l l' → ready l' → S tt l') →
  wp (waitForResourceReflection c fl) (ends S) l.
Proof.
  intros Hr Hf HS. pose proof (HS l (meanwhile_refl l) Hr) as Hnow.
  apply wp_assertAuthority; [apply Hr|]. intros _.
  destruct commandReflected; [|done]. case_match; [|done]. cbn. intros [|]; [done|].
  cbn. apply ready_wait; [done|]. intros l' Hm Hr' [[]|cause]; cbn; [by apply HS|by apply fails_retained].
Qed.
Lemma wp_finish_delivery receipt complete fl l :
  ready l → fl_retain fl = retain c → rt_commandId receipt = id →
  (complete = true → rt_terminalError receipt = None → reached l) →
  wp (finish_delivery c receipt complete fl) (ends (λ _, settled)) l.
Proof.
  intros Hr Hf Hid Hreach. unfold finish_delivery. apply wp_try_bind.
  apply wp_waitForResourceReflection; [done..|]. intros l1 Hm1 Hr1.
  destruct complete.
  - apply wp_await. cbn. split; [done|]. apply ready_wait; [done|]. intros l2 Hm2 Hr2.
    split; [apply Hr2|]. split; [intros e; by apply fails_retained|]. intros new.
    assert (settled (record (Log_completed receipt) (l2 <| lc_row := None |> <| lc_receipt := new |>))) as Hs.
    { apply settled_completed; [apply Hr2|]. intros Ht. eapply in_phase_meanwhile; [|exact Hm2].
      eapply in_phase_meanwhile; [by apply Hreach|done]. }
    split; [done|]. apply wp_assertAuthority; [exact Hs|]. intros _. exact Hs.
  - apply wp_assertAuthority; [apply Hr1|]. intros _. apply Hr1.
Qed.

(** The row is stored, with the envelope and in the phase that it had. *)
Lemma wp_persist_command l :
  ready l →
  wp (persist_command c fingerprint)
    (ends (λ previous l', ready l' ∧ stored (previous ≫= oe_encryptedEnvelope) l')) l.
Proof.
  intros Hr. unfold persist_command. case_decide as Hsafe; cycle 1.
  { split; [done|]. intros Hp. by rewrite policy_retry in Hp. }
  rewrite <-policy_retry in Hsafe.
  apply wp_await. cbn. apply ready_wait; [done|]. intros l1 Hm1 Hr1. split.
  { intros e Hu. apply fails_removable; [done|]. apply unstored_removable. auto. }
  intros queued Hq. unfold list_answers in Hq. rewrite Hq.
  destruct (assert_matching id (lc_row l1) oe_fingerprint fingerprint) as [u|e] eqn:Ha; cycle 1.
  { apply fails_removable; [done|]. intros _ e' d He' Hfp _. by destruct (collides _ _ _ _ Ha He'). }
  intros now. apply wp_await. cbn. split; [done|]. apply ready_wait; [done|]. intros l2 Hm2 Hr2. split.
  { intros e Hu. apply fails_removable; [done|]. by apply unstored_removable. }
  destruct (assert_matching id (lc_row l2) oe_fingerprint fingerprint) as [u2|e] eqn:Ha2; cycle 1.
  { apply fails_removable; [done|]. intros _ e' d He' Hfp _. by destruct (collides _ _ _ _ Ha2 He'). }
  match goal with |- context [Some ?e] => set (row := e) end.
  assert (settled (record (Log_stored id) (l2 <| lc_row := Some row |>))) as Hs.
  { apply settled_row; try done; [apply Hr2|cbn; by rewrite <-policy_retry|].
    intros _ e' env He' Henv _. cbn. destruct (mw_row _ _ Hm2) as [Hw|(e1 & st & He1 & Hw)].
    - by rewrite <-Hw, He'.
    - rewrite He1. rewrite Hw in He'. by injection He' as <-. }
  split; [done|]. split; [split; [done|apply Hr2]|]. intros Hp. exists row. split; [done|]. cbn.
  do 3 (split; [done|]). destruct (sl_life _ _ _ (proj1 Hr2) Hp) as (d & Hd & _).
  exists {| dl_phase := dl_phase d; dl_stored := true |}. split; [|done]. by eapply record_delivery.
Qed.

(** *** The mailbox *)

Definition delivered_to_mailbox (d : Delivery) : Local → Prop :=
  match d with
  | Accepted_by_mailbox a fp => reached
  | Left_to_runtime => unsent
  end.
Lemma stored_unsent l : settled l → stored None l → unsent l.
Proof.
  intros Hs Hst Hp. destruct (Hst Hp) as (e & He & _ & _ & Henv & d & Hd & _).
  exists d. split; [done|]. destruct (dl_phase d) as [| | |env] eqn:Hph; try done.
  destruct (sl_life _ _ _ Hs Hp) as (d' & Hd' & _ & Hm). simplify_eq.
  destruct (Hm env Hph) as (_ & e' & He' & Henv'). congruence.
Qed.
Lemma stored_listed env l queued :
  stored env l → policy id = Safe → list_answers c (Some (cc_environmentId c)) l queued →
  ∃ e, lc_row l = Some e ∧ find_entry id queued = Some e.
Proof.
  intros Hst Hp ->. destruct (Hst Hp) as (e & He & Hc & _). exists e. rewrite He, Hc. by rewrite decide_True.
Qed.
Lemma list_answers_row env l queued e :
  list_answers c env l queued → find_entry id queued = Some e → lc_row l = Some e.
Proof. intros ->. destruct env, (lc_row l); try done. by case_decide. Qed.
(** A row of the command that is written again with the envelope it had, or one that the
    mailbox does not know yet. *)
Lemma settled_again l l' e e' :
  settled l → lc_row l = Some e → meanwhile l l' →
  oe_command e' = oe_command e →
  (∀ env, oe_encryptedEnvelope e = Some env → oe_encryptedEnvelope e' = Some env) →
  settled (record (Log_stored id) (l' <| lc_row := Some e' |>)).
Proof.
  intros Hs He Hm Hc Henv. destruct (sl_row _ _ _ Hs e He) as (Hid & Hsafe & Hp).
  apply settled_row; [by eapply settled_meanwhile|unfold entry_id; by rewrite Hc|by rewrite Hc| |done].
  intros _ r env Hr Hre _. apply Henv.
  destruct (mw_row _ _ Hm) as [Hw|(e1 & st & He1 & Hw)]; [congruence|].
  rewrite He in He1. injection He1 as <-. rewrite Hw in Hr. by injection Hr as <-.
Qed.
Lemma stored_again env env' l l' e :
  stored env l → lc_row l = Some e → meanwhile l l' →
  stored env' (record (Log_stored id) (l' <| lc_row := Some (e <| oe_encryptedEnvelope := env' |>) |>)).
Proof.
  intros Hst He Hm Hp. destruct (Hst Hp) as (e0 & He0 & Hc & Hfp & _ & d & Hd & _). simplify_eq.
  eexists. split; [done|]. do 3 (split; [done|]). exists {| dl_phase := dl_phase d; dl_stored := true |}.
  split; [|done]. eapply record_delivery; [|done]. cbn. by rewrite (mw_log _ _ Hm).
Qed.
Lemma start_envelope env l :
  ready l → stored (Some env) l → active l →
  sends policy c (Log_enqueued id env) l ∧ ready (record (Log_enqueued id env) l)
  ∧ reached (record (Log_enqueued id env) l).
Proof.
  intros [Hs Hr] Hst Ha.
  assert (Hlife : policy id = Safe → ∃ d, delivery (lc_log l) = Some d
      ∧ life_of (R:=R) d (Log_enqueued id env) = Some {| dl_phase := InMailbox env; dl_stored := dl_stored d |}
      ∧ dl_stored d = true).
  { intros Hp. destruct (Hst Hp) as (e & He & _ & _ & Henv & d & Hd & Hds). exists d. split; [done|].
    destruct (sl_life _ _ _ Hs Hp) as (d' & Hd' & _ & Hm). simplify_eq. split; [|done].
    destruct d as [[| | |known] st]; try done. cbn in *. destruct (Hm known eq_refl) as (_ & e' & He' & Henv').
    simplify_eq. by rewrite decide_True. }
  split; [split; [done|]|].
  - intros Hp. split; [by apply Hr|]. destruct (Hlife Hp) as (d & Hd & Hl & _). eauto.
  - split; [split; [|exact Hr]|].
    + apply settled_record with (d' := λ d, {| dl_phase := InMailbox env; dl_stored := dl_stored d |}); [apply Hs|].
      intros Hp. destruct (Hlife Hp) as (d & Hd & Hl & Hds). exists d. do 2 (split; [done|]). cbn.
      destruct (Hst Hp) as (e & He & _ & _ & Henv & _). split; [eauto|]. intros env' [= <-]. eauto.
    + intros Hp. destruct (Hlife Hp) as (d & Hd & Hl & _). eexists. split; [by eapply record_delivery|done].
Qed.
Lemma wp_offer_to_mailbox previous l :
  ready l → stored (previous ≫= oe_encryptedEnvelope) l →
  wp (offer_to_mailbox c previous
        (bool_decide (is_Some (previous ≫= oe_encryptedEnvelope))
         || bool_decide (is_Some (previous ≫= oe_acceptance))))
    (ends (λ d l', ready l' ∧ delivered_to_mailbox d l')) l.
Proof.
  intros Hr Hst. unfold offer_to_mailbox. set (identity := _ || _). set (fl := Build_Flags _ _).
  assert (Hfail : ∀ cause persisted l', ready l' → (persisted = false → unsent l') →
    wp (not_delivered c identity cause persisted) (ends (λ d l', ready l' ∧ delivered_to_mailbox d l')) l').
  { intros cause persisted l' Hr' Hu. destruct cause; try by apply fails_retained.
    - by apply fails_terminal.
    - destruct identity, persisted; try by apply fails_retained. split; [done|]. by apply Hu. }
  cbn. apply ready_wait; [done|]. intros l1 Hm1 Hr1.
  pose proof (stored_meanwhile _ _ _ Hst Hm1) as Hst1. split.
  { intros cause. apply Hfail; [done|]. intros Hn%bool_decide_eq_false%eq_None_not_Some. apply stored_unsent; [apply Hr1|].
    by rewrite Hn in Hst1. }
  intros env Henv. apply wp_await. cbn. apply ready_wait; [done|]. intros l2 Hm2 Hr2.
  pose proof (stored_meanwhile _ _ _ Hst1 Hm2) as Hst2.
  split; [intros; by apply fails_retained|]. intros queued Hq.
  destruct (retain c && _) eqn:Hgone; [by apply fails_retained|].
  set (send := assertActive _ _).
  assert (Hsend : ∀ l', ready l' → stored (Some env) l' →
    wp send (ends (λ d l', ready l' ∧ delivered_to_mailbox d l')) l').
  { intros l3 Hr3 Hst3. apply wp_assertActive; [by apply fails_retained|]. intros Hdis.
    apply wp_assertAuthority; [apply Hr3|]. intros Haut.
    destruct (start_envelope env l3 Hr3 Hst3) as (Hsends & Hr4 & Hre4); [done|].
    cbn. split; [done|]. apply ready_wait; [done|]. intros l5 Hm5 Hr5 [a|cause].
    - split; [done|]. by eapply in_phase_meanwhile.
    - apply Hfail; [done|]. intros Hn%bool_decide_eq_false Hp. exfalso.
      destruct (stored_listed _ _ _ Hst2 Hp Hq) as (e & _ & He). apply Hn. by rewrite He. }
  destruct (find_entry id queued) as [entry|] eqn:Hentry; cycle 1.
  { apply Hsend; [done|]. intros Hp. exfalso.
    destruct (stored_listed _ _ _ Hst2 Hp Hq) as (e & _ & He). congruence. }
  pose proof (list_answers_row _ _ _ _ Hq Hentry) as Hrow2.
  apply wp_await. cbn. split; [by apply (sl_row _ _ _ (proj1 Hr2) entry)|].
  apply ready_wait; [done|]. intros l3 Hm3 Hr3. split; [intros; by apply fails_retained|].
  destruct (assert_matching _ _ _ _); [|by apply fails_retained].
  assert (settled (record (Log_stored id) (l3 <| lc_row := Some (entry <| oe_encryptedEnvelope := Some env |>) |>))) as Hs3.
  { eapply settled_again; [apply Hr2|done..|]. intros env0 Henv0. cbn. f_equal.
    destruct (sl_row _ _ _ (proj1 Hr2) entry Hrow2) as (_ & _ & Hp).
    destruct (Hst2 Hp) as (e & He & _ & _ & Hp2 & _). simplify_eq.
    destruct previous as [p|]; cbn in Hp2; [|congruence]. rewrite Henv0 in Hp2.
    cut (oe_encryptedEnvelope p = Some env); [congruence|]. apply Henv. unfold identity. cbn.
    by rewrite <-Hp2. }
  split; [exact Hs3|]. apply Hsend; [split; [exact Hs3|apply Hr3]|]. by eapply stored_again.
Qed.
Lemma accept l a : ready l → reached l →
  allowed policy c (Log_accepted id a) l ∧ ready (record (Log_accepted id a) l) ∧ reached (record (Log_accepted id a) l).
Proof.
  intros [Hs Hr] Hre.
  assert (Hlife : policy id = Safe → ∃ d, delivery (lc_log l) = Some d ∧ life_of (R:=R) d (Log_accepted id a) = Some d
      ∧ match dl_phase d with InMailbox _ | Executed => True | _ => False end).
  { intros Hp. destruct (Hre Hp) as (d & Hd & Hph). exists d. split; [done|]. by destruct d as [[] ?]. }
  split; [|split; [split; [|exact Hr]|]].
  - intros Hp. split; [by apply Hr|]. destruct (Hlife Hp) as (d & Hd & Hl & _). eauto.
  - apply settled_record with (d' := λ d, d); [apply Hs|]. intros Hp.
    destruct (Hlife Hp) as (d & Hd & Hl & _). exists d. do 2 (split; [done|]).
    destruct (sl_life _ _ _ Hs Hp) as (d' & Hd' & Hrest). by simplify_eq.
  - intros Hp. destruct (Hlife Hp) as (d & Hd & Hl & Hph). exists d. split; [by eapply record_delivery|done].
Qed.
Lemma reached_again l e : reached l → reached (record (Log_stored id) (l <| lc_row := e |>)).
Proof.
  intros Hre Hp. destruct (Hre Hp) as (d & Hd & Hph).
  exists {| dl_phase := dl_phase d; dl_stored := true |}. split; [|done]. by eapply record_delivery.
Qed.

Lemma wp_follow_mailbox previous a fp l :
  ready l → reached l → wp (follow_mailbox c previous a fp) (ends (λ _, settled)) l.
Proof.
  intros Hr Hre. unfold follow_mailbox. set (fl := Build_Flags _ _). cbv zeta. set (st := accepted_status _ _ _).
  apply wp_await. cbn. apply ready_wait; [done|]. intros l1 Hm1 Hr1.
  pose proof (in_phase_meanwhile _ _ _ Hre Hm1) as Hre1.
  split; [intros; by apply fails_retained|]. intros queued Hq.
  set (accepted := assertAuthority _ _).
  assert (Hacc : ∀ l', ready l' → reached l' → wp accepted (ends (λ _, settled)) l').
  { clear -policy_retry. intros l Hr Hre. apply wp_assertAuthority; [apply Hr|]. intros _.
    destruct (accept l a Hr Hre) as (Hal & Hr1 & Hre1). cbn. split; [done|].
    set (l1 := record _ l) in *. clearbody l1. clear -policy_retry Hr1 Hre1.
    assert (Hrest : wp (do Subscribe;; outcome ⇐ do Outcome; do Unsubscribe;; do StatusPersistence;;
        match outcome with
        | Failure (Cause_terminal e) => throw (Cause_terminal e) {| fl_retain := false; fl_durable := true |}
        | Failure cause => throw cause fl
        | Success receipt => finish_delivery c receipt true fl
        end)%prog (ends (λ _, settled)) l1); [|by destruct (lc_disposed l)].
    cbn. apply ready_wait; [done|]. intros l2 Hm2 Hr2.
    pose proof (in_phase_meanwhile _ _ _ Hre1 Hm2) as Hre2. split; [intros cause|intros r].
    - apply ready_wait; [done|]. intros l3 _ Hr3. destruct cause; try by apply fails_retained. by apply fails_terminal.
    - apply ready_wait; [done|]. intros l3 Hm3 Hr3. apply wp_finish_delivery; try done.
      intros _ _. by eapply in_phase_meanwhile. }
  clearbody accepted. destruct (find_entry id queued) as [entry|] eqn:Hentry; [|by apply Hacc].
  pose proof (list_answers_row _ _ _ _ Hq Hentry) as Hrow.
  apply wp_await. cbn. split; [by apply (sl_row _ _ _ (proj1 Hr1) entry)|].
  apply ready_wait; [done|]. intros l2 Hm2 Hr2. split; [intros; by apply fails_retained|].
  destruct (assert_matching _ _ _ _); [|by apply fails_retained].
  match goal with |- settled ?l ∧ _ => assert (settled l) as Hs end.
  { eapply settled_again; [apply Hr1|done..]. }
  split; [exact Hs|]. apply Hacc; [split; [exact Hs|apply Hr2]|].
  apply reached_again. by eapply in_phase_meanwhile.
Qed.

(** *** The live runtime *)

Definition after_call (answered : result (ExecutionReceipt (R:=R)) Cause) (refused : bool) (d : Delivering) : Delivering :=
  {| dl_phase := match answered with Success _ => Executed | Failure _ => Calling end;
     dl_stored := dl_stored d && negb refused |}.
Lemma call l : ready l → unsent l → active l →
  sends policy c (Log_executing id) l ∧ ready (record (Log_executing id) l)
  ∧ in_phase (eq Calling) (record (Log_executing id) l).
Proof.
  intros [Hs Hr] Hu Ha.
  assert (Hlife : policy id = Safe → ∃ d, delivery (lc_log l) = Some d
      ∧ life_of (R:=R) d (Log_executing id) = Some {| dl_phase := Calling; dl_stored := dl_stored d |}).
  { intros Hp. destruct (Hu Hp) as (d & Hd & Hph). exists d. split; [done|]. by destruct d as [[] ?]. }
  split; [split; [done|]|split; [split; [|exact Hr]|]].
  - intros Hp. split; [by apply Hr|]. destruct (Hlife Hp) as (d & Hd & Hl). eauto.
  - apply settled_record with (d' := λ d, {| dl_phase := Calling; dl_stored := dl_stored d |}); [apply Hs|].
    intros Hp. destruct (Hlife Hp) as (d & Hd & Hl). exists d. do 2 (split; [done|]). split; [|done].
    destruct (sl_life _ _ _ Hs Hp) as (d' & Hd' & Hst & _). simplify_eq. exact Hst.
  - intros Hp. destruct (Hlife Hp) as (d & Hd & Hl). eexists. split; [by eapply record_delivery|done].
Qed.
Lemma answered l r refused : ready l → in_phase (eq Calling) l →
  ready (record (Log_executed id r refused) l)
  ∧ (is_success r = true → reached (record (Log_executed id r refused) l))
  ∧ (refused = true → removable (record (Log_executed id r refused) l)).
Proof.
  intros [Hs Hr] Hc.
  assert (Hlife : policy id = Safe → ∃ d, delivery (lc_log l) = Some d
      ∧ life_of (R:=R) d (Log_executed id r refused) = Some (after_call r refused d)).
  { intros Hp. destruct (Hc Hp) as (d & Hd & Hph). exists d. split; [done|]. by destruct d as [[] ?]. }
  split; [split; [|exact Hr]|split].
  - apply settled_record with (d' := after_call r refused); [apply Hs|].
    intros Hp. destruct (Hlife Hp) as (d & Hd & Hl). exists d. do 2 (split; [done|]). split.
    + destruct (sl_life _ _ _ Hs Hp) as (d' & Hd' & Hst & _). simplify_eq. cbn.
      intros [Hds _]%andb_prop. by apply Hst.
    + intros env. cbn. by destruct r.
  - intros Hok Hp. destruct (Hlife Hp) as (d & Hd & Hl). eexists. split; [by eapply record_delivery|].
    by destruct r.
  - intros -> Hp e d' _ _. destruct (Hlife Hp) as (d & Hd & Hl). rewrite (record_delivery _ _ _ _ Hd Hl).
    intros [= <-]. apply andb_false_r.
Qed.
Lemma wp_execute_live serialize l :
  ready l → unsent l → wp (execute_live c fingerprint serialize) (ends (λ _, settled)) l.
Proof.
  intros Hr Hu. unfold execute_live. set (fl := Build_Flags _ _). cbv zeta. set (execution := assertAuthority _ _).
  assert (Hexec : ∀ l', ready l' → unsent l' → wp execution (ends (λ _, settled)) l').
  { clear l Hr Hu. intros l Hr Hu. apply wp_assertAuthority; [apply Hr|]. intros _.
    apply wp_assertActive; [by apply fails_retained|]. intros _. cbn. apply wp_bind.
    apply wp_mono with (Q := ends (λ _ l', ready l' ∧ reached l')).
    { intros [x|[cause fl']] l'; [|done]. intros [Hr' Hre']. cbn.
      case_decide as Hx; [|by apply fails_retained]. cbn.
      match goal with |- context [Log_accepted id ?a] => destruct (accept l' a Hr' Hre') as (Hal & Hr2 & Hre2) end.
      split; [done|]. by apply wp_finish_delivery. }
    apply wp_await. cbn. apply ready_wait; [done|]. intros l1 Hm1 Hr1.
    pose proof (in_phase_meanwhile _ _ _ Hu Hm1) as Hu1. intros [[]|cause]; [|by apply fails_retained..].
    apply wp_assertAuthority; [apply Hr1|]. intros Haut. apply wp_assertActive; [by apply fails_retained|]. intros Hdis.
    destruct (call l1 Hr1 Hu1) as (Hsend & Hr2 & Hc2); [done|]. cbn. split; [done|].
    apply ready_wait; [done|]. intros l3 Hm3 Hr3. pose proof (in_phase_meanwhile _ _ _ Hc2 Hm3) as Hc3. split.
    - intros cause Hact. apply wp_assertAuthority; [apply Hr3|]. intros Haut3.
      apply wp_assertActive; [by apply fails_retained|]. intros Hdis3. by destruct Hact.
    - intros r. set (refused := match r with Success _ => _ | Failure _ => _ end).
      destruct (answered l3 r refused Hr3 Hc3) as (Hr4 & Hre4 & Hrm4). split; [apply Hr4|].
      destruct r as [x|cause]; [by split; [|apply Hre4]|].
      apply wp_assertAuthority; [apply Hr4|]. intros _. apply wp_assertActive; [by apply fails_retained|]. intros _.
      subst refused. destruct (commandFaultFor _ _) eqn:Hfault; [by apply fails_retained|].
      apply fails_removable; [done|]. by apply Hrm4. }
  clearbody execution. destruct serialize; [|by apply Hexec].
  apply wp_await. cbn. apply ready_wait; [done|]. intros l1 Hm1 Hr1 [[]|cause]; [|by apply fails_retained].
  apply Hexec; [done|]. by eapply in_phase_meanwhile.
Qed.

(** ** A round *)

Lemma wp_deliver_command durable l :
  ready l → wp (deliver_command c fingerprint durable) (ends (λ _, settled)) l.
Proof.
  intros Hr. apply wp_try_bind. eapply wp_mono; [|by apply wp_persist_command].
  intros [previous|[cause fl]] l1; [|done]. intros [Hr1 Hst1]. cbn.
  apply wp_assertAuthority; [apply Hr1|]. intros _. cbn. intros transport.
  set (identity := _ || _). set (usable := match transport with Some _ => _ | None => _ end).
  assert (Hlive : identity = false → ∀ serialize, wp (execute_live c fingerprint serialize) (ends (λ _, settled)) l1).
  { intros [Hn%bool_decide_eq_false%eq_None_not_Some _]%orb_false_iff serialize.
    apply wp_execute_live; [done|]. apply stored_unsent; [apply Hr1|]. by rewrite Hn in Hst1. }
  destruct usable eqn:Husable; cycle 1.
  { destruct identity; [by apply fails_retained|]. by apply Hlive. }
  rewrite andb_false_r. apply wp_try_bind. eapply wp_mono; [|by apply wp_offer_to_mailbox].
  intros [d|[cause fl]] l2; [|done]. intros [Hr2 Hd].
  destruct d as [a fp|]; [by apply wp_follow_mailbox|by apply wp_execute_live].
Qed.

Lemma wp_fail_attempt cause fl persisted l :
  settled l → (fl_retain fl = false → persisted = false → removable l) →
  wp (fail_attempt c cause fl persisted) (λ _, settled) l.
Proof.
  intros Hs Hrm. unfold fail_attempt. apply wp_bind.
  apply wp_mono with (Q := λ _, settled); [intros _ l1 Hs1; cbn; destruct (_ && _ && _); cbn; auto|].
  destruct (retain c && _ && _) eqn:Hc; [|done].
  apply andb_prop in Hc as [[_ Hf%negb_true_iff]%andb_prop Hp%negb_true_iff].
  specialize (Hrm Hf Hp). cbn. split; [done|]. intros l1 Hm1.
  pose proof (settled_meanwhile _ _ _ _ Hs Hm1) as Hs1. pose proof (removable_meanwhile _ _ Hrm Hm1) as Hrm1.
  split; [done|]. intros Ha. destruct (assert_matching _ _ _ _) as [u|] eqn:Hmatch; [|done]. clear Ha.
  enough (settled (l1 <| lc_row := None |>)) by done.
  split; [done|]. intros Hpol. destruct (sl_life _ _ _ Hs1 Hpol) as (d & Hd & Hst & Hm). exists d. split; [done|].
  assert (Hds : dl_stored d = false).
  { destruct (dl_stored d) eqn:Hds; [|done]. destruct (Hst eq_refl) as [e He]. rewrite <-Hds.
    by apply (Hrm1 Hpol e d He (matches _ _ _ _ Hmatch He)). }
  rewrite Hds. split; [done|]. intros env Henv. destruct (Hm env Henv). congruence.
Qed.
Lemma wp_settle_failure cause fl l :
  fails cause fl l → wp (settle_failure c fingerprint cause fl) (λ _, settled) l.
Proof.
  intros [Hs Hf]. unfold settle_failure. cbn. destruct (lc_disposed l); [done|]. cbn [orb].
  assert (cause = Cause_authority ∨ cause ≠ Cause_authority) as [->|Hna]
    by (destruct cause; first [by left|by right]); [done|]. destruct (Hf Hna) as [Hr Hrm].
  destruct (retain c) eqn:Hret.
  - destruct cause as [| | |e| |]; try (apply wp_fail_attempt; [done|]; by intros Hfl _; destruct (Hrm Hfl) as [[]|]).
    { done. }
    cbn. intros now. split; [done|]. apply ready_wait; [done|]. intros l1 Hm1 Hr1. split; [apply Hr1|]. split.
    + intros _. by apply wp_fail_attempt; [apply Hr1|].
    + intros receipt.
      assert (settled (record (Log_completed (terminalCommandReceipt id fingerprint e now))
        (l1 <| lc_row := None |> <| lc_receipt := receipt |>))) as Hs2 by (by apply settled_completed; [apply Hr1|]).
      split; [exact Hs2|].
      assert (∀ fl, wp (fail_attempt c (Cause_terminal e) fl true) (λ _, settled) _) as Hg by (intros fl'; by apply wp_fail_attempt; [exact Hs2|]).
      revert Hg. cbn. destruct (lc_disposed l1); cbn; auto.
  - assert (Hg : wp (fail_attempt c cause fl false) (λ _, settled) l).
    { apply wp_fail_attempt; [done|]. intros _ _ Hp. rewrite policy_retry in Hp. unfold retain in Hret.
      by apply bool_decide_eq_false in Hret. }
    by destruct cause.
Qed.
Lemma wp_prepareAndExecute durable l :
  ready l → wp (prepareAndExecute c fingerprint durable) (λ _, settled) l.
Proof.
  intros Hr. unfold prepareAndExecute. cbn. destruct (lc_authorized l); [|apply Hr]. cbn. intros now.
  apply wp_bind. eapply wp_mono; [|by apply wp_deliver_command]. intros r l1 Hr1.
  apply wp_bind. apply wp_mono with (Q := λ _, settled); [by intros [] l2|].
  destruct r as [receipt|[cause fl]]; [done|]. by apply wp_settle_failure.
Qed.

(** A round of a delivery keeps its command settled at every wait. *)
Lemma wp_dispatch durable l :
  settled l → wp (dispatchWithPersistedReceipt c fingerprint durable) (λ _, settled) l.
Proof.
  intros Hs. unfold dispatchWithPersistedReceipt. cbn. destruct (lc_disposed l); [done|].
  cbn. destruct (lc_authorized l); [|done].
  assert (Hrest : ∀ persisted l', settled l' → (policy id = Safe → lc_receipt l' = persisted) →
    wp (disposed ⇐ do IsDisposed;
        if disposed : bool then Ret (Attempt_done (Failure Cause_disposed))
        else authorized ⇐ do IsAuthorized;
          if authorized : bool then
            match persisted with
            | Some receipt =>
              match assertCommandFingerprint id (rt_fingerprint receipt) fingerprint with
              | Failure e => Ret (Attempt_done (Failure (Cause_collision e)))
              | Success _ =>
                  do (Remember receipt);;
                  Ret (Attempt_done match terminalErrorFromReceipt receipt with
                       | Some e => Failure (Cause_terminal e)
                       | None => Success receipt
                       end)
              end
            | None => prepareAndExecute c fingerprint durable
            end
          else Ret (Attempt_done (Failure Cause_authority)))%prog (λ _, settled) l').
  { intros persisted l' Hs' Hr'. cbn. destruct (lc_disposed l'); [done|]. cbn. destruct (lc_authorized l'); [|done].
    destruct persisted as [receipt|]; [|by apply wp_prepareAndExecute]. by destruct (assertCommandFingerprint _ _ _). }
  destruct (cc_retry c) eqn:Hretry; cbn -[wp].
  - cbn. split; [done|]. intros l1 Hm1. pose proof (settled_meanwhile _ _ _ _ Hs Hm1) as Hs1.
    split; [done|]. by apply Hrest.
  - apply (Hrest None); [done|]. intros Hp. congruence.
Qed.
Lemma wp_retry_round durable l : settled l → wp (retry_round c fingerprint durable) (λ _, settled) l.
Proof.
  intros Hs. split; [done|]. intros l1 Hm1 [[]|cause]; pose proof (settled_meanwhile _ _ _ _ Hs Hm1); [|done].
  by apply wp_dispatch.
Qed.
Lemma wp_first_round durable l : settled l → wp (first_round c fingerprint durable) (λ _, settled) l.
Proof.
  intros Hs. destruct durable; [by apply wp_dispatch|]. split; [done|]. intros l1 Hm1. cbn.
  apply wp_dispatch. by eapply settled_meanwhile.
Qed.
End delivery.
