(* ===== verification/ClientBusInv.v ===== *)
(** * The bus keeps every delivery settled

    The invariant of the bus between its events, over any outbox that satisfies
    [CommandOutboxLaws]: every command is settled, and every fiber that waits satisfies
    the weakest precondition of what it has left to do. *)
From S2P Require Import Prelude Js JsMap Mailbox ClientContracts ClientOutbox ClientBus ClientBusLogic ClientDelivery.

Local Open Scope Z_scope.

Section invariant.
Context {D R Store : Type} `{!Sha256} `{!CommandOutbox R Store} `{!BusOptions (D:=D)}.
Context (policy : string → CommandRetryPolicy) (wf : Store → Prop) `{!CommandOutboxLaws wf}.
Notation Bus := (Bus (D:=D) (R:=R) (Store:=Store)).
Notation Fiber := (Fiber (D:=D) (R:=R)).
Notation LogEntry := (LogEntry (R:=R)).
Notation Attempt := (Attempt (R:=R)).
Notation prog := (prog (answer (D:=D) (R:=R))).
Implicit Types (b : Bus) (f g : Fiber).

Definition fiber_id f : string := cc_commandId (fb_command f).
Definition running f : bool := match fb_prog f with Act _ _ => true | Ret _ => false end.
Definition fiber_local f b : Local (R:=R) := local (fiber_id f) (fb_authorized f) b.
Definition fiber_wp f (p : prog Attempt) b : Prop :=
  wp policy (fb_command f) (fb_fingerprint f) p (λ _, settled policy (fiber_id f)) (fiber_local f b).
(** A fiber stops only at waits. *)
Definition stopped {A} (p : prog A) : Prop := match p with Act a _ => waits a = true | Ret _ => True end.
Definition fiber_ok b f : Prop :=
  policy (fiber_id f) = cc_retry (fb_command f)
  ∧ (running f = true → stopped (fb_prog f) ∧ fiber_wp f (fb_prog f) b).

Record Inv b : Prop := {
  inv_wf : wf (bs_store b);
  inv_settled id au : settled policy id (local id au b);
  inv_reservations : length (bs_reservations b) = length (bs_fibers b);
  inv_fiber i f : bs_fibers b !! i = Some f → fiber_ok b f;
  inv_unique i j f g : bs_fibers b !! i = Some f → bs_fibers b !! j = Some g →
    running f = true → running g = true → fiber_id f = fiber_id g → i = j;
  inv_commands i f : bs_disposed b = false → bs_fibers b !! i = Some f → fb_outcome f = None →
    bs_commands b !! fiber_id f = Some i;
  inv_running i f : bs_disposed b = false → bs_fibers b !! i = Some f → running f = true → fb_outcome f = None }.

(** The invariant while fiber [i] runs, of all but its command. *)
Record Others (i : nat) b : Prop := {
  ot_wf : wf (bs_store b);
  ot_settled id au : fiber_id <$> bs_fibers b !! i ≠ Some id → settled policy id (local id au b);
  ot_reservations : length (bs_reservations b) = length (bs_fibers b);
  ot_policy j f : bs_fibers b !! j = Some f → policy (fiber_id f) = cc_retry (fb_command f);
  ot_fiber j f : j ≠ i → bs_fibers b !! j = Some f → fiber_ok b f;
  ot_unique j k f g : bs_fibers b !! j = Some f → bs_fibers b !! k = Some g →
    j = i ∨ running f = true → k = i ∨ running g = true → fiber_id f = fiber_id g → j = k;
  ot_commands j f : bs_disposed b = false → bs_fibers b !! j = Some f → fb_outcome f = None →
    bs_commands b !! fiber_id f = Some j;
  ot_running j f : bs_disposed b = false → bs_fibers b !! j = Some f → j = i ∨ running f = true → fb_outcome f = None }.

Lemma settled_local id au au' b b' :
  outbox_row id (bs_store b') = outbox_row id (bs_store b) → log_of id (bs_log b') = log_of id (bs_log b) →
  settled policy id (local id au b) → settled policy id (local id au' b').
Proof. intros Hrow Hlog [H1 H2]. split; cbn in *; by rewrite ?Hrow, ?Hlog. Qed.
Lemma wp_meanwhile c fp (p : prog Attempt) id l l' :
  stopped p → wp policy c fp p (λ _, settled policy id) l → meanwhile l l' → wp policy c fp p (λ _, settled policy id) l'.
Proof.
  destruct p as [a|a k]; cbn; intros Hw; [by apply settled_meanwhile|].
  by apply act_wp_meanwhile.
Qed.
Lemma wp_settled c fp (p : prog Attempt) l :
  stopped p → wp policy c fp p (λ _, settled policy (cc_commandId c)) l → settled policy (cc_commandId c) l.
Proof. destruct p as [a|a k]; cbn; [done|]. by apply act_wp_settled. Qed.

(** ** What runs until the next wait *)

Definition static f := (fb_command f, fb_fingerprint f, fb_prog f, fb_authorized f, fb_outcome f).
Record frame b b' : Prop := {
  fr_store : bs_store b' = bs_store b;
  fr_disposed : bs_disposed b' = bs_disposed b;
  fr_commands : bs_commands b' = bs_commands b;
  fr_reservations : bs_reservations b' = bs_reservations b;
  fr_lanes : bs_lanes b' = bs_lanes b;
  fr_fibers : static <$> bs_fibers b' = static <$> bs_fibers b }.
Lemma frame_refl b : frame b b.
Proof. done. Qed.
Lemma frame_trans b1 b2 b3 : frame b1 b2 → frame b2 b3 → frame b1 b3.
Proof. intros [] []. split; congruence. Qed.
Lemma frame_fiber b b' i f : frame b b' → bs_fibers b' !! i = Some f →
  ∃ g, bs_fibers b !! i = Some g ∧ static f = static g.
Proof.
  intros Hf Hi. pose proof (f_equal (.!! i) (fr_fibers _ _ Hf)) as He.
  rewrite !list_lookup_fmap, Hi in He. destruct (bs_fibers b !! i) as [g|]; [|done].
  exists g. split; [done|]. by apply (inj Some) in He.
Qed.
Lemma frame_fiber' b b' i f : frame b b' → bs_fibers b !! i = Some f →
  ∃ g, bs_fibers b' !! i = Some g ∧ static f = static g.
Proof. intros [] Hi. by apply (frame_fiber b' b i f); [split|]. Qed.
Lemma update_fiber_frame i h b : (∀ f, static (h f) = static f) → frame b (update_fiber i h b).
Proof.
  intros Hh. split; try done. cbn. apply list_eq. intros j. rewrite !list_lookup_fmap.
  destruct (decide (j = i)) as [->|]; [rewrite list_lookup_alter_eq|by rewrite list_lookup_alter_ne].
  destruct (bs_fibers b !! i); cbn; [by rewrite Hh|done].
Qed.
Lemma setView_frame key v b : frame b (setView key v b) ∧ bs_log (setView key v b) = bs_log b.
Proof.
  unfold setView. destruct (rv_data v); [|done]. split; [|done]. split; try done. cbn.
  rewrite <-list_fmap_compose. apply list_fmap_ext. intros j f _. cbn. by destruct (_ && _).
Qed.
Lemma updateCommandResource_frame c h b :
  frame b (updateCommandResource c h b) ∧ bs_log (updateCommandResource c h b) = bs_log b.
Proof.
  unfold updateCommandResource. destruct (cc_resource c); [|done].
  destruct (bs_disposed b); [done|]. apply setView_frame.
Qed.

(** The requests: what leaves the client. *)
Definition outgoing (e : LogEntry) : bool :=
  match e with Log_enqueued _ _ | Log_executing _ => true | _ => false end.
(** An entry that a fiber may add to the log of a bus. *)
Definition own f b (e : LogEntry) : Prop :=
  entry_of e = fiber_id f ∧ (outgoing e = true →
    bs_disposed b = false ∧ fb_authorized f = true
    ∧ (policy (fiber_id f) = Safe → findReceipt (fiber_id f) (bs_store b) = None)).
Lemma local_frame id au b b' : frame b b' → bs_log b' = bs_log b → local id au b' = local id au b.
Proof. intros [Hs Hd _ _ _ _] Hl. unfold local. by rewrite Hs, Hd, Hl. Qed.
Lemma local_record b b' id au e : frame b b' → bs_log b' = bs_log b ++ [e] → entry_of e = id →
  local id au b' = record e (local id au b).
Proof.
  intros [Hs Hd _ _ _ _] Hl He. unfold local, record. cbn. by rewrite Hs, Hd, Hl, log_of_app, log_of_own.
Qed.
Definition ran f b b' {A} (Q : A → Local → Prop) (r : A) : Prop :=
  frame b b' ∧ Q r (fiber_local f b') ∧ ∃ new, bs_log b' = bs_log b ++ new ∧ Forall (own f b) new.
Lemma ran_quiet f b b' {A} (Q : A → Local → Prop) (r : A) :
  frame b b' ∧ bs_log b' = bs_log b → Q r (fiber_local f b) → ran f b b' Q r.
Proof.
  intros [Hf Hl] HQ. split; [done|]. unfold fiber_local. rewrite (local_frame _ _ _ _ Hf Hl). split; [done|].
  exists []. by rewrite app_nil_r.
Qed.
Lemma ran_record f b b' {A} (Q : A → Local → Prop) (r : A) e :
  frame b b' → bs_log b' = bs_log b ++ [e] → own f b e → Q r (record e (fiber_local f b)) → ran f b b' Q r.
Proof.
  intros Hf Hl Ho HQ. split; [done|]. unfold fiber_local. rewrite (local_record b b' _ _ e); [|done..|apply Ho].
  split; [done|]. exists [e]. split; [done|]. by constructor.
Qed.
Lemma sends_own f b e :
  entry_of e = fiber_id f → sends policy (fb_command f) e (fiber_local f b) → own f b e.
Proof. intros He [[Hd Ha] Hal]. split; [done|]. intros _. split; [done|]. split; [done|]. intros Hp. apply (Hal Hp). Qed.
Lemma perform_spec now i f a b b' r Q :
  bs_fibers b !! i = Some f →
  act_wp policy (fb_command f) (fb_fingerprint f) a Q (fiber_local f b) →
  perform now i f a b = (b', Some r) → ran f b b' Q r.
Proof.
  intros Hi HQ Hp. destruct a; cbn in Hp; try discriminate Hp; injection Hp as <- <-;
    cbn in HQ; try (apply ran_quiet; [|done]); try done.
  all: try by split; [apply update_fiber_frame|].
  - apply updateCommandResource_frame.
  - destruct HQ as [Hs HQ]. eapply ran_record; [by split|done| |done]. by apply sends_own.
  - destruct HQ as [Hs HQ]. eapply ran_record; [by split|done|by split|done].
  - destruct HQ as [Hs HQ]. eapply ran_record; [by split|done| |done]. by apply sends_own.
Qed.
Lemma own_static f g b b' e : frame b b' → static f = static g → own f b' e → own g b e.
Proof.
  unfold own, fiber_id. intros [Hs Hd _ _ _ _] Hst [He Ho]. injection Hst as Hc _ _ Ha _.
  rewrite Hc, Ha, Hs, Hd in *. by split.
Qed.
Lemma run_sync_spec now i (p : prog Attempt) f b :
  bs_fibers b !! i = Some f → fiber_wp f p b →
  let '(p', b') := run_sync now i p b in
  stopped p' ∧ ran f b b' (λ p', wp policy (fb_command f) (fb_fingerprint f) p' (λ _, settled policy (fiber_id f))) p'.
Proof.
  revert f b. induction p as [r|a k IH]; intros f b Hi Hw.
  - cbn. split; [done|]. by apply ran_quiet.
  - cbn. rewrite Hi. destruct (perform now i f a b) as [b' [r|]] eqn:Hp.
    + destruct (perform_spec _ _ _ _ _ _ _ _ Hi Hw Hp) as (Hf & HQ & new & Hl & Hnew).
      destruct (frame_fiber' _ _ _ _ Hf Hi) as (f' & Hi' & Hst).
      assert (Hst' := Hst). injection Hst' as Hc Hfp _ Ha _.
      assert (Hid : fiber_id f' = fiber_id f) by (unfold fiber_id; by rewrite Hc).
      specialize (IH r f' b' Hi'). destruct (run_sync now i (k r) b') as [p' b2].
      unfold fiber_wp, fiber_local, ran in *. rewrite <-Hc, <-Hfp, <-Ha, Hid in IH.
      destruct (IH HQ) as (Hstop & Hf2 & HQ2 & new2 & Hl2 & Hnew2). split; [done|].
      split; [by eapply frame_trans|]. unfold fiber_local in HQ2. rewrite Hid, <-Ha in HQ2. split; [done|].
      exists (new ++ new2). rewrite Hl2, Hl. split; [by rewrite app_assoc|]. apply Forall_app. split; [done|].
      eapply Forall_impl; [exact Hnew2|]. intros e. by apply own_static.
    + split; [|by apply ran_quiet]. by destruct a.
Qed.

(** ** A fiber that goes on *)

(** The requests of a step were made with authority, of a bus in use, and for a command
    without a receipt. *)
Definition rightful b (e : LogEntry) : Prop :=
  outgoing e = true →
    bs_disposed b = false
    ∧ (policy (entry_of e) = Safe → findReceipt (entry_of e) (bs_store b) = None)
    ∧ ∃ i f, bs_fibers b !! i = Some f ∧ fiber_id f = entry_of e ∧ fb_authorized f = true.
Definition grows b b' : Prop := ∃ new, bs_log b' = bs_log b ++ new ∧ Forall (rightful b') new.

Record keeps b b' : Prop := {
  ke_store : bs_store b' = bs_store b;
  ke_disposed : bs_disposed b' = bs_disposed b;
  ke_fiber i f : bs_fibers b !! i = Some f →
    ∃ g, bs_fibers b' !! i = Some g ∧ fiber_id g = fiber_id f ∧ fb_authorized g = fb_authorized f }.
Lemma keeps_refl b : keeps b b.
Proof. split; eauto. Qed.
Lemma keeps_trans b1 b2 b3 : keeps b1 b2 → keeps b2 b3 → keeps b1 b3.
Proof.
  intros [Hs Hd Hf] [Hs' Hd' Hf']. split; [congruence..|]. intros i f Hi.
  destruct (Hf i f Hi) as (g & Hg & Hid & Ha). destruct (Hf' i g Hg) as (h & Hh & Hid' & Ha').
  exists h. split; [done|]. split; congruence.
Qed.
Lemma rightful_keeps b b' e : keeps b b' → rightful b e → rightful b' e.
Proof.
  intros [Hs Hd Hf] Hr Ho. destruct (Hr Ho) as (Hnd & Hrec & i & f & Hi & Hid & Ha). rewrite Hd, Hs.
  do 2 (split; [done|]). destruct (Hf i f Hi) as (g & Hg & Hid' & Ha'). exists i, g. split; [done|]. split; congruence.
Qed.
Lemma grows_trans b1 b2 b3 : grows b1 b2 → keeps b2 b3 → grows b2 b3 → grows b1 b3.
Proof.
  intros (l1 & Hl1 & Hr1) Hk (l2 & Hl2 & Hr2). exists (l1 ++ l2). rewrite Hl2, Hl1, app_assoc. split; [done|].
  apply Forall_app. split; [|done]. eapply Forall_impl; [exact Hr1|]. intros e. by apply rightful_keeps.
Qed.

(** Fiber [i] changes its program, and nothing else does. *)
Lemma finish_inv i b f (p : prog Attempt) :
  bs_fibers b !! i = Some f → Others i b → stopped p → fiber_wp f p b →
  Inv (update_fiber i (λ f, f <| fb_prog := p |>) b).
Proof.
  intros Hi [Hwf Hset Hres Hpol Hfib Huni Hcom Hrun] Hstop Hw.
  assert (Hlook : ∀ j g, bs_fibers (update_fiber i (λ f, f <| fb_prog := p |>) b) !! j = Some g →
    ∃ g0, bs_fibers b !! j = Some g0 ∧ (j = i ∧ g = g0 <| fb_prog := p |> ∨ j ≠ i ∧ g = g0)).
  { intros j g. cbn. destruct (decide (j = i)) as [->|Hne].
    - rewrite list_lookup_alter_eq, Hi. cbn. intros [= <-]. eauto.
    - rewrite list_lookup_alter_ne by done. eauto. }
  split; try done.
  - intros id au. destruct (decide (fiber_id f = id)) as [<-|Hne].
    + eapply settled_local; [..|by eapply wp_settled]; done.
    + eapply settled_local; [..|apply (Hset id au)]; [done..|]. rewrite Hi. by intros [=].
  - cbn. by rewrite length_alter.
  - intros j g (g0 & Hj & [[-> ->]|[Hne ->]])%Hlook.
    + rewrite Hi in Hj. injection Hj as <-. split; [by apply (Hpol i f)|]. done.
    + destruct (Hfib j g0 Hne Hj) as [? Hw0]. split; [done|]. intros Hr. by destruct (Hw0 Hr).
  - intros j k g h (g0 & Hj & Hg)%Hlook (h0 & Hk & Hh)%Hlook Hrg Hrh Hid.
    apply (Huni j k g0 h0 Hj Hk).
    + destruct Hg as [[-> _]|[_ ->]]; auto.
    + destruct Hh as [[-> _]|[_ ->]]; auto.
    + destruct Hg as [[_ ->]|[_ ->]], Hh as [[_ ->]|[_ ->]]; done.
  - intros j g Hd (g0 & Hj & Hg)%Hlook Ho. rewrite <-(Hcom j g0 Hd Hj); by destruct Hg as [[_ ->]|[_ ->]].
  - intros j g Hd (g0 & Hj & Hg)%Hlook Hr. destruct Hg as [[-> ->]|[_ ->]]; [|by eapply Hrun; eauto].
    apply (Hrun i g0 Hd Hj). by left.
Qed.
Lemma others_frame i b b' :
  Others i b → frame b b' →
  (∀ id, fiber_id <$> bs_fibers b !! i ≠ Some id → log_of id (bs_log b') = log_of id (bs_log b)) →
  is_Some (bs_fibers b !! i) → Others i b'.
Proof.
  intros [Hwf Hset Hres Hpol Hfib Huni Hcom Hrun] Hf Hlog [f Hi].
  assert (Hback : ∀ j g, bs_fibers b' !! j = Some g → ∃ g0, bs_fibers b !! j = Some g0
    ∧ fb_command g = fb_command g0 ∧ fb_fingerprint g = fb_fingerprint g0 ∧ fb_prog g = fb_prog g0
    ∧ fb_authorized g = fb_authorized g0 ∧ fb_outcome g = fb_outcome g0).
  { intros j g Hj. destruct (frame_fiber _ _ _ _ Hf Hj) as (g0 & Hj0 & Hst). exists g0.
    split; [done|]. by injection Hst. }
  assert (Hid : fiber_id <$> bs_fibers b' !! i = fiber_id <$> bs_fibers b !! i).
  { destruct (frame_fiber' _ _ _ _ Hf Hi) as (f' & Hi' & Hst). rewrite Hi, Hi'. cbn. unfold fiber_id.
    by injection Hst as ->. }
  split.
  - by rewrite (fr_store _ _ Hf).
  - rewrite Hid. intros id au Hne. eapply settled_local; [| |by apply (Hset id au)]; [by rewrite (fr_store _ _ Hf)|].
    by apply Hlog.
  - rewrite (fr_reservations _ _ Hf), Hres. pose proof (f_equal length (fr_fibers _ _ Hf)) as Hl.
    by rewrite !length_fmap in Hl.
  - intros j g (g0 & Hj & Hc & _)%Hback. unfold fiber_id. rewrite Hc. by apply (Hpol j).
  - intros j g Hne (g0 & Hj & Hc & Hfp & Hp & Ha & _)%Hback. destruct (Hfib j g0 Hne Hj) as [Hok Hw].
    split; [unfold fiber_id; by rewrite Hc|]. unfold running, fiber_wp, fiber_local, fiber_id, local in *.
    rewrite Hp, Hc, Hfp, Ha, (fr_store _ _ Hf), (fr_disposed _ _ Hf). intros Hr.
    rewrite Hlog; [by apply Hw|]. rewrite Hi. intros [=Hsame]. apply Hne.
    symmetry. eapply (Huni i j); eauto.
  - intros j k g h (g0 & Hj & Hc & _ & Hp & _)%Hback (h0 & Hk & Hc' & _ & Hp' & _)%Hback.
    unfold running, fiber_id. rewrite Hc, Hp, Hc', Hp'. by apply (Huni j k).
  - rewrite (fr_disposed _ _ Hf), (fr_commands _ _ Hf). intros j g Hd (g0 & Hj & Hc & _ & _ & _ & Ho)%Hback.
    unfold fiber_id. rewrite Hc, Ho. by apply Hcom.
  - rewrite (fr_disposed _ _ Hf). intros j g Hd (g0 & Hj & _ & _ & Hp & _ & Ho)%Hback.
    unfold running. rewrite Hp, Ho. by apply (Hrun j).
Qed.
Lemma static_fields f g : static f = static g →
  fb_command f = fb_command g ∧ fb_fingerprint f = fb_fingerprint g ∧ fb_prog f = fb_prog g
  ∧ fb_authorized f = fb_authorized g ∧ fb_outcome f = fb_outcome g.
Proof. by intros [=]. Qed.
Lemma resume_inv now i (p : prog Attempt) f b :
  bs_fibers b !! i = Some f → Others i b → fiber_wp f p b →
  Inv (resume_fiber now i p b) ∧ grows b (resume_fiber now i p b) ∧ keeps b (resume_fiber now i p b).
Proof.
  intros Hi Ho Hw. unfold resume_fiber. rewrite Hi.
  destruct (bs_reservations b !! i) as [rs|] eqn:Hrs; cycle 1.
  { apply lookup_ge_None in Hrs. apply lookup_lt_Some in Hi. pose proof (ot_reservations _ _ Ho). lia. }
  pose proof (run_sync_spec now i p f b Hi Hw) as Hrun.
  destruct (run_sync now i p b) as [p' b']. destruct Hrun as (Hstop & Hf & HQ & new & Hl & Hnew).
  destruct (frame_fiber' _ _ _ _ Hf Hi) as (f' & Hi' & Hst).
  destruct (static_fields _ _ Hst) as (Hc & Hfp & _ & Ha & _).
  assert (Hid : fiber_id f = fiber_id f') by (unfold fiber_id; by rewrite Hc).
  assert (Ho' : Others i b').
  { apply others_frame with (b := b); [done..| |eauto]. intros id. rewrite Hi. cbn. intros Hne.
    rewrite Hl. apply log_of_others. eapply Forall_impl; [exact Hnew|]. intros e [He _]. congruence. }
  assert (Hw' : fiber_wp f' p' b').
  { unfold fiber_wp, fiber_local. by rewrite <-Hc, <-Hfp, <-Ha, <-Hid. }
  set (p2 := match p' with Ret Attempt_again => _ | _ => p' end).
  assert (Hp2 : stopped p2 ∧ fiber_wp f' p2 b').
  { unfold p2. destruct p' as [[r|]|a k]; [by split|split; [done|]|by split].
    unfold fiber_wp. rewrite Hc, Hfp. apply wp_retry_round; [by apply (ot_policy _ _ Ho' i f')|exact Hw']. }
  split; [|split].
  - destruct Hp2. by apply (finish_inv i b' f').
  - exists new. split; [done|]. eapply Forall_impl; [exact Hnew|]. intros e [He Hout] Hoe.
    destruct (Hout Hoe) as (Hd & Hau & Hrec). split; [by rewrite <-(fr_disposed _ _ Hf) in Hd|]. cbn.
    rewrite (fr_store _ _ Hf), He. split; [done|].
    exists i, (f' <| fb_prog := p2 |>). rewrite list_lookup_alter_eq, Hi'. split; [done|]. cbn.
    split; [by rewrite Hid|by rewrite <-Ha].
  - split; [apply Hf|apply Hf|]. intros j g Hj. destruct (frame_fiber' _ _ _ _ Hf Hj) as (g' & Hj' & Hst').
    destruct (static_fields _ _ Hst') as (Hcg & _ & _ & Hag & _). cbn. unfold fiber_id. rewrite Hcg, Hag.
    destruct (decide (j = i)) as [->|Hne]; [rewrite list_lookup_alter_eq|rewrite list_lookup_alter_ne by done];
      rewrite Hj'; eauto.
Qed.

(** ** Answers of the outbox *)

Lemma find_entry_unique id (l : list OutboxEntry) e :
  NoDup (entry_id <$> l) → e ∈ l → entry_id e = id → find_entry id l = Some e.
Proof.
  intros Hnd He Hid. unfold find_entry. induction l as [|x l IH]; [by apply not_elem_of_nil in He|].
  apply NoDup_cons in Hnd as [Hx Hnd]. rewrite filter_cons. case_decide as Hd.
  - apply elem_of_cons in He as [->|He]; [done|]. exfalso. apply Hx. rewrite Hd, <-Hid. by apply list_elem_of_fmap_2.
  - apply elem_of_cons in He as [->|He]; [done|]. by apply IH.
Qed.
Lemma find_entry_some id (l : list OutboxEntry) e : find_entry id l = Some e → e ∈ l ∧ entry_id e = id.
Proof.
  unfold find_entry. intros He. assert (e ∈ filter (λ e, entry_id e = id) l) as Hin.
  { destruct (filter _ l); [done|]. injection He as ->. by left. }
  apply list_elem_of_filter in Hin. tauto.
Qed.
Lemma listed_answers c env s au b : bs_store b = s → wf s →
  list_answers c env (local (cc_commandId c) au b) (listOutbox env s).
Proof.
  intros <- Hwf. unfold list_answers. cbn. destruct env as [env|]; [|done].
  pose proof (list_environment env (bs_store b)) as Hperm. pose proof (list_ids (bs_store b) Hwf) as Hnd.
  assert (Hnd' : NoDup (entry_id <$> listOutbox (Some env) (bs_store b))).
  { rewrite Hperm. eapply sublist_NoDup; [exact Hnd|]. apply fmap_sublist, sublist_filter. }
  assert (Hin : ∀ e, e ∈ listOutbox (Some env) (bs_store b)
    ↔ cc_environmentId (oe_command e) = env ∧ e ∈ listOutbox None (bs_store b)).
  { intros e. rewrite Hperm. by rewrite list_elem_of_filter. }
  change (outbox_row (cc_commandId c) (bs_store b)) with (find_entry (cc_commandId c) (listOutbox None (bs_store b))).
  destruct (find_entry _ (listOutbox (Some env) _)) as [e|] eqn:He.
  - apply find_entry_some in He as [[Henv He]%Hin Hid].
    by rewrite (find_entry_unique _ _ _ Hnd He Hid), decide_True.
  - destruct (find_entry _ (listOutbox None _)) as [e|] eqn:He'; [|done].
    apply find_entry_some in He' as [He' Hid]. case_decide as Henv; [|done].
    enough (find_entry (cc_commandId c) (listOutbox (Some env) (bs_store b)) = Some e) by congruence.
    apply find_entry_unique; [done| |done]. by apply Hin.
Qed.
Lemma row_listed s e : wf s → e ∈ listOutbox None s → outbox_row (entry_id e) s = Some e.
Proof. intros Hwf He. by apply find_entry_unique; [apply list_ids|..]. Qed.

(** What a request of another command leaves of a command. *)
Definition rests (id : string) (s s' : Store) : Prop :=
  outbox_row id s' = outbox_row id s ∧ (findReceipt id s' = findReceipt id s ∨ findReceipt id s' = None).
Lemma receipts_rest s s' id (P : CommandReceipt R → Prop) :
  (∀ r, findReceipt id s' = Some r → findReceipt id s = Some r ∨ P r) → (∀ r, ¬ P r) →
  findReceipt id s' = findReceipt id s ∨ findReceipt id s' = None.
Proof.
  intros Hr HP. destruct (findReceipt id s') as [r|]; [|by right]. left. by destruct (Hr r eq_refl) as [|?%HP].
Qed.
Definition logged b (s : Store) (log : list LogEntry) : Bus := b <| bs_store := s |> <| bs_log ::= λ l, l ++ log |>.
Definition quiet f (log : list LogEntry) : Prop := Forall (λ e, entry_of e = fiber_id f ∧ outgoing e = false) log.
Lemma local_logged b s f log id : quiet f log → id ≠ fiber_id f →
  log_of id (bs_log (logged b s log)) = log_of id (bs_log b).
Proof.
  intros Hq Hne. apply log_of_others. eapply Forall_impl; [exact Hq|]. intros e [He _]. congruence.
Qed.
Lemma logged_nil b : logged b (bs_store b) [] = b.
Proof. destruct b. unfold logged. cbn. by rewrite app_nil_r. Qed.
Lemma logged_meanwhile b s id au :
  rests id (bs_store b) s → meanwhile (local id au b) (local id au (logged b s [])).
Proof. intros [Hrow Hrec]. split; cbn; [by rewrite app_nil_r|done|by left]. Qed.
Lemma local_record_eq b s e id au receipt row :
  entry_of e = id → findReceipt id s = receipt → outbox_row id s = row →
  local id au (logged b s [e])
  = record e ((local id au b) <| lc_row := row |> <| lc_receipt := receipt |>).
Proof. intros He <- <-. unfold local, record, logged. cbn -[log_of]. by rewrite log_of_app, (log_of_own _ _ He). Qed.
(** An answer of the outbox to fiber [f] and what it leaves: the next program may rely on
    [Q], and the command is settled if the fiber is lost instead. *)
Definition answered_by {A} f b s log (Q : A → Local → Prop) (r : A) au : Prop :=
  let b' := logged b s log in
  wf s ∧ (∀ id, id ≠ fiber_id f → rests id (bs_store b) s) ∧ quiet f log
  ∧ settled policy (fiber_id f) (local (fiber_id f) au b') ∧ Q r (local (fiber_id f) au b').
Lemma put_answer f e b s r au Q :
  wf (bs_store b) → act_wp policy (fb_command f) (fb_fingerprint f) (PutOutbox e) Q (local (fiber_id f) au b) →
  outbox_answer f (PutOutbox e) (bs_store b) = Some (s, r) →
  answered_by f b s (outbox_log f (PutOutbox e) r) Q r au.
Proof.
  intros Hwf Hw Ho. cbn in Ho. unfold answered_by. cbv zeta.
  destruct Hw as [Hid [Hs Hw]]. destruct (Hw _ (meanwhile_refl _)) as [_ HQ]. cbn in HQ.
  pose proof (put_result e _ Hwf) as Hres. pose proof (put_row e (bs_store b)) as Hrow.
  pose proof (put_receipts e (bs_store b)) as Hrec. pose proof (wf_put e _ Hwf) as Hwf'.
  destruct (putOutbox e (bs_store b)) as [s' res]. cbn in Hres, Hrow, Hrec, Hwf'. injection Ho as <- <-.
  split; [done|]. split.
  { intros id Hne. split; [|left; by apply Hrec]. rewrite Hrow by done. apply decide_False.
    rewrite Hid. by intros [-> _]. }
  rewrite Hid in Hres. rewrite Hres. unfold fiber_id in *.
  destruct (assert_matching _ (outbox_row (cc_commandId (fb_command f)) (bs_store b)) _ _) as [[]|err] eqn:Ha; cbn.
  - rewrite Hid. split; [by repeat constructor|].
    rewrite (local_record_eq _ _ (Log_stored _) _ au (findReceipt (cc_commandId (fb_command f)) (bs_store b)) (Some e)).
    + exact HQ.
    + done.
    + by apply Hrec.
    + rewrite Hrow by done. apply decide_True. by rewrite Hid, Ha.
  - split; [by constructor|].
    assert (Hrest : rests (cc_commandId (fb_command f)) (bs_store b) s').
    { split; [|left; by apply Hrec]. rewrite Hrow by done. apply decide_False. rewrite Hid, Ha. by intros [_ ?]. }
    pose proof (logged_meanwhile b s' _ au Hrest) as Hm. destruct (Hw _ Hm) as [_ HQ'].
    split; [by eapply settled_meanwhile|]. cbn in HQ'. rewrite (proj1 Hrest), Ha in HQ'. exact HQ'.
Qed.
Lemma remove_answer f b s r au Q :
  wf (bs_store b) → act_wp policy (fb_command f) (fb_fingerprint f) RemoveOutbox Q (local (fiber_id f) au b) →
  outbox_answer f RemoveOutbox (bs_store b) = Some (s, r) →
  answered_by f b s (outbox_log f RemoveOutbox r) Q r au.
Proof.
  intros Hwf Hw Ho. cbn in Ho. unfold answered_by. cbv zeta.
  destruct Hw as [Hs Hw].
  pose proof (remove_result (fiber_id f) (fb_fingerprint f) _ Hwf) as Hres.
  pose proof (remove_row (fiber_id f) (fb_fingerprint f) (bs_store b)) as Hrow.
  pose proof (remove_receipts (fiber_id f) (fb_fingerprint f) (bs_store b)) as Hrec.
  pose proof (wf_remove (fiber_id f) (fb_fingerprint f) _ Hwf) as Hwf'. unfold fiber_id in *.
  destruct (removeOutbox _ _ (bs_store b)) as [s' res]. cbn in Hres, Hrow, Hrec, Hwf'. injection Ho as <- <-.
  split; [done|]. split.
  { intros id Hne. split; [|left; by apply Hrec]. rewrite Hrow by done. apply decide_False. by intros [-> _]. }
  split; [by constructor|]. rewrite Hres.
  destruct (assert_matching _ (outbox_row (cc_commandId (fb_command f)) (bs_store b)) _ _) as [[]|err] eqn:Ha; cbn.
  - destruct (Hw _ (meanwhile_refl _)) as [_ HQ]. cbn in HQ. rewrite Ha in HQ. specialize (HQ eq_refl).
    assert (local (cc_commandId (fb_command f)) au (logged b s' []) = (local (cc_commandId (fb_command f)) au b) <| lc_row := None |>) as ->.
    { unfold local. cbn -[log_of]. rewrite app_nil_r, Hrec by done. f_equal.
      rewrite Hrow by done. apply decide_True. by rewrite Ha. }
    exact HQ.
  - assert (Hrest : rests (cc_commandId (fb_command f)) (bs_store b) s').
    { split; [|left; by apply Hrec]. rewrite Hrow by done. apply decide_False. rewrite Ha. by intros [_ ?]. }
    pose proof (logged_meanwhile b s' _ au Hrest) as Hm. destruct (Hw _ Hm) as [HQ' _].
    split; [by eapply settled_meanwhile|]. apply HQ'.
Qed.
Lemma complete_answer f r0 b s r au Q :
  wf (bs_store b) → act_wp policy (fb_command f) (fb_fingerprint f) (CompleteOutbox r0) Q (local (fiber_id f) au b) →
  outbox_answer f (CompleteOutbox r0) (bs_store b) = Some (s, r) →
  answered_by f b s (outbox_log f (CompleteOutbox r0) r) Q r au.
Proof.
  intros Hwf Hw Ho. cbn in Ho. unfold answered_by. cbv zeta.
  destruct Hw as [Hid [Hs Hw]]. unfold fiber_id in *.
  pose proof (complete_rows r0 (bs_store b)) as Hrow. pose proof (complete_success r0 _ Hwf) as Hok.
  pose proof (complete_failure r0 (bs_store b)) as Hfail. pose proof (complete_receipts r0 (bs_store b)) as Hrec.
  pose proof (wf_complete r0 _ Hwf) as Hwf'. rewrite Hid in *.
  destruct (completeOutbox r0 (bs_store b)) as [s' res]. cbn in Hrow, Hok, Hfail, Hrec, Hwf'. injection Ho as <- <-.
  split; [done|]. split.
  { intros id Hne. split.
    - destruct (Hrow id Hwf) as [|[-> _]]; done.
    - eapply receipts_rest; [intros r'; exact (Hrec id r' Hwf)|]. by intros r' (_ & -> & _). }
  destruct res as [[]|err]; cbn.
  - split; [by repeat constructor|]. destruct (Hw _ (meanwhile_refl _)) as (_ & _ & HQ).
    rewrite (local_record_eq _ _ (Log_completed _) _ au (findReceipt (cc_commandId (fb_command f)) s') None);
      [apply HQ|done|done|by apply Hok].
  - split; [by constructor|]. destruct (Hw _ (meanwhile_refl _)) as (Hnone & _ & _). cbn in Hnone.
    assert (Hrest : rests (cc_commandId (fb_command f)) (bs_store b) s').
    { split.
      - destruct (Hrow (cc_commandId (fb_command f)) Hwf) as [|(_ & _ & Hgone)]; [done|].
        destruct (outbox_row (cc_commandId (fb_command f)) (bs_store b)) as [e|] eqn:He; [|done].
        destruct (sl_row _ _ _ Hs e He) as (_ & _ & Hp). rewrite Hfail; auto.
      - eapply receipts_rest; [intros r'; exact (Hrec _ r' Hwf)|]. by intros r' (_ & _ & ?). }
    pose proof (logged_meanwhile b s' _ au Hrest) as Hm. destruct (Hw _ Hm) as (_ & HQ' & _).
    split; [by eapply settled_meanwhile|]. apply HQ'.
Qed.
Lemma outbox_answer_spec f a b s r au Q :
  wf (bs_store b) → act_wp policy (fb_command f) (fb_fingerprint f) a Q (local (fiber_id f) au b) →
  outbox_answer f a (bs_store b) = Some (s, r) →
  answered_by f b s (outbox_log f a r) Q r au.
Proof.
  intros Hwf Hw Ho. assert (Hrests : ∀ id, rests id (bs_store b) (bs_store b)) by (split; auto).
  destruct a; try discriminate Ho; [| |by apply put_answer|by apply remove_answer|by apply complete_answer];
    cbn in Ho; injection Ho as <- <-; unfold answered_by; cbn; rewrite logged_nil; destruct Hw as [Hs Hw];
    destruct (Hw _ (meanwhile_refl _)) as [_ HQ]; split_and!; try done; try by constructor.
  by apply HQ, listed_answers.
Qed.

(** ** Events of a waiting fiber *)

Lemma grows_refl b : grows b b.
Proof. exists []. by rewrite app_nil_r. Qed.
Lemma grows_logged f b s log b' : quiet f log → grows (logged b s log) b' → grows b b'.
Proof.
  intros Hq (new & Hl & Hnew). exists (log ++ new). cbn in Hl. rewrite Hl, app_assoc. split; [done|].
  apply Forall_app. split; [|done]. eapply Forall_impl; [exact Hq|]. intros e [_ He]. unfold rightful. by rewrite He.
Qed.
Lemma others_logged i f b s log :
  Inv b → bs_fibers b !! i = Some f → running f = true → wf s →
  (∀ id, id ≠ fiber_id f → rests id (bs_store b) s) → quiet f log → Others i (logged b s log).
Proof.
  intros [Hwf Hset Hres Hfib Huni Hcom Hrun] Hi Hr Hs Hrests Hq.
  assert (Hmean : ∀ id au, id ≠ fiber_id f → meanwhile (local id au b) (local id au (logged b s log))).
  { intros id au Hne. destruct (Hrests id Hne) as [Hrow Hrec]. split; cbn -[log_of]; [|done|by left].
    by apply (local_logged b s f). }
  split; try done.
  - cbn. rewrite Hi. intros id au Hne. eapply settled_meanwhile; [apply (Hset id au)|]. apply Hmean. intros ->.
    by apply Hne.
  - intros j g Hj. by destruct (Hfib j g Hj).
  - intros j g Hne Hj. destruct (Hfib j g Hj) as [Hp Hw]. split; [done|]. intros Hrg.
    destruct (Hw Hrg) as [Hstop Hwp]. split; [done|]. eapply wp_meanwhile; [done|exact Hwp|].
    apply Hmean. intros Hid. apply Hne. by apply (Huni j i g f).
  - intros j k g h Hj Hk Hrg Hrh. apply (Huni j k); [done..| |].
    + destruct Hrg as [->|]; [|done]. cbn in Hj. congruence.
    + destruct Hrh as [->|]; [|done]. cbn in Hk. congruence.
  - intros j g Hd Hj Hrg. apply (Hrun j g Hd Hj). destruct Hrg as [->|]; [|done]. cbn in Hj. congruence.
Qed.
Lemma waiting_spec i b : Inv b →
  match waiting i b with
  | Some (f, existT a k) =>
      bs_fibers b !! i = Some f ∧ running f = true
      ∧ act_wp policy (fb_command f) (fb_fingerprint f) a (λ r, wp policy (fb_command f) (fb_fingerprint f) (k r)
          (λ _, settled policy (fiber_id f))) (fiber_local f b)
  | None => True
  end.
Proof.
  intros Hinv. unfold waiting. destruct (bs_fibers b !! i) as [f|] eqn:Hi; [cbn|done].
  destruct (fb_prog f) as [r|a k] eqn:Hp; [done|]. destruct (inv_fiber _ Hinv i f Hi) as [_ Hok].
  assert (Hr : running f = true) by (unfold running; by rewrite Hp).
  destruct (Hok Hr) as [Hstop Hwp]. unfold fiber_wp in Hwp. by rewrite Hp in Hwp.
Qed.
Lemma outbox_answers_inv now i b :
  Inv b → Inv (outbox_answers now i b) ∧ grows b (outbox_answers now i b).
Proof.
  intros Hinv. pose proof (waiting_spec i b Hinv) as Hw. unfold outbox_answers.
  destruct (waiting i b) as [[f [a k]]|]; [|split; [done|apply grows_refl]].
  destruct Hw as (Hi & Hr & Hw).
  destruct (outbox_answer f a (bs_store b)) as [[s r]|] eqn:Ho; [|split; [done|apply grows_refl]].
  destruct (outbox_answer_spec f a b s r _ _ (inv_wf _ Hinv) Hw Ho) as (Hwf & Hrests & Hq & _ & HQ).
  destruct (resume_inv now i (k r) f (logged b s (outbox_log f a r))) as (Hinv' & Hg & _); [done|by apply others_logged with (f := f)|done|].
  split; [done|]. by eapply grows_logged.
Qed.
Lemma answers_inv now i (respond : Fiber → ∀ a, option (answer a * list LogEntry)) b :
  Inv b →
  match waiting i b with
  | Some (f, existT a _) => ∀ r log Q, respond f a = Some (r, log) →
      act_wp policy (fb_command f) (fb_fingerprint f) a Q (fiber_local f b) →
      quiet f log ∧ Q r (fiber_local f (logged b (bs_store b) log))
  | None => True
  end →
  Inv (answers now i respond b) ∧ grows b (answers now i respond b).
Proof.
  intros Hinv Hresp. pose proof (waiting_spec i b Hinv) as Hw. unfold answers.
  destruct (waiting i b) as [[f [a k]]|]; [|split; [done|apply grows_refl]].
  destruct Hw as (Hi & Hr & Hw).
  destruct (respond f a) as [[r log]|] eqn:Ho; [|split; [done|apply grows_refl]].
  destruct (Hresp r log _ eq_refl Hw) as [Hq HQ].
  destruct (resume_inv now i (k r) f (logged b (bs_store b) log)) as (Hinv' & Hg & _); [done| |done|].
  { apply others_logged with (f := f); try done; [apply Hinv|]. by split; [|left]. }
  split; [done|]. by eapply grows_logged.
Qed.
(** Nothing is sent. *)
Definition still b b' : Prop := ∃ new, bs_log b' = bs_log b ++ new ∧ Forall (λ e, outgoing e = false) new.
Lemma still_refl b : still b b.
Proof. exists []. by rewrite app_nil_r. Qed.
Lemma still_trans b1 b2 b3 : still b1 b2 → still b2 b3 → still b1 b3.
Proof.
  intros (l1 & Hl1 & H1) (l2 & Hl2 & H2). exists (l1 ++ l2). rewrite Hl2, Hl1, app_assoc. split; [done|].
  by apply Forall_app.
Qed.
Lemma apply_pending_inv i b : Inv b → Inv (apply_pending b i) ∧ still b (apply_pending b i).
Proof.
  intros Hinv. pose proof (waiting_spec i b Hinv) as Hw. unfold apply_pending.
  destruct (waiting i b) as [[f [a k]]|]; [|split; [done|apply still_refl]].
  destruct Hw as (Hi & Hr & Hw).
  destruct (outbox_answer f a (bs_store b)) as [[s r]|] eqn:Ho; [|split; [done|apply still_refl]].
  destruct (outbox_answer_spec f a b s r _ _ (inv_wf _ Hinv) Hw Ho) as (Hwf & Hrests & Hq & Hs & _).
  split.
  - apply (finish_inv i (logged b s (outbox_log f a r)) f); [done|by apply others_logged with (f := f)|done|exact Hs].
  - exists (outbox_log f a r). split; [done|]. eapply Forall_impl; [exact Hq|]. by intros e [_ He].
Qed.

(** The command is stored for good, by a request that was answered. *)
Definition persisted b (id : string) : Prop :=
  policy id = Safe ∧ ∃ d, delivery (log_of id (bs_log b)) = Some d ∧ dl_stored d = true.
(** The outbox reads its rows and writes the row of a stored command again. *)
Definition reliable b i : Prop :=
  match waiting i b with
  | Some (f, existT (ListOutbox None) _) | Some (f, existT (PutOutbox _) _) => ¬ persisted b (fiber_id f)
  | _ => True
  end.
Lemma outbox_fails_inv now i message b :
  Inv b → reliable b i →
  let b' := answers now i (λ _ a, (λ r, (r, [])) <$> outbox_failure a message) b in Inv b' ∧ grows b b'.
Proof.
  intros Hinv Hrel. apply answers_inv; [done|]. unfold reliable in Hrel.
  destruct (waiting i b) as [[f [a k]]|]; [|done]. intros r log Q Hf HQ. rewrite fmap_Some in Hf.
  destruct Hf as (r' & Hf & [= -> ->]). rewrite logged_nil. split; [by constructor|].
  assert (Hun : ¬ persisted b (fiber_id f) → unstored policy (fb_command f) (fiber_local f b)).
  { intros Hn Hp d Hd. destruct (dl_stored d) eqn:Hds; [|done]. destruct Hn. split; [done|]. eauto. }
  destruct a; try discriminate Hf; injection Hf as <-.
  - by apply (proj2 HQ _ (meanwhile_refl _)).
  - apply (proj2 HQ _ (meanwhile_refl _)). intros ->. by apply Hun.
  - apply (proj2 (proj2 HQ) _ (meanwhile_refl _)). by apply Hun.
  - by apply (proj2 HQ _ (meanwhile_refl _)).
  - by apply (proj2 (proj2 HQ) _ (meanwhile_refl _)).
Qed.
Lemma inside_answers_inv now i b :
  Inv b → let b' := answers now i (λ f a, (λ r, (r, [])) <$> inside_answer i f b a) b in Inv b' ∧ grows b b'.
Proof.
  intros Hinv. apply answers_inv; [done|].
  destruct (waiting i b) as [[f [a k]]|]; [|done]. intros r log Q Hf HQ. rewrite fmap_Some in Hf.
  destruct Hf as (r' & Hf & [= -> ->]). rewrite logged_nil. split; [by constructor|].
  destruct a; try discriminate Hf; destruct r';
    by apply (proj2 HQ _ (meanwhile_refl _)).
Qed.
Lemma interrupted_inv now i b :
  Inv b → let b' := answers now i (λ f a, (λ r, (r, [])) <$> interruption f b a) b in Inv b' ∧ grows b b'.
Proof.
  intros Hinv. apply answers_inv; [done|].
  destruct (waiting i b) as [[f [a k]]|]; [|done]. intros r log Q Hf HQ. rewrite fmap_Some in Hf.
  destruct Hf as (r' & Hf & [= -> ->]). rewrite logged_nil. split; [by constructor|].
  assert (Hact : ∀ cause, interrupted_by f b = Some cause → ¬ active (fiber_local f b)).
  { unfold interrupted_by. intros cause Hc [Hd Ha]. cbn in Hd, Ha. by rewrite Hd, Ha in Hc. }
  unfold interruption in Hf. destruct (interrupted_by f b) as [cause|]; [|done].
  destruct a; try discriminate Hf; injection Hf as <-; try by apply (proj2 HQ _ (meanwhile_refl _)).
  apply (proj2 HQ _ (meanwhile_refl _)). by eapply Hact.
Qed.
Lemma prepared_spec c resume r r' : prepared c resume r = Some r' →
  match r' with
  | Success (env, fp) => fp = env_fingerprint env ∧ ∀ e, resume = Some e → oe_encryptedEnvelope e = Some env
  | Failure _ => True
  end.
Proof.
  unfold prepared. destruct resume as [e|], r as [[env fp]|cause]; try (by intros [= <-]).
  - intros [= <-]. destruct (oe_encryptedEnvelope e) as [env'|] eqn:He; [cbn|done].
    repeat case_match; try done. simplify_eq/=. split; [done|]. by intros e' [= <-].
  - case_match; [|done]. by intros [= <-].
Qed.
Lemma outside_answers_inv now i (respond : ∀ a, option (answer a)) b :
  Inv b →
  let b' := answers now i (λ f a, r ← respond a; r' ← outside_answer f b a r; Some (r', outside_log f a r')) b in
  Inv b' ∧ grows b b'.
Proof.
  intros Hinv. apply answers_inv; [done|].
  destruct (waiting i b) as [[f [a k]]|]; [|done]. intros r log Q Hf HQ.
  destruct (respond a) as [r0|]; [|done]. cbn in Hf.
  destruct (outside_answer f b a r0) as [r'|] eqn:Ho; [|done]. cbn in Hf. injection Hf as <- <-.
  assert (Hcore : quiet f (outside_log f a r')
    ∧ Q r' (fiber_local f (logged b (bs_store b) (outside_log f a r')))); [|done].
  assert (Huntil : ∀ A (x y : A), untilDisposed f b x = Some y → y = x).
  { unfold untilDisposed. intros A x y. case_match; [done|]. by intros [= <-]. }
  destruct a; try discriminate Ho; cbn [outside_log] in *; try rewrite logged_nil.
  - split; [by constructor|]. apply prepared_spec in Ho. destruct r' as [[env fp]|cause].
    + destruct Ho as [-> Henv]. by apply (proj2 HQ _ (meanwhile_refl _)).
    + by apply (proj2 HQ _ (meanwhile_refl _)).
  - split; [by constructor|]. by apply (proj2 HQ _ (meanwhile_refl _)).
  - split; [by constructor|]. apply Huntil in Ho as ->.
    destruct r0 as [receipt|cause]; by apply (proj2 HQ _ (meanwhile_refl _)).
  - split; [by constructor|]. by apply (proj2 HQ _ (meanwhile_refl _)).
  - split; [by repeat constructor|]. destruct (proj2 HQ _ (meanwhile_refl _)) as [_ HQ'].
    unfold fiber_local. erewrite (local_record b); [apply (HQ' r')|by split|done|done].
  - split; [by constructor|]. by apply (proj2 HQ _ (meanwhile_refl _)).
Qed.

(** ** Other events *)

(** What changes no program, and of a command at most its receipt and its status. *)
Record passive b b' : Prop := {
  pa_wf : wf (bs_store b');
  pa_local id au au' : meanwhile (local id au b) (local id au' b');
  pa_reservations : length (bs_reservations b') = length (bs_reservations b);
  pa_length : length (bs_fibers b') = length (bs_fibers b);
  pa_fiber i f : bs_fibers b' !! i = Some f → ∃ g, bs_fibers b !! i = Some g
    ∧ fb_command f = fb_command g ∧ fb_fingerprint f = fb_fingerprint g ∧ fb_prog f = fb_prog g
    ∧ (bs_disposed b' = false → bs_disposed b = false ∧
         (fb_outcome f = fb_outcome g ∧ (fb_outcome f = None → bs_commands b' !! fiber_id f = bs_commands b !! fiber_id g)
          ∨ is_Some (fb_outcome f) ∧ running g = false)) }.
Lemma passive_inv b b' : Inv b → passive b b' → Inv b'.
Proof.
  intros [Hwf Hset Hres Hfib Huni Hcom Hrun] [Hwf' Hloc Hres' Hlen Hback]. split.
  - done.
  - intros id au. eapply settled_meanwhile; [apply (Hset id au)|apply Hloc].
  - congruence.
  - intros i f (g & Hi & Hc & Hfp & Hp & _)%Hback. destruct (Hfib i g Hi) as [Hpol Hw].
    split; [unfold fiber_id; by rewrite Hc|]. unfold running, fiber_wp, fiber_local, fiber_id in *.
    rewrite Hc, Hfp, Hp. intros Hr. destruct (Hw Hr) as [Hstop Hwp]. split; [done|].
    eapply wp_meanwhile; [done|exact Hwp|apply Hloc].
  - intros i j f g (f0 & Hi & Hc & _ & Hp & _)%Hback (g0 & Hj & Hc' & _ & Hp' & _)%Hback.
    unfold running, fiber_id. rewrite Hc, Hp, Hc', Hp'. by apply (Huni i j).
  - intros i f Hd (g & Hi & Hc & _ & Hp & Ho)%Hback Hnone. destruct (Ho Hd) as [Hd0 [[Heq Hl]|[[? ?] _]]]; [|congruence].
    rewrite Hl by done. apply (Hcom i g Hd0 Hi). congruence.
  - intros i f Hd (g & Hi & Hc & _ & Hp & Ho)%Hback Hr. destruct (Ho Hd) as [Hd0 [[-> _]|[_ Hng]]].
    + apply (Hrun i g Hd0 Hi). unfold running in *. by rewrite <-Hp.
    + unfold running in *. by rewrite Hp, Hng in Hr.
Qed.
Lemma meanwhile_local id au au' b b' :
  rests id (bs_store b) (bs_store b') → bs_log b' = bs_log b → meanwhile (local id au b) (local id au' b').
Proof. intros [Hrow Hrec] Hl. split; cbn; [by rewrite Hl|done|by left]. Qed.
Lemma rests_refl id s : rests id s s.
Proof. by split; [|left]. Qed.
Lemma frame_passive b b' : Inv b → frame b b' → bs_log b' = bs_log b → passive b b'.
Proof.
  intros Hinv Hf Hl. split.
  - rewrite (fr_store _ _ Hf). apply Hinv.
  - intros id au au'. apply meanwhile_local; [|done]. rewrite (fr_store _ _ Hf). apply rests_refl.
  - by rewrite (fr_reservations _ _ Hf).
  - pose proof (f_equal length (fr_fibers _ _ Hf)) as Hlen. by rewrite !length_fmap in Hlen.
  - intros i f Hi. destruct (frame_fiber _ _ _ _ Hf Hi) as (g & Hg & Hst).
    destruct (static_fields _ _ Hst) as (Hc & Hfp & Hp & Ha & Ho). exists g. do 4 (split; [done|]).
    rewrite (fr_disposed _ _ Hf), (fr_commands _ _ Hf). intros Hd. split; [done|]. left. split; [done|].
    intros _. unfold fiber_id. by rewrite Hc.
Qed.
Lemma quiet_step b b' : Inv b → passive b b' → bs_log b' = bs_log b → Inv b' ∧ grows b b'.
Proof. intros Hinv Hp Hl. split; [by eapply passive_inv|]. exists []. by rewrite app_nil_r. Qed.
Lemma release_lane_fields i b :
  bs_store (release_lane i b) = bs_store b ∧ bs_log (release_lane i b) = bs_log b
  ∧ bs_fibers (release_lane i b) = bs_fibers b ∧ bs_commands (release_lane i b) = bs_commands b
  ∧ bs_disposed (release_lane i b) = bs_disposed b
  ∧ length (bs_reservations (release_lane i b)) = length (bs_reservations b).
Proof. unfold release_lane. destruct (bs_reservations b !! i); [|done]. cbn. by rewrite length_alter. Qed.
(** A fiber that changes otherwise than in its program. *)
Lemma fiber_passive b b' i (h : Fiber → Fiber) :
  Inv b → wf (bs_store b') → (∀ id, rests id (bs_store b) (bs_store b')) → bs_log b' = bs_log b →
  length (bs_reservations b') = length (bs_reservations b) → bs_fibers b' = alter h i (bs_fibers b) →
  bs_disposed b' = bs_disposed b →
  (∀ f, fb_command (h f) = fb_command f ∧ fb_fingerprint (h f) = fb_fingerprint f ∧ fb_prog (h f) = fb_prog f) →
  (∀ f, bs_disposed b = false → bs_fibers b !! i = Some f →
     fb_outcome (h f) = fb_outcome f ∧ (fb_outcome f = None → bs_commands b' !! fiber_id f = bs_commands b !! fiber_id f)
     ∨ is_Some (fb_outcome (h f)) ∧ running f = false) →
  (∀ j f, bs_disposed b = false → j ≠ i → bs_fibers b !! j = Some f → fb_outcome f = None →
     bs_commands b' !! fiber_id f = bs_commands b !! fiber_id f) →
  passive b b'.
Proof.
  intros Hinv Hwf Hrests Hl Hres Hfib Hd Hh Hi Hj. split; try done.
  - intros id au au'. by apply meanwhile_local.
  - rewrite Hfib. by rewrite length_alter.
  - intros j f Hlook. rewrite Hfib in Hlook. destruct (decide (j = i)) as [->|Hne].
    + rewrite list_lookup_alter_eq in Hlook. destruct (bs_fibers b !! i) as [g|] eqn:Hg; [|done].
      cbn in Hlook. injection Hlook as <-. destruct (Hh g) as (Hc & Hfp & Hp). exists g. do 4 (split; [done|]).
      rewrite Hd. intros Hnd. split; [done|]. unfold fiber_id. rewrite Hc.
      destruct (Hi g Hnd eq_refl) as [[-> Hcom]|?]; [by left|by right].
    + rewrite list_lookup_alter_ne in Hlook by done. exists f. do 4 (split; [done|]). rewrite Hd. intros Hnd.
      split; [done|]. left. split; [done|]. by apply (Hj j).
Qed.
Lemma settles_inv i b : Inv b → Inv (settles i b) ∧ grows b (settles i b).
Proof.
  intros Hinv. unfold settles. destruct (bs_fibers b !! i) as [f|] eqn:Hi; [|by split; [|apply grows_refl]].
  destruct (fb_prog f) as [[r|]|a k] eqn:Hp; [|by split; [|apply grows_refl]..].
  destruct (fb_outcome f) as [o|] eqn:Ho.
  - destruct (release_lane_fields i b) as (Hs & Hl & Hf & Hc & Hd & Hr).
    apply quiet_step; [done| |done]. apply fiber_passive with (i := i) (h := id); try done.
    + rewrite Hs. apply Hinv.
    + intros id. rewrite Hs. apply rests_refl.
    + rewrite Hf. apply list_eq. intros j. destruct (decide (j = i)) as [->|].
      * rewrite list_lookup_alter_eq. by destruct (bs_fibers b !! i).
      * by rewrite list_lookup_alter_ne.
    + intros g _ _. left. by rewrite Hc.
    + intros j g _ _ _ _. by rewrite Hc.
  - set (b1 := update_fiber i _ b). destruct (release_lane_fields i b1) as (Hs & Hl & Hf & Hc & Hd & Hr).
    set (b2 := release_lane i b1) in *. clearbody b2.
    set (b3 := match r with Success _ => _ | Failure _ => _ end).
    assert (bs_store b3 = bs_store b2 ∧ bs_log b3 = bs_log b2 ∧ bs_fibers b3 = bs_fibers b2
      ∧ bs_commands b3 = bs_commands b2 ∧ bs_disposed b3 = bs_disposed b2
      ∧ bs_reservations b3 = bs_reservations b2) as (Hs3 & Hl3 & Hf3 & Hc3 & Hd3 & Hr3).
    { unfold b3. by destruct r. }
    clearbody b3. apply quiet_step; [done| |cbn; by rewrite Hl3, Hl].
    apply fiber_passive with (i := i) (h := λ f, f <| fb_outcome := Some r |>); try done; cbn.
    + rewrite Hs3, Hs. apply Hinv.
    + intros id. rewrite Hs3, Hs. apply rests_refl.
    + by rewrite Hl3, Hl.
    + by rewrite Hr3, Hr.
    + by rewrite Hf3, Hf.
    + by rewrite Hd3, Hd.
    + intros g _ Hg. right. split; [done|]. rewrite Hi in Hg. injection Hg as <-. unfold running. by rewrite Hp.
    + intros j g Hnd Hne Hg Hog. rewrite Hc3, Hc. cbn. apply lookup_delete_ne. intros Hid.
      pose proof (inv_commands _ Hinv i f Hnd Hi Ho) as H1. pose proof (inv_commands _ Hinv j g Hnd Hg Hog) as H2.
      unfold fiber_id in *. rewrite Hid in H1. congruence.
Qed.
Lemma frame_step b b' : Inv b → frame b b' ∧ bs_log b' = bs_log b → Inv b' ∧ grows b b'.
Proof. intros Hinv [Hf Hl]. apply quiet_step; [done| |done]. by apply frame_passive. Qed.
Lemma setView_step key v b : Inv b → Inv (setView key v b) ∧ grows b (setView key v b).
Proof. intros Hinv. apply frame_step, setView_frame. done. Qed.
Lemma status_arrives_inv i st b : Inv b → Inv (status_arrives i st b) ∧ grows b (status_arrives i st b).
Proof.
  intros Hinv. unfold status_arrives. destruct (bs_fibers b !! i) as [f|]; [|by split; [|apply grows_refl]].
  destruct (_ || _); [by split; [|apply grows_refl]|]. apply frame_step; [done|].
  set (b1 := if cst_everLeased st then _ else b).
  assert (frame b b1 ∧ bs_log b1 = bs_log b) as [Hf1 Hl1] by (unfold b1; by destruct (cst_everLeased st)).
  destruct (updateCommandResource_frame (fb_command f) (show_status (cc_commandId (fb_command f)) st) b1) as [Hf2 Hl2].
  split; [|by rewrite <-Hl1, <-Hl2]. eapply frame_trans; [exact Hf1|]. eapply frame_trans; [exact Hf2|].
  by apply update_fiber_frame.
Qed.
Lemma status_persists_inv i fails b : Inv b → Inv (status_persists i fails b) ∧ grows b (status_persists i fails b).
Proof.
  intros Hinv. unfold status_persists. destruct (bs_fibers b !! i) as [f|]; [|by split; [|apply grows_refl]].
  destruct (fb_statuses f) as [|st rest]; [by split; [|apply grows_refl]|].
  set (b1 := update_fiber i _ b).
  assert (Hf : frame b b1) by (by apply update_fiber_frame).
  destruct (find_entry _ _) as [entry|] eqn:He; [|by apply frame_step].
  destruct (_ || _); [by apply frame_step|].
  apply find_entry_some in He as [He Hid]. change (bs_store b1) with (bs_store b) in He.
  rewrite list_environment in He. apply list_elem_of_filter in He as [_ He].
  pose proof (inv_wf _ Hinv) as Hwf. pose proof (row_listed _ _ Hwf He) as Hrow.
  set (entry' := entry <| oe_deliveryStatus := Some st |>).
  assert (Hid' : entry_id entry' = entry_id entry) by done.
  assert (Hput : ∀ id, outbox_row id (putOutbox entry' (bs_store b)).1 = if decide (id = entry_id entry)
      then Some entry' else outbox_row id (bs_store b)).
  { intros id. rewrite put_row by done. rewrite Hid'. destruct (decide (id = entry_id entry)) as [->|Hne].
    - rewrite Hrow. apply decide_True. split; [done|]. cbn. unfold assertCommandFingerprint. by rewrite decide_True.
    - apply decide_False. by intros [? _]. }
  pose proof (frame_passive b b1 Hinv Hf eq_refl) as [_ _ Hres Hlen Hback].
  apply quiet_step; [done| |done]. split; cbn; try done.
  - by apply wf_put.
  - intros id au au'. split; cbn; [done|left; by apply put_receipts|]. rewrite Hput. case_decide as Hd; [right|by left].
    exists entry, st. subst id. done.
Qed.
Lemma dispose_inv b : Inv b → Inv (dispose b) ∧ grows b (dispose b).
Proof.
  intros Hinv. unfold dispose. destruct (bs_disposed b) eqn:Hd; [by split; [|apply grows_refl]|].
  apply quiet_step; [done| |done]. split; cbn; try done.
  - apply Hinv.
  - intros id au au'. apply meanwhile_local; [apply rests_refl|done].
  - by rewrite length_map.
  - by rewrite length_map.
  - intros i f Hi. change (map ?h ?l) with (h <$> l) in Hi. rewrite list_lookup_fmap in Hi.
    destruct (bs_fibers b !! i) as [g|]; [|done]. injection Hi as <-. by exists g.
Qed.
Lemma crash_inv applied b : Inv b → Inv (crash applied b) ∧ grows b (crash applied b).
Proof.
  intros Hinv. unfold crash.
  assert (Inv (foldl apply_pending b applied) ∧ still b (foldl apply_pending b applied)) as [Hi (new & Hl & Hs)].
  { revert b Hinv. induction applied as [|i applied IH]; intros b Hinv; [by split; [|apply still_refl]|]. cbn.
    destruct (apply_pending_inv i b Hinv) as [Hi Hs]. destruct (IH _ Hi) as [Hi' Hs']. split; [done|].
    by eapply still_trans. }
  set (b' := foldl _ _ _) in *. split.
  - split; try done; [apply Hi|]. intros id au. eapply settled_local; [| |apply (inv_settled _ Hi id au)]; done.
  - exists new. split; [done|]. eapply Forall_impl; [exact Hs|]. intros e He. unfold rightful. by rewrite He.
Qed.

(** ** Dispatch *)

Definition moved b b' : Prop := Inv b' ∧ grows b b' ∧ keeps b b'.
Lemma moved_refl b : Inv b → moved b b.
Proof. split; [done|]. split; [apply grows_refl|apply keeps_refl]. Qed.
Lemma moved_trans b1 b2 b3 : moved b1 b2 → moved b2 b3 → moved b1 b3.
Proof.
  intros (_ & Hg & Hk) (Hi & Hg' & Hk'). split; [done|].
  split; [by eapply grows_trans|by eapply keeps_trans].
Qed.
Lemma frame_moved b b' : Inv b → frame b b' ∧ bs_log b' = bs_log b → moved b b'.
Proof.
  intros Hinv [Hf Hl]. destruct (frame_step b b' Hinv (conj Hf Hl)) as [Hi Hg]. do 2 (split; [done|]).
  split; [apply Hf|apply Hf|]. intros i f Hlook. destruct (frame_fiber' _ _ _ _ Hf Hlook) as (g & Hg' & Hst).
  destruct (static_fields _ _ Hst) as (Hc & _ & _ & Ha & _). exists g. unfold fiber_id. by rewrite Hc, Ha.
Qed.
Lemma start_fiber_moved now c fp b :
  Inv b → policy (cc_commandId c) = cc_retry c → bs_disposed b = false → bs_commands b !! cc_commandId c = None →
  moved b (start_fiber now c fp b).1.
Proof.
  intros Hinv Hpol Hd Hnone. unfold start_fiber. cbn [fst]. set (durable := match bs_transport b _ _ with Some _ => _ | None => _ end).
  set (n := length (bs_fibers b)). set (fiber := Build_Fiber c fp _ _ _ _ _ _ _ _ _).
  set (b1 := _ <| bs_commands ::= _ |>).
  assert (Hn : bs_fibers b1 !! n = Some fiber) by (by apply list_lookup_middle).
  assert (Hlook : ∀ j g, bs_fibers b1 !! j = Some g → (j = n ∧ g = fiber) ∨ (j ≠ n ∧ bs_fibers b !! j = Some g)).
  { intros j g Hj. change (bs_fibers b1) with (bs_fibers b ++ [fiber]) in Hj. apply lookup_app_Some in Hj as [Hj|[Hlt Hj]].
    - right. split; [|done]. apply lookup_lt_Some in Hj. subst n. lia.
    - left. apply list_lookup_singleton_Some in Hj as [? <-]. split; [subst n; lia|done]. }
  assert (Hother : ∀ j g, bs_fibers b !! j = Some g → fb_outcome g = None ∨ running g = true → fiber_id g ≠ cc_commandId c).
  { intros j g Hj Hr Hid. assert (fb_outcome g = None) as Ho.
    { destruct Hr as [|Hr]; [done|]. by apply (inv_running _ Hinv j). }
    pose proof (inv_commands _ Hinv j g Hd Hj Ho) as Hc. rewrite Hid in Hc. congruence. }
  assert (Ho : Others n b1).
  { split.
    - apply Hinv.
    - intros id au _. apply (inv_settled _ Hinv id au).
    - cbn. rewrite !length_app, (inv_reservations _ Hinv). done.
    - intros j g [[_ ->]|[_ Hj]]%Hlook; [done|]. apply (inv_fiber _ Hinv j g Hj).
    - intros j g Hne [[? _]|[_ Hj]]%Hlook; [done|]. apply (inv_fiber _ Hinv j g Hj).
    - intros j k g h [[-> ->]|[Hj Hg]]%Hlook [[-> ->]|[Hk Hh]]%Hlook Hrg Hrh Hid; [done|..].
      + exfalso. destruct Hrh as [|Hrh]; [done|]. by apply (Hother k h); [|right|].
      + exfalso. destruct Hrg as [|Hrg]; [done|]. by apply (Hother j g); [|right|].
      + apply (inv_unique _ Hinv j k g h); try done; [by destruct Hrg|by destruct Hrh].
    - intros j g _ [[-> ->]|[Hj Hg]]%Hlook Hog; cbn.
      + by rewrite lookup_insert_eq.
      + rewrite lookup_insert_ne; [by apply (inv_commands _ Hinv)|]. intros Heq. symmetry in Heq. revert Heq.
        apply (Hother j g Hg). by left.
    - intros j g _ [[-> ->]|[Hj Hg]]%Hlook Hr; [done|]. apply (inv_running _ Hinv j g Hd Hg). by destruct Hr. }
  destruct (resume_inv now n (first_round c fp durable) fiber b1 Hn Ho) as (Hi & Hg & Hk).
  { apply wp_first_round; [done|]. apply (inv_settled _ Hinv). }
  split; [done|]. split; [exact Hg|]. eapply keeps_trans; [|exact Hk]. split; [done..|].
  intros j g Hj. exists g. split; [|done]. by apply lookup_app_l_Some.
Qed.
Lemma dispatchCommand_moved now allowed c b :
  Inv b → policy (cc_commandId c) = cc_retry c → moved b (dispatchCommand now allowed c b).1.
Proof.
  intros Hinv Hpol. unfold dispatchCommand. destruct (bs_disposed b) eqn:Hd; [by apply moved_refl|].
  destruct allowed; [cbn [negb]|by apply moved_refl]. set (c' := withResourceReflectionFence c b). set (b1 := ensure_entry c b).
  assert (cc_commandId c' = cc_commandId c ∧ cc_retry c' = cc_retry c) as [Hid Hretry].
  { unfold c', withResourceReflectionFence. by repeat case_match. }
  assert (Hm : moved b b1 ∧ bs_disposed b1 = false).
  { unfold b1, ensure_entry. repeat case_match; try (split; [by apply moved_refl|done]).
    split; [|done]. apply frame_moved; [done|]. by split. }
  clearbody b1 c'. destruct Hm as [Hm Hd1].
  destruct (match cc_resource c' with Some _ => _ | None => _ end); [done|].
  destruct (commandFingerprint c') as [fp|]; [|done].
  destruct (bs_commands b1 !! cc_commandId c') as [i|] eqn:Hc.
  - destruct (bs_fibers b1 !! i); [|done]. by destruct (assertCommandFingerprint _ _ _).
  - destruct (jm_get _ _) as [completed|]; [by destruct (assertCommandFingerprint _ _ _)|].
    eapply moved_trans; [exact Hm|]. apply start_fiber_moved; [apply Hm|congruence|done|done].
Qed.
Lemma foldl_dispatch_moved now (allowed : ClientCommand → bool) l b :
  Inv b → Forall (λ e, policy (entry_id e) = cc_retry (oe_command e)) l →
  moved b (foldl (λ b e, (dispatchCommand now (allowed (oe_command e)) (oe_command e) b).1) b l).
Proof.
  intros Hinv Hl. revert b Hinv. induction Hl as [|e l He _ IH]; intros b Hinv; [by apply moved_refl|]. cbn.
  pose proof (dispatchCommand_moved now (allowed (oe_command e)) (oe_command e) b Hinv He) as Hm.
  eapply moved_trans; [exact Hm|]. apply IH, Hm.
Qed.
Lemma listed_policy env b : Inv b →
  Forall (λ e, policy (entry_id e) = cc_retry (oe_command e)) (listOutbox env (bs_store b)).
Proof.
  intros Hinv. apply Forall_forall. intros e He.
  assert (He' : e ∈ listOutbox None (bs_store b)).
  { destruct env as [env|]; [|done]. rewrite list_environment in He. by apply list_elem_of_filter in He as [_ ?]. }
  pose proof (row_listed _ _ (inv_wf _ Hinv) He') as Hrow.
  destruct (sl_row _ _ _ (inv_settled _ Hinv (entry_id e) true) e Hrow) as (_ & -> & ->). done.
Qed.

(** ** Every event *)

(** Commands are dispatched with the retry policy of their id, and the outbox is reliable. *)
Definition proper (event : BusEvent (D:=D) (R:=R)) b : Prop :=
  match event with
  | Dispatch _ _ c => policy (cc_commandId c) = cc_retry c
  | OutboxFails _ i _ => reliable b i
  | _ => True
  end.
Lemma bus_step_inv event b : Inv b → proper event b → Inv (bus_step event b) ∧ grows b (bus_step event b).
Proof.
  intros Hinv Hp.
  assert (Hmoved : ∀ b', moved b b' → Inv b' ∧ grows b b') by (by intros b' (? & ? & _)).
  destruct event; cbn [bus_step].
  - apply Hmoved, dispatchCommand_moved; [done|]. unfold withCommandOwner. by repeat case_match.
  - apply Hmoved, foldl_dispatch_moved; [done|]. by apply listed_policy.
  - unfold flushDurableOutboxEntries. destruct (bs_disposed b); [by split; [|apply grows_refl]|].
    apply Hmoved, foldl_dispatch_moved; [done|]. apply Forall_forall. intros e [_ He]%list_elem_of_filter.
    by eapply Forall_forall in He; [|by apply listed_policy].
  - by apply outbox_answers_inv.
  - by apply outbox_fails_inv.
  - by apply outside_answers_inv.
  - by apply inside_answers_inv.
  - by apply interrupted_inv.
  - by apply settles_inv.
  - apply quiet_step; [done| |done]. apply fiber_passive with (i := i) (h := λ f, f <| fb_authorized := authorized |>); try done.
    + apply Hinv.
    + intros id. apply rests_refl.
    + intros g _ _. by left.
  - by apply frame_step.
  - by apply status_arrives_inv.
  - by apply status_persists_inv.
  - destruct (bs_entries b !! key); [by apply setView_step|by split; [|apply grows_refl]].
  - destruct (bs_entries b !! key); [by apply setView_step|by split; [|apply grows_refl]].
  - by apply frame_step.
  - by apply dispose_inv.
  - by apply crash_inv.
Qed.

(** What is reached from an outbox of safe commands, with nothing sent. *)
Inductive reachable : Bus → Prop :=
| reach_start store : wf store →
    (∀ e, e ∈ listOutbox None store → cc_retry (oe_command e) = Safe ∧ policy (entry_id e) = Safe) →
    reachable (start_bus store [])
| reach_step event b : reachable b → proper event b → reachable (bus_step event b).
Lemma bus_reachable_inv b : reachable b → Inv b.
Proof.
  induction 1 as [store Hwf Hrows|event b _ IH Hp]; [|by apply bus_step_inv].
  split; try done. intros id au. split; cbn.
  - intros e He. unfold outbox_row in He. apply find_entry_some in He as [He Hid].
    destruct (Hrows e He) as [Hr Hpol]. by rewrite <-Hid.
  - intros Hp. exists {| dl_phase := Idle; dl_stored := false |}. by split.
Qed.
End invariant.
