(* ===== verification/ClientLanes.v ===== *)
(** * The lanes of a client's commands

    Commands on the same resource reserve its lane, [reserveCommandLane] of
    packages/client-runtime/src/client-bus.ts. In a lane none of whose commands has a
    durable transport they run one after the other, in the order of their dispatch. *)
From S2P Require Import Prelude Js JsMap Mailbox ClientContracts ClientOutbox ClientBus ClientBusLogic ClientDelivery ClientBusInv.

Section lanes.
Context {D R Store : Type} `{!Sha256} `{!CommandOutbox R Store} `{!BusOptions (D:=D)}.
Notation Bus := (Bus (D:=D) (R:=R) (Store:=Store)).
Notation Fiber := (Fiber (D:=D) (R:=R)).
Notation prog := (prog (answer (D:=D) (R:=R)) (Attempt (R:=R))).
Implicit Types (b : Bus) (f : Fiber) (p : prog).

Definition waits_turn p : bool := match p with Act LaneTurn _ => true | _ => false end.
Definition finished p : bool := match p with Ret _ => true | Act _ _ => false end.
Definition in_lane (lane : string) (i : nat) b : Prop :=
  ∃ r, bs_reservations b !! i = Some r ∧ rs_lane r = lane.
Definition released (i : nat) b : Prop := ∃ r, bs_reservations b !! i = Some r ∧ rs_released r = true.
(** None of the lane's commands went to a durable transport. *)
Definition live_lane (lane : string) b : Prop :=
  ∀ i r, bs_reservations b !! i = Some r → rs_lane r = lane → rs_durable r = false.

Record Lanes b : Prop := {
  ln_length : length (bs_reservations b) = length (bs_fibers b);
  ln_started j r f q : bs_reservations b !! j = Some r → rs_durable r = false → bs_fibers b !! j = Some f →
    waits_turn (fb_prog f) = false → rs_previous r = Some q → released q b;
  ln_previous j r q : bs_reservations b !! j = Some r → rs_previous r = Some q →
    (q < j)%nat ∧ in_lane (rs_lane r) q b ∧ ∀ k, (q < k < j)%nat → ¬ in_lane (rs_lane r) k b;
  ln_first j r k : bs_reservations b !! j = Some r → rs_previous r = None → live_lane (rs_lane r) b →
    (k < j)%nat → in_lane (rs_lane r) k b → released k b;
  ln_released j r f : bs_reservations b !! j = Some r → rs_durable r = false → rs_released r = true →
    bs_fibers b !! j = Some f → finished (fb_prog f) = true;
  ln_tail lane q : bs_disposed b = false → bs_lanes b !! lane = Some q →
    in_lane lane q b ∧ ∀ k, (q < k)%nat → ¬ in_lane lane k b;
  ln_free lane k : bs_disposed b = false → bs_lanes b !! lane = None → live_lane lane b →
    in_lane lane k b → released k b }.

(** Once a command of a live lane runs, those before it are done. *)
Lemma before_released b lane j f :
  Lanes b → live_lane lane b → in_lane lane j b → bs_fibers b !! j = Some f → waits_turn (fb_prog f) = false →
  ∀ k, (k < j)%nat → in_lane lane k b → released k b.
Proof.
  intros Hb Hlive. revert f. induction j as [j IH] using lt_wf_ind. intros f (r & Hr & <-) Hf Hw k Hk Hin.
  destruct (rs_previous r) as [q|] eqn:Hq; [|by eapply ln_first].
  pose proof (ln_started _ Hb _ _ _ _ Hr (Hlive _ _ Hr eq_refl) Hf Hw Hq) as Hrel.
  destruct (ln_previous _ Hb _ _ _ Hr Hq) as (Hlt & Hqin & Hbetween).
  destruct (decide (k = q)) as [->|Hne]; [done|].
  destruct (decide (q < k)%nat) as [Hgt|Hle]; [by destruct (Hbetween k ltac:(lia))|].
  destruct Hrel as (rq & Hrq & Hrelq). destruct Hqin as (rq' & Hrq' & Hlane). rewrite Hrq in Hrq'. injection Hrq' as <-.
  destruct (lookup_lt_is_Some_2 (bs_fibers b) q) as [fq Hfq].
  { rewrite <-(ln_length _ Hb). by eapply lookup_lt_Some. }
  pose proof (ln_released _ Hb _ _ _ Hrq (Hlive _ _ Hrq Hlane) Hrelq Hfq) as Hfin.
  apply (IH q Hlt fq); [by exists rq|done| |lia|done].
  unfold finished, waits_turn in *. by destruct (fb_prog fq) as [|[]].
Qed.

(** ** Steps *)

(** Nothing that the lanes depend on changes but the program of fiber [i], which runs
    only in its turn. *)
Record steps (i : nat) b b' : Prop := {
  sp_reservations : bs_reservations b' = bs_reservations b;
  sp_lanes : bs_lanes b' = bs_lanes b;
  sp_disposed : bs_disposed b' = bs_disposed b;
  sp_length : length (bs_fibers b') = length (bs_fibers b);
  sp_fiber j f : bs_fibers b' !! j = Some f → ∃ g, bs_fibers b !! j = Some g
    ∧ (finished (fb_prog g) = true → fb_prog f = fb_prog g)
    ∧ (waits_turn (fb_prog f) = false → waits_turn (fb_prog g) = false
       ∨ (∀ r, bs_reservations b !! j = Some r → rs_durable r = false → turn_ready j b = true)) }.
Lemma steps_lanes i b b' : Lanes b → steps i b b' → Lanes b'.
Proof.
  intros Hb [Hres Hl Hd Hlen Hfib].
  assert (Hin : ∀ lane k, in_lane lane k b' ↔ in_lane lane k b) by (intros; unfold in_lane; by rewrite Hres).
  assert (Hrel : ∀ k, released k b' ↔ released k b) by (intros; unfold released; by rewrite Hres).
  assert (Hlive : ∀ lane, live_lane lane b' ↔ live_lane lane b) by (intros; unfold live_lane; by rewrite Hres).
  split.
  - rewrite Hres, Hlen. apply Hb.
  - rewrite Hres. intros j r f q Hr Hdur (g & Hg & _ & Hw)%Hfib Hwf Hq. rewrite Hrel.
    destruct (Hw Hwf) as [Hwg|Hready]; [by eapply ln_started|]. specialize (Hready r Hr Hdur).
    unfold turn_ready in Hready. rewrite Hr in Hready. cbn in Hready. rewrite Hq in Hready.
    destruct (ln_previous _ Hb _ _ _ Hr Hq) as (_ & (rq & Hrq & _) & _). rewrite Hrq in Hready. by exists rq.
  - rewrite Hres. intros j r q Hr Hq. destruct (ln_previous _ Hb _ _ _ Hr Hq) as (? & ? & Hbt).
    rewrite Hin. split; [done|]. split; [done|]. intros k Hk. rewrite Hin. by apply Hbt.
  - rewrite Hres. intros j r k. rewrite Hlive, Hin, Hrel. apply (ln_first _ Hb).
  - rewrite Hres. intros j r f Hr Hdur Hrl (g & Hg & Hfin & _)%Hfib.
    pose proof (ln_released _ Hb _ _ _ Hr Hdur Hrl Hg) as Hf. by rewrite (Hfin Hf).
  - rewrite Hd, Hl. intros lane q Hnd Hq. rewrite Hin. destruct (ln_tail _ Hb _ _ Hnd Hq) as [? Hlast].
    split; [done|]. intros k. rewrite Hin. by apply Hlast.
  - rewrite Hd, Hl. intros lane k. rewrite Hlive, Hin, Hrel. apply (ln_free _ Hb).
Qed.
Lemma perform_frame (now : Z) i f a b b' r : perform now i f a b = (b', r) → frame b b'.
Proof.
  destruct a; cbn; intros [= <- _]; try done; try by apply update_fiber_frame.
  apply updateCommandResource_frame.
Qed.
Lemma run_sync_frame (now : Z) i p b : let '(p', b') := run_sync now i p b in frame b b'.
Proof.
  revert b. induction p as [r|a k IH]; intros b; [done|]. cbn.
  destruct (bs_fibers b !! i) as [f|]; [|done]. destruct (perform now i f a b) as [b' [r|]] eqn:Hp; [|done].
  specialize (IH r b'). destruct (run_sync now i (k r) b') as [p' b2]. eapply frame_trans; [|done].
  by eapply perform_frame.
Qed.
Lemma frame_steps i b b' : frame b b' → steps i b b'.
Proof.
  intros Hf. split; try apply Hf.
  - pose proof (f_equal length (fr_fibers _ _ Hf)) as Hlen. by rewrite !length_fmap in Hlen.
  - intros j f Hj. destruct (frame_fiber _ _ _ _ Hf Hj) as (g & Hg & Hst). exists g.
    destruct (static_fields _ _ Hst) as (_ & _ & -> & _). split; [done|]. split; [done|]. by left.
Qed.
(** A fiber that goes on, in its turn, or to the wait for it. *)
Lemma resume_steps (now : Z) i p b f :
  bs_fibers b !! i = Some f → finished (fb_prog f) = false →
  waits_turn (fb_prog f) = false ∨ turn_ready i b = true ∨ waits_turn p = true →
  steps i b (resume_fiber now i p b).
Proof.
  intros Hi Hfin Hturn. unfold resume_fiber. rewrite Hi.
  destruct (bs_reservations b !! i) as [rs|]; [|by apply frame_steps].
  pose proof (run_sync_frame now i p b) as Hf.
  assert (Hwait : waits_turn p = true → (run_sync now i p b).1 = p).
  { destruct p as [|[]]; try done. intros _. cbn. by rewrite Hi. }
  destruct (run_sync now i p b) as [p' b']. cbn in Hwait.
  destruct (frame_steps i _ _ Hf) as [Hres Hl Hd Hlen Hfib]. set (p2 := match p' with Ret Attempt_again => _ | _ => p' end).
  split; [exact Hres|exact Hl|exact Hd|cbn; by rewrite length_alter|]. intros j g Hj. cbn in Hj.
  destruct (decide (j = i)) as [->|Hne].
  - rewrite list_lookup_alter_eq in Hj. exists f. split; [done|]. split; [congruence|].
    destruct (bs_fibers b' !! i) as [g'|]; [|done]. injection Hj as <-. cbn. intros Hw.
    destruct Hturn as [|[|Hp]]; [by left|by right|]. specialize (Hwait Hp). subst p'.
    unfold p2 in Hw. destruct p as [|[]]; done.
  - rewrite list_lookup_alter_ne in Hj by done. by apply Hfib.
Qed.
Lemma steps_logged i b s log b' : steps i (logged b s log) b' → steps i b b'.
Proof. by intros []. Qed.
Lemma waiting_fiber i b :
  match waiting i b with
  | Some (f, existT a k) => bs_fibers b !! i = Some f ∧ fb_prog f = Act a k
  | None => True
  end.
Proof. unfold waiting. destruct (bs_fibers b !! i) as [f|]; [cbn|done]. by destruct (fb_prog f) eqn:?. Qed.
Lemma outbox_answers_steps (now : Z) i b : steps i b (outbox_answers now i b).
Proof.
  pose proof (waiting_fiber i b) as Hw. unfold outbox_answers.
  destruct (waiting i b) as [[f [a k]]|]; [|by apply frame_steps]. destruct Hw as [Hi Hp].
  destruct (outbox_answer f a (bs_store b)) as [[s r]|] eqn:Ho; [|by apply frame_steps].
  eapply steps_logged, (resume_steps now i (k r) (logged b s (outbox_log f a r)) f); [done|by rewrite Hp|].
  left. rewrite Hp. by destruct a.
Qed.
Lemma answers_steps (now : Z) i (respond : Fiber → ∀ a, option (answer a * list (LogEntry (R:=R)))) b :
  (∀ f r, respond f LaneTurn = Some r → turn_ready i b = true) → steps i b (answers now i respond b).
Proof.
  intros Hready. pose proof (waiting_fiber i b) as Hw. unfold answers.
  destruct (waiting i b) as [[f [a k]]|]; [|by apply frame_steps]. destruct Hw as [Hi Hp].
  destruct (respond f a) as [[r log]|] eqn:Ho; [|by apply frame_steps].
  eapply steps_logged, (resume_steps now i (k r) (logged b (bs_store b) log) f); [done|by rewrite Hp|].
  rewrite Hp. destruct a; try by left. right. left. by eapply Hready.
Qed.

(** ** Release *)

Lemma released_lanes i b :
  Lanes b → (∀ f, bs_fibers b !! i = Some f → finished (fb_prog f) = true) → Lanes (release_lane i b).
Proof.
  intros Hb Hfin. unfold release_lane. destruct (bs_reservations b !! i) as [ri|] eqn:Hi; [|done].
  set (b' := _ <| bs_lanes ::= _ |>).
  assert (Hlook : ∀ j r, bs_reservations b' !! j = Some r → ∃ r0, bs_reservations b !! j = Some r0
    ∧ rs_lane r = rs_lane r0 ∧ rs_previous r = rs_previous r0 ∧ rs_durable r = rs_durable r0
    ∧ (rs_released r = true → rs_released r0 = true ∨ j = i)).
  { intros j r Hj. cbn in Hj. destruct (decide (j = i)) as [->|Hne].
    - rewrite list_lookup_alter_eq, Hi in Hj. cbn in Hj. injection Hj as <-. exists ri. split; [done|]. cbn. naive_solver.
    - rewrite list_lookup_alter_ne in Hj by done. exists r. naive_solver. }
  assert (Hback : ∀ j r, bs_reservations b !! j = Some r → ∃ r', bs_reservations b' !! j = Some r'
    ∧ rs_lane r' = rs_lane r ∧ rs_durable r' = rs_durable r ∧ (rs_released r = true ∨ j = i → rs_released r' = true)).
  { intros j r Hj. cbn. destruct (decide (j = i)) as [->|Hne].
    - rewrite list_lookup_alter_eq, Hj. cbn. eexists. split; [done|]. naive_solver.
    - rewrite list_lookup_alter_ne by done. exists r. split; [done|]. naive_solver. }
  assert (Hin : ∀ lane k, in_lane lane k b' ↔ in_lane lane k b).
  { intros lane k. split.
    - intros (r & (r0 & Hr0 & Hl & _)%Hlook & <-). by exists r0.
    - intros (r & (r0 & Hr0 & Hl & _)%Hback & <-). by exists r0. }
  assert (Hlive : ∀ lane, live_lane lane b' → live_lane lane b).
  { intros lane Hl k r (r' & Hr' & Hlane & <- & _)%Hback <-. by apply (Hl k r'). }
  assert (Hrel : ∀ k, released k b → released k b').
  { intros k (r & (r' & Hr' & _ & _ & Hrr)%Hback & Hrl). exists r'. auto. }
  split.
  - cbn. rewrite length_alter. apply Hb.
  - intros j r f q (r0 & Hr0 & _ & Hq & Hd & _)%Hlook Hdur Hf Hw Hqr. apply Hrel.
    rewrite Hd in Hdur. rewrite Hq in Hqr. by eapply ln_started.
  - intros j r q (r0 & Hr0 & Hl & Hq & _)%Hlook Hqr. rewrite Hq in Hqr. rewrite Hl, Hin.
    destruct (ln_previous _ Hb _ _ _ Hr0 Hqr) as (? & ? & Hbt). do 2 (split; [done|]). intros k Hk. rewrite Hin. by apply Hbt.
  - intros j r k (r0 & Hr0 & Hl & Hq & _)%Hlook Hn Hll Hk. rewrite Hq in Hn. rewrite Hl in *. rewrite Hin.
    intros Hkin. apply Hrel. eapply ln_first; eauto.
  - intros j r f (r0 & Hr0 & _ & _ & Hd & Hrl)%Hlook Hdur Hr Hf. rewrite Hd in Hdur.
    destruct (Hrl Hr) as [H1| ->]; [by eapply ln_released|by apply Hfin].
  - intros lane q Hnd Hq. rewrite Hin. assert (Hq0 : bs_lanes b !! lane = Some q).
    { cbn in Hq. case_decide; [|done]. by apply lookup_delete_Some in Hq as [_ ?]. }
    destruct (ln_tail _ Hb _ _ Hnd Hq0) as [? Hlast]. split; [done|]. intros k. rewrite Hin. by apply Hlast.
  - intros lane k Hnd Hn Hll Hk. rewrite Hin in Hk. specialize (Hlive _ Hll).
    destruct (bs_lanes b !! lane) as [q|] eqn:Hq; [|by apply Hrel; eapply ln_free].
    assert (q = i) as ->.
    { cbn in Hn. case_decide as Hd; [|unfold id in Hn; congruence]. destruct (decide (rs_lane ri = lane)) as [<-|Hne]; [congruence|].
      rewrite lookup_delete_ne in Hn by done. congruence. }
    destruct (ln_tail _ Hb _ _ Hnd Hq) as [Hini Hlast].
    destruct (decide (k = i)) as [->|Hne].
    { destruct (Hback i ri Hi) as (r' & Hr' & _ & _ & Hrr). exists r'. auto. }
    destruct (decide (i < k)%nat) as [Hgt|Hle]; [by destruct (Hlast k Hgt)|]. apply Hrel.
    destruct (lookup_lt_is_Some_2 (bs_fibers b) i) as [f Hf].
    { rewrite <-(ln_length _ Hb). by eapply lookup_lt_Some. }
    eapply before_released; [done|done|exact Hini|exact Hf| |lia|done].
    specialize (Hfin f Hf). unfold finished, waits_turn in *. by destruct (fb_prog f) as [|[]].
Qed.

(** ** Dispatch *)

Lemma reserve_lanes c fp durable b f :
  Lanes b → bs_disposed b = false → fb_prog f = first_round c fp durable →
  Lanes ((reserveCommandLane c durable b) <| bs_fibers ::= λ l, l ++ [f] |>
           <| bs_commands ::= <[cc_commandId c := length (bs_fibers b)]> |>).
Proof.
  intros Hb Hnd Hp. set (n := length (bs_reservations b)). set (lane := command_lane c).
  set (rn := {| rs_lane := lane; rs_previous := bs_lanes b !! lane; rs_durable := durable; rs_released := false |}).
  set (b' := _ <| bs_commands ::= _ |>).
  assert (Hres : bs_reservations b' = bs_reservations b ++ [rn]) by done.
  assert (Hold : ∀ j r, bs_reservations b' !! j = Some r → (j = n ∧ r = rn) ∨ ((j < n)%nat ∧ bs_reservations b !! j = Some r)).
  { intros j r. rewrite Hres. intros [Hj|[Hge Hj]]%lookup_app_Some.
    - right. split; [|done]. by eapply lookup_lt_Some.
    - left. apply list_lookup_singleton_Some in Hj as [Hj <-]. split; [subst n; lia|done]. }
  assert (Hnew : ∀ j r, bs_reservations b !! j = Some r → bs_reservations b' !! j = Some r).
  { intros j r Hj. rewrite Hres. by apply lookup_app_l_Some. }
  assert (Hlt : ∀ l k, in_lane l k b → (k < n)%nat).
  { intros l k (r & Hr & _). by eapply lookup_lt_Some. }
  assert (Hin : ∀ l k, in_lane l k b' → (k = n ∧ l = lane) ∨ ((k < n)%nat ∧ in_lane l k b)).
  { intros l k (r & [[-> ->]|[Hk Hr]]%Hold & <-); [by left|right]. split; [done|by exists r]. }
  assert (Hinn : ∀ l k, in_lane l k b → in_lane l k b') by (intros l k (r & Hr & <-); exists r; auto).
  assert (Hrel : ∀ k, released k b → released k b') by (intros k (r & Hr & ?); exists r; auto).
  assert (Hlive : ∀ l, live_lane l b' → live_lane l b) by (intros l Hl k r Hk; apply (Hl k r); auto).
  assert (Hfib : ∀ j g, bs_fibers b' !! j = Some g → (j = n ∧ g = f) ∨ ((j < n)%nat ∧ bs_fibers b !! j = Some g)).
  { intros j g. change (bs_fibers b') with (bs_fibers b ++ [f]). unfold n. rewrite (ln_length _ Hb).
    intros [Hj|[Hge Hj]]%lookup_app_Some.
    - right. split; [|done]. by eapply lookup_lt_Some.
    - left. apply list_lookup_singleton_Some in Hj as [Hj <-]. split; [lia|done]. }
  split.
  - change (bs_fibers b') with (bs_fibers b ++ [f]). rewrite Hres, !length_app, (ln_length _ Hb). done.
  - intros j r g q [[-> ->]|[Hj Hr]]%Hold Hd [[? ->]|[? Hg]]%Hfib Hw Hq; try lia.
    + cbn in Hd. subst durable. by rewrite Hp in Hw.
    + apply Hrel. by eapply ln_started.
  - intros j r q [[-> ->]|[Hj Hr]]%Hold Hq.
    + cbn in Hq. destruct (ln_tail _ Hb _ _ Hnd Hq) as [Hqin Hlast].
      split; [by eapply Hlt|]. split; [by apply Hinn|]. intros k Hk [[? _]|[_ Hkin]]%Hin; [lia|]. by apply (Hlast k); [lia|].
    + destruct (ln_previous _ Hb _ _ _ Hr Hq) as (? & Hqin & Hbt). split; [done|]. split; [by apply Hinn|].
      intros k Hk [[? _]|[_ Hkin]]%Hin; [lia|]. by apply (Hbt k).
  - intros j r k [[-> ->]|[Hj Hr]]%Hold Hq Hl Hk [[? _]|[_ Hkin]]%Hin; try lia; apply Hrel.
    + eapply ln_free; [done|done|exact Hq|by apply Hlive|done].
    + eapply ln_first; eauto.
  - intros j r g [[-> ->]|[Hj Hr]]%Hold Hd Hrl [[? ->]|[? Hg]]%Hfib; try lia; [done|]. by eapply ln_released.
  - intros l q _ Hq. cbn in Hq. destruct (decide (l = lane)) as [->|Hne].
    + rewrite lookup_insert_eq in Hq. injection Hq as <-. split; [exists rn; split; [|done]|].
      * rewrite Hres. by apply list_lookup_middle.
      * intros k Hk [[? _]|[? _]]%Hin; subst n; lia.
    + rewrite lookup_insert_ne in Hq by done. destruct (ln_tail _ Hb _ _ Hnd Hq) as [Hqin Hlast].
      split; [by apply Hinn|]. intros k Hk [[_ ?]|[_ Hkin]]%Hin; [done|]. by apply (Hlast k).
  - intros l k _ Hn Hl Hk. cbn in Hn. destruct (decide (l = lane)) as [->|Hne].
    { by rewrite lookup_insert_eq in Hn. }
    rewrite lookup_insert_ne in Hn by done. apply Hin in Hk as [[_ ?]|[_ Hk]]; [done|].
    apply Hrel. eapply ln_free; eauto.
Qed.
Lemma start_lanes (now : Z) c fp b : Lanes b → bs_disposed b = false → Lanes (start_fiber now c fp b).1.
Proof.
  intros Hb Hnd. unfold start_fiber. cbn [fst]. set (durable := match bs_transport b _ _ with Some _ => _ | None => _ end).
  set (f := Build_Fiber c fp _ _ _ _ _ _ _ _ _).
  eapply steps_lanes; [by apply (reserve_lanes c fp durable b f)|].
  apply (resume_steps now (length (bs_fibers b)) (first_round c fp durable) _ f); [by apply list_lookup_middle|..].
  - by destruct durable.
  - cbn. destruct durable; [by left|by right; right].
Qed.
Lemma dispatch_lanes (now : Z) allowed c b : Lanes b → Lanes (dispatchCommand now allowed c b).1.
Proof.
  intros Hb. unfold dispatchCommand. destruct (bs_disposed b) eqn:Hd; [done|].
  destruct allowed; [cbn [negb]|done]. set (c' := withResourceReflectionFence c b). set (b1 := ensure_entry c b).
  assert (Hm : Lanes b1 ∧ bs_disposed b1 = false).
  { unfold b1, ensure_entry. repeat case_match; try done. split; [|done].
    eapply (steps_lanes 0); [exact Hb|]. by apply frame_steps. }
  clearbody b1 c'. destruct Hm as [Hm Hd1].
  destruct (match cc_resource c' with Some _ => _ | None => _ end); [done|].
  destruct (commandFingerprint c') as [fp|]; [|done].
  destruct (bs_commands b1 !! cc_commandId c') as [i|] eqn:Hc.
  - destruct (bs_fibers b1 !! i); [|done]. by destruct (assertCommandFingerprint _ _ _).
  - destruct (jm_get _ _) as [completed|]; [by destruct (assertCommandFingerprint _ _ _)|]. by apply start_lanes.
Qed.
Lemma foldl_dispatch_lanes (now : Z) (allowed : ClientCommand → bool) (l : list OutboxEntry) b :
  Lanes b → Lanes (foldl (λ b e, (dispatchCommand now (allowed (oe_command e)) (oe_command e) b).1) b l).
Proof. revert b. induction l as [|e l IH]; intros b Hb; [done|]. cbn. by apply IH, dispatch_lanes. Qed.

(** ** Every event *)

Lemma same_steps i b b' :
  bs_reservations b' = bs_reservations b → bs_lanes b' = bs_lanes b → bs_disposed b' = bs_disposed b →
  bs_fibers b' = bs_fibers b → steps i b b'.
Proof. intros Hr Hl Hd Hf. split; [done..|by rewrite Hf|]. intros j f Hj. rewrite Hf in Hj. exists f. auto. Qed.
Lemma update_steps i (h : Fiber → Fiber) b : (∀ f, fb_prog (h f) = fb_prog f) → steps i b (update_fiber i h b).
Proof.
  intros Hh. split; [done..|cbn; by rewrite length_alter|]. intros j f Hj. cbn in Hj.
  destruct (decide (j = i)) as [->|Hne].
  - rewrite list_lookup_alter_eq in Hj. destruct (bs_fibers b !! i) as [g|]; [|done]. injection Hj as <-.
    exists g. rewrite Hh. auto.
  - rewrite list_lookup_alter_ne in Hj by done. exists f. auto.
Qed.
Lemma settles_lanes i b : Lanes b → Lanes (settles i b).
Proof.
  intros Hb. unfold settles. destruct (bs_fibers b !! i) as [f|] eqn:Hi; [|done].
  destruct (fb_prog f) as [[r|]|a k] eqn:Hp; [|done..].
  assert (Hfin : ∀ g, bs_fibers b !! i = Some g → finished (fb_prog g) = true).
  { intros g Hg. rewrite Hi in Hg. injection Hg as <-. by rewrite Hp. }
  destruct (fb_outcome f); [by apply released_lanes|].
  set (b1 := update_fiber i _ b).
  assert (Hb2 : Lanes (release_lane i b1)).
  { apply released_lanes; [by apply (steps_lanes i b), update_steps|]. intros g. cbn.
    rewrite list_lookup_alter_eq, Hi. cbn. intros [= <-]. cbn. by rewrite Hp. }
  clearbody b1. apply (steps_lanes i (release_lane i b1)); [done|]. by destruct r; apply same_steps.
Qed.
Lemma dispose_lanes b : Lanes b → Lanes (dispose b).
Proof.
  intros Hb. unfold dispose. destruct (bs_disposed b); [done|].
  set (b' := _ <| bs_fibers ::= _ |>).
  assert (Hlook : ∀ j r, bs_reservations b' !! j = Some r → ∃ r0, bs_reservations b !! j = Some r0
    ∧ rs_lane r = rs_lane r0 ∧ rs_previous r = rs_previous r0 ∧ rs_durable r = rs_durable r0
    ∧ (rs_durable r = false → rs_released r = rs_released r0)).
  { intros j r Hj. unfold b' in Hj. cbn in Hj. change (map ?h ?l) with (h <$> l) in Hj. rewrite list_lookup_fmap in Hj.
    destruct (bs_reservations b !! j) as [r0|]; [|done]. injection Hj as <-. exists r0. split; [done|].
    by destruct (rs_durable r0) eqn:?. }
  assert (Hback : ∀ j r, bs_reservations b !! j = Some r → ∃ r', bs_reservations b' !! j = Some r'
    ∧ rs_lane r' = rs_lane r ∧ rs_durable r' = rs_durable r ∧ (rs_released r = true → rs_released r' = true)).
  { intros j r Hj. unfold b'. cbn. change (map ?h ?l) with (h <$> l). rewrite list_lookup_fmap, Hj. cbn.
    eexists. split; [done|]. by destruct (rs_durable r) eqn:?. }
  assert (Hfib : ∀ j f, bs_fibers b' !! j = Some f → ∃ g, bs_fibers b !! j = Some g ∧ fb_prog f = fb_prog g).
  { intros j f Hj. unfold b' in Hj. cbn in Hj. change (map ?h ?l) with (h <$> l) in Hj. rewrite list_lookup_fmap in Hj.
    destruct (bs_fibers b !! j) as [g|]; [|done]. injection Hj as <-. by exists g. }
  assert (Hin : ∀ lane k, in_lane lane k b' ↔ in_lane lane k b).
  { intros lane k. split.
    - intros (r & (r0 & Hr0 & Hl & _)%Hlook & <-). by exists r0.
    - intros (r & (r0 & Hr0 & Hl & _)%Hback & <-). by exists r0. }
  assert (Hrel : ∀ k, released k b → released k b').
  { intros k (r & (r' & Hr' & _ & _ & Hrr)%Hback & Hrl). exists r'. auto. }
  split; try done.
  - unfold b'. cbn. rewrite !length_map. apply Hb.
  - intros j r f q (r0 & Hr0 & _ & Hq & Hd & _)%Hlook Hdur (g & Hg & Hp)%Hfib Hw Hqr. apply Hrel.
    rewrite Hd in Hdur. rewrite Hq in Hqr. rewrite Hp in Hw. by eapply ln_started.
  - intros j r q (r0 & Hr0 & Hl & Hq & _)%Hlook Hqr. rewrite Hq in Hqr. rewrite Hl, Hin.
    destruct (ln_previous _ Hb _ _ _ Hr0 Hqr) as (? & ? & Hbt). do 2 (split; [done|]). intros k Hk. rewrite Hin. by apply Hbt.
  - intros j r k (r0 & Hr0 & Hl & Hq & _)%Hlook Hn Hll Hk. rewrite Hq in Hn. rewrite Hl in *. rewrite Hin.
    intros Hkin. apply Hrel. eapply ln_first; eauto. intros i r1 (r' & Hr' & Hlane & <- & _)%Hback Heq.
    apply (Hll i r'); [done|congruence].
  - intros j r f (r0 & Hr0 & _ & _ & Hd & Hrl)%Hlook Hdur Hr (g & Hg & Hp)%Hfib. rewrite Hp.
    rewrite (Hrl Hdur) in Hr. rewrite Hd in Hdur. by eapply ln_released.
Qed.
Lemma start_bus_lanes store log : Lanes (start_bus store log).
Proof. split; try done. by intros lane k _ _ _ (r & Hr & _). Qed.
Lemma bus_step_lanes event b : Lanes b → Lanes (bus_step event b).
Proof.
  intros Hb.
  assert (Hsame : ∀ b' i, steps i b b' → Lanes b') by (intros b' i; by apply steps_lanes).
  assert (Hframe : ∀ b', frame b b' → Lanes b') by (intros b' Hf; by apply (Hsame _ 0), frame_steps).
  destruct event; cbn [bus_step].
  - by apply dispatch_lanes.
  - by apply foldl_dispatch_lanes.
  - unfold flushDurableOutboxEntries. destruct (bs_disposed b); [done|]. by apply foldl_dispatch_lanes.
  - eapply Hsame, outbox_answers_steps.
  - eapply Hsame, answers_steps. by intros f r.
  - eapply Hsame, answers_steps. intros f r. by destruct (respond LaneTurn).
  - eapply Hsame, answers_steps. intros f r. cbn. by destruct (turn_ready i b).
  - eapply Hsame, answers_steps. intros f r. cbn. unfold interruption. by destruct (interrupted_by f b).
  - by apply settles_lanes.
  - by apply (Hsame _ i), update_steps.
  - by apply Hframe.
  - unfold status_arrives. destruct (bs_fibers b !! i) as [f|]; [|done]. destruct (_ || _); [done|]. apply Hframe.
    eapply frame_trans; [|by apply update_fiber_frame]. eapply frame_trans; [|apply updateCommandResource_frame].
    by destruct (cst_everLeased st).
  - unfold status_persists. destruct (bs_fibers b !! i) as [f|]; [|done]. destruct (fb_statuses f); [done|].
    set (b1 := update_fiber i _ b). assert (Hb1 : Lanes b1) by (by apply (Hsame _ i), update_steps).
    destruct (find_entry _ _); [|done]. destruct (_ || _); [done|].
    apply (steps_lanes i b1); [done|]. by apply same_steps.
  - destruct (bs_entries b !! key); [|done]. apply Hframe, setView_frame.
  - destruct (bs_entries b !! key); [|done]. apply Hframe, setView_frame.
  - by apply Hframe.
  - by apply dispose_lanes.
  - apply start_bus_lanes.
Qed.

Lemma bus_run_lanes events b : Lanes b → Lanes (bus_run events b).
Proof. revert b. induction events as [|e events IH]; intros b Hb; [done|]. cbn. by apply IH, bus_step_lanes. Qed.

(** C37: when none of the commands dispatched on a lane went to a durable transport, they
    run one after the other in the order of their dispatch: whenever one is past the wait
    for its turn, every earlier one of the lane has ended - whatever the answers, failures,
    disposals and losses. *)
Theorem lane_runs_in_order events store log lane i j ri rj fi fj :
  live_lane lane (bus_run events (start_bus store log)) →
  bs_reservations (bus_run events (start_bus store log)) !! i = Some ri → rs_lane ri = lane →
  bs_reservations (bus_run events (start_bus store log)) !! j = Some rj → rs_lane rj = lane →
  (i < j)%nat →
  bs_fibers (bus_run events (start_bus store log)) !! i = Some fi →
  bs_fibers (bus_run events (start_bus store log)) !! j = Some fj →
  waits_turn (fb_prog fj) = false → finished (fb_prog fi) = true.
Proof.
  pose proof (bus_run_lanes events _ (start_bus_lanes store log)) as Hb. revert Hb.
  generalize (bus_run events (start_bus (D:=D) store log)) as b. intros b Hb Hl Hi Hli Hj Hlj Hlt Hfi Hfj Hw.
  destruct (before_released b lane j fj Hb Hl) with (k := i) as (r & Hr & Hrel); [by exists rj|done..|by exists ri|].
  rewrite Hi in Hr. injection Hr as <-. by apply (ln_released _ Hb i ri fi Hi (Hl i ri Hi Hli)).
Qed.
End lanes.
