(* ===== verification/ClientBusProps.v ===== *)
(** * What a client's command bus guarantees

    Over any outbox with the laws of [CommandOutbox], and whatever the transport, the
    runtime, the losses of the client and the order of events. Commands are dispatched
    with one retry policy per id, and the outbox does not fail to read its rows, nor to
    rewrite the row of a stored command ([reliable]); what happens otherwise is shown at
    the end. *)
From S2P Require Import Prelude Js JsMap Timeline Mailbox ClientContracts ClientOutbox ClientOutboxProps ClientBus ClientBusLogic ClientDelivery ClientBusInv ClientLanes.

Local Open Scope Z_scope.

Section bus.
Context {D R Store : Type} `{!Sha256} `{!CommandOutbox R Store} `{!BusOptions (D:=D)}.
Context (policy : string → CommandRetryPolicy) (wf : Store → Prop) `{!CommandOutboxLaws wf}.
Implicit Types b : Bus (D:=D) (R:=R) (Store:=Store).

(** C11: as long as the outbox neither fails to list its rows nor to write one for a command
    it has stored ([reliable]), and whatever else happens - losses of the client, failures
    of everything else, any order of events - the log of a command that is safe to retry is
    a run of the abstract delivery [life_of]: it is stored before anything is sent, the
    mailbox gets one envelope until the command has its receipt, no live execution starts
    once an envelope was sent, and the command is accepted only after the mailbox or the
    runtime answered. A command that was stored and is neither completed nor refused is in
    the outbox, and the row has the envelope that the mailbox may have. Without the
    condition it is not: [failed_read_drops_sent_command]. *)
Theorem deliveries_follow_life b id :
  reachable policy wf b → policy id = Safe →
  ∃ d, delivery (log_of id (bs_log b)) = Some d
    ∧ (dl_stored d = true → is_Some (outbox_row id (bs_store b)))
    ∧ (∀ env, dl_phase d = InMailbox env →
         dl_stored d = true
         ∧ ∃ e, outbox_row id (bs_store b) = Some e ∧ oe_encryptedEnvelope e = Some env).
Proof.
  intros Hb Hp. pose proof (bus_reachable_inv policy wf b Hb) as Hinv.
  exact (sl_life _ _ _ (inv_settled _ _ _ Hinv id true) Hp).
Qed.

(** C15: the log of a reachable bus only grows, and every request that a step adds to it
    was made by a fiber that had the authority of its command, of a bus not disposed, for
    a command without a receipt in the outbox when it is safe to retry. *)
Theorem requests_are_rightful b event :
  reachable policy wf b → proper policy event b →
  ∃ new, bs_log (bus_step event b) = bs_log b ++ new
    ∧ Forall (rightful policy (bus_step event b)) new.
Proof. intros Hb Hp. pose proof (bus_reachable_inv policy wf b Hb). by apply (bus_step_inv policy wf). Qed.
End bus.

(** Between two envelopes of a life without a completion. *)
Section envelopes.
Context {R : Type}.
Notation LogEntry := (LogEntry (R:=R)).
Definition completes_delivery (id : string) (e : LogEntry) : bool :=
  match e with Log_completed r => bool_decide (rt_commandId r = id) | _ => false end.
Definition executes_live (id : string) (e : LogEntry) : bool :=
  match e with Log_executing id' => bool_decide (id' = id) | _ => false end.
Definition sends_envelope_of (id : string) (env : CloudCommandEnvelope) (e : LogEntry) : Prop := e = Log_enqueued id env.

Lemma delivery_app (l l' : list LogEntry) :
  delivery (l ++ l') = delivery l ≫= λ d, foldl (λ d e, d ≫= λ d, life_of d e) (Some d) l'.
Proof.
  unfold delivery. rewrite foldl_app. destruct (foldl _ _ l); [done|]. cbn. by induction l'.
Qed.
Lemma life_none (l : list LogEntry) : foldl (λ d e, d ≫= λ d, life_of d e) None l = None.
Proof. by induction l. Qed.
(** An envelope stays the one of its delivery. *)
Lemma life_mailbox id env (l : list LogEntry) d d' :
  dl_phase d = InMailbox env → foldl (λ d e, d ≫= λ d, life_of d e) (Some d) (log_of id l) = Some d' →
  Forall (λ e, completes_delivery id e = false) l →
  dl_phase d' = InMailbox env ∧ Forall (λ e, executes_live id e = false ∧ ∀ env', sends_envelope_of id env' e → env' = env) l.
Proof.
  revert d. induction l as [|e l IH]; intros d Hph Hd Hl; [by injection Hd as <-|].
  apply Forall_cons in Hl as [He Hl]. unfold log_of in Hd. rewrite filter_cons in Hd. fold (log_of id l) in Hd.
  case_decide as Hid.
  - cbn in Hd. destruct (life_of d e) as [d1|] eqn:Hlife; [|by rewrite life_none in Hd].
    assert (dl_phase d1 = InMailbox env ∧ executes_live id e = false ∧ ∀ env', sends_envelope_of id env' e → env' = env)
      as (Hph1 & Hx & Henv).
    { destruct e; cbn in Hlife, He; rewrite ?Hph in Hlife; try discriminate Hlife.
      - injection Hlife as <-. by repeat split.
      - case_decide; [|done]. injection Hlife as <-. subst. split; [done|]. split; [done|]. intros env' [= ->]. done.
      - injection Hlife as <-. by repeat split.
      - cbn in Hid. by rewrite bool_decide_true in He. }
    destruct (IH d1 Hph1 Hd Hl) as [? ?]. split; [done|]. by constructor.
  - destruct (IH d Hph Hd Hl) as [? ?]. split; [done|]. constructor; [|done].
    split; [|intros env' ->; done]. destruct e; try done. cbn in *. by rewrite bool_decide_false.
Qed.
End envelopes.

Section claims.
Context {D R Store : Type} `{!Sha256} `{!CommandOutbox R Store} `{!BusOptions (D:=D)}.
Context (policy : string → CommandRetryPolicy) (wf : Store → Prop) `{!CommandOutboxLaws wf}.
Implicit Types b : Bus (D:=D) (R:=R) (Store:=Store).

(** C12: as long as the outbox neither fails to list its rows nor to write one for a command
    it has stored ([reliable]): once an envelope of a safe command was sent, until the
    command is completed every other envelope that is sent for it - by another attempt, or
    after any number of crashes - is the same envelope, and the command is never executed
    live. After a failed read a second envelope may be sealed:
    [failed_read_seals_second_envelope]. *)
Theorem one_envelope_until_completed b id env l1 l2 e l3 :
  reachable policy wf b → policy id = Safe →
  bs_log b = l1 ++ Log_enqueued id env :: l2 ++ e :: l3 →
  Forall (λ e, completes_delivery id e = false) l2 →
  e ≠ Log_executing id ∧ ∀ env', e = Log_enqueued id env' → env' = env.
Proof.
  intros Hb Hp Hlog Hl2. pose proof (bus_reachable_inv policy wf b Hb) as Hinv.
  destruct (sl_life _ _ _ (inv_settled _ _ _ Hinv id true) Hp) as (d & Hd & _). cbn -[log_of delivery] in Hd.
  assert (bs_log b = (l1 ++ [Log_enqueued id env]) ++ l2 ++ [e] ++ l3) as Hl by (by rewrite Hlog, <-app_assoc).
  rewrite Hl, !log_of_app, (log_of_own id (Log_enqueued _ _)), delivery_app, delivery_snoc in Hd by done.
  destruct (delivery (log_of id l1)) as [d1|]; [cbn -[log_of life_of] in Hd|done].
  destruct (life_of d1 (Log_enqueued id env)) as [d2|] eqn:Hd2; [cbn -[log_of life_of] in Hd|done].
  assert (Hph : dl_phase d2 = InMailbox env).
  { revert Hd2. cbn. destruct (dl_phase d1) eqn:Hph1; try by intros [= <-]. case_decide; [|done]. intros [= <-].
    by subst. }
  rewrite !foldl_app in Hd. destruct (foldl _ (Some d2) (log_of id l2)) as [d3|] eqn:Hd3; cycle 1.
  { by rewrite !life_none in Hd. }
  destruct (life_mailbox id env l2 d2 d3 Hph Hd3 Hl2) as [Hph3 _].
  destruct (decide (entry_of e = id)) as [He|He]; [|by split; [intros ->|intros env' ->]].
  rewrite (log_of_own id e He) in Hd. cbn -[log_of life_of] in Hd.
  destruct (life_of d3 e) as [d4|] eqn:Hd4; [|by rewrite life_none in Hd].
  split; [intros ->|intros env' ->]; cbn in Hd4; rewrite Hph3 in Hd4; [done|]. by case_decide.
Qed.
End claims.

(** ** Runs *)

Module client_demo.
Definition sha : Sha256 := λ s, s.
#[local] Existing Instance sha.
#[local] Instance order : Collation := λ s t, key_leb s t.
(** The runtime is unreachable when it says so; any other error refuses the command. *)
#[local] Instance options : BusOptions (D:=unit) :=
  {| commandOwnerFor := None; commandReflected := None;
     commandFaultFor cause _ := match cause with Cause_unavailable _ => true | _ => false end |}.
Notation Bus := (Bus (D:=unit) (R:=nat) (Store:=IndexedDb (R:=nat))).
Definition command (id : string) (retry : CommandRetryPolicy) : ClientCommand :=
  {| cc_kind := "messages.send"; cc_commandId := id; cc_environmentId := "w";
     cc_resource := Some {| rk_kind := RK_session_timeline; rk_ref := SessionRef "w" "s" |};
     cc_payload := VObj [("text", VStr id)]; cc_retry := retry; cc_createdAt := 0; cc_owner := None;
     cc_awaitResourceReflection := false; cc_resourceReflection := None |}.
Definition envelope (id iv : string) : CloudCommandEnvelope :=
  {| env_protocolVersion := 3; env_workspaceId := "w"; env_sessionId := "s"; env_commandId := id;
     env_kind := "messages.send"; env_fingerprint := iv; env_schemaVersion := 1;
     env_keyVersion := 1; env_destructionFence := num_of_Z 0; env_createdAt := 0; env_iv := iv;
     env_ciphertext := ""; env_dependencies := []; env_actor := None |}.
Definition empty_store : IndexedDb (R:=nat) := {| db_outbox := ∅; db_receipts := ∅ |}.
Definition start : Bus := start_bus empty_store [].
Notation answer := (answer (D:=unit) (R:=nat)).
Definition seals (id iv : string) (a : action (D:=unit) (R:=nat)) : option (answer a) :=
  match a with Prepare _ => Some (Success (envelope id iv, iv)) | _ => None end.
Definition connects (a : action (D:=unit) (R:=nat)) : option (answer a) :=
  match a with Connect => Some (Success true) | _ => None end.
Definition unreachable (a : action (D:=unit) (R:=nat)) : option (answer a) :=
  match a with
  | Acceptance => Some (Failure (Cause_unavailable "offline"))
  | Execute => Some (Failure (Cause_unavailable "offline"))
  | RetryDelay => Some (Success tt)
  | _ => None
  end.
Notation event := (BusEvent (D:=unit) (R:=nat)).
Definition cloud : event := TransportChanges (λ _ _, Some (λ _, true)).
(** The receipt, the rows, the envelope, the row again and the request. *)
Definition sends_envelope (i : nat) (id iv : string) : list event :=
  [OutboxAnswers 1 i; OutboxAnswers 1 i; OutboxAnswers 1 i; OutsideAnswers 1 i (seals id iv);
   OutboxAnswers 1 i; OutboxAnswers 1 i].
Definition sent : Bus := bus_run (cloud :: Dispatch 1 true (command "c" Safe) :: sends_envelope 0 "c" "x") start.
Example sent_log : bs_log sent = [Log_stored "c"; Log_stored "c"; Log_enqueued "c" (envelope "c" "x")].
Proof. vm_compute. reflexivity. Qed.

(** After the client was lost, the outbox is flushed and the delivery resumed: whatever the
    transport would seal now, the same envelope is sent. *)
Definition lost : Bus := bus_run [Crash []; cloud; Flush 2 (λ _, true) None] sent.
Definition resumed : Bus := bus_run (sends_envelope 0 "c" "y") lost.
Example resumed_log : bs_log resumed
  = [Log_stored "c"; Log_stored "c"; Log_enqueued "c" (envelope "c" "x");
     Log_stored "c"; Log_stored "c"; Log_enqueued "c" (envelope "c" "x")].
Proof. vm_compute. reflexivity. Qed.

(** *** A read that fails between two attempts drops a command that was sent *)

Definition retried : Bus :=
  bus_run [OutsideAnswers 2 0 unreachable; OutsideAnswers 3 0 unreachable; OutboxAnswers 3 0] sent.
Definition dropped : Bus := bus_run [OutboxFails 3 0 "transaction aborted"; OutboxAnswers 3 0] retried.
Example failed_read_drops_sent_command :
  oe_encryptedEnvelope <$> outbox_row "c" (bs_store retried) = Some (Some (envelope "c" "x"))
  ∧ outbox_row "c" (bs_store dropped) = None
  ∧ bs_log dropped = bs_log sent
  ∧ map (λ f, (fc_commandId f, fc_retryable f)) (rv_failedCommands (entry_view "session-timeline:session:w:s" dropped))
    = [("c", false)].
Proof. vm_compute. by repeat split. Qed.

(** Dispatched again, the same command is sealed and sent anew. *)
Definition sent_again : Bus :=
  bus_run (Settles 0 :: Dispatch 4 true (command "c" Safe) :: sends_envelope 1 "c" "y") dropped.
Example failed_read_seals_second_envelope :
  bs_log sent_again
  = [Log_stored "c"; Log_stored "c"; Log_enqueued "c" (envelope "c" "x");
     Log_stored "c"; Log_stored "c"; Log_enqueued "c" (envelope "c" "y")].
Proof. vm_compute. reflexivity. Qed.

(** *** A later command of a lane runs while an earlier one does *)

Definition live_call (i : nat) : list event := [InsideAnswers 1 i; OutsideAnswers 1 i connects].
Definition settled_outcome (a : action (D:=unit) (R:=nat)) : option (answer a) :=
  match a with
  | Acceptance => Some (Success {| ca_commandId := "b"; ca_workspaceSequence := 1; ca_revision := 1;
                                   ca_acceptedAt := 1; ca_state := CS_accepted |})
  | Outcome => Some (Success {| rt_commandId := "b"; rt_fingerprint := ""; rt_receivedAt := 1;
                                rt_result := Some 0%nat; rt_terminalError := None |})
  | _ => None
  end.
Definition overlap : Bus :=
  bus_run
    ([TransportChanges (λ _ _, Some (λ c, bool_decide (cc_commandId c = "b")))]
     ++ [Dispatch 1 true (command "a" Never)] ++ live_call 0
     ++ [Dispatch 1 true (command "b" Never); OutsideAnswers 1 1 (seals "b" "x"); OutboxAnswers 1 1;
         OutsideAnswers 1 1 settled_outcome; OutboxAnswers 1 1; OutsideAnswers 1 1 settled_outcome;
         InsideAnswers 1 1; OutboxAnswers 1 1; Settles 1]
     ++ [Dispatch 1 true (command "c" Never)] ++ live_call 2) start.
Example lane_runs_two_at_once :
  map command_lane [command "a" Never; command "b" Never; command "c" Never]
  = replicate 3 "session-timeline:session:w:s"
  ∧ filter (λ e, match e with Log_executing _ | Log_executed _ _ _ => true | _ => false end = true) (bs_log overlap)
    = [Log_executing "a"; Log_executing "c"].
Proof. vm_compute. by repeat split. Qed.

(** *** Witnesses *)

Definition all_safe (id : string) : CommandRetryPolicy := Safe.
Definition harmless (e : event) : bool :=
  match e with
  | Dispatch _ _ c => bool_decide (cc_retry c = Safe)
  | OutboxFails _ _ _ => false
  | _ => true
  end.
Lemma harmless_proper e (b : Bus) : harmless e = true → proper all_safe e b.
Proof. destruct e; try done. cbn. by intros ->%bool_decide_eq_true. Qed.
Lemma run_reachable events (b : Bus) :
  reachable all_safe db_wf b → forallb harmless events = true → reachable all_safe db_wf (bus_run events b).
Proof.
  revert b. induction events as [|e events IH]; intros b Hb; [done|]. cbn. intros [He Hev]%andb_prop.
  apply (IH (bus_step e b)); [|done]. apply reach_step; [done|]. by apply harmless_proper.
Qed.
Lemma start_reachable : reachable all_safe db_wf start.
Proof. apply reach_start; [by intros id e|]. intros e He. vm_compute in He. by apply not_elem_of_nil in He. Qed.
Lemma sent_reachable : reachable all_safe db_wf sent.
Proof. apply run_reachable; [apply start_reachable|reflexivity]. Qed.
Lemma resumed_reachable : reachable all_safe db_wf resumed.
Proof.
  apply run_reachable; [|reflexivity]. apply run_reachable; [apply sent_reachable|reflexivity].
Qed.

Lemma deliveries_follow_life_witness :
  reachable all_safe db_wf resumed ∧ delivery (log_of "c" (bs_log resumed)) ≠ None.
Proof.
  split; [apply resumed_reachable|].
  destruct (deliveries_follow_life all_safe db_wf resumed "c" resumed_reachable eq_refl) as (d & Hd & _).
  rewrite Hd. discriminate.
Defined.
Lemma requests_are_rightful_witness :
  ∃ (b : Bus) e new, bs_log (bus_step e b) = bs_log b ++ new ∧ Log_enqueued "c" (envelope "c" "x") ∈ new
    ∧ Forall (rightful all_safe (bus_step e b)) new.
Proof.
  set (b := bus_run (cloud :: Dispatch 1 true (command "c" Safe) :: take 5 (sends_envelope 0 "c" "x")) start).
  assert (Hb : reachable all_safe db_wf b) by (apply run_reachable; [apply start_reachable|reflexivity]).
  destruct (requests_are_rightful all_safe db_wf b (OutboxAnswers 1 0) Hb I) as (new & Hl & Hn).
  exists b, (OutboxAnswers 1 0), new. split; [exact Hl|split; [|exact Hn]].
  assert (Hlog : bs_log (bus_step (OutboxAnswers 1 0) b)
    = bs_log b ++ [Log_stored "c"; Log_enqueued "c" (envelope "c" "x")]) by (vm_compute; reflexivity).
  rewrite Hlog in Hl. clear -Hl. clearbody b. apply app_inv_head in Hl. subst new. apply list_elem_of_further, list_elem_of_here.
Defined.
Lemma one_envelope_until_completed_witness :
  ∃ (l1 l2 : list (LogEntry (R:=nat))) e, bs_log resumed = l1 ++ Log_enqueued "c" (envelope "c" "x") :: l2 ++ e :: []
    ∧ (∀ env, e = Log_enqueued "c" env → env = envelope "c" "x").
Proof.
  exists [Log_stored (R:=nat) "c"; Log_stored "c"], [Log_stored (R:=nat) "c"; Log_stored "c"], (Log_enqueued (R:=nat) "c" (envelope "c" "x")).
  assert (Hlog : bs_log resumed = [Log_stored "c"; Log_stored "c"] ++ Log_enqueued "c" (envelope "c" "x")
    :: [Log_stored "c"; Log_stored "c"] ++ Log_enqueued "c" (envelope "c" "x") :: []) by (vm_compute; reflexivity).
  assert (Hno : Forall (λ e, completes_delivery "c" e = false) [Log_stored (R:=nat) "c"; Log_stored "c"]) by (by repeat constructor).
  split; [exact Hlog|].
  exact (proj2 (one_envelope_until_completed all_safe db_wf resumed "c" _ _ _ _ [] resumed_reachable eq_refl Hlog Hno)).
Defined.

(** Two live commands of a lane: the second waits until the first has ended. *)
Definition refuses (a : action (D:=unit) (R:=nat)) : option (answer a) :=
  match a with Execute => Some (Failure (Cause_error "refused")) | _ => None end.
Definition in_turn : list event :=
  [Dispatch 1 true (command "a" Never)] ++ live_call 0
  ++ [Dispatch 1 true (command "c" Never); InsideAnswers 1 1; OutsideAnswers 1 0 refuses; Settles 0] ++ live_call 1.
Lemma lane_runs_in_order_witness :
  ∃ f, bs_fibers (bus_run in_turn start) !! 0%nat = Some f ∧ finished (fb_prog f) = true.
Proof.
  assert (H0 : is_Some (bs_fibers (bus_run in_turn start) !! 0%nat)) by (vm_compute; eauto).
  destruct H0 as [f0 H0].
  assert (H1 : ∃ f1, bs_fibers (bus_run in_turn start) !! 1%nat = Some f1 ∧ waits_turn (fb_prog f1) = false)
    by (vm_compute; eauto).
  destruct H1 as (f1 & H1 & Hw).
  assert (Hr : ∃ r0 r1, bs_reservations (bus_run in_turn start) = [r0; r1]
    ∧ rs_lane r0 = "session-timeline:session:w:s" ∧ rs_lane r1 = "session-timeline:session:w:s"
    ∧ rs_durable r0 = false ∧ rs_durable r1 = false) by (vm_compute; eauto 10).
  destruct Hr as (r0 & r1 & Hr & Hl0 & Hl1 & Hd0 & Hd1).
  assert (Hlive : live_lane "session-timeline:session:w:s" (bus_run in_turn start)).
  { intros k r Hk _. rewrite Hr in Hk. destruct k as [|[|k]]; [| |done]; injection Hk as <-; done. }
  assert (Hr0 : bs_reservations (bus_run in_turn start) !! 0%nat = Some r0) by (by rewrite Hr).
  assert (Hr1 : bs_reservations (bus_run in_turn start) !! 1%nat = Some r1) by (by rewrite Hr).
  exists f0. split; [exact H0|].
  exact (lane_runs_in_order in_turn empty_store [] "session-timeline:session:w:s" 0 1 r0 r1 f0 f1
    Hlive Hr0 Hl0 Hr1 Hl1 Nat.lt_0_1 H0 H1 Hw).
Defined.
End client_demo.
